(* ===== verification/_CoqProject ===== *)
-Q . S2P
Prelude.v
Json.v
Keys.v
Outcome.v
Journal.v
Expr.v
Listen.v
Secrets.v
SecretsSpec.v
Drive.v
Calls.v
Branches.v
Model.v
Tasks.v
Waits.v
Compose.v
Interp.v
Execute.v
Types.v
Store.v
Index.v
Admit.v
Mailbox.v
Triggers.v
Lifecycle.v
Control.v
RunStore.v
Logic.v
Ordered.v
Rows.v
Steps.v
Preserve.v
Terminate.v
Operations.v
History.v
Samples.v
Safety.v
Memory.v
MemorySpec.v
DueSpec.v
FinishSpec.v
QuerySpec.v
Fuel.v
HoldSpec.v
Frame.v
MailboxSpec.v
ControlSpec.v
RecordSpec.v
DefinitionSpec.v
Alone.v
DriveSamples.v
CallsSpec.v
ReplaySpec.v
TaskSpec.v
Refines.v
Ops.v
Saves.v
Traces.v
PoolSpec.v
Lease.v
FleetSpec.v
Analysis.v
AnalysisSpec.v
FlowSpec.v
Survey.v
Listed.v
Parser.v
TaskParser.v
DocumentParser.v
ParserSpec.v
Validator.v
Valid.v
Schedules.v
SchedulesSpec.v
Operator.v
Registry.v
Admitter.v
AdmitterSpec.v
Worker.v
WorkerSpec.v
