(* ===== verification/Prelude.v ===== *)
(** * ouro: the durable workflow engine, verified

    ** The program

    ouro runs workflows that survive crashes. A run is driven by one worker at a
    time: the worker claims it from a store, replays the records an earlier drive
    left in the run's journal, executes on, and saves each effect before it acts
    on it. The parts, and where the source keeps them:

    - the store ([crates/durable]): [RunStore], the operations a worker, a host and
      an operator use ([engine.rs], written once against the [Transaction] trait of
      [backend.rs]); the backends that give transactions over ordered rows
      ([memory.rs], [sqlite/], [postgres/]); the data and the trait ([lib.rs],
      [control.rs]);
    - the workflow language ([crates/ows]): documents ([model.rs]), expressions
      ([expr.rs]), events ([events.rs]), the journal's records ([durable.rs]),
      secrets ([secrets.rs]) and the interpreter ([run.rs]);
    - the runtime ([crates/runtime]): the worker's loop, schedules, the host's
      registry and telemetry around the two.

    The store is the part the others rely on: that one worker at a time acts for a
    run, that what a drive saved is what a replay loads, that an event is delivered
    and taken once, that a trigger fires once, that a run's end ends its children.
    The interpreter is what makes a drive: it walks the document, saves what it did
    before it acts on it, and answers from those records when it runs again. The
    development models both whole: the store with what it guarantees over any
    interleaving of its operations, the interpreter with what a journal makes of it.

    ** The model, file by file

    Data, each file naming the source it translates:
    - this file: results, record update, saturating and checked machine integers
      ([sat_add64], [checked_addu64], [is_i64]), string searches, ordered iteration
      over a [BTreeMap], the tactics and hint bases of the development;
    - [Json]: [serde_json::Value]; what comes from libraries that are not translated
      (chrono, serde_json's printer, jq, YAML, SHA-256) is the class [Host];
    - [Outcome], [Journal]: errors, statuses, journal records, the transitions a
      record may make, annotations ([run.rs] section 2, [durable.rs]);
    - [Expr], [Listen]: delimiters and reading of expressions, event filters,
      correlation and consumption strategies ([expr.rs], [events.rs]);
    - [Secrets]: resolution, redaction and restoring of secrets ([secrets.rs]);
    - [Types]: the store's records and errors ([lib.rs], [control.rs]).

    The interpreter, [run.rs] of [crates/ows]:
    - [Drive]: a piece of the interpreter is a program of a free monad ([drive])
      over the accesses to the fields branches share ([Shared], the locked fields
      of [Run]), the journal, the host's seams and the clock; records, timers and
      the jump budget (section 3); [Calls]: a call of the host, [Run::call];
    - [Branches]: what is done with a future: its result looked at ([reify]), its
      own context ([in_context]), a timer around it ([with_timer]), several polled
      together ([pool], whose turns the scheduler chooses by answering [OTurn]);
    - [Model]: documents as parsed ([model.rs] section 1, durations and names);
      [Tasks]: arguments, transforms, schemas, durations, retry delays, raised
      errors; [Waits]: [sleep], [emit], [next_event], child runs;
    - [Compose]: lists, extensions, reusable functions, iterations and forks, over
      the function that runs one task; [Interp]: the kinds of tasks, [listen],
      [try], the spent budget, [steps] and the checkpoint of [task], which ties the
      knot; [Execute]: [execute] from the loaded records to the outcome;
    - [Lease]: a worker's fence bound to the store operations a drive journals and
      takes events through ([lib.rs], [Lease]).
    The workflow context, a [&mut Value] the source passes down, is the operation
    [OContext] of a program; [in_context] gives a branch its copy. A task's [parent]
    and everything else only the observer is told are left out.

    Documents, [model.rs] of [crates/ows]:
    - [Parser], [TaskParser], [DocumentParser]: from a YAML value to a workflow
      (section 2). A parser is a value with the problems it reports; an [Option]
      left early is [bind_some]; JSON Schema, cron, timestamps, time zones, the
      YAML reader and the official schema are the class [Libraries]. The members
      of an object are visited in the order of their keys.
    - [Analysis]: where a list's flow can go, the loops no task leaves (section 3),
      and what a definition can call (section 4); [Validator]: the checks of
      [validate] (section 3), each the list of its problems, over the host's
      [Catalog], which also holds what the jq compiler refuses.

    The store, in the order of [engine.rs]:
    - [Keys]: row keys (section 1); [Store]: a transaction is a program of a free
      monad over the operations of [Transaction], its meaning on one consistent
      set of rows is [exec], and [update] and [read] commit or refuse
      ([backend.rs]); rows are a finite map from (kind, id) to a [cell], the value
      the row's type serializes to, and [Row] is the interface of the types;
    - [Index]: the run row and the index rows derived from it; [Admit]: admission,
      leases, fences, compatibility (section 2); [Mailbox]: deliveries, copies,
      expiry, publication (section 3); [Triggers], [Lifecycle]: triggers,
      activation, buffered slots, the breaker, the end of a run and its
      descendants, firings (sections 4, 5); [Control]: operator commands, paging
      (section 7); [RunStore]: the operations, one transaction each (section 6);
    - [Memory]: the memory backend, another meaning of the same programs: reads and
      scans of shared rows that change between the operations, validated at the
      commit.

    The runtime, [crates/runtime]:
    - [Schedules]: [schedule.rs], the triggers of a schedule's activation, the firing
      of due slots, events offered to waiting triggers, notices handed on. A function
      is a program of a free monad ([sched]) over the calls of the store, the
      admitter, the clock and the sink; the cron and calendar libraries are the class
      [Calendar];
    - [Operator]: the runtime's [control.rs], what an operator asks of a store, and the
      engine's views of a definition and of a run, which only read;
    - [Registry]: [registry.rs] and [capabilities.rs], what a host registers, what a
      definition is validated against and bound to, what it needs, and the cache of
      that by generation of the registry; the schema validator, the jq compiler and
      the cache's hash are the class [RuntimeLibraries];
    - [Admitter]: [execution.rs], sections 2 and 4: the start check, admission by
      start, trigger and child, and what the interpreter and a handler are answered.
      A function is a program of a free monad ([rt]) over the calls of the store, the
      host's resolver, handlers and runners, and the clock; what Rust's [?] passes on
      is a value of [fault], so that a refusal is told from an interruption as the
      code tells them, by the type of the error. A program of [Schedules] runs in one
      of [Admitter] ([scheduled]), which answers its admissions;
    - [Worker]: [execution.rs], sections 1 and 3: a drive from its claim to the end of
      its lease, as a program of the same monad, and the worker's loop as a state
      ([Loop]) with one step per branch that [select!] or the drain takes. A run that
      executes together with its heartbeat is one operation ([RoRace]): what it may do
      meanwhile is the interpreter's, and [Admitter]'s for what it is answered. Of
      [testing.rs] it has the rounds of an isolated run ([run_isolated]) and what a
      replay is made of ([replay_of]).

    State is explicit. An operation of [RunStore] named [x] is [x_tx], a program;
    its answer and rows are [exec (x_tx ..) r]; [committed] is what it leaves. A
    failed transaction leaves the rows as they were. [History.operation] lists
    every operation and command, [step] is one of them committed, and [reachable]
    rows are what any sequence of them leaves from the empty store: interleavings
    of workers are such sequences, since a transaction is atomic ([MemorySpec] shows
    it of the memory backend).

    ** The proofs

    - [Logic], [Ordered]: partial and, in [Steps], total weakest preconditions of
      transactions, [stable R p] (a program relates the rows before and after by a
      preorder, composed by the tactic [solve_stable] from one lemma per write),
      sorted rows;
    - [Rows], [Steps]: the invariant of stored rows ([Inv]), what later rows keep of
      earlier ones ([evolves]), rules that carry both through a transaction;
      [Preserve], [Terminate], [Operations]: one lemma per procedure and operation;
      [History], [Frame]: histories, fences, and rows few operations
      write ([Framed], [Kept] and [KeptBudget] are the interfaces a relation gives to
      hold of every history, the last over the grants of [spend]; a tree's budget is
      a row only [spend] and the end of its root write); [Samples]: the concrete
      stores of the witnesses.

    - [Alone]: a program of the interpreter that runs without interference,
      with its effects in order, and with its context; [Ops]: predicates on every
      operation a program can ask for, proved by one rule per construct ([ops]);
      [Traces]: the sequences of operations and answers a program ends after, and
      that those of branches polled together are interleavings of theirs;
      [DriveSamples]: hosts, journals and documents on which theorems are applied.

    ** What is shown

    - Histories ([Safety]): a superseded fence never acts again; a live run's
      journal only advances and a completed call's answer stays; no claim takes a
      run from an owner that may act; the index rows are those the run rows call
      for; an ended run is final; a live child has a live parent; parents form no
      cycle.
    - Concurrency ([MemorySpec]): a transaction the memory backend commits did what
      its program does alone on the rows it committed over.
    - Leases ([DueSpec], [FinishSpec]): who gets a run and when a claim
      is refused; the due listing is the first due runs of a version the worker
      admits, or of the empty version, and those but the empty ones are its to claim;
      what the end of a drive leaves, with its backoff.
    - The journal and events ([RecordSpec], [MailboxSpec]): what a save leaves, that
      it is idempotent; that over any history, until a tree's root ends, its budget
      counts the jumps granted and nothing resets it, and none is granted past its
      limit; an event is delivered once per run and taken once, and what becomes of
      a targeted delivery repeated without its target.
    - Trees ([Fuel], [HoldSpec]): ending and holding a tree terminate and reach all
      of it.
    - Operators ([ControlSpec], [DefinitionSpec], [QuerySpec], [Operator]): a command has one
      effect, a stopped store rests, saved versions are permanent, activation is
      compare-and-swap on its epoch, the breaker, fed whatever outcomes of whichever
      runs, trips exactly at the threshold and bars admission, pages visit every row once; a list or a history followed by its
      cursors is its reference, the stored runs its filter takes, and the counts add up
      to it; a pause is shown with the slots and queues it set aside.
    - Calls ([CallsSpec], [ReplaySpec]): an at-most-once call is dispatched at most
      once, after its intent was saved, by whichever of the drives of its run,
      whatever other branches do, whichever saves fail, wherever drives are cut and
      however long one goes on after it lost the run; a call that answered is
      answered again from its record; a fresh call saves, sends and saves in that
      order.
    - Both halves together ([FleetSpec]): workers driving a run over the store, with
      every other operation going on, simulate the system of [CallsSpec], so an
      at-most-once call is sent once whatever the store does to its drives.
    - Drives ([Saves], [PoolSpec]): every record a drive can ask to save is redacted
      and under a key its next drive accepts, whatever it is answered; a concurrent
      [for] answers in item order, however its iterations interleave.
    - Tasks and runs ([TaskSpec], [DriveSamples]): a task and a run end once and are
      answered from their records afterwards; and the one count an expression reads,
      [$run.jumps], that recovery does not restore, with the run it breaks.
    - Documents ([ParserSpec]): what is parsed is fit to run, and the
      fuel of the parser is enough.
    - Analysis ([AnalysisSpec], [FlowSpec], [Listed]): the check for endless loops
      reports the loops of a list's graph that nothing leaves, and the interpreter
      follows that graph; what a drive of a document can call is what the analysis
      lists; with what each of the two overlooks. [Survey] is the interface: a
      class of tasks closed under a document's structure, what a task of it may ask
      of the host, and that a drive asks for nothing else.
    - Validation ([Valid]): a drive of a valid document asks for nothing its host does
      not have, and its jumps land; with two expressions validation does not check.
    - Schedules ([SchedulesSpec]), over every trace of questions and answers: no due
      slot is passed over; a firing asks only for its slot's run and leaves a trigger
      that is not due, also in the store's rows after it; an event starts at most one
      run; a notice is acknowledged only after it was handed on, and none is lost.
    - Admission ([AdmitterSpec]), over answers that do not change or over any: the
      start check is exact and ends, against what the documents' tasks call, and what
      it passes calls nothing the host lacks, but for the handler of a spent budget,
      which it skips; a handler is called only within its schema and
      under a lease just confirmed; a child has its place in its tree and its host
      data; a handler reads the runs, records and children of its lineage and
      delivers below itself; a start answered as refused was refused definitely, and
      one that may have left the run behind is an interruption; a
      cached check stands for its own registry; with a text the check confuses with a
      saved one, and an outage a workflow task reads as an answer.
    - The worker ([WorkerSpec]): a drive keeps to the lease it claimed and gives the
      run up once; a run resumes as it was admitted, unless the start check of its
      children refuses it; the loop drives each due run
      once, within its bound, and returns when what it started has ended, losing no
      failure; a replay answers each call as the run's records do, a value with its
      secrets and an error without them, contrary to its doc, and asks nothing of the
      host.
    - Keys ([QuerySpec]): instants sort as time does; kinds are separate.
    - Secrets ([SecretsSpec]): a redacted record restores, and hides a secret that
      no path holds, when the secrets can be told apart; and one case where they cannot.

    ** Bounds and fuel

    The loops of the source that follow run rows are given fuel: [cascade] (ending a
    run's descendants, in [terminate] and so in cancels, ends of drives and firings
    that replace a run) and [hold_tree]; running out is the error [EFuel], which
    the source does not have. [Fuel] shows for cancels and ends of drives, and
    [HoldSpec] for holds, that the number of live runs is enough and that more
    changes nothing. The interpreter's [task] has a fuel that bounds the nesting of
    tasks and the turns of each loop: a document may loop without end, so none is
    enough for all; running out is [DHalt OutOfFuel], which no step of the source
    gives, and [Refines] shows that a drive that did not run out does the same under
    any larger fuel. The start check has a fuel, how many versions it may enter below
    one another; [AdmitterSpec] shows that as many as the catalog has are enough. The
    parser's fuel is the nesting of the document ([height]), and
    [ParserSpec] shows that more changes nothing. [trim_left] is given the length of
    its string. Other recursion
    is structural. Integers are [Z] with the source's saturating and checked
    operations written out; times are [i64], sequence numbers [u64].

    ** Not modelled

    - The SQLite and PostgreSQL backends: SQL text and driver calls. The engine sees
      only the [Transaction] trait, whose meaning is [Store].
    - The conformance suite and the fault injector: tests; [Memory]'s metrics.
    - [SchemaError]: a store written by another version.
    - The observer's events of the interpreter, which change nothing it does; the
      order in which a runtime polls futures (every order is modelled), and the
      text of errors of jsonschema, serde and jq (parameters).
    - Of the runtime: telemetry and observers; the cancellation tokens of calls (a
      call or a drive that is cancelled before it got its permit is a refused permit);
      [recover_once], the gauges of [observe_backlog]; in [testing.rs], the private
      store that a dry run or a replay is driven in, and what is reported of them;
      of [control.rs], the requests that only pass a read on.
    - Errors carry the source's text where it is fixed; an error of a library is the
      library's. *)
From stdpp Require Export prelude gmap strings list fin_maps sorting countable pretty.
From Stdlib Require Export ZArith Lia.
#[export] Set Default Goal Selector "!".

Declare Scope ouro_scope.
Delimit Scope ouro_scope with ouro.
#[global] Open Scope string_scope.
#[global] Open Scope list_scope.
#[global] Open Scope Z_scope.
#[global] Open Scope ouro_scope.

(** ** Fallible values: Rust's [Result] *)

Inductive result (E A : Type) : Type :=
| Ok (a : A)
| Err (e : E).
Arguments Ok {E A} a.
Arguments Err {E A} e.

#[export] Instance result_eq_dec `{EqDecision E, EqDecision A} : EqDecision (result E A).
Proof. solve_decision. Defined.

#[export] Instance result_ret E : MRet (result E) := λ A a, Ok a.
#[export] Instance result_bind E : MBind (result E) := λ A B f m,
  match m with Ok a => f a | Err e => Err e end.
#[export] Instance result_fmap E : FMap (result E) := λ A B f m,
  match m with Ok a => Ok (f a) | Err e => Err e end.

Definition ok_or {E A} (o : option A) (e : E) : result E A :=
  match o with Some a => Ok a | None => Err e end.

Definition is_ok {E A} (r : result E A) : bool :=
  match r with Ok _ => true | Err _ => false end.

(** ** Functional record update: [r <| field := v |>] *)

Class Eta (T : Type) := eta : T → T.
Class Update {T A : Type} (proj : T → A) := update : (A → A) → T → T.
Arguments update {T A} proj {_} f r.

Ltac solve_update :=
  match goal with
  | |- @Update ?T ?A ?proj =>
    let i := constr:(_ : Eta T) in
    let h := lazymatch i with ?h => h end in
    let e := eval unfold h in (h : T → T) in
    let e' := eval pattern proj in e in
    lazymatch e' with
    | ?F _ =>
      let u := eval cbv beta in
        (fun (f : A → A) (r : T) => F (fun r' : T => f (proj r')) r) in
      exact u
    end
  end.
#[export] Hint Extern 1 (Update _) => solve_update : typeclass_instances.

Notation "r <| p := v |>" := (update p (λ _, v) r) (at level 1, p at level 200) : ouro_scope.
Notation "r <| p ::= f |>" := (update p f r) (at level 1, p at level 200) : ouro_scope.

(** ** Machine integers

    [i64] and [u64] values are integers of [Z]; the operations the source uses
    on them are written out with their bounds. *)

Definition i64_min : Z := - 2 ^ 63.
Definition i64_max : Z := 2 ^ 63 - 1.
Definition u64_max : Z := 2 ^ 64 - 1.
Definition u32_max : Z := 2 ^ 32 - 1.
Definition is_i64 (z : Z) : Prop := i64_min ≤ z ≤ i64_max.
Definition is_u64 (z : Z) : Prop := 0 ≤ z ≤ u64_max.

Definition clamp (lo hi z : Z) : Z := Z.max lo (Z.min hi z).
(** [i64::saturating_add], [i64::saturating_sub]. *)
Definition sat_add64 (a b : Z) : Z := clamp i64_min i64_max (a + b).
Definition sat_sub64 (a b : Z) : Z := clamp i64_min i64_max (a - b).
(** [u64::saturating_add], [u64::saturating_sub], [u32::saturating_add]. *)
Definition sat_addu64 (a b : Z) : Z := Z.min u64_max (a + b).
Definition sat_subu64 (a b : Z) : Z := Z.max 0 (a - b).
Definition sat_addu32 (a b : Z) : Z := Z.min u32_max (a + b).
(** [u64::checked_add], [i64::checked_add]. *)
Definition checked_addu64 (a b : Z) : option Z :=
  if decide (a + b ≤ u64_max) then Some (a + b) else None.
Definition checked_add64 (a b : Z) : option Z :=
  if decide (is_i64 (a + b)) then Some (a + b) else None.
(** [u64::from(bool)]. *)
Definition z_of_bool (b : bool) : Z := if b then 1 else 0.

(** ** Strings

    A Rust [str] is the sequence of its UTF-8 bytes, here a [string] of
    [ascii]; comparison is bytewise, as in Rust. *)

Definition str_eqb (a b : string) : bool := bool_decide (a = b).
Definition str_ltb (a b : string) : bool := String.ltb a b.
Definition str_leb (a b : string) : bool := String.leb a b.

(** [str::strip_prefix], [str::starts_with]. *)
Fixpoint strip_prefix (p s : string) : option string :=
  match p, s with
  | EmptyString, _ => Some s
  | String a p', String b s' => if decide (a = b) then strip_prefix p' s' else None
  | _, _ => None
  end.
Definition starts_with (p s : string) : bool := bool_decide (is_Some (strip_prefix p s)).

(** [str::contains] of one character. *)
Fixpoint contains_char (c : Ascii.ascii) (s : string) : bool :=
  match s with
  | EmptyString => false
  | String a s' => bool_decide (a = c) || contains_char c s'
  end.

Fixpoint string_rev_onto (acc s : string) : string :=
  match s with EmptyString => acc | String a s' => string_rev_onto (String a acc) s' end.
Definition string_rev (s : string) : string := string_rev_onto "" s.
(** [str::strip_suffix]. *)
Definition strip_suffix (p s : string) : option string :=
  string_rev <$> strip_prefix (string_rev p) (string_rev s).
(** The first of [ps] that is a prefix of [s], removed. *)
Fixpoint strip_any (ps : list string) (s : string) : option string :=
  match ps with
  | [] => None
  | p :: ps => match strip_prefix p s with Some s' => Some s' | None => strip_any ps s end
  end.
Definition bytes (l : list Z) : string :=
  foldr (λ b s, String (Ascii.ascii_of_N (Z.to_N b)) s) "" l.
(** The UTF-8 encodings of the characters with the Unicode property
    [White_Space], which [str::trim] removes. *)
Definition white_space : list string :=
  bytes <$> ([[9]; [10]; [11]; [12]; [13]; [32]; [194; 133]; [194; 160]; [225; 154; 128];
    [226; 128; 168]; [226; 128; 169]; [226; 128; 175]; [226; 129; 159]; [227; 128; 128]]
    ++ ((λ n, [226; 128; n]) <$> seqZ 128 11)).
Fixpoint trim_left (ps : list string) (fuel : nat) (s : string) : string :=
  match fuel with
  | O => s
  | S n => match strip_any ps s with Some s' => trim_left ps n s' | None => s end
  end.
(** [str::trim]. *)
Definition trim_start (s : string) : string := trim_left white_space (String.length s) s.
Definition trim_end (s : string) : string :=
  let r := string_rev s in
  string_rev (trim_left (string_rev <$> white_space) (String.length r) r).
Definition trim (s : string) : string := trim_end (trim_start s).
(** [str::contains] of a string. *)
Fixpoint contains_str (p s : string) : bool :=
  starts_with p s || match s with EmptyString => false | String _ s' => contains_str p s' end.

(** ** Ordered iteration over a [BTreeMap] *)

Definition key_le {A} (x y : string * A) : Prop := String.le (fst x) (fst y).
#[export] Instance key_le_dec {A} : RelDecision (@key_le A).
Proof. intros x y. unfold key_le. apply _. Defined.
(** The entries of a string-keyed [BTreeMap] in ascending key order. *)
Definition entries {A} (m : gmap string A) : list (string * A) :=
  merge_sort key_le (map_to_list m).
Definition keys {A} (m : gmap string A) : list string := (entries m).*1.
Definition values {A} (m : gmap string A) : list A := (entries m).*2.

(** [Option::is_some_and], [Option::is_none_or]. *)
Definition is_some_and {A} (o : option A) (p : A → bool) : bool :=
  match o with Some a => p a | None => false end.
Definition is_none_or {A} (o : option A) (p : A → bool) : bool :=
  match o with Some a => p a | None => true end.

(** ** Lemmas shared by the components *)

#[export] Instance key_le_total {A} : Total (@key_le A).
Proof. intros x y. unfold key_le. apply (total String.le). Qed.
#[export] Instance key_le_trans {A} : Transitive (@key_le A).
Proof. intros x y z. unfold key_le. by etrans. Qed.

Lemma entries_perm {A} (m : gmap string A) : entries m ≡ₚ map_to_list m.
Proof. apply merge_sort_Permutation. Qed.

Lemma elem_of_entries {A} (m : gmap string A) k v : (k, v) ∈ entries m ↔ m !! k = Some v.
Proof. by rewrite entries_perm, elem_of_map_to_list. Qed.

Lemma elem_of_keys {A} (m : gmap string A) k : k ∈ keys m ↔ is_Some (m !! k).
Proof.
  unfold keys. rewrite list_elem_of_fmap. split.
  - intros [[k' v] [-> H%elem_of_entries]]. simpl. eauto.
  - intros [v H]. exists (k, v). by rewrite elem_of_entries.
Qed.

Lemma elem_of_values {A} (m : gmap string A) v : v ∈ values m ↔ ∃ k, m !! k = Some v.
Proof.
  unfold values. rewrite list_elem_of_fmap. split.
  - intros [[k v'] [-> H%elem_of_entries]]. eauto.
  - intros [k H]. exists (k, v). by rewrite elem_of_entries.
Qed.

Lemma entries_sorted {A} (m : gmap string A) : StronglySorted key_le (entries m).
Proof. apply StronglySorted_merge_sort; apply _. Qed.

Lemma strip_prefix_app p s : strip_prefix p (p +:+ s) = Some s.
Proof. induction p as [|a p IH]; simpl; [done|]. by rewrite decide_True. Qed.

Lemma strip_prefix_Some p s t : strip_prefix p s = Some t ↔ s = p +:+ t.
Proof.
  split; [|intros ->; apply strip_prefix_app].
  revert s. induction p as [|a p IH]; intros [|b s]; simpl; try (by intros [= <-]).
  case_decide as Hab; [|done]. intros H%IH. by subst.
Qed.

Lemma starts_with_app p s : starts_with p (p +:+ s) = true.
Proof. unfold starts_with. rewrite strip_prefix_app. by apply bool_decide_eq_true. Qed.

Lemma string_app_assoc (a b c : string) : (a +:+ b) +:+ c = a +:+ (b +:+ c).
Proof.
  induction a as [|x a IH]; simpl; [done|].
  change (String x ((a +:+ b) +:+ c) = String x (a +:+ (b +:+ c))). by rewrite IH.
Qed.

Lemma rev_onto_app acc a b : string_rev_onto acc (a +:+ b) = string_rev_onto (string_rev_onto acc a) b.
Proof. revert acc. induction a as [|x a IH]; intros acc; [done|]. apply IH. Qed.
Lemma rev_onto acc a : string_rev_onto acc a = string_rev a +:+ acc.
Proof.
  unfold string_rev. revert acc. induction a as [|x a IH]; intros acc; [done|]. cbn.
  rewrite (IH (String x acc)), (IH (String x "")), string_app_assoc. done.
Qed.
Lemma string_rev_app a b : string_rev (a +:+ b) = string_rev b +:+ string_rev a.
Proof. unfold string_rev at 1. by rewrite rev_onto_app, rev_onto. Qed.
Lemma string_rev_involutive s : string_rev (string_rev s) = s.
Proof.
  induction s as [|x s IH]; [done|]. change (String x s) with (String x "" +:+ s).
  by rewrite !string_rev_app, IH.
Qed.
Lemma strip_suffix_app p s : strip_suffix p (s +:+ p) = Some s.
Proof. unfold strip_suffix. rewrite string_rev_app, strip_prefix_app. cbn. by rewrite string_rev_involutive. Qed.
Lemma strip_suffix_Some p s t : strip_suffix p s = Some t ↔ s = t +:+ p.
Proof.
  split; [|intros ->; apply strip_suffix_app]. unfold strip_suffix.
  intros (u & Hu%strip_prefix_Some & ->)%fmap_Some. apply (f_equal string_rev) in Hu.
  by rewrite string_rev_app, !string_rev_involutive in Hu.
Qed.

Lemma string_length_app (a b : string) :
  String.length (a +:+ b) = (String.length a + String.length b)%nat.
Proof.
  induction a as [|x a IH]; simpl; [done|].
  change (S (String.length (a +:+ b)) = S (String.length a + String.length b)%nat). by rewrite IH.
Qed.

Lemma string_app_inj_l (a b c d : string) :
  String.length a = String.length c → a +:+ b = c +:+ d → a = c ∧ b = d.
Proof.
  revert c. induction a as [|x a IH]; intros [|y c]; simpl; try (by intros).
  intros [= Hlen] Heq. change (String x (a +:+ b) = String y (c +:+ d)) in Heq.
  injection Heq as -> Heq. by destruct (IH c Hlen Heq) as [-> ->].
Qed.

Lemma sat_add64_bounds a b : is_i64 (sat_add64 a b).
Proof. unfold is_i64, sat_add64, clamp, i64_min, i64_max. lia. Qed.

Lemma sat_add64_exact a b : is_i64 (a + b) → sat_add64 a b = a + b.
Proof. unfold is_i64, sat_add64, clamp. lia. Qed.

Lemma sat_add64_mono a b c : b ≤ c → sat_add64 a b ≤ sat_add64 a c.
Proof. unfold sat_add64, clamp. lia. Qed.

Lemma sat_add64_le a b : is_i64 a → 0 ≤ b → a ≤ sat_add64 a b.
Proof. unfold is_i64, sat_add64, clamp. lia. Qed.

(** The orders of strings as the source's comparisons. *)
Lemma str_ltb_leb a b : str_ltb a b = negb (str_leb b a).
Proof.
  unfold str_ltb, str_leb, String.ltb, String.leb. rewrite (String.compare_antisym b a).
  by destruct (String.compare a b).
Qed.
Lemma str_leb_le a b : str_leb a b = true ↔ String.le a b.
Proof. unfold str_leb. symmetry. apply Is_true_true. Qed.
Lemma str_leb_trans a b c : str_leb a b = true → str_leb b c = true → str_leb a c = true.
Proof. rewrite !str_leb_le. by etrans. Qed.

Create HintDb ouro.
Create Rewrite HintDb ouro.
#[export] Hint Resolve sat_add64_bounds sat_add64_le : ouro.
#[export] Hint Rewrite @strip_prefix_app @starts_with_app : ouro.

(** Case analysis on the first [match] of a hypothesis or of the goal. *)
Ltac destruct_match_in H :=
  match type of H with
  | context [match ?x with _ => _ end] => destruct x eqn:?
  end.
