(* ===== verification/Json.v ===== *)
(** * JSON values

    [serde_json::Value] as the engine uses it. The crates enable
    [preserve_order], under which two objects are equal when they hold the same
    members in any order: an object is a finite map, so that equality of the
    model is equality ([==]) of the program. A number is one of serde_json's
    three representations: a non-negative integer ([u64]), a negative integer
    ([i64]) or a finite [f64], an IEEE 754 double of the Standard Library's
    [SpecFloat] (equality of doubles is equality of representations, which
    tells [-0.0] from [0.0]; the program's does not). *)
From S2P Require Import Prelude.
From Stdlib Require Import SpecFloat.

Inductive number :=
| PosInt (n : Z)
| NegInt (n : Z)
| Float (f : spec_float).

#[export] Instance spec_float_eq_dec : EqDecision spec_float.
Proof. solve_decision. Defined.
#[export] Instance number_eq_dec : EqDecision number.
Proof. solve_decision. Defined.

Module Num.
(** IEEE binary64. *)
Definition prec : Z := 53.
Definition emax : Z := 1024.
Definition f64_of_z (z : Z) : spec_float := binary_normalize prec emax z 0 false.

Definition as_i64 (n : number) : option Z :=
  match n with
  | PosInt z => if decide (z ≤ i64_max) then Some z else None
  | NegInt z => Some z
  | Float _ => None
  end.
Definition as_u64 (n : number) : option Z :=
  match n with PosInt z => Some z | _ => None end.
Definition as_f64 (n : number) : option spec_float :=
  match n with
  | PosInt z | NegInt z => Some (f64_of_z z)
  | Float f => Some f
  end.
Definition is_finite (f : spec_float) : bool :=
  match f with S754_zero _ | S754_finite _ _ _ => true | _ => false end.
(** [Number::from_f64]: only a finite double is a JSON number. *)
Definition from_f64 (f : spec_float) : option number :=
  if is_finite f then Some (Float f) else None.
(** [Number::from] of an [i64] or a [u64]. *)
Definition of_z (z : Z) : number := if decide (0 ≤ z) then PosInt z else NegInt z.
Definition f64_add (a b : spec_float) : spec_float := SFadd prec emax a b.
End Num.

#[warnings="-register-all"]
Inductive value :=
| VNull
| VBool (b : bool)
| VNum (n : number)
| VStr (s : string)
| VArr (l : list value)
| VObj (m : gmap string value).

#[export] Instance value_eq_dec : EqDecision value.
Proof.
  refine (
    fix go (x y : value) : Decision (x = y) :=
    let _ : EqDecision value := go in
    match x, y with
    | VNull, VNull => left eq_refl
    | VBool a, VBool b => cast_if (decide (a = b))
    | VNum a, VNum b => cast_if (decide (a = b))
    | VStr a, VStr b => cast_if (decide (a = b))
    | VArr a, VArr b => cast_if (decide (a = b))
    | VObj a, VObj b => cast_if (decide (a = b))
    | _, _ => right _
    end); congruence.
Defined.

(** [json!] of an integer. *)
Definition vint (z : Z) : value := VNum (Num.of_z z).

(** [Value::get] with a string key, [Value]'s index [v[k]]. *)
Definition vget (k : string) (v : value) : option value :=
  match v with VObj m => m !! k | _ => None end.
Definition vindex (k : string) (v : value) : value := default VNull (vget k v).
Definition as_str (v : value) : option string :=
  match v with VStr s => Some s | _ => None end.
Definition as_bool (v : value) : option bool :=
  match v with VBool b => Some b | _ => None end.
Definition as_u64 (v : value) : option Z :=
  match v with VNum n => Num.as_u64 n | _ => None end.
Definition is_null (v : value) : bool :=
  match v with VNull => true | _ => false end.

(** ** What the engine takes from outside its source *)

(** What one jq program does on one input ([expr.rs], [run]): refused by the
    loader or compiler, no output, a first output (or a value JSON cannot
    hold), an error, or [halt]. *)
Inductive jaq_outcome :=
| JInvalid (error : string)
| JEmpty
| JOutput (v : value)
| JNotJson (error : string)
| JRaised (error : string)
| JHalted.

Class Host := {
  (** [chrono::DateTime::from_timestamp_millis(_)] as RFC 3339. *)
  rfc3339 : Z → option string;
  (** The length of [serde_json::to_vec(_)], when it succeeds. *)
  to_vec_len : value → option Z;
  (** [Value::to_string]. *)
  value_to_string : value → string;
  (** jaq on a program, its variables (names with [$]) and its input. *)
  jaq : string → list (string * value) → value → jaq_outcome;
  (** [serde_yaml_ng::from_str::<Value>]. *)
  yaml_value : string → option value;
  (** [Sha256::digest]. *)
  sha256 : string → list Z;
  (** The clipped input an expression's error message shows. *)
  shown : value → string;
}.
