(* ===== verification/Keys.v ===== *)
(** * Row keys of the engine

    [crates/durable/src/engine.rs], section 1: how ids, instants and sequence
    numbers are written into the keys of ordered rows. Kinds are
    [<family>:<hex>...]; instants are fixed-width hexadecimal whose bytewise
    order is the order of time, so a range scan of timed keys is a range of
    instants. *)
From S2P Require Import Prelude.

(** [{n:x}] of one digit, [{b:02x}] of a byte, [{n:016x}] of a [u64]. *)
Definition hex_digit (n : Z) : Ascii.ascii :=
  Ascii.ascii_of_N (Z.to_N (if decide (n < 10) then 48 + n else 87 + n)).
Fixpoint hex_fixed (width : nat) (n : Z) : string :=
  match width with
  | O => ""
  | S w => hex_fixed w (n / 16) +:+ String (hex_digit (n mod 16)) ""
  end.
Definition hex16 (n : Z) : string := hex_fixed 16 n.
Definition byte_of (c : Ascii.ascii) : Z := Z.of_N (Ascii.N_of_ascii c).

(** [u64::from_str_radix(_, 16)]. *)
Definition hex_value (c : Ascii.ascii) : option Z :=
  let b := byte_of c in
  if decide (48 ≤ b ≤ 57) then Some (b - 48)
  else if decide (97 ≤ b ≤ 102) then Some (b - 87)
  else if decide (65 ≤ b ≤ 70) then Some (b - 55)
  else None.
Fixpoint hex_digits (acc : Z) (s : string) : option Z :=
  match s with
  | EmptyString => Some acc
  | String c s' =>
      d ← hex_value c;
      if decide (acc * 16 + d ≤ u64_max) then hex_digits (acc * 16 + d) s' else None
  end.
Definition parse_hex (s : string) : option Z :=
  match s with
  | EmptyString => None
  | String c s' =>
      if decide (byte_of c = 43 ∧ s' ≠ "") then hex_digits 0 s' else hex_digits 0 s
  end.

Fixpoint component (value : string) : string :=
  match value with
  | EmptyString => ""
  | String c s => hex_fixed 2 (byte_of c) +:+ component s
  end.

(** The bytes of an [i64] read as a [u64]. *)
Definition u64_of_i64 (z : Z) : Z := z mod 2 ^ 64.
Definition i64_of_u64 (z : Z) : Z := if decide (z < 2 ^ 63) then z else z - 2 ^ 64.

Definition time_key (ms : Z) : string := hex16 (u64_of_i64 (Z.lxor ms i64_min)).
Definition timed (ms : Z) (id : string) : string := time_key ms +:+ ":" +:+ id.
Definition until (ms : Z) : string := time_key ms +:+ ";".
Definition partition (kind value : string) : string := kind +:+ ":" +:+ component value.
Definition sequence (n : Z) : string := hex16 n.

Definition records_of (run : string) : string := partition "record" run.
Definition events_of (run : string) : string := partition "event" run.
Definition identities_of (run : string) : string := partition "event_id" run.
Definition types_of (run : string) : string := partition "event_type" run.
Definition pending_of (run type_ : string) : string :=
  partition "pending" run +:+ ":" +:+ component type_.
Definition live_of (run type_ : string) : string :=
  partition "live" run +:+ ":" +:+ component type_.
Definition published_of (run : string) : string := partition "published" run.
Definition live_published_of (run : string) : string := partition "live_published" run.
Definition expiring_of (run : string) : string := partition "expiry" run.

(** The instant of a [time_key]: [totals] reads its bucket starts back. *)
Definition time_of_key (k : string) : option Z :=
  n ← parse_hex k; Some (Z.lxor (i64_of_u64 n) i64_min).

(** ** Prefix ranges *)

(** The characters of UTF-8 text ([str::chars]) and their encoding. *)
Definition tail_byte (c : Ascii.ascii) : Z := byte_of c - 128.
Fixpoint chars (s : string) : list Z :=
  match s with
  | EmptyString => []
  | String c s1 =>
      let b := byte_of c in
      if decide (b < 128) then b :: chars s1
      else match s1 with
      | EmptyString => []
      | String c1 s2 =>
          if decide (b < 224) then ((b - 192) * 64 + tail_byte c1) :: chars s2
          else match s2 with
          | EmptyString => []
          | String c2 s3 =>
              if decide (b < 240) then ((b - 224) * 4096 + tail_byte c1 * 64 + tail_byte c2) :: chars s3
              else match s3 with
              | EmptyString => []
              | String c3 s4 =>
                  ((b - 240) * 262144 + tail_byte c1 * 4096 + tail_byte c2 * 64 + tail_byte c3)
                    :: chars s4
              end
          end
      end
  end.
Definition utf8 (c : Z) : string :=
  if decide (c < 128) then bytes [c]
  else if decide (c < 2048) then bytes [192 + c / 64; 128 + c mod 64]
  else if decide (c < 65536) then bytes [224 + c / 4096; 128 + c / 64 mod 64; 128 + c mod 64]
  else bytes [240 + c / 262144; 128 + c / 4096 mod 64; 128 + c / 64 mod 64; 128 + c mod 64].
(** [char::from_u32]: every scalar value but the surrogates. *)
Definition is_char (c : Z) : bool :=
  bool_decide (0 ≤ c < 55296) || bool_decide (57344 ≤ c < 1114112).
Definition next_char (c : Z) : Z := if decide (c + 1 = 55296) then 57344 else c + 1.
(** The loop of [prefix_end], over the characters from the last. *)
Fixpoint prefix_end_from (l : list Z) : option (list Z) :=
  match l with
  | [] => None
  | c :: l => if is_char (next_char c) then Some (next_char c :: l) else prefix_end_from l
  end.
Definition prefix_end (prefix : string) : option string :=
  l ← prefix_end_from (rev (chars prefix)); Some (foldr (λ c s, utf8 c +:+ s) "" (rev l)).

Definition colon : Ascii.ascii := Ascii.ascii_of_N 58.
#[global] Arguments colon : simpl never.
(** The family of a kind: what precedes its first colon. *)
Fixpoint family (kind : string) : string :=
  match kind with
  | EmptyString => ""
  | String c s => if decide (c = colon) then "" else String c (family s)
  end.

(** ** Strings of equal length compare from the left *)

Lemma compare_app (a b c d : string) :
  String.length a = String.length c →
  String.compare (a +:+ b) (c +:+ d) =
  match String.compare a c with Eq => String.compare b d | o => o end.
Proof.
  revert c. induction a as [|x a IH]; intros [|y c]; simpl; try done.
  intros [= Hlen]. change (a +:+ b) with (String.append a b).
  destruct (Ascii.compare x y); [|done..]. by apply IH.
Qed.

Lemma ascii_compare_lt (x y : Z) :
  0 ≤ x < 256 → 0 ≤ y < 256 →
  Ascii.compare (Ascii.ascii_of_N (Z.to_N x)) (Ascii.ascii_of_N (Z.to_N y)) = Z.compare x y.
Proof.
  intros Hx Hy. unfold Ascii.compare. rewrite !Ascii.N_ascii_embedding by lia.
  by rewrite Z2N.inj_compare by lia.
Qed.

Lemma string_compare_refl (s : string) : String.compare s s = Eq.
Proof.
  induction s as [|c s IH]; simpl; [done|].
  by rewrite (proj2 (N.compare_eq_iff _ _) eq_refl : Ascii.compare c c = Eq).
Qed.

(** ** Hexadecimal *)

Lemma hex_digit_compare x y :
  0 ≤ x < 16 → 0 ≤ y < 16 → Ascii.compare (hex_digit x) (hex_digit y) = Z.compare x y.
Proof.
  intros Hx Hy. unfold hex_digit. repeat case_decide; rewrite ascii_compare_lt by lia.
  all: destruct (Z.compare_spec x y);
    (apply Z.compare_eq_iff + apply Z.compare_lt_iff + apply Z.compare_gt_iff); lia.
Qed.

Lemma hex_fixed_length w n : String.length (hex_fixed w n) = w.
Proof.
  revert n. induction w as [|w IH]; intros n; simpl; [done|].
  rewrite string_length_app, IH. simpl. lia.
Qed.

(** Fixed-width hexadecimal is ordered as its numbers are. *)
Lemma hex_fixed_compare w a b :
  0 ≤ a < 16 ^ Z.of_nat w → 0 ≤ b < 16 ^ Z.of_nat w →
  String.compare (hex_fixed w a) (hex_fixed w b) = Z.compare a b.
Proof.
  revert a b. induction w as [|w IH]; intros a b Ha Hb.
  - simpl in *. assert (a = 0) as -> by lia. by assert (b = 0) as -> by lia.
  - cbn [hex_fixed]. rewrite compare_app by by rewrite !hex_fixed_length.
    rewrite Nat2Z.inj_succ, Z.pow_succ_r in Ha, Hb by lia.
    rewrite IH by (split; [apply Z.div_pos; lia|apply Z.div_lt_upper_bound; lia]).
    pose proof (Z.div_mod a 16 ltac:(lia)). pose proof (Z.div_mod b 16 ltac:(lia)).
    pose proof (Z.mod_pos_bound a 16 ltac:(lia)). pose proof (Z.mod_pos_bound b 16 ltac:(lia)).
    destruct (Z.compare_spec (a / 16) (b / 16)).
    + cbn [String.compare]. rewrite hex_digit_compare by done.
      replace (Z.compare a b) with (Z.compare (a mod 16) (b mod 16)); [by destruct (Z.compare _ _)|].
      destruct (Z.compare_spec (a mod 16) (b mod 16)); symmetry;
        (apply Z.compare_eq_iff + apply Z.compare_lt_iff + apply Z.compare_gt_iff); lia.
    + symmetry. apply Z.compare_lt_iff. lia.
    + symmetry. apply Z.compare_gt_iff. lia.
Qed.

Lemma hex_fixed_inj w a b :
  0 ≤ a < 16 ^ Z.of_nat w → 0 ≤ b < 16 ^ Z.of_nat w → hex_fixed w a = hex_fixed w b → a = b.
Proof.
  intros Ha Hb Heq. apply Z.compare_eq_iff. rewrite <- (hex_fixed_compare w) by done.
  rewrite Heq. apply string_compare_refl.
Qed.

Lemma hex_digit_value n : 0 ≤ n < 16 → hex_value (hex_digit n) = Some n.
Proof.
  intros Hn. unfold hex_value, hex_digit, byte_of.
  destruct (decide (n < 10)); rewrite Ascii.N_ascii_embedding by lia; rewrite Z2N.id by lia;
    repeat case_decide; try lia; f_equal; lia.
Qed.

Lemma hex_digits_app acc w n s :
  0 ≤ acc → 0 ≤ n < 16 ^ Z.of_nat w → acc * 16 ^ Z.of_nat w + n ≤ u64_max →
  hex_digits acc (hex_fixed w n +:+ s) = hex_digits (acc * 16 ^ Z.of_nat w + n) s.
Proof.
  revert acc n s. induction w as [|w IH]; intros acc n s Hacc Hn Hmax.
  - simpl in *. f_equal. lia.
  - cbn [hex_fixed]. rewrite string_app_assoc.
    rewrite Nat2Z.inj_succ, Z.pow_succ_r in * by lia.
    pose proof (Z.div_mod n 16 ltac:(lia)). pose proof (Z.mod_pos_bound n 16 ltac:(lia)).
    rewrite IH; [|done|split; [apply Z.div_pos; lia|apply Z.div_lt_upper_bound; lia]|nia].
    change (String (hex_digit (n mod 16)) "" +:+ s) with (String (hex_digit (n mod 16)) s).
    cbn [hex_digits]. rewrite hex_digit_value by done. cbn.
    rewrite decide_True by nia. f_equal. nia.
Qed.

Lemma string_app_nil (s : string) : s +:+ "" = s.
Proof. induction s as [|c s IH]; [done|]. by change (String c (s +:+ "") = String c s); rewrite IH. Qed.

Lemma hex_fixed_head w n :
  0 ≤ n → ∃ d s, hex_fixed (S w) n = String (hex_digit d) s ∧ 0 ≤ d < 16.
Proof.
  revert n. induction w as [|w IH]; intros n Hn.
  - exists (n mod 16), "". split; [done|]. apply Z.mod_pos_bound. lia.
  - destruct (IH (n / 16)) as (d & s & E & Hd); [apply Z.div_pos; lia|].
    cbn [hex_fixed] in *. rewrite E. exists d, (s +:+ String (hex_digit (n mod 16)) "").
    done.
Qed.

(** Reading back a fixed-width number. *)
Lemma parse_hex16 n : is_u64 n → parse_hex (hex16 n) = Some n.
Proof.
  intros [Hn Hm]. unfold u64_max in Hm.
  assert (hex_digits 0 (hex16 n) = Some n) as Hd.
  { rewrite <- (string_app_nil (hex16 n)). unfold hex16.
    rewrite hex_digits_app; [done|lia|split; [done|change (16 ^ Z.of_nat 16) with (2 ^ 64); lia]|unfold u64_max; lia]. }
  unfold parse_hex. destruct (hex16 n) as [|c s] eqn:E; [done|].
  rewrite decide_False; [done|]. intros [Hc _].
  unfold hex16 in E. pose proof (hex_fixed_head 15 n) as (d & s' & E' & Hd'); [lia|].
  rewrite E in E'. injection E' as -> ->. unfold byte_of, hex_digit in Hc.
  destruct (decide (d < 10)); rewrite Ascii.N_ascii_embedding in Hc by lia; lia.
Qed.

(** ** Instants *)

Lemma lxor_min_nonneg a : 0 ≤ a < 2 ^ 63 → Z.lxor a i64_min = a - 2 ^ 63.
Proof.
  intros Ha. unfold i64_min. rewrite <- Z.add_nocarry_lxor; [lia|].
  change (- 2 ^ 63) with (Z.lnot (Z.ones 63)). rewrite <- Z.ldiff_land.
  apply Z.ldiff_ones_r_low; [lia|].
  destruct (decide (a = 0)) as [->|]; [done|]. apply Z.log2_lt_pow2; lia.
Qed.

(** The sign flip on the two's complement representation, as arithmetic. *)
Lemma lxor_min ms :
  is_i64 ms → Z.lxor ms i64_min = if decide (0 ≤ ms) then ms - 2 ^ 63 else ms + 2 ^ 63.
Proof.
  intros [Hl Hu]. unfold i64_max in Hu. unfold i64_min in Hl. case_decide.
  - apply lxor_min_nonneg. lia.
  - assert (ms = Z.lxor (ms + 2 ^ 63) i64_min) as E by (rewrite lxor_min_nonneg; lia).
    rewrite E at 1. by rewrite Z.lxor_assoc, Z.lxor_nilpotent, Z.lxor_0_r.
Qed.

Lemma flip_sign ms : is_i64 ms → u64_of_i64 (Z.lxor ms i64_min) = ms + 2 ^ 63.
Proof.
  intros H. rewrite lxor_min by done. unfold u64_of_i64.
  unfold is_i64, i64_min, i64_max in H. case_decide.
  - rewrite <- (Z.mod_add _ 1) by lia. rewrite Z.mod_small; lia.
  - rewrite Z.mod_small; lia.
Qed.

Lemma time_key_hex ms : is_i64 ms → time_key ms = hex16 (ms + 2 ^ 63).
Proof. intros H. unfold time_key. by rewrite flip_sign. Qed.

Lemma time_key_length ms : String.length (time_key ms) = 16%nat.
Proof. apply hex_fixed_length. Qed.

Lemma shifted_bounds ms : is_i64 ms → 0 ≤ ms + 2 ^ 63 < 16 ^ Z.of_nat 16.
Proof. unfold is_i64, i64_min, i64_max. change (16 ^ Z.of_nat 16) with (2 ^ 64). lia. Qed.

(** The bytewise order of [time_key] is the order of time. *)
Lemma time_key_compare a b :
  is_i64 a → is_i64 b → String.compare (time_key a) (time_key b) = Z.compare a b.
Proof.
  intros Ha Hb. rewrite !time_key_hex by done. unfold hex16.
  rewrite hex_fixed_compare by by apply shifted_bounds.
  destruct (Z.compare_spec a b); (apply Z.compare_eq_iff + apply Z.compare_lt_iff + apply Z.compare_gt_iff); lia.
Qed.

Lemma time_key_inj a b : is_i64 a → is_i64 b → time_key a = time_key b → a = b.
Proof.
  intros Ha Hb Heq. apply Z.compare_eq_iff. rewrite <- time_key_compare by done.
  rewrite Heq. apply string_compare_refl.
Qed.

Lemma timed_inj a b i j : timed a i = timed b j → time_key a = time_key b ∧ i = j.
Proof.
  intros H. unfold timed in H. apply string_app_inj_l in H as [Ht H]; [|by rewrite !time_key_length].
  split; [done|]. by injection H.
Qed.

(** [until(now)] ends exactly the timed keys due at [now]. *)
Lemma timed_before_until ms now id :
  is_i64 ms → is_i64 now → str_ltb (timed ms id) (until now) = bool_decide (ms ≤ now).
Proof.
  intros Hm Hn. unfold str_ltb, String.ltb, timed, until.
  rewrite compare_app by by rewrite !time_key_length. rewrite time_key_compare by done.
  destruct (Z.compare_spec ms now); symmetry;
    first [apply bool_decide_eq_true; lia | apply bool_decide_eq_false; lia].
Qed.

(** Timed keys are ordered by time first. *)
Lemma timed_lt a b i j :
  is_i64 a → is_i64 b → a < b → str_ltb (timed a i) (timed b j) = true.
Proof.
  intros Ha Hb Hlt. unfold str_ltb, String.ltb, timed.
  rewrite compare_app by by rewrite !time_key_length. rewrite time_key_compare by done.
  by rewrite (proj2 (Z.compare_lt_iff a b) Hlt).
Qed.

Lemma time_of_key_time_key ms : is_i64 ms → time_of_key (time_key ms) = Some ms.
Proof.
  intros H. unfold time_of_key. rewrite time_key_hex by done.
  pose proof H as H'. unfold is_i64, i64_min, i64_max in H'.
  rewrite parse_hex16 by (unfold is_u64, u64_max; lia). cbn. f_equal.
  replace (i64_of_u64 (ms + 2 ^ 63)) with (Z.lxor ms i64_min).
  - by rewrite Z.lxor_assoc, Z.lxor_nilpotent, Z.lxor_0_r.
  - rewrite lxor_min by done. unfold i64_of_u64. repeat case_decide; lia.
Qed.

(** ** Components, partitions and families *)

Lemma component_inj a b : component a = component b → a = b.
Proof.
  revert b. induction a as [|x a IH]; intros [|y b]; cbn [component]; intros H.
  - done.
  - apply (f_equal String.length) in H. rewrite string_length_app, hex_fixed_length in H. done.
  - apply (f_equal String.length) in H. rewrite string_length_app, hex_fixed_length in H. done.
  - apply string_app_inj_l in H as [Hx H]; [|by rewrite !hex_fixed_length].
    f_equal; [|by apply IH].
    assert (byte_of x = byte_of y) as Hb.
    { apply (hex_fixed_inj 2); [..|done]; unfold byte_of;
        [pose proof (Ascii.N_ascii_bounded x)|pose proof (Ascii.N_ascii_bounded y)];
        change (16 ^ Z.of_nat 2) with 256; lia. }
    unfold byte_of in Hb. apply N2Z.inj in Hb.
    by rewrite <- (Ascii.ascii_N_embedding x), Hb, Ascii.ascii_N_embedding.
Qed.

(** No colon occurs in [s]. *)
Definition no_colon (s : string) : bool := negb (contains_char colon s).

Lemma no_colon_app a b : no_colon (a +:+ b) = no_colon a && no_colon b.
Proof.
  unfold no_colon. induction a as [|x a IH]; [done|].
  change (String x a +:+ b) with (String x (a +:+ b)). cbn [contains_char].
  by destruct (bool_decide (x = colon)).
Qed.

Lemma hex_digit_no_colon n : 0 ≤ n < 16 → hex_digit n ≠ colon.
Proof.
  intros Hn H. apply (f_equal byte_of) in H. unfold byte_of, hex_digit, colon in H.
  destruct (decide (n < 10)); rewrite !Ascii.N_ascii_embedding in H by lia; lia.
Qed.

Lemma hex_fixed_no_colon w n : no_colon (hex_fixed w n) = true.
Proof.
  revert n. induction w as [|w IH]; intros n; [done|].
  cbn [hex_fixed]. rewrite no_colon_app, IH. unfold no_colon. cbn [contains_char].
  rewrite bool_decide_false; [done|]. apply hex_digit_no_colon, Z.mod_pos_bound. lia.
Qed.

Lemma component_no_colon s : no_colon (component s) = true.
Proof.
  induction s as [|x s IH]; [done|]. cbn [component]. by rewrite no_colon_app, hex_fixed_no_colon.
Qed.

Lemma family_no_colon k : no_colon k = true → family k = k.
Proof.
  unfold no_colon. induction k as [|c k IH]; [done|]. cbn. case_decide as Hc.
  - by rewrite bool_decide_true.
  - rewrite bool_decide_false by done. intros H. f_equal. by apply IH.
Qed.

Lemma family_app k s : no_colon k = true → family (k +:+ ":" +:+ s) = k.
Proof.
  unfold no_colon. induction k as [|c k IH]; intros H.
  - done.
  - change (String c k +:+ ":" +:+ s) with (String c (k +:+ ":" +:+ s)). cbn in *.
    destruct (decide (c = colon)) as [Hc|Hc].
    + by rewrite bool_decide_true in H.
    + rewrite bool_decide_false in H by done. f_equal. by apply IH.
Qed.

Lemma family_partition k v : no_colon k = true → family (partition k v) = k.
Proof. apply family_app. Qed.

(** Splitting at the first colon is unambiguous. *)
Lemma colon_split a b c d :
  no_colon a = true → no_colon c = true →
  a +:+ ":" +:+ b = c +:+ ":" +:+ d → a = c ∧ b = d.
Proof.
  unfold no_colon. revert c. induction a as [|x a IH]; intros [|y c] Ha Hc H; cbn in *.
  - split; [done|]. by injection H.
  - injection H as <- _. by rewrite bool_decide_true in Hc.
  - injection H as -> _. by rewrite bool_decide_true in Ha.
  - injection H as -> H.
    destruct (decide (y = colon)) as [->|Hy]; [by rewrite bool_decide_true in Ha|].
    rewrite bool_decide_false in Ha, Hc by done.
    by destruct (IH c Ha Hc H) as [-> ->].
Qed.

Lemma partition_inj k v w : no_colon k = true → partition k v = partition k w → v = w.
Proof. intros Hk H. apply colon_split in H as [_ H]; [|done..]. by apply component_inj. Qed.

#[export] Hint Rewrite family_partition family_app using reflexivity : ouro.
#[export] Hint Resolve component_no_colon hex_fixed_no_colon : ouro.
