(* ===== verification/Outcome.v ===== *)
(** * Workflow errors and run statuses

    [crates/ows/src/run.rs]: [WorkflowError] with its constructors and tests,
    [Status] and the flow directive a step ends with. *)
From S2P Require Import Prelude Json.

Definition STANDARD_ERRORS : string := "https://open-workflow-specification.org/spec/1.0.0/errors/".

(** RFC 7807 problem details. *)
Record WorkflowError := mkError {
  err_type : string;
  err_status : Z;
  err_title : option string;
  err_detail : option string;
  err_instance : option string
}.
#[export] Instance eta_WorkflowError : Eta WorkflowError :=
  λ r, mkError (err_type r) (err_status r) (err_title r) (err_detail r) (err_instance r).
#[export] Instance WorkflowError_eq_dec : EqDecision WorkflowError.
Proof. solve_decision. Defined.

Definition CALL_NOT_EXECUTED : string := "urn:ouro:errors:call.not_executed".
Definition CALL_UNKNOWN : string := "urn:ouro:errors:call.unknown".
Definition CALL_INTERRUPTED : string := "urn:ouro:errors:call.interrupted".

Module Error.
Definition standard (kind : string) (status : Z) (title detail : string) : WorkflowError :=
  mkError (STANDARD_ERRORS +:+ kind) status (Some title) (Some detail) None.
Definition validation (detail : string) : WorkflowError :=
  standard "validation" 400 "Validation Error" detail.
Definition expression (detail : string) : WorkflowError :=
  standard "expression" 400 "Expression Error" detail.
Definition timeout (detail : string) : WorkflowError := standard "timeout" 408 "Timeout" detail.
Definition communication (status : Z) (detail : string) : WorkflowError :=
  standard "communication" status "Communication Error" detail.
Definition runtime (detail : string) : WorkflowError :=
  standard "runtime" 500 "Runtime Error" detail.
Definition budget (detail : string) : WorkflowError :=
  standard "budget.exhausted" 508 "Budget Exhausted" detail.
Definition call_outcome (type_ : string) (status : Z) (title detail : string) : WorkflowError :=
  mkError type_ status (Some title) (Some detail) None.
Definition not_executed (detail : string) : WorkflowError :=
  call_outcome CALL_NOT_EXECUTED 503 "Not Executed" detail.
Definition unknown_outcome (detail : string) : WorkflowError :=
  call_outcome CALL_UNKNOWN 409 "Outcome Unknown" detail.
Definition interrupted (detail : string) : WorkflowError :=
  call_outcome CALL_INTERRUPTED 499 "Interrupted" detail.

(** [WorkflowError::is]. *)
Definition is_kind (e : WorkflowError) (kind : string) : bool :=
  bool_decide (strip_prefix STANDARD_ERRORS (err_type e) = Some kind).
(** [WorkflowError::has_type]. *)
Definition has_type (e : WorkflowError) (filter : string) : bool :=
  bool_decide (filter = err_type e) ||
  is_some_and (strip_prefix STANDARD_ERRORS (err_type e)) (λ kind,
    existsb (λ ns, bool_decide (strip_prefix ns filter = Some kind))
      ["https://serverlessworkflow.io/spec/1.0.0/errors/";
       "https://open-workflow-specification.org/dsl/errors/types/"]).
(** [Display for WorkflowError]. *)
Definition display (e : WorkflowError) : string :=
  default (err_type e) (err_title e) +:+
  match err_detail e with Some d => ": " +:+ d | None => "" end +:+
  match err_instance e with Some i => " (at " +:+ i +:+ ")" | None => "" end.
(** The error as JSON (serde's derived layout: absent members are skipped). *)
Definition to_value (e : WorkflowError) : value :=
  let opt k (o : option string) m := match o with Some s => <[k := VStr s]> m | None => m end in
  VObj (opt "instance" (err_instance e) (opt "detail" (err_detail e) (opt "title" (err_title e)
    (<["status" := vint (err_status e)]> {["type" := VStr (err_type e)]})))).
End Error.

Inductive Status :=
| Completed (output : value)
| Faulted (error : WorkflowError)
| Cancelled
| Waiting (wake_at_ms : Z)
| Interrupted (error : WorkflowError).
#[export] Instance Status_eq_dec : EqDecision Status.
Proof. solve_decision. Defined.

(** [Flow] of [crates/ows/src/model.rs]. *)
Inductive Flow := Continue | Exit | End_ | Goto (task : string).
#[export] Instance Flow_eq_dec : EqDecision Flow.
Proof. solve_decision. Defined.

(** Whether a status ends its run. *)
Definition terminal (s : Status) : bool :=
  match s with Completed _ | Faulted _ | Cancelled => true | _ => false end.
