(* ===== verification/Journal.v ===== *)
(** * The journal's records

    [crates/ows/src/durable.rs]: what a run persists. The records of a run and
    the transitions a journal may make, the annotations a call's answer carries
    with their running totals, and the call journal a host reads. *)
From S2P Require Import Prelude Json Outcome.

Definition VERSION : Z := 15.
Definition EXCEEDED : string := "exceeded".

Inductive Delivery := AtLeastOnce | AtMostOnce.
#[export] Instance Delivery_eq_dec : EqDecision Delivery.
Proof. solve_decision. Defined.

(** How a host classifies a failed call. *)
Inductive CallFailure :=
| FNotExecuted (e : WorkflowError)
| FResponse (e : WorkflowError)
| FUnknown (e : WorkflowError)
| FInterrupted (e : WorkflowError).

(** [CallFailure::answer]: a function's error answer, by its type. *)
Definition answer (error : WorkflowError) : CallFailure :=
  if decide (err_type error = CALL_NOT_EXECUTED) then FNotExecuted error
  else if decide (err_type error = CALL_UNKNOWN) then FUnknown error
  else if decide (err_type error = CALL_INTERRUPTED) then FInterrupted error
  else FResponse error.
(** [CallFailure::error]. *)
Definition failure_error (f : CallFailure) : WorkflowError :=
  match f with FNotExecuted e | FResponse e | FUnknown e | FInterrupted e => e end.

Inductive CallState :=
| Pending
| NotExecuted (e : WorkflowError)
| Done (r : result WorkflowError value).
#[export] Instance CallState_eq_dec : EqDecision CallState.
Proof. solve_decision. Defined.

(** A small named value a call returns with its result. *)
Inductive Annotation := ANumber (n : number) | AText (s : string).
#[export] Instance Annotation_eq_dec : EqDecision Annotation.
Proof. solve_decision. Defined.

Inductive StepOutcome :=
| StepCompleted (output : value) (flow : Flow)
| StepFaulted (error : WorkflowError) (fatal : bool).
#[export] Instance StepOutcome_eq_dec : EqDecision StepOutcome.
Proof. solve_decision. Defined.
Record TaskResult := mkTaskResult { context : value; outcome_of : StepOutcome }.
#[export] Instance TaskResult_eq_dec : EqDecision TaskResult.
Proof. solve_decision. Defined.

Record Call := mkCall {
  logical : string;
  function : string;
  arguments : value;
  delivery : Delivery;
  call_state : CallState;
  annotations : gmap string Annotation
}.
#[export] Instance eta_Call : Eta Call :=
  λ r, mkCall (logical r) (function r) (arguments r) (delivery r) (call_state r) (annotations r).
#[export] Instance Call_eq_dec : EqDecision Call.
Proof. solve_decision. Defined.

Record Execution := mkExecution {
  x_version : Z;
  x_run_id : string;
  x_definition : value;
  x_input : value;
  x_runtime : value;
  x_started_ms : Z;
  x_max_tasks : Z;
  x_max_attempts : Z
}.
#[export] Instance Execution_eq_dec : EqDecision Execution.
Proof. solve_decision. Defined.

(** [Record]: the constructors of the source's enum. *)
Inductive JRecord :=
| RExecution (x : Execution)
| RTask (started_ms : Z) (result : option TaskResult)
| RCall (c : Call)
| REvent (event : value)
| RExpired (event : value)
| RTimer (deadline_ms : Z)
| RRetry (delay_ms : option Z)
| RWinner (output : value)
| RFinished (status : Status)
| RBudget (granted : bool) (spent : Z) (first : option string)
| RExceeded (by_ : string).
#[export] Instance JRecord_eq_dec : EqDecision JRecord.
Proof. solve_decision. Defined.

Definition is_done (s : CallState) : bool := match s with Done _ => true | _ => false end.

(** [check_transition]: only pending tasks and calls may advance. *)
Definition transition_allowed (old new : JRecord) : bool :=
  bool_decide (old = new) ||
  match old, new with
  | RTask a None, RTask b _ => bool_decide (a = b)
  | RCall c, RCall d =>
      negb (is_done (call_state c)) && bool_decide (logical c = logical d)
      && bool_decide (function c = function d) && bool_decide (arguments c = arguments d)
      && bool_decide (delivery c = delivery d)
  | _, _ => false
  end.
Definition check_transition (old new : JRecord) : result string unit :=
  if transition_allowed old new then Ok () else Err "invalid durable record transition".

(** ** Annotations and their totals *)

Definition MAX_ANNOTATIONS : Z := 32.
Definition MAX_ANNOTATION_BYTES : Z := 4096.

Abbreviation Annotations := (gmap string Annotation).
Abbreviation Totals := (gmap string number).

Definition annotation_value (a : Annotation) : value :=
  match a with ANumber n => VNum n | AText s => VStr s end.
Definition usize_max : Z := u64_max.

Section with_host.
Context `{Host}.

(** [serde_json::to_vec(_).map_or(usize::MAX, |b| b.len())]. *)
Definition json_bytes (v : value) : Z := default usize_max (to_vec_len v).

Definition check_annotations (a : Annotations) : result string unit :=
  if decide (MAX_ANNOTATIONS < Z.of_nat (size a)) then 
    Err (pretty (size a) +:+ " annotations, at most 32 allowed")
  else if decide (is_Some (a !! "")) then Err "an annotation needs a name"
  else if decide (MAX_ANNOTATION_BYTES < json_bytes (VObj (annotation_value <$> a)))
  then Err ("annotations take " +:+ pretty (json_bytes (VObj (annotation_value <$> a)))
            +:+ " bytes, at most 4096 allowed")
  else Ok ().

(** [a + b]: integers stay integers while the sum fits; otherwise a float. *)
Definition add (a b : number) : option number :=
  match (x ← Num.as_i64 a; y ← Num.as_i64 b; checked_add64 x y) with
  | Some sum => Some (Num.of_z sum)
  | None =>
      match (x ← Num.as_u64 a; y ← Num.as_u64 b; checked_addu64 x y) with
      | Some sum => Some (Num.of_z sum)
      | None => x ← Num.as_f64 a; y ← Num.as_f64 b; Num.from_f64 (Num.f64_add x y)
      end
  end.
Definition add_to (totals : Totals) (name : string) (n : number) : Totals :=
  let sum := match totals !! name with
             | Some total => default total (add total n)
             | None => n
             end in
  <[name := sum]> totals.

(** The numeric annotations of an answer, in name order. *)
Definition numbers (a : Annotations) : list (string * number) :=
  omap (λ '(name, v), match v with ANumber n => Some (name, n) | AText _ => None end) (entries a).

(** One turn of [accumulate]'s loop. *)
Definition accumulate_one (totals : Totals) (name : string) (n : number) : Totals :=
  if decide (is_Some (totals !! name)) then add_to totals name n
  else if decide (MAX_ANNOTATIONS ≤ Z.of_nat (size totals)) then totals
  else
    let inserted := <[name := n]> totals in
    if decide (MAX_ANNOTATION_BYTES < json_bytes (VObj (VNum <$> inserted)))
    then delete name inserted
    else inserted.
Definition accumulate (totals : Totals) (ns : list (string * number)) : Totals :=
  foldl (λ t '(name, n), accumulate_one t name n) totals ns.
End with_host.

(** ** The call journal *)

Inductive CallStatus := CPending | CCompleted | CFailed | CNotExecuted | CUnknown.
#[export] Instance CallStatus_eq_dec : EqDecision CallStatus.
Proof. solve_decision. Defined.

Record CallEntry := mkEntry {
  ce_key : string;
  ce_function : string;
  ce_delivery : Delivery;
  ce_state : CallStatus;
  ce_annotations : Annotations
}.

(** [CallEntry::of]. *)
Definition call_status (delivery : Delivery) (s : CallState) : CallStatus :=
  match s with
  | Pending => if decide (delivery = AtMostOnce) then CUnknown else CPending
  | NotExecuted _ => CNotExecuted
  | Done (Ok _) => CCompleted
  | Done (Err _) => CFailed
  end.
Definition entry_of (key : string) (r : JRecord) : option CallEntry :=
  match r with
  | RCall c =>
      Some (mkEntry key (function c) (delivery c) (call_status (delivery c) (call_state c))
              (annotations c))
  | _ => None
  end.
Definition call_journal (records : gmap string JRecord) : list CallEntry :=
  omap (λ '(key, r), entry_of key r) (entries records).

(** [annotation_totals]: unbounded sums over a call journal. *)
Definition annotation_totals (calls : list CallEntry) : Totals :=
  foldl (λ t '(name, v), match v with ANumber n => add_to t name n | AText _ => t end)
    ∅ (calls ≫= λ c, entries (ce_annotations c)).
