(* ===== verification/Expr.v ===== *)
(** * Runtime expressions

    [crates/ows/src/expr.rs]: which strings are expressions, the variables an
    expression sees and how a program's first output is read. The jq
    interpreter itself is the parameter [jaq] of [Host]. *)
From S2P Require Import Prelude Json.

(** [strip]: the program inside [${ ... }] when the whole trimmed string is one. *)
Definition strip (text : string) : option string :=
  r ← strip_prefix "${" (trim text); trim <$> strip_suffix "}" r.
Definition bare (text : string) : string := default (trim text) (strip text).
Definition is_embedded (text : string) : bool :=
  bool_decide (strip text = None) && contains_str "${" text.

(** [Args]: names (with [$]) and values in declaration order. *)
Record Args := mkArgs { arg_names : list string; arg_values : list value }.
#[export] Instance Args_eq_dec : EqDecision Args.
Proof. solve_decision. Defined.
Definition no_args : Args := mkArgs [] [].

Fixpoint position {A} (p : A → bool) (l : list A) : option nat :=
  match l with [] => None | x :: l => if p x then Some O else S <$> position p l end.

(** [Args::set]: a later binding shadows, in place. *)
Definition args_set (a : Args) (name : string) (v : value) : Args :=
  let name := "$" +:+ name in
  match position (λ n, bool_decide (n = name)) (arg_names a) with
  | Some i => mkArgs (arg_names a) (<[i := v]> (arg_values a))
  | None => mkArgs (arg_names a ++ [name]) (arg_values a ++ [v])
  end.
(** [Args::with]. *)
Definition args_with (a : Args) (name : string) (v : value) : Args := args_set a name v.

Section with_host.
Context `{Host}.

(** [eval]: the first output; [empty] reads as null, [halt] is an error. *)
Definition eval (code : string) (input : value) (args : Args) : result string value :=
  match jaq code (zip (arg_names args) (arg_values args)) input with
  | JInvalid e => Err ("invalid jq `" +:+ code +:+ "`: " +:+ e)
  | JEmpty => Ok VNull
  | JOutput v => Ok v
  | JNotJson e => Err ("jq produced a non-JSON value: " +:+ e)
  | JRaised e => Err ("jq `" +:+ code +:+ "` failed on " +:+ shown input +:+ ": " +:+ e)
  | JHalted => Err ("jq `" +:+ code +:+ "` halted; halt is not allowed in workflows")
  end.

(** [render]: every [${ ... }] string of a template evaluated; an object's members
    in key order, until one fails. *)
Fixpoint render (template : value) (input : value) (args : Args) : result string value :=
  match template with
  | VStr s => match strip s with Some code => eval code input args | None => Ok (VStr s) end
  | VArr items =>
      items ← (fix go (items : list value) : result string (list value) :=
         match items with
         | [] => Ok []
         | v :: items => v ← render v input args; items ← go items; Ok (v :: items)
         end) items;
      Ok (VArr items)
  | VObj m =>
      out ← foldl (λ acc x, out ← acc; v ← x.2; Ok (<[x.1 := v]> out))
              (Ok (∅ : gmap string value)) (entries ((λ v, render v input args) <$> m));
      Ok (VObj out)
  | other => Ok other
  end.
End with_host.

(** [template_exprs]: the expressions a template contains. *)
Fixpoint template_exprs (template : value) : list string :=
  match template with
  | VStr s => match strip s with Some code => [code] | None => [] end
  | VArr items => flat_map template_exprs items
  | VObj m => flat_map snd (entries (template_exprs <$> m))
  | _ => []
  end.

(** [truthy]: everything but [false] and [null]. *)
Definition truthy (v : value) : bool :=
  match v with VNull | VBool false => false | _ => true end.
