(* ===== verification/Listen.v ===== *)
(** * Matching events

    [crates/ows/src/events.rs]: the envelope an [emit] publishes, the filters a
    [listen] matches events with, the consumption strategies fed one event at a
    time, the persisted context of a pending listen and the types a host routes
    to it. Strategies are those of [crates/ows/src/model.rs]. *)
From S2P Require Import Prelude Json Expr.

Record Correlation := mkCorrelation { from : string; expect : option string }.
#[export] Instance Correlation_eq_dec : EqDecision Correlation.
Proof. solve_decision. Defined.

(** [with] keeps the document's order: filters are tested in that order. *)
Record EventFilter := mkFilter {
  f_with : list (string * value);
  f_correlate : list (string * Correlation)
}.
#[export] Instance EventFilter_eq_dec : EqDecision EventFilter.
Proof. solve_decision. Defined.

(** [Until] over the type of strategies it refers to. *)
Inductive Until (T : Type) := Condition (code : string) | Events (s : T).
Arguments Condition {T} code.
Arguments Events {T} s.
#[export] Instance Until_eq_dec `{EqDecision T} : EqDecision (Until T).
Proof. solve_decision. Defined.

#[warnings="-register-all"]
Inductive Strategy :=
| One (f : EventFilter)
| Any (filters : list EventFilter) (until : option (Until Strategy))
| All (filters : list EventFilter).
#[export] Instance Strategy_eq_dec : EqDecision Strategy.
Proof.
  refine (
    fix go (x y : Strategy) : Decision (x = y) :=
    let _ : EqDecision Strategy := go in
    match x, y with
    | One a, One b => cast_if (decide (a = b))
    | Any a u, Any b v => cast_if_and (decide (a = b)) (decide (u = v))
    | All a, All b => cast_if (decide (a = b))
    | _, _ => right _
    end); congruence.
Defined.

#[warnings="-register-all"]
Inductive Progress := mkProgress {
  filled : list bool;
  expectations : gmap string value;
  p_until : option Progress;
  p_done : bool
}.
#[export] Instance eta_Progress : Eta Progress :=
  λ r, mkProgress (filled r) (expectations r) (p_until r) (p_done r).
#[export] Instance Progress_eq_dec : EqDecision Progress.
Proof.
  refine (
    fix go (x y : Progress) : Decision (x = y) :=
    let _ : EqDecision Progress := go in
    match x, y with
    | mkProgress a b c d, mkProgress a' b' c' d' =>
        cast_if (decide ((a, b, c, d) = (a', b', c', d')))
    end); congruence.
Defined.

Inductive Offer := Ignored | Consumed | OfferUntil.
#[export] Instance Offer_eq_dec : EqDecision Offer.
Proof. solve_decision. Defined.

(** ** Envelopes *)

Record Defaults := mkDefaults { d_id : string; d_source : string; d_time : string }.

Definition nonempty_text (v : option value) : bool :=
  match v ≫= as_str with Some s => bool_decide (s ≠ "") | None => false end.
Definition is_text (v : value) : bool := match v with VStr _ => true | _ => false end.

(** [envelope]: the author's attributes over the runtime's. *)
Definition emit_envelope (with_ : list (string * value)) (d : Defaults) : result string value :=
  let event :=
    foldl (λ e '(k, v), if negb (is_null v) || bool_decide (k = "data") then <[k := v]> e else e)
      (<["time" := VStr (d_time d)]> (<["source" := VStr (d_source d)]>
        (<["id" := VStr (d_id d)]> {["specversion" := VStr "1.0"]}))) with_ in
  match list_find (λ k, ¬ Is_true (nonempty_text (event !! k))) ["id"; "source"; "type"; "time"] with
  | Some (_, k) => Err ("the emitted event's `" +:+ k +:+ "` must be a non-empty string")
  | None =>
      match list_find (λ k, Is_true (is_some_and (event !! k) (λ v, negb (is_text v))))
              ["subject"; "datacontenttype"; "dataschema"] with
      | Some (_, k) => Err ("the emitted event's `" +:+ k +:+ "` must be a string")
      | None => Ok (VObj event)
      end
  end.

Inductive Read := ReadData | ReadEnvelope | ReadRaw.
Definition read_event (event : value) (r : Read) : value :=
  match r with
  | ReadData | ReadRaw => default VNull (vget "data" event)
  | ReadEnvelope => event
  end.

(** ** Filters *)

Section with_host.
Context `{Host}.

(** [full_match]: the whole text matches jq's regular expression. *)
Definition full_match (pattern text : string) : bool :=
  bool_decide (eval "test($p)" (VStr text)
    (args_with no_args "p" (VStr ("^(?:" +:+ pattern +:+ ")$"))) = Ok (VBool true)).

(** All results, or the first error. *)
Definition conj_results (l : list (result string bool)) : result string bool :=
  foldl (λ acc r, a ← acc; b ← r; Ok (a && b)) (Ok true) l.

Fixpoint attribute_matches (args : Args) (expected actual : value) : result string bool :=
  match expected with
  | VStr s =>
      match strip s with
      | Some code =>
          v ← eval code actual args;
          Ok (match v with VBool b => b | other => bool_decide (other = actual) end)
      | None =>
          Ok (is_some_and (as_str actual) (λ a, bool_decide (a = s) || full_match s a))
      end
  | VObj fields =>
      match actual with
      | VObj _ =>
          conj_results (values
            (map_imap (λ k v, Some (attribute_matches args v (default VNull (vget k actual)))) fields))
      | _ => Ok false
      end
  | other => Ok (bool_decide (other = actual))
  end.

(** [same]: a string constant and an extracted scalar compare by their text. *)
Definition same (expected v : value) : bool :=
  bool_decide (expected = v) ||
  match expected, v with
  | VStr e, (VNum _ | VBool _) => bool_decide (e = value_to_string v)
  | _, _ => false
  end.

(** The [with] attributes in order, until one does not match. *)
Fixpoint with_matches (event : value) (args : Args) (w : list (string * value)) : result string bool :=
  match w with
  | [] => Ok true
  | (attribute, expected) :: w =>
      m ← attribute_matches args expected (default VNull (vget attribute event));
      if (m : bool) then with_matches event args w else Ok false
  end.
(** The correlations in order: [None] when one disagrees, else the values
    extracted for the first time. *)
Fixpoint correlations (event input : value) (args : Args) (expectations : gmap string value)
    (cs : list (string * Correlation)) (found : list (string * value))
    : result string (option (list (string * value))) :=
  match cs with
  | [] => Ok (Some found)
  | (name, c) :: cs =>
      v ← eval (from c) event args;
      expected ← (match expect c with
                  | Some text =>
                      match strip text with
                      | Some code => e ← eval code input args; Ok (Some e)
                      | None => Ok (Some (VStr text))
                      end
                  | None => Ok (expectations !! name)
                  end);
      match expected with
      | Some e =>
          if same e v then correlations event input args expectations cs found else Ok None
      | None => correlations event input args expectations cs (found ++ [(name, v)])
      end
  end.
(** [matches]: the decision and the expectations after it. *)
Definition matches (f : EventFilter) (event input : value) (args : Args)
    (expectations : gmap string value) : result string (bool * gmap string value) :=
  w ← with_matches event args (f_with f);
  if (w : bool) then
    found ← correlations event input args expectations (f_correlate f) [];
    match found with
    | None => Ok (false, expectations)
    | Some found => Ok (true, foldl (λ m '(k, v), <[k := v]> m) expectations found)
    end
  else Ok (false, expectations).
End with_host.

(** ** Consumption strategies *)

(** [Consumer::new]. *)
Fixpoint new_progress (s : Strategy) : Progress :=
  match s with
  | All filters => mkProgress (replicate (length filters) false) ∅ None false
  | Any _ (Some (Events u)) => mkProgress [] ∅ (Some (new_progress u)) false
  | _ => mkProgress [] ∅ None false
  end.

Section with_host2.
Context `{Host}.

(** [All]: the first unfilled filter that matches is filled. An index outside
    [filled] panics in the source, an error here. *)
Fixpoint offer_all (filters : list EventFilter) (i : nat) (event input : value) (args : Args)
    (p : Progress) : result string (Offer * Progress) :=
  match filters with
  | [] => Ok (Ignored, p)
  | f :: fs =>
      match filled p !! i with
      | None => Err "index out of bounds"
      | Some true => offer_all fs (S i) event input args p
      | Some false =>
          '(hit, e) ← matches f event input args (expectations p);
          let p := p <| expectations := e |> in
          if (hit : bool) then
            let filled' := <[i := true]> (filled p) in
            Ok (Consumed, p <| filled := filled' |> <| p_done := forallb id filled' |>)
          else offer_all fs (S i) event input args p
      end
  end.
(** [Any]: the first filter that matches. *)
Fixpoint any_hit (filters : list EventFilter) (event input : value) (args : Args)
    (e : gmap string value) : result string (bool * gmap string value) :=
  match filters with
  | [] => Ok (false, e)
  | f :: fs =>
      '(hit, e) ← matches f event input args e;
      if (hit : bool) then Ok (true, e) else any_hit fs event input args e
  end.
(** [Consumer::offer]: the decision and the progress after it. *)
Fixpoint offer (s : Strategy) (p : Progress) (event input : value) (args : Args)
    : result string (Offer * Progress) :=
  if p_done p then Ok (Ignored, p)
  else match s with
  | One f =>
      '(hit, e) ← matches f event input args (expectations p);
      let p := p <| expectations := e |> in
      if (hit : bool) then Ok (Consumed, p <| p_done := true |>) else Ok (Ignored, p)
  | All filters => offer_all filters 0 event input args p
  | Any filters until =>
      '(stop, p) ← (match p_until p with
        | None => Ok (false, p)
        | Some u =>
            match until with
            | Some (Events us) =>
                '(o, u') ← offer us u event input args;
                let p := p <| p_until := Some u' |> in
                if decide (o = Ignored) then Ok (false, p)
                else Ok (true, p <| p_done := p_done u' |>)
            | _ => Err "internal error: entered unreachable code"
            end
        end);
      if (stop : bool) then Ok (OfferUntil, p)
      else
        '(hit, e) ← (if decide (filters = []) then Ok (true, expectations p)
                     else any_hit filters event input args (expectations p));
        let p := p <| expectations := e |> in
        if (hit : bool) then Ok (Consumed, p <| p_done := bool_decide (until = None) |>)
        else Ok (Ignored, p)
  end.

(** The events offered so far, replayed through a fresh consumer. *)
Fixpoint offers (s : Strategy) (p : Progress) (input : value) (args : Args) (events : list value)
    : result string (list Offer * Progress) :=
  match events with
  | [] => Ok ([], p)
  | e :: es =>
      '(o, p) ← offer s p e input args;
      '(os, p) ← offers s p input args es;
      Ok (o :: os, p)
  end.
End with_host2.

(** ** Pending waits *)

Record PendingWait := mkWait {
  w_types : list string;
  w_strategy : Strategy;
  w_input : value;
  w_args : Args;
  w_progress : Progress;
  w_position : string;
  w_since_ms : Z;
  w_timeout_ms : option Z;
  w_redacted : bool
}.
#[export] Instance eta_PendingWait : Eta PendingWait :=
  λ r, mkWait (w_types r) (w_strategy r) (w_input r) (w_args r) (w_progress r) (w_position r)
         (w_since_ms r) (w_timeout_ms r) (w_redacted r).
#[export] Instance PendingWait_eq_dec : EqDecision PendingWait.
Proof. solve_decision. Defined.

(** [PendingWait::accepts]. *)
Definition accepts `{Host} (w : PendingWait) (event : value) : result string bool :=
  if w_redacted w then Err "wait matching requires redacted secrets"
  else
    '(o, _) ← offer (w_strategy w) (w_progress w) event (w_input w) (w_args w);
    Ok (bool_decide (o ≠ Ignored)).

(** ** Routing *)

(** The filters of a strategy in order; [None] when one consumes any event. *)
Fixpoint route_filters (s : Strategy) : option (list EventFilter) :=
  match s with
  | One f => Some [f]
  | All fs => Some fs
  | Any [] _ => None
  | Any fs (Some (Events u)) => rest ← route_filters u; Some (fs ++ rest)
  | Any fs _ => Some fs
  end.
Fixpoint assoc (k : string) (l : list (string * value)) : option value :=
  match l with
  | [] => None
  | (k', v) :: l => if decide (k = k') then Some v else assoc k l
  end.
Definition regex_chars : list Ascii.ascii :=
  (λ n, Ascii.ascii_of_N n) <$> [92; 94; 36; 42; 43; 63; 40; 41; 91; 93; 123; 125; 124]%N.

Section with_host3.
Context `{Host}.
(** The literal type a filter routes on. *)
Definition filter_route (f : EventFilter) (args : Args) : option string :=
  t ← assoc "type" (f_with f) ≫= as_str;
  match strip t with
  | Some code =>
      match eval code VNull args with
      | Ok (VStr t) => if decide (t = "") then None else Some t
      | _ => None
      end
  | None => if existsb (λ c, contains_char c t) regex_chars then None else Some t
  end.
Fixpoint collect_routes (fs : list EventFilter) (args : Args) (out : list string) : list string :=
  match fs with
  | [] => out
  | f :: fs =>
      match filter_route f args with
      | Some t => collect_routes fs args (if decide (t ∈ out) then out else out ++ [t])
      | None => ["*"]
      end
  end.
Definition routes (s : Strategy) (args : Args) : list string :=
  match route_filters s with
  | None => ["*"]
  | Some fs => collect_routes fs args []
  end.
End with_host3.
