(* ===== verification/Secrets.v ===== *)
(** * Secrets

    [crates/ows/src/secrets.rs]: a run's resolved secrets, the [$secrets]
    argument of its expressions, and the redaction that keeps their values out of
    what a run persists or reports. The host's secret store is an argument. A
    [char] of the source is a byte of the model: every character the code looks
    for is one byte of UTF-8, and a search for a string is a search for its bytes.
    Members of an object are visited in key order: the source visits them in
    insertion order, which decides only which of several failures is reported. *)
From S2P Require Import Prelude Json Outcome Journal.

(** [str::replace] of a pattern that is not empty: [skip] counts what is left of
    the match last found. *)
Fixpoint replace_from (from to : string) (skip : nat) (s : string) : string :=
  match s with
  | EmptyString => EmptyString
  | String c s' =>
      match skip with
      | S k => replace_from from to k s'
      | O =>
          if starts_with from s then to +:+ replace_from from to (String.length from - 1) s'
          else String c (replace_from from to 0 s')
      end
  end.
Definition replace (from to s : string) : string := replace_from from to 0 s.

Definition MARK : Ascii.ascii := Ascii.ascii_of_nat 1.
Definition mark : string := String MARK EmptyString.

Record Redaction := mkRedaction {
  red_values : list (string * option value);
  red_texts : list (string * string)
}.

(** The secret strings of a value with their marker paths. *)
Fixpoint leaves (v : value) (path : string) : list (string * string) :=
  match v with
  | VStr s => if decide (s = "") then [] else [(s, path)]
  | VArr items =>
      (fix go (i : Z) (items : list value) : list (string * string) :=
         match items with
         | [] => []
         | v :: items => leaves v (path +:+ "[" +:+ pretty i +:+ "]") ++ go (i + 1) items
         end) 0 items
  | VObj m => concat ((λ x, x.2 (path +:+ "." +:+ x.1)) <$> entries (leaves <$> m))
  | _ => []
  end.
(** Longest first, equal lengths by their paths. *)
Definition longest_first (a b : string * string) : Prop :=
  (String.length b.1 < String.length a.1)%nat ∨
  (String.length a.1 = String.length b.1 ∧ String.le a.2 b.2).
#[export] Instance longest_first_dec : RelDecision longest_first.
Proof. intros a b. unfold longest_first. apply _. Defined.
(** [Vec::dedup_by]: drops a text equal to the one before it. *)
Fixpoint dedup_texts (l : list (string * string)) : list (string * string) :=
  match l with
  | a :: l' =>
      match dedup_texts l' with
      | b :: k => if decide (a.1 = b.1) then a :: k else a :: b :: k
      | [] => [a]
      end
  | [] => []
  end.
Fixpoint resolve_values {E} (store : string → result E (option value)) (declared : list string)
    : result E (list (string * option value)) :=
  match declared with
  | [] => Ok []
  | name :: declared =>
      v ← store name; rest ← resolve_values store declared; Ok ((name, v) :: rest)
  end.
Definition secret_texts (values : list (string * option value)) : list (string * string) :=
  concat ((λ x, match x.2 with Some v => leaves v x.1 | None => [] end) <$> values).
(** [Redaction::resolve]. *)
Definition resolve {E} (declared : list string) (store : string → result E (option value))
    : result E Redaction :=
  values ← resolve_values store declared;
  Ok (mkRedaction values (dedup_texts (merge_sort longest_first (secret_texts values)))).
Definition active (r : Redaction) : bool := negb (bool_decide (red_texts r = [])).

(** [Redaction::argument]. *)
Fixpoint argument_of (names : option (list string)) (values : list (string * option value))
    (map : gmap string value) : result WorkflowError value :=
  match values with
  | [] => Ok (VObj map)
  | (name, v) :: values =>
      let wanted := is_none_or names (λ n, bool_decide (name ∈ n)) in
      match v with
      | Some v => argument_of names values (<[name := v]> map)
      | None =>
          if wanted then
            Err (Error.standard "authorization" 403 "Authorization Error"
                   ("secret `" +:+ name +:+ "` is not available to this workflow"))
          else argument_of names values map
      end
  end.
Definition argument (r : Redaction) (names : option (list string)) : result WorkflowError value :=
  argument_of names (red_values r) ∅.

(** ** Mapping a value's strings *)

Fixpoint map_strings {E} (f : string → result E string) (v : value) : result E value :=
  match v with
  | VStr s => s ← f s; Ok (VStr s)
  | VArr items =>
      items ← (fix go (items : list value) : result E (list value) :=
         match items with
         | [] => Ok []
         | v :: items => v ← map_strings f v; items ← go items; Ok (v :: items)
         end) items;
      Ok (VArr items)
  | VObj m =>
      out ← foldl (λ acc x, out ← acc; k ← f x.1; v ← x.2; Ok (<[k := v]> out))
              (Ok (∅ : gmap string value)) (entries (map_strings f <$> m));
      Ok (VObj out)
  | other => Ok other
  end.
Definition map_opt {E} (f : string → result E string) (o : option string) : result E (option string) :=
  match o with Some s => s ← f s; Ok (Some s) | None => Ok None end.
Definition map_error {E} (f : string → result E string) (e : WorkflowError) : result E WorkflowError :=
  type_ ← f (err_type e);
  title ← map_opt f (err_title e);
  detail ← map_opt f (err_detail e);
  instance_ ← map_opt f (err_instance e);
  Ok (mkError type_ (err_status e) title detail instance_).
Definition convert_outcome {E} (f : string → result E string) (o : StepOutcome) : result E StepOutcome :=
  match o with
  | StepCompleted output flow => output ← map_strings f output; Ok (StepCompleted output flow)
  | StepFaulted e fatal => e ← map_error f e; Ok (StepFaulted e fatal)
  end.
Definition convert_state {E} (f : string → result E string) (s : CallState) : result E CallState :=
  match s with
  | Pending => Ok Pending
  | NotExecuted e => e ← map_error f e; Ok (NotExecuted e)
  | Done (Ok v) => v ← map_strings f v; Ok (Done (Ok v))
  | Done (Err e) => e ← map_error f e; Ok (Done (Err e))
  end.
Definition convert_annotation {E} (f : string → result E string) (a : Annotation) : result E Annotation :=
  match a with AText s => s ← f s; Ok (AText s) | number => Ok number end.
(** The annotations keep their names. *)
Definition convert_annotations {E} (f : string → result E string) (m : gmap string Annotation)
    : result E (gmap string Annotation) :=
  foldl (λ acc x, out ← acc; a ← convert_annotation f x.2; Ok (<[x.1 := a]> out)) (Ok ∅) (entries m).
(** [convert]: the payloads of a record, mapped. *)
Definition convert {E} (f : string → result E string) (r : JRecord) : result E JRecord :=
  match r with
  | RExecution x =>
      definition ← map_strings f (x_definition x);
      input ← map_strings f (x_input x);
      runtime ← map_strings f (x_runtime x);
      Ok (RExecution (mkExecution (x_version x) (x_run_id x) definition input runtime (x_started_ms x)
                        (x_max_tasks x) (x_max_attempts x)))
  | RTask started_ms None => Ok (RTask started_ms None)
  | RTask started_ms (Some t) =>
      context ← map_strings f (context t);
      outcome ← convert_outcome f (outcome_of t);
      Ok (RTask started_ms (Some (mkTaskResult context outcome)))
  | RCall c =>
      arguments ← map_strings f (arguments c);
      state ← convert_state f (call_state c);
      annotations ← convert_annotations f (annotations c);
      Ok (RCall (mkCall (logical c) (function c) arguments (delivery c) state annotations))
  | RWinner output => output ← map_strings f output; Ok (RWinner output)
  | RFinished status =>
      status ← match status with
               | Completed v => v ← map_strings f v; Ok (Completed v)
               | Faulted e => e ← map_error f e; Ok (Faulted e)
               | other => Ok other
               end;
      Ok (RFinished status)
  | REvent _ | RExpired _ | RTimer _ | RRetry _ | RBudget _ _ _ | RExceeded _ => Ok r
  end.

(** ** Redaction *)

(** One secret of [Redaction::text]. *)
Definition hide (out : string) (x : string * string) : string :=
  replace (replace mark (mark +:+ mark) x.1) (mark +:+ x.2 +:+ mark) out.
(** [Redaction::text]. *)
Definition text (r : Redaction) (text : string) : string :=
  if active r then foldl hide (replace mark (mark +:+ mark) text) (red_texts r) else text.
(** The value where the mapping cannot fail: [unwrap_or_else]. *)
Definition or_self {E A} (a : A) (r : result E A) : A := match r with Ok b => b | Err _ => a end.
Definition redact_value (r : Redaction) (v : value) : value :=
  if active r then or_self v (map_strings (E := string) (λ s, Ok (text r s)) v) else v.
Definition redact_error (r : Redaction) (e : WorkflowError) : WorkflowError :=
  mkError (text r (err_type e)) (err_status e) (text r <$> err_title e) (text r <$> err_detail e)
    (text r <$> err_instance e).
Definition redact_status (r : Redaction) (s : Status) : Status :=
  match s with
  | Completed v => Completed (redact_value r v)
  | Faulted e => Faulted (redact_error r e)
  | Interrupted e => Interrupted (redact_error r e)
  | other => other
  end.
Definition redact_record (r : Redaction) (x : JRecord) : JRecord :=
  if active r then or_self x (convert (E := string) (λ s, Ok (text r s)) x) else x.

(** What a marker's path stands for: an empty path is the mark itself. *)
Definition marked (texts : list (string * string)) (path : string) : result string string :=
  if decide (path = "") then Ok mark
  else match list_find (λ x, x.2 = path) texts with
       | Some (_, (secret, _)) => Ok secret
       | None => Err ("a saved value refers to secret `" +:+ path +:+ "`, which is not available")
       end.
(** [Redaction::restore_text]: [path] is what is read of an open marker. *)
Fixpoint restore_from (texts : list (string * string)) (path : option string) (s : string)
    : result string string :=
  match s, path with
  | EmptyString, None => Ok EmptyString
  | EmptyString, Some p => marked texts p
  | String c s, None =>
      if decide (c = MARK) then restore_from texts (Some "") s
      else out ← restore_from texts None s; Ok (String c out)
  | String c s, Some p =>
      if decide (c = MARK) then
        secret ← marked texts p; out ← restore_from texts None s; Ok (secret +:+ out)
      else restore_from texts (Some (p +:+ String c EmptyString)) s
  end.
Definition restore_text (r : Redaction) (s : string) : result string string :=
  if contains_char MARK s then restore_from (red_texts r) None s else Ok s.
Definition restore_value (r : Redaction) (v : value) : result string value :=
  if active r then map_strings (restore_text r) v else Ok v.
Definition restore (r : Redaction) (x : JRecord) : result string JRecord :=
  if active r then convert (restore_text r) x else Ok x.
