(* ===== verification/SecretsSpec.v ===== *)
(** * Redaction

    A redacted text is a sequence of plain segments and markers. Replacing a
    secret splits the plain segments and leaves the markers, as long as the secret
    does not occur in the path of a marker put before: then nothing of a secret is
    left in what is stored, and what is stored restores to what was redacted. *)
From S2P Require Import Prelude Json Keys Outcome Journal Secrets.

Definition mark_free (s : string) : Prop := contains_char MARK s = false.

(** ** Searching across a mark *)

Lemma mark_free_cons c s : mark_free (String c s) ↔ c ≠ MARK ∧ mark_free s.
Proof.
  unfold mark_free. cbn [contains_char]. rewrite orb_false_iff, bool_decide_eq_false. done.
Qed.
Lemma mark_free_app a b : mark_free (a +:+ b) ↔ mark_free a ∧ mark_free b.
Proof.
  induction a as [|c a IH]; [by split; [intros ?|intros [_ ?]]|].
  change (String c a +:+ b) with (String c (a +:+ b)). rewrite !mark_free_cons, IH. tauto.
Qed.
Lemma strip_prefix_mark x a b : mark_free x →
  strip_prefix x (a +:+ String MARK b) = (λ t, t +:+ String MARK b) <$> strip_prefix x a.
Proof.
  revert a. induction x as [|c x IH]; intros [|d a]; [done|done|..]; intros Hx%mark_free_cons.
  - change ("" +:+ String MARK b) with (String MARK b). cbn [strip_prefix].
    rewrite decide_False; [done|tauto].
  - cbn [strip_prefix]. change (String d a +:+ String MARK b) with (String d (a +:+ String MARK b)).
    cbn [strip_prefix]. case_decide; [|done]. apply IH, Hx.
Qed.
Lemma starts_with_mark x a b : mark_free x → starts_with x (a +:+ String MARK b) = starts_with x a.
Proof.
  intros Hx. unfold starts_with. rewrite strip_prefix_mark by done. by destruct (strip_prefix x a).
Qed.
Lemma contains_str_mark x a b : mark_free x → x ≠ "" →
  contains_str x (a +:+ String MARK b) = contains_str x a || contains_str x b.
Proof.
  intros Hx Hn. induction a as [|c a IH].
  - change ("" +:+ String MARK b) with (String MARK b). cbn [contains_str].
    change (String MARK b) with ("" +:+ String MARK b). rewrite starts_with_mark by done.
    assert (starts_with x "" = false) as ->; [|done]. by destruct x.
  - change (String c a +:+ String MARK b) with (String c (a +:+ String MARK b)).
    cbn [contains_str]. change (String c (a +:+ String MARK b)) with (String c a +:+ String MARK b).
    by rewrite starts_with_mark, IH, orb_assoc.
Qed.
Lemma starts_with_Some x s : starts_with x s = true ↔ ∃ t, s = x +:+ t.
Proof.
  unfold starts_with. rewrite bool_decide_eq_true. split.
  - intros [t Ht%strip_prefix_Some]. eauto.
  - intros [t ->]. rewrite strip_prefix_app. eauto.
Qed.

(** ** Replacing *)

Lemma replace_skip x to a s : replace_from x to (String.length a) (a +:+ s) = replace_from x to 0 s.
Proof. induction a as [|c a IH]; [done|exact IH]. Qed.

Section replace.
Context (x to : string) (Hx : mark_free x) (Hn : x ≠ "").

Lemma replace_here t : replace x to (x +:+ t) = to +:+ replace x to t.
Proof.
  clear Hx. unfold replace. destruct (x +:+ t) as [|c s] eqn:E; [by destruct x|]. cbn [replace_from].
  rewrite <- E, starts_with_app. f_equal. destruct x as [|d y] eqn:Ex; [done|]. rewrite <- Ex in *.
  subst x. injection E as -> <-. cbn [String.length]. rewrite Nat.sub_succ, Nat.sub_0_r. apply replace_skip.
Qed.
Lemma replace_next c s : starts_with x (String c s) = false →
  replace x to (String c s) = String c (replace x to s).
Proof. intros E. unfold replace. cbn [replace_from]. by rewrite E. Qed.
Lemma replace_absent s : contains_str x s = false → replace x to s = s.
Proof.
  induction s as [|c s IH]; [done|]. cbn [contains_str]. intros [E1 E2]%orb_false_iff.
  rewrite replace_next by done. by rewrite IH.
Qed.
Lemma replace_mark_from a b k : (k ≤ String.length a)%nat →
  replace_from x to k (a +:+ String MARK b) = replace_from x to k a +:+ String MARK (replace x to b).
Proof.
  revert k. induction a as [|c a IH]; intros k Hk.
  - replace k with O by (cbn in Hk; lia). change ("" +:+ String MARK b) with (String MARK b).
    cbn [replace_from]. change (starts_with x (String MARK b)) with (starts_with x ("" +:+ String MARK b)).
    rewrite starts_with_mark by done. by destruct x.
  - change (String c a +:+ String MARK b) with (String c (a +:+ String MARK b)). cbn [replace_from].
    destruct k as [|k]; [|apply IH; cbn in Hk; lia].
    change (String c (a +:+ String MARK b)) with (String c a +:+ String MARK b).
    rewrite starts_with_mark by done. destruct (starts_with x (String c a)) eqn:E.
    + rewrite IH; [by rewrite string_app_assoc|].
      apply starts_with_Some in E as [t E]. apply (f_equal String.length) in E.
      rewrite string_length_app in E. cbn in E. destruct x; [done|]. cbn in *. lia.
    + by rewrite IH by lia.
Qed.
Lemma replace_mark a b :
  replace x to (a +:+ String MARK b) = replace x to a +:+ String MARK (replace x to b).
Proof. apply replace_mark_from. lia. Qed.
End replace.

(** ** Redacted texts *)

(** A first segment, then markers, each with the segment after it. *)
Abbreviation doc := (string * list (string * string))%type.
Fixpoint render_rest (rest : list (string * string)) : string :=
  match rest with
  | [] => ""
  | (m, t) :: rest => String MARK (m +:+ String MARK (t +:+ render_rest rest))
  end.
Definition render (d : doc) : string := d.1 +:+ render_rest d.2.
Definition segments (d : doc) : list string := d.1 :: d.2.*2.
Definition markers (d : doc) : list string := d.2.*1.
(** The text, markers read as [σ] says. *)
Fixpoint spell_rest (σ : string → string) (rest : list (string * string)) : string :=
  match rest with [] => "" | (m, t) :: rest => σ m +:+ (t +:+ spell_rest σ rest) end.
Definition spell (σ : string → string) (d : doc) : string := d.1 +:+ spell_rest σ d.2.
Definition between (p : string) : string := mark +:+ p +:+ mark.
Lemma between_app p s : between p +:+ s = String MARK (p +:+ String MARK s).
Proof. unfold between, mark. rewrite !string_app_assoc. done. Qed.
Lemma render_rest_app a b : render_rest (a ++ b) = render_rest a +:+ render_rest b.
Proof.
  induction a as [|[m t] a IH]; [done|]. cbn [render_rest app]. rewrite IH.
  change (String MARK ?x +:+ ?y) with (String MARK (x +:+ y)). rewrite string_app_assoc.
  change (String MARK ?x +:+ ?y) with (String MARK (x +:+ y)). by rewrite string_app_assoc.
Qed.
Lemma spell_rest_app σ a b : spell_rest σ (a ++ b) = spell_rest σ a +:+ spell_rest σ b.
Proof.
  induction a as [|[m t] a IH]; [done|]. cbn [spell_rest app]. by rewrite IH, !string_app_assoc.
Qed.

Lemma contains_str_empty y t : contains_str y t = false → contains_str y "" = false.
Proof. destruct y; [by destruct t|done]. Qed.
Lemma contains_str_tail y a b : contains_str y (a +:+ b) = false → contains_str y b = false.
Proof.
  induction a as [|c a IH]; [done|]. change (String c a +:+ b) with (String c (a +:+ b)).
  cbn [contains_str]. by intros [_ ?]%orb_false_iff; apply IH.
Qed.
Lemma contains_str_cons y c a u : contains_str y (String c (a +:+ u)) = false → contains_str y a = false →
  contains_str y (String c a) = false.
Proof.
  cbn [contains_str]. intros [E _]%orb_false_iff Ha. apply orb_false_iff. split; [|done].
  apply not_true_iff_false. intros [v Hv]%starts_with_Some. apply not_true_iff_false in E. apply E, starts_with_Some.
  exists (v +:+ u). change (String c (a +:+ u)) with (String c a +:+ u). by rewrite Hv, string_app_assoc.
Qed.
Lemma mark_not_first c s : c ≠ MARK → starts_with mark (String c s) = false.
Proof.
  intros Hc. unfold starts_with, mark. cbn [strip_prefix]. rewrite decide_False by congruence.
  by apply bool_decide_eq_false; intros [].
Qed.
Lemma mark_free_contains s : mark_free s → contains_str mark s = false.
Proof.
  induction s as [|c s IH]; [done|]. intros [Hc Hs]%mark_free_cons. cbn [contains_str].
  by rewrite IH, mark_not_first.
Qed.

(** Splitting a plain text at a secret. *)
Record splits (σ : string → string) (x p t : string) (d : doc) : Prop := {
  sp_render : replace x (between p) t = render d;
  sp_spell : spell σ d = t;
  sp_markers : ∀ m, m ∈ markers d → m = p;
  sp_kept : ∀ y, contains_str y t = false → ∀ g, g ∈ segments d → contains_str y g = false;
  sp_gone : ∀ g, g ∈ segments d → mark_free g ∧ contains_str x g = false;
  sp_first : ∃ u, t = d.1 +:+ u
}.
Lemma split_text σ x p : x ≠ "" → σ p = x → ∀ t, mark_free t → ∃ d, splits σ x p t d.
Proof.
  intros Hn Hσ t. remember (String.length t) as n eqn:E. revert t E.
  induction n as [n IH] using lt_wf_ind. intros t -> Ht. destruct t as [|c t].
  { exists ("", []). split; cbn; try done.
    - by intros m Hm%elem_of_nil.
    - intros y Hy g ->%list_elem_of_singleton. done.
    - intros g ->%list_elem_of_singleton. split; [done|]. by destruct x.
    - by exists "". }
  destruct (starts_with x (String c t)) eqn:Es.
  - apply starts_with_Some in Es as [t' Et]. rewrite Et in Ht. apply mark_free_app in Ht as [_ Ht].
    destruct (IH (String.length t')) with (t := t') as [d [H1 H2 H3 H4 H5 H6]]; [|done|done|].
    { rewrite Et, string_length_app. destruct x; [done|]. cbn. lia. }
    exists ("", (p, d.1) :: d.2). rewrite Et. split.
    + rewrite replace_here by done. by rewrite H1, between_app.
    + change (σ p +:+ spell σ d = x +:+ t'). by rewrite H2, Hσ.
    + intros m. unfold markers. cbn. intros [->|Hm]%elem_of_cons; [done|]. by apply H3.
    + intros y Hy g. unfold segments. cbn. intros [->|Hg]%elem_of_cons; [by eapply contains_str_empty|].
      apply (H4 y); [by eapply contains_str_tail|done].
    + intros g. unfold segments. cbn. intros [->|Hg]%elem_of_cons; [|by apply H5].
      split; [done|]. by destruct x.
    + by exists (x +:+ t').
  - apply mark_free_cons in Ht as [Hc Ht].
    destruct (IH (String.length t)) with (t := t) as [d [H1 H2 H3 H4 H5 [u H6]]]; [cbn; lia|done|done|].
    exists (String c d.1, d.2). split.
    + rewrite replace_next by done. by rewrite H1.
    + change (String c (spell σ d) = String c t). by rewrite H2.
    + done.
    + intros y Hy g. unfold segments. cbn. intros [->|Hg]%elem_of_cons.
      * eapply contains_str_cons; [by rewrite H6 in Hy|]. apply (H4 y); [|by left].
        by apply (contains_str_tail y (String c "") t).
      * apply (H4 y); [by apply (contains_str_tail y (String c "") t)|by right].
    + intros g. unfold segments. cbn. intros [->|Hg]%elem_of_cons; [|by apply H5; right].
      destruct (H5 d.1) as [Hm Hx]; [by left|]. split; [by apply mark_free_cons|].
      cbn [contains_str]. rewrite Hx, orb_false_r. apply not_true_iff_false. intros [v Hv]%starts_with_Some.
      apply not_true_iff_false in Es. apply Es, starts_with_Some. exists (v +:+ u).
      by rewrite H6, <- string_app_assoc, <- Hv.
    + exists u. cbn. by rewrite H6 at 1.
Qed.

(** A document of a text: what is redacted so far, with the paths put and the
    secrets gone from its segments. *)
Record documents (σ : string → string) (seen gone : list string) (t : string) (d : doc) : Prop := {
  dc_spell : spell σ d = t;
  dc_markers : ∀ m, m ∈ markers d → m = "" ∨ m ∈ seen;
  dc_free : ∀ g, g ∈ segments d → mark_free g;
  dc_gone : ∀ y g, y ∈ gone → g ∈ segments d → contains_str y g = false
}.
(** The mark doubled: a document without secrets' paths. *)
Lemma escape_text σ t : σ "" = mark →
  ∃ d, replace mark (mark +:+ mark) t = render d ∧ documents σ [] [] t d.
Proof.
  intros Hσ. induction t as [|c t IH].
  - exists ("", []). split; [done|]. split; [done|by intros m Hm%elem_of_nil| |by intros y g Hy%elem_of_nil].
    by intros g ->%list_elem_of_singleton.
  - destruct IH as (d & E & [H1 H2 H3 _]). destruct (decide (c = MARK)) as [->|Hc].
    + exists ("", ("", d.1) :: d.2). split.
      * unfold replace in *. change (String MARK (String MARK (replace_from mark (mark +:+ mark) 0 t)) =
          String MARK (String MARK (render d))). by rewrite E.
      * split; [| | |by intros y g Hy%elem_of_nil].
        -- change (σ "" +:+ spell σ d = String MARK t). by rewrite Hσ, H1.
        -- intros m. unfold markers. cbn. intros [->|Hm]%elem_of_cons; [by left|by apply H2].
        -- intros g. unfold segments. cbn. intros [->|Hg]%elem_of_cons; [done|by apply H3].
    + exists (String c d.1, d.2). split.
      * rewrite replace_next; [by rewrite E|by apply mark_not_first].
      * split; [| |  |by intros y g Hy%elem_of_nil].
        -- change (String c (spell σ d) = String c t). by rewrite H1.
        -- done.
        -- intros g. unfold segments. cbn. intros [->|Hg]%elem_of_cons; [|by apply H3; right].
           apply mark_free_cons. split; [done|]. apply H3. by left.
Qed.
(** Replacing a secret splits every segment and leaves the markers. *)
Lemma replace_rest σ x p gone rest : x ≠ "" → mark_free x → σ p = x →
  (∀ m, m ∈ rest.*1 → contains_str x m = false) →
  (∀ g, g ∈ rest.*2 → mark_free g ∧ ∀ y, y ∈ gone → contains_str y g = false) →
  ∃ rest', (∀ a, replace x (between p) (a +:+ render_rest rest) = replace x (between p) a +:+ render_rest rest') ∧
    spell_rest σ rest' = spell_rest σ rest ∧
    (∀ m, m ∈ rest'.*1 → m = p ∨ m ∈ rest.*1) ∧
    (∀ g, g ∈ rest'.*2 → mark_free g ∧ ∀ y, y ∈ x :: gone → contains_str y g = false).
Proof.
  intros Hn Hx Hσ. induction rest as [|[m t] rest IH]; intros Hm Hg.
  { exists []. split_and!; [|done|by intros m ?%elem_of_nil|by intros g ?%elem_of_nil].
    intros a. cbn. by rewrite !string_app_nil. }
  destruct IH as (rest' & H1 & H2 & H3 & H4).
  { intros m' Hm'. apply Hm. by right. }
  { intros g Hg'. apply Hg. by right. }
  destruct (Hg t) as [Ht Hy]; [by left|].
  destruct (split_text σ x p Hn Hσ t Ht) as [d [S1 S2 S3 S4 S5 _]].
  exists ((m, d.1) :: d.2 ++ rest'). split_and!.
  - intros a. cbn [render_rest]. rewrite !replace_mark by done. rewrite (replace_absent x _ m), H1, S1.
    + unfold render. by rewrite render_rest_app, string_app_assoc.
    + apply Hm. by left.
  - cbn [spell_rest]. rewrite spell_rest_app, H2. f_equal. rewrite <- string_app_assoc. f_equal. exact S2.
  - intros m'. rewrite fmap_cons, fmap_app, elem_of_cons, elem_of_app. intros [->|[Hm'|Hm']].
    + right. by left.
    + left. by apply S3.
    + destruct (H3 _ Hm') as [?|?]; [by left|right; by right].
  - intros g Hin. assert (g ∈ segments d ∨ g ∈ rest'.*2) as [Hin'|Hin'].
    { unfold segments. rewrite fmap_cons, fmap_app, elem_of_cons, elem_of_app in Hin. rewrite elem_of_cons. tauto. }
    + destruct (S5 g Hin') as [Hf Hxg]. split; [done|]. intros y [->|Hyg]%elem_of_cons; [done|].
      apply S4; [by apply Hy|done].
    + by apply H4.
Qed.
Lemma hide_step σ seen gone t d x p : documents σ seen gone t d → x ≠ "" → mark_free x → σ p = x →
  (∀ m, m ∈ seen → contains_str x m = false) →
  ∃ d', hide (render d) (x, p) = render d' ∧ documents σ (p :: seen) (x :: gone) t d'.
Proof.
  intros [H1 H2 H3 H4] Hn Hx Hσ Hm.
  destruct (replace_rest σ x p gone d.2 Hn Hx Hσ) as (rest' & R1 & R2 & R3 & R4).
  { intros m [->|Hin]%H2; [by destruct x|by apply Hm]. }
  { intros g Hg. assert (g ∈ segments d) as Hin by (unfold segments; by right). split; [by apply H3|].
    intros y Hy. by apply H4. }
  destruct (split_text σ x p Hn Hσ d.1) as [e [S1 S2 S3 S4 S5 _]]; [apply H3; by left|].
  exists (e.1, e.2 ++ rest'). split.
  - unfold hide. cbn [fst snd]. rewrite (replace_absent mark _ x) by by apply mark_free_contains.
    change (mark +:+ p +:+ mark) with (between p). unfold render at 1. rewrite R1, S1. unfold render. cbn [fst snd].
    by rewrite render_rest_app, string_app_assoc.
  - split.
    + unfold spell in *. cbn [fst snd]. by rewrite spell_rest_app, R2, <- string_app_assoc, S2.
    + intros m. unfold markers. cbn [snd]. rewrite fmap_app, elem_of_app, elem_of_cons.
      intros [Hin|Hin]; [right; left; by apply S3|]. destruct (R3 _ Hin) as [->|Hin']; [by auto|].
      destruct (H2 m Hin'); auto.
    + intros g. unfold segments. cbn [fst snd]. rewrite fmap_app, elem_of_cons, elem_of_app.
      intros [->|[Hin|Hin]]; [apply S5; by left|apply S5; by right|by apply R4].
    + intros y g Hy. unfold segments. cbn [fst snd]. rewrite fmap_app, elem_of_cons, elem_of_app. intros Hin.
      assert (g ∈ segments e ∨ g ∈ rest'.*2) as [Hin'|Hin'] by (unfold segments; rewrite elem_of_cons; tauto).
      * apply elem_of_cons in Hy as [->|Hy]; [by apply S5|]. apply S4; [|done]. apply H4; [done|by left].
      * by apply R4.
Qed.

(** ** Restoring *)

Lemma bind_ok {E A B} (a : A) (f : A → result E B) : (Ok a ≫= f) = f a.
Proof. done. Qed.
Lemma restore_plain texts a s : mark_free a →
  restore_from texts None (a +:+ s) = (out ← restore_from texts None s; Ok (a +:+ out)).
Proof.
  induction a as [|c a IH]; [intros _|intros [Hc Ha]%mark_free_cons].
  { change ("" +:+ s) with s. by destruct (restore_from texts None s). }
  change (String c a +:+ s) with (String c (a +:+ s)). cbn [restore_from]. rewrite decide_False by done.
  rewrite IH by done. by destruct (restore_from texts None s).
Qed.
Lemma restore_path texts acc m s : mark_free m →
  restore_from texts (Some acc) (m +:+ String MARK s) =
    (secret ← marked texts (acc +:+ m); out ← restore_from texts None s; Ok (secret +:+ out)).
Proof.
  revert acc. induction m as [|c m IH]; intros acc.
  - intros _. change ("" +:+ String MARK s) with (String MARK s). cbn [restore_from].
    by rewrite decide_True, string_app_nil.
  - intros [Hc Hm]%mark_free_cons. change (String c m +:+ String MARK s) with (String c (m +:+ String MARK s)).
    cbn [restore_from]. rewrite decide_False by done. rewrite IH by done. by rewrite string_app_assoc.
Qed.
Lemma restore_document texts σ d : (∀ g, g ∈ segments d → mark_free g) →
  (∀ m, m ∈ markers d → mark_free m ∧ marked texts m = Ok (σ m)) →
  restore_from texts None (render d) = Ok (spell σ d).
Proof.
  destruct d as [a rest]. unfold render, spell, segments, markers. cbn [fst snd].
  revert a. induction rest as [|[m t] rest IH]; intros a Hg Hm.
  - rewrite restore_plain by (apply Hg; by left). done.
  - rewrite restore_plain by (apply Hg; by left). cbn [render_rest spell_rest].
    cbn [restore_from]. rewrite decide_True by done. destruct (Hm m) as [Hf Hσ]; [by left|].
    rewrite restore_path by done. change ("" +:+ m) with m. rewrite Hσ, bind_ok. rewrite IH; [done|..].
    + intros g Hg'. apply Hg. by right.
    + intros m' Hm'. apply Hm. by right.
Qed.

(** ** The secrets a redaction can tell apart *)

(** Secrets and paths are plain, paths are distinct, and no secret occurs in the
    path of one that is replaced before it. *)
Fixpoint legible (texts : list (string * string)) : bool :=
  match texts with
  | [] => true
  | (x, p) :: texts =>
      negb (str_eqb x "") && negb (contains_char MARK x) && negb (str_eqb p "") && negb (contains_char MARK p)
      && forallb (λ y, negb (contains_str y.1 p) && negb (str_eqb y.2 p)) texts && legible texts
  end.
Lemma legible_cons x p texts : legible ((x, p) :: texts) = true ↔
  (x ≠ "" ∧ mark_free x ∧ p ≠ "" ∧ mark_free p) ∧
  (∀ y q, (y, q) ∈ texts → contains_str y p = false ∧ q ≠ p) ∧ legible texts = true.
Proof.
  cbn [legible]. unfold mark_free. rewrite !andb_true_iff, !negb_true_iff, forallb_forall.
  unfold str_eqb. rewrite !bool_decide_eq_false. split.
  - intros [[[[[? ?] ?] ?] Hy] ?]. split; [done|]. split; [|done]. intros y q Hin.
    specialize (Hy (y, q) ltac:(by apply list_elem_of_In)). cbn in Hy.
    by rewrite andb_true_iff, !negb_true_iff, bool_decide_eq_false in Hy.
  - intros [(? & ? & ? & ?) [Hy ?]]. split_and!; try done. intros [y q] Hin. cbn.
    rewrite andb_true_iff, !negb_true_iff, bool_decide_eq_false. apply Hy. by apply list_elem_of_In.
Qed.

(** What the markers of a redaction stand for. *)
Definition meaning (texts : list (string * string)) (m : string) : string :=
  match marked texts m with Ok s => s | Err _ => "" end.
Lemma meaning_mark texts : meaning texts "" = mark.
Proof. done. Qed.
Lemma legible_marked texts x p : legible texts = true → (x, p) ∈ texts → marked texts p = Ok x.
Proof.
  intros Hl Hin. unfold marked. assert (p ≠ "") as Hp.
  { induction texts as [|[y q] texts IH]; [by apply elem_of_nil in Hin|].
    apply legible_cons in Hl as ((? & ? & ? & ?) & _ & Hl). apply elem_of_cons in Hin as [[= -> ->]|Hin]; [done|by apply IH]. }
  rewrite decide_False by done.
  enough (∃ i, list_find (λ x, x.2 = p) texts = Some (i, (x, p))) as [i ->] by done.
  induction texts as [|[y q] texts IH]; [by apply elem_of_nil in Hin|].
  apply legible_cons in Hl as (_ & Hq & Hl). cbn [list_find snd]. apply elem_of_cons in Hin as [[= <- <-]|Hin].
  - rewrite decide_True by done. by exists 0%nat.
  - destruct (Hq _ _ Hin) as [_ Hne]. rewrite decide_False by congruence.
    destruct (IH Hl Hin) as [i ->]. by exists (S i).
Qed.
Lemma legible_elem texts x p : legible texts = true → (x, p) ∈ texts → x ≠ "" ∧ mark_free x ∧ p ≠ "" ∧ mark_free p.
Proof.
  induction texts as [|[y q] texts IH]; intros Hl Hin; [by apply elem_of_nil in Hin|].
  apply legible_cons in Hl as (Hy & _ & Hl). apply elem_of_cons in Hin as [[= -> ->]|Hin]; [done|by apply IH].
Qed.
Lemma hide_all σ l seen gone t d : documents σ seen gone t d → legible l = true →
  (∀ x p, (x, p) ∈ l → σ p = x ∧ ∀ m, m ∈ seen → contains_str x m = false) →
  ∃ d' seen' gone', foldl hide (render d) l = render d' ∧ documents σ seen' gone' t d' ∧
    (∀ m, m ∈ seen' → m ∈ seen ∨ m ∈ l.*2) ∧ (∀ y, y ∈ gone ∨ y ∈ l.*1 → y ∈ gone').
Proof.
  revert seen gone d. induction l as [|[x p] l IH]; intros seen gone d Hd Hl Hs.
  - exists d, seen, gone. split_and!; [done|done|by left|]. by intros y [?|?%elem_of_nil].
  - apply legible_cons in Hl as ((Hx & Hf & Hp & Hpf) & Hq & Hl). destruct (Hs x p) as [Hσ Hm]; [by left|].
    destruct (hide_step σ seen gone t d x p Hd Hx Hf Hσ Hm) as (d1 & E & Hd1).
    destruct (IH (p :: seen) (x :: gone) d1 Hd1 Hl) as (d' & seen' & gone' & E' & Hd' & H1 & H2).
    { intros y q Hin. destruct (Hs y q) as [Hσ' Hm']; [by right|]. split; [done|].
      intros m [->|Hin']%elem_of_cons; [by destruct (Hq _ _ Hin)|by apply Hm']. }
    exists d', seen', gone'. cbn [foldl]. rewrite E. split_and!; [done|done| |].
    + intros m [[->|?]%elem_of_cons|?]%H1; [right; by left|by left|right; by right].
    + intros y Hy. apply H2. rewrite fmap_cons, elem_of_cons in Hy. rewrite elem_of_cons. tauto.
Qed.
(** A redacted text is a document of the text, without the secrets. *)
Lemma text_document r t : active r = true → legible (red_texts r) = true →
  ∃ d, text r t = render d ∧ spell (meaning (red_texts r)) d = t ∧
    (∀ g, g ∈ segments d → mark_free g) ∧
    (∀ m, m ∈ markers d → m = "" ∨ m ∈ (red_texts r).*2) ∧
    ∀ x g, x ∈ (red_texts r).*1 → g ∈ segments d → contains_str x g = false.
Proof.
  intros Ha Hl. unfold text. rewrite Ha.
  destruct (escape_text (meaning (red_texts r)) t (meaning_mark _)) as (d & -> & Hd).
  destruct (hide_all (meaning (red_texts r)) (red_texts r) [] [] t d Hd Hl) as (d' & seen & gone & -> & [H1 H2 H3 H4] & Hs & Hg).
  { intros x p Hin. split; [by unfold meaning; rewrite (legible_marked _ x p)|by intros m ?%elem_of_nil]. }
  exists d'. split_and!; [done|done|done| |].
  - intros m [->|[Hin%elem_of_nil|Hin]%Hs]%H2; [by left|done|by right].
  - intros x g Hx. apply H4. apply Hg. by right.
Qed.
Lemma restored_text r t : active r = true → legible (red_texts r) = true → restore_text r (text r t) = Ok t.
Proof.
  intros Ha Hl. destruct (text_document r t Ha Hl) as (d & -> & Hsp & Hf & Hm & _).
  assert (restore_from (red_texts r) None (render d) = Ok t) as E.
  { rewrite (restore_document _ (meaning (red_texts r)) d Hf); [by rewrite Hsp|].
    intros m [->|([x p] & -> & Hin)%list_elem_of_fmap]%Hm; [done|]. cbn [snd].
    unfold meaning. rewrite (legible_marked _ x p Hl Hin). split; [|done]. by apply (legible_elem _ x p Hl Hin). }
  unfold restore_text. destruct (contains_char MARK (render d)) eqn:Ec; [done|].
  rewrite <- (string_app_nil (render d)) in E. rewrite restore_plain in E by done.
  cbn in E. by rewrite string_app_nil in E.
Qed.

(** ** Values and records *)

Fixpoint value_depth (v : value) : nat :=
  match v with
  | VArr l => S (foldr (λ v n, Nat.max (value_depth v) n) 0%nat l)
  | VObj m => S (map_fold (λ _ v n, Nat.max (value_depth v) n) 0%nat m)
  | _ => O
  end.
(** Induction on a value and on what its arrays and objects hold. *)
Lemma value_nested_ind (P : value → Prop) :
  P VNull → (∀ b, P (VBool b)) → (∀ n, P (VNum n)) → (∀ s, P (VStr s)) →
  (∀ l, Forall P l → P (VArr l)) → (∀ m, map_Forall (λ _, P) m → P (VObj m)) → ∀ v, P v.
Proof.
  intros H1 H2 H3 H4 H5 H6 v. remember (value_depth v) as n eqn:E.
  assert (value_depth v ≤ n)%nat as Hle by lia. clear E. revert v Hle.
  induction n as [n IH] using lt_wf_ind. intros v Hle.
  destruct v as [| | | |l|m]; [done|done|done|done|apply H5|apply H6].
  - cbn in Hle. apply Forall_forall. intros x Hx. apply (IH (value_depth x)); [|done].
    enough (value_depth x ≤ foldr (λ v n, value_depth v `max` n) 0 l)%nat by lia.
    clear -Hx. induction Hx; cbn; lia.
  - intros k x Hx. apply (IH (value_depth x)); [|done]. cbn in Hle.
    enough (value_depth x ≤ map_fold (λ _ v n, Nat.max (value_depth v) n) 0 m)%nat by lia.
    clear -Hx. revert x k Hx. apply (map_fold_weak_ind (λ r m, ∀ x k, m !! k = Some x → (value_depth x ≤ r)%nat)).
    + intros x k Hx. by rewrite lookup_empty in Hx.
    + intros j y m' r Hj IHm x k [[_ Hy]|[_ Hx]]%lookup_insert_Some; [subst; lia|]. specialize (IHm _ _ Hx). lia.
Qed.

Lemma list_choice {A B} (R : A → B → Prop) l : (∀ x, x ∈ l → ∃ y, R x y) → ∃ k, Forall2 R l k.
Proof.
  induction l as [|x l IH]; intros Hl; [by exists []|]. destruct (Hl x) as [y Hy]; [by left|].
  destruct IH as [k Hk]; [intros; apply Hl; by right|]. exists (y :: k). by constructor.
Qed.
Lemma foldl_inserts {A} (l : list (string * A)) (acc : gmap string A) :
  NoDup l.*1 → (∀ k, k ∈ l.*1 → acc !! k = None) →
  foldl (λ m x, <[x.1 := x.2]> m) acc l = list_to_map l ∪ acc.
Proof.
  revert acc. induction l as [|[k a] l IH]; intros acc; cbn [foldl]; [intros; cbn; by rewrite (left_id_L ∅ (∪))|].
  rewrite fmap_cons, NoDup_cons. intros [Hk HN] Hacc. rewrite IH; [|done|].
  - cbn. rewrite <- insert_union_r; [by rewrite insert_union_l|]. by apply not_elem_of_list_to_map_1.
  - intros j Hj. rewrite lookup_insert_ne; [apply Hacc; by right|]. intros <-. done.
Qed.
(** A pass over the entries of a map that inserts an image of each. *)
Lemma fold_entries {A B E} (m : gmap string A) (φ : string → string) (R : string → A → B → Prop) :
  (∀ k j, is_Some (m !! k) → is_Some (m !! j) → φ k = φ j → k = j) →
  (∀ k a, m !! k = Some a → ∃ b, R k a b) →
  ∃ M : gmap string B,
    (∀ j b, M !! j = Some b ↔ ∃ k a, φ k = j ∧ m !! k = Some a ∧ R k a b ∧ M !! φ k = Some b) ∧
    (∀ k a, m !! k = Some a → ∃ b, R k a b ∧ M !! φ k = Some b) ∧
    ∀ st : result E (gmap string B) → string * A → result E (gmap string B),
      (∀ out k a b, m !! k = Some a → R k a b → st (Ok out) (k, a) = Ok (<[φ k := b]> out)) →
      foldl st (Ok ∅) (entries m) = Ok M.
Proof.
  intros Hφ HR. destruct (list_choice (λ x y, y.1 = φ x.1 ∧ R x.1 x.2 y.2) (entries m)) as [ts Hts].
  { intros [k a] Hin%elem_of_entries. destruct (HR k a Hin) as [b Hb]. by exists (φ k, b). }
  assert (NoDup ts.*1) as HN.
  { assert (∀ k, k ∈ (entries m).*1 → is_Some (m !! k)) as Hdom.
    { intros k ([k' a] & -> & Hin%elem_of_entries)%list_elem_of_fmap. by exists a. }
    pose proof (entries_perm m) as Hp. assert (NoDup (entries m).*1) as HE.
    { rewrite Hp. apply NoDup_fst_map_to_list. }
    clear Hp HR. revert Hdom HE. induction Hts as [|[k a] [j b] l ts [Hj _] Hts IH]; [constructor|].
    cbn [fst] in Hj. subst j. rewrite !fmap_cons, !NoDup_cons. intros Hdom [Hk HE]. split.
    - intros ([j b'] & Hj & Hin)%list_elem_of_fmap. cbn in Hj.
      apply list_elem_of_lookup in Hin as [i Hi]. destruct (Forall2_lookup_r _ _ _ _ _ Hts Hi) as ([k' a'] & Hi' & Hj' & _).
      cbn in Hj'. apply Hk. rewrite (Hφ k k'); [| | |congruence].
      + apply list_elem_of_fmap. exists (k', a'). split; [done|]. by eapply list_elem_of_lookup_2.
      + apply Hdom. by left.
      + apply Hdom. right. apply list_elem_of_fmap. exists (k', a'). split; [done|]. by eapply list_elem_of_lookup_2.
    - apply IH; [|done]. intros k' Hk'. apply Hdom. by right. }
  assert (∀ k a, m !! k = Some a → ∃ b, R k a b ∧ (list_to_map ts : gmap string B) !! φ k = Some b) as Hfw.
  { intros k a Hin. apply elem_of_entries, list_elem_of_lookup in Hin as [i Hi].
    destruct (Forall2_lookup_l _ _ _ _ _ Hts Hi) as ([j b] & Hj & Hjk & Hb). cbn in *. subst j.
    exists b. split; [done|]. apply elem_of_list_to_map; [done|]. by eapply list_elem_of_lookup_2. }
  exists (list_to_map ts). split_and!; [|done|].
  - intros j b. split; [|by intros (k & a & <- & _ & _ & Hb)]. intros Hin. pose proof Hin as Hin'.
    apply elem_of_list_to_map in Hin; [|done]. apply list_elem_of_lookup in Hin as [i Hi].
    destruct (Forall2_lookup_r _ _ _ _ _ Hts Hi) as ([k a] & Hk & Hj & Hb). cbn in *. subst j.
    exists k, a. split; [done|]. split; [|done]. apply elem_of_entries. by eapply list_elem_of_lookup_2.
  - intros st Hst.
    assert (∀ acc, foldl st (Ok acc) (entries m) = Ok (foldl (λ m x, <[x.1 := x.2]> m) acc ts)) as ->.
    { assert (∀ k a, (k, a) ∈ entries m → m !! k = Some a) as Hm by (by intros k a ?%elem_of_entries).
      clear -Hts Hst Hm. revert Hm. induction Hts as [|[k a] [j b] l ts [Hj Hb] Hts IH]; intros Hm acc; [done|].
      cbn [foldl fst snd] in *. subst j. rewrite (Hst _ k a b); [|apply Hm; by left|done].
      apply IH. intros k' a' Hin. apply Hm. by right. }
    rewrite foldl_inserts; [by rewrite (right_id_L ∅ (∪))|done|]. intros. apply lookup_empty.
Qed.

(** The strings and the member names of a value. *)
Fixpoint strings (v : value) : list string :=
  match v with
  | VStr s => [s]
  | VArr l => concat (strings <$> l)
  | VObj m => concat ((λ x, x.1 :: x.2) <$> entries (strings <$> m))
  | _ => []
  end.

Section mapped.
Context (h : string → string) (g : string → result string string) (Hg : ∀ s, g (h s) = Ok s).
Let hide_string (s : string) : result string string := Ok (h s).
Lemma hidden_inj s t : h s = h t → s = t.
Proof. intros E. pose proof (Hg s) as E1. rewrite E, Hg in E1. by injection E1. Qed.

(** What a mapped value is: it maps back, and its strings are images. *)
Definition mapped (v v' : value) : Prop :=
  map_strings hide_string v = Ok v' ∧ map_strings g v' = Ok v ∧ ∀ s, s ∈ strings v' → ∃ t, s = h t.
Lemma map_strings_cons {E} (f : string → result E string) v v' l l' :
  map_strings f v = Ok v' → map_strings f (VArr l) = Ok (VArr l') → map_strings f (VArr (v :: l)) = Ok (VArr (v' :: l')).
Proof.
  intros H1 H2. cbn [map_strings] in *. rewrite H1. rewrite bind_ok.
  match type of H2 with (?x ≫= _) = _ => destruct x as [k|]; [|done] end. by injection H2 as ->.
Qed.
Lemma mapped_array l : Forall (λ v, ∃ v', mapped v v') l → ∃ l', mapped (VArr l) (VArr l').
Proof.
  induction 1 as [|v l (v' & H1 & H2 & H3) Hl (l' & I1 & I2 & I3)].
  { exists []. split; [done|]. split; [done|]. by intros s ?%elem_of_nil. }
  exists (v' :: l'). split; [by apply map_strings_cons|]. split; [by apply map_strings_cons|].
  intros s. cbn [strings]. rewrite fmap_cons. cbn [concat]. intros [Hs|Hs]%elem_of_app; auto.
Qed.
Lemma mapped_object m : map_Forall (λ _ v, ∃ v', mapped v v') m → ∃ v', mapped (VObj m) v'.
Proof.
  intros Hm.
  destruct (fold_entries (E := string) (map_strings hide_string <$> m) h
    (λ k a b, ∃ v, m !! k = Some v ∧ mapped v b)) as (M & HM & HM' & HF).
  { intros k j _ _. apply hidden_inj. }
  { intros k a (v & <- & Hv)%lookup_fmap_Some. destruct (Hm k v Hv) as [b Hb]. eauto. }
  assert (map_strings hide_string (VObj m) = Ok (VObj M)) as E1.
  { cbn [map_strings]. rewrite HF; [done|]. intros out k a b (v & Ha & Hv)%lookup_fmap_Some (v' & Hv' & Hb & _ & _).
    rewrite Hv in Hv'. injection Hv' as <-. subst a. cbn. by rewrite Hb. }
  set (φ := λ j, match g j with Ok k => k | Err _ => j end).
  assert (∀ k, φ (h k) = k) as Hφ by (intros k; unfold φ; by rewrite Hg).
  assert (∀ j b, M !! j = Some b → ∃ k v, j = h k ∧ m !! k = Some v ∧ mapped v b) as Hback.
  { intros j b (k & a & <- & _ & (v & Hv & Hb) & _)%HM. eauto. }
  destruct (fold_entries (E := string) (map_strings g <$> M) φ
    (λ j a v, m !! φ j = Some v ∧ a = Ok v)) as (M2 & H2 & H2' & HF2).
  { intros k j [a Ha] [b Hb]. apply lookup_fmap_Some in Ha as (x & _ & Hx), Hb as (y & _ & Hy).
    apply Hback in Hx as (k' & _ & -> & _), Hy as (j' & _ & -> & _). rewrite !Hφ. by intros ->. }
  { intros j a (b & Ha & Hb)%lookup_fmap_Some. destruct (Hback _ _ Hb) as (k & v & -> & Hv & _ & Hv' & _).
    exists v. by rewrite Hφ, <- Ha, Hv'. }
  assert (M2 = m) as ->.
  { apply map_eq. intros k. apply option_eq. intros v. split.
    - intros (j & a & <- & _ & [Hv _] & _)%H2. done.
    - intros Hv. assert ((map_strings hide_string <$> m) !! k = Some (map_strings hide_string v)) as Hk
        by by rewrite lookup_fmap, Hv.
      destruct (HM' _ _ Hk) as (b & _ & Hb). destruct (H2' (h k) (map_strings g b)) as (w & [Hw _] & Hw').
      { by rewrite lookup_fmap, Hb. }
      rewrite Hφ in *. congruence. }
  exists (VObj M). split; [done|]. split.
  - cbn [map_strings]. rewrite HF2; [done|]. intros out j a v (b & Ha & Hb)%lookup_fmap_Some [Hv ->].
    destruct (Hback _ _ Hb) as (k & v' & -> & Hv' & _). cbn. rewrite Hg. cbn. by rewrite Hφ.
  - intros s. cbn [strings]. intros (l & (x & -> & Hx)%list_elem_of_In%list_elem_of_fmap & Hs%list_elem_of_In)%list_elem_of_In%in_concat.
    destruct x as [j l]. cbn [fst snd] in Hs. apply elem_of_entries, lookup_fmap_Some in Hx as (b & <- & Hb).
    destruct (Hback _ _ Hb) as (k & v & -> & _ & _ & _ & Hv). apply elem_of_cons in Hs as [->|Hs]; [by exists k|by apply Hv].
Qed.
Lemma map_strings_mapped v : ∃ v', mapped v v'.
Proof.
  induction v as [| | |s|l IH|m IH] using value_nested_ind; [..|by destruct (mapped_array l IH) as [l' ?]; exists (VArr l')|by apply mapped_object].
  1-3: by eexists; split; [reflexivity|]; split; [reflexivity|]; intros s ?%elem_of_nil.
  exists (VStr (h s)). split; [done|]. split; [cbn; by rewrite Hg|]. intros t ->%list_elem_of_singleton. eauto.
Qed.

(** A mapping of payloads that maps back. *)
Definition returns {A} (conv : (string → result string string) → A → result string A) (x : A) : Prop :=
  ∃ x', conv hide_string x = Ok x' ∧ conv g x' = Ok x.
Lemma returns_value v : returns map_strings v.
Proof. destruct (map_strings_mapped v) as (v' & H1 & H2 & _). by exists v'. Qed.
Lemma returns_error e : returns map_error e.
Proof.
  destruct e as [t st ti de ins]. exists (mkError (h t) st (h <$> ti) (h <$> de) (h <$> ins)).
  unfold map_error. cbn. destruct ti, de, ins; cbn; by rewrite ?Hg; cbn; rewrite ?Hg; cbn; rewrite ?Hg; cbn; rewrite ?Hg.
Qed.
Lemma returns_outcome o : returns convert_outcome o.
Proof.
  destruct o as [v flow|e fatal].
  - destruct (returns_value v) as (v' & H1 & H2). exists (StepCompleted v' flow). cbn [convert convert_outcome convert_state]. by rewrite H1, H2.
  - destruct (returns_error e) as (e' & H1 & H2). exists (StepFaulted e' fatal). cbn [convert convert_outcome convert_state]. by rewrite H1, H2.
Qed.
Lemma returns_state s : returns convert_state s.
Proof.
  destruct s as [|e|[v|e]]; [by exists Pending| | |].
  - destruct (returns_error e) as (e' & H1 & H2). exists (NotExecuted e'). cbn [convert convert_outcome convert_state]. by rewrite H1, H2.
  - destruct (returns_value v) as (v' & H1 & H2). exists (Done (Ok v')). cbn [convert convert_outcome convert_state]. by rewrite H1, H2.
  - destruct (returns_error e) as (e' & H1 & H2). exists (Done (Err e')). cbn [convert convert_outcome convert_state]. by rewrite H1, H2.
Qed.
Lemma returns_annotations m : returns convert_annotations m.
Proof.
  set (ha := λ a, match a with AText s => AText (h s) | n => n end).
  destruct (fold_entries (E := string) m id (λ _ a b, b = ha a)) as (M & HM & HM' & HF); [done|eauto|].
  assert (∀ k b, M !! k = Some b ↔ ∃ a, m !! k = Some a ∧ b = ha a) as HMk.
  { intros k b. split; [by intros (k' & a & <- & Hk & -> & _)%HM; exists a|].
    intros (a & Ha & ->). by destruct (HM' _ _ Ha) as (b & -> & Hb). }
  destruct (fold_entries (E := string) M id (λ _ b a, b = ha a)) as (M2 & H2 & H2' & HF2); [done| |].
  { intros k b (a & _ & ->)%HMk. eauto. }
  assert (∀ a b, ha a = ha b → a = b) as Hinj.
  { intros [n|s] [n'|s']; cbn; try done. by intros [= ->%hidden_inj]. }
  assert (M2 = m) as ->.
  { apply map_eq. intros k. apply option_eq. intros a. split.
    - intros (k' & b & <- & Hb & -> & _)%H2. apply HMk in Hb as (a' & Ha & E). by apply Hinj in E as ->.
    - intros Ha. assert (M !! k = Some (ha a)) as Hb by (apply HMk; eauto).
      destruct (H2' _ _ Hb) as (a' & ->%Hinj & Ha'). done. }
  exists M. unfold convert_annotations. split; [apply HF|apply HF2].
  - intros out k [n|s] b _ ->; done.
  - intros out k b [n|s] _ ->; [done|]. cbn. by rewrite Hg.
Qed.
Lemma returns_record x : returns convert x.
Proof.
  destruct x as [x|st [[c o]|]|[l f a d s n]| | | | |v|[v|e| | |]| |];
    try (eexists; split; reflexivity).
  - destruct x as [ver id def inp run st mt ma].
    destruct (returns_value def) as (v1 & H1 & H1'), (returns_value inp) as (v2 & H2 & H2'),
      (returns_value run) as (v3 & H3 & H3').
    exists (RExecution (mkExecution ver id v1 v2 v3 st mt ma)). cbn -[map_strings map_error convert_outcome convert_state convert_annotations]. by rewrite H1, H1', H2, H2', H3, H3'.
  - destruct (returns_value c) as (c' & H1 & H1'), (returns_outcome o) as (o' & H2 & H2').
    exists (RTask st (Some (mkTaskResult c' o'))). cbn -[map_strings map_error convert_outcome convert_state convert_annotations]. by rewrite H1, H1', H2, H2'.
  - destruct (returns_value a) as (a' & H1 & H1'), (returns_state s) as (s' & H2 & H2'),
      (returns_annotations n) as (n' & H3 & H3').
    exists (RCall (mkCall l f a' d s' n')). cbn -[map_strings map_error convert_outcome convert_state convert_annotations]. by rewrite H1, H1', H2, H2', H3, H3'.
  - destruct (returns_value v) as (v' & H1 & H1'). exists (RWinner v'). cbn -[map_strings map_error convert_outcome convert_state convert_annotations]. by rewrite H1, H1'.
  - destruct (returns_value v) as (v' & H1 & H1'). exists (RFinished (Completed v')). cbn -[map_strings map_error convert_outcome convert_state convert_annotations]. by rewrite H1, H1'.
  - destruct (returns_error e) as (v' & H1 & H1'). exists (RFinished (Faulted v')). cbn -[map_strings map_error convert_outcome convert_state convert_annotations]. by rewrite H1, H1'.
Qed.
End mapped.

Lemma text_mapped r : active r = true → legible (red_texts r) = true → ∀ s, restore_text r (text r s) = Ok s.
Proof. intros Ha Hl s. by apply restored_text. Qed.
Lemma value_restored r v : legible (red_texts r) = true → restore_value r (redact_value r v) = Ok v.
Proof.
  intros Hl. unfold restore_value, redact_value. destruct (active r) eqn:Ha; [|done].
  destruct (returns_value (text r) (restore_text r) (text_mapped r Ha Hl) v) as (v' & -> & H2). done.
Qed.
(** C21: what is persisted restores to what was redacted: for any value and any
    record, with secrets that are legible, every string, member name, error and
    text annotation comes back, and nothing else of the record moves. *)
Theorem redaction_round_trips r v x : legible (red_texts r) = true →
  restore_value r (redact_value r v) = Ok v ∧ restore r (redact_record r x) = Ok x.
Proof.
  intros Hl. split; [by apply value_restored|]. unfold restore, redact_record. destruct (active r) eqn:Ha; [|done].
  destruct (returns_record (text r) (restore_text r) (text_mapped r Ha Hl) x) as (x' & -> & H2). done.
Qed.

(** C22: nothing of a secret is stored: when the secrets are legible (no secret and
    no path is empty or holds the mark, paths differ, and no secret occurs in the path of
    one replaced before it), a secret that occurs in no path is in no redacted text, and in no string or
    member name of a redacted value, wherever and however often it occurred before. *)
Theorem redaction_hides r x p : legible (red_texts r) = true → (x, p) ∈ red_texts r →
  (∀ y q, (y, q) ∈ red_texts r → contains_str x q = false) →
  (∀ t, contains_str x (text r t) = false) ∧
  ∀ v s, s ∈ strings (redact_value r v) → contains_str x s = false.
Proof.
  intros Hl Hin Hap. assert (active r = true) as Ha.
  { unfold active. apply negb_true_iff, bool_decide_eq_false. intros E. rewrite E in Hin. by apply elem_of_nil in Hin. }
  destruct (legible_elem _ _ _ Hl Hin) as (Hn & Hf & _ & _).
  assert (∀ t, contains_str x (text r t) = false) as Ht.
  { intros t. destruct (text_document r t Ha Hl) as ([a rest] & -> & _ & _ & Hm & Hg).
    assert (x ∈ (red_texts r).*1) as Hx by (apply list_elem_of_fmap; by exists (x, p)).
    unfold render, segments, markers in *. cbn [fst snd] in *. revert a Hg.
    induction rest as [|[m t'] rest IH]; intros a Hg; cbn [render_rest].
    - rewrite string_app_nil. apply Hg; [done|by left].
    - rewrite !contains_str_mark by done. rewrite (Hg x a Hx) by (by left). rewrite IH; [rewrite orb_false_r|..].
      + cbn [orb]. destruct (Hm m) as [->|([y q] & -> & Hy)%list_elem_of_fmap]; [by left|by destruct x|].
        exact (Hap y q Hy).
      + intros m' Hm'. apply Hm. by right.
      + intros y g Hy Hgin. apply Hg; [done|by right]. }
  split; [done|]. intros v s. unfold redact_value. rewrite Ha.
  destruct (map_strings_mapped (text r) (restore_text r) (text_mapped r Ha Hl) v) as (v' & -> & _ & Hs).
  by intros [t ->]%Hs.
Qed.

(** ** A redaction that cannot be read back *)

(** A database's credentials, the user named like the secret. *)
Definition credentials (name : string) : result string (option value) :=
  Ok (Some (VObj {["user" := VStr "postgres"; "password" := VStr "s3cretpass"]})).
Definition illegible : Redaction :=
  match resolve ["postgres"] credentials with Ok r => r | Err _ => mkRedaction [] [] end.

(** The order of replacement does not keep what was put: a user named like
    its secret is then found inside the path of the password's marker, so that
    what is stored for the password cannot be restored, and a replay of the
    record fails. *)
Theorem redaction_can_lose_a_value :
  resolve ["postgres"] credentials = Ok illegible ∧ legible (red_texts illegible) = false ∧
  restore_value illegible (redact_value illegible (VStr "s3cretpass")) =
    Err "a saved value refers to secret `.password`, which is not available" ∧
  restore illegible (redact_record illegible (RWinner (VStr "s3cretpass"))) =
    Err "a saved value refers to secret `.password`, which is not available".
Proof. split_and!; vm_compute; reflexivity. Qed.

(** ** Witnesses *)

Definition granted (name : string) : result string (option value) :=
  Ok (if decide (name = "api") then Some (VObj {["token" := VStr "s3cr3t-token"; "user" := VStr "bob"]})
      else if decide (name = "pin") then Some (VStr "s3cr3t") else None).
Definition plain_redaction : Redaction :=
  match resolve ["api"; "pin"; "absent"] granted with Ok r => r | Err _ => mkRedaction [] [] end.
Lemma plain_legible : legible (red_texts plain_redaction) = true.
Proof. vm_compute. reflexivity. Qed.
Lemma redaction_round_trips_witness :
  restore_value plain_redaction (redact_value plain_redaction (VStr "Bearer s3cr3t-token")) = Ok (VStr "Bearer s3cr3t-token") ∧
  restore plain_redaction (redact_record plain_redaction (RWinner (VStr "s3cr3t"))) = Ok (RWinner (VStr "s3cr3t")).
Proof. apply (redaction_round_trips plain_redaction). apply plain_legible. Defined.
Lemma redaction_hides_witness :
  (∀ t, contains_str "s3cr3t" (text plain_redaction t) = false) ∧
  ∀ v s, s ∈ strings (redact_value plain_redaction v) → contains_str "s3cr3t" s = false.
Proof.
  apply (redaction_hides plain_redaction "s3cr3t" "pin"); [apply plain_legible| |].
  - apply list_elem_of_In. vm_compute. tauto.
  - assert (forallb (λ b, negb (contains_str "s3cr3t" b.2)) (red_texts plain_redaction) = true) as Hall
      by (vm_compute; reflexivity).
    intros y q Hb%list_elem_of_In. rewrite forallb_forall in Hall. by apply negb_true_iff, (Hall (y, q)).
Defined.
