(* ===== verification/Drive.v ===== *)
(** * A drive of a run

    [crates/ows/src/run.rs], section 3: what one execution of a run keeps
    ([Shared], the locked fields of [Run]) and how it reaches its host and its
    journal. A piece of the interpreter is a program ([drive], a free monad) whose
    operations are its accesses to the shared fields, each made under one lock, and
    its calls of the host's seams; between two operations other branches of the run
    may act, and a drive may stop for good at any of them. Reports to the observer
    are not part of the programs. *)
From S2P Require Import Prelude Json Outcome Journal Expr Listen Secrets.

(** Why a step stopped: [Fault]. *)
Inductive Fault :=
| FtError (e : WorkflowError)
| FtFatal (e : WorkflowError)
| FtCancelled
| FtWaiting (wake_at_ms : Z)
| FtInterrupted (e : WorkflowError)
| FtExceeded (output : value).
#[export] Instance Fault_eq_dec : EqDecision Fault.
Proof. solve_decision. Defined.

Inductive Target := TFunction (name : string) | TProcess (kind : string).
(** A dispatched call: what [invoke], [execute] and [run_process] are given. *)
Record Dispatched := mkDispatched {
  dp_target : Target;
  dp_name : string;
  dp_args : value;
  dp_reference : string;
  dp_logical : string;
  dp_attempt : Z;
  dp_delivery : Delivery;
  dp_cooperative : bool
}.
(** What [Children::start] is given: [ChildTarget] with the input. *)
Record ChildStart := mkChildStart {
  cs_key : string;
  cs_namespace : string;
  cs_name : string;
  cs_version : string;
  cs_inherit_host : bool;
  cs_input : value;
  cs_owned : bool
}.
(** [Events], but for [take]. *)
Inductive events_op :=
| EvWaiting (key : string) (w : PendingWait)
| EvSubscribe (key : string) (types : list string)
| EvUnsubscribe (key : string)
| EvRegister (types : list string)
| EvUnregister (key : string) (types : list string).
(** The fields of [Run] its branches share. *)
Record Shared := mkShared {
  sh_records : gmap string JRecord;
  sh_attempts : list (string * string * Z);
  sh_tasks_run : Z;
  sh_jumps : Z;
  sh_protected : Z;
  sh_handlers : list (string * Z);
  sh_handler_failed : bool;
  sh_exceeded : option Fault;
  sh_exceeded_exit : option (string * value);
  sh_deadlines : gmap string Z;
  sh_calls : gmap string CallEntry
}.
#[export] Instance eta_Shared : Eta Shared := λ r,
  mkShared (sh_records r) (sh_attempts r) (sh_tasks_run r) (sh_jumps r) (sh_protected r) (sh_handlers r)
    (sh_handler_failed r) (sh_exceeded r) (sh_exceeded_exit r) (sh_deadlines r) (sh_calls r).

(** [OAccess f] answers the shared fields and updates them, and [OContext f] the
    workflow context of the branch. [OSave] and [OSpend] are the journal's;
    [ODispatch] and [OEmit] answer [None] when the run's cancellation dropped the
    call; [OPause] sleeps and answers whether the run was cancelled first, [OHeld]
    whether the time a listen holds has passed, [ONotified] waits for a delivery or
    that time and answers whether it was a delivery; [OFollow] waits for the branch
    that ends the run through its budget. [ORace left o] is [o] under a timer of
    [left] milliseconds that answers [None] when the timer fired first, whether or not [o] had its effect;
    [OTurn] asks which of two concurrent parts goes on, and [OYield] tells the part
    that runs branches how one ended. *)
Inductive drive_op :=
| OAccess (f : Shared → Shared)
| OContext (f : value → value)
| OSave (key : string) (r : JRecord)
| OSpend (key : string) (limit : Z)
| ONow
| OCancelled
| ODispatch (d : Dispatched)
| OEmit (envelope : value) (d : Dispatched)
| OUuid
| OPause (nanos : Z)
| OEvents (e : events_op)
| OTake (key : string) (types : list string)
| OHeld (nanos : Z)
| ONotified (nanos : Z)
| OChild (c : ChildStart)
| OSchema (uri : string)
| OFollow
| OTurn
| OYield (branch : nat) (r : result Fault (value * option Flow))
| ORace (left : Z) (o : drive_op).
Fixpoint drive_answer (o : drive_op) : Type :=
  match o with
  | OAccess _ => Shared
  | OContext _ => value
  | OSave _ _ => result string unit
  | OSpend _ _ => result string (option JRecord)
  | ONow => Z
  | OCancelled => bool
  | ODispatch _ => option (result CallFailure value * Annotations)
  | OEmit _ _ => option (result CallFailure unit)
  | OUuid => string
  | OPause _ => bool
  | OEvents _ => result string unit
  | OTake _ _ => result string (option value)
  | OHeld _ | ONotified _ => bool
  | OChild _ => result CallFailure (string * string)
  | OSchema _ => result string value
  | OFollow => Fault
  | OTurn => bool
  | OYield _ _ => unit
  | ORace _ o => option (drive_answer o)
  end.
(** A program also ends where the code panics, and where the model ran out of
    fuel. *)
Inductive halt := Panicked | OutOfFuel.
Inductive drive (A : Type) :=
| DRet (a : A)
| DFault (f : Fault)
| DHalt (h : halt)
| DOp (o : drive_op) (k : drive_answer o → drive A).
Arguments DRet {A} a.
Arguments DFault {A} f.
Arguments DHalt {A} h.
Arguments DOp {A} o k.

Fixpoint drive_bind_ {A B} (f : A → drive B) (p : drive A) : drive B :=
  match p with
  | DRet a => f a
  | DFault e => DFault e
  | DHalt h => DHalt h
  | DOp o k => DOp o (λ x, drive_bind_ f (k x))
  end.
#[export] Instance drive_ret : MRet drive := @DRet.
#[export] Instance drive_bind : MBind drive := λ A B f p, drive_bind_ f p.
Definition perform (o : drive_op) : drive (drive_answer o) := DOp o DRet.
(** [?] on a [Result<_, Fault>]. *)
Definition or_fault {A} (r : result Fault A) : drive A :=
  match r with Ok a => DRet a | Err f => DFault f end.
Definition access (f : Shared → Shared) : drive Shared := perform (OAccess f).
Definition shared : drive Shared := access id.

(** What the interpreter asks a host that has no effect: [Functions]. *)
Class Functions := {
  fn_events : bool;
  fn_children : bool;
  fn_resources : bool;
  fn_has : string → bool;
  fn_process : string → bool;
  fn_at_most_once : string → value → bool;
  fn_unknown_outcome : string → value → option value;
  fn_cooperative : string → bool
}.

(** ** Records *)

(** [rest.is_empty() || rest.starts_with('/')] after a prefix. *)
Definition rest_under (prefix s : string) : option string :=
  rest ← strip_prefix prefix s;
  if decide (rest = "" ∨ starts_with "/" rest = true) then Some rest else None.
(** [max_by_key]: the last of the longest. *)
Definition longest {A} (len : A → nat) (l : list A) : option A :=
  foldl (λ best x, match best with
                   | Some b => if decide (len x < len b)%nat then Some b else Some x
                   | None => Some x
                   end) None l.
(** [Run::logical]: the reference as the first attempt of every enclosing [try]
    names it; each turn shortens it. *)
Fixpoint logical_from (fuel : nat) (attempts : list (string * string * Z)) (l : string) : string :=
  match fuel with
  | O => l
  | S fuel =>
      match longest (λ x, String.length x.1.1)
              (filter (λ x, x.1.1 ≠ x.1.2 ∧ is_Some (rest_under x.1.1 l)) attempts) with
      | Some (attempt, first, _) =>
          logical_from fuel attempts (first +:+ default "" (strip_prefix attempt l))
      | None => l
      end
  end.
Definition logical_of (attempts : list (string * string * Z)) (reference : string) : string :=
  logical_from (String.length reference) attempts reference.
(** The attempt a reference runs in: the innermost registered one. *)
Definition attempt_of (attempts : list (string * string * Z)) (reference : string) : Z :=
  match longest (λ x, String.length x.1.1)
          (filter (λ x, is_Some (rest_under x.1.1 reference)) attempts) with
  | Some (_, _, n) => n
  | None => 1
  end.

(** [Run::unknown]. *)
Definition unknown (reference : string) : Fault :=
  FtFatal (Error.unknown_outcome
    (reference +:+ ": at-most-once call may have executed; automatic retry is forbidden")).
(** [Run::blocks_retry]. *)
Definition blocks_retry (records : gmap string JRecord) (reference : string) : bool :=
  existsb (λ x, starts_with (reference +:+ "/") x.1 &&
    match x.2 with
    | RCall c => bool_decide (delivery c = AtMostOnce) &&
        match call_state c with Pending | Done (Err _) => true | _ => false end
    | _ => false
    end) (entries records).
(** [Run::has_unknown]. *)
Definition has_unknown (records : gmap string JRecord) (reference : string) : bool :=
  existsb (λ x, (str_eqb x.1 (reference +:+ "#call") || starts_with (reference +:+ "/") x.1) &&
    match x.2 with
    | RCall c => bool_decide (delivery c = AtMostOnce ∧ call_state c = Pending)
    | _ => false
    end) (entries records).

(** The other records of a logical call, in key order. *)
Definition earlier_calls (records : gmap string JRecord) (logical_ key : string) : list Call :=
  omap (λ x, match x.2 with
             | RCall c => if decide (x.1 ≠ key ∧ logical c = logical_) then Some c else None
             | _ => None
             end) (entries records).
Definition done_ok (c : Call) : option value :=
  match call_state c with Done (Ok v) => Some v | _ => None end.
Fixpoint first_done (l : list Call) : option (Call * value) :=
  match l with
  | [] => None
  | c :: l => match done_ok c with Some v => Some (c, v) | None => first_done l end
  end.
(** The fault of the first at-most-once attempt that has no proof. *)
Fixpoint first_unproven (reference : string) (l : list Call) : option Fault :=
  match l with
  | [] => None
  | c :: l =>
      match delivery c, call_state c with
      | AtMostOnce, Pending => Some (unknown reference)
      | AtMostOnce, Done (Err e) => Some (FtError e)
      | _, _ => first_unproven reference l
      end
  end.
(** [Run::earlier_attempt]. *)
Definition earlier_attempt (records : gmap string JRecord) (logical_ key name : string) (args : value)
    (reference : string) : option (result Fault value) :=
  let earlier := earlier_calls records logical_ key in
  match first_done earlier with
  | Some (c, v) =>
      if decide (function c ≠ name ∨ arguments c ≠ args) then
        Some (Err (FtFatal (Error.standard "conflict" 409 "Idempotency conflict"
          (reference +:+ ": an earlier attempt already made this call with other arguments; nothing was sent"))))
      else Some (Ok v)
  | None => Err <$> first_unproven reference earlier
  end.

(** ** The journal *)

Section drive.
Variable durable : bool.
Variable secrets : Redaction.

Definition record_at (key : string) : drive (option JRecord) :=
  s ← shared; mret (sh_records s !! key).
(** [Run::note]. *)
Definition note (key : string) (r : JRecord) : drive unit :=
  match entry_of key r with
  | Some e => _ ← access (λ s, s <| sh_calls ::= <[key := e]> |>); mret ()
  | None => mret ()
  end.
(** [Run::save]. *)
Definition save (key : string) (r : JRecord) : drive unit :=
  _ ← (if durable then mret () else note key r);
  if durable then
    old ← record_at key;
    _ ← match old with
        | Some old => match check_transition old r with
                      | Ok _ => mret ()
                      | Err e => DFault (FtInterrupted (Error.runtime e))
                      end
        | None => mret ()
        end;
    saved ← perform (OSave key (redact_record secrets r));
    _ ← match saved with
        | Ok _ => mret ()
        | Err e => DFault (FtInterrupted (Error.runtime ("checkpoint " +:+ key +:+ ": " +:+ text secrets e)))
        end;
    _ ← note key r;
    _ ← access (λ s, s <| sh_records ::= <[key := r]> |>);
    mret ()
  else mret ().

(** [Run::remaining], in milliseconds; [millis] is the duration's, saturated. *)
Definition remaining (millis started_ms : Z) : drive (Z * Z) :=
  let deadline := sat_add64 started_ms millis in
  left ← (if durable then now ← perform ONow; mret (sat_sub64 deadline now) else mret millis);
  if decide (left ≤ 0) then DFault (FtError (Error.timeout "the saved deadline has passed"))
  else mret (left, deadline).

(** [Run::sleep] of a durable run: a saved timer; [millis] after the host's bound. *)
Definition sleep (millis : Z) (key : string) : drive unit :=
  saved ← record_at key;
  deadline ← match saved with
    | Some (RTimer deadline_ms) => mret deadline_ms
    | Some _ => DFault (FtInterrupted (Error.runtime "invalid timer record"))
    | None =>
        now ← perform ONow;
        let deadline_ms := sat_add64 now millis in
        _ ← save key (RTimer deadline_ms);
        mret deadline_ms
    end;
  now ← perform ONow;
  if decide (now < deadline) then DFault (FtWaiting deadline) else mret ().

(** ** The jump budget *)

(** [Run::handler]: the first registered prefix the reference is under, and how
    many tasks it entered; [enter] counts one. *)
Fixpoint enter_handler (reference : string) (handlers : list (string * Z)) : list (string * Z) :=
  match handlers with
  | [] => []
  | (prefix, n) :: l =>
      if decide (is_Some (rest_under prefix reference)) then (prefix, n + 1) :: l
      else (prefix, n) :: enter_handler reference l
  end.
Fixpoint find_handler (reference : string) (handlers : list (string * Z)) : option Z :=
  match handlers with
  | [] => None
  | (prefix, n) :: l =>
      if decide (is_Some (rest_under prefix reference)) then Some n else find_handler reference l
  end.
Definition handler (reference : string) (enter : bool) : drive (option Z) :=
  s ← access (λ s, if enter then s <| sh_handlers ::= enter_handler reference |> else s);
  mret (find_handler reference
          (if enter then enter_handler reference (sh_handlers s) else sh_handlers s)).

Definition invalid_budget : Fault := FtInterrupted (Error.runtime "invalid budget record").
(** What a budget record decides: [None] granted, [Some first] refused. *)
Definition refused (r : JRecord) : result Fault (option string) :=
  match r with
  | RBudget true _ _ => Ok None
  | RBudget false _ (Some first) => Ok (Some first)
  | _ => Err invalid_budget
  end.
(** The first refusal an earlier record of the run names. *)
Definition first_refused (records : gmap string JRecord) : option string :=
  head (omap (λ x, match x.2 with RBudget false _ first => first | _ => None end) (entries records)).
(** [Run::jump], under the lock of [spending]. *)
Definition jump (max_jumps : Z) (reference : string) : drive (option string) :=
  inside ← handler reference false;
  if decide (is_Some inside) then
    DFault (FtFatal ((Error.budget "an on_exceeded handler cannot jump") <| err_instance := Some reference |>))
  else
    let key := reference +:+ "#jump" in
    saved ← record_at key;
    match saved with
    | Some r => or_fault (refused r)
    | None =>
        spent ← (if durable then perform (OSpend key max_jumps) else mret (Ok None));
        decided ← match spent with
          | Err e => DFault (FtInterrupted (Error.runtime ("spending " +:+ key +:+ ": " +:+ text secrets e)))
          | Ok (Some record) =>
              decided ← or_fault (refused record);
              _ ← access (λ s, s <| sh_records ::= <[key := record]> |>);
              mret decided
          | Ok None =>
              s ← shared;
              let taken := bool_decide (sh_jumps s < max_jumps) in
              let first := if taken then None else Some (default key (first_refused (sh_records s))) in
              _ ← save key (RBudget taken (sh_jumps s + z_of_bool taken) first);
              mret first
          end;
        _ ← (if decide (decided = None) then access (λ s, s <| sh_jumps ::= Z.add 1 |>) else shared);
        mret decided
    end.
End drive.
