(* ===== verification/Calls.v ===== *)
(** * Calls

    [crates/ows/src/run.rs], section 4: a call of a host's function or process,
    [Run::call] after it has found that the name is no reusable function of the
    document. In a durable run the intent is saved before the call is made and the
    answer after it; an at-most-once call whose intent was left without an answer is
    never made again. *)
From S2P Require Import Prelude Json Outcome Journal Secrets Drive.

Section calls.
Context `{Host, Functions}.
Variable durable : bool.
Variable secrets : Redaction.

(** [annotated]: an answer with the annotations it carried, within their bounds. *)
Definition annotated (name : string) (r : result CallFailure value) (a : Annotations)
    : result CallFailure value * Annotations :=
  match r with
  | Ok _ | Err (FResponse _) =>
      match check_annotations a with
      | Ok _ => (r, a)
      | Err e => (Err (FResponse (Error.validation (name +:+ " annotations: " +:+ e))), ∅)
      end
  | _ => (r, ∅)
  end.

(** [Run::unknown_call]. *)
Definition unknown_call (key logical_ name : string) (args : value) (reference : string) : drive value :=
  match fn_unknown_outcome name args with
  | None => DFault (unknown reference)
  | Some marker =>
      held ← record_at key;
      match held with
      | Some (RCall _) =>
          _ ← save durable secrets key
                (RCall (mkCall logical_ name args AtMostOnce (Done (Ok marker)) ∅));
          mret marker
      | _ => DFault (FtInterrupted (Error.runtime "missing call record"))
      end
  end.

(** The call's name: [Process::function] for a process. *)
Definition target_name (t : Target) : string :=
  match t with TFunction name => name | TProcess kind => "run:" +:+ kind end.
Definition known_target (t : Target) : bool :=
  match t with TFunction name => fn_has name | TProcess kind => fn_process kind end.

(** What a saved record of the call says: an answer to restore ([Some]), or that it
    has to be made ([None]). *)
Definition restore_call (prior : option JRecord) (key logical_ name : string) (args : value)
    (delivery_ : Delivery) (reference : string) : drive (option value) :=
  match prior with
  | None => mret None
  | Some (RCall c) =>
      if decide (logical c ≠ logical_ ∨ function c ≠ name ∨ arguments c ≠ args ∨ delivery c ≠ delivery_) then
        DFault (FtFatal (Error.runtime (reference +:+ ": call bindings changed")))
      else
        match call_state c with
        | Done (Ok v) => mret (Some v)
        | Done (Err e) => DFault (FtError e)
        | Pending =>
            if decide (delivery_ = AtMostOnce) then
              v ← unknown_call key logical_ name args reference; mret (Some v)
            else mret None
        | NotExecuted e => DFault (FtError e)
        end
  | Some _ => DFault (FtInterrupted (Error.runtime "invalid call record"))
  end.

(** The answer of a dispatched call in a durable run: saved, then given. *)
Definition answered_call (key logical_ name : string) (args : value) (delivery_ : Delivery)
    (reference : string) (r : result CallFailure value) (a : Annotations) : drive value :=
  let keep state := save durable secrets key (RCall (mkCall logical_ name args delivery_ state a)) in
  match r with
  | Ok v => _ ← keep (Done (Ok v)); mret v
  | Err (FResponse e) => _ ← keep (Done (Err e)); DFault (FtError e)
  | Err (FNotExecuted e) => _ ← keep (NotExecuted e); DFault (FtError e)
  | Err (FUnknown e) =>
      if decide (delivery_ = AtMostOnce) then unknown_call key logical_ name args reference
      else DFault (FtError e)
  | Err (FInterrupted e) =>
      cancelled ← perform OCancelled;
      if (cancelled : bool) then DFault FtCancelled
      else if decide (delivery_ = AtMostOnce) then unknown_call key logical_ name args reference
      else DFault (FtInterrupted e)
  end.
(** The answer in a run without a journal: only the call journal learns it. *)
Definition ephemeral_answer (key logical_ name : string) (delivery_ : Delivery) (reference : string)
    (r : result CallFailure value) (a : Annotations) : drive value :=
  cancelled ← perform OCancelled;
  if (cancelled : bool) then DFault FtCancelled
  else
    let noted state := note key (RCall (mkCall logical_ name VNull delivery_ state a)) in
    _ ← match r with
        | Ok v => noted (Done (Ok v))
        | Err (FResponse e) => noted (Done (Err e))
        | Err (FNotExecuted e) => noted (NotExecuted e)
        | Err (FUnknown _) | Err (FInterrupted _) => mret ()
        end;
    match r with
    | Ok v => mret v
    | Err (FInterrupted e) => DFault (FtInterrupted e)
    | Err (FUnknown e) => if decide (delivery_ = AtMostOnce) then DFault (unknown reference) else DFault (FtError e)
    | Err (FResponse e) | Err (FNotExecuted e) => DFault (FtError e)
    end.

(** The intent saved, the call made, its answer saved. *)
Definition make_call (t : Target) (key logical_ : string) (args : value) (delivery_ : Delivery)
    (reference : string) : drive value :=
  let name := target_name t in
  _ ← save durable secrets key (RCall (mkCall logical_ name args delivery_ Pending ∅));
  _ ← (if decide (delivery_ = AtMostOnce) then access (λ s, s <| sh_protected ::= Z.add 1 |>) else shared);
  s ← shared;
  let cooperative := fn_cooperative name in
  answer ← perform (ODispatch (mkDispatched t name args reference logical_
                      (attempt_of (sh_attempts s) reference) delivery_ cooperative));
  match answer with
  | None => DFault FtCancelled
  | Some (r, a) =>
      let '(r, a) := annotated name r a in
      if durable then answered_call key logical_ name args delivery_ reference r a
      else ephemeral_answer key logical_ name delivery_ reference r a
  end.
(** [Run::call] of what is not a reusable function. *)
Definition external_call (t : Target) (args : value) (reference : string) (declared : Delivery) : drive value :=
  let name := target_name t in
  let delivery_ := if fn_at_most_once name args then AtMostOnce else declared in
  let key := reference +:+ "#call" in
  s ← shared;
  let logical_ := logical_of (sh_attempts s) reference in
  prior ← record_at key;
  restored ← restore_call prior key logical_ name args delivery_ reference;
  match restored with
  | Some v => mret v
  | None =>
      if known_target t then
        s ← shared;
        match (if decide (prior = None ∧ logical_ ≠ reference ∧ delivery_ = AtMostOnce)
               then earlier_attempt (sh_records s) logical_ key name args reference else None) with
        | Some r => or_fault r
        | None => make_call t key logical_ args delivery_ reference
        end
      else DFault (FtFatal (Error.runtime ("unknown function `" +:+ name +:+ "`")))
  end.
End calls.
