(* ===== verification/Branches.v ===== *)
(** * Parts of a drive that run together

    [crates/ows/src/run.rs]: what the interpreter does with a future instead of
    awaiting it: look at its result ([reify]), give it a copy of the workflow
    context ([in_context]), drop it when a timer fires ([with_timer]), poll several at
    once and take their results as they come ([pool]). *)
From S2P Require Import Prelude Json Outcome Journal Drive.

(** A program's result, faults included. *)
Fixpoint reify {A} (p : drive A) : drive (result Fault A) :=
  match p with
  | DRet a => DRet (Ok a)
  | DFault f => DRet (Err f)
  | DHalt h => DHalt h
  | DOp o k => DOp o (λ x, reify (k x))
  end.
(** A program on its own context: its result, and the context it left. *)
Fixpoint in_context {A} (c : value) (p : drive A) : drive (result Fault A * value) :=
  match p with
  | DRet a => DRet (Ok a, c)
  | DFault f => DRet (Err f, c)
  | DHalt h => DHalt h
  | DOp o k =>
      match o return (drive_answer o → drive A) → (drive_answer o → value → drive (result Fault A * value)) →
                     drive (result Fault A * value) with
      | OContext f => λ _ go, go c (f c)
      | o => λ _ go, DOp o (λ x, go x c)
      end k (λ x c, in_context c (k x))
  end.
(** Whether an operation waits for something outside the process: a future is
    dropped only there. *)
Fixpoint awaits (o : drive_op) : bool :=
  match o with
  | OSave _ _ | OSpend _ _ | ODispatch _ | OEmit _ _ | OPause _ | OEvents _ | OTake _ _ | ONotified _
  | OChild _ | OFollow => true
  | ORace _ o => awaits o
  | OAccess _ | OContext _ | ONow | OCancelled | OUuid | OHeld _ | OSchema _ | OTurn | OYield _ _ => false
  end.
(** [tokio::time::timeout]: the program is polled first; [None] once the timer fired
    at a place where it waited. *)
Fixpoint with_timer {A} (left : Z) (p : drive A) : drive (option A) :=
  match p with
  | DRet a => DRet (Some a)
  | DFault f => DFault f
  | DHalt h => DHalt h
  | DOp o k =>
      if awaits o then
        DOp (ORace left o) (λ x, match x with Some x => with_timer left (k x) | None => DRet None end)
      else DOp o (λ x, with_timer left (k x))
  end.

(** ** Several at once *)

(** Two parts that take turns. *)
Fixpoint both (p : drive unit) : drive unit → drive unit :=
  fix inner (q : drive unit) : drive unit :=
    match p, q with
    | DHalt h, _ | _, DHalt h => DHalt h
    | DFault f, _ | _, DFault f => DFault f
    | DRet _, q => q
    | p, DRet _ => p
    | DOp o k, DOp o' k' =>
        DOp OTurn (λ left : bool, if left then DOp o (λ x, both (k x) q) else DOp o' (λ x, inner (k' x)))
    end.
Abbreviation branch_result := (result Fault (value * option Flow)).
(** A branch: it yields its result and ends. *)
Definition branch (i : nat) (p : drive (value * option Flow)) : drive unit :=
  r ← reify p; perform (OYield i r).
(** [running] parts go on together; as one ends, the next of [queue] starts. Results
    are kept in the order they come, until [stop] takes one and the rest is dropped. *)
Fixpoint pool_of (stop : branch_result → bool) (queue : list (drive unit))
    : list (nat * branch_result) → drive unit → drive (branch_result + list (nat * branch_result)) :=
  fix go log running :=
    match running with
    | DRet _ => DRet (inr log)
    | DFault f => DFault f
    | DHalt h => DHalt h
    | DOp o k =>
        match o return (drive_answer o → drive unit) →
            (drive_answer o → list (nat * branch_result) → drive (branch_result + list (nat * branch_result))) →
            drive (branch_result + list (nat * branch_result)) with
        | OYield i r => λ k go,
            if stop r then DRet (inl r)
            else match queue with
                 | [] => go tt (log ++ [(i, r)])
                 | p :: queue => pool_of stop queue (log ++ [(i, r)]) (both (k tt) p)
                 end
        | o => λ _ go, DOp o (λ x, go x log)
        end k (λ x log, go log (k x))
    end.
(** At most [limit] of the branches at once. *)
Definition pool (stop : branch_result → bool) (limit : nat) (branches : list (drive (value * option Flow)))
    : drive (branch_result + list (nat * branch_result)) :=
  let parts := imap branch branches in
  pool_of stop (drop limit parts) [] (foldr both (DRet ()) (take limit parts)).
