(* ===== verification/Model.v ===== *)
(** * Workflow documents

    [crates/ows/src/model.rs], section 1: what a parsed document holds, as far as
    the interpreter reads it, and the few functions of the file the interpreter
    calls: [parse_iso_duration], [function_name], [secret_names]. A document's lists
    keep their order and an object its keys. *)
From Stdlib Require Import Ascii SpecFloat.
From S2P Require Import Prelude Json Outcome Journal Expr Listen.

(** A [Duration], in nanoseconds; [Duration::MAX] bounds it. *)
Definition duration_max : Z := (u64_max + 1) * 1000000000 - 1.
Definition millis (n : Z) : Z := n * 1000000.
(** [as_millis]. *)
Definition as_millis (nanos : Z) : Z := nanos / 1000000.
(** [saturating_mul]. *)
Definition saturating_mul (d n : Z) : Z := Z.min (d * n) duration_max.
(** [+], which panics on an overflow. *)
Definition duration_add (a b : Z) : option Z := if decide (a + b ≤ duration_max) then Some (a + b) else None.

Inductive Schema := Document (v : value) | Resource (uri : string).
Record Input := mkInput { in_schema : option Schema; in_from : option value }.
Record Output := mkOutput { out_schema : option Schema; out_as : option value }.
Abbreviation Export := Output.
Inductive DurationSpec := Fixed (nanos : Z) | DExpr (code : string).
Record Case := mkCase { case_when : option string; case_then : Flow }.
Inductive Backoff := Constant | Linear | Exponential.
Record Retry := mkRetry {
  rt_when : option string;
  rt_except_when : option string;
  rt_delay : option DurationSpec;
  rt_backoff : Backoff;
  rt_attempts : option Z;
  rt_attempt_duration : option DurationSpec;
  rt_duration : option DurationSpec;
  rt_jitter : option (DurationSpec * DurationSpec)
}.
Record ErrorDef := mkErrorDef {
  ed_type : string;
  ed_status : Z;
  ed_title : option string;
  ed_detail : option string;
  ed_instance : option string
}.
Inductive Raise := RaiseInline (d : ErrorDef) | RaiseNamed (name : string).
Inductive Items := ItExpr (code : string) | ItInline (l : list value).
Inductive Process :=
| PWorkflow (namespace name version : string) (input : option value)
| PExternal (kind : string) (definition : value).
Inductive Return := Stdout | Stderr | Code | AllOf | NoReturn.
Record RunTask := mkRunTask {
  run_process_of : Process;
  run_inherit_host : bool;
  run_await : bool;
  run_return : Return
}.
Inductive Exceeded (T : Type) := XRaise | XEnd | XTask (t : T).
Arguments XRaise {T}.
Arguments XEnd {T}.
Arguments XTask {T} t.

(** The parts of a document that hold tasks, over the type of a task. *)
Record CatchOf (T : Type) := mkCatch {
  catch_errors : option (gmap string value);
  catch_as : string;
  catch_when : option string;
  catch_except_when : option string;
  catch_retry : option Retry;
  catch_tasks : option (list (string * T));
  catch_then : option Flow
}.
Record ForeachOf (T : Type) := mkForeach {
  fe_item : string;
  fe_at : string;
  fe_tasks : list (string * T);
  fe_output : option Output;
  fe_export : option Export
}.
Record ListenOf (T : Type) := mkListen {
  li_to : Strategy;
  li_read : Read;
  li_foreach : option (ForeachOf T)
}.
Inductive KindOf (T : Type) :=
| KCall (function : string) (with_ : option value)
| KDo (tasks : list (string * T))
| KFor (each at_ : string) (items : Items) (condition : option string) (concurrency : option nat)
    (tasks : list (string * T))
| KFork (branches : list (string * T)) (compete : bool)
| KSet (v : value)
| KSwitch (cases : list (string * Case))
| KTry (tasks : list (string * T)) (catch : CatchOf T)
| KRaise (r : Raise)
| KWait (spec : DurationSpec)
| KListen (l : ListenOf T)
| KEmit (with_ : gmap string value)
| KRun (r : RunTask).
#[warnings="-register-all"]
Inductive Task := mkTask {
  tk_delivery : Delivery;
  tk_hold : Z;
  tk_when : option string;
  tk_input : option Input;
  tk_output : option Output;
  tk_export : option Export;
  tk_timeout : option DurationSpec;
  tk_then : option Flow;
  tk_kind : KindOf Task;
  tk_definition : value
}.
Abbreviation TaskList := (list (string * Task)).
Abbreviation Kind := (KindOf Task).
Abbreviation Catch := (CatchOf Task).
Abbreviation Foreach := (ForeachOf Task).
Abbreviation Listening := (ListenOf Task).
Arguments catch_errors {T}. Arguments catch_as {T}. Arguments catch_when {T}. Arguments catch_except_when {T}.
Arguments catch_retry {T}. Arguments catch_tasks {T}. Arguments catch_then {T}.
Arguments fe_item {T}. Arguments fe_at {T}. Arguments fe_tasks {T}. Arguments fe_output {T}. Arguments fe_export {T}.
Arguments li_to {T}. Arguments li_read {T}. Arguments li_foreach {T}.
Arguments KCall {T}. Arguments KDo {T}. Arguments KFor {T}. Arguments KFork {T}. Arguments KSet {T}.
Arguments KSwitch {T}. Arguments KTry {T}. Arguments KRaise {T}. Arguments KWait {T}. Arguments KListen {T}.
Arguments KEmit {T}. Arguments KRun {T}.

(** [Kind::name]. *)
Definition kind_name (k : Kind) : string :=
  match k with
  | KCall _ _ => "call" | KDo _ => "do" | KFor _ _ _ _ _ _ => "for" | KFork _ _ => "fork" | KSet _ => "set"
  | KSwitch _ => "switch" | KTry _ _ => "try" | KRaise _ => "raise" | KWait _ => "wait" | KListen _ => "listen"
  | KEmit _ => "emit" | KRun _ => "run"
  end.
Record Extension := mkExtension {
  ex_extend : string;
  ex_when : option string;
  ex_before : option TaskList;
  ex_after : option TaskList
}.
(** [Extension::extends]. *)
Definition extends (e : Extension) (k : Kind) : bool :=
  if decide (ex_extend e = "all") then true
  else if decide (ex_extend e = "composite") then match k with KDo _ | KFork _ _ => true | _ => false end
  else bool_decide (ex_extend e = kind_name k).
Record Uses := mkUses {
  us_functions : list (string * Task);
  us_errors : list (string * ErrorDef);
  us_extensions : list (string * Extension);
  us_secrets : list string
}.
Record Budget := mkBudget { bu_max_jumps : option Z; bu_on_exceeded : Exceeded Task }.
(** [Budget::max_jumps]. *)
Definition max_jumps (b : Budget) (ceiling : Z) : Z :=
  match bu_max_jumps b with Some n => Z.min n ceiling | None => ceiling end.
Record Workflow := mkWorkflow {
  wf_namespace : string;
  wf_name : string;
  wf_version : string;
  wf_input : option Input;
  wf_output : option Output;
  wf_uses : Uses;
  wf_tasks : TaskList;
  wf_timeout : option DurationSpec;
  wf_budget : Budget;
  wf_definition : value
}.

(** ** Durations in text *)

Definition is_digit (c : Ascii.ascii) : bool :=
  let n := Ascii.nat_of_ascii c in (48 <=? n)%nat && (n <=? 57)%nat.
(** [split_once] at a character. *)
Fixpoint split_once (c : Ascii.ascii) (s : string) : option (string * string) :=
  match s with
  | EmptyString => None
  | String d s =>
      if decide (c = d) then Some ("", s)
      else match split_once c s with Some (a, b) => Some (String d a, b) | None => None end
  end.
(** The value of a text of digits, with [acc] read before it. *)
Fixpoint digits_from (acc : Z) (s : string) : option Z :=
  match s with
  | EmptyString => Some acc
  | String c s =>
      if is_digit c then digits_from (acc * 10 + (Z.of_nat (Ascii.nat_of_ascii c) - 48)) s else None
  end.
(** [str::parse::<f64>] on digits and points: the double nearest to the decimal. *)
Definition parse_f64 (s : string) : option spec_float :=
  let '(whole, frac) := default (s, "") (split_once "."%char s) in
  if decide (whole +:+ frac = "") then None
  else
    n ← digits_from 0 (whole +:+ frac);
    Some (match n with
          | Zpos m =>
              SFdiv Num.prec Num.emax (S754_finite false m 0)
                (S754_finite false (Z.to_pos (10 ^ Z.of_nat (String.length frac))) 0)
          | _ => S754_zero false
          end).
(** [f64::round() as u64]. *)
Definition round_u64 (f : spec_float) : Z :=
  match f with
  | S754_finite false m e =>
      Z.min u64_max (if decide (0 ≤ e) then Zpos m * 2 ^ e else (2 * Zpos m + 2 ^ (- e)) / 2 ^ (1 - e))
  | S754_infinity false => u64_max
  | _ => 0
  end.
(** [take]: numbers with a unit each, in the order of the units; [units] is what is
    left of them. *)
Fixpoint take_units (units : list (Ascii.ascii * Z)) (num : string) (ms : spec_float) (part : string)
    : option spec_float :=
  match part with
  | EmptyString => if decide (num = "") then Some ms else None
  | String c part =>
      if is_digit c || bool_decide (c = "."%char) then take_units units (num +:+ String c "") ms part
      else
        pos ← position (λ u, bool_decide (fst u = c)) units;
        unit_ ← units !! pos;
        n ← parse_f64 num;
        take_units (drop (S pos) units) ""
          (Num.f64_add ms (SFmul Num.prec Num.emax n (Num.f64_of_z (snd unit_)))) part
  end.
(** [parse_iso_duration], in nanoseconds. *)
Definition parse_iso_duration (s : string) : option Z :=
  rest ← strip_prefix "P" (trim s);
  if decide (rest = "") then None
  else
    '(date, time) ← match split_once "T"%char rest with
                    | Some (d, t) => if decide (t = "") then None else Some (d, Some t)
                    | None => Some (rest, None)
                    end;
    ms ← take_units [("D"%char, 86400000)] "" (S754_zero false) date;
    ms ← match time with
         | Some t => take_units [("H"%char, 3600000); ("M"%char, 60000); ("S"%char, 1000)] "" ms t
         | None => Some ms
         end;
    Some (millis (round_u64 ms)).

(** ** Names *)

(** [function_name]: the default catalog's suffix removed. *)
Definition function_name (call : string) : string :=
  match strip_suffix "@default" call with
  | Some rest => match split_once ":"%char rest with Some (n, _) => n | None => rest end
  | None => call
  end.

Definition is_word (c : Ascii.ascii) : bool :=
  let n := Ascii.nat_of_ascii c in
  is_digit c || ((65 <=? n)%nat && (n <=? 90)%nat) || ((97 <=? n)%nat && (n <=? 122)%nat) ||
  bool_decide (c = "_"%char).
Fixpoint take_word (s : string) : string :=
  match s with
  | String c s => if is_word c then String c (take_word s) else ""
  | EmptyString => ""
  end.
(** What follows the first occurrence of [p]. *)
Fixpoint after_str (p s : string) : option string :=
  match strip_prefix p s with
  | Some rest => Some rest
  | None => match s with EmptyString => None | String _ s => after_str p s end
  end.
(** [secret_names]; each turn shortens the text. *)
Fixpoint secret_names_from (fuel : nat) (rest : string) (names : list string) : option (list string) :=
  match fuel with
  | O => Some names
  | S fuel =>
      match after_str "$secrets" rest with
      | None => Some names
      | Some after =>
          if match after with String c _ => is_word c | EmptyString => false end
          then secret_names_from fuel after names
          else
            let name :=
              match strip_prefix "." after with
              | Some n => take_word n
              | None =>
                  match strip_prefix ("[" +:+ bytes [34]) after with
                  | Some n => match split_once (Ascii.ascii_of_nat 34) n with Some (a, _) => a | None => n end
                  | None => ""
                  end
              end in
            if decide (name = "") then None else secret_names_from fuel after (names ++ [name])
      end
  end.
Definition secret_names (code : string) : option (list string) :=
  secret_names_from (S (String.length code)) code [].

Example duration_days : parse_iso_duration "P1DT2H3M4.5S" = Some (millis 93784500).
Proof. vm_compute. reflexivity. Qed.
Example duration_bare : parse_iso_duration "PT" = None ∧ parse_iso_duration "PT1S1M" = None ∧
  parse_iso_duration " PT.25S " = Some (millis 250).
Proof. vm_compute. auto. Qed.
Example names_read : secret_names ("$secrets.db.user + $secretsX + $secrets.k") = Some ["db"; "k"] ∧
  secret_names "$secrets | keys" = None ∧ function_name "a:1.0.0@default" = "a".
Proof. vm_compute. auto. Qed.
