(* ===== verification/Tasks.v ===== *)
(** * What a task evaluates

    [crates/ows/src/run.rs]: the arguments of expressions, transforms and schemas,
    durations, guards and the retry policy, raised errors. Everything here runs in
    one drive; only clocks, the jump count and external schemas are asked for. *)
From S2P Require Import Prelude Json Outcome Journal Expr Listen Secrets Drive Model.

(** Host-side ceilings: [Limits]; sleeps are durations. *)
Record Limits := mkLimits {
  lm_max_tasks : Z;
  lm_max_jumps : Z;
  lm_max_attempts : Z;
  lm_max_sleep : option Z;
  lm_max_listen : option Z;
  lm_max_hold : option Z
}.
(** The fields of [Run] that never change. *)
Record Setup := mkSetup {
  su_wf : Workflow;
  su_run_id : string;
  su_durable : bool;
  su_secrets : Redaction;
  su_limits : Limits;
  su_max_jumps : Z;
  su_workflow : value;
  su_runtime : value;
  su_schedule : option value
}.
(** The crates the interpreter hands values to: jsonschema ([iter_errors], each
    error with its path), and serde's derived layout of a wait. *)
Class Formats := {
  schema_errors : value → value → result string (list string);
  wait_value : PendingWait → result string value;
  value_wait : value → result string PendingWait;
  error_value : value → option WorkflowError
}.
Definition Scope : Type := list (string * value).

Definition RUN : string := "run".
Definition SECRETS : string := "secrets".
(** [expression]. *)
Definition expression {A} (r : result string A) : result Fault A :=
  match r with Ok a => Ok a | Err e => Err (FtError (Error.expression e)) end.
(** [expect], and arithmetic that panics. *)
Definition or_panic {A} (o : option A) : drive A :=
  match o with Some a => DRet a | None => DHalt Panicked end.
(** An optional program. *)
Definition when_some {A B} (o : option A) (f : A → drive B) (none : B) : drive B :=
  match o with Some a => f a | None => mret none end.

(** The digits of [n] in [width] places, without the zeros that end it. *)
Fixpoint fraction (width : nat) (n : Z) : string :=
  match width with
  | O => ""
  | S width =>
      if decide (n = 0) then ""
      else pretty (n / 10 ^ Z.of_nat width) +:+ fraction width (n mod 10 ^ Z.of_nat width)
  end.
Definition decimal (whole : Z) (width : nat) (frac : Z) : string :=
  pretty whole +:+ (if decide (frac = 0) then "" else "." +:+ fraction width frac).
(** [{:?}] of a [Duration]. *)
Definition show_duration (d : Z) : string :=
  if decide (0 < d / 1000000000) then decimal (d / 1000000000) 9 (d mod 1000000000) +:+ "s"
  else if decide (1000000 ≤ d) then decimal (d / 1000000) 6 (d mod 1000000) +:+ "ms"
  else if decide (1000 ≤ d) then decimal (d / 1000) 3 (d mod 1000) +:+ bytes [194; 181] +:+ "s"
  else pretty d +:+ "ns".

Section with_host.
Context `{Host, Functions, Formats}.

(** [datetime]; [None] where the timestamp has no date. *)
Definition datetime (ms : Z) : option value :=
  iso ← rfc3339 ms;
  Some (VObj (<["iso8601" := VStr iso]>
    {["epoch" := VObj (<["seconds" := vint (ms / 1000)]> {["milliseconds" := vint ms]})]})).

(** ** Schemas *)

(** The free function [conform]. *)
Definition conform_document (schema v : value) (what : string) : result Fault unit :=
  match schema_errors schema v with
  | Err e => Err (FtError (Error.validation (what +:+ " schema: " +:+ e)))
  | Ok errors =>
      match take 3 errors with
      | [] => Ok ()
      | errors => Err (FtError (Error.validation (what +:+ " does not match its schema: " +:+ String.concat "; " errors)))
      end
  end.
(** [Run::conform]. *)
Definition conform (schema : Schema) (v : value) (what : string) : drive unit :=
  match schema with
  | Document d => or_fault (conform_document d v what)
  | Resource uri =>
      if fn_resources then
        found ← perform (OSchema uri);
        match (found : result string value) with
        | Ok document => or_fault (conform_document document v what)
        | Err e => DFault (FtInterrupted (Error.runtime ("schema `" +:+ uri +:+ "`: " +:+ e)))
        end
      else DFault (FtError (Error.validation ("no resource resolver for `" +:+ uri +:+ "`")))
  end.
Definition conform_opt (schema : option Schema) (v : value) (what : string) : drive unit :=
  when_some schema (λ s, conform s v what) ().

(** ** Arguments *)

Variable su : Setup.

(** [Run::run_argument], [jumps] being the jumps taken so far. *)
Definition run_value (jumps : Z) (visits : value) : value :=
  let run := <["jumps" := vint jumps]> (<["maxJumps" := vint (su_max_jumps su)]> {["visits" := visits]}) in
  VObj (match su_schedule su with Some s => <["schedule" := s]> run | None => run end).
Definition run_argument (visits : value) : drive value :=
  s ← shared; mret (run_value (sh_jumps s) visits).
Definition args_of (run ctx input output task : value) (scope : Scope) : Args :=
  foldl (λ a x, args_set a x.1 x.2) no_args
    ([("context", ctx); ("input", input); ("output", output); ("task", task);
      ("workflow", su_workflow su); ("runtime", su_runtime su); (RUN, run)] ++ scope).
(** [Run::args]. *)
Definition args (ctx input output task : value) (scope : Scope) : drive Args :=
  run ← run_argument (VObj ∅); mret (args_of run ctx input output task scope).
(** [Run::input_args]: the arguments with [$secrets]. *)
Definition input_args (a : Args) (t : value) : result Fault Args :=
  let codes := match t with VStr code => [code] | template => template_exprs template end in
  if existsb (contains_str "$secrets") codes then
    match argument (su_secrets su) (@concat string <$> mapM secret_names codes) with
    | Ok v => Ok (args_set a SECRETS v)
    | Err e => Err (FtError e)
    end
  else Ok (args_set a SECRETS VNull).
(** [Run::transform]: an expression or a template. *)
Definition transform (t on : value) (a : Args) : result Fault value :=
  expression (match t with VStr code => eval code on a | template => render template on a end).
(** A condition, as jq reads it. *)
Definition holds (code : string) (on : value) (a : Args) : result Fault bool :=
  expression (v ← eval code on a; Ok (truthy v)).

(** ** Durations, guards, retries *)

(** [Run::duration]. *)
Definition duration (spec : DurationSpec) (input : value) (a : Args) : result Fault Z :=
  match spec with
  | Fixed d => Ok d
  | DExpr code =>
      v ← expression (eval code input a);
      match v with
      | VStr s =>
          expression (ok_or (parse_iso_duration s) ("`" +:+ s +:+ "` is not an ISO 8601 duration (e.g. PT30S)"))
      | other => expression (Err ("a duration expression must produce an ISO 8601 string, got " +:+ value_to_string other))
      end
  end.
(** [guards]. *)
Definition guards (when except_when : option string) (input : value) (a : Args) : result Fault bool :=
  w ← match when with Some c => holds c input a | None => Ok true end;
  if (w : bool) then
    x ← match except_when with Some c => holds c input a | None => Ok false end;
    Ok (negb x)
  else Ok false.
(** [names_unknown]. *)
Definition names_unknown (c : Catch) : bool :=
  bool_decide ((catch_errors c ≫= λ f, f !! "type") ≫= as_str = Some CALL_UNKNOWN).
(** [Run::catches]. *)
Definition catches (c : Catch) (e : WorkflowError) (input : value) (a : Args) : result Fault bool :=
  let filter := default ∅ (catch_errors c) in
  if forallb (λ x, match as_str x.2 with
                   | Some t => if decide (x.1 = "type") then Error.has_type e t
                               else bool_decide (vget x.1 (Error.to_value e) = Some x.2)
                   | None => bool_decide (vget x.1 (Error.to_value e) = Some x.2)
                   end) (entries filter)
  then guards (catch_when c) (catch_except_when c) input a
  else Ok false.
(** [2u32.saturating_pow(_)] and the like. *)
Definition backoff_factor (b : Backoff) (attempt : Z) : Z :=
  match b with Constant => 1 | Linear => attempt | Exponential => Z.min u32_max (2 ^ (attempt - 1)) end.
Definition duration_opt (spec : option DurationSpec) (input : value) (a : Args) : result Fault Z :=
  match spec with Some d => duration d input a | None => Ok 0 end.
(** How many attempts the policy and the host allow. *)
Definition attempts_allowed (r : Retry) : Z :=
  let ceiling := lm_max_attempts (su_limits su) in Z.min (default ceiling (rt_attempts r)) ceiling.
(** [Run::retry_delay]. *)
Definition retry_delay (r : Retry) (attempt began : Z) (input : value) (a : Args) : drive (option Z) :=
  go ← or_fault (guards (rt_when r) (rt_except_when r) input a);
  if negb go || bool_decide (attempts_allowed r ≤ attempt) then mret None
  else
    base ← or_fault (duration_opt (rt_delay r) input a);
    let delay := saturating_mul base (backoff_factor (rt_backoff r) attempt) in
    delay ← when_some (rt_jitter r) (λ x,
      from ← or_fault (duration x.1 input a);
      to ← or_fault (duration x.2 input a);
      sum ← or_panic (duration_add from to);
      or_panic (duration_add delay (sum / 2))) delay;
    late ← when_some (rt_duration r) (λ limit,
      now ← perform ONow;
      total ← or_panic (duration_add (millis (Z.max 0 (sat_sub64 now began))) delay);
      limit ← or_fault (duration limit input a);
      mret (bool_decide (limit < total))) false;
    mret (if (late : bool) then None else Some delay).

(** ** Raised errors *)

Definition text_of (t : option string) (input : value) (a : Args) : result Fault (option string) :=
  match t with
  | None => Ok None
  | Some s =>
      match strip s with
      | None => Ok (Some s)
      | Some code =>
          v ← expression (eval code input a);
          Ok (match v with VNull => None | VStr s => Some s | other => Some (value_to_string other) end)
      end
  end.
(** The first entry of a name. *)
Definition named {A} (name : string) (l : list (string * A)) : option A :=
  snd ∘ snd <$> list_find (λ x : string * A, x.1 = name) l.
(** [Run::raise]. *)
Definition raise (r : Raise) (reference : string) (input : value) (a : Args) : result Fault WorkflowError :=
  def ← match r with
        | RaiseInline d => Ok d
        | RaiseNamed name =>
            ok_or (named name (us_errors (wf_uses (su_wf su))))
              (FtFatal (Error.runtime ("no error `" +:+ name +:+ "` under use.errors")))
        end;
  title ← text_of (ed_title def) input a;
  detail ← text_of (ed_detail def) input a;
  Ok (mkError (ed_type def) (ed_status def) title detail (Some (default reference (ed_instance def)))).
End with_host.
