(* ===== verification/Waits.v ===== *)
(** * Tasks that wait, emit and start runs

    [crates/ows/src/run.rs], sections 5 and 6: [sleep], [emit], [next_event] and the
    child workflows of [run_process], none of which runs another task of its
    document. *)
From S2P Require Import Prelude Json Outcome Journal Expr Listen Secrets Drive Model Tasks.

(** Where a run waits forever for a delivery (the end of 9999, in ms). *)
Definition NO_DEADLINE : Z := 253402300799000.
Definition EMIT : string := "emit".

Section with_host.
Context `{Host, Functions, Formats}.
Variable su : Setup.
Local Abbreviation durable := (su_durable su).
Local Abbreviation secrets := (su_secrets su).

(** [i64::try_from(_.as_millis()).unwrap_or(i64::MAX)]. *)
Definition millis_i64 (nanos : Z) : Z := Z.min (as_millis nanos) i64_max.
(** The host's storage failed. *)
Definition storage {A} (r : result string A) : drive A :=
  match r with Ok a => DRet a | Err e => DFault (FtInterrupted (Error.runtime e)) end.
Definition tell (e : events_op) : drive unit :=
  r ← perform (OEvents e); storage (r : result string unit).

(** [Run::sleep]. *)
Definition sleep_for (d : Z) (key : string) : drive unit :=
  let d := match lm_max_sleep (su_limits su) with Some m => Z.min d m | None => d end in
  if durable then sleep durable secrets (millis_i64 d) key
  else
    cancelled ← perform (OPause d);
    if (cancelled : bool) then DFault FtCancelled else mret ().

(** ** Emitting *)

(** The event an earlier attempt emitted. *)
Definition emitted_before (records : gmap string JRecord) (logical_ : string) : option value :=
  head (omap (λ r, match r with
                   | RCall c => if decide (logical c = logical_ ∧ function c = EMIT) then done_ok c else None
                   | _ => None
                   end) (values records)).
(** What a saved record of the emit says: its envelope, or how it ended. *)
Definition emit_saved (prior : JRecord) : result Fault (result value value) :=
  match prior with
  | RCall c =>
      if decide (function c = EMIT) then
        match call_state c with
        | Done (Ok v) => Ok (Ok v)
        | Done (Err e) | NotExecuted e => Err (FtError e)
        | Pending => Ok (Err (arguments c))
        end
      else Err (FtInterrupted (Error.runtime "invalid emit record"))
  | _ => Err (FtInterrupted (Error.runtime "invalid emit record"))
  end.
(** A fresh envelope: the rendered attributes over the runtime's. *)
Definition fresh_envelope (with_ : gmap string value) (input : value) (a : Args) : drive value :=
  rendered ← or_fault (expression (render (VObj with_) input a));
  id ← perform OUuid;
  now ← perform ONow;
  time ← or_panic (rfc3339 now);
  let wf := su_wf su in
  match rendered with
  | VObj m =>
      or_fault (expression (emit_envelope (entries m)
        (mkDefaults id ("/" +:+ wf_namespace wf +:+ "/" +:+ wf_name wf +:+ "/" +:+ wf_version wf) time)))
  | _ => DFault (FtError (Error.expression "the emitted event's attributes must be an object"))
  end.
(** The envelope handed over, under its record. *)
Definition hand_over (key logical_ reference : string) (envelope : value) : drive value :=
  let keep state := save durable secrets key (RCall (mkCall logical_ EMIT envelope AtLeastOnce state ∅)) in
  _ ← keep Pending;
  answer ← perform (OEmit envelope (mkDispatched (TFunction EMIT) EMIT envelope reference logical_ 1 AtLeastOnce false));
  match answer with
  | None => DFault FtCancelled
  | Some (Ok _) => _ ← keep (Done (Ok envelope)); mret envelope
  | Some (Err (FResponse e)) => _ ← keep (Done (Err e)); DFault (FtError e)
  | Some (Err (FNotExecuted e)) => _ ← keep (NotExecuted e); DFault (FtError e)
  | Some (Err (FUnknown e)) => DFault (FtError e)
  | Some (Err (FInterrupted e)) =>
      cancelled ← perform OCancelled;
      if (cancelled : bool) then DFault FtCancelled else DFault (FtInterrupted e)
  end.
(** [Run::emit]. *)
Definition emit (with_ : gmap string value) (reference : string) (input : value) (a : Args) : drive value :=
  let key := reference +:+ "#call" in
  s ← shared;
  let logical_ := logical_of (sh_attempts s) reference in
  prior ← record_at key;
  match prior with
  | Some r =>
      saved ← or_fault (emit_saved r);
      match saved with
      | Ok v => mret v
      | Err envelope => hand_over key logical_ reference envelope
      end
  | None =>
      s ← shared;
      match (if decide (logical_ ≠ reference) then emitted_before (sh_records s) logical_ else None) with
      | Some earlier => mret earlier
      | None => envelope ← fresh_envelope with_ input a; hand_over key logical_ reference envelope
      end
  end.

(** ** One event *)

Definition typed (routes : list string) : list string := filter (λ r, r ≠ "*") routes.
(** [expire]: the wait is closed, and the listen has timed out. *)
Definition expire {A} (reference key : string) (routes : list string) (detail : string) : drive A :=
  _ ← tell (EvUnregister key (typed routes));
  _ ← tell (EvUnsubscribe reference);
  DFault (FtError (Error.timeout detail)).
(** The hold of a listen and, when its end is a timeout, the task's own limit. *)
Definition hold_of (task : Task) (deadline : option Z) (now : Z) : Z * bool :=
  let limits := su_limits su in
  match deadline with
  | Some at_ =>
      let hold := Z.min (tk_hold task) (millis (at_ - now)) in
      match lm_max_listen limits with
      | Some m => if decide (m ≤ hold) then (m, true)
                  else (match lm_max_hold limits with Some h => Z.min hold h | None => hold end, false)
      | None => (match lm_max_hold limits with Some h => Z.min hold h | None => hold end, false)
      end
  | None => (match lm_max_hold limits with Some h => Z.min (tk_hold task) h | None => tk_hold task end, false)
  end.
(** Takes until an event came or the hold has passed. *)
Fixpoint take_within (fuel : nat) (key : string) (routes : list string) (hold : Z) : drive (option value) :=
  match fuel with
  | O => DHalt OutOfFuel
  | S fuel =>
      taken ← perform (OTake key routes);
      found ← storage (taken : result string (option value));
      match found with
      | Some event => _ ← save durable secrets key (REvent event); mret (Some event)
      | None =>
          over ← perform (OHeld hold);
          if (over : bool) then mret None
          else
            notified ← perform (ONotified hold);
            if (notified : bool) then take_within fuel key routes hold else mret None
      end
  end.
Definition show_limit (limit : option Z) : string :=
  match limit with Some d => "Some(" +:+ show_duration d +:+ ")" | None => "None" end.
(** [Run::next_event]. *)
Definition next_event (fuel : nat) (task : Task) (reference key : string) (routes : list string)
    (input : value) (scope : Scope) (desc : value) (deadline : option Z) : drive value :=
  if durable then
    now ← perform ONow;
    _ ← (if bool_decide (is_Some deadline) && bool_decide (default 0 deadline ≤ now) then
           expire reference key routes (reference +:+ ": no event before its deadline")
         else mret ());
    let '(hold, expires) := hold_of task deadline now in
    limit ← (if expires then
               match tk_timeout task with
               | Some spec =>
                   ctx ← perform (OContext id);
                   a ← args su (ctx : value) input VNull desc scope;
                   d ← or_fault (duration spec input a); mret (Some d)
               | None => mret None
               end
             else mret None);
    found ← take_within fuel key routes hold;
    match found with
    | Some event => mret event
    | None =>
        if expires then
          expire reference key routes ("no event within " +:+ show_duration hold +:+
            ", the most this host waits (the timeout allows " +:+ show_limit limit +:+ ")")
        else DFault (FtWaiting NO_DEADLINE)
    end
  else
    taken ← perform (OTake key routes);
    found ← storage (taken : result string (option value));
    match found with
    | Some event => mret event
    | None => DFault (FtError (Error.runtime "listen requires a durable journal; cannot wait in a dry run"))
    end.

(** ** Child workflows *)

Definition start_failed {A} (f : CallFailure) : drive A :=
  DFault match f with
         | FNotExecuted e | FResponse e => FtError e
         | FUnknown e | FInterrupted e => FtInterrupted e
         end.
Definition start_child (reference namespace name version : string) (inherit_host : bool) (input : value)
    (owned : bool) : drive (string * string) :=
  r ← perform (OChild (mkChildStart reference namespace name version inherit_host input owned));
  match (r : result CallFailure (string * string)) with Ok c => mret c | Err f => start_failed f end.
(** The event that carries the child's outcome: the saved one, or the one taken. *)
Definition child_event (reference namespace name version : string) (inherit_host : bool) (input : value)
    : drive value :=
  let key := reference +:+ "#child" in
  held ← record_at key;
  match held with
  | Some (REvent event) => mret event
  | Some _ => DFault (FtInterrupted (Error.runtime "invalid child record"))
  | None =>
      if negb durable then DFault (FtError (Error.runtime "a child workflow needs a durable journal"))
      else if negb fn_events then DFault (FtError (Error.validation "child workflows need events on this host"))
      else
        child ← start_child reference namespace name version inherit_host input true;
        let types := [snd child] in
        _ ← tell (EvRegister types);
        taken ← perform (OTake key types);
        found ← storage (taken : result string (option value));
        match found with
        | Some event => _ ← save durable secrets key (REvent event); mret event
        | None => DFault (FtWaiting NO_DEADLINE)
        end
  end.
(** How the child ended, located at the task that ran it. *)
Definition child_output (reference : string) (event : value) : result Fault value :=
  let data := default VNull (vget "data" event) in
  match as_str (vindex "status" data) with
  | Some s =>
      if decide (s = "completed") then Ok (default VNull (vget "output" data))
      else if decide (s = "faulted") then
        let e := default (Error.runtime "the child workflow faulted") (error_value (vindex "error" data)) in
        Err (FtError (e <| err_instance := Some reference |>))
      else Err (FtError ((Error.standard "runtime" 499 "Child Cancelled" "the child workflow was cancelled")
                           <| err_instance := Some reference |>))
  | None => Err (FtError ((Error.standard "runtime" 499 "Child Cancelled" "the child workflow was cancelled")
                            <| err_instance := Some reference |>))
  end.
(** What a completed child's task outputs; its output stands for stdout. *)
Definition child_return (r : Return) (output : value) : value :=
  match r with
  | Stdout => output
  | Stderr => VStr ""
  | Code => vint 0
  | AllOf => VObj (<["code" := vint 0]> (<["stdout" := output]> {["stderr" := VStr ""]}))
  | NoReturn => VNull
  end.
Definition process_return (r : Return) (result_ : value) : value :=
  match r with
  | Stdout => default VNull (vget "stdout" result_)
  | Stderr => default VNull (vget "stderr" result_)
  | Code => default VNull (vget "code" result_)
  | AllOf => result_
  | NoReturn => VNull
  end.
(** [run: workflow] of [Run::run_process]. *)
Definition run_child (run : RunTask) (namespace name version : string) (template : option value)
    (reference : string) (input : value) (a : Args) : drive value :=
  child_input ← match template with
                | Some t => or_fault (expression (render t input a))
                | None => mret (VObj ∅)
                end;
  if negb fn_children then DFault (FtError (Error.validation "child workflows are not supported by this host"))
  else if negb (run_await run) then
    _ ← start_child reference namespace name version (run_inherit_host run) child_input false;
    mret input
  else
    event ← child_event reference namespace name version (run_inherit_host run) child_input;
    output ← or_fault (child_output reference event);
    mret (child_return (run_return run) output).
End with_host.
