(* ===== verification/Compose.v ===== *)
(** * How tasks are composed

    [crates/ows/src/run.rs], sections 3 and 4: lists of tasks and their flow, the
    extensions around a task, reusable functions, iterations and branches. All of it
    is defined over [run_task], the function that runs one task ([Interp.task]), and
    a fuel that bounds the turns of a list. *)
From S2P Require Import Prelude Json Outcome Journal Expr Listen Secrets.
From S2P Require Import Drive Calls Branches Model Tasks Waits.

(** How a list of tasks finished: [Next], [ended]. *)
Inductive Next := NDone (v : value) | NExit (v : value) | NEnd (v : value).
Definition ended (n : Next) : value * option Flow :=
  match n with NDone v | NExit v => (v, None) | NEnd v => (v, Some End_) end.
(** A reference segment that marks a task of an extension. *)
Definition EXTENSION_TASKS : string := "/use/extensions/".

Section interp.
Context `{Host, Functions, Formats}.
Variable su : Setup.
Local Abbreviation wf := (su_wf su).
Local Abbreviation durable := (su_durable su).
Local Abbreviation secrets := (su_secrets su).

(** The workflow context of the branch. *)
Definition get_context : drive value := perform (OContext id).
Definition set_context (v : value) : drive unit := _ ← perform (OContext (λ _, v)); mret ().
(** Guards a dropped future runs: its tasks' deadlines are forgotten. *)
Definition forget_deadlines (prefix : string) : drive unit :=
  _ ← access (λ s, s <| sh_deadlines ::= filter (λ x, starts_with prefix x.1 = false ∨ x.1 = prefix) |>);
  mret ().
Definition is_waiting (f : Fault) : bool := match f with FtWaiting _ => true | _ => false end.

Section over_task.
(** [Run::task]: a task, its name, its reference, its raw input, its scope. *)
Variable run_task : Task → string → string → value → Scope → drive (value * Flow).
Variable fuel : nat.

(** ** Lists *)

(** The visits of a list's tasks over the enclosing lists'. *)
Definition counts (outer : gmap string value) (tasks : TaskList) (visits : list Z) : gmap string value :=
  foldl (λ m x, if decide (0 < x.2) then <[x.1.1 := vint x.2]> m else m) outer (zip tasks visits).
(** [$run.visits] of the innermost enclosing list. *)
Definition outer_visits (scope : Scope) : gmap string value :=
  match named RUN (rev scope) ≫= vget "visits" with Some (VObj m) => m | _ => ∅ end.
(** The reference of a visit of a task. *)
Definition visit (at_ : string) (i : nat) (name : string) (seen : Z) : string :=
  at_ +:+ "/" +:+ pretty i +:+ "/" +:+ name +:+ (if decide (seen = 0) then "" else "[" +:+ pretty seen +:+ "]").
Fixpoint list_from (n : nat) (tasks : TaskList) (at_ : string) (outer : gmap string value) (scope : Scope)
    (i : nat) (visits : list Z) (data : value) : drive Next :=
  match n with
  | O => DHalt OutOfFuel
  | S n =>
      match tasks !! i with
      | None => mret (NDone data)
      | Some (name, task) =>
          let seen := default 0 (visits !! i) in
          let reference := visit at_ i name seen in
          let visits := <[i := seen + 1]> visits in
          run ← run_argument su (VObj (counts outer tasks visits));
          let inner := (RUN, run) :: filter (λ x, x.1 ≠ RUN) scope in
          '(out, flow) ← run_task task name reference data inner;
          match flow with
          | Continue => list_from n tasks at_ outer scope (S i) visits out
          | Exit => mret (NExit out)
          | End_ => mret (NEnd out)
          | Goto target =>
              match position (λ x : string * Task, bool_decide (x.1 = target)) tasks with
              | Some j => list_from n tasks at_ outer scope j visits out
              | None => DFault (FtFatal (Error.runtime ("`then: " +:+ target +:+ "` names no task in " +:+ at_)))
              end
          end
      end
  end.
(** [Run::list]. *)
Definition run_list (tasks : TaskList) (at_ : string) (input : value) (scope : Scope) : drive Next :=
  list_from fuel tasks at_ (outer_visits scope) scope 0 (replicate (length tasks) 0) input.

(** ** Extensions *)

Fixpoint select_extensions (i : nat) (l : list (string * Extension)) (task : Task) (input : value)
    (scope : Scope) (described : value) : drive (list (nat * string * Extension)) :=
  match l with
  | [] => mret []
  | (name, e) :: l =>
      hit ← (if extends e (tk_kind task) then
               when_some (ex_when e) (λ w,
                 ctx ← get_context;
                 a ← args su ctx input VNull described scope;
                 or_fault (holds w input a)) true
             else mret false);
      rest ← select_extensions (S i) l task input scope described;
      mret (if (hit : bool) then (i, name, e) :: rest else rest)
  end.
(** [Run::extensions], with what [$task] is for them. *)
Definition extensions (task : Task) (reference : string) (input : value) (scope : Scope) (desc : value)
    : drive (list (nat * string * Extension) * value) :=
  let all := us_extensions (wf_uses wf) in
  if bool_decide (all = []) || contains_str EXTENSION_TASKS reference then mret ([], VNull)
  else
    let object v := match v with VObj m => m | _ => ∅ end in
    let described := VObj (object desc ∪ object (tk_definition task)) in
    chosen ← select_extensions 0 all task input scope described;
    mret (chosen, described).
(** [Run::layer]: the extensions around [inner], the first outermost. *)
Fixpoint layer (l : list (nat * string * Extension)) (reference : string) (around : Scope)
    (inner : value → drive (value * option Flow)) (data : value) : drive (value * option Flow) :=
  match l with
  | [] => inner data
  | (index, name, e) :: l =>
      let at_ := reference +:+ EXTENSION_TASKS +:+ pretty index +:+ "/" +:+ name in
      first ← when_some (ex_before e) (λ before, run_list before (at_ +:+ "/before") data around) (NDone data);
      match first with
      | NExit v => mret (v, None)
      | NEnd v => mret (v, Some End_)
      | NDone data =>
          '(out, flow) ← layer l reference around inner data;
          match ex_after e with
          | None => mret (out, flow)
          | Some after =>
              next ← run_list after (at_ +:+ "/after") out around;
              mret (match next with NEnd v => (v, Some End_) | NDone v | NExit v => (v, flow) end)
          end
      end
  end.

(** ** Calls and processes *)

(** [Run::call]: a reusable function of the document, or a call of the host. *)
Definition call (t : Target) (a : value) (reference : string) (delivery_ : Delivery) : drive value :=
  match match t with TFunction name => named name (us_functions (wf_uses wf)) | TProcess _ => None end with
  | Some function =>
      if decide (delivery_ = AtLeastOnce) then
        '(out, _) ← run_task function (target_name t)
                      (reference +:+ "/use/functions/" +:+ target_name t) a [];
        mret out
      else DFault (FtFatal (Error.validation "delivery belongs on the external call inside a reusable function"))
  | None => external_call durable secrets t a reference delivery_
  end.
(** [Run::run_process]. *)
Definition run_process (run : RunTask) (reference : string) (input : value) (a : Args) (delivery_ : Delivery)
    : drive value :=
  match run_process_of run with
  | PExternal kind definition =>
      rendered ← or_fault (expression (render definition input a));
      let definition := match rendered with
                        | VObj d => VObj (<["await" := VBool (run_await run)]> d)
                        | other => other
                        end in
      result_ ← call (TProcess kind) definition reference delivery_;
      mret (if run_await run then process_return (run_return run) result_ else input)
  | PWorkflow namespace name version template =>
      run_child su run namespace name version template reference input a
  end.

(** ** Iterations *)

Definition iteration (scope : Scope) (each at_ : string) (item : value) (i : nat) : Scope :=
  scope ++ [(each, item); (at_, vint (Z.of_nat i))].
Definition items_of (items : Items) (input : value) (a : Args) : result Fault (list value) :=
  match items with
  | ItInline l => Ok l
  | ItExpr code =>
      v ← expression (eval code input a);
      match v with
      | VArr l => Ok l
      | VNull => Ok []
      | other => expression (Err ("`for.in` must produce an array, got " +:+ value_to_string other))
      end
  end.
(** A [for]: each pass gets the previous pass's output. *)
Fixpoint for_each (items : list value) (i : nat) (each at_ : string) (condition : option string)
    (tasks : TaskList) (reference : string) (input : value) (scope : Scope) (desc data : value)
    : drive (value * option Flow) :=
  match items with
  | [] => mret (data, None)
  | item :: items =>
      let inner := iteration scope each at_ item i in
      go ← when_some condition (λ c,
             ctx ← get_context;
             a ← args su ctx input VNull desc inner;
             or_fault (holds c data a)) true;
      if (go : bool) then
        next ← run_list tasks (reference +:+ "[" +:+ pretty i +:+ "]/do") data inner;
        match next with
        | NDone v | NExit v => for_each items (S i) each at_ condition tasks reference input scope desc v
        | NEnd v => mret (v, Some End_)
        end
      else mret (data, None)
  end.

(** The results in the order of the branches. *)
Definition result_of (log : list (nat * branch_result)) (i : nat) : branch_result :=
  match list_find (λ x, x.1 = i) log with
  | Some (_, (_, r)) => r
  | None => Err FtCancelled
  end.
Definition earliest (wake : option Z) (d : Z) : option Z :=
  Some (match wake with Some w => Z.min w d | None => d end).
(** The first fault in item order, else the earliest wait, else the outputs. *)
Fixpoint gather (l : list branch_result) (output : list value) (wake : option Z) (end_ : option Flow)
    : result Fault (value * option Flow) :=
  match l with
  | [] => match wake with Some d => Err (FtWaiting d) | None => Ok (VArr output, end_) end
  | Ok (v, flow) :: l => gather l (output ++ [v]) wake (match flow with Some f => Some f | None => end_ end)
  | Err (FtWaiting d) :: l => gather l output (earliest wake d) end_
  | Err f :: _ => Err f
  end.
(** [Run::concurrent]: every iteration runs to its end, [limit] at once. *)
Definition concurrent (items : list value) (each at_ : string) (limit : nat) (tasks : TaskList)
    (reference : string) (input : value) (scope : Scope) : drive (value * option Flow) :=
  ctx ← get_context;
  let one i item := 
    '(r, _) ← in_context ctx (run_list tasks (reference +:+ "[" +:+ pretty i +:+ "]/do") input
                                (iteration scope each at_ item i));
    next ← or_fault r; mret (ended next) in
  done ← pool (λ _, false) limit (imap one items);
  match done with
  | inl r => or_fault r
  | inr log => or_fault (gather (result_of log <$> seq 0 (length items)) [] None None)
  end.

(** ** Fork *)

Definition fork_branch (fork : string) (input : value) (ctx : value) (scope : Scope) (i : nat)
    (b : string * Task) : drive (value * option Flow) :=
  '(r, _) ← in_context ctx (run_task b.2 b.1 (fork +:+ "/fork/branches/" +:+ pretty i +:+ "/" +:+ b.1) input scope);
  '(v, _) ← or_fault r; mret (v, None).
(** The waits and errors of branches that all ended without a winner. *)
Fixpoint losers (log : list (nat * branch_result)) (last_ : option WorkflowError) (wake : option Z)
    : option WorkflowError * option Z :=
  match log with
  | [] => (last_, wake)
  | (_, Err (FtWaiting d)) :: log => losers log last_ (earliest wake d)
  | (_, Err (FtError e)) :: log => losers log (Some e) wake
  | _ :: log => losers log last_ wake
  end.
(** [Run::fork]. *)
Definition fork (branches : TaskList) (compete : bool) (at_ : string) (input : value) (scope : Scope)
    : drive value :=
  let winner_key := at_ +:+ "#winner" in
  prior ← record_at winner_key;
  match prior with
  | Some (RWinner output) => mret output
  | _ =>
      ctx ← get_context;
      let runs := imap (fork_branch at_ input ctx scope) branches in
      let forget := forget_deadlines (at_ +:+ "/fork/branches/") in
      if compete then
        done ← pool (λ r, match r with Ok _ => true | Err (FtWaiting _ | FtError _) => false | Err _ => true end)
                 (length runs) runs;
        match done with
        | inl (Ok (v, _)) =>
            _ ← forget; _ ← save durable secrets winner_key (RWinner v); mret v
        | inl (Err stop) => _ ← forget; DFault stop
        | inr log =>
            match losers log None None with
            | (_, Some deadline) => DFault (FtWaiting deadline)
            | (last_, None) =>
                DFault (FtError (default (Error.runtime "a competing fork needs a branch") last_))
            end
        end
      else if durable then
        done ← pool (λ r, match r with Err f => negb (is_waiting f) | Ok _ => false end) (length runs) runs;
        match done with
        | inl (Err f) =>
            s ← shared;
            let doubt := has_unknown (sh_records s) at_ && match f with FtInterrupted _ => false | _ => true end in
            _ ← forget;
            DFault (if doubt then unknown at_ else f)
        | inl (Ok (v, _)) => mret v
        | inr log => '(v, _) ← or_fault (gather (result_of log <$> seq 0 (length runs)) [] None None); mret v
        end
      else
        done ← pool (λ r, match r with Err _ => true | Ok _ => false end) (length runs) runs;
        match done with
        | inl r => _ ← forget; '(v, _) ← or_fault r; mret v
        | inr log => '(v, _) ← or_fault (gather (result_of log <$> seq 0 (length runs)) [] None None); mret v
        end
  end.
End over_task.
End interp.
