(* ===== verification/Interp.v ===== *)
(** * The interpreter

    [crates/ows/src/run.rs], sections 3, 4, 5 and 7: the task kinds, [listen],
    attempts, the data flow of one task with its timeout, its checkpoint, and the end
    a spent jump budget brings. [task] ties the knot: its fuel bounds the nesting of
    tasks and the turns of each loop. *)
From S2P Require Import Prelude Json Outcome Journal Expr Listen Secrets.
From S2P Require Import Drive Calls Branches Model Tasks Waits Compose.

(** The tasks an [on_exceeded] handler may run, itself included. *)
Definition HANDLER_TASKS : Z := 10.
(** The reference segment under a jumping task where its handler runs. *)
Definition HANDLER : string := "/limits/on_exceeded".

Section interp.
Context `{Host, Functions, Formats}.
Variable su : Setup.
Local Abbreviation wf := (su_wf su).
Local Abbreviation durable := (su_durable su).
Local Abbreviation secrets := (su_secrets su).

Section over_task.
Variable run_task : Task → string → string → value → Scope → drive (value * Flow).
Variable fuel : nat.
Local Abbreviation run_list := (run_list su run_task fuel).

(** ** Listening *)

(** [output.as], [output.schema] of a task or an iteration. *)
Definition output_of (o : option Output) (what : string) (out : value) (a : drive Args) : drive value :=
  out ← when_some (o ≫= out_as) (λ t, a ← a; or_fault (transform t out a)) out;
  _ ← conform_opt (o ≫= out_schema) out what;
  mret out.
(** [export.as] into the context, then [export.schema]. *)
Definition export_to (e : option Export) (out : value) (a : value → drive Args) : drive unit :=
  when_some e (λ e,
    _ ← when_some (out_as e) (λ t,
      ctx ← get_context;
      a ← a ctx;
      v ← or_fault (transform t out a); set_context v) ();
    ctx ← get_context;
    conform_opt (out_schema e) ctx "the exported context") ().
(** [Run::foreach]: the tasks of the [n]th consumed event. *)
Definition foreach (f : Foreach) (reference : string) (n : nat) (item : value) (scope : Scope)
    : drive (value * option Flow) :=
  let inner := iteration scope (fe_item f) (fe_at f) item n in
  next ← run_list (fe_tasks f) (reference +:+ "/foreach/" +:+ pretty n +:+ "/do") item inner;
  let '(out, flow) := ended next in
  out ← output_of (fe_output f) "the iteration output" out
          (ctx ← get_context; args su ctx item VNull VNull inner);
  _ ← export_to (fe_export f) out (λ ctx, args su ctx item out VNull inner);
  mret (out, flow).

(** The deadline of a wait: the earliest of the enclosing tasks' and its own. *)
Definition wait_deadline (deadlines : gmap string Z) (reference : string) (deadline : option Z) : option Z :=
  let enclosing := omap (λ x : string * Z,
    if decide (x.1 = "" ∨ reference = x.1 ∨
               is_some_and (strip_prefix x.1 reference) (starts_with "/") = true)
    then Some x.2 else None) (entries deadlines) in
  foldl earliest None (enclosing ++ match deadline with Some d => [d] | None => [] end).
(** The wait reported to the host, its secrets redacted. *)
Definition report_wait (listen : Listening) (routes : list string) (reference key : string) (p : Progress)
    (input : value) (scope : Scope) (desc : value) (deadline : option Z) : drive unit :=
  ctx ← get_context;
  a ← args su ctx input VNull desc scope;
  now ← perform ONow;
  s ← shared;
  let wait := mkWait routes (li_to listen) input a p key now
                (wait_deadline (sh_deadlines s) reference deadline) false in
  raw ← storage (wait_value wait);
  let redacted := redact_value secrets raw in
  wait ← storage (value_wait redacted);
  tell (EvWaiting reference (wait <| w_redacted := bool_decide (raw ≠ redacted) |>)).
(** The event of a position: the saved one, or a fresh one. *)
Definition listen_event (task : Task) (listen : Listening) (routes : list string) (reference key : string)
    (p : Progress) (subscribed : bool) (input : value) (scope : Scope) (desc : value) (deadline : option Z)
    : drive (value * bool) :=
  held ← record_at key;
  match held with
  | Some (REvent event) => mret (event, subscribed)
  | Some _ => DFault (FtInterrupted (Error.runtime "invalid event record"))
  | None =>
      _ ← (if subscribed then mret ()
           else
             _ ← (if decide (typed routes = []) then mret () else tell (EvRegister (typed routes)));
             tell (EvSubscribe reference routes));
      _ ← report_wait listen routes reference key p input scope desc deadline;
      event ← next_event su fuel task reference key routes input scope desc deadline;
      mret (event, true)
  end.
Definition until_condition (s : Strategy) : option string :=
  match s with Any _ (Some (Condition c)) => Some c | _ => None end.
Fixpoint listen_from (n : nat) (task : Task) (listen : Listening) (routes : list string) (reference : string)
    (i : nat) (p : Progress) (consumed outputs : list value) (subscribed : bool)
    (input : value) (scope : Scope) (desc : value) (deadline : option Z) : drive (value * option Flow) :=
  match n with
  | O => DHalt OutOfFuel
  | S n =>
      if p_done p then
        _ ← tell (EvUnsubscribe reference);
        mret (VArr (match li_foreach listen with Some _ => outputs | None => consumed end), None)
      else
        let key := reference +:+ "#event[" +:+ pretty i +:+ "]" in
        '(event, subscribed) ← listen_event task listen routes reference key p subscribed input scope desc deadline;
        ctx ← get_context;
        a ← args su ctx input VNull desc scope;
        '(offer_, p) ← or_fault (expression (offer (li_to listen) p event input a));
        if decide (offer_ = Consumed) then
          let item := read_event event (li_read listen) in
          let consumed := consumed ++ [item] in
          each ← when_some (li_foreach listen) (λ f,
            r ← foreach f reference (length outputs) item scope; mret (Some r)) None;
          match each with
          | Some (out, Some flow) => _ ← tell (EvUnsubscribe reference); mret (out, Some flow)
          | _ =>
              let outputs := match each with Some (out, _) => outputs ++ [out] | None => outputs end in
              stop ← when_some (until_condition (li_to listen)) (λ c,
                ctx ← get_context;
                a ← args su ctx input VNull desc scope;
                or_fault (holds c (VArr consumed) a)) false;
              let p := if (stop : bool) then p <| p_done := true |> else p in
              listen_from n task listen routes reference (S i) p consumed outputs subscribed input scope desc deadline
          end
        else
          listen_from n task listen routes reference (S i) p consumed outputs subscribed input scope desc deadline
  end.
(** [Run::listen]. *)
Definition run_listen (task : Task) (listen : Listening) (reference : string) (input : value) (scope : Scope)
    (desc : value) (deadline : option Z) : drive (value * option Flow) :=
  if negb fn_events then DFault (FtError (Error.validation "events are not supported by this host"))
  else
    ctx ← get_context;
    a ← args su ctx input VNull desc scope;
    listen_from fuel task listen (routes (li_to listen) a) reference 0 (new_progress (li_to listen)) [] [] false
      input scope desc deadline.

(** ** Attempts *)

(** [Run::within]: one attempt under its saved deadline. *)
Definition within (limit : Z) (key attempt_ref : string) (body : drive Next) : drive Next :=
  held ← record_at key;
  deadline ← match held with
    | Some (RTimer deadline_ms) => mret deadline_ms
    | Some _ => DFault (FtInterrupted (Error.runtime "invalid attempt record"))
    | None =>
        now ← perform ONow;
        let deadline_ms := sat_add64 now (millis_i64 limit) in
        _ ← save durable secrets key (RTimer deadline_ms);
        mret deadline_ms
    end;
  left ← (if durable then now ← perform ONow; mret (Z.max 0 (sat_sub64 deadline now)) else mret (millis_i64 limit));
  let expired := durable && bool_decide (left = 0) in
  r ← with_timer left (reify body);
  match r with
  | Some (Ok next) => mret next
  | Some (Err f) =>
      match f with
      | FtWaiting wake =>
          if expired then
            s ← shared;
            DFault (if has_unknown (sh_records s) attempt_ref then unknown attempt_ref
                    else FtError (Error.timeout (attempt_ref +:+ " did not finish within " +:+ show_duration limit)))
          else DFault (FtWaiting (Z.min wake deadline))
      | f => DFault f
      end
  | None =>
      _ ← forget_deadlines attempt_ref;
      s ← shared;
      DFault (if has_unknown (sh_records s) attempt_ref then unknown attempt_ref
              else FtError (Error.timeout (attempt_ref +:+ " did not finish within " +:+ show_duration limit)))
  end.
(** The delay before the next attempt: the saved decision, or a fresh one, saved. *)
Definition decide_retry (c : Catch) (key attempt_ref : string) (attempt began protected : Z) (input : value)
    (a : Args) : drive (option Z) :=
  held ← record_at key;
  match held with
  | Some (RRetry delay_ms) => mret (millis <$> delay_ms)
  | Some _ => DFault (FtInterrupted (Error.runtime "invalid retry record"))
  | None =>
      s ← shared;
      let safe := if durable then negb (blocks_retry (sh_records s) attempt_ref)
                  else bool_decide (sh_protected s = protected) in
      delay ← (if safe then when_some (catch_retry c) (λ r, retry_delay su r attempt began input a) None
               else mret None);
      _ ← save durable secrets key (RRetry ((λ d, Z.min (as_millis d) u64_max) <$> delay));
      mret delay
  end.
(** [catch.do], then [catch.then]. *)
Definition handle (c : Catch) (reference : string) (input : value) (caught : Scope) : drive (value * option Flow) :=
  match catch_tasks c with
  | Some handler =>
      next ← run_list handler (reference +:+ "/catch/do") input caught;
      let '(out, flow) := ended next in
      mret (out, match flow with Some f => Some f | None => catch_then c end)
  | None => mret (input, catch_then c)
  end.
(** The error a [catch] may take, and whether it is an unknown outcome. *)
Definition catchable (c : Catch) (f : Fault) : option (WorkflowError * bool) :=
  match f with
  | FtError e => Some (e, false)
  | FtFatal e => if decide (err_type e = CALL_UNKNOWN ∧ names_unknown c = true) then Some (e, true) else None
  | _ => None
  end.
Fixpoint attempt_from (n : nat) (tasks : TaskList) (c : Catch) (reference : string) (input snapshot : value)
    (scope : Scope) (desc : value) (began attempt : Z) : drive (value * option Flow) :=
  match n with
  | O => DHalt OutOfFuel
  | S n =>
      s ← shared;
      let protected := sh_protected s in
      let first := reference +:+ "/try" in
      let attempt_ref :=
        if negb durable || bool_decide (attempt = 1) then first else first +:+ "[" +:+ pretty attempt +:+ "]" in
      _ ← access (λ s, s <| sh_attempts ::= λ l, l ++ [(attempt_ref, first, attempt)] |>);
      let body := run_list tasks attempt_ref input scope in
      limit ← when_some (catch_retry c ≫= rt_attempt_duration) (λ spec,
        a ← args su snapshot input VNull desc scope;
        d ← or_fault (duration spec input a); mret (Some d)) None;
      result_ ← reify (
        match limit with
        | None => body
        | Some limit => within limit (reference +:+ "#attempt[" +:+ pretty attempt +:+ "]") attempt_ref body
        end);
      match result_ with
      | Ok next => mret (ended next)
      | Err f =>
          match catchable c f with
          | None => DFault f
          | Some (error, unknown_) =>
              let caught := scope ++ [(catch_as c, Error.to_value error)] in
              ctx ← get_context;
              a ← args su ctx input VNull desc caught;
              takes ← or_fault (catches c error input a);
              if negb takes then DFault (if unknown_ then FtFatal error else FtError error)
              else
                delay ← decide_retry c (reference +:+ "#retry-decision[" +:+ pretty attempt +:+ "]") attempt_ref
                          attempt began protected input a;
                match delay with
                | Some delay =>
                    _ ← sleep_for su delay (reference +:+ "#retry[" +:+ pretty attempt +:+ "]");
                    _ ← set_context snapshot;
                    attempt_from n tasks c reference input snapshot scope desc began (attempt + 1)
                | None => handle c reference input caught
                end
          end
      end
  end.
Definition as_i64 (v : value) : option Z := match v with VNum n => Num.as_i64 n | _ => None end.
(** [Run::attempt]. *)
Definition attempt (tasks : TaskList) (c : Catch) (reference : string) (input : value) (scope : Scope)
    (desc : value) : drive (value * option Flow) :=
  match as_i64 (vindex "milliseconds" (vindex "epoch" (vindex "startedAt" desc))) with
  | None => DFault (FtFatal (Error.runtime "missing retry start time"))
  | Some began =>
      snapshot ← get_context;
      attempt_from fuel tasks c reference input snapshot scope desc began 1
  end.

(** ** Kinds *)

(** The first case that holds, in order. *)
Fixpoint first_case (cases : list (string * Case)) (input : value) (a : Args) : result Fault (option Flow) :=
  match cases with
  | [] => Ok None
  | (_, case) :: cases =>
      hit ← match case_when case with Some w => holds w input a | None => Ok false end;
      if (hit : bool) then Ok (Some (case_then case)) else first_case cases input a
  end.
Definition default_case (cases : list (string * Case)) : option Flow :=
  case_then ∘ snd ∘ snd <$> list_find (λ x : string * Case, case_when x.2 = None) cases.
(** [Run::kind]: the raw output, and the directive the task chose. *)
Definition kind (task : Task) (reference : string) (input : value) (scope : Scope) (desc : value)
    (deadline : option Z) : drive (value * option Flow) :=
  let args_here := ctx ← get_context; args su ctx input VNull desc scope in
  match tk_kind task with
  | KCall function with_ =>
      call_args ← when_some with_ (λ w, a ← args_here; or_fault (expression (render w input a))) (VObj ∅);
      out ← call su run_task (TFunction (function_name function)) call_args reference (tk_delivery task);
      mret (out, None)
  | KDo tasks => next ← run_list tasks (reference +:+ "/do") input scope; mret (ended next)
  | KFor each at_ items condition concurrency tasks =>
      items ← (match items with
               | ItInline l => mret l
               | ItExpr _ => a ← args_here; or_fault (items_of items input a)
               end);
      match concurrency with
      | Some limit => concurrent su run_task fuel items each at_ limit tasks reference input scope
      | None => for_each su run_task fuel items 0 each at_ condition tasks reference input scope desc input
      end
  | KFork branches compete =>
      out ← fork su run_task branches compete reference input scope; mret (out, None)
  | KSet v =>
      a ← args_here;
      out ← or_fault (expression (match v with
                                  | VStr code => eval (bare code) input a
                                  | template => render template input a
                                  end));
      mret (out, None)
  | KSwitch cases =>
      a ← args_here;
      hit ← or_fault (first_case cases input a);
      mret (input, match hit with Some f => Some f | None => default_case cases end)
  | KTry tasks c => attempt tasks c reference input scope desc
  | KRaise r => a ← args_here; e ← or_fault (raise su r reference input a); DFault (FtError e)
  | KListen l => run_listen task l reference input scope desc deadline
  | KEmit with_ => a ← args_here; out ← emit su with_ reference input a; mret (out, None)
  | KRun run =>
      a ← args_here; out ← run_process su run_task run reference input a (tk_delivery task); mret (out, None)
  | KWait spec =>
      a ← args_here;
      d ← or_fault (duration spec input a);
      _ ← sleep_for su d (reference +:+ "#wait");
      mret (input, None)
  end.

(** ** A spent budget *)

Definition exit_exceeded (reference : string) (output : value) : drive unit :=
  _ ← access (λ s, s <| sh_exceeded_exit := Some (reference, output) |>); mret ().
(** [Run::act_on_exceeded]: how the run's first refusal ends it. *)
Definition act_on_exceeded (reference : string) (output : value) (scope : Scope) : drive Fault :=
  match bu_on_exceeded (wf_budget wf) with
  | XRaise => mret (FtError (Error.budget "the jump budget is spent"))
  | XEnd => _ ← exit_exceeded reference output; mret (FtExceeded output)
  | XTask handler =>
      let at_ := reference +:+ HANDLER in
      _ ← access (λ s, s <| sh_handlers ::= λ l, l ++ [(at_, 0)] |>);
      result_ ← reify (run_task handler "on_exceeded" at_ output scope);
      _ ← access (λ s, s <| sh_handlers ::= filter (λ x, x.1 ≠ at_) |>);
      match result_ with
      | Ok (out, _) => _ ← exit_exceeded reference output; mret (FtExceeded out)
      | Err (FtError e | FtFatal e) =>
          _ ← access (λ s, s <| sh_handler_failed := true |>); mret (FtFatal e)
      | Err other => mret other
      end
  end.
(** [Run::exceeded]: the refusal [first] is the one that acts. *)
Definition exceeded (reference first : string) (output : value) (scope : Scope) : drive unit :=
  match bu_on_exceeded (wf_budget wf) with
  | XRaise =>
      DFault (FtError (Error.budget ("more than " +:+ pretty (su_max_jumps su) +:+
        " jumps in this run tree; a `then` loop did not end")))
  | _ =>
      if decide (first = reference +:+ "#jump") then
        f ← act_on_exceeded reference output scope;
        _ ← access (λ s, s <| sh_exceeded := Some f |>);
        DFault f
      else f ← perform OFollow; DFault (f : Fault)
  end.

(** ** One task *)

(** [$task]: the task's descriptor; [None] where its start has no date. *)
Definition descriptor (task : Task) (name reference : string) (raw : value) (started_ms : Z) : option value :=
  at_ ← datetime started_ms;
  Some (VObj (<["name" := VStr name]> (<["reference" := VStr reference]>
    (<["definition" := tk_definition task]> (<["input" := raw]> {["startedAt" := at_]}))))).
Definition with_output (desc out : value) : value :=
  match desc with VObj m => VObj (<["output" := out]> m) | v => v end.
(** Whether a child run of the task has already reported. *)
Definition child_done (task : Task) (reference : string) : drive bool :=
  match tk_kind task with
  | KRun r => match run_process_of r with
              | PWorkflow _ _ _ _ => held ← record_at (reference +:+ "#child"); mret (bool_decide (is_Some held))
              | PExternal _ _ => mret false
              end
  | _ => mret false
  end.
(** The task with its extensions under its timeout; [body] takes a listen's own
    deadline. *)
Definition timed (task : Task) (reference : string) (started_ms : Z) (limit : option Z)
    (body : option Z → drive (value * option Flow)) : drive (value * option Flow) :=
  done ← child_done task reference;
  match limit with
  | None => body None
  | Some limit =>
      if (done : bool) then body None
      else
        let deadline := sat_add64 started_ms (millis_i64 limit) in
        let late := FtError (Error.timeout (reference +:+ " did not finish within " +:+ show_duration limit)) in
        match tk_kind task with
        | KListen _ =>
            r ← reify (body (Some deadline));
            match r with
            | Err (FtWaiting wake) => DFault (FtWaiting (Z.min wake deadline))
            | r => or_fault r
            end
        | _ =>
            rest ← reify (remaining durable (millis_i64 limit) started_ms);
            let '(ms, expired) := match rest with Ok x => (x.1, false) | Err _ => (0, true) end in
            r ← with_timer ms (reify (body None));
            match r with
            | Some (Ok x) => mret x
            | Some (Err f) =>
                match f with
                | FtWaiting wake =>
                    if expired then
                      s ← shared;
                      DFault (if has_unknown (sh_records s) reference then unknown reference else late)
                    else DFault (FtWaiting (Z.min wake deadline))
                | f => DFault f
                end
            | None =>
                _ ← forget_deadlines reference;
                s ← shared;
                DFault (if has_unknown (sh_records s) reference then unknown reference else late)
            end
        end
  end.
(** What follows the task's own work: its output, the context, the flow, the jump. *)
Definition finish_steps (task : Task) (reference : string) (input : value) (scope : Scope) (desc : value)
    (out : value) (flow : option Flow) : drive (value * Flow) :=
  let desc := with_output desc out in
  out ← output_of (tk_output task) "the task output" out
          (ctx ← get_context; args su ctx input VNull desc scope);
  _ ← export_to (tk_export task) out (λ ctx, args su ctx input out desc scope);
  let flow := match flow with Some f => f | None => default Continue (tk_then task) end in
  _ ← match flow with
      | Goto _ =>
          decided ← jump durable secrets (su_max_jumps su) reference;
          when_some decided (λ first, exceeded reference first out scope) ()
      | _ => mret ()
      end;
  mret (out, flow).
(** A task with its deadline registered while it runs. *)
Definition guarded (reference : string) (deadline : option Z) {A} (p : drive A) : drive A :=
  match deadline with
  | None => p
  | Some at_ =>
      _ ← access (λ s, s <| sh_deadlines ::= <[reference := at_]> |>);
      r ← reify p;
      _ ← access (λ s, s <| sh_deadlines ::= delete reference |>);
      or_fault r
  end.
(** [Run::steps]. *)
Definition steps (task : Task) (name reference : string) (raw : value) (scope : Scope) (started_ms : Z)
    : drive (value * Flow) :=
  desc ← or_panic (descriptor task name reference raw started_ms);
  runs ← when_some (tk_when task) (λ cond,
    ctx ← get_context;
    a ← args su ctx VNull VNull desc scope;
    or_fault (holds (bare cond) raw a)) true;
  if negb runs then mret (raw, Continue)
  else
    _ ← conform_opt (tk_input task ≫= in_schema) raw "the task input";
    input ← when_some (tk_input task ≫= in_from) (λ t,
      ctx ← get_context;
      a ← args su ctx VNull VNull desc scope;
      a ← or_fault (input_args su a t);
      or_fault (transform t raw a)) raw;
    limit ← when_some (tk_timeout task) (λ spec,
      ctx ← get_context;
      a ← args su ctx input VNull desc scope;
      d ← or_fault (duration spec input a); mret (Some d)) None;
    guarded reference ((λ l, sat_add64 started_ms (millis_i64 l)) <$> limit) (
      '(chosen, described) ← extensions su task reference input scope desc;
      let around := scope ++ [("task", described)] in
      '(out, flow) ← timed task reference started_ms limit (λ deadline,
        layer su run_task fuel chosen reference around
          (λ input, kind task reference input scope desc deadline) input);
      finish_steps task reference input scope desc out flow).

(** The fault located at this task, unless an inner one already is. *)
Definition locate (reference : string) (e : WorkflowError) : WorkflowError :=
  e <| err_instance := Some (default reference (err_instance e)) |>.
Definition located (reference : string) (r : result Fault (value * Flow)) : result Fault (value * Flow) :=
  match r with
  | Err (FtError e) => Err (FtError (locate reference e))
  | Err (FtFatal e) => Err (FtFatal (locate reference e))
  | r => r
  end.
(** What of a result is saved. *)
Definition outcome_saved (r : result Fault (value * Flow)) : option StepOutcome :=
  match r with
  | Ok (output, flow) => Some (StepCompleted output flow)
  | Err (FtError e) => Some (StepFaulted e false)
  | Err (FtFatal e) => Some (StepFaulted e true)
  | Err _ => None
  end.
(** A saved result, as the task gave it. *)
Definition restored (o : StepOutcome) : result Fault (value * Flow) :=
  match o with
  | StepCompleted output flow => Ok (output, flow)
  | StepFaulted e true => Err (FtFatal e)
  | StepFaulted e false => Err (FtError e)
  end.
Definition saved_result (prior : option JRecord) : option TaskResult :=
  match prior with Some (RTask _ saved) => saved | _ => None end.
Definition saved_start (prior : option JRecord) : option Z :=
  match prior with Some (RTask started_ms _) => Some started_ms | _ => None end.
(** A task that has no result yet: counted unless an earlier drive did, its start and
    its result saved. *)
Definition enter_task (t : Task) (name reference : string) (raw : value) (scope : Scope) (prior : option JRecord)
    : drive (value * Flow) :=
  let key := reference +:+ "#task" in
  let max := lm_max_tasks (su_limits su) in
  over ← (if decide (prior = None) then
            s ← access (λ s, s <| sh_tasks_run ::= Z.add 1 |>);
            mret (bool_decide (max ≤ sh_tasks_run s))
          else mret false);
  if (over : bool) then
    DFault (FtFatal ((Error.runtime ("more than " +:+ pretty max +:+
      " tasks ran; a loop or a `then` cycle does not end")) <| err_instance := Some reference |>))
  else
    started_ms ← match saved_start prior with
                 | Some started_ms => mret started_ms
                 | None => now ← perform ONow; mret (now : Z)
                 end;
    _ ← save durable secrets key (RTask started_ms None);
    r ← reify (steps t name reference raw scope started_ms);
    let r := located reference r in
    _ ← when_some (outcome_saved r) (λ o,
      ctx ← get_context;
      save durable secrets key (RTask started_ms (Some (mkTaskResult ctx o)))) ();
    or_fault r.
(** [Run::task] over the tasks inside it. *)
Definition task_body (t : Task) (name reference : string) (raw : value) (scope : Scope) : drive (value * Flow) :=
  cancelled ← perform OCancelled;
  if (cancelled : bool) then DFault FtCancelled
  else
    entered ← handler reference true;
    if decide (HANDLER_TASKS < default 0 entered) then
      DFault (FtFatal ((Error.budget ("an on_exceeded handler may run at most " +:+ pretty HANDLER_TASKS +:+ " tasks"))
                         <| err_instance := Some reference |>))
    else
      prior ← record_at (reference +:+ "#task");
      match saved_result prior with
      | Some saved => _ ← set_context (context saved); or_fault (restored (outcome_of saved))
      | None => enter_task t name reference raw scope prior
      end.
End over_task.

(** [Run::task]. *)
Fixpoint task (fuel : nat) (t : Task) (name reference : string) (raw : value) (scope : Scope)
    : drive (value * Flow) :=
  match fuel with
  | O => DHalt OutOfFuel
  | S fuel => task_body (task fuel) fuel t name reference raw scope
  end.
End interp.
