(* ===== verification/Execute.v ===== *)
(** * An execution of a run

    [crates/ows/src/run.rs], [execute] and [Run::workflow]: what a drive makes of the
    records its journal holds, the workflow under its timeout, and how its result is
    committed and reported. *)
From S2P Require Import Prelude Json Outcome Journal Expr Listen Secrets.
From S2P Require Import Drive Calls Branches Model Tasks Waits Compose Interp.

(** [Outcome]. *)
Record RunOutcome := mkRunOutcome {
  oc_status : Status;
  oc_calls : list CallEntry;
  oc_tasks_run : Z;
  oc_limit_exceeded : bool
}.
(** What [execute] is called with, but for the journal. *)
Record Start := mkStart {
  st_wf : Workflow;
  st_run_id : string;
  st_input : value;
  st_admitted_ms : option Z;
  st_limits : Limits;
  st_runtime : value;
  st_durable : bool
}.
Definition ends_with (suffix s : string) : bool := bool_decide (is_Some (strip_suffix suffix s)).

Section execute.
Context `{Host, Functions, Formats}.

(** ** What is loaded *)

Definition interrupted_outcome (e : string) : RunOutcome :=
  mkRunOutcome (Interrupted (Error.runtime e)) [] 0 false.
(** The secrets the document declares. *)
Definition resolve_secrets (wf : Workflow) (store : option (string → result string (option value)))
    : result RunOutcome Redaction :=
  let declared := us_secrets (wf_uses wf) in
  if decide (declared = []) then Ok (mkRedaction [] [])
  else match store with
       | Some store => match resolve declared store with
                       | Ok r => Ok r
                       | Err e => Err (interrupted_outcome ("resolving secrets: " +:+ e))
                       end
       | None => Err (interrupted_outcome "this host has no secret resolver")
       end.
(** The journal's records with their secrets back. *)
Fixpoint restore_all (secrets : Redaction) (l : list (string * JRecord)) (m : gmap string JRecord)
    : result string (gmap string JRecord) :=
  match l with
  | [] => Ok m
  | (k, r) :: l => r ← restore secrets r; restore_all secrets l (<[k := r]> m)
  end.
Definition load_records (secrets : Redaction) (loaded : result string (gmap string JRecord))
    : result RunOutcome (gmap string JRecord) :=
  match (m ← loaded; restore_all secrets (entries m) ∅) with
  | Ok m => Ok m
  | Err e => Err (interrupted_outcome (text secrets e))
  end.

(** Which keys a record may have. *)
Definition key_allowed (key : string) (r : JRecord) : bool :=
  match r with
  | RExecution _ => str_eqb key "execution"
  | RFinished status => str_eqb key "finished" && terminal status
  | RTask _ _ => ends_with "#task" key
  | RCall _ => ends_with "#call" key
  | RWinner _ => ends_with "#winner" key
  | REvent _ => contains_str "#event[" key || ends_with "#child" key
  | RExpired _ => starts_with "mailbox#expired[" key
  | RTimer _ => ends_with "#wait" key || contains_str "#retry[" key || contains_str "#attempt[" key
  | RRetry _ => contains_str "#retry-decision[" key
  | RBudget _ _ _ => ends_with "#jump" key
  | RExceeded _ => str_eqb key EXCEEDED
  end.
Definition timestamp_valid (r : JRecord) : bool :=
  match r with
  | RExecution x => bool_decide (is_Some (rfc3339 (x_started_ms x)))
  | RTask started_ms _ => bool_decide (is_Some (rfc3339 started_ms))
  | _ => true
  end.
(** When the run started and under which runtime, or why it cannot go on. *)
Definition started (st : Start) (now : Z) (records : gmap string JRecord) : result Status (Z * value) :=
  match records !! "execution" with
  | Some (RExecution x) =>
      if decide (x_version x ≠ VERSION ∨ x_max_tasks x ≠ lm_max_tasks (st_limits st) ∨
                 x_max_attempts x ≠ lm_max_attempts (st_limits st)) then
        Err (Interrupted (Error.runtime "incompatible durable version or execution limits"))
      else if decide (x_run_id x = st_run_id st ∧ x_definition x = wf_definition (st_wf st) ∧
                      x_input x = st_input st) then
        Ok (x_started_ms x, x_runtime x)
      else Err (Faulted (Error.runtime "a run's definition or input changed"))
  | Some _ => Err (Faulted (Error.runtime "a run's definition or input changed"))
  | None =>
      if decide (records = ∅) then Ok (default now (st_admitted_ms st), st_runtime st)
      else Err (Interrupted (Error.runtime "missing execution record"))
  end.
(** The checks of the records a drive starts with. *)
Definition check_records (st : Start) (now : Z) (records : gmap string JRecord) : result Status (Z * value) :=
  x ← started st now records;
  if negb (forallb (λ x, key_allowed x.1 x.2) (entries records)) then
    Err (Interrupted (Error.runtime "invalid durable record key or terminal state"))
  else if negb (forallb timestamp_valid (values records)) then
    Err (Interrupted (Error.runtime "invalid saved timestamp"))
  else Ok x.
Definition is_task (r : JRecord) : bool := match r with RTask _ _ => true | _ => false end.
Definition is_granted (r : JRecord) : bool := match r with RBudget true _ _ => true | _ => false end.
Definition is_refused (r : JRecord) : bool := match r with RBudget false _ _ => true | _ => false end.
Definition count_records (p : JRecord → bool) (records : gmap string JRecord) : Z :=
  Z.of_nat (length (filter (λ r, p r = true) (values records))).
(** The fields a drive starts with. *)
Definition initial_shared (records : gmap string JRecord) : Shared :=
  mkShared records [] (count_records is_task records) (count_records is_granted records) 0 [] false None None ∅
    (list_to_map ((λ c, (ce_key c, c)) <$> call_journal records)).
(** [Run]'s constants; [None] where the start has no date. *)
Definition setup_of (st : Start) (secrets : Redaction) (started_ms : Z) (runtime : value) : option Setup :=
  at_ ← datetime started_ms;
  let object := match runtime with VObj m => Some m | _ => None end in
  let schedule := object ≫= lookup "schedule" in
  Some (mkSetup (st_wf st) (st_run_id st) (st_durable st) secrets (st_limits st)
    (max_jumps (wf_budget (st_wf st)) (lm_max_jumps (st_limits st)))
    (VObj (<["id" := VStr (st_run_id st)]> (<["definition" := wf_definition (st_wf st)]>
      (<["input" := st_input st]> {["startedAt" := at_]}))))
    (match object with Some m => VObj (delete "schedule" m) | None => runtime end)
    (v ← schedule; if is_null v then None else Some v)).

(** ** The workflow *)

Variable fuel : nat.
Variable su : Setup.

(** [Run::workflow]. *)
Definition workflow (raw : value) : drive value :=
  let wf := su_wf su in
  _ ← conform_opt (wf_input wf ≫= in_schema) raw "the workflow input";
  input ← when_some (wf_input wf ≫= in_from) (λ t,
    a ← args su VNull VNull VNull VNull [];
    a ← or_fault (input_args su a t);
    or_fault (transform t raw a)) raw;
  '(r, ctx) ← in_context input (run_list su (task su fuel) fuel (wf_tasks wf) "/do" input []);
  next ← or_fault r;
  output_of (wf_output wf) "the workflow output" (fst (ended next)) (args su ctx VNull VNull VNull []).
Definition unknown_workflow (f : Fault) : drive Fault :=
  s ← shared;
  mret (if has_unknown (sh_records s) "" then unknown "workflow" else f).
(** The workflow under its own timeout, counted from its start. *)
Definition timed_workflow (started_ms : Z) (input : value) : drive value :=
  match wf_timeout (su_wf su) with
  | None => workflow input
  | Some spec =>
      a ← args su VNull VNull VNull VNull [];
      limit ← or_fault (duration spec input a);
      rest ← reify (remaining (su_durable su) (millis_i64 limit) started_ms);
      match rest with
      | Err f => f ← unknown_workflow f; DFault f
      | Ok (ms, deadline) =>
          _ ← access (λ s, s <| sh_deadlines ::= <["" := deadline]> |>);
          r ← with_timer ms (reify (workflow input));
          match r with
          | Some (Err (FtWaiting wake)) => DFault (FtWaiting (Z.min wake deadline))
          | Some r => or_fault r
          | None =>
              f ← unknown_workflow (FtFatal (Error.timeout ("the workflow did not finish within " +:+ show_duration limit)));
              DFault f
          end
      end
  end.
(** The execution record, once. *)
Definition begin_execution (started_ms : Z) (runtime input : value) : drive unit :=
  held ← record_at "execution";
  match held with
  | Some _ => mret ()
  | None =>
      save (su_durable su) (su_secrets su) "execution"
        (RExecution (mkExecution VERSION (su_run_id su) (wf_definition (su_wf su)) input runtime started_ms
           (lm_max_tasks (su_limits su)) (lm_max_attempts (su_limits su))))
  end.
Definition body (started_ms : Z) (runtime input : value) : drive value :=
  _ ← begin_execution started_ms runtime input;
  cancelled ← perform OCancelled;
  if (cancelled : bool) then DFault FtCancelled else timed_workflow started_ms input.

(** ** How it ends *)

Definition status_of (r : result Fault value) : Status :=
  match r with
  | Ok v | Err (FtExceeded v) => Completed v
  | Err (FtError e | FtFatal e) => Faulted e
  | Err FtCancelled => Cancelled
  | Err (FtWaiting wake_at_ms) => Waiting wake_at_ms
  | Err (FtInterrupted e) => Interrupted e
  end.
Definition spent (r : result Fault value) : bool :=
  match r with
  | Err (FtExceeded _) => true
  | Err (FtError e | FtFatal e) => Error.is_kind e "budget.exhausted"
  | _ => false
  end.
(** A run that was already finished. *)
Definition finished_before (records : gmap string JRecord) (status : Status) : RunOutcome :=
  let refused := existsb is_refused (values records) &&
    match bu_on_exceeded (wf_budget (su_wf su)) with XRaise => false | _ => true end in
  mkRunOutcome (redact_status (su_secrets su) status) (call_journal records) (count_records is_task records)
    (refused || match status with Faulted e => Error.is_kind e "budget.exhausted" | _ => false end).
Definition finished_status (records : gmap string JRecord) : option Status :=
  match records !! "finished" with Some (RFinished status) => Some status | _ => None end.
(** The end committed: a drive whose end cannot be saved is interrupted. *)
Definition commit_end (status : Status) : drive Status :=
  if terminal status then
    saved ← reify (save (su_durable su) (su_secrets su) "finished" (RFinished status));
    mret (match saved with Err (FtInterrupted e) => Interrupted e | _ => status end)
  else mret status.
(** The end of a drive's own run, and what is reported of it. *)
Definition conclude (r : result Fault value) : drive RunOutcome :=
  s ← shared;
  let limit_exceeded := sh_handler_failed s || spent r in
  status ← commit_end (status_of r);
  s ← shared;
  mret (mkRunOutcome (redact_status (su_secrets su) status) (values (sh_calls s)) (sh_tasks_run s)
    (limit_exceeded && match status with Completed _ | Faulted _ => true | _ => false end)).
(** [execute], once its records are loaded and checked. *)
Definition run_execution (records : gmap string JRecord) (started_ms : Z) (runtime input : value)
    : drive RunOutcome :=
  match finished_status records with
  | Some status => mret (finished_before records status)
  | None =>
      r ← reify (body started_ms runtime input);
      conclude r
  end.
End execute.

(** [execute]: the program of a drive and the fields it starts with, or the outcome
    of one that cannot start. *)
Definition execute `{Host, Functions, Formats} (fuel : nat) (st : Start) (now : Z)
    (store : option (string → result string (option value))) (loaded : result string (gmap string JRecord))
    : result RunOutcome (drive RunOutcome * Shared) :=
  secrets ← resolve_secrets (st_wf st) store;
  records ← load_records secrets loaded;
  match check_records st now records with
  | Err status => Err (mkRunOutcome status (call_journal records) (count_records is_task records) false)
  | Ok (started_ms, runtime) =>
      Ok (match setup_of st secrets started_ms runtime with
          | Some su => run_execution fuel su records started_ms runtime (st_input st)
          | None => DHalt Panicked
          end, initial_shared records)
  end.
