(* ===== verification/Types.v ===== *)
(** * The store's data

    [crates/durable/src/lib.rs], [control.rs] and the row types of [engine.rs]:
    admissions, leases, runs, events, definitions with their breaker, triggers,
    operator commands, and the errors the store answers with. *)
From S2P Require Import Prelude Json Outcome Journal Listen.

Definition LEASE_MS : Z := 30000.
Definition MAX_INTERRUPTIONS : Z := 10.
Definition MAILBOX_KEPT_MS : Z := 24 * 3600000.
Definition INGRESS_KEPT_MS : Z := 7 * 24 * 3600000.
Definition CLOCK_SKEW_MS : Z := 1000.
Definition APPLICATION_VERSION : string := "application_version".
Definition PINNED : string := "pinned".
Definition HOST : string := "host".

(** A store's time policy. *)
Record Policy := mkPolicy { mailbox_ms : Z; ingress_ms : Z; skew_ms : Z }.
Definition default_policy : Policy := mkPolicy MAILBOX_KEPT_MS INGRESS_KEPT_MS CLOCK_SKEW_MS.

Record Admission := mkAdmission {
  a_id : string;
  a_name : string;
  a_version : Z;
  a_definition : string;
  a_input : value;
  a_runtime : value
}.
#[export] Instance eta_Admission : Eta Admission :=
  λ r, mkAdmission (a_id r) (a_name r) (a_version r) (a_definition r) (a_input r) (a_runtime r).
#[export] Instance Admission_eq_dec : EqDecision Admission.
Proof. solve_decision. Defined.

Inductive AdmissionField := FieldName | FieldVersion | FieldHost | FieldLink.
#[export] Instance AdmissionField_eq_dec : EqDecision AdmissionField.
Proof. solve_decision. Defined.
Record AdmissionMismatch := mkMismatch { am_id : string; am_field : AdmissionField }.

Definition pinned (a : Admission) : bool :=
  default false (vget PINNED (a_runtime a) ≫= as_bool).
Definition application_version (a : Admission) : option string :=
  vget APPLICATION_VERSION (a_runtime a) ≫= as_str.
Definition host (a : Admission) : option value :=
  h ← vget HOST (a_runtime a); if is_null h then None else Some h.
(** [Admission::joins]. *)
Definition joins (a : Admission) (name : string) (version : option Z) (h : option value)
    : result AdmissionMismatch unit :=
  if decide (a_name a ≠ name) then Err (mkMismatch (a_id a) FieldName)
  else if is_some_and version (λ v, bool_decide (v ≠ a_version a))
  then Err (mkMismatch (a_id a) FieldVersion)
  else if decide (host a ≠ h) then Err (mkMismatch (a_id a) FieldHost)
  else Ok ().

Record Compatibility := mkCompatibility { c_version : option string; c_accepts : list string }.
Definition default_compatibility : Compatibility := mkCompatibility None [].
(** [Compatibility::admits]. *)
Definition admits (c : Compatibility) (run : option string) : bool :=
  match run, c_version c with
  | None, _ | _, None => true
  | Some run, Some own => bool_decide (run = own) || existsb (λ a, bool_decide (a = run)) (c_accepts c)
  end.

Record Fence := mkFence { f_run_id : string; f_owner : string; f_generation : Z }.
#[export] Instance Fence_eq_dec : EqDecision Fence.
Proof. solve_decision. Defined.

Inductive RunState :=
| SReady | SRunning | SWaiting | SCompleted | SFailed | SCancelled.
#[export] Instance RunState_eq_dec : EqDecision RunState.
Proof. solve_decision. Defined.

Record ChildLink := mkLink { l_parent : string; l_key : string; l_reference : string }.
#[export] Instance ChildLink_eq_dec : EqDecision ChildLink.
Proof. solve_decision. Defined.

(** [control::Hold]. *)
Record Hold := mkHold { h_actor : string; h_reason : string; h_note : string; h_at_ms : Z }.
#[export] Instance Hold_eq_dec : EqDecision Hold.
Proof. solve_decision. Defined.

Record SavedRun := mkRun {
  r_admission : Admission;
  r_state : RunState;
  r_fence : option Fence;
  r_generation : Z;
  r_lease_until_ms : option Z;
  r_wake_at_ms : Z;
  r_interruptions : Z;
  r_outcome : option Status;
  r_ended_ms : option Z;
  r_child : option ChildLink;
  r_admitted_ms : Z;
  r_epoch : option Z;
  r_root : option string;
  r_annotations : Totals;
  r_held : option Hold
}.
#[export] Instance eta_SavedRun : Eta SavedRun :=
  λ r, mkRun (r_admission r) (r_state r) (r_fence r) (r_generation r) (r_lease_until_ms r)
         (r_wake_at_ms r) (r_interruptions r) (r_outcome r) (r_ended_ms r) (r_child r)
         (r_admitted_ms r) (r_epoch r) (r_root r) (r_annotations r) (r_held r).
#[export] Instance SavedRun_eq_dec : EqDecision SavedRun.
Proof. solve_decision. Defined.

Record StoredEvent := mkEvent {
  e_type : string;
  e_data : value;
  e_delivered_at_ms : Z;
  e_consumed_key : option string;
  e_envelope : option value;
  e_delivered : bool;
  e_expires_at_ms : option Z
}.
#[export] Instance eta_StoredEvent : Eta StoredEvent :=
  λ r, mkEvent (e_type r) (e_data r) (e_delivered_at_ms r) (e_consumed_key r) (e_envelope r)
         (e_delivered r) (e_expires_at_ms r).
#[export] Instance StoredEvent_eq_dec : EqDecision StoredEvent.
Proof. solve_decision. Defined.

(** [Breaker] and [Overlap] of [crates/ows/src/model.rs]. *)
Inductive Breaker := Inherit | Off | Threshold (n : Z).
#[export] Instance Breaker_eq_dec : EqDecision Breaker.
Proof. solve_decision. Defined.
Definition effective (b : Breaker) (default : Z) : option Z :=
  match b with
  | Inherit => Some (Z.max default 1)
  | Off => None
  | Threshold n => Some (Z.max n 1)
  end.
Inductive Overlap := Skip | Allow | Queue | Replace.
#[export] Instance Overlap_eq_dec : EqDecision Overlap.
Proof. solve_decision. Defined.

(** [Definition] (a stored version). *)
Record DefinitionV := mkDefinition {
  d_name : string;
  d_version : Z;
  d_yaml : string;
  d_digest : string;
  d_breaker : Breaker
}.
#[export] Instance DefinitionV_eq_dec : EqDecision DefinitionV.
Proof. solve_decision. Defined.

Record ManualTrip := mkManual { m_actor : string; m_reason : string; m_note : string }.
#[export] Instance ManualTrip_eq_dec : EqDecision ManualTrip.
Proof. solve_decision. Defined.

Record Trip := mkTrip {
  t_manual : option ManualTrip;
  t_breaker : bool;
  t_version : Z;
  t_digest : string;
  t_epoch : Z;
  t_faults : Z;
  t_threshold : Z;
  t_run : string;
  t_reason : WorkflowError;
  t_at_ms : Z
}.
#[export] Instance eta_Trip : Eta Trip :=
  λ r, mkTrip (t_manual r) (t_breaker r) (t_version r) (t_digest r) (t_epoch r) (t_faults r)
         (t_threshold r) (t_run r) (t_reason r) (t_at_ms r).
#[export] Instance Trip_eq_dec : EqDecision Trip.
Proof. solve_decision. Defined.

Record Activation := mkActivation { ac_at_ms : Z; ac_actor : option string; ac_note : option string }.
Definition activation_at (at_ms : Z) : Activation := mkActivation at_ms None None.
Record Activated := mkActivated {
  ad_epoch : Z; ad_at_ms : Z; ad_actor : option string; ad_note : option string }.
#[export] Instance Activated_eq_dec : EqDecision Activated.
Proof. solve_decision. Defined.

Record Definitions := mkDefinitions {
  versions : gmap Z DefinitionV;
  active : option Z;
  consecutive_faults : Z;
  epoch : Z;
  tripped : option Trip;
  triggers : list string;
  activations : gmap Z Activated
}.
#[export] Instance eta_Definitions : Eta Definitions :=
  λ r, mkDefinitions (versions r) (active r) (consecutive_faults r) (epoch r) (tripped r)
         (triggers r) (activations r).
#[export] Instance Definitions_eq_dec : EqDecision Definitions.
Proof. solve_decision. Defined.
Definition default_definitions : Definitions := mkDefinitions ∅ None 0 0 None [] ∅.

Record DefinitionTripped := mkTripped {
  dt_name : string; dt_epoch : Z; dt_version : Z; dt_faults : Z; dt_paused : bool }.
(** [Trip::refusal]. *)
Definition refusal (t : Trip) (name : string) : DefinitionTripped :=
  mkTripped name (t_epoch t) (t_version t) (t_faults t) (bool_decide (is_Some (t_manual t))).
Definition TRIPPED : string := "ouro.definition.tripped".
Definition TRIPPED_ERROR : string := "urn:ouro:errors:definition.tripped".
(** [Display for DefinitionTripped], [DefinitionTripped::error]. *)
Definition tripped_display (t : DefinitionTripped) : string :=
  if dt_paused t then
    dt_name t +:+ " is paused by an operator in epoch " +:+ pretty (dt_epoch t) +:+
    ": no version is admitted until it is resumed or a version is activated"
  else
    dt_name t +:+ " is tripped in epoch " +:+ pretty (dt_epoch t) +:+ ": version " +:+
    pretty (dt_version t) +:+ " faulted " +:+ pretty (dt_faults t) +:+
    " times in a row; activate a version to resume".
Definition tripped_error (t : DefinitionTripped) : WorkflowError :=
  mkError TRIPPED_ERROR 409 (Some "Definition Tripped") (Some (tripped_display t)) None.

(** ** Triggers and firings *)

Record Trigger := mkTrigger { tg_at_ms : option Z; tg_types : list string; tg_state : value }.
#[export] Instance eta_Trigger : Eta Trigger :=
  λ r, mkTrigger (tg_at_ms r) (tg_types r) (tg_state r).
#[export] Instance Trigger_eq_dec : EqDecision Trigger.
Proof. solve_decision. Defined.
Record Rearm := mkRearm { ra_trigger : string; ra_delay_ms : Z }.
#[export] Instance Rearm_eq_dec : EqDecision Rearm.
Proof. solve_decision. Defined.
Record Refused := mkRefused {
  rf_admission : Admission; rf_error : WorkflowError; rf_breaker_threshold : Z }.
Record OverlapGuard := mkGuard {
  og_policy : Overlap; og_max_concurrent_runs : nat; og_ceiling : Trigger }.
Record Firing := mkFiring {
  fi_key : string;
  fi_expected : option Trigger;
  fi_next : option Trigger;
  fi_admit : list Admission;
  fi_rearm : option Rearm;
  fi_ingress : option value;
  fi_busy : option Trigger;
  fi_refused : option Refused;
  fi_overlap : option OverlapGuard
}.
Inductive Fired := FCommitted | FChanged | FBusy (run : string) | FIngested | FQueued | FCeiling.
#[export] Instance Fired_eq_dec : EqDecision Fired.
Proof. solve_decision. Defined.

Record Swept := mkSwept { sw_records : nat; sw_expired : nat; sw_tombstones : nat; sw_workers : nat }.
#[export] Instance eta_Swept : Eta Swept :=
  λ r, mkSwept (sw_records r) (sw_expired r) (sw_tombstones r) (sw_workers r).

(** ** Operator commands *)

Definition MAX_PAGE : nat := 1000.
Definition REDACTED : string := "<redacted>".
Definition WORKERS_KEPT_MS : Z := 24 * 3600000.
Definition TOTALS_BUCKET_MS : Z := 3600000.
Definition MAX_TOTALS_BUCKETS : nat := MAX_PAGE.

Record Request := mkRequest { rq_id : string; rq_actor : string; rq_reason : string }.
#[export] Instance Request_eq_dec : EqDecision Request.
Proof. solve_decision. Defined.
Inductive Command :=
| CmdCancel (run : string)
| CmdPause (definition note : string)
| CmdResume (definition : string)
| CmdHold (run note : string)
| CmdRelease (run : string)
| CmdStop (enabled : bool)
| CmdRespond (run wait : string) (event : value).
#[export] Instance Command_eq_dec : EqDecision Command.
Proof. solve_decision. Defined.
Inductive Reply := Changed (changed : bool) | Responded (recipient : option string).
#[export] Instance Reply_eq_dec : EqDecision Reply.
Proof. solve_decision. Defined.
Record Applied := mkApplied { reply : Reply; repeated : bool }.
Record Entry := mkControlEntry {
  en_request : Request; en_command : Command; en_at_ms : Z; en_reply : Reply }.
#[export] Instance Entry_eq_dec : EqDecision Entry.
Proof. solve_decision. Defined.
Record Worker := mkWorker {
  wk_id : string;
  wk_host : option string;
  wk_application : option string;
  wk_started_ms : Z;
  wk_beat_ms : Z;
  wk_expires_ms : Z;
  wk_held : Z
}.
#[export] Instance Worker_eq_dec : EqDecision Worker.
Proof. solve_decision. Defined.
Record Cursor := mkCursor { cu_query : string; cu_after : string }.
Record Page (A : Type) := mkPage { items : list A; next : option Cursor }.
Arguments mkPage {A} items next.
Arguments items {A} _.
Arguments next {A} _.
(** [control::Wait]: an open wait as the control queries list it. *)
Record Wait := mkControlWait {
  cw_run : string; cw_definition : string; cw_key : string; cw_waiting : PendingWait }.
#[export] Instance Wait_eq_dec : EqDecision Wait.
Proof. solve_decision. Defined.

Inductive Entity := EntityRun | EntityDefinition.
(** [control::ControlError], the variants a store raises. *)
Inductive ControlError :=
| NotFound (entity : Entity) (id : string)
| RequestConflict (id : string)
| ResponseConflict (identity : string)
| InvalidState (message : string)
| WaitClosed (run wait : string)
| WaitMismatch (run wait : string)
| InvalidInput (message : string).

(** What [anyhow::Error] carries: the typed errors a caller can recover, and
    plain messages. [EFuel] is not an error of the program: it ends a loop of the
    model whose fuel ran out. *)
Inductive error :=
| EMsg (message : string)
| EMismatch (m : AdmissionMismatch)
| ETripped (t : DefinitionTripped)
| EIdentityConflict (identity : string)
| EStopped
| EHeld (run : string)
| EControl (e : ControlError)
| EReadOnly
| EReadOnlyTransaction
| EConflict
| ECorrupt
| EFuel.

(** ** Stored rows *)

(** [Pending]: a type's pending copies, and of them the CloudEvents. *)
Record PendingCount := mkPending { copies : Z; cloud : Z }.
#[export] Instance eta_PendingCount : Eta PendingCount := λ r, mkPending (copies r) (cloud r).
#[export] Instance PendingCount_eq_dec : EqDecision PendingCount.
Proof. solve_decision. Defined.

Record StoredRun := mkStored {
  s_version : Z;
  s_run : SavedRun;
  s_digest : string;
  s_awaits : gmap string Z;
  s_listeners : gmap string (list string);
  s_subscriptions : gmap string (list string);
  s_waits : gmap string PendingWait;
  s_budget_ended : option Z;
  s_addressed_waits : gset string;
  s_rearm : option (Rearm * Trigger);
  s_trigger : option string;
  s_accepted : Z;
  s_pending : gmap string PendingCount;
  s_published : Z;
  s_mailbox : option Z;
  s_evidence : bool
}.
#[export] Instance eta_StoredRun : Eta StoredRun :=
  λ r, mkStored (s_version r) (s_run r) (s_digest r) (s_awaits r) (s_listeners r)
         (s_subscriptions r) (s_waits r) (s_budget_ended r) (s_addressed_waits r) (s_rearm r)
         (s_trigger r) (s_accepted r) (s_pending r) (s_published r) (s_mailbox r) (s_evidence r).
#[export] Instance StoredRun_eq_dec : EqDecision StoredRun.
Proof. solve_decision. Defined.
(** The id a run row is stored under. *)
Definition run_id (s : StoredRun) : string := a_id (r_admission (s_run s)).

Record Bucket := mkBucket { b_runs : Z; b_annotations : Totals }.
#[export] Instance Bucket_eq_dec : EqDecision Bucket.
Proof. solve_decision. Defined.
Record Tombstone := mkTombstone { ts_payload : value; ts_expires_at_ms : Z }.
#[export] Instance Tombstone_eq_dec : EqDecision Tombstone.
Proof. solve_decision. Defined.
Record Queued := mkQueued {
  q_version : Z;
  q_admission : Admission;
  q_rearm : option Rearm;
  q_max_concurrent_runs : nat;
  q_failure : option (WorkflowError * Z)
}.
#[export] Instance Queued_eq_dec : EqDecision Queued.
Proof. solve_decision. Defined.
(** [control::Paused]. *)
Record Paused := mkPaused {
  pa_epoch : Z; pa_triggers : gmap string Trigger; pa_queues : gmap string Queued }.
#[export] Instance Paused_eq_dec : EqDecision Paused.
Proof. solve_decision. Defined.
