(* ===== verification/Store.v ===== *)
(** * Transactions over ordered rows

    [crates/durable/src/backend.rs]. A transaction is a program of the
    operations of the [Transaction] trait ([prog], a free monad); its meaning
    over one consistent set of rows is [exec]. Adapters give other meanings to
    the same programs (see [Memory]); the engine is written against the
    operations only. A row is a [cell]: the value one of the engine's row types
    serializes to. [Row] is the interface serde's derived code implements for
    each of them. *)
From S2P Require Import Prelude Json Outcome Journal Listen Types.

Abbreviation Key := (string * string)%type.

(** The stored rows, by type. [CDefinitions] carries the layout number the
    engine adds to a definitions row; [CJson] is any other JSON. *)
Inductive cell :=
| CRun (s : StoredRun)
| CDefinitions (layout : option Z) (d : Definitions)
| CRecord (r : JRecord)
| CEvent (e : StoredEvent)
| CTrigger (t : Trigger)
| CQueued (q : Queued)
| CPaused (p : Paused)
| CEntry (e : Entry)
| CWorker (w : Worker)
| CBucket (b : Bucket)
| CTombstone (t : Tombstone)
| CWait (w : Wait)
| CJson (v : value).
#[export] Instance cell_eq_dec : EqDecision cell.
Proof. solve_decision. Defined.

(** The instances are given, so that stating a lemma resolves none. *)
Abbreviation rows :=
  (@gmap (string * string) (@prod_eq_dec string String.eq_dec string String.eq_dec)
     (@prod_countable string String.eq_dec String.countable string String.eq_dec String.countable)
     cell).

(** What serde's derived implementations provide for a row type. *)
Class Row (T : Type) := {
  to_cell : T → cell;
  of_cell : cell → option T;
  of_to_cell : ∀ x, of_cell (to_cell x) = Some x
}.
#[export] Instance row_record : Row JRecord.
Proof.
  by refine {| to_cell := CRecord; of_cell c := match c with CRecord x => Some x | _ => None end |}.
Defined.
#[export] Instance row_event : Row StoredEvent.
Proof.
  by refine {| to_cell := CEvent; of_cell c := match c with CEvent x => Some x | _ => None end |}.
Defined.
#[export] Instance row_trigger : Row Trigger.
Proof.
  by refine {| to_cell := CTrigger; of_cell c := match c with CTrigger x => Some x | _ => None end |}.
Defined.
#[export] Instance row_queued : Row Queued.
Proof.
  by refine {| to_cell := CQueued; of_cell c := match c with CQueued x => Some x | _ => None end |}.
Defined.
#[export] Instance row_paused : Row Paused.
Proof.
  by refine {| to_cell := CPaused; of_cell c := match c with CPaused x => Some x | _ => None end |}.
Defined.
#[export] Instance row_entry : Row Entry.
Proof.
  by refine {| to_cell := CEntry; of_cell c := match c with CEntry x => Some x | _ => None end |}.
Defined.
#[export] Instance row_worker : Row Worker.
Proof.
  by refine {| to_cell := CWorker; of_cell c := match c with CWorker x => Some x | _ => None end |}.
Defined.
#[export] Instance row_bucket : Row Bucket.
Proof.
  by refine {| to_cell := CBucket; of_cell c := match c with CBucket x => Some x | _ => None end |}.
Defined.
#[export] Instance row_tombstone : Row Tombstone.
Proof.
  by refine {| to_cell := CTombstone; of_cell c := match c with CTombstone x => Some x | _ => None end |}.
Defined.
#[export] Instance row_wait : Row Wait.
Proof.
  by refine {| to_cell := CWait; of_cell c := match c with CWait x => Some x | _ => None end |}.
Defined.
#[export] Instance row_run : Row StoredRun.
Proof.
  by refine {| to_cell := CRun; of_cell c := match c with CRun x => Some x | _ => None end |}.
Defined.
#[export] Instance row_json : Row value.
Proof.
  by refine {| to_cell := CJson; of_cell c := match c with CJson x => Some x | _ => None end |}.
Defined.
#[export] Instance row_string : Row string.
Proof.
  by refine {| to_cell s := CJson (VStr s);
  of_cell c := match c with CJson (VStr s) => Some s | _ => None end |}.
Defined.
#[export] Instance row_bool : Row bool.
Proof.
  by refine {| to_cell b := CJson (VBool b);
  of_cell c := match c with CJson (VBool b) => Some b | _ => None end |}.
Defined.
(** A JSON integer. *)
Definition z_of_number (n : number) : option Z :=
  match n with PosInt z | NegInt z => Some z | Float _ => None end.
#[export] Instance row_int : Row Z.
Proof.
  refine {| to_cell z := CJson (vint z);
  of_cell c := match c with CJson (VNum n) => z_of_number n | _ => None end |}.
  intros z. cbn. unfold Num.of_z. by destruct (decide (0 ≤ z)).
Defined.
(** The pair [(expiry, sequence)] of a mailbox index row. *)
#[export] Instance row_pair : Row (Z * Z).
Proof.
  refine {| to_cell p := CJson (VArr [vint p.1; vint p.2]);
  of_cell c := match c with
    | CJson (VArr [VNum a; VNum b]) => x ← z_of_number a; y ← z_of_number b; Some (x, y)
    | _ => None end |}.
  intros [a b]. cbn. unfold Num.of_z.
  by destruct (decide (0 ≤ a)), (decide (0 ≤ b)).
Defined.

(** ** Programs *)

Inductive op :=
| OGet (kind id : string)
| OScan (kind start : string) (end_ : option string) (limit : option nat)
| OPut (kind id : string) (c : cell)
| ODelete (kind id : string).

(** The answer of an operation. A scan's limit [None] is [usize::MAX], which no
    store reaches; its rows come in key order. *)
Definition answer (o : op) : Type :=
  match o with
  | OGet _ _ => option cell
  | OScan _ _ _ _ => list (string * cell)
  | OPut _ _ _ | ODelete _ _ => unit
  end.

Inductive prog (A : Type) :=
| PRet (a : A)
| PFail (e : error)
| POp (o : op) (k : answer o → prog A).
Arguments PRet {A} a.
Arguments PFail {A} e.
Arguments POp {A} o k.

Fixpoint prog_bind_ {A B} (f : A → prog B) (p : prog A) : prog B :=
  match p with
  | PRet a => f a
  | PFail e => PFail e
  | POp o k => POp o (λ x, prog_bind_ f (k x))
  end.
#[export] Instance prog_ret : MRet prog := @PRet.
#[export] Instance prog_bind : MBind prog := λ A B f p, prog_bind_ f p.

(** ** Rows in order *)

Definition in_range (start : string) (end_ : option string) (id : string) : bool :=
  str_leb start id && is_none_or end_ (λ e, str_ltb id e).
Definition limited {A} (limit : option nat) (l : list A) : list A :=
  match limit with Some n => take n l | None => l end.
(** The rows of a kind with ids in [start, end), in id order, at most [limit]. *)
Definition rows_of (r : rows) (kind start : string) (end_ : option string) : list (string * cell) :=
  merge_sort key_le (omap (λ '((k, id), c),
    if decide (k = kind ∧ in_range start end_ id) then Some (id, c) else None) (map_to_list r)).
Definition scan_rows (r : rows) (kind start : string) (end_ : option string) (limit : option nat)
    : list (string * cell) :=
  limited limit (rows_of r kind start end_).

Definition exec_op (r : rows) (o : op) : answer o * rows :=
  match o with
  | OGet kind id => (r !! (kind, id), r)
  | OScan kind start end_ limit => (scan_rows r kind start end_ limit, r)
  | OPut kind id c => (tt, <[(kind, id) := c]> r)
  | ODelete kind id => (tt, delete (kind, id) r)
  end.

(** The meaning of a transaction over the rows it starts from. *)
Fixpoint exec {A} (p : prog A) (r : rows) : result error (A * rows) :=
  match p with
  | PRet a => Ok (a, r)
  | PFail e => Err e
  | POp o k => let '(x, r') := exec_op r o in exec (k x) r'
  end.

(** [ReadTransaction]: the same program, its mutations refused. *)
Fixpoint guarded {A} (p : prog A) : prog A :=
  match p with
  | PRet a => PRet a
  | PFail e => PFail e
  | POp o k =>
      match o as o return (answer o → prog A) → prog A with
      | OPut _ _ _ | ODelete _ _ => λ _, PFail EReadOnlyTransaction
      | o => λ k, POp o (λ x, guarded (k x))
      end k
  end.

(** The store's answer and rows after an operation: it commits whole or
    leaves the rows as they were. A read-only backend refuses [update]. *)
Definition committed {A} (p : prog A) (r : rows) : result error A * rows :=
  match exec p r with Ok (a, r') => (Ok a, r') | Err e => (Err e, r) end.
Definition update {A} (read_only : bool) (p : prog A) (r : rows) : result error A * rows :=
  if read_only then (Err EReadOnly, r) else committed p r.
Definition read {A} (p : prog A) (r : rows) : result error A * rows := committed (guarded p) r.

(** ** The engine's helpers over the operations *)

Definition get_cell (kind id : string) : prog (option cell) := POp (OGet kind id) PRet.
Definition scan (kind start : string) (end_ : option string) (limit : option nat)
    : prog (list (string * cell)) := POp (OScan kind start end_ limit) PRet.
Definition put_cell (kind id : string) (c : cell) : prog unit := POp (OPut kind id c) PRet.
Definition delete_row (kind id : string) : prog unit := POp (ODelete kind id) PRet.

(** [serde_json::from_value]. *)
Definition decode {T} `{Row T} (c : cell) : prog T :=
  match of_cell c with Some x => PRet x | None => PFail ECorrupt end.
(** [get] and [put] of the engine. *)
Definition get {T} `{Row T} (kind id : string) : prog (option T) :=
  c ← get_cell kind id;
  match c with Some c => x ← decode c; mret (Some x) | None => mret None end.
Definition put {T} `{Row T} (kind id : string) (x : T) : prog unit := put_cell kind id (to_cell x).

(** [anyhow::ensure!], [?] on an option and on a [Result]. *)
Definition ensure (b : bool) (e : error) : prog unit := if b then PRet () else PFail e.
Definition some_or {A} (o : option A) (e : error) : prog A :=
  match o with Some a => PRet a | None => PFail e end.
Definition lift {A} (r : result error A) : prog A :=
  match r with Ok a => PRet a | Err e => PFail e end.

Fixpoint for_each {A} (l : list A) (f : A → prog unit) : prog unit :=
  match l with [] => PRet () | x :: l => _ ← f x; for_each l f end.
Fixpoint fold_each {A S} (l : list A) (s : S) (f : S → A → prog S) : prog S :=
  match l with [] => PRet s | x :: l => s ← f s x; fold_each l s f end.
Fixpoint map_each {A B} (l : list A) (f : A → prog B) : prog (list B) :=
  match l with [] => PRet [] | x :: l => y ← f x; ys ← map_each l f; mret (y :: ys) end.

(** [changes]: the writes that turn the rows [before] into [after]. *)
Definition changes (before after : gmap Key cell) : list (Key * option cell) :=
  ((λ '(k, v), (k, Some v)) <$>
     filter (λ '(k, v), before !! k ≠ Some v) (map_to_list after)) ++
  ((λ k, (k, None)) <$> filter (λ k, after !! k = None) (map_to_list before).*1).
Definition apply_change (c : Key * option cell) : prog unit :=
  match c with
  | ((kind, id), Some v) => put_cell kind id v
  | ((kind, id), None) => delete_row kind id
  end.

(** [AtomicBackend::compare_exchange] over rows read and written in one
    transaction: [false] when a row of [before] is not as given. *)
Fixpoint unchanged (l : list (Key * cell)) : prog bool :=
  match l with
  | [] => mret true
  | ((kind, id), c) :: l =>
      v ← get_cell kind id;
      if decide (v = Some c) then unchanged l else mret false
  end.
Definition compare_exchange (before after : gmap Key cell) : prog bool :=
  same ← unchanged (map_to_list before);
  if (same : bool) then _ ← for_each (changes before after) apply_change; mret true
  else mret false.
