(* ===== verification/Index.v ===== *)
(** * Run rows and their index keys

    [crates/durable/src/engine.rs], section 1: the rows a run is stored in, the
    index keys derived from its row, and how a write moves them. *)
From S2P Require Import Prelude Json Keys Outcome Journal Listen Types Store.

(** [Vec::dedup]: equal neighbours collapse. *)
Fixpoint dedup (l : list string) : list string :=
  match l with
  | x :: ((y :: _) as l') => if decide (x = y) then dedup l' else x :: dedup l'
  | l => l
  end.

Definition run_kinds (r : SavedRun) (history : bool) : list string :=
  let base := if history then "control_end" else "control_run" in
  [base; partition base (a_name (r_admission r))].
Definition wait_kinds (w : Wait) : list string :=
  let name := partition "control_wait_definition" (cw_definition w) in
  dedup (merge_sort String.le
    (["control_wait"; name; partition "control_wait_run" (cw_run w)] ++
     (w_types (cw_waiting w) ≫= λ t,
        [partition "control_wait_type" t; name +:+ ":type:" +:+ component t]))).

Section indexes.
Variable s : StoredRun.
Let r : SavedRun := s_run s.
Let id : string := run_id s.
Let v : cell := to_cell id.
Let started : string := timed (r_admitted_ms r) id.

Definition wait_rows : list (Key * cell) :=
  entries (s_waits s) ≫= λ '(k, w),
    let entry := mkControlWait id (a_name (r_admission r)) k w in
    let index := timed (w_since_ms w) (component id +:+ ":" +:+ component k) in
    (λ kind, ((kind, index), to_cell entry)) <$> wait_kinds entry.
(** When the run is due, unless an operator holds it. *)
Definition due_at : option Z :=
  if decide (is_Some (r_held r)) then None
  else if decide (r_state r = SRunning) then r_lease_until_ms r
  else Some (r_wake_at_ms r).
Definition due_rows : list (Key * cell) :=
  match due_at with
  | None => []
  | Some due =>
      [(("due", timed due id), v);
       ((partition "due_app" (default "" (application_version (r_admission r))), timed due id), v)]
  end.
(** A child's automatic waiting registration needs no competing delivery. *)
Definition internal_wait (t : string) : bool :=
  is_some_and (strip_prefix "waiting:" t)
    (λ c, bool_decide (is_Some (s_listeners s !! ("child:" +:+ c)))).
Definition competing (t : string) : bool :=
  bool_decide (s_pending s !! t = None) &&
  (negb (internal_wait t) || bool_decide (t ∈ s_addressed_waits s)).
Definition await_rows : list (Key * cell) :=
  if decide (is_Some (r_held r)) then []
  else omap (λ '(t, at_), if competing t then Some ((partition "wait" t, timed at_ id), v) else None)
         (entries (s_awaits s)).
Definition child_rows : list (Key * cell) :=
  match r_child r with
  | Some link => [((partition "children" (l_parent link), id), v)]
  | None => []
  end.
Definition live_rows : list (Key * cell) :=
  [((partition "live_name" (a_name (r_admission r)), id), v)] ++
  match s_trigger s with Some t => [((partition "trigger_live" t, id), v)] | None => [] end ++
  due_rows ++ child_rows ++ await_rows ++
  ((λ t, ((partition "subs" t, id), v)) <$> concat (values (s_subscriptions s))) ++
  match s_mailbox s with Some at_ => [(("mailbox", timed at_ id), v)] | None => [] end.
Definition index_rows : list (Key * cell) :=
  [((partition "name" (a_name (r_admission r)), id), v)] ++
  ((λ kind, ((kind, started), v)) <$> run_kinds r false) ++
  match r_ended_ms r with
  | Some at_ => (λ kind, ((kind, timed at_ id), v)) <$> run_kinds r true
  | None => []
  end ++
  match r_child r with
  | Some link => [((partition "control_parent" (l_parent link), started), v)]
  | None => []
  end ++
  wait_rows ++
  match r_ended_ms r with
  | None => live_rows
  | Some at_ => if s_evidence s then [(("finished", timed at_ id), v)] else []
  end.
(** [indexes]. *)
Definition indexes : gmap Key cell := foldl (λ m '(k, c), <[k := c]> m) ∅ index_rows.
End indexes.

(** ** Reading and storing runs *)

(** [stored_run]: a row of another durable state version is refused. *)
Definition stored_run (c : cell) : prog StoredRun :=
  match c with
  | CRun s => _ ← ensure (bool_decide (s_version s = VERSION)) (EMsg "unsupported durable state version");
              mret s
  | _ => PFail (EMsg "unsupported durable state version")
  end.
Definition find_run (id : string) : prog (option StoredRun) :=
  c ← get_cell "run" id;
  match c with Some c => s ← stored_run c; mret (Some s) | None => mret None end.
Definition run (id : string) : prog StoredRun :=
  s ← find_run id; some_or s (EMsg ("unknown run " +:+ id)).

Definition store_run_indexed (snapshot : StoredRun) (before : gmap Key cell) : prog unit :=
  _ ← for_each (changes before (indexes snapshot)) apply_change;
  put "run" (run_id snapshot) snapshot.
Definition store_run (snapshot : StoredRun) : prog unit :=
  old ← find_run (run_id snapshot);
  store_run_indexed snapshot (match old with Some o => indexes o | None => ∅ end).

(** An index row's value names a run. *)
Definition index_id (c : cell) : option string :=
  match c with CJson (VStr s) => Some s | _ => None end.
Definition indexed_runs (kind start : string) (end_ : option string) (limit : option nat)
    : prog (list StoredRun) :=
  found ← scan kind start end_ limit;
  map_each found (λ '(_, c), id ← some_or (index_id c) (EMsg "invalid run index"); run id).

(** ** Definitions *)

Definition DEFINITIONS_VERSION : Z := 7.
Definition decode_definitions (c : cell) : prog Definitions :=
  match c with
  | CDefinitions (Some layout) d =>
      _ ← ensure (bool_decide (layout = DEFINITIONS_VERSION)) (EMsg "unsupported layout of a definitions row");
      mret d
  | _ => PFail (EMsg "unsupported layout of a definitions row")
  end.
Definition load_definitions (name : string) : prog (option Definitions) :=
  c ← get_cell "definitions" name;
  match c with Some c => d ← decode_definitions c; mret (Some d) | None => mret None end.
Definition store_definitions (name : string) (defs : Definitions) : prog unit :=
  put_cell "definitions" name (CDefinitions (Some DEFINITIONS_VERSION) defs).

Definition bucket_start (ms : Z) : Z := sat_sub64 ms (ms mod TOTALS_BUCKET_MS).

(** [identity]: [source] and [id] joined by NUL, when the event has both. *)
Definition nul : string := String Ascii.zero "".
Definition event_text (event : value) (k : string) : option string :=
  s ← vget k event ≫= as_str; if decide (s = "") then None else Some s.
Definition identity (event : value) : option string :=
  source ← event_text event "source"; id ← event_text event "id"; Some (source +:+ nul +:+ id).
(** [str::replace] of NUL by a slash: how an identity is shown. *)
Fixpoint show_identity (s : string) : string :=
  match s with
  | EmptyString => ""
  | String c s => String (if decide (c = Ascii.zero) then Ascii.ascii_of_N 47 else c) (show_identity s)
  end.
(** [payload]: the event without its [time]. *)
Definition payload (event : value) : value :=
  match event with VObj m => VObj (delete "time" m) | v => v end.
