(* ===== verification/Admit.v ===== *)
(** * Admission, leases and compatibility

    [crates/durable/src/engine.rs], section 2. *)
From S2P Require Import Prelude Json Keys Outcome Journal Listen Types Store Index.

(** The current owner's authority: it acts only while its lease has more than
    the skew bound left. *)
Definition owns (s : StoredRun) (fence : Fence) (now skew : Z) : bool :=
  bool_decide (r_state (s_run s) = SRunning)
  && bool_decide (r_fence (s_run s) = Some fence)
  && is_some_and (r_lease_until_ms (s_run s)) (λ until, bool_decide (sat_add64 now skew < until)).
Definition authority (fence : Fence) (now skew : Z) : prog StoredRun :=
  snapshot ← run (f_run_id fence);
  _ ← ensure (owns snapshot fence now skew)
        (EMsg ("run " +:+ f_run_id fence +:+ " lease expired or was replaced"));
  mret snapshot.
Definition is_stopped : prog bool :=
  b ← get (T := bool) "control" "stopped"; mret (default false b).
Definition running : prog unit :=
  b ← is_stopped; if (b : bool) then PFail EStopped else mret ().
Definition not_held (s : StoredRun) : prog unit :=
  if decide (is_Some (r_held (s_run s))) then PFail (EHeld (run_id s)) else mret ().
(** Every fenced step. *)
Definition checked (fence : Fence) (now skew : Z) : prog StoredRun :=
  _ ← running;
  s ← authority fence now skew;
  _ ← not_held s;
  mret s.

Definition claimable (r : SavedRun) (now : Z) : bool :=
  if decide (is_Some (r_held r)) then false
  else match r_state r with
  | SReady | SWaiting => bool_decide (r_wake_at_ms r ≤ now)
  | SRunning => is_some_and (r_lease_until_ms r) (λ at_, bool_decide (at_ ≤ now))
  | _ => false
  end.
(** The row and the fence of a claim by [owner]. *)
Definition claim_run (snapshot : StoredRun) (now : Z) (owner : string) : prog (StoredRun * Fence) :=
  let r := s_run snapshot in
  generation ← some_or (checked_addu64 (r_generation r) 1) (EMsg "fence generation overflow");
  let wake := match r_state r, r_lease_until_ms r with
              | SRunning, Some until => until
              | _, _ => r_wake_at_ms r
              end in
  let fence := mkFence (a_id (r_admission r)) owner generation in
  let r := r <| r_generation := generation |> <| r_wake_at_ms := wake |>
             <| r_fence := Some fence |>
             <| r_lease_until_ms := Some (sat_add64 now LEASE_MS) |>
             <| r_state := SRunning |> in
  mret (snapshot <| s_run := r |>, fence).

(** [digest]: the admitted version's digest as the catalog stores it. *)
Definition digest (defs : option Definitions) (a : Admission) : string :=
  default "" (d ← defs; v ← versions d !! a_version a; Some (d_digest v)).
(** [barred]: the refusal a standing trip gives a new run. *)
Definition barred (defs : option Definitions) (a : Admission) : option DefinitionTripped :=
  d ← defs;
  trip ← tripped d;
  let dg := digest defs a in
  if decide (is_Some (t_manual trip) ∨ dg = "" ∨ dg = t_digest trip)
  then Some (refusal trip (a_name a)) else None.

Inductive Join := JoinRoot | JoinChild.
(** What an admission of a stored run must agree on. *)
Definition join_check (stored : Admission) (a : Admission) (join : Join) : result AdmissionMismatch unit :=
  match join with
  | JoinRoot => joins stored (a_name a) (if pinned a then Some (a_version a) else None) (host a)
  | JoinChild => joins stored (a_name a) None (host stored)
  end.
(** The row a new run starts with. *)
Definition fresh_run (a : Admission) (defs : option Definitions) (now : Z) : StoredRun :=
  let epoch_ := (d ← defs; if decide (active d = Some (a_version a)) then Some (epoch d) else None) in
  mkStored VERSION
    (mkRun a SReady None 0 None now 0 None None None now epoch_ None ∅ None)
    (digest defs a) ∅ ∅ ∅ ∅ None ∅ None None 0 ∅ 0 None false.
(** [admitted]: the fresh row, or [None] for a run already admitted. *)
Definition admitted (a : Admission) (now : Z) (join : Join) : prog (option StoredRun) :=
  existing ← find_run (a_id a);
  match existing with
  | Some existing =>
      match join_check (r_admission (s_run existing)) a join with
      | Ok _ => mret None
      | Err m => PFail (EMismatch m)
      end
  | None =>
      _ ← running;
      defs ← load_definitions (a_name a);
      match barred defs a with
      | Some refusal => PFail (ETripped refusal)
      | None => mret (Some (fresh_run a defs now))
      end
  end.
Definition insert_run (a : Admission) (now : Z) : prog bool :=
  snapshot ← admitted a now JoinRoot;
  match snapshot with
  | None => mret false
  | Some snapshot => _ ← store_run snapshot; mret true
  end.
(** [drained_refusal]: the refusal after a deferred drain tripped the definition. *)
Definition drained_refusal (drained : bool) (a : Admission) : prog (option error) :=
  if negb drained then mret None
  else
    existing ← find_run (a_id a);
    match existing with
    | Some _ => mret None
    | None =>
        defs ← load_definitions (a_name a);
        mret (ETripped <$> barred defs a)
    end.

(** [close]: awaits no listener names any more. *)
Definition still_listened (s : StoredRun) (t : string) : bool :=
  existsb (λ types, bool_decide (t ∈ types)) (values (s_listeners s)).
Definition close (s : StoredRun) (types : list string) : StoredRun :=
  foldl (λ s t,
    if still_listened s t then s
    else s <| s_awaits ::= delete t |> <| s_addressed_waits ::= λ w, w ∖ {[t]} |>) s types.
