(* ===== verification/Mailbox.v ===== *)
(** * Events of a run

    [crates/durable/src/engine.rs], section 3: delivery, the mailbox,
    publication and expiry. A run's copies are rows of their own, in arrival
    order, with index rows while they are pending and counters in the run row. *)
From S2P Require Import Prelude Json Keys Outcome Journal Listen Types Store Index Admit.

Definition expired (e : StoredEvent) (now : Z) : bool :=
  is_some_and (e_expires_at_ms e) (λ at_, bool_decide (at_ ≤ now)).
(** Taken as a wildcard subscription's event: published, not delivered. *)
Definition published (e : StoredEvent) : bool :=
  bool_decide (is_Some (e_envelope e)) && negb (e_delivered e).
Definition subscribed (s : StoredRun) (e : StoredEvent) : bool :=
  bool_decide (is_Some (e_envelope e)) &&
  existsb (λ types, bool_decide (e_type e ∈ types)
                    || (published e && existsb (λ t, bool_decide (t = "*")) types))
    (values (s_subscriptions s)).
(** Whether a pending copy of [t] wakes the run. *)
Definition wakes (s : StoredRun) (t : string) (cloud : bool) : bool :=
  if cloud then bool_decide (is_Some (s_awaits s !! t))
  else bool_decide (t ∈ s_addressed_waits s) ||
       existsb (λ '(k, types), negb (starts_with "child:" k)
                               && existsb (λ t', bool_decide (t' = t)) types)
         (entries (s_listeners s)).
Definition is_cloud (e : StoredEvent) : bool := bool_decide (is_Some (e_envelope e)).
Definition wanted (s : StoredRun) (e : StoredEvent) (now : Z) : bool :=
  bool_decide (e_consumed_key e = None) && negb (expired e now)
  && (wakes s (e_type e) (is_cloud e) || subscribed s e).

Definition live_key (n : Z) (e : StoredEvent) : string :=
  match e_expires_at_ms e with
  | Some at_ => timed at_ (sequence n)
  | None => "~:" +:+ sequence n
  end.
(** The index rows of a pending copy. *)
Definition pending_rows (run : string) (n : Z) (e : StoredEvent) : list (Key * cell) :=
  [((pending_of run (e_type e), sequence n), to_cell n);
   ((live_of run (e_type e), live_key n e), to_cell (is_cloud e))] ++
  (if published e then
     [((published_of run, sequence n), to_cell n);
      ((live_published_of run, live_key n e), to_cell n)]
   else []) ++
  match e_expires_at_ms e with
  | Some at_ => [((expiring_of run, timed at_ (sequence n)), to_cell (at_, n))]
  | None => []
  end.
Definition put_row (x : Key * cell) : prog unit := put_cell x.1.1 x.1.2 x.2.
Definition drop_row (x : Key * cell) : prog unit := delete_row x.1.1 x.1.2.

Definition copy (run : string) (n : Z) : prog StoredEvent :=
  e ← get (T := StoredEvent) (events_of run) (sequence n);
  some_or e (EMsg ("dangling event index " +:+ run +:+ "/" +:+ pretty n)).

(** The counters of the run row after a copy was stored. *)
Definition counted (s : StoredRun) (e : StoredEvent) : StoredRun :=
  let p := default (mkPending 0 0) (s_pending s !! e_type e) in
  let p := mkPending (copies p + 1) (cloud p + z_of_bool (is_cloud e)) in
  s <| s_pending ::= <[e_type e := p]> |>
    <| s_published ::= Z.add (z_of_bool (published e)) |>
    <| s_mailbox ::= λ m, match e_expires_at_ms e with
                          | Some at_ => Some (match m with Some m => Z.min m at_ | None => at_ end)
                          | None => m
                          end |>
    <| s_evidence := true |>.
(** [push]: stores a new copy with its rows; the caller stores the run. *)
Definition push (s : StoredRun) (e : StoredEvent) : prog StoredRun :=
  let id := run_id s in
  let n := s_accepted s in
  accepted ← some_or (checked_addu64 n 1) (EMsg "event sequence overflow");
  let s := s <| s_accepted := accepted |> in
  _ ← put (events_of id) (sequence n) e;
  _ ← match e_envelope e ≫= identity with
      | Some i =>
          _ ← put (identities_of id) (component i) n;
          if e_delivered e then put (partition "delivered" i) id id else mret ()
      | None => mret ()
      end;
  first ← get_cell (types_of id) (component (e_type e));
  _ ← match first with
      | None => put (types_of id) (component (e_type e)) n
      | Some _ => mret ()
      end;
  _ ← for_each (pending_rows id n e) put_row;
  mret (counted s e).

(** The counters of the run row after a copy was consumed. *)
Definition uncounted (s : StoredRun) (e : StoredEvent) : StoredRun :=
  let s := match s_pending s !! e_type e with
    | Some p =>
        let p := mkPending (sat_subu64 (copies p) 1)
                   (sat_subu64 (cloud p) (z_of_bool (is_cloud e))) in
        if decide (copies p = 0) then s <| s_pending ::= delete (e_type e) |>
        else s <| s_pending ::= <[e_type e := p]> |>
    | None => s
    end in
  s <| s_published ::= λ n, sat_subu64 n (z_of_bool (published e)) |>.
(** [consume]: marks a pending copy consumed under [k]. *)
Definition consume (s : StoredRun) (n : Z) (e : StoredEvent) (k : string) : prog StoredRun :=
  let id := run_id s in
  _ ← for_each (pending_rows id n e) drop_row;
  _ ← put (events_of id) (sequence n) (e <| e_consumed_key := Some k |>);
  mret (uncounted s e).
Definition refresh_mailbox (s : StoredRun) : prog StoredRun :=
  found ← scan (expiring_of (run_id s)) "" None (Some 1%nat);
  match found with
  | (_, c) :: _ => p ← decode (T := Z * Z) c; mret (s <| s_mailbox := Some p.1 |>)
  | [] => mret (s <| s_mailbox := None |>)
  end.

Definition expired_key (n : Z) : string := "mailbox#expired[" +:+ pretty n +:+ "]".

Section with_host.
Context `{Host}.

(** [envelope]: the event as taken, with its delivery [time]. *)
Definition envelope (e : StoredEvent) : prog value :=
  time ← some_or (rfc3339 (e_delivered_at_ms e)) (EMsg "invalid event timestamp");
  mret (match e_envelope e with
        | Some (VObj m) =>
            match m !! "time" with
            | None => VObj (<["time" := VStr time]> m)
            | Some _ => VObj m
            end
        | Some v => v
        | None => VObj (<["time" := VStr time]> (<["data" := e_data e]> {["type" := VStr (e_type e)]}))
        end).

(** [expire]: consumes every pending copy whose mailbox time is over. *)
Definition expire_one (id : string) (s : StoredRun) (x : string * cell) : prog StoredRun :=
  p ← decode (T := Z * Z) x.2;
  let n := p.2 in
  e ← copy id n;
  ev ← envelope e;
  _ ← put (records_of id) (expired_key n) (RExpired ev);
  consume s n e (expired_key n).
Definition expire (s : StoredRun) (now : Z) : prog (StoredRun * nat) :=
  if is_none_or (s_mailbox s) (λ at_, bool_decide (now < at_)) then mret (s, O)
  else
    let id := run_id s in
    due ← scan (expiring_of id) "" (Some (until now)) None;
    s ← fold_each due s (expire_one id);
    s ← refresh_mailbox s;
    mret (s, length due).
End with_host.

(** [any(|cloud| cloud == &json!(true))] over a scan of live copies. *)
Definition any_cloud (found : list (string * cell)) : bool :=
  existsb (λ x, bool_decide (x.2 = CJson (VBool true))) found.
(** A fresh copy of type [t], or one live past [until]. *)
Definition live_cloud (id t : string) (fresh : bool) (until_ : string) : prog bool :=
  if fresh then mret true
  else found ← scan (live_of id t) until_ None (Some 2%nat); mret (any_cloud found).
Fixpoint awaited_wanted (s : StoredRun) (fresh : bool) (until_ : string)
    (l : list (string * PendingCount)) : prog bool :=
  match l with
  | [] => mret false
  | (t, p) :: l =>
      if bool_decide (cloud p < copies p) && wakes s t false then mret true
      else
        hit ← (if bool_decide (0 < cloud p) && wakes s t true
               then live_cloud (run_id s) t fresh until_ else mret false);
        if (hit : bool) then mret true else awaited_wanted s fresh until_ l
  end.
Fixpoint subscribed_wanted (s : StoredRun) (fresh : bool) (until_ : string) (l : list string)
    : prog bool :=
  match l with
  | [] => mret false
  | t :: l =>
      wild ← (if bool_decide (t = "*") && bool_decide (0 < s_published s) then
                if fresh then mret true
                else found ← scan (live_published_of (run_id s)) until_ None (Some 1%nat);
                     mret (negb (bool_decide (found = [])))
              else mret false);
      if (wild : bool) then mret true
      else
        hit ← (if is_some_and (s_pending s !! t) (λ p, bool_decide (0 < cloud p))
               then live_cloud (run_id s) t fresh until_ else mret false);
        if (hit : bool) then mret true else subscribed_wanted s fresh until_ l
  end.
(** [pending_wanted]: whether a pending, unexpired copy is one the run waits for. *)
Definition pending_wanted (s : StoredRun) (now : Z) : prog bool :=
  let fresh := is_none_or (s_mailbox s) (λ at_, bool_decide (now < at_)) in
  let until_ := until now in
  a ← awaited_wanted s fresh until_
        (omap (λ t, p ← s_pending s !! t; Some (t, p)) (keys (s_awaits s)));
  if (a : bool) then mret true
  else subscribed_wanted s fresh until_ (concat (values (s_subscriptions s))).

(** [accept]: [None] when the run already holds the identity with this payload. *)
Definition accept (s : StoredRun) (e : StoredEvent) (now : Z) : prog (option StoredRun) :=
  held ← match e_envelope e ≫= identity with
         | None => mret false
         | Some i =>
             n ← get (T := Z) (identities_of (run_id s)) (component i);
             match n with
             | None => mret false
             | Some n =>
                 h ← copy (run_id s) n;
                 if decide (payload <$> e_envelope e = payload <$> e_envelope h) then mret true
                 else PFail (EIdentityConflict (show_identity i))
             end
         end;
  if (held : bool) then mret None
  else
    let s := if wanted s e now then s <| s_run ::= λ r, r <| r_wake_at_ms ::= Z.min now |> |> else s in
    s ← push s e;
    mret (Some s).

(** The event type of a delivered or published event. *)
Definition event_type (event : value) : option string := event_text event "type".
Definition deliver (event : value) (target : option string) (now : Z) (policy : Policy)
    : prog (option string) :=
  t ← some_or (event_type event) (EMsg "a delivered event needs a type");
  id ← some_or (identity event) (EMsg "a delivered event needs a source and an id");
  let stored := mkEvent t (default VNull (vget "data" event)) now None (Some event) true
                  (Some (sat_add64 now (mailbox_ms policy))) in
  candidate ← match target with
    | Some target => find_run target
    | None =>
        first ← indexed_runs (partition "delivered" id) "" None (Some 1%nat);
        match last first with
        | Some first => mret (Some first)
        | None => w ← indexed_runs (partition "wait" t) "" None (Some 1%nat); mret (last w)
        end
    end;
  match candidate with
  | None => mret None
  | Some snapshot =>
      let recipient := run_id snapshot in
      gone ← (if decide (is_Some (r_ended_ms (s_run snapshot))) then
                held ← get_cell (identities_of recipient) (component id);
                mret (bool_decide (held = None))
              else mret false);
      if (gone : bool) then mret None
      else
        accepted ← accept snapshot stored now;
        _ ← match accepted with Some s => store_run s | None => mret () end;
        mret (Some recipient)
  end.

(** [notify]: a child's lifecycle notification to its parent. *)
Definition notify (parent t : string) (data : value) (now : Z) : prog unit :=
  snapshot ← run parent;
  if decide (is_Some (r_ended_ms (s_run snapshot)) ∨ s_awaits snapshot !! t = None
             ∨ is_Some (s_pending snapshot !! t)) then mret ()
  else
    let e := mkEvent t data now None None false None in
    let snapshot := if wakes snapshot t false
      then snapshot <| s_run ::= λ r, r <| r_wake_at_ms := now |> |> else snapshot in
    snapshot ← push snapshot e;
    store_run snapshot.

(** The runs a publication without target is offered to, by id. *)
Definition run_id_le (a b : StoredRun) : Prop := String.le (run_id a) (run_id b).
#[export] Instance run_id_le_dec : RelDecision run_id_le.
Proof. intros x y. unfold run_id_le. apply _. Defined.
Definition push_unless (runs : list StoredRun) (s : StoredRun) : list StoredRun :=
  if existsb (λ r, bool_decide (run_id r = run_id s)) runs then runs else runs ++ [s].
Definition publish_one (stored : StoredEvent) (targeted : bool) (now : Z)
    (receivers : list string) (snapshot : StoredRun) : prog (list string) :=
  if bool_decide (r_ended_ms (s_run snapshot) = None) && (targeted || subscribed snapshot stored) then
    accepted ← accept snapshot stored now;
    match accepted with
    | Some s => _ ← store_run s; mret (receivers ++ [run_id s])
    | None => mret receivers
    end
  else mret receivers.
Definition publish (event : value) (target : option string) (now : Z) (policy : Policy)
    : prog (list string) :=
  t ← some_or (event_type event) (EMsg "a published event needs a type");
  let stored := mkEvent t (default VNull (vget "data" event)) now None (Some event) false
                  (match target with Some _ => Some (sat_add64 now (mailbox_ms policy)) | None => None end) in
  candidates ← match target with
    | Some id => s ← find_run id; mret (option_list s)
    | None =>
        runs ← indexed_runs (partition "subs" t) "" None None;
        wild ← indexed_runs (partition "subs" "*") "" None None;
        mret (merge_sort run_id_le (foldl push_unless runs wild))
    end;
  fold_each candidates [] (publish_one stored (bool_decide (is_Some target)) now).

(** [forget]: removes a finished run's evidence, its records and copies with
    all their rows. *)
Definition forget_event (id : string) (x : string * cell) : prog unit :=
  e ← decode (T := StoredEvent) x.2;
  n ← some_or (parse_hex x.1) (EMsg "invalid digit found in string");
  _ ← (if decide (e_consumed_key e = None) then for_each (pending_rows id n e) drop_row else mret ());
  _ ← match e_envelope e ≫= identity with
      | Some i =>
          _ ← delete_row (identities_of id) (component i);
          if e_delivered e then delete_row (partition "delivered" i) id else mret ()
      | None => mret ()
      end;
  delete_row (events_of id) x.1.
Definition forget (s : StoredRun) : prog (StoredRun * nat) :=
  let id := run_id s in
  records ← scan (records_of id) "" None None;
  _ ← for_each records (λ x, delete_row (records_of id) x.1);
  events ← scan (events_of id) "" None None;
  _ ← for_each events (forget_event id);
  types ← scan (types_of id) "" None None;
  _ ← for_each types (λ x, delete_row (types_of id) x.1);
  mret (s <| s_pending := ∅ |> <| s_published := 0 |> <| s_mailbox := None |>
          <| s_evidence := false |>, length records).
