(* ===== verification/Triggers.v ===== *)
(** * Triggers, queues and the breaker

    [crates/durable/src/engine.rs], sections 4 and 5: buffered slots and their
    promotion, trigger rows, activation epochs, refused runs and the breaker's
    observation of a terminal outcome. *)
From S2P Require Import Prelude Json Keys Outcome Journal Listen Types Store Index Admit.

(** ** Buffered slots *)

(** [decode_queue]. *)
Definition check_queue (q : Queued) : prog Queued :=
  _ ← ensure (bool_decide (q_version q = 1)) (EMsg "unsupported trigger queue layout"); mret q.
Definition queued (k : string) : prog (option Queued) :=
  q ← get (T := Queued) "trigger_queue" k;
  match q with Some q => q ← check_queue q; mret (Some q) | None => mret None end.
Definition remove_queue (k : string) : prog unit :=
  q ← queued k;
  match q with
  | Some q =>
      _ ← delete_row "trigger_queue" k;
      delete_row (partition "queue_name" (a_name (q_admission q))) k
  | None => mret ()
  end.
Definition capacity (name : string) (max : nat) : prog bool :=
  if decide (max = O) then mret false
  else found ← scan (partition "live_name" name) "" None (Some max);
       mret (bool_decide (length found < max)%nat).

(** ** Trigger rows *)

Definition trigger_indexes (key_ : string) (t : Trigger) : gmap Key cell :=
  foldl (λ m '(k, c), <[k := c]> m) ∅
    (match tg_at_ms t with Some at_ => [(("trigger_due", timed at_ key_), to_cell key_)] | None => [] end
     ++ ((λ ty, ((partition "trigger_type" ty, key_), to_cell key_)) <$> tg_types t)).
Definition opt_trigger_indexes (key_ : string) (t : option Trigger) : gmap Key cell :=
  match t with Some t => trigger_indexes key_ t | None => ∅ end.
Definition store_trigger (key_ : string) (before after : option Trigger) : prog unit :=
  _ ← for_each (changes (opt_trigger_indexes key_ before) (opt_trigger_indexes key_ after)) apply_change;
  match after with
  | Some t => put "trigger" key_ t
  | None => match before with Some _ => delete_row "trigger" key_ | None => mret () end
  end.
Definition get_trigger (k : string) : prog (option Trigger) := get (T := Trigger) "trigger" k.
Fixpoint indexed_triggers_from (found : list (string * cell)) (out : list (string * Trigger))
    : prog (list (string * Trigger)) :=
  match found with
  | [] => mret out
  | (_, c) :: found =>
      k ← some_or (index_id c) (EMsg "invalid trigger index");
      if existsb (λ o, bool_decide (o.1 = k)) out then indexed_triggers_from found out
      else
        t ← get_trigger k;
        t ← some_or t (EMsg ("dangling trigger index " +:+ k));
        indexed_triggers_from found (out ++ [(k, t)])
  end.
Definition indexed_triggers (found : list (string * cell)) : prog (list (string * Trigger)) :=
  indexed_triggers_from found [].
(** [arm]: replaces the triggers a definition owns with [wanted]. *)
Definition arm (defs : Definitions) (wanted : gmap string Trigger) : prog Definitions :=
  _ ← for_each (triggers defs) remove_queue;
  _ ← for_each (filter (λ k, wanted !! k = None) (triggers defs)) (λ k,
        current ← get_trigger k; store_trigger k current None);
  _ ← for_each (entries wanted) (λ '(k, t),
        current ← get_trigger k; store_trigger k current (Some t));
  mret (defs <| triggers := keys wanted |>).

(** ** Activation *)

Definition activate_defs (defs : Definitions) (version : Z) (epoch_ : Z) (a : Activation) : Definitions :=
  defs <| active := Some version |> <| epoch := epoch_ |> <| consecutive_faults := 0 |>
       <| tripped := None |>
       <| activations ::= <[version := mkActivated epoch_ (ac_at_ms a) (ac_actor a) (ac_note a)]> |>.
(** [activate]; [arming] is the triggers of [Arming]. *)
Definition activate (name : string) (version : Z) (epoch_ : option Z) (arming : gmap string Trigger)
    (a : Activation) : prog (option Definitions) :=
  loaded ← load_definitions name;
  let defs := default default_definitions loaded in
  _ ← ensure (bool_decide (is_Some (versions defs !! version))) (EMsg "unknown definition version");
  if is_some_and epoch_ (λ e, bool_decide (e ≠ epoch defs)) then mret None
  else
    next ← some_or (checked_addu64 (epoch defs) 1) (EMsg "activation epoch overflow");
    let defs := activate_defs defs version next a in
    _ ← delete_row "paused" name;
    defs ← arm defs arming;
    _ ← store_definitions name defs;
    mret (Some defs).

(** ** The breaker *)

Section with_host.
Context `{Host}.

(** [Trip::event]. *)
Definition trip_event (t : Trip) (name : string) : value :=
  VObj (<["specversion" := VStr "1.0"]> (<["type" := VStr TRIPPED]>
    (<["source" := VStr ("ouro/definitions/" +:+ name)]>
    (<["id" := VStr ("tripped:" +:+ pretty (t_epoch t))]> (<["subject" := VStr name]>
    (<["time" := VStr (default "" (rfc3339 (t_at_ms t)))]>
    {["data" := VObj (<["name" := VStr name]> (<["version" := vint (t_version t)]>
       (<["digest" := VStr (t_digest t)]> (<["epoch" := vint (t_epoch t)]>
       (<["faults" := vint (t_faults t)]> (<["threshold" := vint (t_threshold t)]>
       (<["run" := VStr (t_run t)]> {["reason" := Error.to_value (t_reason t)]})))))))]})))))).
Definition notice_key (name : string) (t : Trip) : string :=
  timed (t_at_ms t) (component name +:+ ":" +:+ hex16 (t_epoch t)).

(** The version's own policy, at the observation. *)
Definition policy_of (defs : Definitions) (version : Z) : Breaker :=
  match versions defs !! version with Some d => d_breaker d | None => Inherit end.
Definition digest_of_version (defs : Definitions) (version : Z) : string :=
  default "" (d_digest <$> versions defs !! version).
(** Whether the run's outcome counts for the breaker. *)
Definition observed (defs : Definitions) (r : SavedRun) : bool :=
  bool_decide (active defs = Some (a_version (r_admission r)))
  && bool_decide (r_epoch r = Some (epoch defs)) && bool_decide (tripped defs = None).
Definition breaker (r : SavedRun) (fault : option WorkflowError) (success : bool) (default_ : Z)
    (now : Z) : prog unit :=
  let name := a_name (r_admission r) in
  loaded ← load_definitions name;
  match loaded with
  | None => mret ()
  | Some defs =>
      if negb (observed defs r) then mret ()
      else match fault with
      | None =>
          if success && bool_decide (0 < consecutive_faults defs)
          then store_definitions name (defs <| consecutive_faults := 0 |>)
          else mret ()
      | Some reason =>
          let defs := defs <| consecutive_faults ::= λ n, sat_addu32 n 1 |> in
          let version := a_version (r_admission r) in
          match effective (policy_of defs version) default_ with
          | Some threshold =>
              if decide (threshold ≤ consecutive_faults defs) then
                let trip := mkTrip None true version (digest_of_version defs version) (epoch defs)
                              (consecutive_faults defs) threshold (a_id (r_admission r)) reason now in
                defs ← arm defs ∅;
                _ ← put "notice" (notice_key name trip) (trip_event trip name);
                store_definitions name (defs <| tripped := Some trip |>)
              else store_definitions name defs
          | None => store_definitions name defs
          end
      end
  end.

(** [refuse]: a refused trigger run, ended faulted at its admission. *)
Definition refuse (refused : Refused) (now : Z) : prog unit :=
  snapshot ← admitted (rf_admission refused) now JoinRoot;
  match snapshot with
  | None => mret ()
  | Some s =>
      let s := s <| s_run ::= λ r, r <| r_state := SFailed |>
                 <| r_outcome := Some (Faulted (rf_error refused)) |> <| r_ended_ms := Some now |> |> in
      _ ← store_run s;
      breaker (s_run s) (Some (rf_error refused)) false (rf_breaker_threshold refused) now
  end.

(** ** Promotion *)

Definition admit_firing (k : string) (a : Admission) (rearm : option Rearm) (next : option Trigger)
    (now : Z) : prog unit :=
  inserted ← insert_run a now;
  _ ← (if (inserted : bool) then
         s ← run (a_id a);
         store_run (s <| s_trigger := Some k |>
                      <| s_rearm := (r ← rearm; t ← next; Some (r, t)) |>)
       else mret ());
  put "trigger_run" k (a_id a).
(** One buffered slot of [drain_queues]' loop. *)
Definition drain_one (name : string) (now : Z) (k : string) : prog unit :=
  q ← queued k;
  match q with
  | None =>
      index ← get_cell (partition "queue_name" name) k;
      ensure (bool_decide (index = None)) (EMsg "dangling queue index")
  | Some q =>
      live ← scan (partition "trigger_live" k) "" None (Some 1%nat);
      room ← (if decide (live ≠ []) then mret false else capacity name (q_max_concurrent_runs q));
      if negb (room : bool) then mret ()
      else
        t ← get_trigger k;
        t ← some_or t (EMsg "queue without trigger");
        _ ← remove_queue k;
        match q_failure q with
        | Some (error, threshold) => refuse (mkRefused (q_admission q) error threshold) now
        | None => admit_firing k (q_admission q) (q_rearm q) (Some t) now
        end
  end.
Definition drain_queues (name : string) (now : Z) : prog unit :=
  stopped ← is_stopped;
  if (stopped : bool) then
    found ← scan (partition "queue_name" name) "" None (Some 1%nat);
    if decide (found = []) then mret () else put "control_drain" name true
  else
    found ← scan (partition "queue_name" name) "" None None;
    for_each found (λ x, drain_one name now x.1).
Definition drain_marked (name : string) (now : Z) : prog bool :=
  marked ← get (T := bool) "control_drain" name;
  match marked with
  | None => mret false
  | Some _ =>
      stopped ← is_stopped;
      if (stopped : bool) then mret false
      else
        _ ← delete_row "control_drain" name;
        _ ← drain_queues name now;
        mret true
  end.
Definition drain_pending (now : Z) (limit : nat) : prog unit :=
  found ← scan "control_drain" "" None (Some limit);
  for_each found (λ x, _ ← delete_row "control_drain" x.1; drain_queues x.1 now).
End with_host.
