(* ===== verification/Lifecycle.v ===== *)
(** * Termination and firings

    [crates/durable/src/engine.rs], sections 4 and 5: how a run and its owned
    descendants end, what a child's end tells its parent, the hourly annotation
    totals, and the claim-once firing of a trigger. *)
From S2P Require Import Prelude Json Keys Outcome Journal Listen Types Store Index Admit.
From S2P Require Import Mailbox Triggers.

Section with_host.
Context `{Host}.

(** The kind and data of a child's notification; [None] for a status that is
    not reported. *)
Definition lifecycle_notice (s : Status) : option (string * value) :=
  match s with
  | Completed output =>
      Some ("done", VObj (<["status" := VStr "completed"]> {["output" := output]}))
  | Faulted error =>
      Some ("done", VObj (<["status" := VStr "faulted"]> {["error" := Error.to_value error]}))
  | Cancelled => Some ("done", VObj {["status" := VStr "cancelled"]})
  | Waiting _ => Some ("waiting", VObj {["status" := VStr "waiting"]})
  | Interrupted _ => None
  end.
(** A terminal child closes its automatic waiting registration. *)
Definition close_waiting (parent_id id : string) : prog unit :=
  parent ← run parent_id;
  let waiting := "waiting:" +:+ id in
  let closed := close parent [waiting] in
  if decide (is_Some (s_awaits parent !! waiting) ∧ s_awaits closed !! waiting = None)
  then store_run closed else mret ().
Definition lifecycle (id : string) (status : Status) (now : Z) : prog unit :=
  s ← run id;
  match r_child (s_run s) with
  | None => mret ()
  | Some link =>
      match lifecycle_notice status with
      | None => mret ()
      | Some (kind, data) =>
          let t := kind +:+ ":" +:+ id in
          told ← (if decide (kind = "done") then
                    c ← get_cell (types_of (l_parent link)) (component t);
                    mret (bool_decide (is_Some c))
                  else mret false);
          if (told : bool) then mret ()
          else
            _ ← (if decide (kind = "done") then close_waiting (l_parent link) id else mret ());
            notify (l_parent link) t data now
      end
  end.

(** ** Annotation totals of a definition *)

Definition add_bucket (name : string) (now runs : Z) (annotations : Totals) : prog unit :=
  let kind := partition "totals" name in
  let k := time_key (bucket_start now) in
  loaded ← get (T := Bucket) kind k;
  let b := default (mkBucket 0 ∅) loaded in
  put kind k (mkBucket (sat_addu64 (b_runs b) runs) (accumulate (b_annotations b) (entries annotations))).
(** [tally]: notes an ending run's totals under its definition. *)
Definition tally (ended : gmap string (Z * Totals)) (r : SavedRun) : gmap string (Z * Totals) :=
  if decide (r_annotations r = ∅) then ended
  else
    let name := a_name (r_admission r) in
    let '(runs, totals) := default (0, ∅) (ended !! name) in
    <[name := (runs + 1, accumulate totals (entries (r_annotations r)))]> ended.

(** ** Termination *)

Definition end_state (s : Status) : RunState :=
  match s with Completed _ => SCompleted | Faulted _ => SFailed | _ => SCancelled end.
(** The row of a run that ends. *)
Definition ended_run (s : StoredRun) (status : Status) (spent now : Z) : StoredRun :=
  s <| s_budget_ended := Some spent |>
    <| s_run ::= λ r, r <| r_state := end_state status |> <| r_outcome := Some status |>
         <| r_ended_ms := Some now |> <| r_fence := None |> <| r_lease_until_ms := None |>
         <| r_held := None |> |>
    <| s_awaits := ∅ |> <| s_addressed_waits := ∅ |> <| s_listeners := ∅ |>
    <| s_subscriptions := ∅ |> <| s_waits := ∅ |>.

Record Cascade := mkCascade {
  parents : list string;
  names : gset string;
  ended : gmap string (Z * Totals)
}.
(** One live child of a run that ended. *)
Definition end_child (spent now : Z) (c : Cascade) (child : StoredRun) : prog Cascade :=
  let before := indexes child in
  let child := ended_run child Cancelled spent now in
  _ ← store_run_indexed child before;
  _ ← lifecycle (run_id child) Cancelled now;
  mret (mkCascade (run_id child :: parents c)
          ({[a_name (r_admission (s_run child))]} ∪ names c) (tally (ended c) (s_run child))).
(** The iterative cascade over the [children] index, its stack's top first. *)
Fixpoint cascade (fuel : nat) (spent now : Z) (c : Cascade) : prog Cascade :=
  match parents c with
  | [] => mret c
  | parent :: rest =>
      match fuel with
      | O => PFail EFuel
      | S fuel =>
          children ← indexed_runs (partition "children" parent) "" None None;
          c ← fold_each children (mkCascade rest (names c) (ended c)) (end_child spent now);
          cascade fuel spent now c
      end
  end.
(** Only the trigger the firing stored is re-armed. *)
Definition rearm_trigger (s : StoredRun) (now : Z) : prog unit :=
  match s_rearm s with
  | None => mret ()
  | Some (rearm, armed) =>
      t ← get_trigger (ra_trigger rearm);
      match t with
      | None => mret ()
      | Some t =>
          if decide (t = armed ∧ tg_at_ms t = None) then
            store_trigger (ra_trigger rearm) (Some t)
              (Some (t <| tg_at_ms := Some (sat_add64 now (ra_delay_ms rearm)) |>))
          else mret ()
      end
  end.
Definition terminate (fuel : nat) (id : string) (status : Status) (now : Z) : prog unit :=
  s ← run id;
  let root := default id (r_root (s_run s)) in
  budget ← get (T := Z) "budget" root;
  let spent := default 0 budget in
  let s := ended_run s status spent now in
  _ ← store_run s;
  _ ← (if decide (r_root (s_run s) = None) then
         b ← get_cell "budget" id;
         match b with Some _ => delete_row "budget" id | None => mret () end
       else mret ());
  _ ← rearm_trigger s now;
  c ← cascade fuel spent now
        (mkCascade [id] {[a_name (r_admission (s_run s))]} (tally ∅ (s_run s)));
  _ ← lifecycle id status now;
  _ ← for_each (merge_sort String.le (elements (names c))) (λ name, drain_queues name now);
  for_each (entries (ended c)) (λ '(name, (runs, totals)), add_bucket name now runs totals).
Definition cancel_run (fuel : nat) (id : string) (now : Z) : prog bool :=
  s ← find_run id;
  match s with
  | None => mret false
  | Some s =>
      if decide (is_Some (r_ended_ms (s_run s))) then mret false
      else _ ← terminate fuel id Cancelled now; mret true
  end.

(** ** Ingress *)

(** [tombstone]: the key, the stored tombstone and whether it is used. *)
Definition tombstone (event : value) (now : Z) : prog (string * option Tombstone * bool) :=
  id ← some_or (identity event) (EMsg "an ingress event needs a source and an id");
  let k := component id in
  stored ← get (T := Tombstone) "ingress" k;
  match stored with
  | Some t =>
      if decide (now < ts_expires_at_ms t) then
        if decide (ts_payload t = payload event) then mret (k, stored, true)
        else PFail (EIdentityConflict (show_identity id))
      else mret (k, stored, false)
  | None => mret (k, stored, false)
  end.
(** The ingress event is consumed: its tombstone replaces an expired one. *)
Definition bury (event : value) (k : string) (old : option Tombstone) (now : Z) (policy : Policy)
    : prog unit :=
  _ ← match old with
      | Some old => delete_row "ingress_due" (timed (ts_expires_at_ms old) k)
      | None => mret ()
      end;
  let expires := sat_add64 now (ingress_ms policy) in
  _ ← put "ingress" k (mkTombstone (payload event) expires);
  put "ingress_due" (timed expires k) k.

(** ** Firing a trigger *)

Definition candidate (f : Firing) : option Admission :=
  match fi_admit f with a :: _ => Some a | [] => rf_admission <$> fi_refused f end.
(** The overlap policy's decision: what happened and the trigger to store. *)
Definition overlap_decision (fuel : nat) (f : Firing) (g : OverlapGuard) (a : Admission) (now : Z)
    : prog (Fired * option Trigger) :=
  _ ← ensure (bool_decide (length (fi_admit f) ≤ 1)%nat) (EMsg "overlap policy requires one admission");
  _ ← ensure (bool_decide (0 < og_max_concurrent_runs g)%nat) (EMsg "schedule ceiling must be positive");
  _ ← ensure (bool_decide (is_Some (fi_next f) ∧ is_Some (fi_busy f)))
        (EMsg "overlap firing requires next and busy triggers");
  known ← find_run (a_id a);
  match known with
  | Some _ => mret (FCommitted, fi_next f)
  | None =>
      let replace := bool_decide (og_policy g = Replace) in
      live ← scan (partition "trigger_live" (fi_key f)) "" None (if replace then None else Some 1%nat);
      _ ← (if replace then for_each live (λ x,
             id ← some_or (index_id x.2) (EMsg "invalid trigger run index");
             _ ← cancel_run fuel id now; mret ()) else mret ());
      room ← capacity (a_name a) (og_max_concurrent_runs g);
      if negb (room : bool) then mret (FCeiling, Some (og_ceiling g))
      else if decide (live ≠ [] ∧ og_policy g ≠ Allow ∧ og_policy g ≠ Replace) then
        slot ← (if decide (og_policy g = Queue) then
                  q ← queued (fi_key f); mret (bool_decide (q = None)) else mret false);
        if (slot : bool) then
          let q := mkQueued 1 a (fi_rearm f) (og_max_concurrent_runs g)
                     ((λ r, (rf_error r, rf_breaker_threshold r)) <$> fi_refused f) in
          _ ← put "trigger_queue" (fi_key f) q;
          _ ← put (partition "queue_name" (a_name a)) (fi_key f) (fi_key f);
          mret (FQueued, fi_next f)
        else
          mret (FBusy (match live with x :: _ => default "" (index_id x.2) | [] => "" end), fi_busy f)
      else mret (FCommitted, fi_next f)
  end.
(** The exclusive guard of a firing without an overlap policy. *)
Definition exclusive_decision (f : Firing) : prog (Fired * option Trigger) :=
  match fi_busy f with
  | None => mret (FCommitted, fi_next f)
  | Some busy =>
      if decide (fi_admit f ≠ [] ∨ is_Some (fi_refused f)) then
        last ← get (T := string) "trigger_run" (fi_key f);
        match last with
        | None => mret (FCommitted, fi_next f)
        | Some last =>
            s ← find_run last;
            if is_some_and s (λ s, bool_decide (r_ended_ms (s_run s) = None))
            then mret (FBusy last, Some busy)
            else mret (FCommitted, fi_next f)
        end
      else mret (FCommitted, fi_next f)
  end.
Definition decision (fuel : nat) (f : Firing) (now : Z) : prog (Fired * option Trigger) :=
  match fi_overlap f, candidate f with
  | Some g, Some a => overlap_decision fuel f g a now
  | Some _, None =>
      if decide (fi_admit f ≠ []) then PFail (EMsg "overlap policy requires one admission")
      else exclusive_decision f
  | None, _ => exclusive_decision f
  end.
Definition fire_checked (fuel : nat) (f : Firing) (current : option Trigger) (now : Z)
    (policy : Policy) : prog Fired :=
  used ← match fi_ingress f with
         | Some event => t ← tombstone event now; mret t.2
         | None => mret false
         end;
  if (used : bool) then mret FIngested
  else
    d ← decision fuel f now;
    let '(disposition, next) := d in
    used ← match fi_ingress f with
           | None => mret false
           | Some event =>
               t ← tombstone event now;
               let '(k, old, used) := t in
               if (used : bool) then mret true
               else _ ← bury event k old now policy; mret false
           end;
    if (used : bool) then mret FIngested
    else
      _ ← store_trigger (fi_key f) current next;
      _ ← (if decide (disposition = FCommitted) then
             for_each (fi_admit f) (λ a, admit_firing (fi_key f) a (fi_rearm f) next now)
           else mret ());
      _ ← (if decide (disposition = FCommitted) then
             match fi_refused f with
             | Some r =>
                 _ ← refuse r now;
                 put "trigger_run" (fi_key f) (a_id (rf_admission r))
             | None => mret ()
             end
           else mret ());
      mret disposition.
(** The first refusal among the firing's admissions. *)
Fixpoint first_refusal (drained : bool) (l : list Admission) : prog (option error) :=
  match l with
  | [] => mret None
  | a :: l =>
      r ← drained_refusal drained a;
      match r with Some e => mret (Some e) | None => first_refusal drained l end
  end.
(** [fire]: an inner [Err] is a refusal that commits the drain. *)
Definition fire (fuel : nat) (f : Firing) (now : Z) (policy : Policy) : prog (result error Fired) :=
  stopped ← is_stopped;
  if (stopped : bool) then mret (Ok FChanged)
  else
    _ ← ensure (bool_decide (fi_refused f = None ∨ fi_admit f = []))
          (EMsg "a firing admits its runs or records a refusal");
    drained ← match candidate f with
              | Some a => drain_marked (a_name a) now
              | None => mret false
              end;
    current ← get_trigger (fi_key f);
    if decide (current ≠ fi_expected f) then mret (Ok FChanged)
    else
      refused ← first_refusal drained (fi_admit f ++ option_list (rf_admission <$> fi_refused f));
      match refused with
      | Some e => mret (Err e)
      | None => fired ← fire_checked fuel f current now policy; mret (Ok fired)
      end.
End with_host.
