(* ===== verification/Control.v ===== *)
(** * Operator commands and bounded queries

    [crates/durable/src/engine.rs], section 7. *)
From S2P Require Import Prelude Json Keys Outcome Journal Listen Types Store Index Admit.
From S2P Require Import Mailbox Triggers Lifecycle.

Record Runs := mkRuns {
  ru_definition : option string;
  ru_state : option RunState;
  ru_parent : option string;
  ru_since_ms : option Z;
  ru_before_ms : option Z
}.
Record Waits := mkWaits {
  wf_definition : option string;
  wf_run : option string;
  wf_event_type : option string;
  wf_since_ms : option Z;
  wf_before_ms : option Z
}.
Definition opt_value {A} (f : A → value) (o : option A) : value :=
  match o with Some a => f a | None => VNull end.
Definition state_name (s : RunState) : string :=
  match s with
  | SReady => "Ready" | SRunning => "Running" | SWaiting => "Waiting"
  | SCompleted => "Completed" | SFailed => "Failed" | SCancelled => "Cancelled"
  end.
Definition runs_value (f : Runs) : value :=
  VObj (<["definition" := opt_value VStr (ru_definition f)]>
    (<["state" := opt_value (λ s, VStr (state_name s)) (ru_state f)]>
    (<["parent" := opt_value VStr (ru_parent f)]>
    (<["since_ms" := opt_value vint (ru_since_ms f)]>
    {["before_ms" := opt_value vint (ru_before_ms f)]})))).
Definition waits_value (f : Waits) : value :=
  VObj (<["definition" := opt_value VStr (wf_definition f)]>
    (<["run" := opt_value VStr (wf_run f)]>
    (<["event_type" := opt_value VStr (wf_event_type f)]>
    (<["since_ms" := opt_value vint (wf_since_ms f)]>
    {["before_ms" := opt_value vint (wf_before_ms f)]})))).

(** [control::redacted]. *)
Definition redacted (r : SavedRun) : SavedRun :=
  match host (r_admission r) with
  | None => r
  | Some _ =>
      r <| r_admission ::= λ a, a <| a_runtime ::= λ v,
             match v with VObj m => VObj (<[HOST := VStr REDACTED]> m) | v => v end |> |>
  end.

Definition run_kind (f : Runs) (history : bool) : string :=
  match history, ru_parent f with
  | false, Some parent => partition "control_parent" parent
  | _, _ =>
      let base := if history then "control_end" else "control_run" in
      match ru_definition f with Some d => partition base d | None => base end
  end.
Definition wait_kind (f : Waits) : string :=
  match wf_run f with
  | Some r => partition "control_wait_run" r
  | None =>
      match wf_definition f, wf_event_type f with
      | Some d, Some t => partition "control_wait_definition" d +:+ ":type:" +:+ component t
      | Some d, None => partition "control_wait_definition" d
      | None, Some t => partition "control_wait_type" t
      | None, None => "control_wait"
      end
  end.

(** [page_rows]: at most [limit] rows of a kind in a window, after a cursor. *)
Definition page_end (found : list (string * cell)) (query : string) (limit : nat) : option Cursor :=
  if decide (length found = limit) then
    match last found with Some x => Some (mkCursor query x.1) | None => None end
  else None.
Definition page_rows (kind query : string) (since before : option Z) (cursor : option Cursor)
    (limit : nat) : prog (list (string * cell) * option Cursor) :=
  _ ← ensure (bool_decide (1 ≤ limit ≤ MAX_PAGE)%nat)
        (EControl (InvalidInput "page limit must be 1..=1000"));
  _ ← ensure (negb (match since, before with Some a, Some b => bool_decide (b < a) | _, _ => false end))
        (EControl (InvalidInput "invalid time window"));
  start ← match cursor with
    | Some c =>
        if decide (cu_query c = query) then mret (cu_after c)
        else PFail (EControl (InvalidInput "cursor belongs to another query"))
    | None => mret (match since with Some s => time_key s | None => "" end)
    end;
  let end_ := time_key <$> before in
  if is_some_and end_ (λ e, str_leb e start) then mret ([], None)
  else
    let extra := match cursor with Some _ => 1%nat | None => O end in
    found ← scan kind start end_ (Some (limit + extra)%nat);
    let found := take limit (filter (λ x,
      is_none_or cursor (λ c, str_ltb (cu_after c) x.1)) found) in
    mret (found, page_end found query limit).

Definition run_matches (f : Runs) (r : SavedRun) : bool :=
  is_none_or (ru_definition f) (λ d, bool_decide (d = a_name (r_admission r)))
  && is_none_or (ru_state f) (λ s, bool_decide (s = r_state r))
  && is_none_or (ru_parent f) (λ p, is_some_and (r_child r) (λ c, bool_decide (l_parent c = p))).
Definition wait_matches (f : Waits) (w : Wait) : bool :=
  is_none_or (wf_definition f) (λ d, bool_decide (d = cw_definition w))
  && is_none_or (wf_run f) (λ r, bool_decide (r = cw_run w))
  && is_none_or (wf_event_type f) (λ t, bool_decide (t ∈ w_types (cw_waiting w))).

(** [set_hold]: the run and its live descendants, level by level, parents
    before children. *)
Fixpoint hold_tree (fuel : nat) (tree pending : list StoredRun) : prog (list StoredRun) :=
  match pending with
  | [] => mret tree
  | s :: pending =>
      match fuel with
      | O => PFail EFuel
      | S fuel =>
          children ← indexed_runs (partition "children" (run_id s)) "" None None;
          hold_tree fuel (tree ++ children) (pending ++ children)
      end
  end.
Definition hold_one (hold : option Hold) (changed : bool) (s : StoredRun) : prog bool :=
  if decide (is_Some (r_held (s_run s)) ↔ is_Some hold) then mret changed
  else
    let before := indexes s in
    _ ← store_run_indexed (s <| s_run ::= λ r, r <| r_held := hold |> |>) before;
    mret true.
Definition set_hold (fuel : nat) (id : string) (hold : option Hold) : prog bool :=
  root ← find_run id;
  root ← some_or root (EControl (NotFound EntityRun id));
  if decide (is_Some (r_ended_ms (s_run root))) then mret false
  else
    tree ← hold_tree fuel [root] [root];
    fold_each tree false (hold_one hold).

(** [suspend]: a paused definition's triggers and buffered slots, set aside. *)
Definition suspend_one (acc : gmap string Trigger * gmap string Queued) (k : string)
    : prog (gmap string Trigger * gmap string Queued) :=
  t ← get_trigger k;
  q ← get (T := Queued) "trigger_queue" k;
  mret (match t with Some t => <[k := t]> acc.1 | None => acc.1 end,
        match q with Some q => <[k := q]> acc.2 | None => acc.2 end).
Definition suspend (name : string) (defs : Definitions) : prog Definitions :=
  acc ← fold_each (triggers defs) (∅, ∅) suspend_one;
  _ ← put "paused" name (mkPaused (epoch defs) acc.1 acc.2);
  arm defs ∅.
Definition normalize_command (c : Command) : Command :=
  match c with
  | CmdRespond run wait event =>
      CmdRespond run wait
        (match payload event with
         | VObj m => VObj (match m !! "specversion" with
                           | Some _ => m
                           | None => <["specversion" := VStr "1.0"]> m end)
         | v => v
         end)
  | c => c
  end.

(** [str::trim().is_empty()]. *)
Definition blank (s : string) : bool := bool_decide (trim s = "").

Section with_host.
Context `{Host}.

Definition query_runs (f : Runs) (history : bool) (cursor : option Cursor) (limit : nat)
    : prog (Page SavedRun) :=
  let query := value_to_string (VArr [VStr "runs"; runs_value f; VBool history]) in
  page ← page_rows (run_kind f history) query (ru_since_ms f) (ru_before_ms f) cursor limit;
  let '(found, next) := page in
  runs ← map_each found (λ x,
    id ← some_or (index_id x.2) (EMsg "invalid control run index"); run id);
  mret (mkPage (redacted <$> filter (λ r, run_matches f r) (s_run <$> runs)) next).
Definition pending_waits (f : Waits) (cursor : option Cursor) (limit : nat) : prog (Page Wait) :=
  let query := value_to_string (VArr [VStr "waits"; waits_value f]) in
  page ← page_rows (wait_kind f) query (wf_since_ms f) (wf_before_ms f) cursor limit;
  let '(found, next) := page in
  waits ← map_each found (λ x, decode (T := Wait) x.2);
  mret (mkPage (filter (λ w, wait_matches f w) waits) next).

(** ** Commands *)

(** A pause of an active definition the breaker has not tripped. *)
Definition pause_trip (request : Request) (note : string) (defs : Definitions) (version now : Z) : Trip :=
  mkTrip (Some (mkManual (rq_actor request) (rq_reason request) note)) false version
    (digest_of_version defs version) (epoch defs) (consecutive_faults defs) 0 ""
    (mkError "manual" 409 (Some "Definition paused") (Some (rq_reason request)) None) now.
Definition pause_command (request : Request) (name note : string) (now : Z) : prog Reply :=
  loaded ← load_definitions name;
  defs ← some_or loaded (EControl (NotFound EntityDefinition name));
  match tripped defs with
  | Some trip =>
      match t_manual trip with
      | Some _ => mret (Changed false)
      | None =>
          let defs := defs <| tripped := Some (trip <| t_manual :=
            Some (mkManual (rq_actor request) (rq_reason request) note) |>) |> in
          defs ← suspend name defs;
          _ ← store_definitions name defs;
          mret (Changed true)
      end
  | None =>
      version ← some_or (active defs)
        (EControl (InvalidState ("definition " +:+ name +:+ " has no active version")));
      defs ← suspend name defs;
      _ ← store_definitions name
            (defs <| tripped := Some (pause_trip request note defs version now) |>);
      mret (Changed true)
  end.
Definition resume_command (name : string) (now : Z) : prog Reply :=
  loaded ← load_definitions name;
  defs ← some_or loaded (EControl (NotFound EntityDefinition name));
  match tripped defs with
  | None => mret (Changed false)
  | Some trip =>
      match t_manual trip with
      | None => PFail (EControl (InvalidState (name +:+ ": a breaker trip requires activation")))
      | Some _ =>
          loaded ← get (T := Paused) "paused" name;
          paused ← some_or loaded (EMsg "missing suspended triggers");
          _ ← ensure (bool_decide (pa_epoch paused = epoch defs))
                (EControl (InvalidState (name +:+ ": suspended activation changed")));
          let defs := defs <| tripped :=
            if t_breaker trip then Some (trip <| t_manual := None |>) else None |> in
          defs ← arm defs (pa_triggers paused);
          _ ← for_each (entries (pa_queues paused)) (λ '(key_, q),
                _ ← ensure (bool_decide (q_version q = 1) && bool_decide (a_name (q_admission q) = name))
                      (EMsg "invalid suspended queue");
                _ ← put "trigger_queue" key_ q;
                put (partition "queue_name" name) key_ key_);
          _ ← delete_row "paused" name;
          _ ← store_definitions name defs;
          _ ← drain_queues name now;
          mret (Changed true)
      end
  end.
Definition stop_command (enabled : bool) (now : Z) : prog Reply :=
  stopped ← is_stopped;
  if decide (stopped = enabled) then mret (Changed false)
  else
    _ ← (if enabled then put "control" "stopped" enabled
         else _ ← delete_row "control" "stopped"; drain_pending now MAX_PAGE);
    mret (Changed true).
Definition cancel_command (fuel : nat) (id : string) (now : Z) : prog Reply :=
  s ← find_run id;
  let changed := is_some_and s (λ s, bool_decide (r_ended_ms (s_run s) = None)) in
  _ ← (if changed then terminate fuel id Cancelled now else mret ());
  mret (Changed changed).

(** The response completed as it is delivered. *)
Definition complete_response (event : value) (now : Z) : prog value :=
  match event with
  | VObj m =>
      let m := match m !! "specversion" with
               | Some _ => m | None => <["specversion" := VStr "1.0"]> m end in
      time ← some_or (rfc3339 now) (EMsg "invalid response timestamp");
      mret (VObj (match m !! "time" with Some _ => m | None => <["time" := VStr time]> m end))
  | v => mret v
  end.
(** A validated answer is also offered to a wildcard listen. *)
Definition offer_to_wildcard (id : string) (n now : Z) : prog unit :=
  stored ← copy id n;
  _ ← ensure (bool_decide (e_consumed_key stored = None))
        (EMsg "response event already consumed by another wait");
  if e_delivered stored then
    let stored := stored <| e_delivered := false |> in
    current ← run id;
    published_ ← some_or (checked_addu64 (s_published current) 1) (EMsg "published counter overflow");
    let current := current <| s_run ::= λ r, r <| r_wake_at_ms ::= λ w, Z.min w now |> |>
                           <| s_published := published_ |> in
    _ ← put (events_of id) (sequence n) stored;
    _ ← put (published_of id) (sequence n) n;
    _ ← put (live_published_of id) (live_key n stored) n;
    store_run current
  else mret ().
Definition respond_command (request : Request) (id key_ : string) (event : value) (now : Z)
    (policy : Policy) : prog Reply :=
  let canonical := normalize_command (CmdRespond id key_ event) in
  identity_ ← some_or (identity event)
    (EControl (InvalidInput "response requires event source and id"));
  let kind := partition "control_response" id in
  let dedup_ := component identity_ in
  let closed := EControl (WaitClosed id key_) in
  answered ← get (T := Entry) kind dedup_;
  match answered with
  | Some entry =>
      if decide (en_command entry = canonical) then mret (en_reply entry)
      else PFail (EControl (ResponseConflict (show_identity identity_)))
  | None =>
      s ← find_run id;
      s ← some_or s (EControl (NotFound EntityRun id));
      w ← some_or (s_waits s !! key_) closed;
      _ ← ensure (bool_decide (r_ended_ms (s_run s) = None)
                  && is_none_or (w_timeout_ms w) (λ at_, bool_decide (now < at_))) closed;
      event ← complete_response event now;
      matched ← match accepts w event with
        | Ok b => mret b
        | Err e => PFail (EControl (InvalidState
            ("wait " +:+ key_ +:+ " of run " +:+ id +:+ " cannot be matched here: " +:+ e)))
        end;
      _ ← ensure matched (EControl (WaitMismatch id key_));
      recipient ← deliver event (Some id) now policy;
      n ← get (T := Z) (identities_of id) dedup_;
      n ← some_or n (EMsg "response was not accepted");
      _ ← (if existsb (λ t, bool_decide (t = "*")) (w_types w)
           then offer_to_wildcard id n now else mret ());
      let result := Responded recipient in
      _ ← put kind dedup_ (mkControlEntry request canonical now result);
      mret result
  end.
Definition command_effect (fuel : nat) (request : Request) (c : Command) (now : Z) (policy : Policy)
    : prog Reply :=
  match c with
  | CmdCancel id => cancel_command fuel id now
  | CmdHold id note =>
      changed ← set_hold fuel id (Some (mkHold (rq_actor request) (rq_reason request) note now));
      mret (Changed changed)
  | CmdRelease id => changed ← set_hold fuel id None; mret (Changed changed)
  | CmdStop enabled => stop_command enabled now
  | CmdPause name note => pause_command request name note now
  | CmdResume name => resume_command name now
  | CmdRespond id key_ event => respond_command request id key_ event now policy
  end.
Definition command_run (c : Command) : option string :=
  match c with
  | CmdCancel run | CmdRespond run _ _ | CmdHold run _ | CmdRelease run => Some run
  | _ => None
  end.
(** [control_command]: the effect, the audit entry and the reply together. *)
Definition control_command (fuel : nat) (request : Request) (c : Command) (now : Z) (policy : Policy)
    : prog Applied :=
  _ ← ensure (negb (blank (rq_id request) || blank (rq_actor request) || blank (rq_reason request)))
        (EControl (InvalidInput "control request requires id, actor and reason"));
  let canonical := normalize_command c in
  known ← get (T := Entry) "control_command" (rq_id request);
  match known with
  | Some entry =>
      if decide (en_request entry = request ∧ en_command entry = canonical)
      then mret (mkApplied (en_reply entry) true)
      else PFail (EControl (RequestConflict (rq_id request)))
  | None =>
      reply ← command_effect fuel request c now policy;
      let entry := mkControlEntry request canonical now reply in
      _ ← put "control_command" (rq_id request) entry;
      let k := timed now (component (rq_id request)) in
      _ ← put "control_history" k entry;
      _ ← match command_run c with
          | Some run => put (partition "control_history_run" run) k entry
          | None => mret ()
          end;
      mret (mkApplied reply false)
  end.
End with_host.
