(* ===== verification/RunStore.v ===== *)
(** * The store's operations

    [crates/durable/src/engine.rs], section 6: the [RunStore] implementation.
    Each operation is one transaction; [update] and [read] of [Store] give its
    answer and the rows it leaves. An operation whose transaction answers with
    an inner [Err] (a refusal whose other writes commit) is unwrapped by
    [flatten]. [owner] is the fresh UUID of a claim. *)
From S2P Require Import Prelude Json Keys Outcome Journal Listen Types Store Index Admit.
From S2P Require Import Mailbox Triggers Lifecycle Control.

Definition flatten {A} (x : result error (result error A) * rows) : result error A * rows :=
  match x with
  | (Ok (Ok a), r) => (Ok a, r)
  | (Ok (Err e), r) => (Err e, r)
  | (Err e, r) => (Err e, r)
  end.

Record RunSnapshot := mkSnapshot {
  sn_run : SavedRun;
  sn_records : list (string * JRecord);
  sn_awaits : gmap string Z;
  sn_listeners : gmap string (list string);
  sn_events : list StoredEvent;
  sn_subscriptions : gmap string (list string)
}.
Record TotalsBucket := mkTotalsBucket { tb_start_ms : Z; tb_runs : Z; tb_annotations : Totals }.
Record DefinitionTotals := mkDefinitionTotals {
  dt_definition : string;
  dt_since_ms : Z;
  dt_before_ms : Z;
  dt_runs : Z;
  dt_annotations : Totals;
  dt_buckets : list TotalsBucket
}.
#[export] Instance eta_DefinitionTotals : Eta DefinitionTotals :=
  λ r, mkDefinitionTotals (dt_definition r) (dt_since_ms r) (dt_before_ms r) (dt_runs r)
         (dt_annotations r) (dt_buckets r).

Section with_host.
Context `{Host}.
Variable policy : Policy.
Let skew : Z := skew_ms policy.

(** ** Admission and leases *)

Definition admit_tx (a : Admission) (now : Z) : prog (result error bool) :=
  drained ← drain_marked (a_name a) now;
  refusal ← drained_refusal drained a;
  match refusal with
  | Some e => mret (Err e)
  | None => b ← insert_run a now; mret (Ok b)
  end.
Definition start_tx (owner : string) (a : Admission) (now : Z) : prog (result error (option Fence)) :=
  drained ← drain_marked (a_name a) now;
  refusal ← drained_refusal drained a;
  match refusal with
  | Some e => mret (Err e)
  | None =>
      s ← admitted a now JoinRoot;
      match s with
      | None => mret (Ok None)
      | Some s =>
          x ← claim_run s now owner;
          _ ← store_run x.1;
          mret (Ok (Some x.2))
      end
  end.
Definition claim_as_tx (owner : string) (id : string) (now : Z) (worker : Compatibility)
    : prog (option Fence) :=
  stopped ← is_stopped;
  if (stopped : bool) then mret None
  else
    s ← find_run id;
    match s with
    | None => mret None
    | Some s =>
        if negb (claimable (s_run s) now)
           || negb (admits worker (application_version (r_admission (s_run s)))) then mret None
        else
          x ← claim_run s now owner;
          _ ← store_run x.1;
          mret (Some x.2)
    end.
Definition check_lease_tx (f : Fence) (now : Z) : prog unit := _ ← checked f now skew; mret ().
Definition renew_tx (f : Fence) (now : Z) : prog (result error unit) :=
  _ ← running;
  s ← authority f now skew;
  let s := s <| s_run ::= λ r, r <| r_lease_until_ms := Some (sat_add64 now LEASE_MS) |> |> in
  _ ← store_run s;
  mret (if decide (is_Some (r_held (s_run s))) then Err (EHeld (run_id s)) else Ok ()).
Definition release_tx (f : Fence) (now : Z) : prog unit :=
  s ← authority f now skew;
  store_run (s <| s_run ::= λ r, r <| r_state := SReady |> <| r_fence := None |>
                 <| r_lease_until_ms := None |> <| r_wake_at_ms := now |> |>).

(** ** Records *)

Definition load_records_tx (f : Fence) (now : Z) : prog (list (string * JRecord)) :=
  _ ← checked f now skew;
  found ← scan (records_of (f_run_id f)) "" None None;
  map_each found (λ x, r ← decode (T := JRecord) x.2; mret (x.1, r)).
(** The answer of a call already dispatched, the only record a hold admits. *)
Definition is_answer (intent : option JRecord) (r : JRecord) : bool :=
  match intent, r with
  | Some (RCall c), RCall d =>
      bool_decide (call_state c = Pending) &&
      match call_state d with Done _ | NotExecuted _ => true | Pending => false end
  | _, _ => false
  end.
Definition completed_call (r : option JRecord) : bool :=
  match r with Some (RCall c) => is_done (call_state c) | _ => false end.
(** The run's totals with the numbers of an answer saved for the first time. *)
Definition add_answer (s : StoredRun) (old : option JRecord) (r : JRecord) : StoredRun :=
  match r with
  | RCall c =>
      if is_done (call_state c) && negb (completed_call old) then
        s <| s_run ::= λ x, x <| r_annotations ::= λ t, accumulate t (numbers (annotations c)) |> |>
      else s
  | _ => s
  end.
Definition reserved (r : JRecord) : option string :=
  match r with
  | REvent _ | RExpired _ => Some "event records must be committed by take_event"
  | RBudget _ _ _ | RExceeded _ => Some "budget records must be committed by spend"
  | _ => None
  end.
Definition save_record_tx (f : Fence) (k : string) (r : JRecord) (now : Z) : prog unit :=
  _ ← running;
  s ← authority f now skew;
  let kind := records_of (f_run_id f) in
  oldc ← get_cell kind k;
  _ ← (if decide (is_Some (r_held (s_run s))) then
         intent ← match oldc with
                  | Some c => x ← decode (T := JRecord) c; mret (Some x)
                  | None => mret None
                  end;
         if is_answer intent r then mret () else not_held s
       else mret ());
  _ ← match reserved r with
      | Some m => ensure (bool_decide (oldc = Some (to_cell r))) (EMsg m)
      | None => mret ()
      end;
  old ← match oldc with
        | Some c =>
            old ← decode (T := JRecord) c;
            _ ← match check_transition old r with Ok _ => mret () | Err m => PFail (EMsg m) end;
            mret (Some old)
        | None => mret None
        end;
  _ ← (if decide (oldc = Some (to_cell r)) then mret () else put kind k r);
  let s' := add_answer (s <| s_evidence := true |>) old r in
  if decide (s_evidence s = false ∨ r_annotations (s_run s') ≠ r_annotations (s_run s))
  then store_run s' else mret ().
Definition spend_tx (f : Fence) (k : string) (limit now : Z) : prog JRecord :=
  s ← checked f now skew;
  let kind := records_of (f_run_id f) in
  saved ← get (T := JRecord) kind k;
  match saved with
  | Some r =>
      match r with
      | RBudget _ _ _ => mret r
      | _ => PFail (EMsg ("invalid budget record at " +:+ k))
      end
  | None =>
      let root := default (f_run_id f) (r_root (s_run s)) in
      loaded ← get (T := Z) "budget" root;
      let spent := default 0 loaded in
      let granted := bool_decide (spent < limit) in
      let spent := spent + z_of_bool granted in
      _ ← (if granted then put "budget" root spent else mret ());
      first ← (if granted then mret None
        else
          exceeded ← get (T := JRecord) kind EXCEEDED;
          match exceeded with
          | Some (RExceeded by_) => mret (Some by_)
          | Some _ => PFail (EMsg "invalid first refusal record")
          | None => _ ← put kind EXCEEDED (RExceeded k); mret (Some k)
          end);
      let record := RBudget granted spent first in
      _ ← put kind k record;
      _ ← (if s_evidence s then mret () else store_run (s <| s_evidence := true |>));
      mret record
  end.

(** ** Waits and events *)

Definition describe_wait_tx (f : Fence) (k : string) (w : PendingWait) (now : Z) : prog unit :=
  s ← checked f now skew;
  let w := match s_waits s !! k with Some old => w <| w_since_ms := w_since_ms old |> | None => w end in
  if decide (s_waits s !! k = Some w) then mret ()
  else store_run (s <| s_waits ::= <[k := w]> |>).
Definition register_wait_tx (f : Fence) (types : list string) (now : Z) : prog unit :=
  s ← checked f now skew;
  store_run (foldl (λ s t,
    s <| s_addressed_waits ::= union {[t]} |>
      <| s_awaits ::= λ m, match m !! t with Some _ => m | None => <[t := now]> m end |>) s types).
Definition unregister_wait_tx (f : Fence) (k : string) (types : list string) (now : Z) : prog unit :=
  s ← checked f now skew;
  store_run (close (s <| s_listeners ::= delete k |>) types).
(** The oldest pending copy over the listed kinds. *)
Fixpoint oldest (kinds : list string) (best : option Z) : prog (option Z) :=
  match kinds with
  | [] => mret best
  | kind :: kinds =>
      found ← scan kind "" None (Some 1%nat);
      match found with
      | [] => oldest kinds best
      | (_, c) :: _ =>
          n ← some_or (match c with CJson v => as_u64 v | _ => None end)
                (EMsg "invalid pending event index");
          oldest kinds (Some (match best with Some b => Z.min b n | None => n end))
      end
  end.
Definition take_kinds (id : string) (types : list string) : list string :=
  (pending_of id <$> types) ++
  (if existsb (λ t, bool_decide (t = "*")) types then [published_of id] else []).
(** What a taken copy leaves of the run's registrations. *)
Definition taken (s : StoredRun) (k : string) (types : list string) : StoredRun :=
  close (s <| s_listeners ::= delete k |>
           <| s_waits ::= filter (λ x, w_position x.2 ≠ k) |>) types.
Definition take_event_tx (f : Fence) (k : string) (types : list string) (now : Z)
    : prog (option value) :=
  s ← checked f now skew;
  let id := f_run_id f in
  saved ← get (T := JRecord) (records_of id) k;
  match saved with
  | Some (REvent event) => mret (Some event)
  | Some _ => PFail (EMsg "invalid event checkpoint")
  | None =>
      x ← expire s now;
      let s := x.1 in
      candidate ← oldest (take_kinds id types) None;
      match candidate with
      | Some n =>
          stored ← copy id n;
          event ← envelope stored;
          let s := match strip_prefix "done:" (e_type stored) with
                   | Some child => s <| s_listeners ::= delete ("child:" +:+ child) |>
                   | None => s
                   end in
          s ← consume s n stored k;
          s ← (if decide (is_Some (e_expires_at_ms stored)) then refresh_mailbox s else mret s);
          let s := taken s k types in
          _ ← put (records_of id) k (REvent event);
          _ ← store_run s;
          mret (Some event)
      | None =>
          _ ← store_run (s <| s_listeners ::= <[k := types]> |>);
          mret None
      end
  end.
Definition subscribe_tx (f : Fence) (k : string) (types : list string) (now : Z) : prog unit :=
  s ← checked f now skew;
  store_run (s <| s_subscriptions ::= <[k := types]> |>).
Definition unsubscribe_tx (f : Fence) (k : string) (now : Z) : prog unit :=
  s ← checked f now skew;
  store_run (s <| s_subscriptions ::= delete k |> <| s_waits ::= delete k |>).
Definition deliver_tx (event : value) (target : option string) (now : Z) : prog (option string) :=
  deliver event target now policy.
Definition publish_tx (event : value) (target : option string) (now : Z) : prog (list string) :=
  publish event target now policy.
Definition ingested_tx (event : value) (now : Z) : prog bool := t ← tombstone event now; mret t.2.
End with_host.

(** ** The end of a drive, children *)

Section with_host_end.
Context `{Host}.
Variable policy : Policy.
Variable fuel : nat.
Let skew : Z := skew_ms policy.

(** The delay before an interrupted run is due again. *)
Definition backoff (interruptions : Z) : Z :=
  Z.min (Z.shiftl 2000 (Z.min (interruptions - 1) 20)) 600000.
Definition gave_up (n : Z) (error : WorkflowError) : Status :=
  Faulted (Error.runtime ("gave up after " +:+ pretty n +:+ " interruptions: " +:+ Error.display error)).
(** The row and the status a drive's outcome leaves, before the fence goes. *)
Definition finish_row (s : StoredRun) (outcome : Status) (now : Z) : prog (StoredRun * Status) :=
  match outcome with
  | Waiting wake =>
      let s := s <| s_run ::= λ r, r <| r_state := SWaiting |> <| r_interruptions := 0 |>
                                     <| r_wake_at_ms := wake |> |> in
      hit ← pending_wanted s now;
      mret (if (hit : bool) then s <| s_run ::= λ r, r <| r_wake_at_ms := now |> |> else s, outcome)
  | Interrupted error =>
      let n := sat_addu32 (r_interruptions (s_run s)) 1 in
      let s := s <| s_run ::= λ r, r <| r_interruptions := n |> |> in
      if decide (MAX_INTERRUPTIONS ≤ n) then mret (s, gave_up n error)
      else mret (s <| s_run ::= λ r, r <| r_state := SReady |>
                     <| r_wake_at_ms := sat_add64 now (backoff n) |> |>, outcome)
  | _ => mret (s <| s_run ::= λ r, r <| r_interruptions := 0 |> |>, outcome)
  end.
(** The fault a terminal outcome counts: not an exhausted interruption. *)
Definition counted_fault (outcome status : Status) : option WorkflowError :=
  match status, outcome with
  | Faulted _, Interrupted _ => None
  | Faulted e, _ => Some e
  | _, _ => None
  end.
Definition is_completed (s : Status) : bool := match s with Completed _ => true | _ => false end.
Definition finish_tx (f : Fence) (outcome : Status) (now threshold : Z) : prog Status :=
  s ← checked f now skew;
  x ← finish_row s outcome now;
  let '(s, status) := x in
  let s := s <| s_run ::= λ r, r <| r_fence := None |> <| r_lease_until_ms := None |> |> in
  _ ← store_run s;
  _ ← (if terminal status then
         _ ← breaker (s_run s) (counted_fault outcome status) (is_completed status) threshold now;
         terminate fuel (f_run_id f) status now
       else lifecycle (f_run_id f) status now);
  mret status.

(** The parent's automatic registrations for a child. *)
Definition expect_child (p : StoredRun) (child : string) (now : Z) : StoredRun :=
  let add t m := match m !! t with Some _ => m | None => <[t := now]> m end in
  p <| s_awaits ::= λ m, add ("waiting:" +:+ child) (add ("done:" +:+ child) m) |>
    <| s_listeners ::= <["child:" +:+ child := ["done:" +:+ child]]> |>.
Definition start_child_tx (owner : string) (parent : Fence) (a : Admission) (link : ChildLink)
    (now : Z) : prog (result error (option Fence)) :=
  p ← checked parent now skew;
  _ ← ensure (bool_decide (l_parent link = f_run_id parent) && bool_decide (a_id a ≠ f_run_id parent))
        (EMsg "invalid child parent");
  drained ← drain_marked (a_name a) now;
  refusal ← drained_refusal drained a;
  match refusal with
  | Some e => mret (Err e)
  | None =>
      _ ← store_run (expect_child p (a_id a) now);
      fresh ← admitted a now JoinChild;
      c ← match fresh with Some c => mret c | None => run (a_id a) end;
      let inserted := bool_decide (is_Some fresh) in
      let c := if inserted then
          c <| s_run ::= λ r, r <| r_child := Some link |>
                 <| r_root := Some (default (f_run_id parent) (r_root (s_run p))) |> |>
        else c in
      _ ← ensure (bool_decide (r_child (s_run c) = Some link))
            (EMismatch (mkMismatch (a_id a) FieldLink));
      x ← (if inserted then y ← claim_run c now owner; mret (y.1, Some y.2) else mret (c, None));
      let '(c, fence) := x in
      _ ← store_run c;
      _ ← match r_outcome (s_run c) with
          | Some outcome => lifecycle (a_id a) outcome now
          | None =>
              if decide (r_state (s_run c) = SWaiting) then lifecycle (a_id a) (Waiting 0) now
              else mret ()
          end;
      mret (Ok fence)
  end.
Definition child_outcome_tx (parent k child : string) : prog (option Status) :=
  s ← run child;
  _ ← ensure (is_some_and (r_child (s_run s)) (λ l,
          bool_decide (l_parent l = parent) && bool_decide (l_key l = k)))
        (EMsg "child belongs to another parent or key");
  mret (r_outcome (s_run s)).
Definition cancel_tx (id : string) (now : Z) : prog bool := cancel_run fuel id now.
Definition fire_tx (f : Firing) (now : Z) : prog (result error Fired) := fire fuel f now policy.
Definition apply_control_tx (request : Request) (c : Command) (now : Z) : prog Applied :=
  control_command fuel request c now policy.

(** ** Due runs and retention *)

Definition due_ids (found : list (string * cell)) : prog (list (string * string)) :=
  map_each found (λ x, id ← some_or (index_id x.2) (EMsg "invalid due index"); mret (x.1, id)).
Definition due_as_tx (now : Z) (limit : nat) (worker : Compatibility) : prog (list string) :=
  stopped ← is_stopped;
  if (stopped : bool) then mret []
  else
    _ ← drain_pending now limit;
    match c_version worker with
    | None =>
        found ← scan "due" "" (Some (until now)) (Some limit);
        ids ← due_ids found;
        mret ids.*2
    | Some own =>
        let versions := dedup (merge_sort String.le ("" :: own :: c_accepts worker)) in
        due ← fold_each versions [] (λ due v,
          found ← scan (partition "due_app" v) "" (Some (until now)) (Some limit);
          ids ← due_ids found;
          mret (due ++ ids));
        mret (take limit (merge_sort key_le due).*2)
    end.
Definition sweep_finished (horizon : Z) (sw : Swept) (s : StoredRun) : prog Swept :=
  if is_some_and (r_ended_ms (s_run s)) (λ at_, bool_decide (at_ ≤ horizon)) then
    x ← forget s;
    _ ← store_run x.1;
    mret (sw <| sw_records ::= Nat.add x.2 |>)
  else mret sw.
Definition sweep_mailbox (now : Z) (sw : Swept) (s : StoredRun) : prog Swept :=
  x ← expire s now;
  _ ← store_run x.1;
  mret (sw <| sw_expired ::= Nat.add x.2 |>).
(** Drops the rows a time index lists up to [end_], with their entries. *)
Definition sweep_index (index kind : string) (end_ : string) (invalid : string) : prog nat :=
  found ← scan index "" (Some end_) None;
  _ ← for_each found (λ x,
        id ← some_or (index_id x.2) (EMsg invalid);
        _ ← delete_row index x.1;
        delete_row kind id);
  mret (length found).
Definition sweep_tx (now kept : Z) : prog Swept :=
  let horizon := sat_sub64 now kept in
  finished ← indexed_runs "finished" "" (Some (until horizon)) None;
  sw ← fold_each finished (mkSwept 0 0 0 0) (sweep_finished horizon);
  waiting ← indexed_runs "mailbox" "" (Some (until now)) None;
  sw ← fold_each waiting sw (sweep_mailbox now);
  tombstones ← sweep_index "ingress_due" "ingress" (until now) "invalid ingress index";
  workers ← sweep_index "worker_expiry" "worker" (until (sat_sub64 now WORKERS_KEPT_MS))
              "invalid worker index";
  mret (sw <| sw_tombstones := tombstones |> <| sw_workers := workers |>).
(** [sweep] refuses a negative retention before opening a transaction. *)
Definition sweep (read_only : bool) (now kept : Z) (r : rows) : result error Swept * rows :=
  if decide (0 ≤ kept) then update read_only (sweep_tx now kept) r
  else (Err (EMsg "negative retention"), r).
End with_host_end.

(** ** Queries *)

Section with_host_queries.
Context `{Host}.

Definition get_tx (id : string) : prog (option SavedRun) :=
  s ← find_run id; mret (option_map s_run s).
Definition list_tx (name : option string) (prefix : string) : prog (list SavedRun) :=
  let end_ := prefix_end prefix in
  match name with
  | Some name => runs ← indexed_runs (partition "name" name) prefix end_ None; mret (map s_run runs)
  | None =>
      found ← scan "run" prefix end_ None;
      runs ← map_each found (λ x, stored_run x.2);
      mret (map s_run runs)
  end.
Definition snapshot (s : StoredRun) : prog RunSnapshot :=
  records ← scan (records_of (run_id s)) "" None None;
  records ← map_each records (λ x, r ← decode (T := JRecord) x.2; mret (x.1, r));
  events ← scan (events_of (run_id s)) "" None None;
  events ← map_each events (λ x, decode (T := StoredEvent) x.2);
  mret (mkSnapshot (s_run s) records (s_awaits s) (s_listeners s) events (s_subscriptions s)).
Definition inspect_tx (id : string) : prog (option RunSnapshot) :=
  s ← find_run id;
  match s with None => mret None | Some s => x ← snapshot s; mret (Some x) end.
Definition stopped_tx : prog bool := is_stopped.
Definition control_entry_tx (id : string) : prog (option Entry) := get (T := Entry) "control_command" id.
Definition control_history_tx (run : option string) (cursor : option Cursor) (limit : nat)
    : prog (Page Entry) :=
  let kind := match run with Some r => partition "control_history_run" r | None => "control_history" end in
  page ← page_rows kind kind None None cursor limit;
  items ← map_each page.1 (λ x, decode (T := Entry) x.2);
  mret (mkPage items page.2).
Definition trigger_tx (k : string) : prog (option Trigger) := get_trigger k.
Definition due_triggers_tx (now : Z) (limit : nat) : prog (list (string * Trigger)) :=
  stopped ← is_stopped;
  if (stopped : bool) then mret []
  else found ← scan "trigger_due" "" (Some (until now)) (Some limit); indexed_triggers found.
(** The rows found are keyed by kind: the exact type's and the wildcard's. *)
Definition wildcard_first (t : string) : bool :=
  str_ltb (partition "trigger_type" "*") (partition "trigger_type" t).
Definition triggers_for_tx (t : string) (limit : nat) : prog (list (string * Trigger)) :=
  stopped ← is_stopped;
  if (stopped : bool) then mret []
  else
    found ← scan (partition "trigger_type" t) "" None (Some limit);
    found ← (if decide (t ≠ "*" ∧ (length found < limit)%nat) then
               wild ← scan (partition "trigger_type" "*") "" None (Some (limit - length found)%nat);
               mret (if wildcard_first t then wild ++ found else found ++ wild)
             else mret found);
    indexed_triggers found.
Definition queued_tx (k : string) : prog (option Admission) :=
  q ← queued k; mret (option_map q_admission q).

(** ** The worker table *)

Definition beat_tx (w : Worker) : prog unit :=
  old ← get (T := Worker) "worker" (wk_id w);
  let write :=
    _ ← put "worker_expiry" (timed (wk_expires_ms w) (component (wk_id w))) (wk_id w);
    put "worker" (wk_id w) w in
  match old with
  | None => write
  | Some old =>
      if decide (wk_beat_ms w < wk_beat_ms old) then mret ()
      else
        _ ← (if decide (wk_expires_ms old = wk_expires_ms w) then mret ()
             else delete_row "worker_expiry" (timed (wk_expires_ms old) (component (wk_id old))));
        write
  end.
Definition beat (read_only : bool) (w : Worker) (r : rows) : result error unit * rows :=
  if decide (wk_id w = "") then (Err (EMsg "a worker needs an id"), r)
  else update read_only (beat_tx w) r.
Definition workers_tx (cursor : option Cursor) (limit : nat) : prog (Page Worker) :=
  page ← page_rows "worker" "workers" None None cursor limit;
  items ← map_each page.1 (λ x, decode (T := Worker) x.2);
  mret (mkPage items page.2).

(** ** Totals *)

(** The whole buckets a window covers. *)
Definition totals_window (since before : Z) : Z * Z :=
  let start := bucket_start since in
  (start, Z.max (sat_add64 (bucket_start (sat_sub64 before 1)) TOTALS_BUCKET_MS) start).
Definition totals_tx (name : string) (start end_ : Z) : prog DefinitionTotals :=
  found ← scan (partition "totals" name) (time_key start) (Some (time_key end_)) (Some MAX_TOTALS_BUCKETS);
  fold_each found (mkDefinitionTotals name start end_ 0 ∅ []) (λ totals x,
    b ← decode (T := Bucket) x.2;
    start_ms ← some_or (time_of_key x.1) (EMsg "invalid digit found in string");
    mret (totals <| dt_runs ::= λ n, sat_addu64 n (b_runs b) |>
                 <| dt_annotations ::= λ t, accumulate t (entries (b_annotations b)) |>
                 <| dt_buckets ::= λ l, l ++ [mkTotalsBucket start_ms (b_runs b) (b_annotations b)] |>)).
Definition totals (name : string) (since before : Z) (r : rows)
    : result error DefinitionTotals * rows :=
  if decide (before < since) then (Err (EControl (InvalidInput "invalid time window")), r)
  else
    let '(start, end_) := totals_window since before in
    if decide (Z.of_nat MAX_TOTALS_BUCKETS < sat_sub64 end_ start / TOTALS_BUCKET_MS)
    then (Err (EControl (InvalidInput
           "a totals window covers at most 1000 buckets of 3600000 ms")), r)
    else read (totals_tx name start end_) r.

(** ** The catalog *)

(** [digest_of]: the hash of the canonical document. *)
Fixpoint join_with (sep : string) (l : list string) : string :=
  match l with
  | [] => ""
  | [x] => x
  | x :: l => x +:+ sep +:+ join_with sep l
  end.
Fixpoint canonical (v : value) : string :=
  match v with
  | VArr items => "[" +:+ join_with "," (canonical <$> items) +:+ "]"
  | VObj m =>
      "{" +:+ join_with "," ((λ x, value_to_string (VStr x.1) +:+ ":" +:+ x.2) <$> entries (canonical <$> m))
          +:+ "}"
  | scalar => value_to_string scalar
  end.
Definition digest_of (yaml : string) : string :=
  let text := match yaml_value yaml with
              | Some document => "yaml:" +:+ canonical document
              | None => "raw:" +:+ yaml
              end in
  foldr (λ b s, hex_fixed 2 b +:+ s) "" (sha256 text).
(** The next version number of a catalog. *)
Definition last_version (defs : Definitions) : option Z :=
  foldr (λ v m, Some (match m with Some m => Z.max v m | None => v end)) None (map_to_list (versions defs)).*1.
Definition next_version (defs : Definitions) : option Z :=
  match last_version defs with None => Some 1 | Some v => checked_addu64 v 1 end.
Definition save_definition_tx (name yaml : string) (b : Breaker) : prog DefinitionV :=
  loaded ← load_definitions name;
  let defs := default default_definitions loaded in
  version ← some_or (next_version defs) (EMsg "definition version overflow");
  let d := mkDefinition name version yaml (digest_of yaml) b in
  _ ← store_definitions name (defs <| versions ::= <[version := d]> |>);
  mret d.
Definition activate_tx (name : string) (version now : Z) : prog unit :=
  _ ← activate name version None ∅ (activation_at now); mret ().
Definition activate_with_tx (name : string) (version epoch_ : Z) (arming : gmap string Trigger)
    (a : Activation) : prog (option Definitions) := activate name version (Some epoch_) arming a.
Definition definitions_tx (name : string) : prog Definitions :=
  d ← load_definitions name; mret (default default_definitions d).
Definition notices_tx (limit : nat) : prog (list (string * cell)) := scan "notice" "" None (Some limit).
Definition acknowledge_tx (k : string) : prog bool :=
  n ← get_cell "notice" k;
  match n with None => mret false | Some _ => _ ← delete_row "notice" k; mret true end.
End with_host_queries.
