(* ===== verification/Logic.v ===== *)
(** * Reasoning about transactions

    A weakest precondition for programs over rows ([wp]: what holds of the
    answer and the rows if the transaction does not fail), its rules, the order
    and membership of scans, what a list of changes writes, and the guarantee
    of read transactions. [stable R p] says that [p] relates the rows before
    and after by the preorder [R]; it is closed under every way programs are
    composed, so that it is proved once per write. *)
From S2P Require Import Prelude Json Keys Outcome Journal Listen Types Store.

Definition wp {A} (p : prog A) (Q : A → rows → Prop) (r : rows) : Prop :=
  match exec p r with Ok (a, r') => Q a r' | Err _ => True end.

(** ** Sequencing *)

Lemma exec_bind {A B} (p : prog A) (f : A → prog B) r :
  exec (p ≫= f) r = match exec p r with Ok (a, r') => exec (f a) r' | Err e => Err e end.
Proof.
  revert r. unfold mbind, prog_bind. induction p as [a|e|o k IH]; intros r; simpl; [done|done|].
  destruct (exec_op r o) as [x r'] eqn:E. simpl. by rewrite IH.
Qed.

Lemma wp_bind {A B} (p : prog A) (f : A → prog B) Q r :
  wp p (λ a r', wp (f a) Q r') r → wp (p ≫= f) Q r.
Proof. unfold wp. rewrite exec_bind. by destruct (exec p r) as [[a r']|e]. Qed.

Lemma wp_mono {A} (p : prog A) (P Q : A → rows → Prop) r :
  wp p P r → (∀ a r', P a r' → Q a r') → wp p Q r.
Proof. unfold wp. destruct (exec p r) as [[a r']|e]; auto. Qed.

Lemma wp_ret {A} (a : A) (Q : A → rows → Prop) r : Q a r → wp (mret a) Q r.
Proof. done. Qed.
Lemma wp_pret {A} (a : A) (Q : A → rows → Prop) r : Q a r → wp (PRet a) Q r.
Proof. done. Qed.
Lemma wp_fail {A} (e : error) (Q : A → rows → Prop) r : wp (PFail e) Q r.
Proof. done. Qed.
Lemma wp_exec {A} (p : prog A) Q r a r' : wp p Q r → exec p r = Ok (a, r') → Q a r'.
Proof. unfold wp. intros H E. by rewrite E in H. Qed.
Lemma wp_exec_intro {A} (p : prog A) (Q : A → rows → Prop) r :
  (∀ a r', exec p r = Ok (a, r') → Q a r') → wp p Q r.
Proof. unfold wp. destruct (exec p r) as [[a r']|e]; auto. Qed.

(** ** Operations *)

Lemma wp_get_cell (kind id : string) (Q : option cell → rows → Prop) r :
  Q (r !! (kind, id)) r → wp (get_cell kind id) Q r.
Proof. done. Qed.
Lemma wp_scan (kind start : string) (end_ : option string) (limit : option nat) (Q : list (string * cell) → rows → Prop) r :
  Q (scan_rows r kind start end_ limit) r → wp (scan kind start end_ limit) Q r.
Proof. done. Qed.
Lemma wp_put_cell (kind id : string) (c : cell) (Q : unit → rows → Prop) r :
  Q tt (<[(kind, id) := c]> r) → wp (put_cell kind id c) Q r.
Proof. done. Qed.
Lemma wp_put {T} `{Row T} (kind id : string) (x : T) (Q : unit → rows → Prop) r :
  Q tt (<[(kind, id) := to_cell x]> r) → wp (put kind id x) Q r.
Proof. done. Qed.
Lemma wp_delete_row (kind id : string) (Q : unit → rows → Prop) r :
  Q tt (delete (kind, id) r) → wp (delete_row kind id) Q r.
Proof. done. Qed.
Lemma wp_decode {T} `{Row T} (c : cell) (Q : T → rows → Prop) r :
  (∀ x, of_cell c = Some x → Q x r) → wp (decode c) Q r.
Proof. intros HQ. unfold decode. destruct (of_cell c) as [x|] eqn:E; [|done]. by apply wp_pret, HQ. Qed.
Lemma wp_get {T} `{Row T} (kind id : string) (Q : option T → rows → Prop) r :
  (r !! (kind, id) = None → Q None r) →
  (∀ c x, r !! (kind, id) = Some c → of_cell c = Some x → Q (Some x) r) →
  wp (get kind id) Q r.
Proof.
  intros HN HS. unfold get. apply wp_bind, wp_get_cell.
  destruct (r !! (kind, id)) as [c|] eqn:E; [|by apply wp_ret, HN].
  apply wp_bind, wp_decode. intros x Hx. by eapply wp_ret, HS.
Qed.
Lemma wp_ensure (b : bool) (e : error) (Q : unit → rows → Prop) r : (b = true → Q tt r) → wp (ensure b e) Q r.
Proof. intros HQ. destruct b; [by apply wp_pret, HQ|apply wp_fail]. Qed.
Lemma wp_some_or {A} (o : option A) (e : error) (Q : A → rows → Prop) r :
  (∀ a, o = Some a → Q a r) → wp (some_or o e) Q r.
Proof. intros HQ. destruct o; [by apply wp_pret, HQ|apply wp_fail]. Qed.

(** ** Loops, by an invariant over the rows *)

Lemma wp_for_each {A} (l : list A) (f : A → prog unit) (I : list A → rows → Prop) r :
  I l r →
  (∀ (x : A) (l : list A) (r : rows), I (x :: l) r → wp (f x) (λ _ r', I l r') r) →
  wp (for_each l f) (λ _ r', I [] r') r.
Proof.
  intros HI Hf. revert r HI. induction l as [|x l IH]; intros r HI; simpl; [by apply wp_pret|].
  apply wp_bind. eapply wp_mono; [by apply Hf|]. intros [] r' Hr. by apply IH.
Qed.
Lemma wp_fold_each {A S} (l : list A) (s : S) (f : S → A → prog S) (I : list A → S → rows → Prop) r :
  I l s r →
  (∀ x l s r, I (x :: l) s r → wp (f s x) (λ s' r', I l s' r') r) →
  wp (fold_each l s f) (λ s' r', I [] s' r') r.
Proof.
  intros HI Hf. revert s r HI. induction l as [|x l IH]; intros s r HI; simpl; [by apply wp_pret|].
  apply wp_bind. eapply wp_mono; [by apply Hf|]. intros s' r' H. by apply IH.
Qed.
Lemma wp_map_each {A B} (l : list A) (f : A → prog B) (P : A → B → Prop) r :
  (∀ x, x ∈ l → wp (f x) (λ y r', P x y ∧ r' = r) r) →
  wp (map_each l f) (λ ys r', Forall2 P l ys ∧ r' = r) r.
Proof.
  induction l as [|x l IH]; intros Hf; simpl; [by apply wp_pret|].
  apply wp_bind. eapply wp_mono; [apply Hf; left|]. intros y r' [HP ->].
  apply wp_bind. eapply wp_mono; [apply IH; intros; apply Hf; by right|].
  intros ys r' [HF ->]. apply wp_ret. split; [by constructor|done].
Qed.

(** ** Stability under a preorder on rows *)

Definition stable {A} (R : relation rows) (p : prog A) : Prop := ∀ r, wp p (λ _ r', R r r') r.

Section stable.
Context {R : relation rows} `{!PreOrder R}.

Lemma stable_ret {A} (a : A) : stable R (mret a).
Proof. intros r. apply wp_ret. reflexivity. Qed.
Lemma stable_pret {A} (a : A) : stable R (PRet a).
Proof. intros r. apply wp_pret. reflexivity. Qed.
Lemma stable_fail {A} (e : error) : stable R (PFail (A:=A) e).
Proof. intros r. done. Qed.
Lemma stable_bind {A B} (p : prog A) (f : A → prog B) :
  stable R p → (∀ a, stable R (f a)) → stable R (p ≫= f).
Proof.
  intros Hp Hf r. apply wp_bind. eapply wp_mono; [apply Hp|]. intros a r' Hr.
  eapply wp_mono; [apply Hf|]. intros b r'' Hr'. exact (transitivity Hr Hr').
Qed.
Lemma stable_get_cell (kind id : string) : stable R (get_cell kind id).
Proof. intros r. apply wp_get_cell. reflexivity. Qed.
Lemma stable_scan (kind start : string) (end_ : option string) (limit : option nat) :
  stable R (scan kind start end_ limit).
Proof. intros r. apply wp_scan. reflexivity. Qed.
Lemma stable_decode {T} `{Row T} (c : cell) : stable R (decode (T:=T) c).
Proof. intros r. apply wp_decode. intros x _. reflexivity. Qed.
Lemma stable_get {T} `{Row T} (kind id : string) : stable R (get (T:=T) kind id).
Proof. intros r. apply wp_get; intros; reflexivity. Qed.
Lemma stable_ensure (b : bool) (e : error) : stable R (ensure b e).
Proof. intros r. apply wp_ensure. intros _. reflexivity. Qed.
Lemma stable_some_or {A} (o : option A) (e : error) : stable R (some_or o e).
Proof. intros r. apply wp_some_or. intros a' _. reflexivity. Qed.
Lemma stable_for_each {A} (l : list A) (f : A → prog unit) :
  (∀ x, stable R (f x)) → stable R (for_each l f).
Proof.
  intros Hf. induction l as [|x l IH]; simpl; [apply stable_pret|].
  by apply stable_bind.
Qed.
Lemma stable_fold_each {A S} (l : list A) (s : S) (f : S → A → prog S) :
  (∀ s x, stable R (f s x)) → stable R (fold_each l s f).
Proof.
  intros Hf. revert s. induction l as [|x l IH]; intros s; simpl; [apply stable_pret|].
  by apply stable_bind.
Qed.
Lemma stable_map_each {A B} (l : list A) (f : A → prog B) :
  (∀ x, stable R (f x)) → stable R (map_each l f).
Proof.
  intros Hf. induction l as [|x l IH]; simpl; [apply stable_pret|].
  apply stable_bind; [done|]. intros y. apply stable_bind; [done|]. intros ys. apply stable_ret.
Qed.
End stable.

Create HintDb stable.
#[export] Hint Resolve stable_ret stable_pret stable_fail stable_bind stable_get_cell stable_scan
  stable_decode stable_get stable_ensure stable_some_or stable_for_each stable_fold_each
  stable_map_each : stable.

(** Walks through a program whose writes the [stable] database knows. *)
Ltac stable_step :=
  match goal with
  | |- stable _ _ => solve [eauto 2 with stable typeclass_instances]
  | |- stable _ (match ?x with _ => _ end) => destruct x
  | |- stable _ (let '_ := ?x in _) => destruct x
  | |- stable _ (_ ≫= _) => apply stable_bind; [|intros]
  | |- stable _ (for_each _ _) => apply stable_for_each; intros
  | |- stable _ (fold_each _ _ _) => apply stable_fold_each; intros
  | |- stable _ (map_each _ _) => apply stable_map_each; intros
  | |- _ => progress intros
  end.
Ltac solve_stable := repeat (stable_step; cbn beta iota).

(** ** Scans *)

Lemma rows_of_perm (r : rows) (kind start : string) (end_ : option string) :
  rows_of r kind start end_ ≡ₚ omap (λ '((k, id), c),
    if decide (k = kind ∧ in_range start end_ id) then Some (id, c) else None) (map_to_list r).
Proof. apply merge_sort_Permutation. Qed.

Lemma elem_of_rows_of (r : rows) (kind start : string) (end_ : option string) (id : string) (c : cell) :
  (id, c) ∈ rows_of r kind start end_ ↔ r !! (kind, id) = Some c ∧ in_range start end_ id = true.
Proof.
  rewrite rows_of_perm, list_elem_of_omap. split.
  - intros [[[k i] c'] [Hin H]]. case_decide as Hd; [|done]. injection H as -> ->.
    destruct Hd as [-> Hr]. apply elem_of_map_to_list in Hin. by rewrite Is_true_true in Hr.
  - intros [Hl Hr]. exists ((kind, id), c). rewrite elem_of_map_to_list. split; [done|].
    rewrite decide_True; [done|]. by rewrite Is_true_true.
Qed.

Lemma rows_of_sorted (r : rows) (kind start : string) (end_ : option string) :
  StronglySorted key_le (rows_of r kind start end_).
Proof. apply StronglySorted_merge_sort; apply _. Qed.

Lemma omap_fst_NoDup (l : list (Key * cell)) kind start end_ :
  NoDup l.*1 →
  NoDup (omap (λ '((k, id), c),
    if decide (k = kind ∧ in_range start end_ id) then Some (id, c) else None) l).*1.
Proof.
  induction l as [|[[k i] c] l IH]; [constructor|]. rewrite fmap_cons, NoDup_cons. intros [Hn Hd].
  simpl. case_decide as Hk; [|by apply IH]. simpl. constructor; [|by apply IH].
  intros [[i' c'] [-> Hin]]%list_elem_of_fmap. simpl in *. apply Hn.
  apply list_elem_of_omap in Hin as [[[k' i''] c''] [Hin H]]. case_decide as Hk'; [|done].
  injection H as -> ->. destruct Hk as [-> _], Hk' as [-> _].
  apply list_elem_of_fmap. by exists ((kind, i'), c').
Qed.

Lemma rows_of_NoDup (r : rows) (kind start : string) (end_ : option string) :
  NoDup (rows_of r kind start end_).*1.
Proof. rewrite rows_of_perm. apply omap_fst_NoDup, NoDup_fst_map_to_list. Qed.

Lemma elem_of_limited {A} limit (l : list A) x : x ∈ limited limit l → x ∈ l.
Proof.
  destruct limit as [n|]; simpl; [|done]. intros H.
  rewrite <- (take_drop n l). apply elem_of_app. by left.
Qed.

Lemma elem_of_scan_rows (r : rows) (kind start : string) (end_ : option string) (limit : option nat)
    (id : string) (c : cell) :
  (id, c) ∈ scan_rows r kind start end_ limit →
  r !! (kind, id) = Some c ∧ in_range start end_ id = true.
Proof. intros H%elem_of_limited. by apply elem_of_rows_of. Qed.

Lemma limited_NoDup {A} limit (l : list (string * A)) : NoDup l.*1 → NoDup (limited limit l).*1.
Proof.
  destruct limit as [n|]; simpl; [|done]. rewrite <- (take_drop n l) at 1.
  rewrite fmap_app. intros [H _]%NoDup_app. done.
Qed.

Lemma scan_rows_NoDup (r : rows) (kind start : string) (end_ : option string) (limit : option nat) :
  NoDup (scan_rows r kind start end_ limit).*1.
Proof. apply limited_NoDup, rows_of_NoDup. Qed.

Lemma str_leb_nil s : str_leb "" s = true.
Proof. by destruct s. Qed.

(** A scan of a whole kind. *)
Lemma elem_of_scan_all (r : rows) (kind id : string) (c : cell) :
  (id, c) ∈ scan_rows r kind "" None None ↔ r !! (kind, id) = Some c.
Proof.
  unfold scan_rows. simpl. rewrite elem_of_rows_of. unfold in_range. rewrite str_leb_nil.
  split; [by intros [Hc _]|done].
Qed.

(** ** Changes *)

Lemma exec_changes_gen (l : list (Key * option cell)) r :
  ∃ r', exec (for_each l apply_change) r = Ok (tt, r') ∧
    (NoDup l.*1 → ∀ k, r' !! k = match list_find (λ x, x.1 = k) l with
                       | Some (_, (_, o)) => o
                       | None => r !! k
                       end).
Proof.
  revert r. induction l as [|[[kind id] o] l IH]; intros r.
  - exists r. split; done.
  - cbn [for_each].
    set (r1 := match o with Some c => <[(kind, id) := c]> r | None => delete (kind, id) r end).
    assert (exec (apply_change ((kind, id), o)) r = Ok (tt, r1)) as E by by destruct o.
    destruct (IH r1) as (r' & E' & Hr'). exists r'. split; [by rewrite exec_bind, E|].
    rewrite fmap_cons, NoDup_cons. intros [Hn Hd] k. rewrite Hr' by done. simpl.
    destruct (decide ((kind, id) = k)) as [<-|Hk].
    + destruct (list_find _ l) as [[i [k' o']]|] eqn:F.
      * apply list_find_Some in F as (Hi & Hk' & _). simpl in *. subst k'. exfalso. apply Hn.
        apply list_elem_of_fmap. exists ((kind, id), o'). split; [done|].
        by eapply list_elem_of_lookup_2.
      * unfold r1. destruct o; by rewrite ?lookup_insert_eq, ?lookup_delete_eq.
    + destruct (list_find _ l) as [[i [k' o']]|]; [done|]. simpl.
      unfold r1. destruct o; by rewrite ?lookup_insert_ne, ?lookup_delete_ne.
Qed.

Lemma elem_of_changes (before after : gmap Key cell) k o :
  (k, o) ∈ changes before after ↔
    match o with
    | Some v => after !! k = Some v ∧ before !! k ≠ Some v
    | None => after !! k = None ∧ is_Some (before !! k)
    end.
Proof.
  unfold changes. rewrite elem_of_app, !list_elem_of_fmap. split.
  - intros [([k' v] & [= -> ->] & [Hb Ha]%list_elem_of_filter)|(k' & [= -> ->] & [Ha Hin]%list_elem_of_filter)].
    + apply elem_of_map_to_list in Ha. done.
    + apply list_elem_of_fmap in Hin as ([k'' v] & -> & Hin%elem_of_map_to_list). simpl in *. eauto.
  - destruct o as [v|].
    + intros [Ha Hb]. left. exists (k, v). split; [done|].
      apply list_elem_of_filter. by rewrite elem_of_map_to_list.
    + intros [Ha [v Hb]]. right. exists k. split; [done|]. apply list_elem_of_filter.
      split; [done|]. apply list_elem_of_fmap. exists (k, v). by rewrite elem_of_map_to_list.
Qed.

Lemma NoDup_fst_filter {K A} (P : K * A → Prop) `{∀ x, Decision (P x)} (l : list (K * A)) :
  NoDup l.*1 → NoDup (filter P l).*1.
Proof.
  induction l as [|x l IH]; [done|]. rewrite filter_cons, fmap_cons, NoDup_cons. intros [Hx Hl].
  case_decide; [|by apply IH]. rewrite fmap_cons, NoDup_cons. split; [|by apply IH].
  intros (y & Hxy & [_ Hy]%list_elem_of_filter)%list_elem_of_fmap. apply Hx.
  apply list_elem_of_fmap. eauto.
Qed.
Lemma changes_NoDup (before after : gmap Key cell) : NoDup (changes before after).*1.
Proof.
  unfold changes. rewrite fmap_app, <- !list_fmap_compose. apply NoDup_app. repeat split.
  - match goal with |- NoDup (?f <$> ?l) =>
      replace (f <$> l) with (l.*1) by (apply list_fmap_ext; by intros i [k v] _) end.
    apply NoDup_fst_filter, NoDup_fst_map_to_list.
  - intros k ([k1 v] & -> & [_ Ha]%list_elem_of_filter)%list_elem_of_fmap
      (k2 & Hk & [Hn _]%list_elem_of_filter)%list_elem_of_fmap.
    apply elem_of_map_to_list in Ha. simpl in *. congruence.
  - match goal with |- NoDup (?f <$> ?l) =>
      replace (f <$> l) with l by (symmetry; apply list_fmap_id) end.
    apply NoDup_filter, NoDup_fst_map_to_list.
Qed.

(** What the writes of [changes] leave under each key. *)
Definition replaced (before after : gmap Key cell) (r : rows) (k : Key) : option cell :=
  match after !! k with
  | Some v => if decide (before !! k = Some v) then r !! k else Some v
  | None => if decide (is_Some (before !! k)) then None else r !! k
  end.
Lemma exec_changes (before after : gmap Key cell) r :
  ∃ r', exec (for_each (changes before after) apply_change) r = Ok (tt, r') ∧
    ∀ k, r' !! k = replaced before after r k.
Proof.
  destruct (exec_changes_gen (changes before after) r) as (r' & E & Hr').
  exists r'. split; [done|]. intros k. rewrite (Hr' (changes_NoDup before after) k).
  destruct (list_find _ _) as [[i [k' o]]|] eqn:F.
  - apply list_find_Some in F as (Hi & Hk & _). simpl in Hk. subst k'.
    apply list_elem_of_lookup_2, elem_of_changes in Hi. unfold replaced. destruct o as [v|].
    + destruct Hi as [-> Hb]. by rewrite decide_False.
    + destruct Hi as [-> Hb]. by rewrite decide_True.
  - apply list_find_None in F. rewrite Forall_forall in F. unfold replaced.
    destruct (after !! k) as [v|] eqn:Ha.
    + case_decide as Hb; [done|]. exfalso. apply (F (k, Some v)); [|done]. by apply elem_of_changes.
    + case_decide as Hb; [|done]. exfalso. apply (F (k, None)); [|done]. by apply elem_of_changes.
Qed.

(** ** Read transactions *)

Lemma guarded_rows {A} (p : prog A) r a r' : exec (guarded p) r = Ok (a, r') → r' = r.
Proof.
  revert r. induction p as [b|e|[kind id|kind start e l|kind id c|kind id] k IH]; intros r H; simpl in H.
  - by injection H as -> ->.
  - done.
  - by eapply IH.
  - by eapply IH.
  - done.
  - done.
Qed.

(** A program that only reads leaves the rows: its answer is all of its run. *)
Lemma exec_reads {A} (p : prog A) r a :
  stable eq p → fst <$> exec p r = Ok a → exec p r = Ok (a, r).
Proof.
  intros Hp. specialize (Hp r). unfold wp in Hp. destruct (exec p r) as [[b r']|e]; [|done].
  cbn. subst r'. by intros [= ->].
Qed.
Lemma wp_step {A} (p : prog A) (Q : A → rows → Prop) r a r' : exec p r = Ok (a, r') → Q a r' → wp p Q r.
Proof. intros E HQ. unfold wp. by rewrite E. Qed.

(** ** Read transactions *)

(** A read transaction never changes the store: whatever the program does,
    the rows after it are the rows before it, answered or refused. *)
Theorem read_never_writes {A} (p : prog A) r : (read p r).2 = r.
Proof.
  unfold read, committed. destruct (exec (guarded p) r) as [[a r']|e] eqn:E; [|done].
  by apply guarded_rows in E.
Qed.
