(* ===== verification/Ordered.v ===== *)
(** * Rows in order

    Facts on lists of keyed rows: a sorted list without repeated keys is
    determined by its elements, splits at a key, and the first rows of a merge
    need only the first rows of what is merged. *)
From S2P Require Import Prelude Json Keys Journal Listen Types Store Logic.

Lemma NoDup_keys {A} (l : list (string * A)) : NoDup l.*1 → NoDup l.
Proof. apply NoDup_fmap_1. Qed.
Lemma keyed_unique {A} (l1 l2 : list (string * A)) :
  StronglySorted key_le l1 → StronglySorted key_le l2 → NoDup l1.*1 → NoDup l2.*1 →
  (∀ x, x ∈ l1 ↔ x ∈ l2) → l1 = l2.
Proof.
  intros H1 H2 N1 N2 H12. apply (StronglySorted_unique_strong key_le); [|done|done|].
  - intros [k a] [k' b] Ha Hb Hab Hba. unfold key_le in *. cbn [fst] in *.
    assert (k = k') as -> by (by apply (anti_symm String.le)). f_equal.
    apply H12 in Ha. apply list_elem_of_lookup in Ha as [i Hi], Hb as [j Hj].
    assert (i = j) as ->; [|congruence].
    eapply NoDup_lookup; [exact N2| |]; rewrite list_lookup_fmap; [by rewrite Hi|by rewrite Hj].
  - apply NoDup_Permutation; [by apply NoDup_keys..|done].
Qed.
Lemma StronglySorted_filter {A} (R : relation A) (P : A → Prop) `{∀ x, Decision (P x)} l :
  StronglySorted R l → StronglySorted R (filter P l).
Proof.
  induction 1 as [|x l Hs IH Hx]; [constructor|]. rewrite filter_cons. case_decide; [|done].
  constructor; [done|]. apply Forall_forall. intros y [_ Hy]%list_elem_of_filter.
  rewrite Forall_forall in Hx. by apply Hx.
Qed.
Lemma entries_NoDup {A} (m : gmap string A) : NoDup (entries m).*1.
Proof. rewrite entries_perm. apply NoDup_fst_map_to_list. Qed.
(** A sorted list splits at a key. *)
Lemma sorted_split {A} (l : list (string * A)) (t : string) :
  StronglySorted key_le l →
  l = filter (λ x, String.le x.1 t) l ++ filter (λ x, ¬ String.le x.1 t) l.
Proof.
  induction 1 as [|x l Hs IH Hx]; [done|]. rewrite !filter_cons. case_decide as Ht.
  - rewrite decide_False by naive_solver. cbn. by rewrite <- IH.
  - rewrite decide_True by done. rewrite Forall_forall in Hx.
    assert (filter (λ x, String.le x.1 t) l = []) as ->.
    { apply elem_of_nil_inv. intros y [Hy Hin]%list_elem_of_filter. apply Ht.
      specialize (Hx y Hin). unfold key_le in Hx. by etrans. }
    cbn. f_equal. rewrite IH at 1.
    assert (filter (λ x, String.le x.1 t) l = []) as ->; [|done].
    apply elem_of_nil_inv. intros y [Hy Hin]%list_elem_of_filter. apply Ht.
    specialize (Hx y Hin). unfold key_le in Hx. by etrans.
Qed.
(** [rows_of] is the entries of any map of the ids it lists. *)
Lemma rows_of_entries (r : rows) (kind start : string) (end_ : option string) (m : gmap string cell) :
  (∀ id c, m !! id = Some c ↔ r !! (kind, id) = Some c ∧ in_range start end_ id = true) →
  rows_of r kind start end_ = entries m.
Proof.
  intros Hm. apply keyed_unique; [apply rows_of_sorted|apply entries_sorted|apply rows_of_NoDup|apply entries_NoDup|].
  intros [id c]. by rewrite elem_of_rows_of, elem_of_entries, Hm.
Qed.
Lemma list_to_map_sorted (l : list (string * cell)) :
  StronglySorted key_le l → NoDup l.*1 → entries (list_to_map l : gmap string cell) = l.
Proof.
  intros Hs HN. apply keyed_unique; [apply entries_sorted|done|apply entries_NoDup|done|].
  intros [k c]. rewrite elem_of_entries. symmetry. by apply elem_of_list_to_map.
Qed.

Lemma take_prefix {A} (l1 l2 : list (string * A)) (t : string) n :
  StronglySorted key_le l1 → StronglySorted key_le l2 →
  filter (λ x, String.le x.1 t) l1 = filter (λ x, String.le x.1 t) l2 →
  (n ≤ length (filter (λ x, String.le x.1 t) l1))%nat → take n l1 = take n l2.
Proof.
  intros H1 H2 Hf Hn. rewrite (sorted_split l1 t H1), (sorted_split l2 t H2), <- Hf.
  by rewrite !take_app_le.
Qed.
Lemma NoDup_length_le {A} (l k : list A) : NoDup l → (∀ x, x ∈ l → x ∈ k) → (length l ≤ length k)%nat.
Proof. intros HN Hin. apply submseteq_length, NoDup_submseteq; done. Qed.


(** ** Merging *)

Lemma sorted_sort {A} (l : list (string * A)) : StronglySorted key_le (merge_sort key_le l).
Proof. apply StronglySorted_merge_sort; apply _. Qed.
Lemma sort_NoDup {A} (l : list (string * A)) : NoDup l.*1 → NoDup (merge_sort key_le l).*1.
Proof. by rewrite merge_sort_Permutation. Qed.
Lemma elem_of_sort {A} (l : list (string * A)) x : x ∈ merge_sort key_le l ↔ x ∈ l.
Proof. by rewrite merge_sort_Permutation. Qed.
Lemma sort_perm {A} (l k : list (string * A)) : NoDup l.*1 → l ≡ₚ k → merge_sort key_le l = merge_sort key_le k.
Proof.
  intros HN Hp. apply keyed_unique; [apply sorted_sort..| | |].
  - by apply sort_NoDup.
  - apply sort_NoDup. by rewrite <- Hp.
  - intros x. by rewrite !elem_of_sort, Hp.
Qed.
Lemma sorted_nth {A} (R : relation A) l i j x y : StronglySorted R l → l !! i = Some x → l !! j = Some y →
  (i < j)%nat → R x y.
Proof.
  intros Hs Hi Hj Hij. eapply (StronglySorted_app_1_elem_of R (take (S i) l) (drop (S i) l)).
  - by rewrite take_drop.
  - apply elem_of_take. exists i. auto with lia.
  - apply list_elem_of_lookup. exists (j - S i)%nat. rewrite lookup_drop. by replace (S i + (j - S i))%nat with j by lia.
Qed.
Lemma NoDup_keys_sublist {A} (l k : list (string * A)) : l `sublist_of` k → NoDup k.*1 → NoDup l.*1.
Proof.
  intros Hs. induction Hs as [|x l k Hs IH|x l k Hs IH]; [done|..]; rewrite ?fmap_cons, ?NoDup_cons.
  - intros [Hx HN]. split; [|by apply IH]. intros (y & Hxy & Hy)%list_elem_of_fmap. apply Hx, list_elem_of_fmap.
    exists y. split; [done|]. by eapply elem_of_sublist.
  - intros [_ HN]. by apply IH.
Qed.
(** The first [n] rows of a merge need the first [n] rows of each side. *)
Lemma take_sort_app {A} n (a b : list (string * A)) :
  StronglySorted key_le a → NoDup (a ++ b).*1 →
  take n (merge_sort key_le (take n a ++ b)) = take n (merge_sort key_le (a ++ b)).
Proof.
  intros Ha HN. destruct (decide (length a ≤ n)%nat) as [Hl|Hl]; [by rewrite (take_ge a n) by done|].
  destruct n as [|n]; [done|]. destruct (lookup_lt_is_Some_2 a n) as [t Ht]; [lia|].
  assert (a ≡ₚ take (S n) a ++ drop (S n) a) as Hp by (by rewrite take_drop).
  assert (NoDup (take (S n) a ++ b).*1) as HN'.
  { rewrite fmap_app in *. apply NoDup_app in HN as (Hna & Hd & Hb). apply NoDup_app. split_and!; [| |done].
    - rewrite Hp, fmap_app in Hna. by apply NoDup_app in Hna as [Hna _].
    - intros x Hx. apply Hd. rewrite Hp, fmap_app. apply elem_of_app. by left. }
  assert (∀ x, x ∈ take (S n) a → String.le x.1 t.1) as Hlow.
  { intros x (i & Hi & Hin)%elem_of_take. destruct (decide (i = n)) as [->|Hne]; [by simplify_eq|].
    exact (sorted_nth key_le a i n x t Ha Hi Ht ltac:(lia)). }
  assert (∀ x, x ∈ drop (S n) a → ¬ String.le x.1 t.1) as Hhigh.
  { intros x [i Hi]%list_elem_of_lookup Hle. rewrite lookup_drop in Hi.
    pose proof (sorted_nth key_le a n (S n + i) t x Ha Ht Hi ltac:(lia)) as Hge.
    assert (x.1 = t.1) as Hx by by apply (anti_symm String.le).
    rewrite fmap_app in HN. apply NoDup_app in HN as (Hna & _).
    assert (n = S n + i)%nat; [|lia]. eapply NoDup_lookup; [exact Hna| |]; rewrite list_lookup_fmap.
    - by rewrite Ht.
    - rewrite Hi. cbn. by rewrite Hx. }
  apply (take_prefix _ _ t.1); [apply sorted_sort..| |].
  - apply keyed_unique; [by apply StronglySorted_filter, sorted_sort..| | |].
    1, 2: by eapply NoDup_keys_sublist; [apply sublist_filter|apply sort_NoDup].
    intros x. rewrite !list_elem_of_filter, !elem_of_sort, !elem_of_app. rewrite (Hp) at 2.
    rewrite elem_of_app. specialize (Hhigh x). tauto.
  - transitivity (length (take (S n) a)); [rewrite length_take; lia|].
    apply NoDup_length_le.
    + rewrite fmap_app in HN'. apply NoDup_app in HN' as [HN' _]. by apply NoDup_keys.
    + intros x Hx. apply list_elem_of_filter. split; [by apply Hlow|].
      apply elem_of_sort, elem_of_app. by left.
Qed.
Lemma take_sort_concat {A} n (ls : list (list (string * A))) b :
  (∀ l, l ∈ ls → StronglySorted key_le l) → NoDup (concat ls ++ b).*1 →
  take n (merge_sort key_le (concat (take n <$> ls) ++ b)) = take n (merge_sort key_le (concat ls ++ b)).
Proof.
  revert b. induction ls as [|l ls IH]; intros b Hs HN; [done|].
  rewrite fmap_cons. cbn [concat] in *. rewrite <- !app_assoc in *.
  assert (l ++ concat ls ++ b ≡ₚ concat ls ++ l ++ b) as Hp by by rewrite (Permutation_app_comm l), <- app_assoc, (Permutation_app_comm b).
  assert (l ++ concat (take n <$> ls) ++ b ≡ₚ concat (take n <$> ls) ++ l ++ b) as Hp'
    by by rewrite (Permutation_app_comm l), <- app_assoc, (Permutation_app_comm b).
  assert (concat (take n <$> ls) `sublist_of` concat ls) as Hsub.
  { clear. induction ls as [|l ls IH]; [done|]. cbn. apply sublist_app; [apply sublist_take|done]. }
  assert (NoDup (l ++ concat (take n <$> ls) ++ b).*1) as HN'.
  { eapply NoDup_keys_sublist; [|exact HN]. apply sublist_app; [done|by apply sublist_app]. }
  rewrite take_sort_app; [|apply Hs; left|exact HN'].
  rewrite (sort_perm _ _ HN' Hp'), (sort_perm _ _ HN Hp). apply IH.
  - intros k Hk. apply Hs. by right.
  - by rewrite <- Hp.
Qed.

Lemma NoDup_omap_keys {A B} (f : A → option (string * B)) (l : list A) : NoDup l →
  (∀ x y a b, x ∈ l → y ∈ l → f x = Some a → f y = Some b → a.1 = b.1 → x = y) → NoDup (omap f l).*1.
Proof.
  induction 1 as [|x l Hx Hl IH]; intros Hinj; [constructor|]. cbn.
  assert (NoDup (omap f l).*1) as HN by (apply IH; intros y z a b Hy Hz; apply Hinj; by right).
  destruct (f x) as [a|] eqn:E; [|done]. cbn. constructor; [|done].
  intros (b & Hab & (y & Hy & Hb)%list_elem_of_omap)%list_elem_of_fmap. apply Hx.
  by rewrite (Hinj x y a b (list_elem_of_here _ _) (list_elem_of_further _ _ _ Hy) E Hb Hab).
Qed.
Lemma NoDup_concat_keys {A B} (f : A → list (string * B)) (vs : list A) : NoDup vs →
  (∀ v, NoDup (f v).*1) → (∀ v w x y, x ∈ f v → y ∈ f w → x.1 = y.1 → v = w) →
  NoDup (concat (f <$> vs)).*1.
Proof.
  intros HN Hf Hd. induction HN as [|v vs Hv HN IH]; [constructor|]. cbn. rewrite fmap_app.
  apply NoDup_app. split_and!; [apply Hf| |done].
  intros k (x & -> & Hx)%list_elem_of_fmap (y & Hxy & Hy)%list_elem_of_fmap.
  apply list_elem_of_In, in_concat in Hy as (l & (w & -> & Hw)%list_elem_of_In%list_elem_of_fmap & Hy%list_elem_of_In).
  apply Hv. by rewrite (Hd v w x y Hx Hy Hxy).
Qed.
