(* ===== verification/Rows.v ===== *)
(** * The invariant of the stored rows

    What the engine keeps true of its rows: each run row is well formed and
    under its own id ([row_ok]), the index rows of the run families are exactly
    those [indexes] derives from the run rows ([Inv]), children have a stored
    parent and the parent relation is well founded. [evolves] is what later
    rows keep of earlier ones: a run's identity, its fencing generation, its
    outcome once it ended, and its journal while it lives. *)
From S2P Require Import Prelude Json Keys Outcome Journal Listen Types Store Index Admit Mailbox Logic.

(** ** Families of index rows *)

Inductive Shape := Plain | Timed | TimedWait.
Definition shape_of (f : string) : option Shape :=
  if existsb (str_eqb f) ["name"; "live_name"; "trigger_live"; "children"; "subs"] then Some Plain
  else if existsb (str_eqb f) ["control_run"; "control_end"; "control_parent"; "due"; "due_app";
                               "wait"; "mailbox"; "finished"] then Some Timed
  else if existsb (str_eqb f) ["control_wait"; "control_wait_definition"; "control_wait_run";
                               "control_wait_type"] then Some TimedWait
  else None.
(** A kind whose rows only [store_run] writes. *)
Definition indexed (kind : string) : bool := bool_decide (is_Some (shape_of (family kind))).
Definition is_record (kind : string) : bool := str_eqb (family kind) "record".
(** The id an index row belongs to, read off its key. *)
Definition owned (k : Key) (id : string) : Prop :=
  match shape_of (family k.1) with
  | Some Plain => k.2 = id
  | Some Timed => ∃ at_, k.2 = timed at_ id
  | Some TimedWait => ∃ at_ w, k.2 = timed at_ (component id +:+ ":" +:+ component w)
  | None => False
  end.

(** ** Well-formed run rows *)

Definition live_state (s : RunState) : bool :=
  match s with SReady | SRunning | SWaiting => true | _ => false end.
Record row_ok (s : StoredRun) : Prop := {
  ok_version : s_version s = VERSION;
  ok_generation : is_u64 (r_generation (s_run s));
  (** A fence names the run and its generation, and comes with a lease. *)
  ok_fence : ∀ f, r_fence (s_run s) = Some f →
    f_run_id f = run_id s ∧ f_generation f = r_generation (s_run s) ∧
    r_state (s_run s) = SRunning ∧ is_Some (r_lease_until_ms (s_run s));
  ok_lease : is_Some (r_lease_until_ms (s_run s)) → is_Some (r_fence (s_run s));
  (** The state, the outcome and the end agree. *)
  ok_live : r_ended_ms (s_run s) = None →
    r_outcome (s_run s) = None ∧ live_state (r_state (s_run s)) = true;
  ok_ended : is_Some (r_ended_ms (s_run s)) →
    (∃ o, r_outcome (s_run s) = Some o ∧ terminal o = true ∧
          r_state (s_run s) = match o with
            Completed _ => SCompleted | Faulted _ => SFailed | _ => SCancelled end) ∧
    r_fence (s_run s) = None ∧ r_held (s_run s) = None ∧
    s_awaits s = ∅ ∧ s_listeners s = ∅ ∧ s_subscriptions s = ∅ ∧ s_waits s = ∅
}.

(** What an update of a run row keeps. *)
Record evolve_run (s s' : StoredRun) : Prop := {
  adv_admission : r_admission (s_run s') = r_admission (s_run s);
  adv_child : r_child (s_run s') = r_child (s_run s);
  adv_root : r_root (s_run s') = r_root (s_run s);
  adv_admitted : r_admitted_ms (s_run s') = r_admitted_ms (s_run s);
  adv_epoch : r_epoch (s_run s') = r_epoch (s_run s);
  adv_digest : s_digest s' = s_digest s;
  adv_generation : r_generation (s_run s) ≤ r_generation (s_run s');
  (** Within a generation a fence is only ever dropped. *)
  adv_fence : r_generation (s_run s') = r_generation (s_run s) →
    r_fence (s_run s') = r_fence (s_run s) ∨ r_fence (s_run s') = None;
  adv_ended : is_Some (r_ended_ms (s_run s)) → s_run s' = s_run s;
  adv_ok : row_ok s → row_ok s'
}.
#[export] Instance evolve_run_preorder : PreOrder evolve_run.
Proof.
  split.
  - intros s. split; auto; try done.
  - intros s t u H1 H2. destruct H1 as [a1 c1 o1 m1 e1 d1 g1 f1 n1 k1], H2 as [a2 c2 o2 m2 e2 d2 g2 f2 n2 k2].
    split; try congruence; try lia; auto.
    + intros Hg. destruct f2 as [->| ->]; [lia| |by right]. apply f1. lia.
    + intros Hs. rewrite <- (n1 Hs). apply n2. by rewrite (n1 Hs).
Qed.
(** An update that does not end the run. *)
Record advance (s s' : StoredRun) : Prop := {
  adv_evolve :> evolve_run s s';
  adv_live : r_ended_ms (s_run s) = None → r_ended_ms (s_run s') = None
}.
#[export] Instance advance_preorder : PreOrder advance.
Proof.
  split; [intros s; split; [reflexivity|done]|].
  intros s t u [H1 L1] [H2 L2]. split; [by etrans|auto].
Qed.

Lemma evolve_run_id s s' : evolve_run s s' → run_id s' = run_id s.
Proof. intros H. unfold run_id. by rewrite (adv_admission _ _ H). Qed.
Lemma advance_run_id s s' : advance s s' → run_id s' = run_id s.
Proof. intros H. by apply evolve_run_id, H. Qed.

(** The run row under an id. *)
Definition stored (r : rows) (id : string) (s : StoredRun) : Prop := r !! ("run", id) = Some (CRun s).

(** One link of the parent relation. *)
Definition child_link (r : rows) (parent child : string) : Prop :=
  ∃ s l, r !! ("run", child) = Some (CRun s) ∧ r_child (s_run s) = Some l ∧ l_parent l = parent.

Record Inv (r : rows) : Prop := {
  inv_run : ∀ id c, r !! ("run", id) = Some c → ∃ s, c = CRun s ∧ run_id s = id ∧ row_ok s;
  inv_index : ∀ k c, indexed k.1 = true →
    r !! k = Some c ↔ ∃ s, stored r (run_id s) s ∧ indexes s !! k = Some c;
  inv_forest : ∃ rank : string → nat, ∀ id s l, stored r id s → r_child (s_run s) = Some l →
    (∃ p, stored r (l_parent l) p) ∧ (rank (l_parent l) < rank id)%nat
}.

(** ** Keys of a run's index rows *)

Lemma elem_of_foldl_insert (l : list (Key * cell)) (m : gmap Key cell) k c :
  foldl (λ m '(k, c), <[k := c]> m) m l !! k = Some c → (k, c) ∈ l ∨ m !! k = Some c.
Proof.
  revert m. induction l as [|[k' c'] l IH]; intros m H; simpl in H; [by right|].
  destruct (IH _ H) as [Hin|Hm]; [left; by right|].
  destruct (decide (k' = k)) as [->|Hk]; [|rewrite lookup_insert_ne in Hm by done; by right].
  rewrite lookup_insert_eq in Hm. injection Hm as ->. left. by left.
Qed.
Lemma foldl_insert_is_Some (l : list (Key * cell)) (m : gmap Key cell) k :
  is_Some (m !! k) ∨ k ∈ l.*1 → is_Some (foldl (λ m '(k, c), <[k := c]> m) m l !! k).
Proof.
  revert m. induction l as [|[k' c'] l IH]; intros m H; simpl in *.
  - by destruct H as [H|H%elem_of_nil].
  - apply IH. destruct (decide (k' = k)) as [->|Hk]; [left; by rewrite lookup_insert_eq|].
    rewrite lookup_insert_ne by done. destruct H as [H|[->|H]%elem_of_cons]; [by left|done|by right].
Qed.

Lemma indexes_rows s k c : indexes s !! k = Some c → (k, c) ∈ index_rows s.
Proof. unfold indexes. by intros [?|H]%elem_of_foldl_insert; [|rewrite lookup_empty in H]. Qed.
Lemma rows_indexes s k c : (k, c) ∈ index_rows s → is_Some (indexes s !! k).
Proof.
  intros H. apply foldl_insert_is_Some. right. apply list_elem_of_fmap. by exists (k, c).
Qed.

Lemma elem_of_dedup l x : x ∈ dedup l ↔ x ∈ l.
Proof.
  induction l as [|a [|b l] IH]; [done..|]. cbn [dedup] in *.
  case_decide as Hab; [subst b; rewrite IH|rewrite elem_of_cons, IH]; rewrite !elem_of_cons; tauto.
Qed.
Lemma elem_of_run_kinds r b k :
  k ∈ run_kinds r b → family k = if b then "control_end" else "control_run".
Proof.
  unfold run_kinds. rewrite !elem_of_cons, elem_of_nil.
  destruct b; intros [->|[->|[]]]; [done|by rewrite family_partition|done|by rewrite family_partition].
Qed.
Lemma wait_kinds_family w k : k ∈ wait_kinds w →
  family k ∈ ["control_wait"; "control_wait_definition"; "control_wait_run"; "control_wait_type"].
Proof.
  unfold wait_kinds. rewrite elem_of_dedup, merge_sort_Permutation, elem_of_app.
  rewrite !elem_of_cons, elem_of_nil.
  intros [[->|[->|[->|[]]]]|(t & Ht & _)%list_elem_of_bind]; rewrite ?family_partition by done;
    [tauto..|].
  rewrite !elem_of_cons, elem_of_nil in Ht. destruct Ht as [->|[->|[]]].
  - rewrite family_partition by done. tauto.
  - unfold partition. rewrite !string_app_assoc, family_app by done. tauto.
Qed.
Lemma elem_of_wait_kinds w k : k ∈ wait_kinds w → shape_of (family k) = Some TimedWait.
Proof.
  intros H%wait_kinds_family. rewrite !elem_of_cons, elem_of_nil in H.
  by destruct H as [->|[->|[->|[->|[]]]]].
Qed.

Lemma owned_plain f v id i :
  no_colon f = true → shape_of f = Some Plain → owned (partition f v, i) id ↔ i = id.
Proof. intros Hf Hs. unfold owned. cbn [fst snd]. by rewrite family_partition, Hs. Qed.
Lemma owned_timed kind f at_ id :
  family kind = f → shape_of f = Some Timed → owned (kind, timed at_ id) id.
Proof. intros Hf Hs. unfold owned. cbn [fst snd]. rewrite Hf, Hs. eauto. Qed.

(** Every index row of a run carries its id in its key. *)
Lemma index_rows_owned s k c : (k, c) ∈ index_rows s → owned k (run_id s).
Proof.
  assert (∀ kind at_ b, kind ∈ run_kinds (s_run s) b → owned (kind, timed at_ (run_id s)) (run_id s)) as HR.
  { intros kind at_ b Hk%elem_of_run_kinds. eapply owned_timed; [done|by destruct b]. }
  assert (∀ f v, no_colon f = true → shape_of f = Some Plain →
    owned (partition f v, run_id s) (run_id s)) as HP by (intros; by apply owned_plain).
  assert (∀ f v at_, no_colon f = true → shape_of f = Some Timed →
    owned (partition f v, timed at_ (run_id s)) (run_id s)) as HT.
  { intros f v at_ Hf Hs. eapply owned_timed; [by apply family_partition|done]. }
  unfold index_rows, live_rows, wait_rows, due_rows, child_rows, await_rows.
  rewrite !elem_of_app. intros [H|[H|[H|[H|[H|H]]]]].
  - apply list_elem_of_singleton in H. injection H as -> ->. by apply HP.
  - apply list_elem_of_fmap in H as (kind & [= -> ->] & H). by eapply HR.
  - destruct (r_ended_ms _) as [at_|]; [|by apply elem_of_nil in H].
    apply list_elem_of_fmap in H as (kind & [= -> ->] & H). by eapply HR.
  - destruct (r_child _) as [l|]; [|by apply elem_of_nil in H].
    apply list_elem_of_singleton in H. injection H as -> ->. by apply HT.
  - apply list_elem_of_bind in H as ([k' w] & H & _).
    apply list_elem_of_fmap in H as (kind & [= -> ->] & Hw%elem_of_wait_kinds).
    unfold owned. cbn [fst snd]. rewrite Hw. eauto.
  - destruct (r_ended_ms _) as [at_|].
    { destruct (s_evidence s); [|by apply elem_of_nil in H].
      apply list_elem_of_singleton in H. injection H as -> ->. by eapply owned_timed. }
    rewrite !elem_of_app in H. destruct H as [H|[H|[H|[H|[H|[H|H]]]]]].
    + apply list_elem_of_singleton in H. injection H as -> ->. by apply HP.
    + destruct (s_trigger s); [|by apply elem_of_nil in H].
      apply list_elem_of_singleton in H. injection H as -> ->. by apply HP.
    + destruct (due_at s); [|by apply elem_of_nil in H].
      rewrite !elem_of_cons, elem_of_nil in H. destruct H as [[= -> ->]|[[= -> ->]|[]]];
        [by eapply owned_timed|by apply HT].
    + destruct (r_child _) as [l|]; [|by apply elem_of_nil in H].
      apply list_elem_of_singleton in H. injection H as -> ->. by apply HP.
    + case_decide; [by apply elem_of_nil in H|].
      apply list_elem_of_omap in H as ([t at_] & _ & H).
      destruct (competing s t); [|done]. injection H as <- <-. by apply HT.
    + apply list_elem_of_fmap in H as (t & [= -> ->] & _). by apply HP.
    + destruct (s_mailbox s); [|by apply elem_of_nil in H].
      apply list_elem_of_singleton in H. injection H as -> ->. by eapply owned_timed.
Qed.

Lemma owned_indexed k id : owned k id → indexed k.1 = true.
Proof. unfold owned, indexed. intros H. apply bool_decide_true. by destruct (shape_of _). Qed.
Lemma owned_inj k a b : owned k a → owned k b → a = b.
Proof.
  unfold owned. destruct (shape_of _) as [[]|]; [congruence| | |done].
  - intros [x ->] [y [_ H]%timed_inj]. done.
  - intros (x & w & ->) (y & v & [_ H]%timed_inj).
    apply colon_split in H as [H _]; [by apply component_inj|apply component_no_colon..].
Qed.
Lemma indexes_owned s k c : indexes s !! k = Some c → owned k (run_id s).
Proof. intros H%indexes_rows. by eapply index_rows_owned. Qed.
Lemma indexes_disjoint s s' k c c' :
  indexes s !! k = Some c → indexes s' !! k = Some c' → run_id s = run_id s'.
Proof. intros H%indexes_owned H'%indexes_owned. by eapply owned_inj. Qed.
Lemma indexes_indexed s k c : indexes s !! k = Some c → indexed k.1 = true.
Proof. intros H%indexes_owned. by eapply owned_indexed. Qed.

(** ** What later rows keep *)

Definition has_ended (r : rows) (id : string) : Prop :=
  ∃ s, stored r id s ∧ is_Some (r_ended_ms (s_run s)).
Definition not_expiry (k : string) : Prop := ∀ n, k ≠ expired_key n.
Definition record_kept (r' : rows) (k : Key) (a : JRecord) : Prop :=
  ∃ b, r' !! k = Some (CRecord b) ∧ transition_allowed a b = true.

(** What a tree has spent. *)
Definition budget_at (r : rows) (root : string) : Z :=
  match r !! (("budget" : string), root) with Some c => default 0 (of_cell c) | None => 0 end.
Definition spent_kept (r r' : rows) : Prop := ∀ root, budget_at r root ≤ budget_at r' root.

Record evolves (r r' : rows) : Prop := {
  ev_run : ∀ id s, stored r id s → ∃ s', stored r' id s' ∧ evolve_run s s';
  ev_record : ∀ id k a, r !! (records_of id, k) = Some (CRecord a) → not_expiry k →
    has_ended r' id ∨ record_kept r' (records_of id, k) a;
  ev_budget : ∀ root, has_ended r' root ∨ budget_at r root ≤ budget_at r' root
}.
(** The writes that touch no run row, no index row of a run, no record but to advance
    it, and no budget but to raise it. *)
Record moves (r r' : rows) : Prop := {
  mv_same : ∀ k, k.1 = "run" ∨ indexed k.1 = true → r' !! k = r !! k;
  mv_record : ∀ k a, is_record k.1 = true → r !! k = Some (CRecord a) → not_expiry k.2 →
    record_kept r' k a;
  mv_budget : spent_kept r r'
}.
#[export] Instance spent_kept_preorder : PreOrder spent_kept.
Proof. split; [by intros r root|]. intros r1 r2 r3 H1 H2 root. exact (Z.le_trans _ _ _ (H1 root) (H2 root)). Qed.
Lemma spent_kept_same r r' : (∀ root, r' !! (("budget" : string), root) = r !! (("budget" : string), root)) → spent_kept r r'.
Proof. intros Hr root. unfold budget_at. by rewrite Hr. Qed.
Lemma spent_kept_insert r kind k c : kind ≠ "budget" → spent_kept r (<[(kind, k) := c]> r).
Proof. intros Hk. apply spent_kept_same. intros root. rewrite lookup_insert_ne; [done|congruence]. Qed.
Lemma spent_kept_delete r kind k : kind ≠ "budget" → spent_kept r (delete (kind, k) r).
Proof. intros Hk. apply spent_kept_same. intros root. rewrite lookup_delete_ne; [done|congruence]. Qed.

Lemma transition_refl a : transition_allowed a a = true.
Proof. unfold transition_allowed. by rewrite bool_decide_true. Qed.
Lemma transition_trans a b c :
  transition_allowed a b = true → transition_allowed b c = true → transition_allowed a c = true.
Proof.
  unfold transition_allowed. rewrite !orb_true_iff, !bool_decide_eq_true.
  intros [->|H1] [->|H2]; auto. right.
  destruct a as [|? []| | | | | | | | |], b as [|? []| | | | | | | | |], c;
    try done; rewrite ?andb_true_iff, ?bool_decide_eq_true in *; destruct_and?; subst;
    split_and?; congruence.
Qed.
Lemma record_kept_trans r k a b :
  transition_allowed a b = true → record_kept r k b → record_kept r k a.
Proof. intros Hab (c & Hc & Hbc). exists c. split; [done|]. by eapply transition_trans. Qed.

#[export] Instance moves_preorder : PreOrder moves.
Proof.
  split.
  - intros r. split; [done| |reflexivity]. intros k a _ H _. exists a. by rewrite transition_refl.
  - intros r1 r2 r3 [S1 R1 B1] [S2 R2 B2]. split; [intros k Hk; by rewrite S2, S1| |by etrans].
    intros k a Hk Ha He. destruct (R1 k a Hk Ha He) as (b & Hb & Hab).
    eapply record_kept_trans; [done|]. by apply R2.
Qed.
Lemma ended_mono r r' id : evolves r r' → has_ended r id → has_ended r' id.
Proof.
  intros [Hr _ _] (s & Hs & He). destruct (Hr _ _ Hs) as (s' & Hs' & Ha). exists s'.
  split; [done|]. by rewrite (adv_ended _ _ Ha).
Qed.
#[export] Instance evolves_preorder : PreOrder evolves.
Proof.
  split.
  - intros r. split; [intros id s Hs; by exists s| |right; lia]. intros id k a Ha _. right. exists a.
    by rewrite transition_refl.
  - intros r1 r2 r3 H1 H2. split; [| |].
    + intros id s Hs. destruct (ev_run _ _ H1 _ _ Hs) as (t & Ht & Hst).
      destruct (ev_run _ _ H2 _ _ Ht) as (u & Hu & Htu). exists u. split; [done|]. by etrans.
    + intros id k a Ha Hk. destruct (ev_record _ _ H1 _ _ _ Ha Hk) as [He|(b & Hb & Hab)].
      * left. by eapply ended_mono.
      * destruct (ev_record _ _ H2 _ _ _ Hb Hk) as [He|Hkept]; [by left|right].
        by eapply record_kept_trans.
    + intros root. destruct (ev_budget _ _ H1 root) as [He|Hb]; [left; by eapply ended_mono|].
      destruct (ev_budget _ _ H2 root) as [He|Hb']; [by left|right; lia].
Qed.

Lemma moves_stored r r' id s : moves r r' → stored r' id s ↔ stored r id s.
Proof. intros H. unfold stored. rewrite (mv_same _ _ H); [done|by left]. Qed.
Lemma moves_evolves r r' : moves r r' → evolves r r'.
Proof.
  intros H. split.
  - intros id s Hs. exists s. by rewrite moves_stored.
  - intros id k a Ha Hk. right. apply (mv_record _ _ H); [|done..].
    unfold is_record, records_of. cbn [fst]. by rewrite family_partition.
  - intros root. right. apply (mv_budget _ _ H).
Qed.
Lemma moves_Inv r r' : moves r r' → Inv r → Inv r'.
Proof.
  intros H [HR HI HF]. split.
  - intros id c Hc. rewrite (mv_same _ _ H) in Hc by (by left). eauto.
  - intros k c Hk. rewrite (mv_same _ _ H), HI by auto. 
    split; intros (s & Hs & Hx); exists s; by rewrite (moves_stored r r') in *.
  - destruct HF as [rank HF]. exists rank. intros id s l Hs%(moves_stored r r') Hl; [|done].
    destruct (HF _ _ _ Hs Hl) as [[p Hp] Hlt]. split; [|done]. exists p. by rewrite moves_stored.
Qed.

(** ** Storing a run row *)

(** A row that may stand where it does: it evolves the stored row of its run, or
    is a well-formed row of a run not stored yet, under a stored parent. *)
Definition stageable (r : rows) (s : StoredRun) : Prop :=
  match r !! ("run", run_id s) with
  | Some c => ∃ s0, c = CRun s0 ∧ evolve_run s0 s
  | None => row_ok s ∧ ∀ l, r_child (s_run s) = Some l → ∃ p, stored r (l_parent l) p
  end.
(** A row an operation stores in passing: it ends no run, and a new child's
    parent is live. *)
Definition staged (r : rows) (s : StoredRun) : Prop :=
  match r !! ("run", run_id s) with
  | Some c => ∃ s0, c = CRun s0 ∧ advance s0 s
  | None => row_ok s ∧ ∀ l, r_child (s_run s) = Some l →
      ∃ p, stored r (l_parent l) p ∧ r_ended_ms (s_run p) = None
  end.
(** Live children of ended parents, all under the parents [X]. *)
Definition orphans_under (X : list string) (r : rows) : Prop :=
  ∀ id s l, stored r id s → r_ended_ms (s_run s) = None → r_child (s_run s) = Some l →
    has_ended r (l_parent l) → l_parent l ∈ X.
(** The index rows of the run stored under an id. *)
Definition old_indexes (r : rows) (id : string) : gmap Key cell :=
  match r !! ("run", id) with Some (CRun s) => indexes s | _ => ∅ end.
(** The rows after [store_run]. *)
Definition restored (s : StoredRun) (r : rows) (k : Key) : option cell :=
  if decide (k = ("run", run_id s)) then Some (CRun s)
  else match indexes s !! k with
       | Some v => Some v
       | None => if decide (is_Some (old_indexes r (run_id s) !! k)) then None else r !! k
       end.

Section stored.
Context (r : rows) (HI : Inv r).

Lemma stored_id id s : stored r id s → run_id s = id.
Proof. intros H. destruct (inv_run r HI _ _ H) as (s' & [= <-] & Hid & _). done. Qed.
Lemma stored_ok id s : stored r id s → row_ok s.
Proof. intros H. destruct (inv_run r HI _ _ H) as (s' & [= <-] & _ & Hok). done. Qed.
Lemma stored_self id s : stored r id s → stored r (run_id s) s.
Proof. intros H. by rewrite (stored_id _ _ H). Qed.
Lemma stored_staged id s : stored r id s → staged r s.
Proof. intros H%stored_self. unfold staged, stored in *. rewrite H. by exists s. Qed.
Lemma staged_stageable s : staged r s → stageable r s.
Proof.
  unfold staged, stageable. destruct (r !! _); [intros (s0 & -> & [? _]); eauto|].
  intros [Hok Hp]. split; [done|]. intros l Hl. destruct (Hp l Hl) as (p & Hpl & _). eauto.
Qed.
Lemma stageable_ok s : stageable r s → row_ok s.
Proof.
  unfold stageable. destruct (r !! _) eqn:E; [|by intros [? _]].
  intros (s0 & -> & Ha). apply (adv_ok _ _ Ha). by eapply stored_ok.
Qed.
Lemma staged_ok s : staged r s → row_ok s.
Proof. intros H. by apply stageable_ok, staged_stageable. Qed.
Lemma staged_advance s s' : staged r s → advance s s' → staged r s'.
Proof.
  intros Hs Ha. pose proof (staged_ok _ Hs) as Hok. unfold staged in *.
  rewrite (advance_run_id _ _ Ha). destruct (r !! _).
  - destruct Hs as (s0 & -> & H0). exists s0. split; [done|]. by etrans.
  - destruct Hs as [H1 H2]. split; [by apply (adv_ok _ _ Ha)|]. by rewrite (adv_child _ _ Ha).
Qed.
Lemma stageable_stored s s0 : stageable r s → stored r (run_id s) s0 → evolve_run s0 s.
Proof. unfold stageable, stored. intros Hs E. rewrite E in Hs. by destruct Hs as (? & [= <-] & ?). Qed.

(** The index rows in the store at a run's keys are that run's. *)
Lemma old_indexes_lookup k c id : old_indexes r id !! k = Some c → r !! k = Some c ∧ owned k id.
Proof.
  unfold old_indexes. destruct (r !! ("run", id)) as [c0|] eqn:E; [|by rewrite lookup_empty].
  destruct (inv_run r HI _ _ E) as (s & -> & <- & _). intros H. split; [|by eapply indexes_owned].
  apply (inv_index r HI); [by eapply indexes_indexed|]. by exists s.
Qed.
Lemma index_row_owner k c : indexed k.1 = true → r !! k = Some c →
  ∃ s, stored r (run_id s) s ∧ indexes s !! k = Some c ∧ old_indexes r (run_id s) !! k = Some c.
Proof.
  intros Hk Hc. apply (inv_index r HI) in Hc as (s & Hs & Hx); [|done].
  exists s. split; [done|]. split; [done|]. unfold old_indexes, stored in *. by rewrite Hs.
Qed.

Lemma replaced_restored s k : stageable r s → k ≠ ("run", run_id s) →
  replaced (old_indexes r (run_id s)) (indexes s) r k = restored s r k.
Proof.
  intros Hs Hk. unfold replaced, restored. rewrite (decide_False (P := k = _)) by done.
  destruct (indexes s !! k) as [v|]; [|done]. case_decide as Hd; [|done].
  by apply old_indexes_lookup in Hd as [? _].
Qed.

Lemma exec_store_run_indexed s : stageable r s →
  ∃ r', exec (store_run_indexed s (old_indexes r (run_id s))) r = Ok (tt, r') ∧
    ∀ k, r' !! k = restored s r k.
Proof.
  intros Hs. unfold store_run_indexed.
  destruct (exec_changes (old_indexes r (run_id s)) (indexes s) r) as (r1 & E & Hr1).
  exists (<[("run", run_id s) := CRun s]> r1). rewrite exec_bind, E. split; [done|].
  intros k. destruct (decide (k = ("run", run_id s))) as [->|Hk].
  - rewrite lookup_insert_eq. unfold restored. by rewrite decide_True.
  - rewrite lookup_insert_ne by done. rewrite Hr1. by apply replaced_restored.
Qed.
Lemma exec_find_run id :
  exec (find_run id) r = Ok (match r !! ("run", id) with Some (CRun s) => Some s | _ => None end, r).
Proof.
  unfold find_run. rewrite exec_bind. cbn [exec get_cell exec_op].
  destruct (r !! ("run", id)) as [c|] eqn:E; [|done].
  destruct (inv_run r HI _ _ E) as (s & -> & _ & Hok). unfold stored_run.
  by rewrite (ok_version _ Hok).
Qed.
(** Storing a staged row never fails. *)
Lemma exec_store_run s : stageable r s →
  ∃ r', exec (store_run s) r = Ok (tt, r') ∧ ∀ k, r' !! k = restored s r k.
Proof.
  intros Hs. destruct (exec_store_run_indexed s Hs) as (r' & E & Hr'). exists r'.
  split; [|done]. unfold store_run. rewrite exec_bind, exec_find_run, <- E.
  f_equal. f_equal. unfold old_indexes.
  destruct (r !! ("run", run_id s)) as [c|] eqn:Ec; [|done].
  by destruct (inv_run r HI _ _ Ec) as (s0 & -> & _).
Qed.
End stored.

(** [store_run]'s effect, row by row. *)
Section restored.
Context (r r' : rows) (s : StoredRun) (HI : Inv r)
  (Hr : ∀ k, r' !! k = restored s r k) (Hs : stageable r s).

Lemma restored_self : stored r' (run_id s) s.
Proof. unfold stored. rewrite Hr. unfold restored. by rewrite decide_True. Qed.
Lemma restored_plain k : k.1 ≠ "run" → indexed k.1 = false → r' !! k = r !! k.
Proof.
  intros Hk Hx. rewrite Hr. unfold restored. rewrite decide_False by (by intros ->).
  destruct (indexes s !! k) as [v|] eqn:E; [by rewrite (indexes_indexed _ _ _ E) in Hx|].
  rewrite decide_False; [done|]. intros [v [_ Ho]%(old_indexes_lookup r HI)].
  by rewrite (owned_indexed _ _ Ho) in Hx.
Qed.
Lemma restored_other id : id ≠ run_id s → r' !! ("run", id) = r !! ("run", id).
Proof.
  intros Hid. rewrite Hr. unfold restored. rewrite decide_False by congruence.
  destruct (indexes s !! _) as [v|] eqn:E; [by apply indexes_indexed in E|].
  rewrite decide_False; [done|]. intros [v [_ Ho]%(old_indexes_lookup r HI)].
  by apply owned_indexed in Ho.
Qed.
Lemma restored_stored id t : stored r' id t ↔ (id = run_id s ∧ t = s) ∨ (id ≠ run_id s ∧ stored r id t).
Proof.
  destruct (decide (id = run_id s)) as [->|Hid].
  - pose proof restored_self as H0. unfold stored in *. rewrite H0.
    split; [intros [= <-]; by left|by intros [[_ ->]|[? _]]].
  - unfold stored. rewrite restored_other by done.
    split; [intros H0; by right|by intros [[? _]|[_ H0]]].
Qed.
Lemma restored_index k c : indexed k.1 = true →
  r' !! k = Some c ↔ ∃ t, stored r' (run_id t) t ∧ indexes t !! k = Some c.
Proof.
  intros Hx. rewrite Hr. unfold restored. rewrite decide_False by (by intros ->).
  destruct (indexes s !! k) as [v|] eqn:E.
  - split.
    + intros [= <-]. exists s. split; [apply restored_self|done].
    + intros (t & Ht & Hk). pose proof (indexes_disjoint _ _ _ _ _ E Hk) as Hid.
      apply restored_stored in Ht as [[_ ->]|[? _]]; [congruence|done].
  - case_decide as Ho.
    + split; [done|]. intros (t & Ht & Hk). destruct Ho as [v [_ Hv]%(old_indexes_lookup r HI)].
      apply indexes_owned in Hk as Hw. pose proof (owned_inj _ _ _ Hv Hw) as Hid.
      apply restored_stored in Ht as [[_ ->]|[? _]]; [congruence|done].
    + rewrite (inv_index r HI) by done. split.
      * intros (t & Ht & Hk). exists t. split; [|done]. apply restored_stored. right.
        split; [|done]. intros Hid. apply Ho. exists c. unfold old_indexes. unfold stored in Ht.
        by rewrite <- Hid, Ht.
      * intros (t & [[_ ->]|[Hid Ht]]%restored_stored & Hk); [congruence|]. by exists t.
Qed.
Lemma restored_forest : ∃ rank : string → nat, ∀ id t l, stored r' id t → r_child (s_run t) = Some l →
  (∃ p, stored r' (l_parent l) p) ∧ (rank (l_parent l) < rank id)%nat.
Proof.
  assert (∀ id t, stored r id t → ∃ u, stored r' id u) as Hkeep.
  { intros id t Ht. destruct (decide (id = run_id s)) as [->|Hid]; [exists s; apply restored_self|].
    exists t. apply restored_stored. by right. }
  destruct (inv_forest r HI) as [rank HF]. unfold stageable in Hs.
  destruct (r !! ("run", run_id s)) as [c|] eqn:E.
  - destruct Hs as (s0 & -> & Ha). exists rank.
    intros id t l [[-> ->]|[_ Ht]]%restored_stored Hl.
    + rewrite (adv_child _ _ Ha) in Hl. destruct (HF _ _ _ E Hl) as [[p Hp] Hlt]. eauto.
    + destruct (HF _ _ _ Ht Hl) as [[p Hp] Hlt]. eauto.
  - destruct Hs as [Hok0 Hp].
    set (rank' := λ id, if decide (id = run_id s) then
      match r_child (s_run s) with Some l => S (rank (l_parent l)) | None => O end else rank id).
    assert (∀ id t, stored r id t → rank' id = rank id) as Hrank.
    { intros id t Ht. unfold rank'. rewrite decide_False; [done|]. intros ->. unfold stored in Ht. congruence. }
    exists rank'. intros id t l [[-> ->]|[_ Ht]]%restored_stored Hl.
    + destruct (Hp _ Hl) as [p Hpl]. split; [eauto|]. rewrite (Hrank _ _ Hpl). unfold rank'.
      rewrite decide_True, Hl by done. simpl. lia.
    + destruct (HF _ _ _ Ht Hl) as [[p Hpl] Hlt]. split; [eauto|].
      by rewrite (Hrank _ _ Ht), (Hrank _ _ Hpl).
Qed.
Lemma restored_Inv : Inv r'.
Proof.
  split; [|apply restored_index|apply restored_forest].
  intros id c Hc. destruct (decide (id = run_id s)) as [->|Hid].
  - exists s. rewrite restored_self in Hc. injection Hc as <-. split; [done|]. split; [done|].
    by eapply stageable_ok.
  - rewrite restored_other in Hc by done. by apply (inv_run r HI).
Qed.
Lemma restored_evolves : evolves r r'.
Proof.
  split.
  - intros id t Ht. destruct (decide (id = run_id s)) as [->|Hid].
    + exists s. split; [apply restored_self|]. by eapply stageable_stored.
    + exists t. split; [|reflexivity]. apply restored_stored. by right.
  - intros id k a Ha _. right. exists a. rewrite transition_refl. split; [|done].
    rewrite restored_plain; [done|by destruct id|]. unfold indexed, records_of. cbn [fst].
    by rewrite family_partition.
  - intros root. right. apply spent_kept_same. intros id. by apply restored_plain.
Qed.
Lemma restored_staged : staged r' s.
Proof.
  unfold staged. pose proof restored_self as H. unfold stored in H. rewrite H. by exists s.
Qed.

(** Which live children of ended parents there are afterwards. *)
Lemma restored_ended id : has_ended r' id → id ≠ run_id s → has_ended r id.
Proof.
  intros (u & [[-> ->]|[_ Hu]]%restored_stored & He) Hid; [done|]. by exists u.
Qed.
Lemma restored_orphans_end X s0 : stored r (run_id s) s0 → orphans_under X r →
  orphans_under (run_id s :: X) r'.
Proof.
  intros Hs0 HX id t l Ht Hn Hl He. apply elem_of_cons.
  destruct (decide (l_parent l = run_id s)) as [?|Hid]; [by left|right].
  apply restored_ended in He; [|done]. apply restored_stored in Ht as [[-> ->]|[_ Ht]]; [|by eapply HX].
  pose proof (stageable_stored r s s0 Hs Hs0) as Ha. eapply (HX _ s0); [done| |by rewrite <- (adv_child _ _ Ha)|done].
  destruct (r_ended_ms (s_run s0)) eqn:E; [|done].
  rewrite (adv_ended _ _ Ha) in Hn by (by rewrite E). congruence.
Qed.
Lemma restored_orphans X : staged r s → orphans_under X r → orphans_under X r'.
Proof.
  intros Hst HX id t l Ht Hn Hl He. unfold staged in Hst.
  destruct (r !! ("run", run_id s)) as [c|] eqn:E.
  - destruct Hst as (s0 & -> & [Ha Hlv]).
    assert (has_ended r (l_parent l)) as He'.
    { destruct (decide (l_parent l = run_id s)) as [Hid|Hid]; [|by apply restored_ended].
      rewrite Hid in *. exists s0. split; [done|].
      destruct He as (u & [[_ ->]|[? _]]%restored_stored & Hu); [|done].
      destruct (r_ended_ms (s_run s0)); [by eexists|]. rewrite Hlv in Hu by done. by destruct Hu. }
    apply restored_stored in Ht as [[-> ->]|[_ Ht]]; [|by eapply HX].
    eapply (HX _ s0); [done| |by rewrite <- (adv_child _ _ Ha)|done].
    destruct (r_ended_ms (s_run s0)) eqn:E0; [|done].
    rewrite (adv_ended _ _ Ha) in Hn by (by rewrite E0). congruence.
  - destruct Hst as [_ Hp]. apply restored_stored in Ht as [[-> ->]|[Hne Ht]].
    + destruct (Hp _ Hl) as (p & Hpl & Hpn).
      assert (l_parent l ≠ run_id s) as Hid by (intros Hid; rewrite Hid in Hpl; unfold stored in Hpl; congruence).
      destruct (restored_ended _ He Hid) as (u & Hu & Hue). unfold stored in *.
      assert (u = p) as -> by congruence. rewrite Hpn in Hue. by destruct Hue.
    + eapply HX; [done..|]. apply restored_ended; [done|]. intros Hid.
      destruct (inv_forest r HI) as [rank HF]. destruct (HF _ _ _ Ht Hl) as [[p Hp'] _].
      rewrite Hid in Hp'. unfold stored in Hp'. congruence.
Qed.
End restored.

(** ** Values of index rows *)

Lemma index_rows_value s k c : (k, c) ∈ index_rows s → shape_of (family k.1) ≠ Some TimedWait →
  c = to_cell (run_id s).
Proof.
  unfold index_rows, live_rows, wait_rows, due_rows, child_rows, await_rows.
  rewrite !elem_of_app. intros [H|[H|[H|[H|[H|H]]]]] Hk.
  - by apply list_elem_of_singleton in H as [= -> ->].
  - by apply list_elem_of_fmap in H as (kind & [= -> ->] & H).
  - destruct (r_ended_ms _) as [at_|]; [|by apply elem_of_nil in H].
    by apply list_elem_of_fmap in H as (kind & [= -> ->] & H).
  - destruct (r_child _) as [l|]; [|by apply elem_of_nil in H].
    by apply list_elem_of_singleton in H as [= -> ->].
  - apply list_elem_of_bind in H as ([k' w] & H & _).
    by apply list_elem_of_fmap in H as (kind & [= -> ->] & Hw%elem_of_wait_kinds).
  - destruct (r_ended_ms _) as [at_|].
    { destruct (s_evidence s); [|by apply elem_of_nil in H].
      by apply list_elem_of_singleton in H as [= -> ->]. }
    rewrite !elem_of_app in H. destruct H as [H|[H|[H|[H|[H|[H|H]]]]]].
    + by apply list_elem_of_singleton in H as [= -> ->].
    + destruct (s_trigger s); [|by apply elem_of_nil in H].
      by apply list_elem_of_singleton in H as [= -> ->].
    + destruct (due_at s); [|by apply elem_of_nil in H].
      rewrite !elem_of_cons, elem_of_nil in H. by destruct H as [[= -> ->]|[[= -> ->]|[]]].
    + destruct (r_child _) as [l|]; [|by apply elem_of_nil in H].
      by apply list_elem_of_singleton in H as [= -> ->].
    + case_decide; [by apply elem_of_nil in H|].
      apply list_elem_of_omap in H as ([t at_] & _ & H).
      by destruct (competing s t); [injection H as <- <-|].
    + by apply list_elem_of_fmap in H as (t & [= -> ->] & _).
    + destruct (s_mailbox s); [|by apply elem_of_nil in H].
      by apply list_elem_of_singleton in H as [= -> ->].
Qed.
(** An index row of a run that is no wait entry names the run in its value. *)
Lemma index_row_run r k c : Inv r → indexed k.1 = true → shape_of (family k.1) ≠ Some TimedWait →
  r !! k = Some c →
  ∃ s, stored r (run_id s) s ∧ (k, c) ∈ index_rows s ∧ index_id c = Some (run_id s) ∧ owned k (run_id s).
Proof.
  intros HI Hk Hw Hc. apply (inv_index r HI) in Hc as (s & Hs & Hx); [|done].
  apply indexes_rows in Hx as Hin. exists s. split; [done|]. split; [done|].
  rewrite (index_rows_value _ _ _ Hin Hw). split; [done|]. by eapply index_rows_owned.
Qed.
(** A scan of one kind of index rows meets each run once: [g] is the key a run's
    row has in that kind. *)
Lemma indexed_runs_keyed r kind start end_ limit l (g : StoredRun → string) :
  Inv r → is_Some (shape_of (family kind)) → shape_of (family kind) ≠ Some TimedWait →
  (∀ s k c, ((kind, k), c) ∈ index_rows s → k = g s) →
  Forall2 (λ x s, index_id x.2 = Some (run_id s) ∧ stored r (run_id s) s)
    (scan_rows r kind start end_ limit) l →
  NoDup (run_id <$> l) ∧ ∀ s, s ∈ l → ∃ c, (((kind, g s), c) : Key * cell) ∈ index_rows s.
Proof.
  intros HI Hsh Hsw Hkey HF.
  assert (∀ x s, x ∈ scan_rows r kind start end_ limit →
    index_id x.2 = Some (run_id s) → stored r (run_id s) s →
    x.1 = g s ∧ ((kind, x.1), x.2) ∈ index_rows s) as Hid.
  { intros [k c] s [Hc _]%elem_of_scan_rows Hi Hst. cbn [fst snd] in *.
    destruct (index_row_run r (kind, k) c HI) as (t & Ht & Hin & Hti & Ho); cbn [fst]; try done.
    { unfold indexed. by apply bool_decide_true. }
    assert (run_id t = run_id s) as Hts by congruence. rewrite Hts in Ht.
    assert (t = s) as -> by (unfold stored in *; congruence).
    split; [|done]. by eapply Hkey. }
  pose proof (scan_rows_NoDup r kind start end_ limit) as HN.
  revert HF Hid HN. generalize (scan_rows r kind start end_ limit). intros sc0 HF.
  induction HF as [|x s sc l [Hi Hst] HF IH]; intros Hid HN.
  { split; [constructor|]. by intros s ?%elem_of_nil. }
  apply NoDup_cons in HN as [Hx HN]. rewrite fmap_cons, NoDup_cons.
  destruct (IH (λ x s Hx, Hid x s (list_elem_of_further _ _ _ Hx)) HN) as [IHN IHE].
  destruct (Hid x s (list_elem_of_here _ _) Hi Hst) as [E Hin].
  split; [split; [|done]|].
  - intros (t & Ht & Htl)%list_elem_of_fmap. apply Hx.
    apply list_elem_of_lookup in Htl as [i Htl].
    destruct (Forall2_lookup_r _ _ _ _ _ HF Htl) as (y & Hy & Hiy & Hsy).
    apply list_elem_of_lookup_2 in Hy.
    destruct (Hid y t (list_elem_of_further _ _ _ Hy) Hiy Hsy) as [Ey _].
    apply list_elem_of_fmap. exists y. split; [|done].
    rewrite E, Ey. unfold stored in *. rewrite <- Ht in Hsy. congruence.
  - intros t [->|Ht]%elem_of_cons; [|by apply IHE]. rewrite <- E. eauto.
Qed.
Lemma indexed_runs_NoDup r kind start end_ limit l :
  Inv r → shape_of (family kind) = Some Plain →
  Forall2 (λ x s, index_id x.2 = Some (run_id s) ∧ stored r (run_id s) s)
    (scan_rows r kind start end_ limit) l →
  NoDup (run_id <$> l) ∧ ∀ s, s ∈ l → ∃ c, (((kind, run_id s), c) : Key * cell) ∈ index_rows s.
Proof.
  intros HI Hsh. apply indexed_runs_keyed; [done|by rewrite Hsh..|].
  intros s k c Hin%index_rows_owned. unfold owned in Hin. cbn [fst snd] in Hin. by rewrite Hsh in Hin.
Qed.

(** ** The index rows of one family *)

Definition subs_rows (s : StoredRun) : list (Key * cell) :=
  (λ t, ((partition "subs" t, run_id s), to_cell (run_id s))) <$> concat (values (s_subscriptions s)).
Definition family_rows (s : StoredRun) (f : string) : list (Key * cell) :=
  match r_ended_ms (s_run s) with
  | None =>
      if str_eqb f "children" then child_rows s
      else if str_eqb f "due" || str_eqb f "due_app" then due_rows s
      else if str_eqb f "wait" then await_rows s
      else if str_eqb f "subs" then subs_rows s
      else if str_eqb f "live_name" then
        [((partition "live_name" (a_name (r_admission (s_run s))), run_id s), to_cell (run_id s))]
      else if str_eqb f "mailbox" then
        match s_mailbox s with Some at_ => [(("mailbox", timed at_ (run_id s)), to_cell (run_id s))] | None => [] end
      else []
  | Some at_ =>
      if str_eqb f "finished" && s_evidence s
      then [(("finished", timed at_ (run_id s)), to_cell (run_id s))] else []
  end.
Lemma index_rows_family s k c :
  (k, c) ∈ index_rows s →
  family k.1 ∈ ["children"; "due"; "due_app"; "wait"; "subs"; "live_name"; "mailbox"; "finished"] →
  (k, c) ∈ family_rows s (family k.1).
Proof.
  intros H Hf.
  assert (∀ f, family k.1 = f →
    existsb (str_eqb f) ["children"; "due"; "due_app"; "wait"; "subs"; "live_name"; "mailbox"; "finished"] = false →
    False) as Hno.
  { intros f <- E. apply not_true_iff_false in E. apply E, existsb_exists.
    exists (family k.1). split; [by apply list_elem_of_In|]. by apply bool_decide_true. }
  unfold index_rows, live_rows, family_rows in *. rewrite !elem_of_app in H.
  destruct H as [H|[H|[H|[H|[H|H]]]]].
  - apply list_elem_of_singleton in H as [= -> ->]. cbn [fst] in *.
    exfalso. eapply Hno; [by rewrite family_partition|done].
  - apply list_elem_of_fmap in H as (kind & [= -> ->] & Hk%elem_of_run_kinds). cbn [fst] in *.
    exfalso. by eapply Hno.
  - destruct (r_ended_ms _) as [at_|]; [|by apply elem_of_nil in H].
    apply list_elem_of_fmap in H as (kind & [= -> ->] & Hk%elem_of_run_kinds). cbn [fst] in *.
    exfalso. by eapply Hno.
  - destruct (r_child _) as [l|]; [|by apply elem_of_nil in H].
    apply list_elem_of_singleton in H as [= -> ->]. cbn [fst] in *.
    exfalso. eapply Hno; [by rewrite family_partition|done].
  - apply list_elem_of_bind in H as ([k' w] & H & _).
    apply list_elem_of_fmap in H as (kind & [= -> ->] & Hw%wait_kinds_family). cbn [fst] in *.
    rewrite !elem_of_cons, elem_of_nil in Hw.
    exfalso. by destruct Hw as [Hw|[Hw|[Hw|[Hw|[]]]]]; eapply Hno.
  - destruct (r_ended_ms _) as [at_|].
    { destruct (s_evidence s); [|by apply elem_of_nil in H].
      by apply list_elem_of_singleton in H as [= -> ->]; left. }
    rewrite !elem_of_app in H. destruct H as [H|[H|[H|[H|[H|[H|H]]]]]].
    + apply list_elem_of_singleton in H as [= -> ->]. cbn [fst].
      rewrite family_partition by done. by left.
    + destruct (s_trigger s); [|by apply elem_of_nil in H].
      apply list_elem_of_singleton in H as [= -> ->]. cbn [fst] in *.
      exfalso. eapply Hno; [by rewrite family_partition|done].
    + assert (family k.1 = "due" ∨ family k.1 = "due_app") as [-> | ->]; [|done..].
      unfold due_rows in H. destruct (due_at s); [|by apply elem_of_nil in H].
      rewrite !elem_of_cons, elem_of_nil in H. destruct H as [[= -> ->]|[[= -> ->]|[]]].
      * by left.
      * right. by apply family_partition.
    + assert (family k.1 = "children") as ->; [|done]. unfold child_rows in H.
      destruct (r_child _) as [l|]; [|by apply elem_of_nil in H].
      apply list_elem_of_singleton in H as [= -> ->]. by apply family_partition.
    + assert (family k.1 = "wait") as ->; [|done]. unfold await_rows in H.
      case_decide; [by apply elem_of_nil in H|].
      apply list_elem_of_omap in H as ([t at_] & _ & H).
      destruct (competing s t); [|done]. injection H as <- <-. by apply family_partition.
    + assert (family k.1 = "subs") as ->; [|done].
      apply list_elem_of_fmap in H as (t & [= -> ->] & _). by apply family_partition.
    + destruct (s_mailbox s); [|by apply elem_of_nil in H].
      by apply list_elem_of_singleton in H as [= -> ->]; left.
Qed.
