(* ===== verification/Steps.v ===== *)
(** * Rules for the engine's transactions

    [going X r0 r] says that [r] satisfies the invariant and keeps what [r0] had,
    and that live children of ended parents are under [X]; [good] is the case of
    no such parent, which holds between operations. The rules here carry it
    through a transaction: programs that only move other rows, reads of run rows,
    and stores of staged rows. *)
From S2P Require Import Prelude Json Keys Outcome Journal Listen Types Store Index Admit Mailbox Logic Rows.
From S2P Require Import Json.

Definition going (X : list string) (r0 r : rows) : Prop := Inv r ∧ evolves r0 r ∧ orphans_under X r.
Abbreviation good := (going []).

Lemma going_refl X r : Inv r → orphans_under X r → going X r r.
Proof. intros H HX. split; [done|]. split; [reflexivity|done]. Qed.
Lemma going_here X r0 r : going X r0 r → going X r r.
Proof. intros (HI & _ & HX). by apply going_refl. Qed.
Lemma going_trans X Y r0 r r' : going X r0 r → going Y r r' → going Y r0 r'.
Proof. intros (_ & H1 & _) (HI & H2 & HX). split; [done|]. split; [by etrans|done]. Qed.
Lemma moves_orphans X r r' : moves r r' → orphans_under X r → orphans_under X r'.
Proof.
  intros Hm HX id s l Hs Hn Hl (p & Hp & He). rewrite (moves_stored r r') in Hs, Hp by done.
  eapply HX; [exact Hs|done|done|]. by exists p.
Qed.
Lemma going_moves X r0 r r' : going X r0 r → moves r r' → going X r0 r'.
Proof.
  intros (HI & He & HX) Hm. split; [by eapply moves_Inv|]. split; [|by eapply moves_orphans].
  etrans; [done|]. by apply moves_evolves.
Qed.
Lemma moves_staged r r' s : moves r r' → staged r s → staged r' s.
Proof.
  intros Hm. unfold staged. rewrite (mv_same _ _ Hm) by (by left). destruct (r !! _); [done|].
  intros [Hok Hp]. split; [done|]. intros l Hl. destruct (Hp l Hl) as (p & Hpl & Hpn). exists p.
  by rewrite moves_stored.
Qed.

(** ** Kinds outside the run rows *)

Definition free_family (f : string) : bool :=
  negb (str_eqb f "run") && bool_decide (shape_of f = None) && negb (str_eqb f "record") && negb (str_eqb f "budget").
Definition free (kind : string) : bool := free_family (family kind).

Lemma free_partition f v : no_colon f = true → free_family f = true → free (partition f v) = true.
Proof. intros Hf H. unfold free. by rewrite family_partition. Qed.
Lemma free_partition_app f v t :
  no_colon f = true → free_family f = true → free (partition f v +:+ ":" +:+ t) = true.
Proof. intros Hf H. unfold free, partition. by rewrite !string_app_assoc, family_app. Qed.
Lemma free_spec kind : free kind = true →
  kind ≠ "run" ∧ indexed kind = false ∧ is_record kind = false ∧ kind ≠ "budget".
Proof.
  unfold free, free_family, indexed, is_record. rewrite !andb_true_iff, !negb_true_iff.
  rewrite bool_decide_eq_true. intros [[[Hr Hs] Hc] Hb]. split; [by intros ->|].
  split; [rewrite Hs; by apply bool_decide_false; intros []|]. split; [done|by intros ->].
Qed.

Create HintDb free.
#[export] Hint Extern 1 (free _ = true) =>
  (first [reflexivity | apply free_partition; reflexivity | apply free_partition_app; reflexivity]) : free.

Lemma moves_free_insert r k c : free k.1 = true → moves r (<[k := c]> r).
Proof.
  intros (Hr & Hx & Hc & Hb)%free_spec. split; [| |destruct k; by apply spent_kept_insert].
  - intros k' [Hk|Hk]; rewrite lookup_insert_ne; [done|congruence|done|congruence].
  - intros k' a Hk Ha _. exists a. rewrite lookup_insert_ne by congruence. by rewrite transition_refl.
Qed.
Lemma moves_free_delete r k : free k.1 = true → moves r (delete k r).
Proof.
  intros (Hr & Hx & Hc & Hb)%free_spec. split; [| |destruct k; by apply spent_kept_delete].
  - intros k' [Hk|Hk]; rewrite lookup_delete_ne; [done|congruence|done|congruence].
  - intros k' a Hk Ha _. exists a. rewrite lookup_delete_ne by congruence. by rewrite transition_refl.
Qed.

Lemma stable_put_cell_free kind id c : free kind = true → stable moves (put_cell kind id c).
Proof. intros H r. apply wp_put_cell. by apply moves_free_insert. Qed.
Lemma stable_put_free {T} `{Row T} kind id (x : T) : free kind = true → stable moves (put kind id x).
Proof. intros Hk. by apply stable_put_cell_free. Qed.
Lemma stable_delete_free kind id : free kind = true → stable moves (delete_row kind id).
Proof. intros H r. apply wp_delete_row. by apply moves_free_delete. Qed.
#[export] Hint Resolve stable_put_cell_free stable_put_free stable_delete_free : stable.
#[export] Hint Extern 1 (free _ = true) => (auto 1 with free nocore) : stable.

Lemma stable_for_each_in {A} {R : relation rows} `{!PreOrder R} (l : list A) (f : A → prog unit) :
  (∀ x, x ∈ l → stable R (f x)) → stable R (for_each l f).
Proof.
  intros Hf. induction l as [|x l IH]; simpl; [by apply stable_pret|].
  apply stable_bind; [apply Hf; by left|]. intros _. apply IH. intros y Hy. apply Hf. by right.
Qed.
Lemma stable_apply_changes (before after : gmap Key cell) :
  (∀ k c, before !! k = Some c ∨ after !! k = Some c → free k.1 = true) →
  stable moves (for_each (changes before after) apply_change).
Proof.
  intros Hk. apply stable_for_each_in. intros [[kind id] o] H%elem_of_changes.
  simpl in *. destruct o as [v|]; simpl.
  - apply stable_put_cell_free. apply (Hk (kind, id) v). right. apply H.
  - apply stable_delete_free. destruct H as [_ [v Hv]]. apply (Hk (kind, id) v). by left.
Qed.

(** An expired copy's record may be written. *)
Lemma stable_put_expired id n (x : JRecord) : stable moves (put (records_of id) (expired_key n) x).
Proof.
  intros r. apply wp_put. split; [| |by apply spent_kept_insert].
  - intros k [Hk|Hk]; rewrite lookup_insert_ne; try done; intros <-; cbn [fst] in Hk.
    + by destruct id.
    + unfold indexed, records_of in Hk. by rewrite family_partition in Hk.
  - intros k a _ Ha Hn. exists a. rewrite lookup_insert_ne; [by rewrite transition_refl|].
    intros <-. by eapply Hn.
Qed.
#[export] Hint Resolve stable_put_expired : stable.
(** A record may be written where none is, or over one that it advances. *)
Lemma moves_record r id k (x : JRecord) :
  (∀ a, r !! (records_of id, k) = Some (CRecord a) → transition_allowed a x = true) →
  moves r (<[(records_of id, k) := CRecord x]> r).
Proof.
  intros Hx. split; [| |by apply spent_kept_insert].
  - intros k' [Hk|Hk]; rewrite lookup_insert_ne; try done; intros <-; cbn [fst] in Hk.
    + by destruct id.
    + unfold indexed, records_of in Hk. by rewrite family_partition in Hk.
  - intros k' a _ Ha Hn. destruct (decide (k' = (records_of id, k))) as [->|Hne].
    + exists x. rewrite lookup_insert_eq. auto.
    + exists a. rewrite lookup_insert_ne by done. by rewrite transition_refl.
Qed.

(** ** Budgets *)

Lemma budget_insert r root n : budget_at (<[(("budget" : string), root) := to_cell n]> r) root = n.
Proof. unfold budget_at. rewrite lookup_insert_eq. exact (f_equal (default 0) (of_to_cell n)). Qed.
Lemma budget_insert_ne r root root' c : root ≠ root' →
  budget_at (<[(("budget" : string), root) := c]> r) root' = budget_at r root'.
Proof. intros Hne. unfold budget_at. rewrite lookup_insert_ne; [done|congruence]. Qed.
Lemma budget_delete r root root' : budget_at (delete (("budget" : string), root) r) root' =
  if decide (root = root') then 0 else budget_at r root'.
Proof.
  unfold budget_at. case_decide as Hd; [subst; by rewrite lookup_delete_eq|]. rewrite lookup_delete_ne; [done|congruence].
Qed.
(** A budget is raised while its tree is at work, and dropped when the tree's root ended. *)
Lemma moves_budget r root n : budget_at r root ≤ n → moves r (<[(("budget" : string), root) := to_cell n]> r).
Proof.
  intros Hn. split.
  - intros k [Hk|Hk]; rewrite lookup_insert_ne; try done; intros <-; cbn [fst] in Hk; done.
  - intros k a Hk Ha _. exists a. rewrite lookup_insert_ne; [by rewrite transition_refl|]. by intros <-.
  - intros root'. destruct (decide (root = root')) as [<-|Hne]; [by rewrite budget_insert|by rewrite budget_insert_ne].
Qed.
Lemma drop_same (r : rows) (root : string) (k : Key) : k.1 ≠ "budget" →
  delete (("budget" : string), root) r !! k = r !! k.
Proof. intros Hk. rewrite lookup_delete_ne; [done|]. by intros <-. Qed.
Lemma going_drop X r0 r root : going X r0 r → has_ended r root → going X r0 (delete (("budget" : string), root) r).
Proof.
  intros (HI & Hev & HX) He. set (r' := delete _ r).
  assert (∀ id s, stored r' id s ↔ stored r id s) as Hst by (intros; unfold stored, r'; by rewrite drop_same).
  assert (∀ id, has_ended r' id ↔ has_ended r id) as Hend by (intros; unfold has_ended; by setoid_rewrite Hst).
  split; [|split].
  - destruct HI as [HR Hx HF]. split.
    + intros id c. unfold r'. rewrite drop_same by done. apply HR.
    + intros k c Hk. unfold r' at 1. rewrite drop_same, Hx by (done || by intros E; rewrite E in Hk).
      split; intros (s & Hs%Hst & Hi); by exists s.
    + destruct HF as [rank HF]. exists rank. intros id s l Hs%Hst Hl. destruct (HF _ _ _ Hs Hl) as [[p Hp%Hst] Hlt]. eauto.
  - etrans; [exact Hev|]. split.
    + intros id s Hs%Hst. by exists s.
    + intros id k a Ha _. right. exists a. unfold r'. rewrite drop_same by done. by rewrite transition_refl.
    + intros root'. unfold r' at 2. rewrite budget_delete. case_decide as Hd; [left|by right]. subst. by apply Hend.
  - intros id s l Hs%Hst Hn Hl Hpe%Hend. by eapply HX.
Qed.

(** ** Rules *)

Section rules.
Context (X : list string) (r0 : rows).

Lemma wp_moves {A} (p : prog A) (Q : A → rows → Prop) r :
  stable moves p → going X r0 r → (∀ a r', going X r0 r' → moves r r' → Q a r') → wp p Q r.
Proof.
  intros Hp Hg HQ. eapply wp_mono; [apply Hp|]. intros a r' Hm. apply HQ; [|done].
  by eapply going_moves.
Qed.
Lemma wp_find_run id (Q : option StoredRun → rows → Prop) r :
  going X r0 r → (r !! ("run", id) = None → Q None r) →
  (∀ s, run_id s = id → stored r id s → Q (Some s) r) → wp (find_run id) Q r.
Proof.
  intros (HI & _) HN HS. unfold wp. rewrite exec_find_run by done.
  destruct (r !! ("run", id)) as [c|] eqn:E; [|by apply HN].
  destruct (inv_run r HI _ _ E) as (s & -> & Hid & _). by apply HS.
Qed.
Lemma wp_run id (Q : StoredRun → rows → Prop) r :
  going X r0 r → (∀ s, run_id s = id → stored r id s → Q s r) → wp (run id) Q r.
Proof.
  intros Hg HQ. unfold run. apply wp_bind, wp_find_run; [done|done|]. intros s Hid Hs. by apply HQ.
Qed.
Lemma going_restored r r' s : going X r0 r → staged r s → (∀ k, r' !! k = restored s r k) →
  going X r0 r'.
Proof.
  intros (HI & He & HX) Hs Hr. pose proof (staged_stageable r s Hs) as Hst.
  split; [by eapply restored_Inv|]. split; [|by eapply restored_orphans].
  etrans; [done|]. by eapply restored_evolves.
Qed.
Lemma wp_store_run s (Q : unit → rows → Prop) r :
  going X r0 r → staged r s →
  (∀ r', going X r0 r' → stored r' (run_id s) s → (∀ k, r' !! k = restored s r k) → Q tt r') →
  wp (store_run s) Q r.
Proof.
  intros Hg Hs HQ. destruct (exec_store_run r (proj1 Hg) s) as (r' & E & Hr'); [by apply staged_stageable|].
  unfold wp. rewrite E. apply HQ; [by eapply going_restored|by eapply restored_self|done].
Qed.
Lemma wp_store_run_indexed s s0 (Q : unit → rows → Prop) r :
  going X r0 r → stored r (run_id s) s0 → staged r s →
  (∀ r', going X r0 r' → stored r' (run_id s) s → (∀ k, r' !! k = restored s r k) → Q tt r') →
  wp (store_run_indexed s (indexes s0)) Q r.
Proof.
  intros Hg Hs0 Hs HQ.
  destruct (exec_store_run_indexed r (proj1 Hg) s) as (r' & E & Hr'); [by apply staged_stageable|].
  unfold old_indexes in E. unfold stored in Hs0. rewrite Hs0 in E.
  unfold wp. rewrite E. apply HQ; [by eapply going_restored|by eapply restored_self|done].
Qed.
(** The stores that end a run: its live children are to be ended yet. *)
Lemma going_ended r r' s s0 : going X r0 r → stored r (run_id s) s0 → evolve_run s0 s →
  (∀ k, r' !! k = restored s r k) → going (run_id s :: X) r0 r'.
Proof.
  intros (HI & He & HX) Hs0 Ha Hr.
  assert (stageable r s) as Hst by (unfold stageable, stored in *; rewrite Hs0; eauto).
  split; [by eapply restored_Inv|]. split; [|by eapply restored_orphans_end].
  etrans; [done|]. by eapply restored_evolves.
Qed.
Lemma wp_end_run s s0 (Q : unit → rows → Prop) r :
  going X r0 r → stored r (run_id s) s0 → evolve_run s0 s →
  (∀ r', going (run_id s :: X) r0 r' → stored r' (run_id s) s → (∀ k, r' !! k = restored s r k) →
     Q tt r') →
  wp (store_run s) Q r ∧ wp (store_run_indexed s (indexes s0)) Q r.
Proof.
  intros Hg Hs0 Ha HQ.
  assert (stageable r s) as Hst by (unfold stageable, stored in *; rewrite Hs0; eauto).
  unfold wp. split.
  - destruct (exec_store_run r (proj1 Hg) s Hst) as (r' & -> & Hr').
    apply HQ; [by eapply going_ended|by eapply restored_self|done].
  - destruct (exec_store_run_indexed r (proj1 Hg) s Hst) as (r' & E & Hr').
    unfold old_indexes in E. pose proof Hs0 as Hs1. unfold stored in Hs1. rewrite Hs1 in E. rewrite E.
    apply HQ; [by eapply going_ended|by eapply restored_self|done].
Qed.
Lemma wp_indexed_runs kind start end_ limit (Q : list StoredRun → rows → Prop) r :
  going X r0 r →
  (∀ l, Forall2 (λ x s, index_id x.2 = Some (run_id s) ∧ stored r (run_id s) s)
          (scan_rows r kind start end_ limit) l → Q l r) →
  wp (indexed_runs kind start end_ limit) Q r.
Proof.
  intros Hg HQ. unfold indexed_runs. apply wp_bind, wp_scan. eapply wp_mono.
  { apply (wp_map_each _ _ (λ x s, index_id x.2 = Some (run_id s) ∧ stored r (run_id s) s)).
    intros [k c] _. apply wp_bind, wp_some_or. intros id Hid.
    apply wp_run; [done|]. intros s Hs Hst. subst id. by split. }
  intros l r' [HF ->]. by apply HQ.
Qed.
End rules.

(** ** Updates that advance a run row *)

(** Counters of the mailbox only. *)
Lemma advance_same s s' :
  s_run s' = s_run s → s_version s' = s_version s → s_digest s' = s_digest s →
  s_awaits s' = s_awaits s → s_listeners s' = s_listeners s →
  s_subscriptions s' = s_subscriptions s → s_waits s' = s_waits s → advance s s'.
Proof.
  intros Hr Hv Hd Ha Hl Hu Hw. split; [|by rewrite Hr].
  split; rewrite ?Hr; auto; [lia|]. intros [Hv' Hg Hf Hle Hli He]. unfold run_id in *.
  split; unfold run_id; rewrite ?Hr, ?Hv, ?Ha, ?Hl, ?Hu, ?Hw; auto.
Qed.
(** A live run: its fence kept, or dropped with its lease. *)
Lemma advance_live s s' :
  r_ended_ms (s_run s) = None → s_version s' = s_version s → s_digest s' = s_digest s →
  r_admission (s_run s') = r_admission (s_run s) → r_child (s_run s') = r_child (s_run s) →
  r_root (s_run s') = r_root (s_run s) → r_admitted_ms (s_run s') = r_admitted_ms (s_run s) →
  r_epoch (s_run s') = r_epoch (s_run s) → r_generation (s_run s') = r_generation (s_run s) →
  r_ended_ms (s_run s') = None → r_outcome (s_run s') = r_outcome (s_run s) →
  r_state (s_run s') = r_state (s_run s) ∨ live_state (r_state (s_run s')) = true →
  (r_fence (s_run s') = r_fence (s_run s) ∧ r_state (s_run s') = r_state (s_run s) ∧
     (is_Some (r_lease_until_ms (s_run s')) ↔ is_Some (r_lease_until_ms (s_run s)))) ∨
  (r_fence (s_run s') = None ∧ r_lease_until_ms (s_run s') = None) → advance s s'.
Proof.
  intros Hn Hv Hd Ha Hc Ho Hm He Hg Hn' Hout Hst Hf.
  split; [|done]. split; auto; [lia|intros _; destruct Hf as [(-> & _)|[-> _]]; auto|intros [? ?]; congruence|].
  intros [Hv' Hg' Hf' Hle' Hli' He'].
  assert (run_id s' = run_id s) as Hid by (unfold run_id; by rewrite Ha).
  split; rewrite ?Hid, ?Hv, ?Hg, ?Hn', ?Hout; auto.
  - intros f Hfe. destruct Hf as [(Hf & Hs & Hl)|[Hf _]]; [|congruence].
    rewrite Hf in Hfe. destruct (Hf' f Hfe) as (? & ? & ? & ?). rewrite Hs. tauto.
  - intros Hl. destruct Hf as [(Hf & _ & Hl')|[_ Hl']]; [rewrite Hf; tauto|].
    rewrite Hl' in Hl. by destruct Hl.
  - intros _. destruct (Hli' Hn) as [H1 H2]. split; [done|]. destruct Hst as [->|?]; done.
  - by intros [? ?].
Qed.
(** Applies [advance_live] to a row given by record updates. *)
Ltac advance_live := apply advance_live; cbn; auto; try (left; split; [done|split; [done|tauto]]).

(** ** Programs that keep the invariant *)

(** [keeps_with R p]: [p] keeps the invariant and relates the rows before and
    after it by [R], a preorder that other rows' moves satisfy. *)
Class Frame (R : relation rows) : Prop := {
  #[global] frame_preorder :: PreOrder R;
  frame_moves : ∀ r r', moves r r' → R r r'
}.
Definition keeps_with (R : relation rows) {A} (p : prog A) : Prop :=
  ∀ r0 r, good r0 r → wp p (λ _ r', good r0 r' ∧ R r r') r.
Definition anyhow : relation rows := λ _ _, True.
#[export] Instance anyhow_frame : Frame anyhow.
Proof. split; [split; repeat intro; done|done]. Qed.
(** The run rows there are stay as they are; others may be added. *)
Definition extends : relation rows := λ r r', ∀ id s, stored r id s → stored r' id s.
#[export] Instance extends_frame : Frame extends.
Proof.
  split; [split|].
  - by intros r id s.
  - intros r1 r2 r3 H1 H2 id s Hs. by apply H2, H1.
  - intros r r' Hm id s Hs. by rewrite (moves_stored r r').
Qed.
Definition keeps {A} (p : prog A) : Prop := ∀ r0 r, good r0 r → wp p (λ _ r', good r0 r') r.

Lemma keeps_anyhow {A} (p : prog A) : keeps p ↔ keeps_with anyhow p.
Proof.
  split; intros Hp r0 r Hg; (eapply wp_mono; [by apply Hp|]); [done|]. by intros ? r' [Hg' _].
Qed.
Lemma keeps_weaken (R : relation rows) {A} (p : prog A) : keeps_with R p → keeps p.
Proof. intros Hp r0 r Hg. eapply wp_mono; [by apply Hp|]. by intros ? r' [Hg' _]. Qed.

Section keeps_with.
Context {R : relation rows} `{!Frame R}.
Lemma keeps_with_moves {A} (p : prog A) : stable moves p → keeps_with R p.
Proof. intros Hp r0 r Hg. eapply wp_moves; [done..|]. intros a r' Hg' Hm. split; [done|by apply frame_moves]. Qed.
Lemma keeps_with_bind {A B} (p : prog A) (f : A → prog B) :
  keeps_with R p → (∀ a, keeps_with R (f a)) → keeps_with R (p ≫= f).
Proof.
  intros Hp Hf r0 r Hg. apply wp_bind. eapply wp_mono; [by apply Hp|]. intros a r1 [Hg1 H1].
  eapply wp_mono; [by apply Hf|]. intros b r2 [Hg2 H2]. split; [done|exact (transitivity H1 H2)].
Qed.
Lemma keeps_with_for_each {A} (l : list A) (f : A → prog unit) :
  (∀ x, keeps_with R (f x)) → keeps_with R (for_each l f).
Proof.
  intros Hf. induction l as [|x l IH]; simpl; [by apply keeps_with_moves, stable_pret|].
  by apply keeps_with_bind.
Qed.
Lemma keeps_with_fold_each {A S} (l : list A) (s : S) (f : S → A → prog S) :
  (∀ s x, keeps_with R (f s x)) → keeps_with R (fold_each l s f).
Proof.
  intros Hf. revert s. induction l as [|x l IH]; intros s; simpl; [by apply keeps_with_moves, stable_pret|].
  by apply keeps_with_bind.
Qed.
End keeps_with.

Lemma keeps_moves {A} (p : prog A) : stable moves p → keeps p.
Proof. intros Hp. by apply keeps_anyhow, keeps_with_moves. Qed.
Lemma keeps_bind {A B} (p : prog A) (f : A → prog B) :
  keeps p → (∀ a, keeps (f a)) → keeps (p ≫= f).
Proof. setoid_rewrite keeps_anyhow. apply keeps_with_bind. Qed.
Lemma keeps_for_each {A} (l : list A) (f : A → prog unit) : (∀ x, keeps (f x)) → keeps (for_each l f).
Proof. setoid_rewrite keeps_anyhow. apply keeps_with_for_each. Qed.
Lemma keeps_fold_each {A S} (l : list A) (s : S) (f : S → A → prog S) :
  (∀ s x, keeps (f s x)) → keeps (fold_each l s f).
Proof. setoid_rewrite keeps_anyhow. apply keeps_with_fold_each. Qed.
Lemma wp_keeps {A} (p : prog A) r0 (Q : A → rows → Prop) r :
  keeps p → good r0 r → (∀ a r', good r0 r' → Q a r') → wp p Q r.
Proof. intros Hp Hg HQ. eapply wp_mono; [by apply Hp|]. intros a r' Hg'. by apply HQ. Qed.

Lemma keeps_indexed_runs kind start end_ limit : keeps (indexed_runs kind start end_ limit).
Proof. intros r0 r Hg. by eapply wp_indexed_runs. Qed.
Lemma keeps_find_run id : keeps (find_run id).
Proof. intros r0 r Hg. by eapply wp_find_run. Qed.
Lemma keeps_run id : keeps (run id).
Proof. intros r0 r Hg. by eapply wp_run. Qed.
Create HintDb keeps.
#[export] Hint Resolve keeps_indexed_runs keeps_find_run keeps_run : keeps.
Ltac keeps_step :=
  match goal with
  | |- keeps _ => solve [eauto 1 with keeps nocore]
  | |- keeps_with _ _ => solve [eauto 1 with keeps nocore]
  | |- keeps _ => solve [apply keeps_moves; solve_stable]
  | |- keeps_with _ _ => solve [apply keeps_with_moves; solve_stable]
  | |- keeps (match ?x with _ => _ end) => destruct x
  | |- keeps (let '_ := ?x in _) => destruct x
  | |- keeps (_ ≫= _) => apply keeps_bind; [|intros]
  | |- keeps (for_each _ _) => apply keeps_for_each; intros
  | |- keeps (fold_each _ _ _) => apply keeps_fold_each; intros
  | |- keeps_with _ (match ?x with _ => _ end) => destruct x
  | |- keeps_with _ (let '_ := ?x in _) => destruct x
  | |- keeps_with _ (_ ≫= _) => apply keeps_with_bind; [|intros]
  | |- keeps_with _ (for_each _ _) => apply keeps_with_for_each; intros
  | |- keeps_with _ (fold_each _ _ _) => apply keeps_with_fold_each; intros
  | |- _ => progress intros
  end.
Ltac solve_keeps := repeat (keeps_step; cbn beta iota).

(** ** Transactions that succeed

    [twp p Q r]: the program [p] succeeds on the rows [r], and its answer and the
    rows after satisfy [Q]. [wp] says what holds if a transaction does not fail;
    the rules here show for the engine's helpers, on rows that satisfy the
    invariant, that they do not. *)

Definition twp {A} (p : prog A) (Q : A → rows → Prop) (r : rows) : Prop :=
  ∃ a r', exec p r = Ok (a, r') ∧ Q a r'.

Lemma twp_seq {A B} (p : prog A) (f : A → prog B) (Q : A → rows → Prop) (R : B → rows → Prop) r :
  twp p Q r → (∀ a r', Q a r' → twp (f a) R r') → twp (p ≫= f) R r.
Proof. intros (a & r' & E & HQ) Hf. unfold twp. rewrite exec_bind, E. by apply Hf. Qed.
Lemma twp_mono {A} (p : prog A) (Q Q' : A → rows → Prop) r :
  twp p Q r → (∀ a r', Q a r' → Q' a r') → twp p Q' r.
Proof. intros (a & r' & E & HQ) Hm. exists a, r'. auto. Qed.
Lemma twp_ret {A} (a : A) (Q : A → rows → Prop) r : Q a r → twp (mret a) Q r.
Proof. by exists a, r. Qed.
Lemma twp_wp {A} (p : prog A) (Q : A → rows → Prop) r : twp p Q r → wp p Q r.
Proof. intros (a & r' & E & HQ). by eapply wp_step. Qed.
(** A program that succeeds satisfies what holds of it when it does. *)
Lemma wp_twp {A} (p : prog A) (Q R : A → rows → Prop) r : twp p Q r → wp p R r → twp p (λ a r', Q a r' ∧ R a r') r.
Proof. intros (a & r' & E & HQ) HR. exists a, r'. split; [done|]. split; [done|]. by eapply wp_exec. Qed.
Lemma twp_bind {A B} (p : prog A) (f : A → prog B) (R : B → rows → Prop) r a r' :
  exec p r = Ok (a, r') → twp (f a) R r' → twp (p ≫= f) R r.
Proof. intros E Hf. unfold twp. by rewrite exec_bind, E. Qed.
Lemma twp_map_each {A B} (l : list A) (f : A → prog B) (P : A → B → Prop) r :
  (∀ x, x ∈ l → twp (f x) (λ y r', r' = r ∧ P x y) r) →
  twp (map_each l f) (λ ys r', r' = r ∧ Forall2 P l ys) r.
Proof.
  induction l as [|x l IH]; intros Hf; cbn [map_each]; [by exists [], r|].
  eapply twp_seq; [apply Hf; left|]. intros y r' [-> Hy]. eapply twp_seq.
  - apply IH. intros z Hz. apply Hf. by right.
  - intros ys r' [-> Hys]. apply twp_ret. by split; [|constructor].
Qed.
Lemma twp_fold_each {A S} (l : list A) (s : S) (f : S → A → prog S) (I : list A → S → rows → Prop) r :
  I l s r →
  (∀ s x l' r, I (x :: l') s r → twp (f s x) (λ s' r', I l' s' r') r) →
  twp (fold_each l s f) (λ s' r', I [] s' r') r.
Proof.
  intros HI Hf. revert s r HI. induction l as [|x l IH]; intros s r HI; cbn [fold_each]; [by exists s, r|].
  eapply twp_seq; [by eapply Hf|]. intros s' r' HI'. by apply IH.
Qed.
(** ** Runs *)

Lemma twp_find_run r id : Inv r →
  twp (find_run id) (λ s r', r' = r ∧ ∀ t, s = Some t ↔ stored r id t) r.
Proof.
  intros HI. eexists _, r. split; [by apply exec_find_run|]. split; [done|]. intros t. unfold stored.
  destruct (r !! ("run", id)) as [c|] eqn:E; [|done].
  destruct (inv_run r HI _ _ E) as (s & -> & _). split; congruence.
Qed.
Lemma exec_get {T} `{Row T} (kind id : string) c (x : T) r :
  r !! (kind, id) = Some c → of_cell c = Some x → exec (get kind id) r = Ok (Some x, r).
Proof.
  intros Hc Hx. unfold get. rewrite exec_bind. cbn [get_cell exec exec_op]. rewrite Hc.
  unfold decode. by rewrite Hx.
Qed.
Lemma exec_found r id s : Inv r → stored r id s → exec (find_run id) r = Ok (Some s, r).
Proof. intros HI Hs. rewrite exec_find_run by done. unfold stored in Hs. by rewrite Hs. Qed.
Lemma exec_run r id s : Inv r → stored r id s → exec (run id) r = Ok (s, r).
Proof. intros HI Hs. unfold run. by rewrite exec_bind, (exec_found r id s). Qed.

(** A scan of an index of runs succeeds: each of its rows names a stored run. *)
Lemma twp_indexed_runs r kind start end_ limit : Inv r →
  is_Some (shape_of (family kind)) → shape_of (family kind) ≠ Some TimedWait →
  twp (indexed_runs kind start end_ limit) (λ l r', r' = r ∧
    Forall2 (λ x s, index_id x.2 = Some (run_id s) ∧ stored r (run_id s) s)
      (scan_rows r kind start end_ limit) l) r.
Proof.
  intros HI Hsh Hsw. unfold indexed_runs. eapply twp_bind; [done|]. apply twp_map_each.
  intros [k c] [Hc _]%elem_of_scan_rows.
  destruct (index_row_run r (kind, k) c HI) as (t & Ht & _ & Hti & _); cbn [fst]; try done.
  { unfold indexed. by apply bool_decide_true. }
  eapply twp_bind; [by rewrite Hti|]. exists t, r. by split; [apply exec_run|].
Qed.

(** Storing a run over its row succeeds. *)
Lemma twp_store_run_indexed r s s0 : Inv r → stored r (run_id s) s0 → staged r s →
  twp (store_run_indexed s (indexes s0)) (λ _ _, True) r.
Proof.
  intros HI Hs0 Hst. destruct (exec_store_run_indexed r HI s (staged_stageable r s Hst)) as (r' & E & _).
  exists (), r'. unfold old_indexes, stored in *. by rewrite Hs0 in E.
Qed.
