(* ===== verification/Preserve.v ===== *)
(** * Every operation keeps the invariant

    The engine's procedures, one lemma each: what they do to the run rows and
    the journals, and that the invariant holds after them. *)
From S2P Require Import Prelude Json Keys Outcome Journal Listen Types Store Index Admit Mailbox.
From S2P Require Import Triggers Lifecycle Control RunStore Logic Rows Steps.

(** ** Mailbox *)

(** The updates of a run row that only count its copies. *)
Definition mailbox_fields (s : StoredRun) (a : Z) (p : gmap string PendingCount) (n : Z)
    (m : option Z) (e : bool) : StoredRun :=
  s <| s_accepted := a |> <| s_pending := p |> <| s_published := n |> <| s_mailbox := m |>
    <| s_evidence := e |>.
Definition recounted (s s' : StoredRun) : Prop := ∃ a p n m e, s' = mailbox_fields s a p n m e.
Lemma recounted_intro s s' :
  s' = mailbox_fields s (s_accepted s') (s_pending s') (s_published s') (s_mailbox s') (s_evidence s') →
  recounted s s'.
Proof. intros ->. by do 5 eexists. Qed.
Ltac recount := apply recounted_intro; reflexivity.
#[export] Instance recounted_preorder : PreOrder recounted.
Proof.
  split.
  - intros s. exists (s_accepted s), (s_pending s), (s_published s), (s_mailbox s), (s_evidence s).
    by destruct s.
  - intros s t u (a & p & n & m & e & ->) (a' & p' & n' & m' & e' & ->). by exists a', p', n', m', e'.
Qed.
Lemma recounted_advance s s' : recounted s s' → advance s s'.
Proof. intros (a & p & n & m & e & ->). by apply advance_same. Qed.
Lemma recounted_run s s' : recounted s s' → s_run s' = s_run s.
Proof. by intros (a & p & n & m & e & ->). Qed.
Lemma recounted_run_id s s' : recounted s s' → run_id s' = run_id s.
Proof. by intros (a & p & n & m & e & ->). Qed.

(** Programs that move other rows and recount a run row. *)
Definition threads (s : StoredRun) (p : prog StoredRun) : Prop :=
  ∀ r, wp p (λ s' r', moves r r' ∧ recounted s s') r.

Lemma threads_bind {A} (p : prog A) f s :
  stable moves p → (∀ a, threads s (f a)) → threads s (p ≫= f).
Proof.
  intros Hp Hf r. apply wp_bind. eapply wp_mono; [apply Hp|]. intros a r1 H1.
  eapply wp_mono; [apply Hf|]. intros s' r2 [H2 Hs]. split; [exact (transitivity H1 H2)|done].
Qed.
Lemma threads_bind_row p f s :
  threads s p → (∀ s', recounted s s' → threads s' (f s')) → threads s (p ≫= f).
Proof.
  intros Hp Hf r. apply wp_bind. eapply wp_mono; [apply Hp|]. intros s1 r1 [H1 Hs1].
  eapply wp_mono; [by apply Hf|]. intros s2 r2 [H2 Hs2].
  exact (conj (transitivity H1 H2) (transitivity Hs1 Hs2)).
Qed.
Lemma threads_ret s s' : recounted s s' → threads s (mret s').
Proof. intros H r. apply wp_ret. by split. Qed.
Lemma threads_fold {A} (l : list A) s f :
  (∀ s' x, recounted s s' → threads s' (f s' x)) → threads s (fold_each l s f).
Proof.
  intros Hf. assert (recounted s s) as H by reflexivity. revert H. generalize s at 2 3 4.
  induction l as [|x l IH]; intros t Ht; simpl; [intros r; by apply wp_pret|].
  apply threads_bind_row; [by apply Hf|]. intros t' Ht'. apply IH. by etrans.
Qed.
Lemma wp_threads r0 s p (Q : StoredRun → rows → Prop) r :
  threads s p → good r0 r → staged r s →
  (∀ s' r', good r0 r' → moves r r' → staged r' s' → recounted s s' → Q s' r') → wp p Q r.
Proof.
  intros Hp Hg Hs HQ. eapply wp_mono; [apply Hp|]. intros s' r' [Hm Hc].
  assert (good r0 r') as Hg' by by eapply going_moves.
  apply HQ; [done|done| |done]. eapply staged_advance; [apply Hg'| |by apply recounted_advance].
  by eapply moves_staged.
Qed.

Lemma pending_rows_free run n e x : x ∈ pending_rows run n e → free x.1.1 = true.
Proof.
  unfold pending_rows. rewrite !elem_of_app, !elem_of_cons, elem_of_nil.
  intros [[->|[->|[]]]|[H|H]]; [by apply free_partition_app..| |].
  - destruct (published e); [|by apply elem_of_nil in H].
    rewrite !elem_of_cons, elem_of_nil in H. destruct H as [->|[->|[]]]; by apply free_partition.
  - destruct (e_expires_at_ms e); [|by apply elem_of_nil in H].
    apply list_elem_of_singleton in H as ->. by apply free_partition.
Qed.
Lemma stable_put_rows run n e : stable moves (for_each (pending_rows run n e) put_row).
Proof.
  apply stable_for_each_in. intros x Hx%pending_rows_free. by apply stable_put_cell_free.
Qed.
Lemma stable_drop_rows run n e : stable moves (for_each (pending_rows run n e) drop_row).
Proof.
  apply stable_for_each_in. intros x Hx%pending_rows_free. by apply stable_delete_free.
Qed.
Lemma stable_copy {R : relation rows} `{!PreOrder R} run n : stable R (copy run n).
Proof. unfold copy. solve_stable. Qed.
#[export] Hint Resolve stable_put_rows stable_drop_rows stable_copy : stable.

Lemma push_threads s e : threads s (push s e).
Proof.
  unfold push. apply threads_bind; [solve_stable|]. intros accepted.
  repeat (apply threads_bind; [solve_stable|intros ?]).
  apply threads_ret. unfold counted. recount.
Qed.
Lemma uncounted_recounted s e : recounted s (uncounted s e).
Proof.
  unfold uncounted. destruct (s_pending s !! _) as [p|]; cbn zeta; [case_decide|]; recount.
Qed.
Lemma consume_threads s n e k : threads s (consume s n e k).
Proof.
  unfold consume. repeat (apply threads_bind; [solve_stable|intros ?]).
  apply threads_ret, uncounted_recounted.
Qed.
Lemma refresh_threads s : threads s (refresh_mailbox s).
Proof.
  unfold refresh_mailbox. apply threads_bind; [solve_stable|]. intros [|[k c] l].
  - apply threads_ret. recount.
  - apply threads_bind; [solve_stable|]. intros p. apply threads_ret. recount.
Qed.

Section with_host.
Context `{Host}.

Lemma stable_envelope {R : relation rows} `{!PreOrder R} e : stable R (envelope e).
Proof. unfold envelope. solve_stable. Qed.
Hint Resolve stable_envelope : stable.
Lemma expire_one_threads s x : threads s (expire_one (run_id s) s x).
Proof.
  unfold expire_one. do 4 (apply threads_bind; [solve_stable|intros ?]). apply consume_threads.
Qed.
(** [expire] also answers how many copies it consumed. *)
Lemma wp_expire r0 s now (Q : StoredRun * nat → rows → Prop) r :
  good r0 r → staged r s →
  (∀ s' n r', good r0 r' → moves r r' → staged r' s' → recounted s s' → Q (s', n) r') →
  wp (expire s now) Q r.
Proof.
  intros Hg Hs HQ. unfold expire. destruct (is_none_or _ _).
  { apply wp_ret, HQ; [done|reflexivity|done|reflexivity]. }
  apply wp_bind. eapply wp_moves; [solve_stable|done|]. intros due r1 Hg1 Hm1. apply wp_bind.
  eapply wp_threads; [|done|by eapply moves_staged|].
  { apply threads_fold. intros s' x Hs'. rewrite <- (recounted_run_id _ _ Hs').
    apply expire_one_threads. }
  intros s2 r2 Hg2 Hm2 Hs2 Hc2. apply wp_bind.
  eapply wp_threads; [apply refresh_threads|done|done|]. intros s3 r3 Hg3 Hm3 Hs3 Hc3.
  apply wp_ret, HQ; [done| |done|by etrans].
  etrans; [done|]. by etrans.
Qed.

Lemma advance_wake s w : r_ended_ms (s_run s) = None →
  advance s (s <| s_run ::= λ r, r <| r_wake_at_ms := w |> |>).
Proof. intros Hn. advance_live. Qed.
(** [accept] stores a copy unless the run holds its identity already. *)
Lemma wp_accept r0 s e now (Q : option StoredRun → rows → Prop) r :
  good r0 r → staged r s →
  ((∀ i, (e_envelope e ≫= identity) = Some i →
      r !! (identities_of (run_id s), component i) = None) → r_ended_ms (s_run s) = None) →
  (∀ r', good r0 r' → moves r r' → Q None r') →
  (∀ s' r', good r0 r' → moves r r' → staged r' s' → run_id s' = run_id s →
     r_ended_ms (s_run s') = None → Q (Some s') r') →
  wp (accept s e now) Q r.
Proof.
  intros Hg Hs Hlive HN HS. unfold accept. apply wp_bind.
  eapply (wp_mono _ (λ b r1, r1 = r ∧ (b = false → ∀ i, (e_envelope e ≫= identity) = Some i →
    r !! (identities_of (run_id s), component i) = None))).
  { destruct (e_envelope e ≫= identity) as [i|]; [|by apply wp_ret].
    apply wp_bind, wp_get; [intros Hn; apply wp_ret; split; [done|]; by intros _ ? [= <-]|].
    intros c n Hc _. apply wp_bind. unfold copy. apply wp_bind, wp_get; [done|].
    intros c' h _ _. apply wp_pret. case_decide; [by apply wp_ret|done]. }
  intros [] r1 [-> Hh]; [by apply wp_ret, HN|]. specialize (Hlive (Hh eq_refl)).
  apply wp_bind.
  assert (∀ s1, staged r s1 → run_id s1 = run_id s → r_ended_ms (s_run s1) = None →
    wp (push s1 e) (λ a r', wp (mret (Some a)) Q r') r) as Hpush.
  { intros s1 Hs1 Hid Hn1. eapply wp_threads; [apply push_threads|done|done|].
    intros s' r' Hg' Hm Hs' Hc. apply wp_ret, HS; [done..| |by rewrite (recounted_run _ _ Hc)].
    by rewrite (recounted_run_id _ _ Hc). }
  destruct (wanted s e now); apply Hpush; [|done..].
  eapply staged_advance; [apply Hg|done|]. advance_live.
Qed.

(** What [deliver], [publish] and [notify] do with an accepted copy. *)
Lemma wp_accept_store r0 s e now {A} (f : option StoredRun → prog A) (Q : A → rows → Prop) r :
  good r0 r → staged r s →
  ((∀ i, (e_envelope e ≫= identity) = Some i →
      r !! (identities_of (run_id s), component i) = None) → r_ended_ms (s_run s) = None) →
  (∀ o r', good r0 r' → moves r r' →
     (∀ s', o = Some s' → staged r' s' ∧ r_ended_ms (s_run s') = None) → wp (f o) Q r') →
  wp (accept s e now ≫= f) Q r.
Proof.
  intros Hg Hs Hlive HQ. apply wp_bind. eapply wp_accept; [done..| |].
  - intros r' Hg' Hm. by apply HQ.
  - intros s' r' Hg' Hm Hs' _ Hn. apply HQ; [done|done|]. by intros ? [= <-].
Qed.

Lemma last_Some_elem {A} (l : list A) x : last l = Some x → x ∈ l.
Proof. rewrite last_lookup. by apply list_elem_of_lookup_2. Qed.
Lemma Forall2_stored (r : rows) kind start end_ limit l s :
  Forall2 (λ x s, index_id x.2 = Some (run_id s) ∧ stored r (run_id s) s)
    (scan_rows r kind start end_ limit) l → s ∈ l → stored r (run_id s) s.
Proof.
  intros HF Hin. apply list_elem_of_lookup in Hin as [i Hi].
  destruct (Forall2_lookup_r _ _ _ _ _ HF Hi) as (x & _ & _ & H0). done.
Qed.

(** Live runs stay live. *)
Definition alive (r r' : rows) : Prop := ∀ id s, stored r id s → r_ended_ms (s_run s) = None →
  ∃ s', stored r' id s' ∧ r_ended_ms (s_run s') = None.
Lemma alive_refl r : alive r r.
Proof. intros id s Hs Hn. eauto. Qed.
Lemma alive_restored r r1 r' s : Inv r1 → moves r r1 → (∀ k, r' !! k = restored s r1 k) →
  r_ended_ms (s_run s) = None → alive r r'.
Proof.
  intros HI Hm Hr Hn id t Ht Htn. destruct (decide (id = run_id s)) as [->|Hid].
  - exists s. split; [by eapply restored_self|done].
  - exists t. split; [|done]. apply (restored_stored r1 r' s); [done..|]. right.
    by rewrite (moves_stored r r1).
Qed.
Lemma wp_deliver r0 event target now policy r :
  good r0 r → wp (deliver event target now policy) (λ _ r', good r0 r' ∧ alive r r') r.
Proof.
  intros Hg. unfold deliver.
  apply wp_bind, wp_some_or. intros t Ht. apply wp_bind, wp_some_or. intros i Hi. cbv zeta.
  apply wp_bind. eapply (wp_mono _ (λ c r1, r1 = r ∧ ∀ s, c = Some s → stored r (run_id s) s)).
  { destruct target as [id|].
    - eapply wp_find_run; [done|done|]. intros s Hid Hs. split; [done|]. intros ? [= <-]. by rewrite Hid.
    - apply wp_bind. eapply wp_indexed_runs; [done|]. intros l Hl.
      destruct (last l) as [s|] eqn:E.
      + apply wp_ret. split; [done|]. intros ? [= <-]. eapply Forall2_stored; [done|by apply last_Some_elem].
      + apply wp_bind. eapply wp_indexed_runs; [done|]. intros l' Hl'. apply wp_ret. split; [done|].
        intros s Hs. eapply Forall2_stored; [exact Hl'|by apply last_Some_elem]. }
  pose proof (alive_refl r) as Hal.
  intros [s|] r1 [-> Hst]; [|by apply wp_ret]. specialize (Hst s eq_refl).
  apply wp_bind. eapply (wp_mono _ (λ b r1, r1 = r ∧ (b = false → is_Some (r_ended_ms (s_run s)) →
    r !! (identities_of (run_id s), component i) ≠ None))).
  { case_decide; [|by apply wp_ret]. apply wp_bind, wp_get_cell, wp_ret. split; [done|].
    by intros Hf%bool_decide_eq_false _. }
  intros [] r1 [-> Hgone]; [by apply wp_ret|].
  eapply wp_accept_store; [done|by eapply stored_staged; [apply Hg|]| |].
  { intros Hno. destruct (r_ended_ms (s_run s)) as [at_|] eqn:E; [|done]. exfalso.
    by eapply Hgone; [done|rewrite ?E|apply Hno]. }
  intros [s'|] r' Hg' Hm' Hs'; apply wp_bind; [|apply wp_ret, wp_ret].
  - destruct (Hs' s' eq_refl) as [Hs1 Hn1]. eapply wp_store_run; [done|done|].
    intros r2 Hg2 _ Hr2. apply wp_ret. split; [done|]. eapply alive_restored; [apply Hg'|done..].
  - split; [done|]. intros id u Hu Hun. exists u. by rewrite (moves_stored r r').
Qed.
Lemma keeps_deliver event target now policy : keeps (deliver event target now policy).
Proof. intros r0 r Hg. eapply wp_mono; [by apply wp_deliver|]. by intros ? r' [Hg' _]. Qed.

Lemma keeps_notify parent t data now : keeps (notify parent t data now).
Proof.
  intros r0 r Hg. unfold notify. apply wp_bind. eapply wp_run; [done|]. intros s Hid Hs.
  case_decide as Hd; [by apply wp_ret|]. cbv zeta. apply wp_bind.
  assert (staged r s) as Hst by (eapply stored_staged; [apply Hg|done]).
  eapply wp_threads; [apply push_threads|done| |].
  - destruct (wakes s t false); [|done]. eapply staged_advance; [apply Hg|done|].
    assert (r_ended_ms (s_run s) = None) by (destruct (r_ended_ms (s_run s)); [naive_solver|done]).
    advance_live.
  - intros s' r' Hg' _ Hs' _. by eapply wp_store_run.
Qed.

(** Rows loaded before a loop are still stored when their turn comes: the
    loop stores other runs only. *)
Definition loaded (r : rows) (l : list StoredRun) : Prop :=
  NoDup (run_id <$> l) ∧ ∀ s, s ∈ l → stored r (run_id s) s.
Lemma loaded_head r s l : loaded r (s :: l) →
  stored r (run_id s) s ∧ (∀ t, t ∈ l → run_id t ≠ run_id s) ∧ loaded r l.
Proof.
  intros [HN HS]. rewrite fmap_cons, NoDup_cons in HN. destruct HN as [Hx HN].
  split; [apply HS; by left|]. split.
  - intros t Ht Hid. apply Hx. rewrite <- Hid. apply list_elem_of_fmap. eauto.
  - split; [done|]. intros t Ht. apply HS. by right.
Qed.
Lemma loaded_moves r r' l : moves r r' → loaded r l → loaded r' l.
Proof. intros Hm [HN HS]. split; [done|]. intros s Hs. rewrite moves_stored by done. by apply HS. Qed.
Lemma loaded_restored r r' s l : Inv r → (∀ k, r' !! k = restored s r k) →
  (∀ t, t ∈ l → run_id t ≠ run_id s) → loaded r l → loaded r' l.
Proof.
  intros HI Hr Hne [HN HS]. split; [done|]. intros t Ht. unfold stored.
  rewrite (restored_other r r' s HI Hr) by (by apply Hne). by apply HS.
Qed.

Lemma elem_of_push_unless runs wild s : s ∈ foldl push_unless runs wild → s ∈ runs ∨ s ∈ wild.
Proof.
  revert runs. induction wild as [|w wild IH]; intros runs; simpl; [by left|].
  intros [Hx|Hx]%IH; [|right; by right]. unfold push_unless in Hx.
  destruct (existsb _ _); [by left|].
  apply elem_of_app in Hx as [Hx|Hx%list_elem_of_singleton]; [by left|right; subst; by left].
Qed.
Lemma push_unless_NoDup runs wild :
  NoDup (run_id <$> runs) → NoDup (run_id <$> foldl push_unless runs wild).
Proof.
  revert runs. induction wild as [|w wild IH]; intros runs HN; simpl; [done|]. apply IH.
  unfold push_unless. destruct (existsb _ _) eqn:E; [done|]. rewrite fmap_app.
  apply NoDup_app. split; [done|]. split; [|by apply NoDup_singleton].
  intros x (s & -> & Hs)%list_elem_of_fmap Hx%list_elem_of_singleton.
  assert (existsb (λ r, bool_decide (run_id r = run_id w)) runs = true) as Ht; [|congruence].
  apply existsb_exists. exists s. split; [by apply list_elem_of_In|]. by apply bool_decide_true.
Qed.
Lemma keeps_publish event target now policy : keeps (publish event target now policy).
Proof.
  intros r0 r Hg. unfold publish. apply wp_bind, wp_some_or. intros t Ht. cbv zeta. apply wp_bind.
  eapply (wp_mono _ (λ c r1, r1 = r ∧ loaded r c)).
  { destruct target as [id|].
    - apply wp_bind. eapply wp_find_run; [done| |].
      + intros _. apply wp_ret. split; [done|]. split; [constructor|by intros s ?%elem_of_nil].
      + intros s Hid Hs. apply wp_ret. split; [done|]. split; [by apply NoDup_singleton|].
        intros ? ->%list_elem_of_singleton. by rewrite Hid.
    - apply wp_bind. eapply wp_indexed_runs; [done|]. intros l Hl.
      apply wp_bind. eapply wp_indexed_runs; [done|]. intros w Hw. apply wp_ret. split; [done|].
      assert (shape_of (family (partition "subs" t)) = Some Plain) as Hsh by (by rewrite family_partition).
      destruct (indexed_runs_NoDup _ _ _ _ _ _ (proj1 Hg) Hsh Hl) as [HN _].
      split.
      + rewrite merge_sort_Permutation. by apply push_unless_NoDup.
      + intros s Hs. rewrite merge_sort_Permutation in Hs.
        apply elem_of_push_unless in Hs as [Hs|Hs];
          [by apply (Forall2_stored _ _ _ _ _ _ _ Hl)|by apply (Forall2_stored _ _ _ _ _ _ _ Hw)]. }
  intros c r1 [-> Hc]. eapply wp_mono.
  { apply (wp_fold_each _ _ _ (λ l _ r', good r0 r' ∧ loaded r' l)); [done|].
    intros s l out r1 [Hg1 [Hs [Hne Hl]]%loaded_head].
    unfold publish_one. destruct (bool_decide _) eqn:He; [|by apply wp_ret].
    apply bool_decide_eq_true in He. simpl. case_match; [|by apply wp_ret].
    apply wp_bind. eapply wp_accept; [done|by eapply stored_staged; [apply Hg1|]|done|..].
    - intros r2 Hg2 Hm2. apply wp_ret. split; [done|]. by eapply loaded_moves.
    - intros s' r2 Hg2 Hm2 Hs' Hid _. apply wp_bind. eapply wp_store_run; [done|done|].
      intros r3 Hg3 _ Hr3. apply wp_ret. split; [done|].
      eapply loaded_restored; [apply Hg2|done| |by eapply loaded_moves]. by rewrite Hid. }
  by intros out r' [Hg' _].
Qed.
End with_host.

(** ** Reads *)

Section reads.
Context {R : relation rows} `{!PreOrder R}.
Lemma stable_find_run id : stable R (find_run id).
Proof. unfold find_run, stored_run. solve_stable. Qed.
Lemma stable_run id : stable R (run id).
Proof. unfold run, find_run, stored_run. solve_stable. Qed.
Lemma stable_indexed_runs kind start end_ limit : stable R (indexed_runs kind start end_ limit).
Proof. unfold indexed_runs, run, find_run, stored_run. solve_stable. Qed.
Lemma stable_load_definitions name : stable R (load_definitions name).
Proof. unfold load_definitions, decode_definitions. solve_stable. Qed.
Lemma stable_is_stopped : stable R is_stopped.
Proof. unfold is_stopped. solve_stable. Qed.
Lemma stable_running : stable R running.
Proof. unfold running, is_stopped. solve_stable. Qed.
Lemma stable_queued k : stable R (queued k).
Proof. unfold queued, check_queue. solve_stable. Qed.
Lemma stable_capacity name n : stable R (capacity name n).
Proof. unfold capacity. solve_stable. Qed.
Lemma stable_get_trigger k : stable R (get_trigger k).
Proof. unfold get_trigger. solve_stable. Qed.
End reads.
#[export] Hint Resolve stable_find_run stable_run stable_indexed_runs stable_load_definitions
  stable_is_stopped stable_running stable_queued stable_capacity stable_get_trigger : stable.
Lemma stable_authority {R : relation rows} `{!PreOrder R} f now skew : stable R (authority f now skew).
Proof. unfold authority. solve_stable. Qed.
Lemma stable_checked {R : relation rows} `{!PreOrder R} f now skew : stable R (checked f now skew).
Proof.
  unfold checked, not_held. apply stable_bind; [solve_stable|]. intros _.
  apply stable_bind; [apply stable_authority|]. intros s. solve_stable.
Qed.
Lemma stable_drained_refusal {R : relation rows} `{!PreOrder R} d a : stable R (drained_refusal d a).
Proof. unfold drained_refusal. solve_stable. Qed.
#[export] Hint Resolve stable_drained_refusal : stable.

(** ** Triggers and definitions *)

Lemma stable_store_definitions name defs : stable moves (store_definitions name defs).
Proof. unfold store_definitions. solve_stable. Qed.
Lemma stable_remove_queue k : stable moves (remove_queue k).
Proof. unfold remove_queue. solve_stable. Qed.
#[export] Hint Resolve stable_store_definitions stable_remove_queue : stable.
Lemma trigger_indexes_free key_ t k c : opt_trigger_indexes key_ t !! k = Some c → free k.1 = true.
Proof.
  destruct t as [t|]; cbn [opt_trigger_indexes]; [|by rewrite lookup_empty]. unfold trigger_indexes.
  intros [Hin|Hm]%elem_of_foldl_insert; [|by rewrite lookup_empty in Hm].
  apply elem_of_app in Hin as [Hin|Hin].
  - destruct (tg_at_ms t); [|by apply elem_of_nil in Hin].
    by apply list_elem_of_singleton in Hin as [= -> ->].
  - apply list_elem_of_fmap in Hin as (ty & [= -> ->] & _). by apply free_partition.
Qed.
Lemma stable_store_trigger key_ before after : stable moves (store_trigger key_ before after).
Proof.
  unfold store_trigger. apply stable_bind; [|intros; solve_stable].
  apply stable_apply_changes. intros k c [Hk|Hk]; by eapply trigger_indexes_free.
Qed.
#[export] Hint Resolve stable_store_trigger : stable.
Lemma stable_arm defs wanted : stable moves (arm defs wanted).
Proof. unfold arm. solve_stable. Qed.
#[export] Hint Resolve stable_arm : stable.
Lemma stable_activate name version epoch_ arming a : stable moves (activate name version epoch_ arming a).
Proof. unfold activate. solve_stable. Qed.
Lemma stable_breaker `{Host} run fault success default_ now :
  stable moves (breaker run fault success default_ now).
Proof. unfold breaker. solve_stable. Qed.
Lemma stable_rearm_trigger s now : stable moves (rearm_trigger s now).
Proof. unfold rearm_trigger. solve_stable. Qed.
#[export] Hint Resolve stable_activate stable_breaker stable_rearm_trigger : stable.
Lemma wp_reads {A} (p : prog A) (Q : A → rows → Prop) r :
  stable eq p → (∀ a, Q a r) → wp p Q r.
Proof. intros Hp HQ. eapply wp_mono; [apply Hp|]. by intros a r' <-. Qed.

(** ** Admission and claims *)

Lemma fresh_run_ok a defs now : row_ok (fresh_run a defs now).
Proof. split; cbn; done. Qed.
Lemma wp_admitted r0 a now join (Q : option StoredRun → rows → Prop) r :
  good r0 r → Q None r →
  (∀ defs, r !! ("run", a_id a) = None → staged r (fresh_run a defs now) →
     Q (Some (fresh_run a defs now)) r) →
  wp (admitted a now join) Q r.
Proof.
  intros Hg HN HS. unfold admitted. apply wp_bind. eapply wp_find_run; [done| |].
  - intros Hr. apply wp_bind, wp_reads; [solve_stable|]. intros _.
    apply wp_bind, wp_reads; [solve_stable|]. intros defs.
    destruct (barred defs a); [done|]. apply wp_ret, HS; [done|].
    unfold staged, run_id. cbn. rewrite Hr. split; [apply fresh_run_ok|done].
  - intros s _ _. by destruct (join_check _ _ _).
Qed.
Lemma wp_insert_run r0 a now (Q : bool → rows → Prop) r :
  good r0 r → Q false r →
  (∀ defs r', good r0 r' → stored r' (a_id a) (fresh_run a defs now) → Q true r') →
  wp (insert_run a now) Q r.
Proof.
  intros Hg HF HT. unfold insert_run. apply wp_bind. eapply wp_admitted; [done|by apply wp_ret|].
  intros defs Hn Hs. apply wp_bind. eapply wp_store_run; [done..|]. intros r' Hg' Hst _.
  by eapply wp_ret, HT.
Qed.
(** Storing a row of a run that was not there keeps the rows there are. *)
Lemma extends_fresh r r' s : Inv r → (∀ k, r' !! k = restored s r k) →
  r !! ("run", run_id s) = None → extends r r'.
Proof.
  intros HI Hr Hn id t Ht. unfold stored in *. rewrite (restored_other r r' s HI Hr); [done|].
  intros ->. congruence.
Qed.
Lemma wp_store_fresh r0 s (Q : unit → rows → Prop) r :
  good r0 r → staged r s → r !! ("run", run_id s) = None →
  (∀ r', good r0 r' → stored r' (run_id s) s → extends r r' → Q tt r') → wp (store_run s) Q r.
Proof.
  intros Hg Hs Hn HQ. eapply wp_store_run; [done|done|]. intros r' Hg' Hst Hr. apply HQ; [done|done|].
  by eapply extends_fresh; [apply Hg|..].
Qed.

Section promotion.
Context `{Host}.

Lemma extends_refuse f now : keeps_with extends (refuse f now).
Proof.
  intros r0 r Hg. unfold refuse. apply wp_bind. eapply wp_admitted; [done|by apply wp_ret|].
  intros defs Hn Hs. apply wp_bind. eapply wp_store_fresh; [done| |done|].
  - unfold staged, run_id in *. cbn in *. rewrite Hn in *. destruct Hs as [Hok Hp]. split; [|done].
    split; cbn; try done. intros _. split; [by eexists|done].
  - intros r' Hg' _ He. eapply wp_moves; [solve_stable|done|]. intros _ r2 Hg2 Hm2. split; [done|].
    etrans; [done|by apply frame_moves].
Qed.
Lemma extends_admit_firing k a rearm next now : keeps_with extends (admit_firing k a rearm next now).
Proof.
  intros r0 r Hg. unfold admit_firing, insert_run. apply wp_bind.
  eapply (wp_mono _ (λ b r1, good r0 r1 ∧ (b = false → r1 = r) ∧ (b = true → r !! ("run", a_id a) = None ∧
    extends r r1 ∧ ∃ defs, stored r1 (a_id a) (fresh_run a defs now)))).
  { apply wp_bind. eapply wp_admitted; [done|by apply wp_ret|]. intros defs Hn Hs. apply wp_bind.
    eapply wp_store_fresh; [done|done|done|]. intros r1 Hg1 Hst He. apply wp_ret.
    split; [done|]. split; [done|]. intros _. split; [done|]. split; [done|by exists defs]. }
  intros [] r1 (Hg1 & Hf & Ht).
  - destruct (Ht eq_refl) as (Hn & He & defs & Hst). clear Hf Ht. apply wp_bind, wp_bind.
    eapply wp_run; [done|]. intros s _ Hs.
    assert (s = fresh_run a defs now) as -> by (unfold stored in *; congruence).
    eapply wp_store_run; [done| |].
    { eapply staged_advance; [apply Hg1|eapply stored_staged; [apply Hg1|done]|]. by advance_live. }
    intros r2 Hg2 _ Hr2. eapply wp_moves; [solve_stable|done|]. intros _ r3 Hg3 Hm3. split; [done|].
    etrans; [|by apply frame_moves]. intros id t Ht. unfold stored in *.
    rewrite (restored_other _ _ _ (proj1 Hg1) Hr2); [by apply He|].
    change (id ≠ a_id a). congruence.
  - rewrite (Hf eq_refl) in *. apply wp_bind, wp_ret. eapply wp_moves; [solve_stable|done|].
    intros _ r3 Hg3 Hm3. split; [done|by apply frame_moves].
Qed.
Hint Resolve extends_refuse extends_admit_firing : keeps.
Lemma extends_drain_one name now k : keeps_with extends (drain_one name now k).
Proof. unfold drain_one. solve_keeps. Qed.
Hint Resolve extends_drain_one : keeps.
Lemma extends_drain_queues name now : keeps_with extends (drain_queues name now).
Proof. unfold drain_queues. solve_keeps. Qed.
Hint Resolve extends_drain_queues : keeps.
Lemma extends_drain_marked name now : keeps_with extends (drain_marked name now).
Proof. unfold drain_marked. solve_keeps. Qed.
Lemma extends_drain_pending now limit : keeps_with extends (drain_pending now limit).
Proof. unfold drain_pending. solve_keeps. Qed.

Lemma keeps_insert_run a now : keeps (insert_run a now).
Proof. intros r0 r Hg. by eapply wp_insert_run. Qed.
Lemma keeps_refuse f now : keeps (refuse f now).
Proof. by eapply keeps_weaken, extends_refuse. Qed.
Lemma keeps_admit_firing k a rearm next now : keeps (admit_firing k a rearm next now).
Proof. by eapply keeps_weaken, extends_admit_firing. Qed.
Lemma keeps_drain_queues name now : keeps (drain_queues name now).
Proof. by eapply keeps_weaken, extends_drain_queues. Qed.
Lemma keeps_drain_marked name now : keeps (drain_marked name now).
Proof. by eapply keeps_weaken, extends_drain_marked. Qed.
Lemma keeps_drain_pending now limit : keeps (drain_pending now limit).
Proof. by eapply keeps_weaken, extends_drain_pending. Qed.
End promotion.
#[export] Hint Resolve keeps_insert_run keeps_refuse keeps_admit_firing keeps_drain_queues
  keeps_drain_marked keeps_drain_pending keeps_deliver keeps_notify keeps_publish : keeps.
