(* ===== verification/Terminate.v ===== *)
(** * Termination and firings keep the invariant

    The end of a run: its row, its registrations with a parent, the cascade over
    its descendants; and the firing of a trigger. *)
From S2P Require Import Prelude Json Keys Outcome Journal Listen Types Store Index Admit Mailbox.
From S2P Require Import Triggers Lifecycle Logic Rows Steps Preserve.

Lemma live_ended s : row_ok s → s_awaits s ≠ ∅ ∨ r_fence (s_run s) ≠ None → r_ended_ms (s_run s) = None.
Proof.
  intros Hok Hs. destruct (r_ended_ms (s_run s)) as [at_|] eqn:E; [|done].
  destruct (ok_ended _ Hok) as (_ & Hf & _ & Ha & _); [by rewrite E|].
  by destruct Hs.
Qed.
(** [close] removes awaits only. *)
Lemma close_fields s types : ∃ a w, close s types = s <| s_awaits := a |> <| s_addressed_waits := w |>.
Proof.
  unfold close. revert s. induction types as [|t types IH]; intros s; simpl.
  - exists (s_awaits s), (s_addressed_waits s). by destruct s.
  - destruct (still_listened s t); [apply IH|].
    destruct (IH (s <| s_awaits ::= delete t |> <| s_addressed_waits ::= λ w, w ∖ {[t]} |>)) as (a & w & ->).
    by exists a, w.
Qed.
Lemma advance_close s types : r_ended_ms (s_run s) = None → advance s (close s types).
Proof. intros Hn. destruct (close_fields s types) as (a & w & ->). advance_live. Qed.
Lemma close_run_id s types : run_id (close s types) = run_id s.
Proof. by destruct (close_fields s types) as (a & w & ->). Qed.

Lemma keeps_close_waiting parent id : keeps (close_waiting parent id).
Proof.
  intros r0 r Hg. unfold close_waiting. apply wp_bind. eapply wp_run; [done|]. intros s Hid Hs. cbv zeta.
  case_decide as Hd; [|by apply wp_ret].
  assert (r_ended_ms (s_run s) = None) as Hn.
  { apply live_ended; [eapply stored_ok; [apply Hg|done]|]. left. intros Ha. rewrite Ha in Hd.
    rewrite lookup_empty in Hd. by destruct Hd as [[? ?] _]. }
  eapply wp_store_run; [done| |done].
  eapply staged_advance; [apply Hg|eapply stored_staged; [apply Hg|done]|]. by apply advance_close.
Qed.
#[export] Hint Resolve keeps_close_waiting : keeps.

Section with_host.
Context `{Host}.

Lemma keeps_lifecycle id status now : keeps (lifecycle id status now).
Proof. unfold lifecycle. solve_keeps. Qed.
Hint Resolve keeps_lifecycle : keeps.
(** A child of a run that ended tells its parent nothing. *)
Lemma wp_lifecycle_ended X r0 id status now s l p r :
  going X r0 r → stored r id s → r_child (s_run s) = Some l → stored r (l_parent l) p →
  is_Some (r_ended_ms (s_run p)) → wp (lifecycle id status now) (λ _ r', r' = r) r.
Proof.
  intros Hg Hs Hl Hp He. unfold lifecycle.
  apply wp_bind. eapply wp_run; [done|]. intros s' _ Hs'.
  assert (s' = s) as -> by (unfold stored in *; congruence). rewrite Hl.
  destruct (lifecycle_notice status) as [[kind data]|]; [|by apply wp_ret]. cbv zeta.
  apply wp_bind, wp_reads; [solve_stable|]. intros [|]; [by apply wp_ret|].
  assert (s_awaits p = ∅) as Ha.
  { destruct (ok_ended p (stored_ok r (proj1 Hg) _ _ Hp) He) as (_ & _ & _ & Ha & _). done. }
  apply wp_bind. eapply (wp_mono _ (λ _ r', r' = r)).
  - case_decide; [|by apply wp_ret]. unfold close_waiting. apply wp_bind. eapply wp_run; [done|].
    intros p' _ Hp'. assert (p' = p) as -> by (unfold stored in *; congruence). cbv zeta.
    rewrite decide_False; [by apply wp_ret|]. rewrite Ha, lookup_empty. by intros [[? ?] _].
  - intros [] r1 ->. unfold notify. apply wp_bind. eapply wp_run; [done|].
    intros p' _ Hp'. assert (p' = p) as -> by (unfold stored in *; congruence).
    rewrite decide_True by (by left). by apply wp_ret.
Qed.

Lemma ended_run_ok s status spent now :
  row_ok s → terminal status = true → row_ok (ended_run s status spent now).
Proof.
  intros [Hv Hg Hf Hl Hli He] Ht. split; cbn; auto; try done.
  intros _. split; [|done]. exists status. split; [done|]. split; [done|]. by destruct status.
Qed.
Lemma ended_run_evolves s status spent now :
  r_ended_ms (s_run s) = None → terminal status = true → evolve_run s (ended_run s status spent now).
Proof.
  intros Hn Ht. split; cbn; auto; [lia|rewrite Hn; by intros [? ?]|].
  intros Hok. by apply ended_run_ok.
Qed.

(** The live children of [parent] still to be ended, in a cascade that has ended
    the runs [X] before. *)
Definition children_of (r : rows) (parent : string) (l : list StoredRun) : Prop :=
  loaded r l ∧ has_ended r parent ∧
  ∀ s, s ∈ l → r_ended_ms (s_run s) = None ∧ ∃ k, r_child (s_run s) = Some k ∧ l_parent k = parent.
Definition all_children (r : rows) (parent : string) (l : list StoredRun) : Prop :=
  ∀ id s k, stored r id s → r_ended_ms (s_run s) = None → r_child (s_run s) = Some k →
    l_parent k = parent → s ∈ l.

Lemma children_row s k : r_ended_ms (s_run s) = None → r_child (s_run s) = Some k →
  ((partition "children" (l_parent k), run_id s), to_cell (run_id s)) ∈ index_rows s.
Proof.
  intros Hn Hk. unfold index_rows. rewrite Hn. do 4 (apply elem_of_app; right).
  apply elem_of_app. right. unfold live_rows. do 3 (apply elem_of_app; right).
  apply elem_of_app. left. unfold child_rows. rewrite Hk. left.
Qed.
Lemma wp_children X r0 r parent (Q : list StoredRun → rows → Prop) :
  going X r0 r → (∀ l, loaded r l → (∀ s, s ∈ l → r_ended_ms (s_run s) = None ∧
       ∃ k, r_child (s_run s) = Some k ∧ l_parent k = parent) → all_children r parent l → Q l r) →
  wp (indexed_runs (partition "children" parent) "" None None) Q r.
Proof.
  intros Hg HQ. eapply wp_indexed_runs; [done|]. intros l Hl.
  assert (family (partition "children" parent) = "children") as Hf by by apply family_partition.
  assert (shape_of (family (partition "children" parent)) = Some Plain) as Hsh by by rewrite Hf.
  destruct (indexed_runs_NoDup _ _ _ _ _ _ (proj1 Hg) Hsh Hl) as [HN HS].
  apply HQ.
  - split; [done|]. intros s Hs. by eapply Forall2_stored.
  - intros s Hs. destruct (HS s Hs) as [c Hin]. apply index_rows_family in Hin.
    2: { cbn [fst]. rewrite Hf. by left. }
    cbn [fst] in Hin. rewrite Hf in Hin. unfold family_rows in Hin.
    destruct (r_ended_ms _); [by apply elem_of_nil in Hin|]. split; [done|].
    simpl in Hin. unfold child_rows in Hin. destruct (r_child _) as [k|]; [|by apply elem_of_nil in Hin].
    apply list_elem_of_singleton, (f_equal (λ x, x.1.1)) in Hin. exists k. split; [done|].
    symmetry. by eapply (partition_inj "children").
  - intros id s k Hs Hn Hk <-. pose proof (stored_self r (proj1 Hg) _ _ Hs) as Hs'.
    destruct (rows_indexes _ _ _ (children_row s k Hn Hk)) as [c Hc].
    assert (r !! (partition "children" (l_parent k), run_id s) = Some c) as Hrow.
    { apply (inv_index r (proj1 Hg)); [by eapply indexes_indexed|]. by exists s. }
    apply elem_of_scan_all, list_elem_of_lookup in Hrow as [i Hi].
    destruct (Forall2_lookup_l _ _ _ _ _ Hl Hi) as (t & Ht & Hid & Hst). cbn [snd] in Hid.
    assert (index_id c = Some (run_id s)) as Hc'.
    { apply indexes_rows in Hc. rewrite (index_rows_value _ _ _ Hc); [done|]. cbn [fst]. by rewrite Hsh. }
    assert (run_id t = run_id s) as Hts by congruence. rewrite Hts in Hst.
    unfold stored in *. assert (t = s) as <- by congruence. by eapply list_elem_of_lookup_2.
Qed.

Lemma wp_end_child X r0 r parent s l spent now c (Q : Cascade → rows → Prop) :
  going (parent :: X) r0 r → children_of r parent (s :: l) → all_children r parent (s :: l) →
  (∀ r', going (parent :: run_id s :: X) r0 r' → children_of r' parent l → all_children r' parent l →
     (∀ q, has_ended r q → has_ended r' q) → has_ended r' (run_id s) →
     (∀ id t, stored r' id t → r_ended_ms (s_run t) = None → id ≠ run_id s ∧ stored r id t) →
     Q (mkCascade (run_id s :: parents c) ({[a_name (r_admission (s_run s))]} ∪ names c)
          (tally (ended c) (s_run (ended_run s Cancelled spent now)))) r') →
  wp (end_child spent now c s) Q r.
Proof.
  intros Hg [[Hs [Hne Hl]]%loaded_head [(p & Hp & Hpe) Hch]] Hall HQ.
  destruct (Hch s (list_elem_of_here _ _)) as [Hn (k & Hk & Hkp)].
  assert (parent ≠ run_id s) as Hps.
  { intros ->. unfold stored in *. assert (p = s) as -> by congruence. rewrite Hn in Hpe. by destruct Hpe. }
  unfold end_child. apply wp_bind.
  eapply (wp_end_run (parent :: X) r (ended_run s Cancelled spent now) s);
    [by eapply going_here|done|by apply ended_run_evolves|]. intros r' Hg' Hs' Hr'.
  assert (stored r' parent p) as Hp'.
  { unfold stored. erewrite restored_other; [done|apply Hg|done|done]. }
  apply wp_bind. eapply wp_mono.
  { eapply (wp_lifecycle_ended _ _ _ _ _ _ k p); [exact Hg'|done|done|by rewrite Hkp|done]. }
  intros [] r1 ->. apply wp_ret, HQ.
  - eapply going_trans; [done|]. destruct Hg' as (HI' & He' & HX'). split; [done|]. split; [done|].
    intros id t l' Ht Htn Hl' Hp1. pose proof (HX' _ _ _ Ht Htn Hl' Hp1) as Hin.
    rewrite !elem_of_cons in *. tauto.
  - split; [by eapply loaded_restored; [apply Hg|..]|]. split; [by exists p|].
    intros t Ht. apply Hch. by right.
  - intros id t k' Ht Htn Hk' Hkp'.
    apply (restored_stored r r' _ (proj1 Hg) Hr') in Ht as [[_ ->]|[Hid Ht]]; [done|].
    pose proof (Hall _ _ _ Ht Htn Hk' Hkp') as [->|Hin]%elem_of_cons; [|done].
    exfalso. by apply Hid; rewrite <- (stored_id r (proj1 Hg) _ _ Ht).
  - intros q Hq. eapply ended_mono; [apply Hg'|done].
  - by eexists.
  - intros id t Ht Htn. apply (restored_stored r r' _ (proj1 Hg) Hr') in Ht as [[_ ->]|Ht]; [done|exact Ht].
Qed.

Lemma wp_cascade r0 fuel spent now c r :
  going (parents c) r0 r → (∀ p, p ∈ parents c → has_ended r p) →
  wp (cascade fuel spent now c) (λ _ r', good r0 r') r.
Proof.
  revert c r. induction fuel as [|fuel IH]; intros [[|p ps] ns es] r Hg Hpar; simpl; [by apply wp_ret|done|by apply wp_ret|].
  apply wp_bind. eapply wp_children; [done|]. intros l Hl Hch Hall. apply wp_bind. eapply wp_mono.
  { apply (wp_fold_each _ _ _ (λ l c r', going (p :: parents c) r0 r' ∧ children_of r' p l ∧
      all_children r' p l ∧ ∀ q, q ∈ parents c → has_ended r' q)).
    - split; [done|]. split; [split; [done|split; [apply Hpar; by left|done]]|]. split; [done|].
      intros q Hq. apply Hpar. by right.
    - intros s l' c r1 (Hg1 & Hc1 & Ha1 & Hp1). eapply wp_end_child; [done..|].
      intros r2 Hg2 Hc2 Ha2 Hmono He2 _. split; [done|]. split; [done|]. split; [done|].
      intros q [->|Hq]%elem_of_cons; [done|]. by apply Hmono, Hp1. }
  intros c r1 ((HI1 & He1 & HX1) & _ & Ha1 & Hp1). apply IH; [|done]. split; [done|]. split; [done|].
  intros id t k Ht Hn Hk He. pose proof (HX1 _ _ _ Ht Hn Hk He) as [Hkp|Hin]%elem_of_cons; [|done].
  pose proof (Ha1 _ _ _ Ht Hn Hk Hkp) as Hin. by apply elem_of_nil in Hin.
Qed.

(** An ended root's budget row goes, and no other. *)
Lemma wp_drop_budget X r0 r id s (Q : unit → rows → Prop) :
  going X r0 r → has_ended r id →
  (∀ r', going X r0 r' → (∀ i t, stored r' i t ↔ stored r i t) → Q tt r') →
  wp (if decide (r_root (s_run s) = None) then
        b ← get_cell "budget" id;
        match b with Some _ => delete_row "budget" id | None => mret () end
      else mret ()) Q r.
Proof.
  intros Hg He HQ. case_decide; [|by apply wp_ret, HQ]. apply wp_bind, wp_get_cell.
  destruct (r !! (("budget" : string), id)); [|by apply wp_ret, HQ]. apply wp_delete_row, HQ; [by apply going_drop|].
  intros i t. unfold stored. by rewrite drop_same.
Qed.
(** The run ends with its status, and stays as it ended. *)
Lemma wp_terminate r0 fuel id status now r :
  good r0 r → terminal status = true → (∀ s, stored r id s → r_ended_ms (s_run s) = None) →
  wp (terminate fuel id status now) (λ _ r', good r0 r' ∧ ∃ s s', stored r id s ∧ stored r' id s' ∧
    s_run s' = s_run (ended_run s status 0 now)) r.
Proof.
  intros Hg Ht Hlive. unfold terminate. apply wp_bind. eapply wp_run; [done|]. intros s Hid Hs.
  cbv zeta. apply wp_bind, wp_reads; [solve_stable|]. intros budget.
  set (s' := ended_run s status (default 0 budget) now). apply wp_bind.
  eapply (wp_end_run [] r0 s' s); [done|by rewrite <- Hid in Hs|apply ended_run_evolves; auto|].
  intros r1 Hg1 Hs1 _. change (run_id s') with (run_id s) in *. rewrite Hid in Hg1, Hs1.
  eapply (wp_mono _ (λ _ r', good r1 r')).
  2: { intros _ r' Hg'. split; [by eapply going_trans|].
    destruct (ev_run _ _ (proj1 (proj2 Hg')) _ _ Hs1) as (t & Ht' & Ha).
    exists s, t. split; [done|]. split; [done|]. rewrite (adv_ended _ _ Ha); [done|by eexists]. }
  apply going_here in Hg1. apply wp_bind. apply (wp_drop_budget [id] r1); [exact Hg1|by eexists|]. intros r2 Hg2 Hm2.
  apply wp_bind. eapply wp_moves; [solve_stable|done|]. intros _ r3 Hg3 Hm3.
  apply wp_bind. eapply wp_mono.
  { apply (wp_cascade r1); cbn [parents]; [done|].
    intros p ->%list_elem_of_singleton. exists s'.
    rewrite (moves_stored r2 r3), Hm2 by done. by split. }
  intros c r4 Hg4. cbn beta in Hg4. assert (∀ A (p : prog A), keeps p → wp p (λ _ r', good r1 r') r4) as Hk
    by (intros; auto).
  apply Hk. solve_keeps. unfold add_bucket. solve_keeps.
Qed.
Lemma keeps_cancel_run fuel id now : keeps (cancel_run fuel id now).
Proof.
  intros r0 r Hg. unfold cancel_run. apply wp_bind. eapply wp_find_run; [done|by intros; apply wp_ret|].
  intros s Hid Hs. case_decide as He; [by apply wp_ret|]. apply wp_bind. eapply wp_mono.
  { apply (wp_terminate r0); [done|done|]. intros s' Hs'. unfold stored in *.
    assert (s' = s) as -> by congruence. by apply eq_None_not_Some. }
  intros ? r' [Hg' _]. by apply wp_ret.
Qed.
Hint Resolve keeps_cancel_run : keeps.

(** ** Firings *)

Lemma keeps_overlap_decision fuel f g a now : keeps (overlap_decision fuel f g a now).
Proof. unfold overlap_decision. solve_keeps. Qed.
Hint Resolve keeps_overlap_decision : keeps.
Lemma keeps_decision fuel f now : keeps (decision fuel f now).
Proof. unfold decision, exclusive_decision. solve_keeps. Qed.
Hint Resolve keeps_decision : keeps.
Lemma stable_tombstone event now : stable moves (tombstone event now).
Proof. unfold tombstone. solve_stable. Qed.
Lemma stable_bury event k old now policy : stable moves (bury event k old now policy).
Proof. unfold bury. solve_stable. Qed.
Hint Resolve stable_tombstone stable_bury : stable.
Lemma keeps_fire_checked fuel f current now policy : keeps (fire_checked fuel f current now policy).
Proof. unfold fire_checked. solve_keeps. Qed.
Hint Resolve keeps_fire_checked : keeps.
Lemma stable_first_refusal d l : stable moves (first_refusal d l).
Proof. induction l as [|a l IH]; simpl; solve_stable. Qed.
Hint Resolve stable_first_refusal : stable.
Lemma keeps_fire fuel f now policy : keeps (fire fuel f now policy).
Proof. unfold fire. solve_keeps. Qed.
End with_host.
#[export] Hint Resolve keeps_lifecycle keeps_cancel_run keeps_fire : keeps.
#[export] Hint Resolve stable_tombstone : stable.
