(* ===== verification/Operations.v ===== *)
(** * Every store operation keeps the invariant

    One lemma per operation of [RunStore] and per operator command; [operation]
    names them all and [keeps_operation] collects the lemmas. *)
From S2P Require Import Prelude Json Keys Outcome Journal Listen Types Store Index Admit Mailbox.
From S2P Require Import Triggers Lifecycle Control RunStore Logic Rows Steps Preserve Terminate.

(** ** Updates of the registrations *)

(** The run's own row is as it was. *)
Definition registered (s s' : StoredRun) : Prop :=
  s_run s' = s_run s ∧ s_version s' = s_version s ∧ s_digest s' = s_digest s.
#[export] Instance registered_preorder : PreOrder registered.
Proof.
  split; [done|]. intros s t u (H1 & H2 & H3) (H4 & H5 & H6). unfold registered.
  split_and!; congruence.
Qed.
Lemma registered_advance s s' : r_ended_ms (s_run s) = None → registered s s' → advance s s'.
Proof.
  intros Hn (Hr & Hv & Hd). apply advance_live; rewrite ?Hr; auto.
Qed.
Lemma recounted_registered s s' : recounted s s' → registered s s'.
Proof. by intros (a & p & n & m & e & ->). Qed.
Lemma foldl_registered {A} (f : StoredRun → A → StoredRun) l s :
  (∀ s x, registered s (f s x)) → registered s (foldl f s l).
Proof.
  intros Hf. revert s. induction l as [|x l IH]; intros s; simpl; [reflexivity|]. etrans; [apply Hf|apply IH].
Qed.
Lemma close_registered s types : registered s (close s types).
Proof. by destruct (close_fields s types) as (a & w & ->). Qed.

(** ** Fenced steps *)

Lemma owns_spec s f now skew : owns s f now skew = true →
  r_state (s_run s) = SRunning ∧ r_fence (s_run s) = Some f ∧
  ∃ until, r_lease_until_ms (s_run s) = Some until ∧ sat_add64 now skew < until.
Proof.
  unfold owns. rewrite !andb_true_iff, !bool_decide_eq_true. intros [[H1 H2] H3].
  destruct (r_lease_until_ms _) as [u|]; [|done]. cbn in H3. apply bool_decide_eq_true in H3. eauto 10.
Qed.
Lemma owns_live s f now skew : row_ok s → owns s f now skew = true → r_ended_ms (s_run s) = None.
Proof.
  intros Hok (_ & Hf & _)%owns_spec. apply live_ended; [done|]. right. by rewrite Hf.
Qed.
Lemma wp_authority r0 f now skew (Q : StoredRun → rows → Prop) r :
  good r0 r →
  (∀ s, run_id s = f_run_id f → stored r (run_id s) s → owns s f now skew = true →
     r_ended_ms (s_run s) = None → Q s r) →
  wp (authority f now skew) Q r.
Proof.
  intros Hg HQ. unfold authority. apply wp_bind. eapply wp_run; [done|]. intros s Hid Hs.
  apply wp_bind, wp_ensure. intros Ho. apply wp_ret, HQ; [done|by rewrite Hid|done|].
  eapply owns_live; [|done]. eapply stored_ok; [apply Hg|done].
Qed.
Lemma wp_checked r0 f now skew (Q : StoredRun → rows → Prop) r :
  good r0 r →
  (∀ s, run_id s = f_run_id f → stored r (run_id s) s → owns s f now skew = true →
     r_held (s_run s) = None → r_ended_ms (s_run s) = None → Q s r) →
  wp (checked f now skew) Q r.
Proof.
  intros Hg HQ. unfold checked. apply wp_bind, wp_reads; [solve_stable|]. intros _.
  apply wp_bind. eapply wp_authority; [done|]. intros s Hid Hs Ho Hn. apply wp_bind.
  unfold not_held. case_decide as Hh; [done|]. apply wp_ret, wp_ret, HQ; try done.
  by apply eq_None_not_Some.
Qed.

(** A claim: the next generation with its fence and lease. *)
Definition claimed (s : StoredRun) (now : Z) (owner : string) (generation : Z) : StoredRun :=
  let r := s_run s in
  let wake := match r_state r, r_lease_until_ms r with SRunning, Some until => until | _, _ => r_wake_at_ms r end in
  s <| s_run := r <| r_generation := generation |> <| r_wake_at_ms := wake |>
             <| r_fence := Some (mkFence (run_id s) owner generation) |>
             <| r_lease_until_ms := Some (sat_add64 now LEASE_MS) |>
             <| r_state := SRunning |> |>.
Lemma wp_claim_run s now owner (Q : StoredRun * Fence → rows → Prop) r :
  (∀ g, g = r_generation (s_run s) + 1 → g ≤ u64_max →
     Q (claimed s now owner g, mkFence (run_id s) owner g) r) →
  wp (claim_run s now owner) Q r.
Proof.
  intros HQ. unfold claim_run. apply wp_bind, wp_some_or. intros g Hg.
  unfold checked_addu64 in Hg. case_decide; [|done]. injection Hg as <-. apply wp_ret.
  by apply HQ.
Qed.
Lemma claimed_advance s now owner g :
  r_ended_ms (s_run s) = None → g = r_generation (s_run s) + 1 → g ≤ u64_max →
  advance s (claimed s now owner g).
Proof.
  intros Hn -> Hg. split; [|done]. split; cbn; auto; [lia|lia|rewrite Hn; by intros [? ?]|].
  intros [Hv Hu Hf Hl Hli He]. split; cbn; auto; try done.
  - unfold is_u64 in *. lia.
  - intros f [= <-]. cbn. eauto.
  - intros _. destruct (Hli Hn). done.
  - rewrite Hn. by intros [? ?].
Qed.
(** A fresh row's claim is well formed too: it is staged as the first row. *)
Lemma claimed_staged r s now owner g :
  Inv r → staged r s → r_ended_ms (s_run s) = None → g = r_generation (s_run s) + 1 → g ≤ u64_max →
  staged r (claimed s now owner g).
Proof. intros HI Hs Hn Hg Hu. eapply staged_advance; [done|done|]. by apply claimed_advance. Qed.

(** Storing an update of a loaded row keeps the invariant. *)
Lemma wp_update r0 s s' r :
  good r0 r → stored r (run_id s) s → advance s s' → wp (store_run s') (λ _ r', good r0 r') r.
Proof.
  intros Hg Hs Ha. eapply wp_store_run; [done| |done].
  eapply staged_advance; [apply Hg| |done]. eapply stored_staged; [apply Hg|done].
Qed.

Section with_host.
Context `{Host}.
Variable policy : Policy.

(** ** Admission and leases *)

Lemma keeps_admit a now : keeps (admit_tx a now).
Proof. unfold admit_tx. solve_keeps. Qed.
Lemma keeps_start owner a now : keeps (start_tx owner a now).
Proof.
  unfold start_tx. apply keeps_bind; [apply keeps_drain_marked|]. intros drained.
  apply keeps_bind; [apply keeps_moves; solve_stable|]. intros [e|]; [apply keeps_moves; solve_stable|].
  intros r0 r Hg. apply wp_bind. eapply wp_admitted; [done|by apply wp_ret|].
  intros defs Hn Hs. apply wp_bind, wp_claim_run. intros g Hgen Hu. apply wp_bind.
  eapply wp_store_run; [done| |by intros; apply wp_ret]. by apply claimed_staged; [apply Hg|..].
Qed.
Lemma keeps_claim_as owner id now worker : keeps (claim_as_tx owner id now worker).
Proof.
  intros r0 r Hg. unfold claim_as_tx. apply wp_bind, wp_reads; [solve_stable|].
  intros [|]; [by apply wp_ret|]. apply wp_bind. eapply wp_find_run; [done|by intros; apply wp_ret|].
  intros s Hid Hs. destruct (negb _ || _) eqn:E; [by apply wp_ret|].
  apply orb_false_iff in E as [Hc%negb_false_iff _].
  apply wp_bind, wp_claim_run. intros g Hgen Hu. apply wp_bind. eapply wp_mono.
  { eapply wp_update; [done|by eapply stored_self; [apply Hg|]|]. apply claimed_advance; [|done..].
    destruct (r_ended_ms (s_run s)) as [at_|] eqn:Ee; [|done]. exfalso.
    destruct (ok_ended s (stored_ok r (proj1 Hg) _ _ Hs)) as ((o & _ & _ & Hst) & _); [by rewrite Ee|].
    unfold claimable in Hc. rewrite Hst in Hc. case_decide; [done|]. by destruct o. }
  intros ? r' Hg'. by apply wp_ret.
Qed.
Lemma keeps_check_lease f now : keeps (check_lease_tx policy f now).
Proof.
  intros r0 r Hg. apply wp_bind. eapply wp_checked; [done|]. intros. by apply wp_ret.
Qed.
Lemma keeps_renew f now : keeps (renew_tx policy f now).
Proof.
  intros r0 r Hg. apply wp_bind, wp_reads; [solve_stable|]. intros _. apply wp_bind.
  eapply wp_authority; [done|]. intros s Hid Hs Ho Hn. apply wp_bind. eapply wp_mono.
  { eapply wp_update; [done|done|].
    destruct (owns_spec _ _ _ _ Ho) as (Hst & Hf & u & Hu & _).
    advance_live. left. split; [done|]. split; [done|]. rewrite Hu. split; intros _; by eexists. }
  intros ? r' Hg'. by apply wp_ret.
Qed.
Lemma keeps_release f now : keeps (release_tx policy f now).
Proof.
  intros r0 r Hg. apply wp_bind. eapply wp_authority; [done|]. intros s Hid Hs Ho Hn.
  eapply wp_update; [done|done|]. advance_live.
Qed.

(** ** Records *)

Lemma keeps_load_records f now : keeps (load_records_tx policy f now).
Proof.
  intros r0 r Hg. apply wp_bind. eapply wp_checked; [done|]. intros.
  eapply wp_moves; [solve_stable|done|done].
Qed.
Lemma add_answer_fields s old x :
  ∃ a, add_answer s old x = s <| s_run ::= λ r, r <| r_annotations := a |> |>.
Proof.
  assert (∃ a, s = s <| s_run ::= λ r, r <| r_annotations := a |> |>) as Hs.
  { exists (r_annotations (s_run s)). by destruct s as [v [] ]. }
  unfold add_answer. destruct x; try done. destruct (_ && _); [|done]. by eexists.
Qed.
Lemma answered_advance s old x e : r_ended_ms (s_run s) = None →
  advance s (add_answer (s <| s_evidence := e |>) old x).
Proof. intros Hn. destruct (add_answer_fields (s <| s_evidence := e |>) old x) as [a ->]. advance_live. Qed.
(** Writing a record that is new or that advances the saved one. *)
Lemma wp_put_record r0 id k (x : JRecord) (Q : unit → rows → Prop) r :
  good r0 r → (∀ a, r !! (records_of id, k) = Some (CRecord a) → transition_allowed a x = true) →
  (∀ r', good r0 r' → moves r r' → Q tt r') → wp (put (records_of id) k x) Q r.
Proof.
  intros Hg Hx HQ. apply wp_put. pose proof (moves_record r id k x Hx) as Hm.
  apply HQ; [by eapply going_moves|done].
Qed.
Lemma moves_stored_staged r r' id s : Inv r → moves r r' → stored r id s → staged r' s.
Proof. intros HI Hm Hs. eapply moves_staged; [done|]. by eapply stored_staged. Qed.
Lemma keeps_save_record f k x now : keeps (save_record_tx policy f k x now).
Proof.
  intros r0 r Hg. unfold save_record_tx. apply wp_bind, wp_reads; [solve_stable|]. intros _.
  apply wp_bind. eapply wp_authority; [done|]. intros s Hid Hs Ho Hn. cbv zeta.
  apply wp_bind, wp_get_cell. apply wp_bind, wp_reads; [unfold not_held; solve_stable|]. intros _.
  apply wp_bind, wp_reads; [solve_stable|]. intros _. apply wp_bind.
  eapply (wp_mono _ (λ old r1, r1 = r ∧ ∀ a, r !! (records_of (f_run_id f), k) = Some (CRecord a) →
    transition_allowed a x = true)).
  { destruct (r !! (records_of (f_run_id f), k)) as [c|]; [|by apply wp_ret].
    apply wp_bind, wp_decode. intros old Hold. apply wp_bind. unfold check_transition.
    destruct (transition_allowed old x) eqn:E; [|done]. apply wp_ret, wp_ret. split; [done|].
    intros a [= ->]. cbn in Hold. by injection Hold as <-. }
  intros old r1 [-> Hold]. apply wp_bind.
  eapply (wp_mono _ (λ _ r1, good r0 r1 ∧ moves r r1)).
  { case_decide; [by apply wp_ret|]. by eapply wp_put_record. }
  intros _ r1 [Hg1 Hm1]. case_decide; [|by apply wp_ret].
  eapply wp_store_run; [done| |done].
  apply (staged_advance r1 (proj1 Hg1) s); [by eapply moves_stored_staged; [apply Hg|..]|].
  by apply answered_advance.
Qed.

(** A record no earlier row has may be written over whatever was put there since. *)
Lemma moves_record_fresh r r1 id k (x : JRecord) :
  moves r r1 → r !! (records_of id, k) = None → moves r (<[(records_of id, k) := CRecord x]> r1).
Proof.
  intros Hm Hn. split; [| |etrans; [apply (mv_budget _ _ Hm)|by apply spent_kept_insert]].
  - intros k' Hk. rewrite <- (mv_same _ _ Hm k' Hk), lookup_insert_ne; [done|]. intros <-.
    cbn [fst] in Hk. destruct Hk as [Hk|Hk]; [by destruct id|].
    unfold indexed, records_of in Hk. by rewrite family_partition in Hk.
  - intros k' a Hk Ha He. destruct (mv_record _ _ Hm k' a Hk Ha He) as (b & Hb & Hab).
    exists b. rewrite lookup_insert_ne; [done|congruence].
Qed.
Lemma keeps_spend f k limit now : keeps (spend_tx policy f k limit now).
Proof.
  intros r0 r Hg. unfold spend_tx. apply wp_bind. eapply wp_checked; [done|].
  intros s Hid Hs Ho Hh Hn. cbv zeta. apply wp_bind, wp_get.
  2: { intros c x _ _. by destruct x. }
  intros Hnone. apply wp_bind. eapply (wp_mono _ (λ loaded r1, r1 = r ∧ default 0 loaded = budget_at r (default (run_id s) (r_root (s_run s))))).
  { unfold budget_at. rewrite <- Hid. apply wp_get; [by intros ->|]. intros c x -> Hx. by rewrite Hx. }
  intros loaded r1 [-> Hl]. set (granted := bool_decide _).
  apply wp_bind. eapply (wp_mono _ (λ _ r1, moves r r1)).
  { destruct granted; [|by apply wp_ret]. apply wp_put. rewrite <- Hid. apply moves_budget. rewrite <- Hl. cbn. lia. }
  intros _ r1 Hm1.
  apply wp_bind. eapply (wp_mono _ (λ _ r2, moves r r2)).
  { destruct granted; [by apply wp_ret|]. apply wp_bind, wp_get.
    - intros Hx. apply wp_bind. apply wp_put, wp_ret. etrans; [done|].
      apply moves_record. intros a Ha. congruence.
    - intros c x _ _. by destruct x. }
  intros first r2 Hm2. apply wp_bind, wp_put.
  pose proof (moves_record_fresh r r2 (f_run_id f) k (RBudget granted (default 0 loaded + z_of_bool granted) first) Hm2 Hnone) as Hm3.
  pose proof (going_moves _ _ _ _ Hg Hm3) as Hg3. apply wp_bind.
  destruct (s_evidence s); [by apply wp_ret, wp_ret|]. eapply wp_store_run; [done| |].
  - apply (staged_advance _ (proj1 Hg3) s); [by eapply moves_stored_staged; [apply Hg|..]|].
    advance_live.
  - intros r4 Hg4 _ _. by apply wp_ret.
Qed.

(** ** Waits and events *)

Lemma keeps_describe_wait f k w now : keeps (describe_wait_tx policy f k w now).
Proof.
  intros r0 r Hg. apply wp_bind. eapply wp_checked; [done|]. intros s Hid Hs Ho Hh Hn. cbv zeta.
  case_decide; [by apply wp_ret|]. eapply wp_update; [done|done|]. advance_live.
Qed.
Lemma keeps_register_wait f types now : keeps (register_wait_tx policy f types now).
Proof.
  intros r0 r Hg. apply wp_bind. eapply wp_checked; [done|]. intros s Hid Hs Ho Hh Hn.
  eapply wp_update; [done|done|]. apply registered_advance; [done|].
  apply foldl_registered. by intros.
Qed.
Lemma keeps_unregister_wait f k types now : keeps (unregister_wait_tx policy f k types now).
Proof.
  intros r0 r Hg. apply wp_bind. eapply wp_checked; [done|]. intros s Hid Hs Ho Hh Hn.
  eapply wp_update; [done|done|]. apply registered_advance; [done|].
  etrans; [|apply close_registered]. done.
Qed.
Lemma stable_oldest {R : relation rows} `{!PreOrder R} kinds best : stable R (oldest kinds best).
Proof. revert best. induction kinds as [|kind kinds IH]; intros best; cbn [oldest]; solve_stable; apply IH. Qed.
Hint Resolve stable_oldest : stable.
Lemma taken_registered s k types : registered s (taken s k types).
Proof. unfold taken. etrans; [|apply close_registered]. done. Qed.
Lemma keeps_take_event f k types now : keeps (take_event_tx policy f k types now).
Proof.
  intros r0 r Hg. unfold take_event_tx. apply wp_bind. eapply wp_checked; [done|].
  intros s Hid Hs Ho Hh Hn. cbv zeta. apply wp_bind, wp_get.
  2: { intros c x _ _. by destruct x. }
  intros Hnone. apply wp_bind. eapply (wp_expire r); [by eapply going_here|by eapply stored_staged; [apply Hg|]|].
  intros s1 n r1 Hg1 Hm1 Hs1 Hc1. cbn [fst snd]. apply wp_bind.
  eapply (wp_moves _ r); [solve_stable|done|]. intros candidate r2 Hg2 Hm2.
  assert (r_ended_ms (s_run s1) = None) as Hn1 by (by rewrite (recounted_run _ _ Hc1)).
  pose proof (moves_staged _ _ _ Hm2 Hs1) as Hs2. pose proof (transitivity Hm1 Hm2) as Hm02.
  destruct candidate as [m|].
  - apply wp_bind. eapply (wp_moves _ r); [solve_stable|done|]. intros e r3 Hg3 Hm3.
    apply wp_bind. eapply (wp_moves _ r); [apply stable_envelope|done|]. intros ev r4 Hg4 Hm4.
    pose proof (moves_staged _ _ _ (transitivity Hm3 Hm4) Hs2) as Hs4.
    pose proof (transitivity Hm02 (transitivity Hm3 Hm4)) as Hm04. cbv zeta.
    match goal with |- wp (consume ?x _ _ _ ≫= _) _ _ => set (s4 := x) end.
    assert (registered s1 s4) as Hr4 by (unfold s4; by destruct (strip_prefix _ _)).
    assert (staged r4 s4) as Hs4' by (eapply staged_advance; [apply Hg4|done|by apply registered_advance]).
    apply wp_bind. eapply (wp_threads r); [apply consume_threads|done|done|].
    intros s5 r5 Hg5 Hm5 Hs5 Hc5. apply wp_bind.
    eapply (wp_threads r s5); [|done|done|].
    { case_decide; [apply refresh_threads|by apply threads_ret]. }
    intros s6 r6 Hg6 Hm6 Hs6 Hc6. apply wp_bind, wp_put.
    pose proof (moves_record_fresh r r6 (f_run_id f) k (REvent ev)
      (transitivity Hm04 (transitivity Hm5 Hm6)) Hnone) as Hm7.
    pose proof (going_moves _ _ _ _ Hg Hm7) as Hg7. apply wp_bind. eapply wp_store_run; [done| |].
    + apply (staged_advance _ (proj1 Hg7) s); [by eapply moves_stored_staged; [apply Hg|..]|].
      apply registered_advance; [done|]. etrans; [by apply recounted_registered|].
      etrans; [done|]. etrans; [by apply recounted_registered|].
      etrans; [by apply recounted_registered|]. apply taken_registered.
    + intros r8 Hg8 _ _. by apply wp_ret.
  - apply wp_bind. eapply (wp_store_run _ r0); [by eapply going_trans| |].
    + eapply staged_advance; [apply Hg2|done|]. by apply registered_advance.
    + intros r3 Hg3 _ _. by apply wp_ret.
Qed.
Lemma keeps_subscribe f k types now : keeps (subscribe_tx policy f k types now).
Proof.
  intros r0 r Hg. apply wp_bind. eapply wp_checked; [done|]. intros s Hid Hs Ho Hh Hn.
  eapply wp_update; [done|done|]. by apply registered_advance.
Qed.
Lemma keeps_unsubscribe f k now : keeps (unsubscribe_tx policy f k now).
Proof.
  intros r0 r Hg. apply wp_bind. eapply wp_checked; [done|]. intros s Hid Hs Ho Hh Hn.
  eapply wp_update; [done|done|]. by apply registered_advance.
Qed.

(** ** The end of a drive, children *)

Variable fuel : nat.

Lemma stable_awaited_wanted {R : relation rows} `{!PreOrder R} s fresh until_ l :
  stable R (awaited_wanted s fresh until_ l).
Proof.
  induction l as [|[t p] l IH]; cbn [awaited_wanted]; unfold live_cloud; solve_stable; apply IH.
Qed.
Lemma stable_subscribed_wanted {R : relation rows} `{!PreOrder R} s fresh until_ l :
  stable R (subscribed_wanted s fresh until_ l).
Proof.
  induction l as [|t l IH]; cbn [subscribed_wanted]; unfold live_cloud; solve_stable; apply IH.
Qed.
Hint Resolve stable_awaited_wanted stable_subscribed_wanted : stable.
(** The row a drive's end leaves before its fence is dropped. *)
Definition driven (s : StoredRun) (st : RunState) (wake n : Z) : StoredRun :=
  s <| s_run ::= λ r, r <| r_state := st |> <| r_wake_at_ms := wake |> <| r_interruptions := n |> |>.
Lemma wp_finish_row s outcome now (Q : StoredRun * Status → rows → Prop) r :
  live_state (r_state (s_run s)) = true →
  (∀ st wake n status, live_state st = true → Q (driven s st wake n, status) r) →
  wp (finish_row s outcome now) Q r.
Proof.
  intros Hl HQ.
  assert (∀ n status, Q (s <| s_run ::= λ r, r <| r_interruptions := n |> |>, status) r) as HQ'.
  { intros n status. assert (s <| s_run ::= λ r, r <| r_interruptions := n |> |> =
      driven s (r_state (s_run s)) (r_wake_at_ms (s_run s)) n) as -> by done. by apply HQ. }
  unfold finish_row. destruct outcome as [o|e| |wake|e]; [by apply wp_ret, HQ'..| |].
  - cbv zeta. apply wp_bind, wp_reads; [unfold pending_wanted; solve_stable|].
    intros hit. apply wp_ret.
    destruct hit; [by apply (HQ SWaiting now 0)|by apply (HQ SWaiting wake 0)].
  - cbv zeta. case_decide; apply wp_ret; [by apply HQ'|].
    by apply (HQ SReady (sat_add64 now (backoff (sat_addu32 (r_interruptions (s_run s)) 1)))
      (sat_addu32 (r_interruptions (s_run s)) 1)).
Qed.
Lemma keeps_finish f outcome now threshold : keeps (finish_tx policy fuel f outcome now threshold).
Proof.
  intros r0 r Hg. unfold finish_tx. apply wp_bind. eapply wp_checked; [done|].
  intros s Hid Hs Ho Hh Hn. pose proof (owns_spec _ _ _ _ Ho) as (Hst & _).
  apply wp_bind, wp_finish_row; [by rewrite Hst|]. intros st wake n status Hlive. cbv zeta.
  apply wp_bind. eapply wp_store_run; [done| |].
  { apply (staged_advance _ (proj1 Hg) s); [by eapply stored_staged; [apply Hg|]|].
    apply advance_live; cbn; auto. }
  intros r1 Hg1 Hs1 _. apply wp_bind. eapply (wp_mono _ (λ _ r2, good r0 r2)).
  - destruct (terminal status) eqn:Et; [|by apply keeps_lifecycle].
    apply wp_bind. eapply (wp_moves _ r0); [solve_stable|done|]. intros _ r2 Hg2 Hm2.
    eapply wp_mono; [apply (wp_terminate r0); [done|done|]|by intros _ r3 [? _]].
    intros t Ht%(moves_stored r1 r2); [|done].
    change (run_id _) with (run_id s) in Hs1. rewrite Hid in Hs1. unfold stored in *.
    rewrite Hs1 in Ht. by injection Ht as <-.
  - intros _ r2 Hg2. by apply wp_ret.
Qed.

Lemma expect_child_registered p child now : registered p (expect_child p child now).
Proof. done. Qed.
(** The fresh row of a child, under its stored parent. *)
Lemma child_staged r s l root p :
  staged r s → r !! ("run", run_id s) = None → stored r (l_parent l) p →
  r_ended_ms (s_run p) = None →
  staged r (s <| s_run ::= λ r, r <| r_child := Some l |> <| r_root := root |> |>).
Proof.
  intros Hs Hn Hp Hpn. unfold staged in *. change (run_id (s <| s_run ::= _ |>)) with (run_id s).
  rewrite Hn in *. destruct Hs as [[Hv Hu Hf Hl Hli He] _].
  split; [by split|]. intros l' [= <-]. by exists p.
Qed.
(** What a child tells its parent as it is attached again. *)
Lemma keeps_announce (c : StoredRun) (id : string) (fence : option Fence) now :
  keeps (_ ← match r_outcome (s_run c) with
             | Some outcome => lifecycle id outcome now
             | None => if decide (r_state (s_run c) = SWaiting) then lifecycle id (Waiting 0) now
                       else mret ()
             end; mret (Ok (E := error) fence)).
Proof. solve_keeps. Qed.
Lemma keeps_start_child owner parent a link now :
  keeps (start_child_tx policy owner parent a link now).
Proof.
  intros r0 r Hg. unfold start_child_tx. apply wp_bind. eapply wp_checked; [done|].
  intros p Hid Hp Ho Hh Hn. apply wp_bind, wp_ensure. intros Hlink.
  rewrite andb_true_iff, !bool_decide_eq_true in Hlink. destruct Hlink as [Hlp Hne].
  apply wp_bind. eapply wp_mono; [by apply extends_drain_marked|]. intros drained r1 [Hg1 He1].
  apply He1 in Hp. apply wp_bind, wp_reads; [solve_stable|]. intros [e|]; [by apply wp_ret|].
  apply wp_bind. eapply wp_store_run; [done| |].
  { apply (staged_advance _ (proj1 Hg1) p); [by eapply stored_staged; [apply Hg1|]|].
    by apply registered_advance. }
  intros r2 Hg2 Hp2 _. change (run_id (expect_child p _ _)) with (run_id p) in Hp2.
  rewrite Hid, <- Hlp in Hp2.
  apply wp_bind. eapply wp_admitted; [done| |].
  - apply wp_bind. eapply wp_run; [done|]. intros c Hcid Hc. cbv zeta.
    apply wp_bind, wp_ensure. intros _. apply wp_bind, wp_ret. apply wp_bind.
    eapply wp_store_run; [done|by eapply stored_staged; [apply Hg2|]|]. intros r3 Hg3 _ _. by apply keeps_announce.
  - intros defs Hn2 Hs2. apply wp_bind, wp_ret. cbv zeta. rewrite bool_decide_true by by eexists.
    apply wp_bind, wp_ensure. intros _. apply wp_bind, wp_bind, wp_claim_run. intros g Hgen Hu.
    apply wp_ret. cbn [fst snd]. apply wp_bind. eapply wp_store_run; [done| |].
    + apply claimed_staged; [apply Hg2| |done..]. by eapply (child_staged r2 _ link _ _ Hs2 Hn2 Hp2).
    + intros r3 Hg3 _ _. by apply keeps_announce.
Qed.
Lemma keeps_child_outcome parent k child : keeps (child_outcome_tx parent k child).
Proof. unfold child_outcome_tx. solve_keeps. Qed.
Lemma keeps_fire_tx f now : keeps (fire_tx policy fuel f now).
Proof. apply keeps_fire. Qed.
Lemma keeps_cancel id now : keeps (cancel_tx fuel id now).
Proof. apply keeps_cancel_run. Qed.

(** ** Due runs and retention *)

Lemma keeps_due_as now limit worker : keeps (due_as_tx now limit worker).
Proof. unfold due_as_tx, due_ids. solve_keeps. Qed.

(** What [forget] does to other runs' rows. *)
Record forgets (id : string) (r r' : rows) : Prop := {
  fg_same : ∀ k, k.1 = "run" ∨ indexed k.1 = true → r' !! k = r !! k;
  fg_record : ∀ k a, is_record k.1 = true → k.1 ≠ records_of id → r !! k = Some (CRecord a) →
    not_expiry k.2 → record_kept r' k a;
  fg_budget : spent_kept r r'
}.
#[local] Instance forgets_preorder id : PreOrder (forgets id).
Proof.
  split.
  - intros r. split; [done| |reflexivity]. intros k a _ _ Ha _. exists a. by rewrite transition_refl.
  - intros r1 r2 r3 [S1 R1 B1] [S2 R2 B2]. split; [intros k Hk; by rewrite S2, S1| |by etrans].
    intros k a Hk Hn Ha He. destruct (R1 k a Hk Hn Ha He) as (b & Hb & Hab).
    eapply record_kept_trans; [done|]. by apply R2.
Qed.
Lemma moves_forgets id r r' : moves r r' → forgets id r r'.
Proof. intros [S R B]. split; auto. Qed.
Lemma stable_weaken {A} (R R' : relation rows) (p : prog A) :
  (∀ r r', R r r' → R' r r') → stable R p → stable R' p.
Proof. intros HR Hp r. eapply wp_mono; [apply Hp|]. auto. Qed.
Lemma stable_forget_record id k : stable (forgets id) (delete_row (records_of id) k).
Proof.
  intros r. apply wp_delete_row. split; [| |by apply spent_kept_delete].
  - intros k' Hk. rewrite lookup_delete_ne; [done|]. intros <-. cbn [fst] in Hk.
    destruct Hk as [Hk|Hk]; [by destruct id|]. unfold indexed, records_of in Hk.
    by rewrite family_partition in Hk.
  - intros k' a _ Hn Ha _. exists a. rewrite lookup_delete_ne; [by rewrite transition_refl|].
    intros <-. by apply Hn.
Qed.
Lemma stable_forget_event id x : stable moves (forget_event id x).
Proof. unfold forget_event. solve_stable. Qed.
Lemma forget_spec s r : wp (forget s) (λ x r', forgets (run_id s) r r' ∧ recounted s x.1) r.
Proof.
  unfold forget. cbv zeta. apply wp_bind, wp_scan, wp_bind.
  eapply (wp_mono _ (λ _ r1, forgets (run_id s) r r1)).
  { apply (stable_for_each (R := forgets (run_id s))). intros x. apply stable_forget_record. }
  intros _ r1 H1. apply wp_bind, wp_scan, wp_bind. eapply wp_mono.
  { apply (stable_for_each (R := moves)). intros x. apply stable_forget_event. }
  intros ? r2 H2. apply wp_bind, wp_scan, wp_bind. eapply wp_mono.
  { apply (stable_for_each (R := moves)). intros x. solve_stable. }
  intros ? r3 H3. apply wp_ret. split; [|recount].
  etrans; [exact H1|]. apply moves_forgets. exact (transitivity H2 H3).
Qed.
(** Forgetting an ended run's evidence keeps the invariant. *)
Lemma forgets_good r0 r r' s : good r0 r → stored r (run_id s) s → is_Some (r_ended_ms (s_run s)) →
  forgets (run_id s) r r' → good r0 r' ∧ ∀ id t, stored r' id t ↔ stored r id t.
Proof.
  intros ([HR HI HF] & He & HX) Hs Hn [S R B].
  assert (∀ id t, stored r' id t ↔ stored r id t) as Hst.
  { intros id t. unfold stored. by rewrite S by (by left). }
  split; [|done]. split; [split|].
  - intros id c Hc. rewrite S in Hc by (by left). eauto.
  - intros k c Hk. rewrite S, HI by auto. by setoid_rewrite Hst.
  - destruct HF as [rank HF]. exists rank. intros id t l Ht Hl. rewrite Hst in Ht.
    destruct (HF _ _ _ Ht Hl) as [[p Hp] Hlt]. split; [exists p; by rewrite Hst|done].
  - split; [etrans; [done|]; split|].
    + intros id t Ht. exists t. by rewrite Hst.
    + intros id k a Ha Hk. destruct (decide (id = run_id s)) as [->|Hid].
      * left. exists s. by rewrite Hst.
      * right. apply R; [unfold is_record, records_of; cbn [fst]; by rewrite family_partition| |done..].
        cbn [fst]. intros Hx. apply Hid. by eapply (partition_inj "record").
    + intros root. right. apply B.
    + intros id t l Ht Htn Hl (p & Hp & Hpe). rewrite Hst in Ht, Hp. apply (HX id t l); [done..|]. by exists p.
Qed.
(** The loops of [sweep] over runs loaded by an index. *)
Lemma keeps_run_loop kind end_ (g : StoredRun → string) (f : Swept → StoredRun → prog Swept) sw0 :
  is_Some (shape_of (family kind)) → shape_of (family kind) ≠ Some TimedWait →
  (∀ s k c, ((kind, k), c) ∈ index_rows s → k = g s) →
  (∀ r0 r l sw s, good r0 r → loaded r (s :: l) →
     wp (f sw s) (λ _ r', good r0 r' ∧ loaded r' l) r) →
  keeps (l ← indexed_runs kind "" end_ None; fold_each l sw0 f).
Proof.
  intros Hsh Hsw Hkey Hf r0 r Hg. apply wp_bind. eapply wp_indexed_runs; [done|]. intros l Hl.
  destruct (indexed_runs_keyed _ _ _ _ _ _ g (proj1 Hg) Hsh Hsw Hkey Hl) as [HN _].
  eapply wp_mono.
  { apply (wp_fold_each _ _ _ (λ l _ r', good r0 r' ∧ loaded r' l)).
    - split; [done|]. split; [done|]. intros s Hs. by eapply Forall2_stored.
    - intros s l' sw r1 [Hg1 Hl1]. by apply Hf. }
  by intros ? r' [Hg' _].
Qed.
Lemma keeps_bind_assoc {A B C} (p : prog A) (f : A → prog B) (g : B → prog C) :
  keeps (p ≫= f) → (∀ b, keeps (g b)) → keeps (p ≫= λ a, f a ≫= g).
Proof.
  intros Hp Hg r0 r Hr. pose proof (keeps_bind _ _ Hp Hg r0 r Hr) as Hk. unfold wp in *.
  rewrite !exec_bind in *. destruct (exec p r) as [[a r1]|e]; [|done]. by rewrite exec_bind.
Qed.
Lemma sweep_finished_keeps horizon r0 r l sw s : good r0 r → loaded r (s :: l) →
  wp (sweep_finished horizon sw s) (λ _ r', good r0 r' ∧ loaded r' l) r.
Proof.
  intros Hg [Hs [Hne Hl]]%loaded_head. unfold sweep_finished. destruct (is_some_and _ _) eqn:E; [|by apply wp_ret].
  assert (is_Some (r_ended_ms (s_run s))) as He by (destruct (r_ended_ms (s_run s)); [by eexists|done]).
  apply wp_bind. eapply wp_mono; [apply forget_spec|]. intros [s' n] r1 [Hf Hc]. cbn [fst snd] in *.
  destruct (forgets_good _ _ _ _ Hg Hs He Hf) as [Hg1 Hst]. apply wp_bind.
  eapply wp_store_run; [done| |].
  { apply (staged_advance _ (proj1 Hg1) s); [|by apply recounted_advance].
    eapply stored_staged; [apply Hg1|]. by apply Hst. }
  intros r2 Hg2 _ Hr2. apply wp_ret. split; [done|].
  eapply loaded_restored; [apply Hg1|done| |].
  - intros t Ht. cbn [fst]. rewrite (recounted_run_id _ _ Hc). by apply Hne.
  - destruct Hl as [HN HL]. split; [done|]. intros t Ht. by apply Hst, HL.
Qed.
Lemma sweep_mailbox_keeps now r0 r l sw s : good r0 r → loaded r (s :: l) →
  wp (sweep_mailbox now sw s) (λ _ r', good r0 r' ∧ loaded r' l) r.
Proof.
  intros Hg [Hs [Hne Hl]]%loaded_head. unfold sweep_mailbox. apply wp_bind.
  eapply wp_expire; [done|by eapply stored_staged; [apply Hg|]|]. intros s' n r1 Hg1 Hm1 Hs1 Hc.
  apply wp_bind. eapply wp_store_run; [done|done|]. intros r2 Hg2 _ Hr2. apply wp_ret. split; [done|].
  eapply loaded_restored; [apply Hg1|done| |by eapply loaded_moves].
  intros t Ht. cbn [fst]. rewrite (recounted_run_id _ _ Hc). by apply Hne.
Qed.
Lemma keeps_sweep now kept : keeps (sweep_tx now kept).
Proof.
  assert (∀ kind s k c, ((kind, k), c) ∈ index_rows s → family kind ∈ ["mailbox"; "finished"] →
    k = if str_eqb (family kind) "finished" then timed (default 0 (r_ended_ms (s_run s))) (run_id s)
        else timed (default 0 (s_mailbox s)) (run_id s)) as Hkey.
  { intros kind s k c Hin Hf. apply index_rows_family in Hin; cbn [fst] in *.
    - rewrite !elem_of_cons, elem_of_nil in Hf. unfold family_rows in Hin.
      destruct (r_ended_ms (s_run s)), Hf as [Hf|[Hf|[]]]; rewrite Hf in *; cbn in *;
        try by apply elem_of_nil in Hin.
      + destruct (s_evidence s); [|by apply elem_of_nil in Hin].
        by apply list_elem_of_singleton in Hin as [= _ -> _].
      + destruct (s_mailbox s); [|by apply elem_of_nil in Hin].
        by apply list_elem_of_singleton in Hin as [= _ -> _].
    - rewrite !elem_of_cons, elem_of_nil in Hf.
      destruct Hf as [->|[->|[]]]; by apply (bool_decide_unpack _); vm_compute. }
  assert (∀ horizon e, keeps (l ← indexed_runs "finished" "" e None;
    fold_each l (mkSwept 0 0 0 0) (sweep_finished horizon))) as H1.
  { intros. eapply keeps_run_loop; [by eexists|done| |].
    - intros s k c Hin. apply Hkey in Hin; [exact Hin|]. right. left.
    - intros. by apply sweep_finished_keeps. }
  assert (∀ sw e, keeps (l ← indexed_runs "mailbox" "" e None; fold_each l sw (sweep_mailbox now))) as H2.
  { intros. eapply keeps_run_loop; [by eexists|done| |].
    - intros s k c Hin. apply Hkey in Hin; [exact Hin|]. left.
    - intros. by apply sweep_mailbox_keeps. }
  unfold sweep_tx. cbv zeta. apply keeps_bind_assoc; [apply H1|]. intros sw.
  apply keeps_bind_assoc; [apply H2|]. intros sw'. apply keeps_moves. unfold sweep_index. solve_stable.
Qed.

(** ** Holds: the tree of a run *)

(** The runs [hold_tree] has found: each once, below the root. [seen] are those
    whose children it has listed. *)
Record tree_ok (r : rows) (rank : string → nat) (root : StoredRun) (seen pending : list StoredRun) : Prop := {
  tr_loaded : loaded r (seen ++ pending);
  tr_live : ∀ s, s ∈ seen ++ pending → r_ended_ms (s_run s) = None;
  tr_root : root ∈ seen ++ pending;
  tr_parent : ∀ s, s ∈ seen ++ pending → s = root ∨
    ∃ l p, r_child (s_run s) = Some l ∧ p ∈ seen ∧ run_id p = l_parent l;
  tr_rank : ∀ s, s ∈ seen ++ pending → (rank (run_id root) ≤ rank (run_id s))%nat
}.
Lemma tree_step r rank root seen s pending children :
  (∀ id s l, stored r id s → r_child (s_run s) = Some l →
    (∃ p, stored r (l_parent l) p) ∧ (rank (l_parent l) < rank id)%nat) →
  tree_ok r rank root seen (s :: pending) → loaded r children →
  (∀ c, c ∈ children → r_ended_ms (s_run c) = None ∧ ∃ k, r_child (s_run c) = Some k ∧ l_parent k = run_id s) →
  tree_ok r rank root (seen ++ [s]) (pending ++ children).
Proof.
  intros HF [[HN HL] Hlive Hroot Hpar Hrank] [HNc HLc] Hch.
  assert (∀ c, c ∈ children → (rank (run_id s) < rank (run_id c))%nat) as Hlt.
  { intros c Hc. destruct (Hch c Hc) as (_ & k & Hk & <-). by destruct (HF _ _ _ (HLc c Hc) Hk). }
  assert (s ∈ seen ++ s :: pending) as Hs by (apply elem_of_app; right; left).
  assert ((seen ++ [s]) ++ pending ++ children = (seen ++ s :: pending) ++ children) as E
    by by rewrite <- !app_assoc.
  assert (∀ c, c ∈ children → ∀ t, t ∈ seen ++ s :: pending → run_id t ≠ run_id c) as Hdis.
  { intros c Hc t Ht Hid. destruct (Hch c Hc) as (_ & k & Hk & Hkp).
    assert (t = c) as -> by (pose proof (HL t Ht) as H1; pose proof (HLc c Hc) as H2;
      rewrite Hid in H1; unfold stored in *; congruence).
    destruct (Hpar c Ht) as [->|(l & p & Hl & Hp & Hpid)].
    - specialize (Hlt _ Hc). specialize (Hrank _ Hs). lia.
    - assert (run_id p = run_id s) as Hps by congruence.
      rewrite fmap_app, fmap_cons in HN. apply NoDup_app in HN as (_ & Hno & _).
      apply (Hno (run_id p)); [apply list_elem_of_fmap; eauto|]. rewrite Hps. left. }
  split; rewrite ?E.
  - split.
    + rewrite fmap_app. apply NoDup_app. split; [done|]. split; [|done].
      intros x (t & -> & Ht)%list_elem_of_fmap (c & Hid & Hc)%list_elem_of_fmap. by eapply Hdis.
    + intros t [Ht|Ht]%elem_of_app; auto.
  - intros t [Ht|Ht]%elem_of_app; [auto|]. by apply Hch.
  - apply elem_of_app. by left.
  - intros t [Ht|Ht]%elem_of_app.
    + destruct (Hpar t Ht) as [?|(l & p & Hl & Hp & Hpid)]; [by left|]. right. exists l, p.
      split; [done|]. split; [apply elem_of_app; by left|done].
    + right. destruct (Hch t Ht) as (_ & k & Hk & Hkp). exists k, s. split; [done|].
      split; [apply elem_of_app; right; left|done].
  - intros t [Ht|Ht]%elem_of_app; [auto|]. specialize (Hlt _ Ht). specialize (Hrank _ Hs). lia.
Qed.
Lemma wp_hold_tree r0 r rank root fuel' seen pending :
  good r0 r → (∀ id s l, stored r id s → r_child (s_run s) = Some l →
    (∃ p, stored r (l_parent l) p) ∧ (rank (l_parent l) < rank id)%nat) →
  tree_ok r rank root seen pending →
  wp (hold_tree fuel' (seen ++ pending) pending)
     (λ tree r', r' = r ∧ tree_ok r rank root tree []) r.
Proof.
  intros Hg HF. revert seen pending. induction fuel' as [|n IH]; intros seen [|s pending] Ht; simpl; try done.
  1, 2: apply wp_ret; split; [done|]; rewrite app_nil_r in *; done.
  apply wp_bind. eapply wp_children; [done|]. intros children Hl Hch Hall.
  replace ((seen ++ s :: pending) ++ children) with ((seen ++ [s]) ++ pending ++ children)
    by by rewrite <- !app_assoc.
  apply IH. by eapply tree_step.
Qed.
Lemma keeps_set_hold id hold : keeps (set_hold fuel id hold).
Proof.
  intros r0 r Hg. unfold set_hold. apply wp_bind. eapply wp_find_run; [done|intros _; by apply wp_bind|].
  intros root Hid Hs. apply wp_bind, wp_ret. case_decide as He; [by apply wp_ret|]. apply wp_bind.
  destruct (inv_forest r (proj1 Hg)) as [rank HF].
  eapply wp_mono. 
  { apply (wp_hold_tree r0 r rank root fuel [] [root]); [done|done|].
    assert (∀ s, s ∈ [] ++ [root] → s = root) as Hone by (by intros s ?%list_elem_of_singleton).
    split.
    - split; [by apply NoDup_singleton|]. intros s ->%Hone. by rewrite Hid.
    - intros s ->%Hone. by apply eq_None_not_Some.
    - left.
    - intros s ->%Hone. by left.
    - by intros s ->%Hone. }
  intros tree r1 [-> [Hl Hlive _ _ _]]. rewrite app_nil_r in *. eapply wp_mono.
  { apply (wp_fold_each _ _ _ (λ l _ r', good r0 r' ∧ loaded r' l ∧
      ∀ s, s ∈ l → r_ended_ms (s_run s) = None)); [done|].
    intros s l b r1 (Hg1 & [Hs1 [Hne Hl1]]%loaded_head & Hn1). unfold hold_one.
    assert (∀ t, t ∈ l → r_ended_ms (s_run t) = None) as Hn2 by (intros; apply Hn1; by right).
    case_decide; [by apply wp_ret|]. cbv zeta. apply wp_bind.
    eapply wp_store_run_indexed; [done|done| |].
    - apply (staged_advance _ (proj1 Hg1) s); [by eapply stored_staged; [apply Hg1|]|].
      assert (r_ended_ms (s_run s) = None) by (apply Hn1; left). advance_live.
    - intros r2 Hg2 _ Hr2. apply wp_ret. split; [done|]. split; [|done].
      by eapply loaded_restored; [apply Hg1|..]. }
  by intros ? r' [Hg' _].
Qed.

(** ** Operator commands *)

Lemma stable_suspend name defs : stable moves (suspend name defs).
Proof. unfold suspend, suspend_one. solve_stable. Qed.
Hint Resolve stable_suspend : stable.
Lemma keeps_pause request name note now : keeps (pause_command request name note now).
Proof. unfold pause_command. solve_keeps. Qed.
Lemma keeps_resume name now : keeps (resume_command name now).
Proof. unfold resume_command. solve_keeps. Qed.
Lemma keeps_stop enabled now : keeps (stop_command enabled now).
Proof. unfold stop_command. solve_keeps. Qed.
Lemma keeps_cancel_command id now : keeps (cancel_command fuel id now).
Proof.
  intros r0 r Hg. unfold cancel_command. apply wp_bind. eapply wp_find_run; [done| |].
  - intros _. by apply wp_bind, wp_ret, wp_ret.
  - intros s Hid Hs. cbv zeta. cbn [is_some_and]. case_bool_decide as Hn; [|by apply wp_bind, wp_ret, wp_ret].
    apply wp_bind. eapply wp_mono; [apply (wp_terminate r0); [done|done|]|].
    + intros t Ht. unfold stored in *. by assert (t = s) as -> by congruence.
    + intros ? r1 [Hg1 _]. by apply wp_ret.
Qed.
Lemma wp_offer_to_wildcard r0 id n now r :
  good r0 r → (∃ s, stored r id s ∧ r_ended_ms (s_run s) = None) →
  wp (offer_to_wildcard id n now) (λ _ r', good r0 r') r.
Proof.
  intros Hg (s & Hs & Hn). unfold offer_to_wildcard. apply wp_bind, wp_reads; [solve_stable|]. intros e.
  apply wp_bind, wp_ensure. intros _. destruct (e_delivered e); [|by apply wp_ret]. cbv zeta.
  apply wp_bind. eapply wp_run; [done|]. intros t Hid Ht.
  assert (t = s) as -> by (unfold stored in *; congruence).
  apply wp_bind, wp_some_or. intros p _.
  apply wp_bind. eapply (wp_moves _ r0); [solve_stable|done|]. intros _ r1 Hg1 Hm1.
  apply wp_bind. eapply (wp_moves _ r0); [solve_stable|done|]. intros _ r2 Hg2 Hm2.
  apply wp_bind. eapply (wp_moves _ r0); [solve_stable|done|]. intros _ r3 Hg3 Hm3.
  eapply wp_store_run; [done| |done]. apply (staged_advance _ (proj1 Hg3) s).
  - apply (moves_stored_staged r r3 id s (proj1 Hg)); [|done].
    exact (transitivity Hm1 (transitivity Hm2 Hm3)).
  - advance_live.
Qed.
Lemma keeps_respond request id k event now : keeps (respond_command request id k event now policy).
Proof.
  intros r0 r Hg. unfold respond_command. cbv zeta. apply wp_bind, wp_some_or. intros i Hi.
  apply wp_bind, wp_reads; [solve_stable|]. intros [entry|]; [by case_decide|].
  apply wp_bind. eapply wp_find_run; [done|intros _; by apply wp_bind|]. intros s Hid Hs.
  apply wp_bind, wp_ret, wp_bind, wp_some_or. intros w Hw. apply wp_bind, wp_ensure. intros Hlive.
  apply andb_true_iff in Hlive as [Hn%bool_decide_eq_true _].
  apply wp_bind, wp_reads; [unfold complete_response; solve_stable|]. intros ev.
  apply wp_bind, wp_reads; [solve_stable|]. intros matched. apply wp_bind, wp_ensure. intros _.
  apply wp_bind. eapply wp_mono; [by apply wp_deliver|]. intros recipient r1 [Hg1 Hal].
  apply wp_bind, wp_reads; [solve_stable|]. intros n. apply wp_bind, wp_some_or. intros n' _.
  apply wp_bind. eapply (wp_mono _ (λ _ r2, good r0 r2)).
  - destruct (existsb _ _); [|by apply wp_ret]. apply wp_offer_to_wildcard; [done|]. by eapply Hal.
  - intros ? r2 Hg2. eapply wp_moves; [solve_stable|done|done].
Qed.
Hint Resolve keeps_set_hold keeps_pause keeps_resume keeps_stop keeps_cancel_command keeps_respond : keeps.
Lemma keeps_command_effect request c now : keeps (command_effect fuel request c now policy).
Proof. unfold command_effect. solve_keeps. Qed.
Hint Resolve keeps_command_effect : keeps.
Lemma keeps_apply_control request c now : keeps (apply_control_tx policy fuel request c now).
Proof. unfold apply_control_tx, control_command. solve_keeps. Qed.

(** ** The other tables *)

Lemma keeps_beat w : keeps (beat_tx w).
Proof. unfold beat_tx. solve_keeps. Qed.
Lemma keeps_save_definition name yaml b : keeps (save_definition_tx name yaml b).
Proof. unfold save_definition_tx. solve_keeps. Qed.
Lemma keeps_activate name version now : keeps (activate_tx name version now).
Proof. unfold activate_tx. solve_keeps. Qed.
Lemma keeps_activate_with name version epoch_ arming a :
  keeps (activate_with_tx name version epoch_ arming a).
Proof. unfold activate_with_tx. solve_keeps. Qed.
Lemma keeps_acknowledge k : keeps (acknowledge_tx k).
Proof. unfold acknowledge_tx. solve_keeps. Qed.
End with_host.
