(* ===== verification/History.v ===== *)
(** * Histories of a store

    [step] is one committed transaction of any operation of [RunStore] or any
    operator command; [reachable] rows are what a history of them leaves. Every
    step keeps the invariant of [Rows]; [fenced] names the operations that act
    for a lease, and fail once it is superseded. *)
From stdpp Require Import relations.
From S2P Require Import Prelude Json Keys Outcome Journal Listen Types Store Index Admit Mailbox.
From S2P Require Import Triggers Lifecycle Control RunStore Logic Rows Steps Preserve Terminate Operations.

Section with_host.
Context `{Host}.
Variable policy : Policy.

(** The transactions of [RunStore] that may write. [fuel] bounds the walks over
    a run's descendants. *)
Inductive operation : ∀ {A}, prog A → Prop :=
| op_admit a now : operation (admit_tx a now)
| op_start owner a now : operation (start_tx owner a now)
| op_claim owner id now worker : operation (claim_as_tx owner id now worker)
| op_renew f now : operation (renew_tx policy f now)
| op_release f now : operation (release_tx policy f now)
| op_save_record f k x now : operation (save_record_tx policy f k x now)
| op_spend f k limit now : operation (spend_tx policy f k limit now)
| op_describe_wait f k w now : operation (describe_wait_tx policy f k w now)
| op_register_wait f types now : operation (register_wait_tx policy f types now)
| op_unregister_wait f k types now : operation (unregister_wait_tx policy f k types now)
| op_take_event f k types now : operation (take_event_tx policy f k types now)
| op_subscribe f k types now : operation (subscribe_tx policy f k types now)
| op_unsubscribe f k now : operation (unsubscribe_tx policy f k now)
| op_deliver event target now : operation (deliver_tx policy event target now)
| op_publish event target now : operation (publish_tx policy event target now)
| op_finish fuel f outcome now threshold : operation (finish_tx policy fuel f outcome now threshold)
| op_start_child owner parent a link now : operation (start_child_tx policy owner parent a link now)
| op_cancel fuel id now : operation (cancel_tx fuel id now)
| op_fire fuel f now : operation (fire_tx policy fuel f now)
| op_due now limit worker : operation (due_as_tx now limit worker)
| op_sweep now kept : operation (sweep_tx now kept)
| op_control fuel request c now : operation (apply_control_tx policy fuel request c now)
| op_beat w : operation (beat_tx w)
| op_save_definition name yaml b : operation (save_definition_tx name yaml b)
| op_activate name version now : operation (activate_tx name version now)
| op_activate_with name version epoch_ arming a :
    operation (activate_with_tx name version epoch_ arming a)
| op_acknowledge k : operation (acknowledge_tx k).

(** The operation that spends a tree's budget. *)
Inductive spends : ∀ {A}, prog A → Prop :=
| spends_it f k limit now : spends (spend_tx policy f k limit now).

Definition step (r r' : rows) : Prop :=
  ∃ A (p : prog A) a, operation p ∧ exec p r = Ok (a, r').
Definition reachable (r : rows) : Prop := rtc step ∅ r.

Lemma keeps_operation {A} (p : prog A) : operation p → keeps p.
Proof.
  destruct 1; [ apply keeps_admit | apply keeps_start | apply keeps_claim_as | apply keeps_renew
    | apply keeps_release | apply keeps_save_record | apply keeps_spend | apply keeps_describe_wait
    | apply keeps_register_wait | apply keeps_unregister_wait | apply keeps_take_event
    | apply keeps_subscribe | apply keeps_unsubscribe | apply keeps_deliver | apply keeps_publish
    | apply keeps_finish | apply keeps_start_child | apply keeps_cancel | apply keeps_fire_tx
    | apply keeps_due_as | apply keeps_sweep | apply keeps_apply_control | apply keeps_beat
    | apply keeps_save_definition | apply keeps_activate | apply keeps_activate_with
    | apply keeps_acknowledge ].
Qed.

Lemma Inv_empty : Inv ∅.
Proof.
  split.
  - intros id c Hc. by rewrite lookup_empty in Hc.
  - intros k c _. rewrite lookup_empty. split; [done|]. intros (s & Hs & _). unfold stored in Hs.
    by rewrite lookup_empty in Hs.
  - exists (λ _, O). intros id s l Hs. unfold stored in Hs. by rewrite lookup_empty in Hs.
Qed.
(** What holds between operations. *)
Definition sound (r : rows) : Prop := Inv r ∧ orphans_under [] r.
Lemma sound_empty : sound ∅.
Proof.
  split; [apply Inv_empty|]. intros id s l Hs. unfold stored in Hs. by rewrite lookup_empty in Hs.
Qed.
Lemma live_parent r id s l : sound r → stored r id s → r_ended_ms (s_run s) = None → r_child (s_run s) = Some l →
  ∃ p, stored r (l_parent l) p ∧ r_ended_ms (s_run p) = None.
Proof.
  intros [HI HX] Hs Hn Hl. destruct (inv_forest r HI) as [rank HF].
  destruct (HF _ _ _ Hs Hl) as [[p Hp] _]. exists p. split; [done|].
  destruct (r_ended_ms (s_run p)) eqn:E; [|done]. exfalso.
  eapply (elem_of_nil (l_parent l)), (HX id s l); [done..|]. exists p. by rewrite E.
Qed.
Lemma good_sound r0 r : good r0 r → sound r.
Proof. by intros (HI & _ & HX). Qed.
Lemma good_refl r : sound r → good r r.
Proof. intros [HI HX]. by apply going_refl. Qed.
Lemma step_good r r' : sound r → step r r' → good r r'.
Proof.
  intros HI (A & p & a & Hop & E). pose proof (keeps_operation p Hop r r (good_refl r HI)) as Hk.
  exact (wp_exec _ _ _ _ _ Hk E).
Qed.
Lemma steps_good r r' : sound r → rtc step r r' → good r r'.
Proof.
  intros HI Hs. induction Hs as [r|r1 r2 r3 H1 _ IH]; [by apply good_refl|].
  pose proof (step_good _ _ HI H1) as Hg. eapply going_trans; [done|]. by eapply IH, good_sound.
Qed.
Lemma reachable_sound r : reachable r → sound r.
Proof. intros Hr. by eapply good_sound, (steps_good ∅); [apply sound_empty|]. Qed.
Lemma reachable_Inv r : reachable r → Inv r.
Proof. by intros [? _]%reachable_sound. Qed.

(** The rows an operation leaves: as they were when it fails. *)
Definition after {A} (p : prog A) (r : rows) : rows := (committed p r).2.
Lemma step_after {A} (p : prog A) r : operation p → rtc step r (after p r).
Proof.
  intros Hp. unfold after, committed. destruct (exec p r) as [[a r']|e] eqn:E; cbn; [|done].
  apply rtc_once. by exists A, p, a.
Qed.
Lemma reachable_after {A} (p : prog A) r : reachable r → operation p → reachable (after p r).
Proof. intros Hr Hp. exact (transitivity (R := rtc step) Hr (step_after p r Hp)). Qed.

Lemma exec_after {A} (p : prog A) r a : fst <$> exec p r = Ok a → exec p r = Ok (a, after p r).
Proof. unfold after, committed. destruct (exec p r) as [[b r']|e]; [|done]. cbn. by intros [= ->]. Qed.
Lemma exec_after_ok (p : prog unit) r : is_ok (exec p r) = true → exec p r = Ok ((), after p r).
Proof. unfold after, committed. by destruct (exec p r) as [[[] r']|e]. Qed.

(** ** Fenced operations *)

(** The operations that act for a fence. *)
Inductive fenced (f : Fence) : ∀ {A}, prog A → Prop :=
| fe_check now : fenced f (check_lease_tx policy f now)
| fe_renew now : fenced f (renew_tx policy f now)
| fe_release now : fenced f (release_tx policy f now)
| fe_load now : fenced f (load_records_tx policy f now)
| fe_save_record k x now : fenced f (save_record_tx policy f k x now)
| fe_spend k limit now : fenced f (spend_tx policy f k limit now)
| fe_describe_wait k w now : fenced f (describe_wait_tx policy f k w now)
| fe_register_wait types now : fenced f (register_wait_tx policy f types now)
| fe_unregister_wait k types now : fenced f (unregister_wait_tx policy f k types now)
| fe_take_event k types now : fenced f (take_event_tx policy f k types now)
| fe_subscribe k types now : fenced f (subscribe_tx policy f k types now)
| fe_unsubscribe k now : fenced f (unsubscribe_tx policy f k now)
| fe_finish fuel outcome now threshold : fenced f (finish_tx policy fuel f outcome now threshold)
| fe_start_child owner a link now : fenced f (start_child_tx policy owner f a link now).

Lemma exec_bind_err {A B} (p : prog A) (g : A → prog B) r e :
  exec p r = Err e → exec (p ≫= g) r = Err e.
Proof. rewrite exec_bind. by intros ->. Qed.
Lemma authority_fails f now skew r :
  Inv r → (∀ s, stored r (f_run_id f) s → owns s f now skew = false) →
  ∃ e, exec (authority f now skew) r = Err e.
Proof.
  intros HI Hno. unfold authority, Index.run. rewrite exec_bind, exec_bind, exec_find_run by done.
  destruct (r !! ("run", f_run_id f)) as [c|] eqn:E; [|by eexists].
  destruct (inv_run r HI _ _ E) as (s & -> & _). cbn [some_or exec]. rewrite exec_bind, (Hno s E). by eexists.
Qed.
Lemma running_rows r : (∃ e, exec running r = Err e) ∨ exec running r = Ok (tt, r).
Proof.
  unfold running, is_stopped, get. rewrite !exec_bind. cbn.
  destruct (r !! ("control", "stopped")) as [c|]; [|by right].
  unfold decode. destruct (of_cell c) as [[]|]; cbn; eauto.
Qed.
Lemma fenced_fails f {A} (p : prog A) r :
  Inv r → (∀ now s, stored r (f_run_id f) s → owns s f now (skew_ms policy) = false) →
  fenced f p → ∃ e, exec p r = Err e.
Proof.
  intros HI Hno Hp.
  assert (∀ now, ∃ e, exec (authority f now (skew_ms policy)) r = Err e) as Ha.
  { intros now. apply authority_fails; [done|]. apply Hno. }
  assert (∀ now B (g : StoredRun → prog B), ∃ e,
    exec (_ ← running; authority f now (skew_ms policy) ≫= g) r = Err e) as Hr.
  { intros now B g. rewrite exec_bind. destruct (running_rows r) as [[e ->]| ->]; [by eexists|].
    destruct (Ha now) as [e He]. exists e. by apply exec_bind_err. }
  assert (∀ now B (g : StoredRun → prog B), ∃ e, exec (checked f now (skew_ms policy) ≫= g) r = Err e) as Hc.
  { intros now B g. destruct (Hr now _ (λ s, _ ← not_held s; mret s)) as [e He].
    exists e. by apply exec_bind_err. }
  destruct Hp; try apply Hc; try apply Hr.
  destruct (Ha now) as [e He]. exists e. by apply exec_bind_err.
Qed.
Lemma superseded s s' f now skew :
  row_ok s' → evolve_run s s' → f_generation f ≤ r_generation (s_run s) →
  r_fence (s_run s) ≠ Some f → owns s' f now skew = false.
Proof.
  intros Hok Ha Hg Hf. apply not_true_iff_false. intros (_ & Hf' & _)%owns_spec.
  destruct (ok_fence _ Hok _ Hf') as (_ & Hgen & _).
  pose proof (adv_generation _ _ Ha). destruct (adv_fence _ _ Ha) as [E|E]; [lia|congruence|congruence].
Qed.

Lemma exec_checked f now skew s r r' : sound r → exec (checked f now skew) r = Ok (s, r') →
  r' = r ∧ exec is_stopped r = Ok (false, r) ∧ run_id s = f_run_id f ∧ stored r (run_id s) s ∧
  owns s f now skew = true ∧ r_held (s_run s) = None.
Proof.
  intros HI Hc.
  assert (wp (checked f now skew) (λ s' r', r' = r ∧ run_id s' = f_run_id f ∧
    stored r (run_id s') s' ∧ owns s' f now skew = true ∧ r_held (s_run s') = None) r) as Hw.
  { eapply wp_checked; [by apply good_refl|]. auto. }
  destruct (wp_exec _ _ _ _ _ Hw Hc) as (-> & Hid & Hs & Ho & Hh). split; [done|]. split; [|done].
  unfold checked in Hc. rewrite exec_bind in Hc. unfold running in Hc. rewrite exec_bind in Hc.
  destruct (exec is_stopped r) as [[b r1]|e] eqn:E; [|done].
  assert (r1 = r) as ->.
  { pose proof (stable_is_stopped (R := eq) r) as Hstop. by rewrite (wp_exec _ _ _ _ _ Hstop E). }
  by destruct b.
Qed.

End with_host.

(** ** Running a fenced operation

    What [checked] establishes, and the converse: rules to run the operations of
    a fence that may act, shared by the specifications of the operations. *)

Lemma exec_running r : exec is_stopped r = Ok (false, r) → exec running r = Ok ((), r).
Proof. intros Hs. unfold running. by rewrite exec_bind, Hs. Qed.
Lemma exec_stopped_running r : exec is_stopped r = Ok (true, r) → exec running r = Err EStopped.
Proof. intros Hs. unfold running. by rewrite exec_bind, Hs. Qed.
Lemma exec_is_stopped r b : exec is_stopped r = Ok (b, r) ↔
  match r !! ("control", "stopped") with
  | None => b = false
  | Some c => of_cell c = Some b
  end.
Proof.
  unfold is_stopped, get. rewrite exec_bind, exec_bind. cbn [exec get_cell exec_op].
  destruct (r !! ("control", "stopped")) as [c|]; cbn.
  - unfold decode. destruct (of_cell c) as [b'|] eqn:Ec; cbn in *; rewrite Ec;
      split; intros Hx; by simplify_eq/=.
  - split; intros Hx; by simplify_eq/=.
Qed.
Lemma exec_authority r f now skew s : Inv r → stored r (f_run_id f) s → owns s f now skew = true →
  exec (authority f now skew) r = Ok (s, r).
Proof.
  intros HI Hs Ho. unfold authority. rewrite exec_bind, (exec_run r _ s) by done.
  by rewrite exec_bind, Ho.
Qed.
Lemma exec_checked_intro r f now skew s : Inv r → exec is_stopped r = Ok (false, r) →
  stored r (f_run_id f) s → owns s f now skew = true → r_held (s_run s) = None →
  exec (checked f now skew) r = Ok (s, r).
Proof.
  intros HI Hst Hs Ho Hh. unfold checked. rewrite exec_bind, exec_running by done.
  rewrite exec_bind, (exec_authority r f now skew s) by done. rewrite exec_bind. unfold not_held.
  by rewrite Hh.
Qed.

(** What a passed check says of the rows. *)
Record acting (r : rows) (f : Fence) (now skew : Z) (s : StoredRun) : Prop := {
  act_inv : Inv r;
  act_stored : stored r (run_id s) s;
  act_id : run_id s = f_run_id f;
  act_owns : owns s f now skew = true;
  act_held : r_held (s_run s) = None;
  act_live : r_ended_ms (s_run s) = None;
  act_stopped : exec is_stopped r = Ok (false, r);
  act_running : exec running r = Ok ((), r);
  act_authority : exec (authority f now skew) r = Ok (s, r);
  act_checked : exec (checked f now skew) r = Ok (s, r)
}.
#[global] Arguments act_inv {r f now skew s} _.
#[global] Arguments act_stored {r f now skew s} _.
#[global] Arguments act_id {r f now skew s} _.
#[global] Arguments act_owns {r f now skew s} _.
#[global] Arguments act_held {r f now skew s} _.
#[global] Arguments act_live {r f now skew s} _.
#[global] Arguments act_stopped {r f now skew s} _.
#[global] Arguments act_running {r f now skew s} _.
#[global] Arguments act_authority {r f now skew s} _.
#[global] Arguments act_checked {r f now skew s} _.
Lemma acting_intro r f now skew s : Inv r → exec is_stopped r = Ok (false, r) →
  stored r (f_run_id f) s → owns s f now skew = true → r_held (s_run s) = None →
  acting r f now skew s.
Proof.
  intros HI Hst Hs Ho Hh. pose proof (stored_id r HI _ _ Hs) as Hid.
  split; try done; [by rewrite Hid| |by apply exec_running|by apply exec_authority|by apply exec_checked_intro].
  eapply owns_live; [|done]. by eapply stored_ok.
Qed.
Lemma checked_acting r f now skew s r1 :
  sound r → exec (checked f now skew) r = Ok (s, r1) → r1 = r ∧ acting r f now skew s.
Proof.
  intros HI Hc. destruct (exec_checked _ _ _ _ _ _ HI Hc) as (-> & Hst & Hid & Hs & Ho & Hh).
  split; [done|]. apply acting_intro; [apply HI|done|by rewrite <- Hid|done|done].
Qed.
(** The check passes again after an operation that left the stop switch and what
    the check reads of the run. *)
Lemma acting_again r r' f now skew s s' : acting r f now skew s → Inv r' →
  r' !! ("control", "stopped") = r !! ("control", "stopped") → stored r' (f_run_id f) s' →
  r_state (s_run s') = r_state (s_run s) → r_fence (s_run s') = r_fence (s_run s) →
  r_lease_until_ms (s_run s') = r_lease_until_ms (s_run s) → r_held (s_run s') = r_held (s_run s) →
  acting r' f now skew s'.
Proof.
  intros Ha HI' Hst Hs' H1 H2 H3 H4. pose proof (act_owns Ha) as Ho.
  apply acting_intro; [done| |done| |by rewrite H4; apply (act_held Ha)].
  - apply exec_is_stopped. rewrite Hst. by apply exec_is_stopped, (act_stopped Ha).
  - unfold owns in *. by rewrite H1, H2, H3.
Qed.

(** Storing an update of the acting run's row, possibly after other rows moved. *)
Lemma exec_update r r1 s s' : Inv r → stored r (run_id s) s → moves r r1 → advance s s' →
  ∃ r', exec (store_run s') r1 = Ok ((), r') ∧ Inv r' ∧ stored r' (run_id s) s' ∧
    (∀ k, k.1 ≠ "run" → indexed k.1 = false → r' !! k = r1 !! k) ∧
    (∀ id, id ≠ run_id s → r' !! ("run", id) = r1 !! ("run", id)).
Proof.
  intros HI Hs Hm Ha. assert (Inv r1) as HI1 by by eapply moves_Inv.
  assert (stageable r1 s') as Hst.
  { apply staged_stageable. eapply staged_advance; [done| |done].
    eapply moves_staged; [done|]. by eapply stored_staged. }
  destruct (exec_store_run r1 HI1 s' Hst) as (r' & E & Hr'). exists r'.
  pose proof (advance_run_id _ _ Ha) as Hid. split_and!; [done|by eapply restored_Inv| | |].
  - rewrite <- Hid. by apply (restored_self r1).
  - intros k H1 H2. by apply (restored_plain r1 r' s').
  - intros id Hne. apply (restored_other r1 r' s'); [done..|]. by rewrite Hid.
Qed.
