(* ===== verification/Samples.v ===== *)
(** * Concrete inputs

    A host and rows on which the theorems are applied: a store with an admitted
    run, a claimed one with a journal, a child, and an ended one. The rows are
    what the operations compute. *)
From S2P Require Import Prelude Json Keys Outcome Journal Listen Types Store Index Admit Mailbox.
From S2P Require Import Triggers Lifecycle Control RunStore History.

(** A host that prints numbers for times and runs no jq. *)
Definition demo_host : Host := {|
  rfc3339 ms := Some (pretty ms);
  to_vec_len v := Some 2;
  value_to_string v := match v with VStr s => s | VBool true => "true" | _ => "null" end;
  jaq program args input := JOutput input;
  yaml_value text := None;
  sha256 text := [1; 2; 3];
  shown v := "value"
|}.
#[export] Existing Instance demo_host.

Definition parent_a : Admission := mkAdmission "p" "flow" 1 "do" VNull (VObj ∅).
Definition child_a : Admission := mkAdmission "c" "sub" 1 "do" VNull (VObj ∅).
Definition parent_fence : Fence := mkFence "p" "w1" 1.
Definition child_fence : Fence := mkFence "c" "w1" 1.
Definition link_c : ChildLink := mkLink "p" "/do/0" "sub".
Definition a_call (state : CallState) : JRecord :=
  RCall (mkCall "/do/1" "charge" VNull AtMostOnce state ∅).
Definition an_event (id type_ : string) : value :=
  VObj (<["source" := VStr "s"]> (<["id" := VStr id]> {["type" := VStr type_]})).

Abbreviation P := default_policy.
(** The parent started at 1000, with a pending and then a completed call. *)
Definition rows_started : rows := after (start_tx "w1" parent_a 1000) ∅.
Definition rows_pending : rows :=
  after (save_record_tx P parent_fence "/do/1" (a_call Pending) 1001) rows_started.
Definition rows_called : rows :=
  after (save_record_tx P parent_fence "/do/1" (a_call (Done (Ok (vint 7)))) 1002) rows_pending.
(** A child started under it. *)
Definition rows_child : rows := after (start_child_tx P "w1" parent_fence child_a link_c 1003) rows_called.
(** The parent cancelled with its child. *)
Definition rows_ended : rows := after (cancel_tx 10 "p" 2000) rows_child.
(** The parent released and claimed again by another worker. *)
Definition rows_released : rows := after (release_tx P parent_fence 1500) rows_called.
Definition rows_reclaimed : rows :=
  after (claim_as_tx "w2" "p" 1600 default_compatibility) rows_released.

Lemma reachable_started : reachable P rows_started.
Proof. apply reachable_after; [constructor|constructor]. Qed.
Lemma reachable_pending : reachable P rows_pending.
Proof. apply reachable_after; [apply reachable_started|constructor]. Qed.
Lemma reachable_called : reachable P rows_called.
Proof. apply reachable_after; [apply reachable_pending|constructor]. Qed.
Lemma reachable_child : reachable P rows_child.
Proof. apply reachable_after; [apply reachable_called|constructor]. Qed.
Lemma reachable_ended : reachable P rows_ended.
Proof. apply reachable_after; [apply reachable_child|constructor]. Qed.
Lemma reachable_released : reachable P rows_released.
Proof. apply reachable_after; [apply reachable_called|constructor]. Qed.
Lemma reachable_reclaimed : reachable P rows_reclaimed.
Proof. apply reachable_after; [apply reachable_released|constructor]. Qed.

(** The run stored under an id. *)
Definition run_at (r : rows) (id : string) : StoredRun :=
  match r !! ("run", id) with Some (CRun s) => s | _ => fresh_run parent_a None 0 end.

(** A decidable property of every row, checked by evaluation. *)
Definition rows_all (r : rows) (p : Key → cell → bool) : bool :=
  forallb (λ x, p x.1 x.2) (map_to_list r).
Lemma rows_all_spec r p k c : rows_all r p = true → r !! k = Some c → p k c = true.
Proof.
  unfold rows_all. rewrite forallb_forall. intros Hp Hc.
  apply (Hp (k, c)), list_elem_of_In, elem_of_map_to_list, Hc.
Qed.
