(* ===== verification/Safety.v ===== *)
(** * Safety of every history of a store

    The theorems here hold of all reachable rows, whatever operations ran
    before in whatever order: the index rows describe the run rows, ended runs
    are final, a superseded fence never acts again, a live run's journal only
    advances, claims exclude one another, and runs form a forest in which a live
    child's parent is live. *)
From stdpp Require Import relations.
From S2P Require Import Prelude Json Keys Outcome Journal Listen Types Store Index Admit Mailbox.
From S2P Require Import Triggers Lifecycle Control RunStore Logic Rows Steps Preserve Terminate Operations.
From S2P Require Import History Samples.

Section with_host.
Context `{Host}.
Variable policy : Policy.
Abbreviation reachable := (reachable policy).
Abbreviation step := (step policy).


(** C9: in every reachable store the index rows are exactly the ones the run
    rows call for: nothing dangling, nothing missing, whatever operations of
    whatever workers ran before. *)
Theorem index_rows_describe_runs r k c :
  reachable r → indexed k.1 = true →
  r !! k = Some c ↔ ∃ s, r !! ("run", run_id s) = Some (CRun s) ∧ indexes s !! k = Some c.
Proof. intros Hr%reachable_Inv Hk. by apply (inv_index r Hr). Qed.

(** C10: a run that ended is final: no later operation changes its saved run (its
    state, outcome, times or annotations). *)
Theorem ended_run_is_final r r' id s :
  reachable r → rtc step r r' → r !! ("run", id) = Some (CRun s) → is_Some (r_ended_ms (s_run s)) →
  ∃ s', r' !! ("run", id) = Some (CRun s') ∧ s_run s' = s_run s.
Proof.
  intros Hr%reachable_sound Hs Hrun He. destruct (steps_good policy _ _ Hr Hs) as (_ & Hev & _).
  destruct (ev_run _ _ Hev _ _ Hrun) as (s' & Hs' & Ha). exists s'. split; [done|].
  by apply (adv_ended _ _ Ha).
Qed.

(** C1: a fence that a row of its run has moved past (a newer generation, or the
    same one released or finished) never acts again: in every later store each
    fenced operation fails for it. *)
Theorem stale_fence_never_acts r r' f s {A} (p : prog A) :
  reachable r → r !! ("run", f_run_id f) = Some (CRun s) →
  f_generation f ≤ r_generation (s_run s) → r_fence (s_run s) ≠ Some f →
  rtc step r r' → fenced policy f p → ∃ e, exec p r' = Err e.
Proof.
  intros Hr%reachable_sound Hrun Hg Hf Hs Hp. destruct (steps_good policy _ _ Hr Hs) as (HI & Hev & _).
  eapply fenced_fails; [done| |done]. intros now s' Hs'.
  destruct (ev_run _ _ Hev _ _ Hrun) as (t & Ht & Ha). unfold stored in *.
  assert (t = s') as -> by congruence. eapply superseded; [|done..]. by eapply stored_ok.
Qed.

(** C5: the journal of a live run is durable: a record is only ever replaced by
    one the transition rules allow, until the run has ended. The mailbox's own
    expiry records are the engine's. *)
Theorem journal_only_advances r r' id k a :
  reachable r → rtc step r r' →
  r !! (records_of id, k) = Some (CRecord a) → (∀ n, k ≠ expired_key n) →
  (∃ s, r' !! ("run", id) = Some (CRun s) ∧ is_Some (r_ended_ms (s_run s))) ∨
  ∃ b, r' !! (records_of id, k) = Some (CRecord b) ∧ check_transition a b = Ok ().
Proof.
  intros Hr%reachable_sound Hs Ha Hk. destruct (steps_good policy _ _ Hr Hs) as (_ & Hev & _).
  destruct (ev_record _ _ Hev _ _ _ Ha Hk) as [?|(b & Hb & Hab)]; [by left|right].
  exists b. split; [done|]. unfold check_transition. by rewrite Hab.
Qed.

(** A completed call is answered once: while its run lives its record stays
    as it is, so a replay reads the answer and the call is not made again. *)
Theorem completed_call_is_permanent r r' id k c x :
  reachable r → rtc step r r' →
  r !! (records_of id, k) = Some (CRecord (RCall c)) → call_state c = Done x →
  (∀ n, k ≠ expired_key n) →
  (∃ s, r' !! ("run", id) = Some (CRun s) ∧ is_Some (r_ended_ms (s_run s))) ∨
  r' !! (records_of id, k) = Some (CRecord (RCall c)).
Proof.
  intros Hr%reachable_sound Hs Ha Hx Hk. destruct (steps_good policy _ _ Hr Hs) as (_ & Hev & _).
  destruct (ev_record _ _ Hev _ _ _ Ha Hk) as [?|(b & Hb & Hab)]; [by left|right].
  rewrite Hb. unfold transition_allowed in Hab. rewrite Hx in Hab.
  apply orb_true_iff in Hab as [->%bool_decide_eq_true|Hab]; [done|]. by destruct b.
Qed.

(** no two owners act at once under bounded clock skew: while one owner may
    act at its time [t1], a claim at any clock at most the skew bound ahead
    answers nothing and changes nothing. *)
Theorem no_claim_while_owned r f t1 t2 owner worker :
  reachable r → exec (check_lease_tx policy f t1) r = Ok (tt, r) →
  t2 ≤ sat_add64 t1 (skew_ms policy) →
  exec (claim_as_tx owner (f_run_id f) t2 worker) r = Ok (None, r).
Proof.
  intros Hr%reachable_sound Hc Ht. unfold check_lease_tx in Hc. rewrite exec_bind in Hc.
  destruct (exec (checked _ _ _) r) as [[s r1]|e] eqn:E; [|done].
  destruct (exec_checked _ _ _ _ _ _ Hr E) as (-> & Hstop & Hid & Hs & Ho & _).
  destruct (owns_spec _ _ _ _ Ho) as (Hst & Hf & u & Hu & Hlt).
  unfold claim_as_tx. rewrite exec_bind, Hstop, exec_bind, exec_find_run by apply Hr.
  rewrite <- Hid. unfold stored in Hs. rewrite Hs.
  assert (claimable (s_run s) t2 = false) as ->; [|done].
  unfold claimable. case_decide; [done|]. rewrite Hst, Hu. cbn. apply bool_decide_eq_false. lia.
Qed.

(** C11: no orphans: between operations a live run's parent is live, so a run that
    ended has no live descendant left, whichever operation ended it. *)
Theorem live_child_has_live_parent r id s l :
  reachable r → r !! ("run", id) = Some (CRun s) → r_ended_ms (s_run s) = None →
  r_child (s_run s) = Some l →
  ∃ p, r !! ("run", l_parent l) = Some (CRun p) ∧ r_ended_ms (s_run p) = None.
Proof.
  intros Hr%reachable_sound. by apply live_parent.
Qed.

(** The parent relation has no cycle: a chain of child links from a run never
    leads back to it. *)
Theorem parents_are_acyclic r id : reachable r → ¬ tc (child_link r) id id.
Proof.
  intros Hr%reachable_Inv Hc. destruct (inv_forest r Hr) as [rank HF].
  assert (∀ a b, tc (child_link r) a b → (rank a < rank b)%nat) as Hlt; [|specialize (Hlt _ _ Hc); lia].
  intros a b Htc. induction Htc as [a b (s & l & Hs & Hl & <-)|a b c (s & l & Hs & Hl & <-) _ IH].
  - by destruct (HF _ _ _ Hs Hl).
  - destruct (HF _ _ _ Hs Hl). lia.
Qed.
End with_host.

(** ** Witnesses *)

Lemma ended_run_is_final_witness :
  ∃ s', rows_ended !! ("run", "c") = Some (CRun s') ∧ s_run s' = s_run (run_at rows_ended "c").
Proof.
  apply (ended_run_is_final P rows_ended rows_ended "c" (run_at rows_ended "c")).
  - apply reachable_ended.
  - apply rtc_refl.
  - vm_compute. reflexivity.
  - vm_compute. by eexists.
Defined.
Lemma index_rows_describe_runs_witness :
  rows_called !! ("due", timed 31000 "p") = Some (CJson (VStr "p")) ↔
  ∃ s, rows_called !! ("run", run_id s) = Some (CRun s) ∧
    indexes s !! ("due", timed 31000 "p") = Some (CJson (VStr "p")).
Proof. apply (index_rows_describe_runs P); [apply reachable_called|vm_compute; reflexivity]. Defined.
Lemma stale_fence_never_acts_witness :
  ∃ e, exec (save_record_tx P parent_fence "/do/2" (RTimer 5) 1700) rows_reclaimed = Err e.
Proof.
  apply (stale_fence_never_acts P rows_released rows_reclaimed parent_fence (run_at rows_released "p")).
  - apply reachable_released.
  - vm_compute. reflexivity.
  - vm_compute. discriminate.
  - vm_compute. discriminate.
  - apply step_after. constructor.
  - constructor.
Defined.
Lemma journal_only_advances_witness :
  (∃ s, rows_called !! ("run", "p") = Some (CRun s) ∧ is_Some (r_ended_ms (s_run s))) ∨
  ∃ b, rows_called !! (records_of "p", "/do/1") = Some (CRecord b) ∧
    check_transition (a_call Pending) b = Ok ().
Proof.
  apply (journal_only_advances P rows_pending).
  - apply reachable_pending.
  - apply step_after. constructor.
  - vm_compute. reflexivity.
  - intros n E. apply (f_equal (λ s, String.get 0 s)) in E. discriminate E.
Defined.
Lemma completed_call_is_permanent_witness :
  (∃ s, rows_child !! ("run", "p") = Some (CRun s) ∧ is_Some (r_ended_ms (s_run s))) ∨
  rows_child !! (records_of "p", "/do/1") = Some (CRecord (a_call (Done (Ok (vint 7))))).
Proof.
  apply (completed_call_is_permanent P rows_called rows_child "p" "/do/1" _ (Ok (vint 7))).
  - apply reachable_called.
  - apply step_after. constructor.
  - vm_compute. reflexivity.
  - reflexivity.
  - intros n E. apply (f_equal (λ s, String.get 0 s)) in E. discriminate E.
Defined.
Lemma no_claim_while_owned_witness :
  exec (claim_as_tx "w2" "p" 2500 default_compatibility) rows_called = Ok (None, rows_called).
Proof.
  apply (no_claim_while_owned P rows_called parent_fence 2000).
  - apply reachable_called.
  - apply exec_reads; [|vm_compute; reflexivity].
    apply stable_bind; [apply stable_checked|]. intros s. apply stable_ret.
  - vm_compute. discriminate.
Defined.
Lemma live_child_has_live_parent_witness :
  ∃ p, rows_child !! ("run", "p") = Some (CRun p) ∧ r_ended_ms (s_run p) = None.
Proof.
  apply (live_child_has_live_parent P rows_child "c" (run_at rows_child "c") link_c).
  - apply reachable_child.
  - vm_compute. reflexivity.
  - vm_compute. reflexivity.
  - vm_compute. reflexivity.
Defined.
Lemma parents_are_acyclic_witness : ¬ tc (child_link rows_child) "c" "c".
Proof. apply (parents_are_acyclic P). apply reachable_child. Defined.
