(* ===== verification/Memory.v ===== *)
(** * The memory backend

    [crates/durable/src/memory.rs]: optimistic transactions over versioned rows.
    A transaction reads the shared rows one operation at a time, so between two
    of its operations other transactions may commit; it remembers the versions
    it saw, buffers its writes, and at its commit validates every point and range
    observation. [mem_exec] runs a program of [Store] that way, over the rows
    shared at each of its operations. Versions are the identifiers of the [uuid]
    crate: a parameter of which the code relies on no value being drawn twice. *)
From S2P Require Import Prelude Json Outcome Journal Listen Types Store.

(** [Versioned]. *)
Abbreviation Versioned V :=
  (@gmap (string * string) (@prod_eq_dec string String.eq_dec string String.eq_dec)
     (@prod_countable string String.eq_dec String.countable string String.eq_dec String.countable)
     (V * cell)) (only parsing).

Section memory.
Context {V : Type} `{EqDecision V}.

Definition plain (rows : Versioned V) : Store.rows := snd <$> rows.

Record RangeRead := mkRange {
  rr_kind : string;
  rr_start : string;
  rr_end : option string;
  rr_limit : option nat;
  rr_versions : list (string * V)
}.
(** [MemoryTransaction]: a scan's versions are kept by id, within its kind. *)
Record MemoryTx := mkTx {
  mt_reads : gmap Key (option (V * cell));
  mt_scans : list RangeRead;
  mt_writes : gmap Key (option cell)
}.
#[local] Instance eta_MemoryTx : Eta MemoryTx := λ r, mkTx (mt_reads r) (mt_scans r) (mt_writes r).
Definition begin : MemoryTx := mkTx ∅ [] ∅.

(** [range]: the first [limit] rows of a kind with ids in [start, end). *)
Definition range (rows : Versioned V) (kind start : string) (end_ : option string) (limit : option nat)
    : list (string * (V * cell)) :=
  limited limit (merge_sort key_le (omap (λ '((k, id), x),
    if decide (k = kind ∧ in_range start end_ id) then Some (id, x) else None)
    (map_to_list rows))).
Definition versions_of (l : list (string * (V * cell))) : list (string * V) :=
  (λ x, (x.1, x.2.1)) <$> l.

(** [get]: the transaction's own write, else the row as first observed. *)
Definition mem_get (rows : Versioned V) (tx : MemoryTx) (k : Key) : option cell * MemoryTx :=
  match mt_writes tx !! k with
  | Some v => (v, tx)
  | None =>
      match mt_reads tx !! k with
      | Some o => (snd <$> o, tx)
      | None => (snd <$> (rows !! k), tx <| mt_reads ::= <[k := rows !! k]> |>)
      end
  end.
(** The buffered writes of a range over the rows observed. *)
Definition overlay_one (kind start : string) (end_ : option string) (m : gmap string cell)
    (x : Key * option cell) : gmap string cell :=
  let '((k, id), v) := x in
  if bool_decide (k = kind) && in_range start end_ id then
    match v with Some c => <[id := c]> m | None => delete id m end
  else m.
Definition empty_range (start : string) (end_ : option string) (limit : option nat) : bool :=
  bool_decide (limit = Some O) || is_some_and end_ (λ e, str_leb e start).
Definition mem_scan (rows : Versioned V) (tx : MemoryTx) (kind start : string) (end_ : option string)
    (limit : option nat) : list (string * cell) * MemoryTx :=
  if empty_range start end_ limit then ([], tx)
  else
    let read_limit := (λ n, (n + size (mt_writes tx))%nat) <$> limit in
    let observed := range rows kind start end_ read_limit in
    let tx := tx <| mt_scans ::= λ l, l ++ [mkRange kind start end_ read_limit (versions_of observed)] |> in
    let found : gmap string cell := list_to_map ((λ x, (x.1, x.2.2)) <$> observed) in
    (limited limit (entries (foldl (overlay_one kind start end_) found (map_to_list (mt_writes tx)))), tx).
(** [put] and [delete] observe the row they replace. *)
Definition mem_write (rows : Versioned V) (tx : MemoryTx) (k : Key) (v : option cell) : MemoryTx :=
  (mem_get rows tx k).2 <| mt_writes ::= <[k := v]> |>.

Definition mem_op (read_only : bool) (rows : Versioned V) (tx : MemoryTx) (o : op)
    : result error (answer o * MemoryTx) :=
  match o with
  | OGet kind id => Ok (mem_get rows tx (kind, id))
  | OScan kind start end_ limit => Ok (mem_scan rows tx kind start end_ limit)
  | OPut kind id c => if read_only then Err EReadOnly else Ok (tt, mem_write rows tx (kind, id) (Some c))
  | ODelete kind id => if read_only then Err EReadOnly else Ok (tt, mem_write rows tx (kind, id) None)
  end.
(** A program whose [i]-th operation finds the rows [shared i]. *)
Fixpoint mem_exec {A} (read_only : bool) (shared : nat → Versioned V) (i : nat) (p : prog A)
    (tx : MemoryTx) : result error (A * MemoryTx) :=
  match p with
  | PRet a => Ok (a, tx)
  | PFail e => Err e
  | POp o k =>
      match mem_op read_only (shared i) tx o with
      | Ok (x, tx) => mem_exec read_only shared (S i) (k x) tx
      | Err e => Err e
      end
  end.

(** [commit]: the versions a range returned stand for point reads of the same. *)
Definition ranged (tx : MemoryTx) : list (Key * V) :=
  mt_scans tx ≫= λ s, (λ x, ((rr_kind s, x.1), x.2)) <$> rr_versions s.
Definition point_valid (rows : Versioned V) (tx : MemoryTx) (k : Key) (before : option (V * cell)) : bool :=
  is_some_and before (λ x, bool_decide ((k, x.1) ∈ ranged tx))
  || bool_decide (fst <$> rows !! k = fst <$> before).
Definition scan_valid (rows : Versioned V) (s : RangeRead) : bool :=
  bool_decide (versions_of (range rows (rr_kind s) (rr_start s) (rr_end s) (rr_limit s)) = rr_versions s).
Definition valid (rows : Versioned V) (tx : MemoryTx) : bool :=
  forallb (λ '(k, o), point_valid rows tx k o) (map_to_list (mt_reads tx))
  && forallb (scan_valid rows) (mt_scans tx).

(** The writes of a commit, each row with a version of its own drawn from
    [uuid]; [n] versions were drawn before. *)
Variable uuid : nat → V.
Definition write_row (acc : Versioned V * nat) (x : Key * option cell) : Versioned V * nat :=
  match x.2 with
  | Some c => (<[x.1 := (uuid acc.2, c)]> acc.1, S acc.2)
  | None => (delete x.1 acc.1, acc.2)
  end.
Definition commit (state : Versioned V * nat) (tx : MemoryTx) : result error (Versioned V * nat) :=
  if valid state.1 tx then Ok (foldl write_row state (map_to_list (mt_writes tx))) else Err EConflict.
End memory.
Arguments MemoryTx V : clear implicits.
Arguments RangeRead V : clear implicits.

(** [transact]: an attempt that conflicts is made again, up to 128 times. *)
Definition RETRIES : nat := 128.
Fixpoint retry {A} (n : nat) (attempt : nat → result error A) (i : nat) : result error A :=
  match n with
  | O => Err (EMsg "storage contention exceeded transaction retry limit")
  | S n => match attempt i with Err EConflict => retry n attempt (S i) | r => r end
  end.
Definition transact {A} (attempt : nat → result error A) : result error A := retry RETRIES attempt 0.
