(* ===== verification/MemorySpec.v ===== *)
(** * The memory backend is serializable

    A transaction of [Memory] whose commit validates has read and written what
    one atomic execution of its program over the rows at its commit would have
    ([mem_serializable]), whatever other transactions committed between its
    operations. *)
From S2P Require Import Prelude Json Keys Outcome Journal Listen Types Store RunStore Logic Ordered Memory Samples.

(** ** A transaction's view: its writes over the rows *)

Definition overlay (r : rows) (w : gmap Key (option cell)) : rows :=
  merge (λ o v, match v with Some v => v | None => o end) r w.
Lemma overlay_lookup (r : rows) (w : gmap Key (option cell)) (k : Key) :
  overlay r w !! k = match w !! k with Some v => v | None => r !! k end.
Proof. unfold overlay. rewrite lookup_merge. by destruct (r !! k), (w !! k). Qed.
Lemma overlay_insert (r : rows) (w : gmap Key (option cell)) (k : Key) (v : option cell) : overlay r (<[k := v]> w) =
  match v with Some c => <[k := c]> (overlay r w) | None => delete k (overlay r w) end.
Proof.
  apply map_eq. intros k'. rewrite overlay_lookup. destruct (decide (k = k')) as [<-|Hk].
  - rewrite lookup_insert_eq. destruct v; by rewrite ?lookup_insert_eq, ?lookup_delete_eq.
  - rewrite lookup_insert_ne by done. rewrite <- (overlay_lookup r w k').
    destruct v; by rewrite ?lookup_insert_ne, ?lookup_delete_ne.
Qed.

Lemma overlay_fold_lookup (kind start : string) (end_ : option string) (l : list (Key * option cell)) (m : gmap string cell) (id : string) :
  NoDup l.*1 →
  foldl (overlay_one kind start end_) m l !! id =
    if in_range start end_ id then
      match (list_to_map l : gmap Key (option cell)) !! (kind, id) with Some v => v | None => m !! id end
    else m !! id.
Proof.
  revert m. induction l as [|[[k i] v] l IH]; intros m HN; cbn [foldl list_to_map foldr].
  { rewrite lookup_empty. by destruct (in_range _ _ _). }
  apply NoDup_cons in HN as [Hx HN]. rewrite IH by done. cbn [uncurry fst snd].
  assert (∀ id', id' ≠ i ∨ k ≠ kind ∨ in_range start end_ id' = false →
    overlay_one kind start end_ m ((k, i), v) !! id' = m !! id') as Hother.
  { intros id' Hid. cbn. destruct (bool_decide (k = kind) && in_range start end_ i) eqn:E; [|done].
    apply andb_true_iff in E as [->%bool_decide_eq_true Hi].
    assert (id' ≠ i) as Hne by (destruct Hid as [?|[?|Hr]]; [done|done|intros ->; congruence]).
    destruct v; by rewrite ?lookup_insert_ne, ?lookup_delete_ne. }
  destruct (in_range start end_ id) eqn:Er; [|apply Hother; auto].
  destruct (decide ((k, i) = (kind, id))) as [[= -> ->]|Hne].
  - rewrite lookup_insert_eq. rewrite (not_elem_of_list_to_map_1 _ _ Hx).
    cbn. rewrite bool_decide_true, Er by done. cbn.
    destruct v; by rewrite ?lookup_insert_eq, ?lookup_delete_eq.
  - rewrite lookup_insert_ne by done. destruct (list_to_map l !! _); [done|]. apply Hother.
    destruct (decide (id = i)); [|by left]. right. left. congruence.
Qed.
Lemma overlay_writes_lookup (kind start : string) (end_ : option string) (w : gmap Key (option cell)) (m : gmap string cell) (id : string) :
  foldl (overlay_one kind start end_) m (map_to_list w) !! id =
    if in_range start end_ id then
      match w !! (kind, id) with Some v => v | None => m !! id end
    else m !! id.
Proof. rewrite overlay_fold_lookup by apply NoDup_fst_map_to_list. by rewrite list_to_map_to_list. Qed.

Section prefix.
Context (r : rows) (w : gmap Key (option cell)) (kind start : string) (end_ : option string).
Let L : list (string * cell) := rows_of r kind start end_.
Let merged (l : list (string * cell)) : gmap string cell :=
  foldl (overlay_one kind start end_) (list_to_map l) (map_to_list w).

Lemma L_lookup (id : string) (c : cell) : (list_to_map L : gmap string cell) !! id = Some c ↔
  r !! (kind, id) = Some c ∧ in_range start end_ id = true.
Proof. rewrite <- elem_of_list_to_map by apply rows_of_NoDup. apply elem_of_rows_of. Qed.
Lemma merged_all : entries (merged L) = rows_of (overlay r w) kind start end_.
Proof.
  symmetry. apply rows_of_entries. intros id c. unfold merged.
  rewrite overlay_writes_lookup, overlay_lookup. destruct (in_range start end_ id) eqn:Er.
  - destruct (w !! (kind, id)); [split; [done|by intros [? _]]|]. by rewrite L_lookup, Er.
  - rewrite L_lookup, Er. split; by intros [_ ?].
Qed.

(** The rows within a key bound that a truncated observation also has. *)
Lemma merged_below (n : nat) (t : string * cell) (id : string) : last (take n L) = Some t → String.le id t.1 →
  merged (take n L) !! id = merged L !! id.
Proof.
  intros Ht Hid. unfold merged. rewrite !overlay_writes_lookup.
  assert ((list_to_map (take n L) : gmap string cell) !! id = (list_to_map L : gmap string cell) !! id) as ->; [|done].
  apply option_eq. intros c.
  assert (NoDup (take n L).*1 ∧ NoDup L.*1) as [HN1 HN2].
  { pose proof (rows_of_NoDup r kind start end_) as HN. split; [|done]. rewrite fmap_take.
    rewrite <- (take_drop n (L.*1)) in HN. by apply NoDup_app in HN as [? _]. }
  rewrite <- !elem_of_list_to_map by done. split; intros Hin.
  - rewrite <- (take_drop n L). apply elem_of_app. by left.
  - rewrite <- (take_drop n L) in Hin. apply elem_of_app in Hin as [Hin|Hin]; [done|].
    pose proof (rows_of_sorted r kind start end_) as Hs. fold L in Hs.
    rewrite <- (take_drop n L) in Hs. assert (t ∈ take n L) as Htin by (rewrite last_lookup in Ht; by eapply list_elem_of_lookup_2).
    pose proof (StronglySorted_app_1_elem_of _ _ _ _ _ Hs Htin Hin) as Hle.
    unfold key_le in Hle. cbn [fst] in Hle. assert (id = t.1) as -> by (by apply (anti_symm String.le)).
    exfalso. rewrite <- (take_drop n L), fmap_app in HN2. apply NoDup_app in HN2 as (_ & Hno & _).
    eapply Hno; [apply list_elem_of_fmap; eauto|]. apply list_elem_of_fmap. by exists (t.1, c).
Qed.

(** The rows of the observation that no write replaces. *)
Lemma unwritten (l : list (string * cell)) : NoDup l.*1 →
  (length l ≤ size w + length (filter (λ x, w !! (kind, x.1) = None) l))%nat.
Proof.
  intros HN. rewrite <- (filter_app_complement (λ x, w !! (kind, x.1) = None) l) at 1.
  rewrite length_app.
  assert (length (filter (λ x, w !! (kind, x.1) ≠ None) l) ≤ size w)%nat; [|lia].
  rewrite <- length_map_to_list.
  rewrite <- (length_fmap (λ x, ((kind, x.1) : Key)) (filter _ l)), <- (length_fmap fst (map_to_list w)).
  apply NoDup_length_le.
  - apply (NoDup_fmap_1 snd). rewrite <- list_fmap_compose. by apply (NoDup_fst_filter _ l).
  - intros k (x & -> & [Hx _]%list_elem_of_filter)%list_elem_of_fmap.
    destruct (w !! (kind, x.1)) as [v|] eqn:E; [|done]. apply list_elem_of_fmap.
    exists ((kind, x.1), v). by rewrite elem_of_map_to_list.
Qed.
Lemma merged_prefix n : (0 < n)%nat →
  take n (entries (merged (take (n + size w) L))) = take n (entries (merged L)).
Proof.
  intros Hn. set (m := (n + size w)%nat).
  destruct (decide (length L ≤ m)%nat) as [Hl|Hl]; [by rewrite (take_ge L m)|].
  destruct (last (take m L)) as [t|] eqn:Et.
  2: { apply last_None, (f_equal length) in Et. rewrite length_take in Et. cbn in Et. unfold m in *. lia. }
  assert (NoDup (take m L).*1) as HN.
  { rewrite fmap_take. pose proof (rows_of_NoDup r kind start end_) as HN. fold L in HN.
    rewrite <- (take_drop m (L.*1)) in HN. by apply NoDup_app in HN as [? _]. }
  assert (∀ x, x ∈ take m L → String.le x.1 t.1) as Hbelow.
  { intros x Hx. pose proof (rows_of_sorted r kind start end_) as Hs. fold L in Hs.
    rewrite <- (take_drop m L) in Hs. apply StronglySorted_app_1_l in Hs.
    apply last_Some in Et as [l' El]. rewrite El in Hx, Hs. apply elem_of_app in Hx as [Hx|Hx%list_elem_of_singleton].
    - eapply (StronglySorted_app_1_elem_of key_le l' [t]); [done|done|left].
    - by subst. }
  apply (take_prefix _ _ t.1); [apply entries_sorted..| |].
  - apply keyed_unique.
    1, 2: apply StronglySorted_filter, entries_sorted.
    1, 2: apply NoDup_fst_filter, entries_NoDup.
    intros [id c]. rewrite !list_elem_of_filter, !elem_of_entries. cbn [fst].
    split; intros [Hle Hm]; (split; [done|]); by rewrite (merged_below m t id Et Hle) in *.
  - pose proof (unwritten (take m L) HN) as Hlen. rewrite length_take in Hlen.
    assert (length (filter (λ x, w !! (kind, x.1) = None) (take m L)) ≤
      length (filter (λ x, String.le x.1 t.1) (entries (merged (take m L)))))%nat; [|unfold m in *; lia].
    apply NoDup_length_le.
    + by apply NoDup_keys, NoDup_fst_filter.
    + intros [id c] [Hw Hx]%list_elem_of_filter. cbn [fst] in Hw. apply list_elem_of_filter.
      split; [by apply (Hbelow (id, c))|]. rewrite elem_of_entries. unfold merged.
      rewrite overlay_writes_lookup, Hw.
      assert ((list_to_map (take m L) : gmap string cell) !! id = Some c) as ->; [|by destruct (in_range _ _ _)].
      by apply elem_of_list_to_map.
Qed.
(** What a scan of the memory backend computes is the scan of the view. *)
Lemma merged_scan limit : limit ≠ Some O →
  limited limit (entries (merged (limited ((λ n, (n + size w)%nat) <$> limit) L))) =
  scan_rows (overlay r w) kind start end_ limit.
Proof.
  intros Hl. unfold scan_rows. rewrite <- merged_all. destruct limit as [n|]; [|done].
  cbn. apply merged_prefix. destruct n; [done|lia].
Qed.
End prefix.

(** ** Simulation of a validated transaction *)

Section simulation.
Context {V : Type} `{EqDecision V}.
Variable shared : nat → Versioned V.
Variable final : Versioned V.
(** A version names one row's content: none is drawn twice. *)
Definition coherent (S1 S2 : Versioned V) : Prop :=
  ∀ k v c c', (S1) !! k = Some (v, c) →
    (S2) !! k = Some (v, c') → c = c'.
Hypothesis shared_coherent : ∀ i, coherent (shared i) final.

Definition view (tx : MemoryTx V) : rows := overlay (plain final) (mt_writes tx).
(** The observations were made of the shared rows. *)
Record observed (tx : MemoryTx V) : Prop := {
  ob_read : ∀ k o, mt_reads tx !! k = Some o → ∃ i, o = (shared i) !! k;
  ob_scan : ∀ s, s ∈ mt_scans tx → ∃ i,
    rr_versions s = versions_of (range (shared i) (rr_kind s) (rr_start s) (rr_end s) (rr_limit s))
}.
(** A later transaction state has the observations of an earlier one. *)
Record later (tx tx' : MemoryTx V) : Prop := {
  la_read : ∀ k o, mt_reads tx !! k = Some o → mt_reads tx' !! k = Some o;
  la_scan : ∀ s, s ∈ mt_scans tx → s ∈ mt_scans tx'
}.
#[local] Instance later_preorder : PreOrder later.
Proof. split; [by split|]. intros x y z [R1 S1] [R2 S2]. split; auto. Qed.

Lemma range_plain (rows : Versioned V) kind start end_ limit :
  (λ x, (x.1, x.2.2)) <$> range rows kind start end_ limit =
  scan_rows (plain rows) kind start end_ limit.
Proof.
  unfold range, scan_rows.
  assert (∀ l : list (string * (V * cell)), (λ x, (x.1, x.2.2)) <$> limited limit l =
    limited limit ((λ x, (x.1, x.2.2)) <$> l)) as ->.
  { intros l. destruct limit; [cbn; by rewrite fmap_take|done]. }
  f_equal. set (ids := omap _ _).
  assert (NoDup ids.*1) as HN.
  { unfold ids. clear ids. pose proof (NoDup_fst_map_to_list (rows)) as HN. revert HN.
    generalize (map_to_list (rows)). intros l.
    induction l as [|[[k i] x] l IH]; [constructor|]. intros [Hx HN]%NoDup_cons. cbn.
    case_decide as Hk; [|by apply IH]. cbn. constructor; [|by apply IH].
    intros ([i' x'] & -> & Hin)%list_elem_of_fmap. apply Hx.
    apply list_elem_of_omap in Hin as ([[k' i''] x''] & Hin & E). case_decide as Hk'; [|done].
    injection E as -> ->. destruct Hk as [-> _], Hk' as [-> _]. apply list_elem_of_fmap.
    by exists ((kind, i'), x'). }
  assert (∀ l : list (string * (V * cell)), ((λ x, (x.1, x.2.2)) <$> l).*1 = l.*1) as Hfst.
  { intros l. rewrite <- list_fmap_compose. by apply list_fmap_ext. }
  apply keyed_unique; [|apply rows_of_sorted| |apply rows_of_NoDup|].
  - assert (StronglySorted key_le (merge_sort key_le ids)) as Hs by (apply StronglySorted_merge_sort; apply _).
    clear HN. induction Hs as [|x l Hs IH Hx]; [constructor|]. cbn. constructor; [done|].
    apply Forall_fmap. eapply Forall_impl; [exact Hx|]. done.
  - rewrite Hfst. by rewrite merge_sort_Permutation.
  - intros [id c]. rewrite elem_of_rows_of, list_elem_of_fmap. unfold plain. rewrite lookup_fmap, fmap_Some.
    split.
    + intros ([i [v c']] & [= -> ->] & Hin). rewrite merge_sort_Permutation in Hin.
      apply list_elem_of_omap in Hin as ([[k' i'] x] & Hin & E). case_decide as Hk; [|done].
      injection E as -> ->. apply elem_of_map_to_list in Hin. destruct Hk as [-> Hr].
      apply Is_true_true in Hr. split; [by exists (v, c')|done].
    + intros [([v c'] & Hx & ->) Hr]. exists (id, (v, c')). split; [done|].
      rewrite merge_sort_Permutation. apply list_elem_of_omap. exists ((kind, id), (v, c')).
      rewrite elem_of_map_to_list. split; [done|]. rewrite decide_True; [done|]. by rewrite Is_true_true.
Qed.

Lemma elem_of_range (rows : Versioned V) kind start end_ limit id x :
  (id, x) ∈ range rows kind start end_ limit → (rows) !! (kind, id) = Some x.
Proof.
  unfold range. intros Hin%elem_of_limited. rewrite merge_sort_Permutation in Hin.
  apply list_elem_of_omap in Hin as ([[k i] y] & Hin & E). case_decide as Hk; [|done].
  injection E as -> ->. destruct Hk as [-> _]. by apply elem_of_map_to_list in Hin.
Qed.
Lemma versions_plain (S1 S2 : Versioned V) kind (l1 l2 : list (string * (V * cell))) :
  coherent S1 S2 →
  (∀ id x, (id, x) ∈ l1 → (S1) !! (kind, id) = Some x) →
  (∀ id x, (id, x) ∈ l2 → (S2) !! (kind, id) = Some x) →
  versions_of l1 = versions_of l2 →
  (λ x, (x.1, x.2.2)) <$> l1 = (λ x, (x.1, x.2.2)) <$> l2.
Proof.
  intros Hco. revert l2. induction l1 as [|[i1 [v1 c1]] l1 IH]; intros [|[i2 [v2 c2]] l2] H1 H2 E; try done.
  cbn in E. injection E as -> -> E. cbn. f_equal.
  - f_equal. eapply Hco; [apply H1; left|apply H2; left].
  - apply IH; [intros; apply H1; by right|intros; apply H2; by right|done].
Qed.

Section validated.
Context (tx' : MemoryTx V) (Hob : observed tx') (Hv : valid final tx' = true).

Lemma valid_scan s : s ∈ mt_scans tx' →
  versions_of (range final (rr_kind s) (rr_start s) (rr_end s) (rr_limit s)) = rr_versions s.
Proof.
  intros Hs. pose proof Hv as Hsc. unfold valid in Hsc. apply andb_true_iff in Hsc as [_ Hsc].
  rewrite forallb_forall in Hsc. apply list_elem_of_In in Hs. specialize (Hsc s Hs).
  by apply bool_decide_eq_true in Hsc.
Qed.
Lemma valid_read k o : mt_reads tx' !! k = Some o → snd <$> o = plain final !! k.
Proof.
  intros Hk. pose proof Hv as Hr. unfold valid in Hr. apply andb_true_iff in Hr as [Hr _].
  rewrite forallb_forall in Hr. specialize (Hr (k, o)). cbn in Hr.
  assert (fst <$> (final) !! k = fst <$> o) as Hver.
  { unfold point_valid in Hr. destruct (orb_prop _ _ (Hr ltac:(by apply list_elem_of_In, elem_of_map_to_list))) as [Ha|Ha].
    - destruct o as [[v c]|]; [|done]. cbn in Ha. apply bool_decide_eq_true in Ha.
      unfold ranged in Ha. apply list_elem_of_bind in Ha as (s & Hin & Hs).
      apply list_elem_of_fmap in Hin as ([id v'] & [= -> ->] & Hin).
      rewrite <- (valid_scan s Hs) in Hin. unfold versions_of in Hin.
      apply list_elem_of_fmap in Hin as ([id' [v'' c']] & [= -> ->] & Hin).
      apply elem_of_range in Hin. by rewrite Hin.
    - by apply bool_decide_eq_true in Ha. }
  destruct (ob_read _ Hob _ _ Hk) as [i Hi]. unfold plain. rewrite lookup_fmap.
  destruct o as [[v c]|], ((final) !! k) as [[v' c']|] eqn:E; cbn in Hver; try done.
  injection Hver as ->. cbn. f_equal. by eapply (shared_coherent i).
Qed.
End validated.

Lemma get_sim i tx k x tx1 tx' :
  mem_get (shared i) tx k = (x, tx1) → observed tx →
  observed tx1 ∧ later tx tx1 ∧ mt_writes tx1 = mt_writes tx ∧
  (observed tx' → valid final tx' = true → later tx1 tx' → x = view tx !! k).
Proof.
  unfold mem_get, view. intros E Hob. rewrite overlay_lookup.
  destruct (mt_writes tx !! k) as [v|] eqn:Ew.
  { injection E as <- <-. split_and!; [done|reflexivity|done|done]. }
  destruct (mt_reads tx !! k) as [o|] eqn:Er.
  { injection E as <- <-. split_and!; [done|reflexivity|done|]. intros Hob' Hv Hla.
    eapply valid_read; [done..|]. by apply Hla. }
  injection E as <- <-. split_and!.
  - split; [|apply Hob]. cbn. intros k' o. destruct (decide (k = k')) as [<-|Hk].
    + rewrite lookup_insert_eq. intros [= <-]. by exists i.
    + rewrite lookup_insert_ne by done. apply Hob.
  - split; [|done]. cbn. intros k' o Hk'. rewrite lookup_insert_ne; [done|congruence].
  - done.
  - intros Hob' Hv Hla. eapply valid_read; [done..|]. apply (la_read _ _ Hla). cbn. by rewrite lookup_insert_eq.
Qed.
Lemma empty_scan (r : rows) kind start end_ limit :
  empty_range start end_ limit = true → scan_rows r kind start end_ limit = [].
Proof.
  unfold empty_range, scan_rows. intros [->%bool_decide_eq_true|He]%orb_true_iff; [done|].
  destruct end_ as [e|]; [|done]. cbn in He.
  assert (rows_of r kind start (Some e) = []) as ->; [|by destruct limit as [[]|]].
  apply elem_of_nil_inv. intros [id c] [_ Hr]%elem_of_rows_of. unfold in_range in Hr. cbn in Hr.
  apply andb_true_iff in Hr as [H1 H2]. rewrite str_ltb_leb in H2.
  by rewrite (str_leb_trans e start id) in H2.
Qed.
Lemma scan_sim i tx kind start end_ limit x tx1 tx' :
  mem_scan (shared i) tx kind start end_ limit = (x, tx1) → observed tx →
  observed tx1 ∧ later tx tx1 ∧ mt_writes tx1 = mt_writes tx ∧
  (valid final tx' = true → later tx1 tx' → x = scan_rows (view tx) kind start end_ limit).
Proof.
  unfold mem_scan. intros E Hob. destruct (empty_range start end_ limit) eqn:Ee.
  { injection E as <- <-. split_and!; [done|reflexivity|done|]. intros _ _. by rewrite empty_scan. }
  cbv zeta in E. set (rl := (λ n, (n + size (mt_writes tx))%nat) <$> limit) in *.
  set (rd := mkRange _ _ _ _ _) in E. injection E as Hx <-. split_and!.
  - split; [apply Hob|]. cbn. intros s [Hs| ->%list_elem_of_singleton]%elem_of_app; [by apply Hob|]. by exists i.
  - split; [done|]. cbn. intros s Hs. apply elem_of_app. by left.
  - done.
  - intros Hv Hla. subst x.
    assert (rd ∈ mt_scans tx') as Hrd by (apply (la_scan _ _ Hla); cbn; apply elem_of_app; right; left).
    pose proof (valid_scan tx' Hv rd Hrd) as Hver. cbn in Hver.
    assert ((λ x, (x.1, x.2.2)) <$> range (shared i) kind start end_ rl =
      limited rl (rows_of (plain final) kind start end_)) as ->.
    { change (limited rl (rows_of (plain final) kind start end_)) with (scan_rows (plain final) kind start end_ rl).
      rewrite <- range_plain. eapply (versions_plain (shared i) final kind); [done| | |done].
      - intros id y. apply elem_of_range.
      - intros id y. apply elem_of_range. }
    apply merged_scan. intros E0. unfold empty_range in Ee. by rewrite bool_decide_true in Ee.
Qed.

Lemma later_trans tx1 tx2 tx3 : later tx1 tx2 → later tx2 tx3 → later tx1 tx3.
Proof. intros H1 H2. by etrans. Qed.
Lemma write_view i tx k v tx1 :
  mem_write (shared i) tx k v = tx1 → observed tx →
  observed tx1 ∧ later tx tx1 ∧
  view tx1 = match v with Some c => <[k := c]> (view tx) | None => delete k (view tx) end.
Proof.
  unfold mem_write. intros <- Hob. destruct (mem_get (shared i) tx k) as [y t] eqn:E.
  destruct (get_sim i tx k y t t E Hob) as (Ho & Hl & Hw & _). cbn [snd]. split_and!.
  - split; apply Ho.
  - split; apply Hl.
  - unfold view. cbn. rewrite Hw. apply overlay_insert.
Qed.
Lemma exec_sim {A} read_only (p : prog A) i tx a tx' :
  mem_exec read_only shared i p tx = Ok (a, tx') → observed tx →
  observed tx' ∧ later tx tx' ∧
  (valid final tx' = true → exec p (view tx) = Ok (a, view tx')).
Proof.
  revert i tx. induction p as [b|e|o k IH]; intros i tx E Hob; cbn in E.
  { injection E as <- <-. split_and!; [done|reflexivity|done]. }
  { done. }
  destruct o as [kind id|kind start end_ limit|kind id c|kind id]; cbn in E.
  - destruct (mem_get (shared i) tx (kind, id)) as [x t] eqn:Eg. cbn in E.
    destruct (get_sim i tx (kind, id) x t tx' Eg Hob) as (Ho & Hl & Hw & Hx).
    destruct (IH x (S i) t E Ho) as (Ho' & Hl' & Hex). split_and!; [done|by eapply later_trans|].
    intros Hv. cbn. rewrite <- (Hx Ho' Hv Hl'). rewrite <- (Hex Hv). unfold view. by rewrite Hw.
  - destruct (mem_scan (shared i) tx kind start end_ limit) as [x t] eqn:Eg. cbn in E.
    destruct (scan_sim i tx kind start end_ limit x t tx' Eg Hob) as (Ho & Hl & Hw & Hx).
    destruct (IH x (S i) t E Ho) as (Ho' & Hl' & Hex). split_and!; [done|by eapply later_trans|].
    intros Hv. cbn. rewrite <- (Hx Hv Hl'). rewrite <- (Hex Hv). unfold view. by rewrite Hw.
  - destruct read_only; [done|]. cbn in E.
    destruct (write_view i tx (kind, id) (Some c) _ eq_refl Hob) as (Ho & Hl & Hw).
    destruct (IH tt (S i) _ E Ho) as (Ho' & Hl' & Hex). split_and!; [done|by eapply later_trans|].
    intros Hv. cbn. rewrite <- (Hex Hv). by rewrite Hw.
  - destruct read_only; [done|]. cbn in E.
    destruct (write_view i tx (kind, id) None _ eq_refl Hob) as (Ho & Hl & Hw).
    destruct (IH tt (S i) _ E Ho) as (Ho' & Hl' & Hex). split_and!; [done|by eapply later_trans|].
    intros Hv. cbn. rewrite <- (Hex Hv). by rewrite Hw.
Qed.
End simulation.

(** ** Commits *)

Section commits.
Context {V : Type} `{EqDecision V} (uuid : nat → V).

Lemma write_rows_plain (l : list (Key * option cell)) (st : Versioned V * nat) :
  NoDup l.*1 →
  plain (foldl (write_row uuid) st l).1 = overlay (plain st.1) (list_to_map l).
Proof.
  revert st. induction l as [|[k v] l IH]; intros st HN; cbn [foldl].
  - apply map_eq. intros k. cbn [list_to_map foldr]. by rewrite overlay_lookup, lookup_empty.
  - apply NoDup_cons in HN as [Hx HN]. rewrite IH by done. apply map_eq. intros k'.
    rewrite !overlay_lookup. cbn [list_to_map foldr uncurry fst snd].
    destruct (decide (k = k')) as [<-|Hk].
    + rewrite lookup_insert_eq, (not_elem_of_list_to_map_1 _ _ Hx). unfold plain, write_row.
      destruct v; cbn; rewrite lookup_fmap; by rewrite ?lookup_insert_eq, ?lookup_delete_eq.
    + rewrite lookup_insert_ne by done. destruct (list_to_map l !! k'); [done|].
      unfold plain, write_row. destruct v; cbn; rewrite !lookup_fmap;
        by rewrite ?lookup_insert_ne, ?lookup_delete_ne.
Qed.
Lemma commit_plain (st st' : Versioned V * nat) tx :
  commit uuid st tx = Ok st' → valid st.1 tx = true ∧ plain st'.1 = overlay (plain st.1) (mt_writes tx).
Proof.
  unfold commit. destruct (valid st.1 tx); [|done]. intros [= <-]. split; [done|].
  rewrite write_rows_plain by apply NoDup_fst_map_to_list. by rewrite list_to_map_to_list.
Qed.

(** One commit of some transaction, and the store's state after any number. *)
Definition mem_commit (st st' : Versioned V * nat) : Prop := ∃ tx, commit uuid st tx = Ok st'.
Definition issued (st : Versioned V * nat) : Prop :=
  ∀ k v c, (st.1) !! k = Some (v, c) → ∃ i, (i < st.2)%nat ∧ v = uuid i.
(** The rows of a later state are those of an earlier one or have newer versions. *)
Definition renewed (st st' : Versioned V * nat) : Prop :=
  (st.2 ≤ st'.2)%nat ∧
  ∀ k v c, (st'.1) !! k = Some (v, c) →
    (∃ i, (st.2 ≤ i < st'.2)%nat ∧ v = uuid i) ∨ (st.1) !! k = Some (v, c).
#[local] Instance renewed_preorder : PreOrder renewed.
Proof.
  split.
  - intros st. split; [done|]. intros k v c. by right.
  - intros s1 s2 s3 [N1 H1] [N2 H2]. split; [lia|]. intros k v c Hk.
    destruct (H2 k v c Hk) as [(i & Hi & ->)|Hk2]; [left; exists i; split; [lia|done]|].
    destruct (H1 k v c Hk2) as [(i & Hi & ->)|Hk1]; [left; exists i; split; [lia|done]|by right].
Qed.
Lemma write_row_renewed st x : renewed st (write_row uuid st x).
Proof.
  destruct x as [k [c|]]; unfold write_row; cbn; (split; [cbn; lia|]); cbn; intros k' v c' Hk.
  - destruct (decide (k = k')) as [<-|Hne].
    + rewrite lookup_insert_eq in Hk. injection Hk as <- <-. left. exists st.2. split; [lia|done].
    + rewrite lookup_insert_ne in Hk by done. by right.
  - destruct (decide (k = k')) as [<-|Hne]; [by rewrite lookup_delete_eq in Hk|].
    rewrite lookup_delete_ne in Hk by done. by right.
Qed.
Lemma commit_renewed st st' : rtc mem_commit st st' → renewed st st'.
Proof.
  induction 1 as [st|s1 s2 s3 [tx H1] _ IH]; [reflexivity|]. etrans; [|done].
  unfold commit in H1. destruct (valid _ _); [|done]. injection H1 as <-.
  generalize (map_to_list (mt_writes tx)). intros l. revert s1 IH.
  clear. intros s1 _. revert s1. induction l as [|x l IH]; intros s1; cbn; [reflexivity|].
  etrans; [apply write_row_renewed|apply IH].
Qed.
Lemma commits_coherent st st' :
  Inj (=) (=) uuid → rtc mem_commit (∅, O) st → rtc mem_commit st st' → coherent st.1 st'.1.
Proof.
  intros Hinj Hi%commit_renewed Hs%commit_renewed k v c c' H1 H2.
  destruct (proj2 Hs k v c' H2) as [(j & Hj & ->)|H3]; [|congruence].
  destruct (proj2 Hi k _ c H1) as [(i & Hij & E)|H3]; [|cbn in H3; by rewrite lookup_empty in H3].
  apply Hinj in E. lia.
Qed.
End commits.

Definition from_ok {E A} (d : A) (r : result E A) : A := match r with Ok a => a | Err _ => d end.
Lemma from_ok_eq {E A} (d : A) (r : result E A) : is_ok r = true → r = Ok (from_ok d r).
Proof. by destruct r. Qed.
(** An admission run over an empty memory store, and the state it commits. *)
Definition demo_tx : MemoryTx nat :=
  (from_ok (Ok true, begin) (mem_exec false (λ _, ∅) 0 (admit_tx parent_a 1000) begin)).2.
Definition demo_state : Versioned nat * nat :=
  from_ok (∅, O) (commit id (∅, O) demo_tx).

(** C6: the memory backend is serializable: if the commit of a transaction
    succeeds at the shared state [st], its answer and the rows it leaves are those
    of one atomic execution of its program on the rows of [st], whatever other
    transactions committed between its operations (its [i]-th operation found the
    state [h i]). *)
Theorem mem_serializable {V} `{EqDecision V} (uuid : nat → V) {A} (p : prog A) read_only
    (h : nat → Versioned V * nat) st st' a tx :
  Inj (=) (=) uuid →
  (∀ i, rtc (mem_commit uuid) (∅, O) (h i)) → (∀ i, rtc (mem_commit uuid) (h i) st) →
  mem_exec read_only (λ i, (h i).1) 0 p begin = Ok (a, tx) → commit uuid st tx = Ok st' →
  exec p (plain st.1) = Ok (a, plain st'.1).
Proof.
  intros Hinj Hh Hst Hex Hc. apply commit_plain in Hc as [Hv Hp].
  destruct (exec_sim (λ i, (h i).1) st.1 (λ i, commits_coherent _ _ _ Hinj (Hh i) (Hst i))
    read_only p 0 begin a tx Hex) as (_ & _ & Hsim).
  { split; [intros k o; cbn; by rewrite lookup_empty|]. by intros s ?%elem_of_nil. }
  rewrite Hp. etrans; [|by apply Hsim]. f_equal. unfold view. apply map_eq. intros k.
  by rewrite overlay_lookup.
Qed.
Lemma mem_serializable_witness :
  exec (admit_tx parent_a 1000) (plain (∅ : Versioned nat)) = Ok (Ok true, plain demo_state.1).
Proof.
  apply (mem_serializable id (admit_tx parent_a 1000) false (λ _, (∅, O)) (∅, O) demo_state (Ok true) demo_tx).
  - intros x y E. exact E.
  - intros _. apply rtc_refl.
  - intros _. apply rtc_refl.
  - vm_compute. reflexivity.
  - apply from_ok_eq. vm_compute. reflexivity.
Defined.

(** A read-only handle refuses every transaction that writes: a program
    whose execution over it succeeds has buffered no write. *)
Theorem read_only_writes_nothing {V} `{EqDecision V} {A} (p : prog A) (shared : nat → Versioned V) i a tx tx' :
  mem_exec true shared i p tx = Ok (a, tx') → mt_writes tx' = mt_writes tx.
Proof.
  revert i tx. induction p as [b|e|o k IH]; intros i tx E; cbn in E; [by injection E as -> ->|done|].
  destruct o as [kind id|kind start end_ limit|kind id c|kind id]; cbn in E; try done.
  - destruct (mem_get (shared i) tx (kind, id)) as [x t] eqn:Eg. cbn in E. apply IH in E. rewrite E.
    unfold mem_get in Eg. destruct (mt_writes tx !! _); [by injection Eg as <- <-|].
    by destruct (mt_reads tx !! _); injection Eg as <- <-.
  - destruct (mem_scan (shared i) tx kind start end_ limit) as [x t] eqn:Eg. cbn in E. apply IH in E.
    rewrite E. unfold mem_scan in Eg. by destruct (empty_range _ _ _); injection Eg as <- <-.
Qed.
Lemma read_only_writes_nothing_witness :
  mt_writes (mem_get ∅ (begin : MemoryTx nat) ("control", "stopped")).2 = mt_writes (begin : MemoryTx nat).
Proof.
  apply (read_only_writes_nothing stopped_tx (λ _, ∅) 0 false). vm_compute. reflexivity.
Defined.
