(* ===== verification/DueSpec.v ===== *)
(** * Claims and due runs

    Who gets a run, when a claim is refused, and the runs a worker is told are due:
    [due_as] tells a worker which runs to claim. [claimable_runs] is the reference:
    every stored run a claim of that worker would take, earliest first. The scans
    of the due index compute its first [limit] runs, also when a worker's version
    makes them one scan per version, merged. *)
From S2P Require Import Prelude Json Keys Outcome Journal Listen Types Store Index Admit Mailbox.
From S2P Require Import Triggers Lifecycle Control RunStore Logic Ordered Rows Steps Preserve Terminate.
From S2P Require Import Operations History Samples.

(** ** Claims *)

Lemma exec_claim_run s now owner r : r_generation (s_run s) + 1 ≤ u64_max →
  exec (claim_run s now owner) r =
    Ok ((claimed s now owner (r_generation (s_run s) + 1),
         mkFence (run_id s) owner (r_generation (s_run s) + 1)), r).
Proof.
  intros Hg. unfold claim_run, checked_addu64. by rewrite decide_True.
Qed.
Lemma claimable_live s now : row_ok s → claimable (s_run s) now = true → r_ended_ms (s_run s) = None.
Proof.
  intros Hok Hc. destruct (r_ended_ms (s_run s)) eqn:E; [|done]. exfalso.
  destruct (ok_ended s Hok) as ((o & _ & _ & Hst) & _); [by rewrite E|].
  unfold claimable in Hc. rewrite Hst in Hc. case_decide; [done|]. by destruct o.
Qed.

Section with_host.
Context `{Host}.
Variable policy : Policy.

(** A claim hands the run over: of a stored claimable run that the worker's
    version admits it answers the next generation's fence, leaves the run
    running under it with a fresh lease, the new owner may act at once, and the
    fence before it no longer acts. *)
Theorem claim_takes_over r id s owner now worker :
  reachable policy r → exec is_stopped r = Ok (false, r) →
  r !! ("run", id) = Some (CRun s) → claimable (s_run s) now = true →
  admits worker (application_version (r_admission (s_run s))) = true →
  r_generation (s_run s) < u64_max → is_i64 now → is_i64 (now + LEASE_MS) → 0 ≤ skew_ms policy < LEASE_MS →
  ∃ r' s', let f := mkFence id owner (r_generation (s_run s) + 1) in
    exec (claim_as_tx owner id now worker) r = Ok (Some f, r') ∧
    r' !! ("run", id) = Some (CRun s') ∧
    r_state (s_run s') = SRunning ∧ r_lease_until_ms (s_run s') = Some (now + LEASE_MS) ∧
    exec (authority f now (skew_ms policy)) r' = Ok (s', r') ∧
    (∀ g, r_fence (s_run s) = Some g → ∃ e, exec (authority g now (skew_ms policy)) r' = Err e).
Proof.
  intros Hr%reachable_Inv Hstop Hs Hc Ha Hg Hn Hl Hsk.
  assert (run_id s = id) as Hid by (by apply (stored_id r Hr)).
  pose proof (stored_ok r Hr _ _ Hs) as Hok.
  set (s' := claimed s now owner (r_generation (s_run s) + 1)).
  assert (stageable r s') as Hst.
  { unfold stageable. change (run_id s') with (run_id s). rewrite Hid, Hs. exists s. split; [done|].
    apply claimed_advance; [by eapply claimable_live|done|lia]. }
  destruct (exec_store_run r Hr s' Hst) as (r' & E & Hr').
  pose proof (restored_self r r' s' Hr') as Hself. change (run_id s') with (run_id s) in Hself.
  rewrite Hid in Hself. exists r', s'. cbv zeta. split_and!; [|done|done| | |].
  - unfold claim_as_tx. rewrite exec_bind, Hstop, exec_bind, exec_find_run, Hs by done.
    rewrite Hc, Ha. cbn [negb orb]. rewrite exec_bind, exec_claim_run by lia. rewrite exec_bind. cbn [fst snd].
    unfold s' in E. by rewrite E, Hid.
  - cbn. by rewrite sat_add64_exact.
  - assert (Inv r') as HI' by (by eapply restored_Inv).
    unfold authority, Index.run. rewrite !exec_bind, exec_find_run by done. cbn [f_run_id].
    unfold stored in Hself. rewrite Hself. cbn [some_or exec]. rewrite exec_bind.
    assert (owns s' (mkFence id owner (r_generation (s_run s) + 1)) now (skew_ms policy) = true) as ->; [|done].
    unfold owns. cbn. rewrite Hid, !bool_decide_true by done. cbn. apply bool_decide_true.
    rewrite (sat_add64_exact now LEASE_MS) by done.
    destruct Hn. unfold sat_add64, clamp. unfold LEASE_MS in *. lia.
  - intros g Hgf. assert (Inv r') as HI' by (by eapply restored_Inv).
    apply authority_fails; [done|]. intros t Ht.
    destruct (ok_fence s Hok g Hgf) as (Hgid & Hgen & _). rewrite Hgid, Hid in Ht.
    unfold stored in *. assert (t = s') as -> by congruence.
    apply not_true_iff_false. intros (_ & Hf & _)%owns_spec. cbn in Hf. injection Hf as <-.
    cbn in Hgen. lia.
Qed.
Lemma claim_refused_spec r id owner now worker s :
  Inv r → exec is_stopped r = Ok (false, r) → r !! ("run", id) = Some (CRun s) →
  claimable (s_run s) now = false ∨ admits worker (application_version (r_admission (s_run s))) = false →
  exec (claim_as_tx owner id now worker) r = Ok (None, r).
Proof.
  intros HI Hstop Hs Hc. unfold claim_as_tx. rewrite exec_bind, Hstop, exec_bind, exec_find_run, Hs by done.
  assert (negb (claimable (s_run s) now)
    || negb (admits worker (application_version (r_admission (s_run s)))) = true) as ->; [|done].
  destruct Hc as [-> | ->]; [done|apply orb_true_r].
Qed.

(** A stored run that is claimable and of an admitted version is handed over. *)
Lemma claim_granted r id s owner now worker :
  Inv r → exec is_stopped r = Ok (false, r) → r !! ("run", id) = Some (CRun s) →
  claimable (s_run s) now = true → admits worker (application_version (r_admission (s_run s))) = true →
  r_generation (s_run s) < u64_max →
  ∃ r', exec (claim_as_tx owner id now worker) r = Ok (Some (mkFence id owner (r_generation (s_run s) + 1)), r').
Proof.
  intros Hr Hstop Hs Hc Ha Hg. pose proof (stored_id r Hr _ _ Hs) as Hid. pose proof (stored_ok r Hr _ _ Hs) as Hok.
  set (s' := claimed s now owner (r_generation (s_run s) + 1)).
  assert (stageable r s') as Hst.
  { unfold stageable. change (run_id s') with (run_id s). rewrite Hid, Hs. exists s. split; [done|].
    apply claimed_advance; [by eapply claimable_live|done|lia]. }
  destruct (exec_store_run r Hr s' Hst) as (r' & E & _). exists r'.
  unfold claim_as_tx. rewrite exec_bind, Hstop, exec_bind, exec_find_run, Hs by done.
  rewrite Hc, Ha. cbn [negb orb]. rewrite exec_bind, exec_claim_run by lia. rewrite exec_bind. cbn [fst snd].
  unfold s' in E. by rewrite E, Hid.
Qed.
(** A claim of a run that is held, not due, leased, ended, or of an
    application version the worker does not admit, answers nothing and changes
    nothing; so does any claim while the store is stopped. *)
Theorem claim_refused r id s owner now worker :
  reachable policy r → r !! ("run", id) = Some (CRun s) →
  exec is_stopped r = Ok (true, r) ∨
  (exec is_stopped r = Ok (false, r) ∧
   (is_Some (r_held (s_run s)) ∨ is_Some (r_ended_ms (s_run s)) ∨
    (r_state (s_run s) ≠ SRunning ∧ now < r_wake_at_ms (s_run s)) ∨
    (∃ until, r_state (s_run s) = SRunning ∧ r_lease_until_ms (s_run s) = Some until ∧ now < until) ∨
    (∃ v own, application_version (r_admission (s_run s)) = Some v ∧ c_version worker = Some own ∧
       v ≠ own ∧ v ∉ c_accepts worker))) →
  exec (claim_as_tx owner id now worker) r = Ok (None, r).
Proof.
  intros Hr%reachable_Inv Hs [Hstop|[Hstop Hc]].
  { unfold claim_as_tx. by rewrite exec_bind, Hstop. }
  apply (claim_refused_spec r id owner now worker s); [done..|].
  destruct Hc as [Hh|[He|[[Hst Hw]|[(u & Hst & Hu & Hlt)|(v & own & Hv & Hown & Hne & Hna)]]]].
  - left. unfold claimable. by rewrite decide_True.
  - left. apply not_true_iff_false. intros Hcl.
    rewrite (claimable_live s now (stored_ok r Hr _ _ Hs) Hcl) in He. by destruct He.
  - left. unfold claimable. case_decide; [done|].
    destruct (r_state (s_run s)); try done; apply bool_decide_eq_false; lia.
  - left. unfold claimable. case_decide; [done|]. rewrite Hst, Hu. cbn. apply bool_decide_eq_false. lia.
  - right. unfold admits. rewrite Hv, Hown. apply orb_false_iff. split; [by apply bool_decide_eq_false|].
    apply not_true_iff_false. intros (x & Hx%list_elem_of_In & ->%bool_decide_eq_true)%existsb_exists. done.
Qed.
End with_host.

(** ** Witnesses *)

Lemma claim_takes_over_witness : ∃ r' s', let f := mkFence "p" "w2" 2 in
  exec (claim_as_tx "w2" "p" 1600 default_compatibility) rows_released = Ok (Some f, r') ∧
  r' !! ("run", "p") = Some (CRun s') ∧
  r_state (s_run s') = SRunning ∧ r_lease_until_ms (s_run s') = Some (1600 + LEASE_MS) ∧
  exec (authority f 1600 (skew_ms P)) r' = Ok (s', r') ∧
  (∀ g, r_fence (s_run (run_at rows_released "p")) = Some g →
     ∃ e, exec (authority g 1600 (skew_ms P)) r' = Err e).
Proof.
  apply (claim_takes_over P rows_released "p" (run_at rows_released "p") "w2" 1600 default_compatibility).
  - apply reachable_released.
  - apply exec_is_stopped. vm_compute. reflexivity.
  - vm_compute. reflexivity.
  - vm_compute. reflexivity.
  - reflexivity.
  - vm_compute. reflexivity.
  - unfold is_i64, i64_min, i64_max. lia.
  - unfold is_i64, i64_min, i64_max, LEASE_MS. lia.
  - unfold LEASE_MS. cbn. unfold CLOCK_SKEW_MS. lia.
Defined.
Lemma claim_refused_witness :
  exec (claim_as_tx "w2" "p" 30000 default_compatibility) rows_called = Ok (None, rows_called).
Proof.
  apply (claim_refused P rows_called "p" (run_at rows_called "p")).
  - apply reachable_called.
  - vm_compute. reflexivity.
  - right. split; [apply exec_is_stopped; vm_compute; reflexivity|]. do 3 right. left. exists 31000.
    split_and!; [vm_compute; reflexivity|vm_compute; reflexivity|lia].
Defined.

(** ** Due runs *)

#[local] Arguments timed : simpl never.
#[local] Arguments partition : simpl never.

(** The runs due at [now] whose application version passes [pass], with their instants,
    earliest first and then by id. *)
Definition due_run (now : Z) (pass : option string → bool) (x : Key * cell) : option (string * string) :=
  match x with
  | ((kind, _), CRun s) =>
      if bool_decide (kind = "run") && claimable (s_run s) now
         && pass (application_version (r_admission (s_run s)))
      then at_ ← due_at s; Some (timed at_ (run_id s), run_id s)
      else None
  | _ => None
  end.
Definition due_runs (r : rows) (now : Z) (pass : option string → bool) : list (string * string) :=
  merge_sort key_le (omap (due_run now pass) (map_to_list r)).
(** The runs a claim at [now] takes for a worker. *)
Definition claimable_runs (r : rows) (now : Z) (worker : Compatibility) : list (string * string) :=
  due_runs r now (admits worker).
(** The versions a worker is told of: the ones it admits, and the empty one. *)
Definition told (worker : Compatibility) (v : option string) : bool :=
  admits worker v || bool_decide (v = Some "").

(** The instants of the rows are machine integers. *)
Definition instants_fit (r : rows) : Prop :=
  ∀ id s at_, stored r id s → due_at s = Some at_ → is_i64 at_.
Definition no_drain (r : rows) : Prop := ∀ k, r !! ("control_drain", k) = None.

(** ** The reference *)

Lemma claimable_due s now : row_ok s →
  claimable (s_run s) now = true ↔ r_ended_ms (s_run s) = None ∧ ∃ at_, due_at s = Some at_ ∧ at_ ≤ now.
Proof.
  intros Hok. split.
  - intros Hc. split; [by eapply claimable_live|]. unfold claimable, due_at in *.
    case_decide; [done|]. destruct (r_state (s_run s)) eqn:E; try done.
    + exists (r_wake_at_ms (s_run s)). split; [done|]. by apply bool_decide_eq_true in Hc.
    + destruct (r_lease_until_ms (s_run s)) as [u|]; [|done]. exists u. split; [done|].
      by apply bool_decide_eq_true in Hc.
    + exists (r_wake_at_ms (s_run s)). split; [done|]. by apply bool_decide_eq_true in Hc.
  - intros (Hn & at_ & Hd & Hle). destruct (ok_live s Hok Hn) as [_ Hst].
    unfold claimable, due_at in *. case_decide; [done|].
    destruct (r_state (s_run s)); try done.
    + injection Hd as <-. by apply bool_decide_true.
    + change (r_lease_until_ms (s_run s) = Some at_) in Hd. rewrite Hd. by apply bool_decide_true.
    + injection Hd as <-. by apply bool_decide_true.
Qed.

Lemma due_run_key now pass k i c x : due_run now pass ((k, i), c) = Some x →
  k = "run" ∧ ∃ s at_, c = CRun s ∧ x = (timed at_ (run_id s), run_id s).
Proof.
  destruct c as [t| | | | | | | | | | | |]; try done. cbn. intros Hx. destruct (decide (k = "run")) as [->|]; [|by rewrite bool_decide_false in Hx].
  split; [done|]. destruct (_ && _); [|done]. destruct (due_at t) as [at_|]; [|done]. injection Hx as <-.
  by exists t, at_.
Qed.
Section reference.
Context (r : rows) (HI : Inv r) (now : Z) (pass : option string → bool).

Lemma elem_of_due_runs k id : (k, id) ∈ due_runs r now pass ↔
  ∃ s at_, stored r id s ∧ r_ended_ms (s_run s) = None ∧ due_at s = Some at_ ∧ at_ ≤ now ∧
    pass (application_version (r_admission (s_run s))) = true ∧ k = timed at_ id.
Proof.
  unfold due_runs. rewrite elem_of_sort, list_elem_of_omap. split.
  - intros ([[kind i] c] & Hin%elem_of_map_to_list & Hc).
    destruct (due_run_key _ _ _ _ _ _ Hc) as (-> & s & at_ & -> & [= -> ->]).
    cbn in Hc. destruct (claimable _ _) eqn:Ec; [|done]. destruct (pass _) eqn:Ea; [|done].
    destruct (due_at s) as [at'|] eqn:Ed; [|done].
    apply (f_equal (λ o, match o with Some x => x.1 | None => "" end)) in Hc. cbn in Hc.
    pose proof (stored_self r HI _ _ Hin) as Hs. pose proof (stored_ok r HI _ _ Hin) as Hok.
    apply (claimable_due s now Hok) in Ec as (Hn & at'' & Hat & Hle).
    assert (at'' = at') as -> by congruence. exists s, at'. split_and!; try done.
  - intros (s & at_ & Hs & Hn & Hd & Hle & Ha & ->). exists (("run", id), CRun s).
    split; [by apply elem_of_map_to_list|]. cbn [due_run]. rewrite bool_decide_true by done.
    rewrite (proj2 (claimable_due s now (stored_ok r HI _ _ Hs))) by eauto. rewrite Ha, Hd. cbn.
    by rewrite (stored_id r HI _ _ Hs).
Qed.
Lemma due_runs_NoDup : NoDup (due_runs r now pass).*1.
Proof.
  apply sort_NoDup, NoDup_omap_keys; [apply NoDup_map_to_list|].
  intros [[k i] c] [[k' i'] c'] x y Hk%elem_of_map_to_list Hk'%elem_of_map_to_list Hx Hy Hxy.
  destruct (due_run_key _ _ _ _ _ _ Hx) as (-> & s & at_ & -> & ->).
  destruct (due_run_key _ _ _ _ _ _ Hy) as (-> & s' & at' & -> & ->). cbn in *.
  apply timed_inj in Hxy as [_ Hid].
  pose proof (stored_id r HI _ _ Hk) as <-. pose proof (stored_id r HI _ _ Hk') as <-.
  rewrite Hid in *. congruence.
Qed.
End reference.

(** ** The due index *)

Definition due_kind (kind : string) (s : StoredRun) : Prop :=
  kind = "due" ∨ kind = partition "due_app" (default "" (application_version (r_admission (s_run s)))).
Lemma due_row_in r kind k c : Inv r → family kind ∈ ["due"; "due_app"] → r !! (kind, k) = Some c →
  ∃ s at_, stored r (run_id s) s ∧ r_ended_ms (s_run s) = None ∧ due_at s = Some at_ ∧ due_kind kind s ∧
    k = timed at_ (run_id s) ∧ c = to_cell (run_id s).
Proof.
  intros HI Hf Hc. apply (inv_index r HI) in Hc as (s & Hs & Hx).
  2: { cbn [fst]. unfold indexed. rewrite !elem_of_cons, elem_of_nil in Hf. by destruct Hf as [->|[->|[]]]. }
  apply indexes_rows, index_rows_family in Hx; cbn [fst] in *.
  2: { rewrite !elem_of_cons, elem_of_nil in *. tauto. }
  assert ((kind, k, c) ∈ match r_ended_ms (s_run s) with None => due_rows s | Some _ => [] end) as Hd.
  { rewrite !elem_of_cons, elem_of_nil in Hf. unfold family_rows in Hx. destruct (r_ended_ms _).
    - destruct Hf as [Hf|[Hf|[]]]; by rewrite Hf in Hx.
    - destruct Hf as [Hf|[Hf|[]]]; by rewrite Hf in Hx. }
  destruct (r_ended_ms (s_run s)) eqn:En; [by apply elem_of_nil in Hd|]. unfold due_rows in Hd.
  destruct (due_at s) as [at_|] eqn:Ed; [|by apply elem_of_nil in Hd]. exists s, at_.
  rewrite !elem_of_cons, elem_of_nil in Hd.
  destruct Hd as [[= -> -> ->]|[[= -> -> ->]|[]]]; split_and!; try done; [by left|by right].
Qed.
Lemma due_row_of r kind s at_ : Inv r → stored r (run_id s) s → r_ended_ms (s_run s) = None →
  due_at s = Some at_ → due_kind kind s →
  r !! (kind, timed at_ (run_id s)) = Some (to_cell (run_id s)).
Proof.
  intros HI Hs Hn Hd Hk.
  assert (((kind, timed at_ (run_id s)), to_cell (run_id s)) ∈ index_rows s) as Hin.
  { unfold index_rows. rewrite Hn. do 5 (apply elem_of_app; right). unfold live_rows.
    do 2 (apply elem_of_app; right). apply elem_of_app. left. unfold due_rows. rewrite Hd.
    destruct Hk as [-> | ->]; [left|right; left]. }
  destruct (rows_indexes _ _ _ Hin) as [c Hc]. pose proof (indexes_indexed _ _ _ Hc) as Hix.
  assert (r !! (kind, timed at_ (run_id s)) = Some c) as Hr.
  { apply (inv_index r HI); [done|]. by exists s. }
  destruct (due_row_in r kind (timed at_ (run_id s)) c HI) as (t & at' & _ & _ & _ & _ & Ht & ->); [|done|].
  - destruct Hk as [-> | ->]; [left|right]. rewrite family_partition by done. left.
  - rewrite Hr. apply timed_inj in Ht as [_ ->]. done.
Qed.

Definition due_of (x : string * cell) : string * string := (x.1, default "" (index_id x.2)).
Definition due_list (r : rows) (now : Z) (kind : string) : list (string * string) :=
  due_of <$> rows_of r kind "" (Some (until now)).
Lemma exec_due_ids found r : (∀ x, x ∈ found → is_Some (index_id x.2)) →
  exec (due_ids found) r = Ok (due_of <$> found, r).
Proof.
  intros Hf. induction found as [|x l IH]; [done|]. unfold due_ids in *. cbn [map_each].
  destruct (Hf x (list_elem_of_here _ _)) as [i Hi].
  rewrite exec_bind, exec_bind, Hi. cbn [some_or exec].
  unfold mret at 1, prog_ret at 1. cbn [exec]. rewrite exec_bind, IH; [|intros y Hy; apply Hf; by right].
  unfold due_of at 2. cbn. by rewrite Hi.
Qed.
Lemma due_of_sorted l : StronglySorted key_le l → StronglySorted key_le (due_of <$> l).
Proof.
  induction 1 as [|x l Hs IH Hx]; [constructor|]. rewrite fmap_cons. constructor; [done|].
  rewrite Forall_fmap. exact Hx.
Qed.
Lemma due_list_keys r now kind : (due_list r now kind).*1 = (rows_of r kind "" (Some (until now))).*1.
Proof. unfold due_list. rewrite <- list_fmap_compose. done. Qed.
Lemma due_list_NoDup r now kind : NoDup (due_list r now kind).*1.
Proof. rewrite due_list_keys. apply rows_of_NoDup. Qed.

Section index.
Context (r : rows) (HI : Inv r) (now : Z) (Hnow : is_i64 now) (Hfit : instants_fit r).

Lemma elem_of_due_list kind k id : family kind ∈ ["due"; "due_app"] →
  (k, id) ∈ due_list r now kind ↔ ∃ s at_, stored r id s ∧ r_ended_ms (s_run s) = None ∧
    due_at s = Some at_ ∧ due_kind kind s ∧ at_ ≤ now ∧ k = timed at_ id.
Proof.
  intros Hf. unfold due_list. rewrite list_elem_of_fmap. split.
  - intros ([k' c] & Hk & [Hc Hr]%elem_of_rows_of). unfold due_of in Hk. cbn [fst snd] in Hk.
    injection Hk as -> ->. destruct (due_row_in r kind k' c HI Hf Hc) as (s & at_ & Hs & Hn & Hd & Hkd & -> & ->).
    cbn [index_id to_cell row_string default]. exists s, at_. split_and!; try done.
    unfold in_range in Hr. rewrite str_leb_nil in Hr. cbn [andb is_none_or] in Hr.
    rewrite timed_before_until in Hr by eauto. by apply bool_decide_eq_true in Hr.
  - intros (s & at_ & Hs & Hn & Hd & Hkd & Hle & ->). pose proof (stored_id r HI _ _ Hs) as <-.
    exists (timed at_ (run_id s), to_cell (run_id s)). split; [done|]. apply elem_of_rows_of.
    split; [by eapply due_row_of|]. unfold in_range. rewrite str_leb_nil. cbn [andb is_none_or].
    rewrite timed_before_until by eauto. by apply bool_decide_true.
Qed.
Lemma exec_scan_due kind limit : family kind ∈ ["due"; "due_app"] →
  exec (due_ids (scan_rows r kind "" (Some (until now)) (Some limit))) r =
    Ok (take limit (due_list r now kind), r).
Proof.
  intros Hf. rewrite exec_due_ids.
  - unfold due_list, scan_rows. cbn [limited]. by rewrite fmap_take.
  - intros [k c] [Hc _]%elem_of_scan_rows. destruct (due_row_in r kind k c HI Hf Hc) as (s & _ & _ & _ & _ & _ & _ & ->).
    by eexists.
Qed.
Lemma exec_fold_due limit vs acc :
  exec (fold_each vs acc (λ due v,
    found ← scan (partition "due_app" v) "" (Some (until now)) (Some limit);
    ids ← due_ids found; mret (due ++ ids))) r =
  Ok (acc ++ concat (take limit <$> ((λ v, due_list r now (partition "due_app" v)) <$> vs)), r).
Proof.
  revert acc. induction vs as [|v vs IH]; intros acc; [by rewrite app_nil_r|]. cbn [fold_each].
  rewrite !exec_bind. cbn [exec scan exec_op]. rewrite exec_bind, exec_scan_due.
  - cbn [exec mret]. unfold mret, prog_ret. cbn [exec]. rewrite IH. cbn. by rewrite <- app_assoc.
  - rewrite family_partition by done. right. left.
Qed.
End index.

Lemma dedup_NoDup l : StronglySorted String.le l → NoDup (dedup l).
Proof.
  induction l as [|a [|b l] IH]; intros Hs; [constructor|by apply NoDup_singleton|].
  apply StronglySorted_cons in Hs as [Ha Hs]. change (NoDup (if decide (a = b) then dedup (b :: l) else a :: dedup (b :: l))).
  case_decide as Hab; [by apply IH|].
  constructor; [|by apply IH]. rewrite elem_of_dedup. intros Hin. apply Hab.
  apply StronglySorted_cons in Hs as [Hb _]. rewrite Forall_forall in Ha, Hb.
  apply (anti_symm String.le); [apply Ha; left|].
  apply elem_of_cons in Hin as [->|Hin]; [done|by apply Hb].
Qed.
(** The versions whose due partitions a worker reads. *)
Lemma told_versions worker own v : c_version worker = Some own →
  told worker v = true ↔ default "" v ∈ dedup (merge_sort String.le ("" :: own :: c_accepts worker)).
Proof.
  intros Hown. rewrite elem_of_dedup, merge_sort_Permutation, !elem_of_cons. unfold told, admits.
  destruct v as [v|]; [|by split; [left|]]. rewrite Hown. cbn.
  rewrite !orb_true_iff, !bool_decide_eq_true, existsb_exists. split.
  - intros [[->|(x & Hx & <-%bool_decide_eq_true)]|[= ->]]; [auto| |by left]. right. right. by apply list_elem_of_In.
  - intros [->|[->|Hx]]; [by right|by left; left|]. left. right. exists v. split; [by apply list_elem_of_In|].
    by apply bool_decide_true.
Qed.
Lemma told_admits worker v : told worker v = true → admits worker v = true ∨ v = Some "".
Proof. unfold told. rewrite orb_true_iff, bool_decide_eq_true. tauto. Qed.
(** Runs that all pass, or all fail, two tests alike are listed alike. *)
Lemma due_runs_ext r now pass pass' :
  (∀ id s, r !! ("run", id) = Some (CRun s) →
     pass (application_version (r_admission (s_run s))) = pass' (application_version (r_admission (s_run s)))) →
  due_runs r now pass = due_runs r now pass'.
Proof.
  intros Hp. unfold due_runs. f_equal. assert (∀ l : list (Key * cell), (∀ x, x ∈ l → x ∈ map_to_list r) →
    omap (due_run now pass) l = omap (due_run now pass') l) as Ho; [|by apply Ho].
  intros l. induction l as [|[[k i] c] l IH]; intros Hl; [done|]. cbn [omap list_omap].
  rewrite IH by (intros y Hy; apply Hl; by right).
  assert (due_run now pass ((k, i), c) = due_run now pass' ((k, i), c)) as ->; [|done].
  destruct c as [s| | | | | | | | | | | |]; try done. cbn. destruct (decide (k = "run")) as [->|]; [|by rewrite bool_decide_false].
  by rewrite (Hp i s) by (apply elem_of_map_to_list, Hl; left).
Qed.

Section with_host.
Context `{Host}.
Variable policy : Policy.

(** What [due_as] answers and writes: the first [limit] due runs of the versions told. *)
Lemma due_as_lists_due r now limit worker :
  reachable policy r → exec is_stopped r = Ok (false, r) → no_drain r → is_i64 now → instants_fit r →
  exec (due_as_tx now limit worker) r = Ok (take limit (due_runs r now (told worker)).*2, r).
Proof.
  intros HI%reachable_Inv Hstop Hdrain Hnow Hfit. unfold due_as_tx.
  rewrite exec_bind, Hstop, exec_bind.
  assert (exec (drain_pending now limit) r = Ok ((), r)) as ->.
  { unfold drain_pending. rewrite exec_bind. cbn [exec scan exec_op].
    assert (scan_rows r "control_drain" "" None (Some limit) = []) as ->; [|done].
    apply elem_of_nil_inv. intros [k c] [Hc _]%elem_of_scan_rows. by rewrite Hdrain in Hc. }
  destruct (c_version worker) as [own|] eqn:Hown.
  - rewrite exec_bind, exec_fold_due by done. unfold mret, prog_ret. cbn [exec app].
    set (vs := dedup _). do 2 f_equal. rewrite <- !fmap_take. f_equal.
    assert (NoDup (concat ((λ v, due_list r now (partition "due_app" v)) <$> vs)).*1) as HN.
    { apply NoDup_concat_keys; [apply dedup_NoDup, StronglySorted_merge_sort; apply _|intros; apply due_list_NoDup|].
      intros v w [k i] [k' j] Hx Hy. cbn [fst]. intros <-.
      apply elem_of_due_list in Hx as (s & a & Hs & _ & _ & Hv & _ & ->); [|done..|by rewrite family_partition; [right; left|]].
      apply elem_of_due_list in Hy as (s' & a' & Hs' & _ & _ & Hw & _ & Hk); [|done..|by rewrite family_partition; [right; left|]].
      apply timed_inj in Hk as [_ ->]. unfold stored in *. assert (s' = s) as -> by congruence.
      destruct Hv as [Hv|Hv]; [done|]. destruct Hw as [Hw|Hw]; [done|].
      apply partition_inj in Hv, Hw; [congruence|done..]. }
    rewrite <- (app_nil_r (concat (take limit <$> _))), take_sort_concat, app_nil_r.
    + f_equal. apply keyed_unique; [apply sorted_sort..|by apply sort_NoDup|by apply due_runs_NoDup|].
      intros [k id]. rewrite elem_of_due_runs, elem_of_sort, list_elem_of_In, in_concat by done.
      setoid_rewrite <- list_elem_of_In. split.
      * intros (l & (v & -> & Hv)%list_elem_of_fmap & Hin).
        apply elem_of_due_list in Hin as (s & a & Hs & Hn & Hd & Hk & Hle & ->); [|done..|by rewrite family_partition; [right; left|]].
        exists s, a. split_and!; try done. apply (told_versions worker own); [done|].
        destruct Hk as [Hk|Hk]; [done|]. apply partition_inj in Hk; [|done]. by rewrite <- Hk.
      * intros (s & a & Hs & Hn & Hd & Hle & Ha & ->). eexists. split.
        { apply list_elem_of_fmap. eexists. split; [done|]. by eapply (told_versions worker own). }
        apply elem_of_due_list; [done..|by rewrite family_partition; [right; left|]|]. exists s, a.
        split_and!; try done. by right.
    + intros l (v & -> & _)%list_elem_of_fmap. apply due_of_sorted, rows_of_sorted.
    + by rewrite app_nil_r.
  - rewrite exec_bind. cbn [exec scan exec_op].
    rewrite exec_bind, exec_scan_due by (done || left). unfold mret, prog_ret. cbn [exec].
    do 2 f_equal. rewrite fmap_take. do 2 f_equal.
    apply keyed_unique; [apply due_of_sorted, rows_of_sorted|apply sorted_sort|apply due_list_NoDup|by apply due_runs_NoDup|].
    intros [k id]. rewrite elem_of_due_runs, elem_of_due_list by (done || left). split.
    + intros (s & a & Hs & Hn & Hd & _ & Hle & ->). exists s, a. split_and!; try done.
      unfold told, admits. rewrite Hown. by destruct (application_version _).
    + intros (s & a & Hs & Hn & Hd & Hle & _ & ->). exists s, a. split_and!; try done. by left.
Qed.
(** C14: what a worker is told is due: with nothing set aside to drain, [due_as] writes
    nothing and answers, earliest first, the first [limit] due runs whose application
    version the worker admits or is the empty one. Each of them is the worker's to claim,
    but a run of the empty version, which the claim may refuse; so in a store with no such
    run the answer is the first [limit] runs the worker could claim, for every limit and
    every worker version. *)
Theorem due_as_lists_claimable r now limit worker :
  reachable policy r → exec is_stopped r = Ok (false, r) → no_drain r → is_i64 now → instants_fit r →
  let listed := take limit (due_runs r now (told worker)).*2 in
  exec (due_as_tx now limit worker) r = Ok (listed, r) ∧
  (∀ id, id ∈ listed → ∃ s, r !! ("run", id) = Some (CRun s) ∧
     (application_version (r_admission (s_run s)) = Some "" ∨
      ∀ owner, r_generation (s_run s) < u64_max → ∃ r',
        exec (claim_as_tx owner id now worker) r =
          Ok (Some (mkFence id owner (r_generation (s_run s) + 1)), r'))) ∧
  ((∀ id s, r !! ("run", id) = Some (CRun s) → application_version (r_admission (s_run s)) ≠ Some "") →
     listed = take limit (claimable_runs r now worker).*2).
Proof.
  intros Hr Hstop Hdrain Hnow Hfit. cbv zeta. split; [by apply due_as_lists_due|].
  pose proof (reachable_Inv policy r Hr) as HI. split.
  - intros id (i0 & Hi & _)%elem_of_take. apply list_elem_of_lookup_2 in Hi as Hin.
    apply list_elem_of_fmap in Hin as ([k i] & -> & Hk). cbn [snd] in *.
    apply elem_of_due_runs in Hk as (s & at_ & Hs & Hn & Hd & Hle & Ht & _); [|done].
    exists s. split; [done|]. destruct (told_admits _ _ Ht) as [Ha|]; [right|by left]. intros owner Hg.
    apply claim_granted; try done. apply (claimable_due s now (stored_ok r HI _ _ Hs)). eauto.
  - intros Hb. unfold claimable_runs. do 2 f_equal. apply due_runs_ext. intros id s Hs. unfold told.
    rewrite (bool_decide_false (_ = Some "")) by by eapply Hb. apply orb_false_r.
Qed.
End with_host.

(** ** Witness *)

Lemma no_drain_rows r : rows_all r (λ k _, negb (str_eqb k.1 "control_drain")) = true → no_drain r.
Proof.
  intros Ha k. destruct (r !! ("control_drain", k)) as [c|] eqn:E; [|done].
  by apply (rows_all_spec _ _ _ _ Ha) in E.
Qed.
Lemma instants_fit_rows r : rows_all r (λ _ c, match c with
    CRun s => is_none_or (due_at s) (λ a, bool_decide (is_i64 a)) | _ => true end) = true → instants_fit r.
Proof.
  intros Ha id s a Hs Hd. apply (rows_all_spec _ _ _ _ Ha) in Hs. cbv beta iota in Hs. rewrite Hd in Hs.
  by apply bool_decide_eq_true in Hs.
Qed.
(** ** A blank application version

    A run that declares the empty application version shares the due partition of
    the runs that declare none: a worker of any version is told it is due, though
    it does not admit it and its claim answers nothing. *)
Definition blank_version_a : Admission :=
  mkAdmission "e" "flow" 1 "do" VNull (VObj {[APPLICATION_VERSION := VStr ""]}).
Definition rows_blank : rows := after (admit_tx blank_version_a 1000) rows_called.
Lemma blank_version_due_not_claimable :
  let worker := mkCompatibility (Some "v2") ["v1"] in
  admits worker (application_version blank_version_a) = false ∧
  fst <$> exec (due_as_tx 40000 5 worker) rows_blank = Ok ["e"; "p"] ∧
  fst <$> exec (claim_as_tx "w" "e" 40000 worker) rows_blank = Ok None.
Proof. vm_compute. split; [|split]; reflexivity. Qed.

Lemma due_as_lists_claimable_witness :
  let worker := mkCompatibility (Some "v2") ["v1"] in
  exec (due_as_tx 40000 5 worker) rows_blank =
    Ok (take 5 (due_runs rows_blank 40000 (told worker)).*2, rows_blank) ∧
  take 5 (due_runs rows_called 40000 (told worker)).*2 = take 5 (claimable_runs rows_called 40000 worker).*2.
Proof.
  cbv zeta. split.
  - apply (due_as_lists_claimable P).
    + apply reachable_after; [apply reachable_called|constructor].
    + apply exec_is_stopped. vm_compute. reflexivity.
    + apply no_drain_rows. vm_compute. reflexivity.
    + unfold is_i64, i64_min, i64_max. lia.
    + apply instants_fit_rows. vm_compute. reflexivity.
  - apply (due_as_lists_claimable P).
    + apply reachable_called.
    + apply exec_is_stopped. vm_compute. reflexivity.
    + apply no_drain_rows. vm_compute. reflexivity.
    + unfold is_i64, i64_min, i64_max. lia.
    + apply instants_fit_rows. vm_compute. reflexivity.
    + intros id s Hs. assert (rows_all rows_called (λ _ c, match c with
        CRun s => negb (bool_decide (application_version (r_admission (s_run s)) = Some "")) | _ => true end) = true)
        as Ha by (vm_compute; reflexivity).
      apply (rows_all_spec _ _ _ _ Ha), negb_true_iff, bool_decide_eq_false in Hs. exact Hs.
Defined.
