(* ===== verification/FinishSpec.v ===== *)
(** * The end of a drive

    [finish] releases a run with the outcome of its drive: it ends, waits, or is
    due again after a bounded backoff, and gives up after too many interruptions in
    a row. *)
From S2P Require Import Prelude Json Keys Outcome Journal Listen Types Store Index Admit Mailbox.
From S2P Require Import Triggers Lifecycle Control RunStore Logic Rows Steps Preserve Terminate Operations.
From S2P Require Import History Samples.

(** ** What a child tells its parent leaves its own row *)

Definition same_run (id : string) (r r' : rows) : Prop := r' !! ("run", id) = r !! ("run", id).
Lemma moves_same_run id r r' : moves r r' → same_run id r r'.
Proof. intros Hm. apply (mv_same _ _ Hm). by left. Qed.
Lemma wp_store_other r0 s id r : good r0 r → staged r s → run_id s ≠ id →
  wp (store_run s) (λ _ r', good r0 r' ∧ same_run id r r') r.
Proof.
  intros Hg Hs Hne. eapply wp_store_run; [done|done|]. intros r' Hg' _ Hr'. split; [done|].
  by eapply restored_other; [apply Hg|..].
Qed.
Lemma notify_other r0 parent t data now id r : good r0 r → parent ≠ id →
  wp (notify parent t data now) (λ _ r', same_run id r r') r.
Proof.
  intros Hg Hne. unfold notify. apply wp_bind. eapply wp_run; [done|]. intros s Hid Hs.
  case_decide as Hd; [by apply wp_ret|]. cbv zeta. apply wp_bind.
  assert (staged r s) as Hst by (eapply stored_staged; [apply Hg|done]).
  assert (∃ s1, s1 = (if wakes s t false then s <| s_run ::= λ r, r <| r_wake_at_ms := now |> |> else s) ∧
    staged r s1 ∧ run_id s1 = parent) as (s1 & <- & Hs1 & Hid1).
  { eexists. split; [done|]. destruct (wakes s t false); [|done]. split; [|done].
    eapply staged_advance; [apply Hg|done|].
    assert (r_ended_ms (s_run s) = None) by (destruct (r_ended_ms (s_run s)); [naive_solver|done]).
    advance_live. }
  eapply wp_threads; [apply push_threads|done|done|]. intros s' r1 Hg1 Hm1 Hs' Hc.
  eapply wp_mono; [apply (wp_store_other r0); [done|done|]|].
  - by rewrite (recounted_run_id _ _ Hc), Hid1.
  - intros _ r2 [_ H2]. unfold same_run in *. rewrite H2. by apply moves_same_run.
Qed.
Section with_host.
Context `{Host}.
Lemma lifecycle_other r0 id status now r : good r0 r → wp (lifecycle id status now) (λ _ r', same_run id r r') r.
Proof.
  intros Hg. unfold lifecycle. apply wp_bind. eapply wp_run; [done|]. intros s Hid Hs.
  destruct (r_child (s_run s)) as [link|] eqn:Hl; [|by apply wp_ret].
  destruct (lifecycle_notice status) as [[kind data]|]; [|by apply wp_ret]. cbv zeta.
  assert (l_parent link ≠ id) as Hne.
  { destruct (inv_forest r (proj1 Hg)) as [rank HF]. destruct (HF _ _ _ Hs Hl) as [_ Hlt]. intros E.
    rewrite E in Hlt. lia. }
  apply wp_bind, wp_reads; [solve_stable|]. intros told. destruct told; [by apply wp_ret|].
  apply wp_bind. eapply (wp_mono _ (λ _ r1, good r0 r1 ∧ same_run id r r1)).
  - case_decide; [|by apply wp_ret]. unfold close_waiting. apply wp_bind. eapply wp_run; [done|].
    intros p Hpid Hp. cbv zeta. case_decide as Hd; [|by apply wp_ret].
    apply wp_store_other; [done| |by rewrite close_run_id, Hpid].
    eapply staged_advance; [apply Hg|eapply stored_staged; [apply Hg|done]|]. apply advance_close.
    apply live_ended; [eapply stored_ok; [apply Hg|done]|]. left. intros Ha. rewrite Ha in Hd.
    rewrite lookup_empty in Hd. by destruct Hd as [[? ?] _].
  - intros _ r1 [Hg1 H1]. eapply wp_mono; [by apply (notify_other r0)|]. intros [] r2 H2. unfold same_run in *. congruence.
Qed.

(** ** The outcome's row *)

(** What an outcome makes of a running row: the row before the fence goes, and the
    status the drive ends with. *)
Definition finished_row (s : StoredRun) (outcome : Status) (now : Z) (x : StoredRun * Status) : Prop :=
  match outcome with
  | Waiting wake => x.2 = outcome ∧ (x.1 = driven s SWaiting wake 0 ∨ x.1 = driven s SWaiting now 0)
  | Interrupted e =>
      let n := sat_addu32 (r_interruptions (s_run s)) 1 in
      if decide (MAX_INTERRUPTIONS ≤ n)
      then x.2 = gave_up n e ∧ x.1 = driven s (r_state (s_run s)) (r_wake_at_ms (s_run s)) n
      else x.2 = outcome ∧ x.1 = driven s SReady (sat_add64 now (backoff n)) n
  | _ => x.2 = outcome ∧ x.1 = driven s (r_state (s_run s)) (r_wake_at_ms (s_run s)) 0
  end.
#[local] Hint Resolve stable_awaited_wanted stable_subscribed_wanted : stable.
Lemma wp_finished_row s outcome now r :
  wp (finish_row s outcome now) (λ x r', r' = r ∧ finished_row s outcome now x) r.
Proof.
  unfold finish_row, finished_row. destruct outcome as [o|e| |wake|e]; try by apply wp_ret.
  - cbv zeta. apply wp_bind, wp_reads; [unfold pending_wanted; solve_stable|]. intros hit.
    apply wp_ret. split; [done|]. split; [done|]. destruct hit; [by right|by left].
  - cbv zeta. destruct (decide (MAX_INTERRUPTIONS ≤ _)); by apply wp_ret.
Qed.
Lemma backoff_bounds n : 1 ≤ n → 2000 ≤ backoff n ≤ 600000.
Proof.
  intros Hn. unfold backoff. rewrite Z.shiftl_mul_pow2 by lia.
  assert (1 ≤ 2 ^ Z.min (n - 1) 20) by (apply (Z.pow_le_mono_r 2 0); lia). lia.
Qed.

(** The run row a drive of [s] leaves when it ends with [outcome] at [now]. *)
Definition drive_result (s : StoredRun) (outcome : Status) (now : Z) (status : Status) (t : SavedRun) : Prop :=
  let ended_with o := r_state t = end_state o ∧ r_outcome t = Some o ∧ r_ended_ms t = Some now in
  let n := sat_addu32 (r_interruptions (s_run s)) 1 in
  r_fence t = None ∧ r_lease_until_ms t = None ∧
  match outcome with
  | Waiting wake => status = outcome ∧ r_state t = SWaiting ∧ r_ended_ms t = None ∧
      r_interruptions t = 0 ∧ (r_wake_at_ms t = wake ∨ r_wake_at_ms t = now)
  | Interrupted e =>
      if decide (MAX_INTERRUPTIONS ≤ n) then status = gave_up n e ∧ ended_with status
      else status = outcome ∧ r_state t = SReady ∧ r_ended_ms t = None ∧
        r_interruptions t = n ∧ r_wake_at_ms t = sat_add64 now (backoff n)
  | _ => status = outcome ∧ ended_with outcome
  end.
Definition unleased (s : StoredRun) : StoredRun :=
  s <| s_run ::= λ r, r <| r_fence := None |> <| r_lease_until_ms := None |> |>.
Lemma finished_terminal s outcome now x : finished_row s outcome now x → terminal (x.2) = true →
  drive_result s outcome now x.2 (s_run (ended_run (unleased x.1) x.2 0 now)).
Proof.
  unfold finished_row, drive_result. cbv zeta. destruct outcome; [intros [-> ->]..| |].
  1-3: done.
  - by intros [-> _].
  - case_decide; intros [-> ->]; done.
Qed.
Lemma finished_waiting s outcome now x : finished_row s outcome now x → terminal (x.2) = false →
  r_ended_ms (s_run s) = None → drive_result s outcome now x.2 (s_run (unleased x.1)).
Proof.
  unfold finished_row, drive_result. cbv zeta. destruct outcome; [intros [-> ->]..| |].
  1-3: done.
  - intros [-> [-> | ->]] _ Hn; cbn; auto 10.
  - case_decide; intros [-> ->]; cbn; auto 10. done.
Qed.

Variable policy : Policy.

Lemma wp_finish r fuel f s outcome now threshold :
  sound r → acting r f now (skew_ms policy) s →
  wp (finish_tx policy fuel f outcome now threshold) (λ status r',
    ∃ t, r' !! ("run", f_run_id f) = Some (CRun t) ∧ drive_result s outcome now status (s_run t)) r.
Proof.
  intros Hr Ha. pose proof (good_refl r Hr) as Hg.
  unfold finish_tx. eapply wp_bind, wp_step; [exact (act_checked Ha)|].
  apply wp_bind. eapply wp_mono; [apply wp_finished_row|]. intros [s1 st] r0 [-> Hrow]. cbv beta iota zeta.
  change (s1 <| s_run ::= _ |>) with (unleased s1).
  assert (staged r (unleased s1) ∧ run_id (unleased s1) = f_run_id f ∧ r_ended_ms (s_run (unleased s1)) = None) as (Hst & Hid & Hn).
  { assert (∃ st' wake n, live_state st' = true ∧ s1 = driven s st' wake n) as (st' & wake & n & Hlive & ->).
    { pose proof (act_live Ha) as Hl. destruct (ok_live s (stored_ok r (act_inv Ha) _ _ (act_stored Ha)) Hl) as [_ Hst].
      unfold finished_row in Hrow. cbn [fst snd] in Hrow. destruct outcome.
      1-3: destruct Hrow as [_ ->]; do 3 eexists; (split; [|reflexivity]); first [exact Hst|done].
      - destruct Hrow as [_ [-> | ->]]; do 3 eexists; (split; [|reflexivity]); first [exact Hst|done].
      - cbv zeta in Hrow. case_decide; destruct Hrow as [_ ->]; do 3 eexists; (split; [|reflexivity]); first [exact Hst|done]. }
    split; [|split; [apply (act_id Ha)|apply (act_live Ha)]].
    apply (staged_advance _ (act_inv Ha) s); [by eapply stored_staged; [apply Ha|apply (act_stored Ha)]|].
    pose proof (act_live Ha). apply advance_live; cbn; auto. }
  apply wp_bind. eapply wp_store_run; [done|done|]. intros r1 Hg1 Hs1 _. rewrite Hid in Hs1.
  apply wp_bind. destruct (terminal st) eqn:Et.
  - apply wp_bind. eapply (wp_moves _ r); [solve_stable|done|]. intros _ r2 Hg2 Hm2.
    eapply wp_mono; [apply (wp_terminate r); [done|done|]|].
    + intros t Ht%(moves_stored r1 r2); [|done]. unfold stored in *. by assert (t = unleased s1) as -> by congruence.
    + intros _ r3 [_ (u & t & Hu & Ht & Hrun)]. apply wp_ret. exists t. split; [exact Ht|].
      apply (moves_stored r1 r2) in Hu; [|done]. unfold stored in *. assert (u = unleased s1) as -> by congruence.
      rewrite Hrun. by apply (finished_terminal s outcome now (s1, st)).
  - eapply wp_mono; [by apply (lifecycle_other r)|]. intros [] r2 H2. apply wp_ret. exists (unleased s1).
    split; [unfold same_run in H2; by rewrite H2|]. apply (finished_waiting s outcome now (s1, st)); [done..|apply (act_live Ha)].
Qed.

(** C18: what the end of a drive leaves, on every outcome: the fence is gone; a run
    that completed, faulted or was cancelled has ended with that outcome at [now]; a
    waiting run waits until its wake time, or is due at once when a copy it waits
    for has arrived; an interrupted run is due again after a backoff between 2 s and
    10 min, and the tenth interruption in a row ends it faulted. *)
Theorem finish_result r fuel f s outcome now threshold status r' :
  reachable policy r → exec (checked f now (skew_ms policy)) r = Ok (s, r) →
  exec (finish_tx policy fuel f outcome now threshold) r = Ok (status, r') →
  (∃ t, r' !! ("run", f_run_id f) = Some (CRun t) ∧ drive_result s outcome now status (s_run t)) ∧
  ∀ n, 1 ≤ n → 2000 ≤ backoff n ≤ 600000.
Proof.
  intros Hr%reachable_sound Hc E. destruct (checked_acting _ _ _ _ _ _ Hr Hc) as [_ Ha].
  split; [|apply backoff_bounds]. exact (wp_exec _ _ _ _ _ (wp_finish r fuel f s outcome now threshold Hr Ha) E).
Qed.
End with_host.

(** ** Witness *)

Lemma finish_result_witness :
  (∃ t, after (finish_tx P 5 parent_fence (Interrupted (Error.runtime "lost")) 1500 3) rows_child !! ("run", "p") = Some (CRun t) ∧
     drive_result (run_at rows_child "p") (Interrupted (Error.runtime "lost")) 1500
       (Interrupted (Error.runtime "lost")) (s_run t)) ∧
  ∀ n, 1 ≤ n → 2000 ≤ backoff n ≤ 600000.
Proof.
  apply (finish_result P rows_child 5 parent_fence (run_at rows_child "p") _ 1500 3).
  - apply reachable_child.
  - apply exec_reads; [apply stable_checked|]. vm_compute. reflexivity.
  - apply (exec_after (finish_tx P 5 parent_fence (Interrupted (Error.runtime "lost")) 1500 3) rows_child).
    vm_compute. reflexivity.
Defined.
