(* ===== verification/QuerySpec.v ===== *)
(** * Bounded queries

    Following the cursors of a bounded query visits every row of its window once,
    in key order, and the walk ends; a listing of runs so followed is its reference,
    the stored runs that its filter takes. *)
From S2P Require Import Prelude Json Keys Outcome Journal Listen Types Store Index Admit Mailbox.
From S2P Require Import Triggers Lifecycle Control RunStore Logic Ordered Rows Steps Preserve Terminate.
From S2P Require Import Operations History Samples.

(** The pages of a query, one after another, by their cursors. *)
Fixpoint all_pages (fuel : nat) (kind query : string) (since before : option Z) (cursor : option Cursor)
    (limit : nat) : prog (list (list (string * cell))) :=
  match fuel with
  | O => PFail EFuel
  | S fuel =>
      page ← page_rows kind query since before cursor limit;
      match page.2 with
      | None => mret [page.1]
      | Some c => rest ← all_pages fuel kind query since before (Some c) limit; mret (page.1 :: rest)
      end
  end.

(** ** Rows after a key *)

Section pages.
Context (r : rows) (kind query : string) (since before : option Z) (limit : nat).
Let L := rows_of r kind (match since with Some s => time_key s | None => "" end) (time_key <$> before).

Lemma rows_of_from k c pre todo : L = pre ++ (k, c) :: todo →
  rows_of r kind k (time_key <$> before) = (k, c) :: todo.
Proof.
  intros HL. pose proof (rows_of_sorted r kind (match since with Some s => time_key s | None => "" end) (time_key <$> before)) as Hs.
  pose proof (rows_of_NoDup r kind (match since with Some s => time_key s | None => "" end) (time_key <$> before)) as HN.
  fold L in Hs, HN. rewrite HL in Hs, HN. apply keyed_unique; [apply rows_of_sorted| |apply rows_of_NoDup| |].
  - by apply StronglySorted_app_1_r in Hs.
  - rewrite fmap_app in HN. by apply NoDup_app in HN as (_ & _ & HN).
  - intros [i x]. rewrite elem_of_rows_of. assert ((k, c) ∈ L) as Hk by (rewrite HL; apply elem_of_app; right; left).
    apply elem_of_rows_of in Hk as [_ Hk]. unfold in_range in *. apply andb_true_iff in Hk as [Hk1 _].
    assert (∀ i x, (i, x) ∈ L ↔ r !! (kind, i) = Some x ∧
      str_leb (match since with Some s => time_key s | None => "" end) i && is_none_or (time_key <$> before) (λ e, str_ltb i e) = true)
      as HLin by (intros; apply elem_of_rows_of).
    split.
    + intros [Hr [Hi He]%andb_true_iff].
      assert ((i, x) ∈ L) as Hin.
      { apply HLin. split; [done|]. apply andb_true_iff. split; [by eapply str_leb_trans|done]. }
      rewrite HL in Hin. apply elem_of_app in Hin as [Hin|Hin]; [|done]. exfalso.
      apply (StronglySorted_app_1_elem_of _ _ _ (i, x) (k, c)) in Hs as Hle; [|done|left].
      unfold key_le in Hle. cbn [fst] in Hle. apply str_leb_le in Hi.
      assert (i = k) as -> by by apply (anti_symm String.le).
      rewrite fmap_app in HN. apply NoDup_app in HN as (_ & Hd & _).
      apply (Hd k); [apply list_elem_of_fmap; by exists (k, x)|left].
    + intros Hin. assert ((i, x) ∈ L) as HinL by (rewrite HL; apply elem_of_app; by right).
      apply HLin in HinL as [Hr [_ He]%andb_true_iff]. split; [done|]. apply andb_true_iff. split; [|done].
      apply str_leb_le. apply elem_of_cons in Hin as [[= -> ->]|Hin]; [done|].
      apply (StronglySorted_app_1_r _ _ _) in Hs. apply StronglySorted_cons in Hs as [Hall _].
      rewrite Forall_forall in Hall. by apply (Hall (i, x)).
Qed.

Context (Hlimit : (1 ≤ limit ≤ MAX_PAGE)%nat).
Context (Hwindow : match since, before with Some a, Some b => a ≤ b | _, _ => True end).

Lemma exec_page_checks {A} (p : prog A) :
  exec (_ ← ensure (bool_decide (1 ≤ limit ≤ MAX_PAGE)%nat) (EControl (InvalidInput "page limit must be 1..=1000"));
        _ ← ensure (negb (match since, before with Some a, Some b => bool_decide (b < a) | _, _ => false end))
              (EControl (InvalidInput "invalid time window")); p) r = exec p r.
Proof.
  rewrite exec_bind, bool_decide_true by done. cbn [ensure exec]. rewrite exec_bind.
  assert (negb (match since, before with Some a, Some b => bool_decide (b < a) | _, _ => false end) = true) as ->; [|done].
  destruct since, before; try done. by rewrite bool_decide_false by lia.
Qed.
Lemma exec_first_page :
  exec (page_rows kind query since before None limit) r = Ok ((take limit L, page_end (take limit L) query limit), r).
Proof.
  unfold page_rows. rewrite exec_page_checks, exec_bind. unfold mret at 1, prog_ret at 1. cbn [exec]. cbv zeta.
  destruct (is_some_and (time_key <$> before) _) eqn:Ee.
  - assert (L = []) as ->.
    { apply elem_of_nil_inv. intros [i x] [_ [Hi He]%andb_true_iff]%elem_of_rows_of. destruct before as [e|]; [|done].
      cbn [fmap option_fmap option_map is_some_and is_none_or] in *. rewrite str_ltb_leb in He.
      by rewrite (str_leb_trans _ _ _ Ee Hi) in He. }
    rewrite take_nil. unfold page_end. rewrite decide_False by (cbn; lia). done.
  - rewrite exec_bind. cbn [exec scan exec_op]. unfold mret, prog_ret. cbn [exec]. unfold scan_rows. cbn [limited].
    rewrite Nat.add_0_r. fold L. assert (∀ l : list (string * cell), filter (λ x, is_none_or None (λ c : Cursor, str_ltb (cu_after c) x.1)) l = l) as Hf.
    { intros l. induction l as [|x l IH]; [done|]. by rewrite filter_cons_True, IH. }
    rewrite Hf, take_take, Nat.min_id. done.
Qed.
Lemma exec_next_page k c pre todo : L = pre ++ (k, c) :: todo →
  exec (page_rows kind query since before (Some (mkCursor query k)) limit) r =
    Ok ((take limit todo, page_end (take limit todo) query limit), r).
Proof.
  intros HL. pose proof (rows_of_from k c pre todo HL) as Hfrom.
  assert ((k, c) ∈ L) as Hk by (rewrite HL; apply elem_of_app; right; left).
  apply elem_of_rows_of in Hk as [_ [_ Hk]%andb_true_iff].
  unfold page_rows. rewrite exec_page_checks, exec_bind. cbn [cu_query cu_after]. rewrite decide_True by done.
  unfold mret at 1, prog_ret at 1. cbn [exec]. cbv zeta.
  assert (is_some_and (time_key <$> before) (λ e, str_leb e k) = false) as ->.
  { destruct before as [e|]; [|done]. cbn [fmap option_fmap option_map is_some_and is_none_or] in *.
    rewrite str_ltb_leb in Hk. by apply negb_true_iff in Hk. }
  rewrite exec_bind. cbn [exec scan exec_op]. unfold mret, prog_ret. cbn [exec]. unfold scan_rows. cbn [limited].
  rewrite Hfrom, Nat.add_1_r. cbn [take]. rewrite filter_cons_False.
  2: { cbn [is_none_or cu_after fst]. unfold str_ltb, String.ltb. rewrite string_compare_refl. by intros []. }
  assert (filter (λ x, is_none_or (Some (mkCursor query k)) (λ c : Cursor, str_ltb (cu_after c) x.1)) (take limit todo) = take limit todo) as ->.
  { pose proof (rows_of_sorted r kind k (time_key <$> before)) as Hs. pose proof (rows_of_NoDup r kind k (time_key <$> before)) as HN.
    rewrite Hfrom in Hs, HN. apply StronglySorted_cons in Hs as [Hall _]. apply NoDup_cons in HN as [Hno _].
    rewrite Forall_forall in Hall.
    assert (∀ x, x ∈ take limit todo → str_ltb k x.1 = true) as Hlt.
    { intros x Hx. assert (x ∈ todo) as Hin by (rewrite <- (take_drop limit todo); apply elem_of_app; by left).
      rewrite str_ltb_leb. apply negb_true_iff, not_true_iff_false. intros Hle%str_leb_le. apply Hno, list_elem_of_fmap. exists x.
      split; [|done]. cbn. apply (anti_symm String.le); [exact (Hall x Hin)|done]. }
    revert Hlt. generalize (take limit todo). intros l. induction l as [|x l IH]; intros Hlt; [done|].
    rewrite filter_cons_True; [f_equal; apply IH; intros; apply Hlt; by right|].
    cbn [is_none_or cu_after]. rewrite Hlt; [done|left]. }
  by rewrite take_take, Nat.min_id.
Qed.

(** A walk from the first page, or from the last row of a page. *)
Definition walk (cursor : option Cursor) (todo : list (string * cell)) : Prop :=
  match cursor with
  | None => todo = L
  | Some cur => ∃ k c pre, cur = mkCursor query k ∧ L = pre ++ (k, c) :: todo
  end.
Lemma exec_page cursor todo : walk cursor todo →
  exec (page_rows kind query since before cursor limit) r =
    Ok ((take limit todo, page_end (take limit todo) query limit), r).
Proof.
  destruct cursor as [cur|]; cbn [walk]; [intros (k & c & pre & -> & HL)|intros ->].
  - by eapply exec_next_page.
  - apply exec_first_page.
Qed.
Lemma walk_next cursor todo cur : walk cursor todo → page_end (take limit todo) query limit = Some cur →
  walk (Some cur) (drop limit todo) ∧ (length (drop limit todo) < length todo)%nat.
Proof.
  unfold page_end. intros Hw. case_decide as Hlen; [|done].
  destruct (last (take limit todo)) as [[k c]|] eqn:El; [|done]. intros [= <-].
  apply last_Some in El as [l El]. split.
  - exists k, c. assert (∃ pre, L = pre ++ todo) as [pre Hpre].
    { destruct cursor as [cur|]; cbn in Hw; [destruct Hw as (k' & c' & pre & _ & HL)|by exists []].
      exists (pre ++ [(k', c')]). by rewrite <- app_assoc. }
    exists (pre ++ l). split; [done|]. rewrite Hpre, <- (take_drop limit todo) at 1. rewrite El.
    by rewrite <- !app_assoc.
  - rewrite length_take in Hlen. rewrite length_drop. lia.
Qed.
Lemma last_page todo : page_end (take limit todo) query limit = None → take limit todo = todo.
Proof.
  unfold page_end. intros Ee. case_decide as Hlen.
  - destruct (last (take limit todo)) eqn:El; [done|]. apply last_None in El. rewrite El in Hlen. cbn in Hlen. lia.
  - rewrite length_take in Hlen. apply take_ge. lia.
Qed.
Lemma exec_all_pages fuel cursor todo : walk cursor todo → (length todo < fuel)%nat →
  ∃ pages, exec (all_pages fuel kind query since before cursor limit) r = Ok (pages, r) ∧ concat pages = todo ∧
    Forall (λ p, length p ≤ limit)%nat pages.
Proof.
  revert cursor todo. induction fuel as [|fuel IH]; intros cursor todo Hw Hf; [lia|]. cbn [all_pages].
  assert (length (take limit todo) ≤ limit)%nat as Hpage by (rewrite length_take; lia).
  rewrite exec_bind, (exec_page cursor todo Hw). cbn [fst snd].
  destruct (page_end (take limit todo) query limit) as [cur|] eqn:Ee.
  - destruct (walk_next _ _ _ Hw Ee) as [Hw' Hlt]. destruct (IH _ _ Hw') as (pages & E & Hc & Hall); [lia|].
    exists (take limit todo :: pages). rewrite exec_bind, E. split; [done|]. cbn. rewrite Hc.
    split; [apply take_drop|by constructor].
  - exists [take limit todo]. split; [done|]. cbn. rewrite app_nil_r. split; [|by repeat constructor].
    by apply last_page.
Qed.
End pages.

(** Paging is complete and ends: for any page size from 1 to [MAX_PAGE] and any
    window, following the cursors from the first page visits exactly the rows of the
    window, each once and in key order, on pages no longer than asked, in at most
    one page more than there are rows. *)
Theorem pages_visit_every_row r kind query since before limit fuel :
  (1 ≤ limit ≤ MAX_PAGE)%nat → match since, before with Some a, Some b => a ≤ b | _, _ => True end →
  let window := rows_of r kind (match since with Some s => time_key s | None => "" end) (time_key <$> before) in
  (length window < fuel)%nat →
  ∃ pages, exec (all_pages fuel kind query since before None limit) r = Ok (pages, r) ∧
    concat pages = window ∧ Forall (λ p, length p ≤ limit)%nat pages.
Proof. intros Hl Hw window Hf. by apply exec_all_pages. Qed.

(** ** The runs an operator lists *)

Lemma window_start a b id : is_i64 a → is_i64 b → str_leb (time_key a) (timed b id) = bool_decide (a ≤ b).
Proof.
  intros Ha Hb. unfold str_leb, String.leb, timed. rewrite <- (string_app_nil (time_key a)).
  rewrite compare_app by by rewrite !time_key_length. rewrite time_key_compare by done.
  destruct (Z.compare_spec a b); symmetry; first [apply bool_decide_eq_true; lia | apply bool_decide_eq_false; lia].
Qed.
Lemma window_end a b id : is_i64 a → is_i64 b → str_ltb (timed b id) (time_key a) = bool_decide (b < a).
Proof.
  intros Ha Hb. unfold str_ltb, String.ltb, timed. rewrite <- (string_app_nil (time_key a)).
  rewrite compare_app by by rewrite !time_key_length. rewrite time_key_compare by done.
  destruct (Z.compare_spec b a); symmetry; first [apply bool_decide_eq_true; lia | apply bool_decide_eq_false; lia].
Qed.

(** The instant a run is listed under: its admission, or its end in the history. *)
Definition instant (history : bool) (s : SavedRun) : option Z :=
  if history then r_ended_ms s else Some (r_admitted_ms s).
Definition within (f : Runs) (t : Z) : bool :=
  is_none_or (ru_since_ms f) (λ a, bool_decide (a ≤ t)) && is_none_or (ru_before_ms f) (λ b, bool_decide (t < b)).
(** The reference: the stored runs a filter takes, by instant and id. *)
Definition listed_run (f : Runs) (history : bool) (x : Key * cell) : option (string * SavedRun) :=
  match x with
  | ((kind, _), CRun s) =>
      t ← instant history (s_run s);
      if bool_decide (kind = "run") && run_matches f (s_run s) && within f t
      then Some (timed t (run_id s), redacted (s_run s)) else None
  | _ => None
  end.
Definition listed_runs (r : rows) (f : Runs) (history : bool) : list (string * SavedRun) :=
  merge_sort key_le (omap (listed_run f history) (map_to_list r)).
(** The instants of the rows and of the window are machine integers. *)
Definition listing_fits (r : rows) (f : Runs) (history : bool) : Prop :=
  (∀ id s t, stored r id s → instant history (s_run s) = Some t → is_i64 t) ∧
  (∀ a, ru_since_ms f = Some a → is_i64 a) ∧ (∀ b, ru_before_ms f = Some b → is_i64 b).

(** A run that the kind of a filter's rows is kept for. *)
Definition of_kind (f : Runs) (history : bool) (s : SavedRun) : bool :=
  match history, ru_parent f with
  | false, Some p => is_some_and (r_child s) (λ c, bool_decide (l_parent c = p))
  | _, _ => is_none_or (ru_definition f) (λ d, bool_decide (d = a_name (r_admission s)))
  end.
Lemma run_matches_kind f history s : run_matches f s = true → of_kind f history s = true.
Proof.
  unfold run_matches, of_kind. intros [[Hd _]%andb_true_iff Hp]%andb_true_iff. destruct history; [done|].
  by destruct (ru_parent f).
Qed.
Definition control_family : list string := ["control_run"; "control_end"; "control_parent"].
Lemma run_kind_family f history : family (run_kind f history) ∈ control_family.
Proof.
  unfold run_kind, control_family. destruct history, (ru_parent f), (ru_definition f);
    rewrite ?family_partition by done; rewrite ?family_no_colon by done; rewrite !elem_of_cons; tauto.
Qed.
Lemma length_omap_le {A B} (g : A → option B) l : (length (omap g l) ≤ length l)%nat.
Proof. induction l as [|x l IH]; [done|]. cbn. destruct (g x); cbn; lia. Qed.
Lemma partition_not_base k v : no_colon k = true → k ≠ partition k v.
Proof.
  intros Hk E. apply (f_equal no_colon) in E. unfold partition in E. rewrite !no_colon_app, Hk in E. discriminate E.
Qed.
(** The rows of a run in these families. *)
Definition control_rows (s : StoredRun) : list (Key * cell) :=
  let row at_ kind := ((kind, timed at_ (run_id s)), to_cell (run_id s)) in
  (row (r_admitted_ms (s_run s)) <$> run_kinds (s_run s) false) ++
  from_option (λ at_, row at_ <$> run_kinds (s_run s) true) [] (r_ended_ms (s_run s)) ++
  from_option (λ l, [row (r_admitted_ms (s_run s)) (partition "control_parent" (l_parent l))]) [] (r_child (s_run s)).
Lemma control_row_in s k c : family k.1 ∈ control_family → (k, c) ∈ index_rows s ↔ (k, c) ∈ control_rows s.
Proof.
  intros Hf. assert (∀ f, family k.1 = f → existsb (str_eqb f) control_family = false → False) as Hno.
  { intros f <- E. apply not_true_iff_false in E. apply E, existsb_exists. exists (family k.1).
    split; [by apply list_elem_of_In|]. by apply bool_decide_true. }
  unfold control_rows, index_rows. rewrite !elem_of_app. split.
  2: { intros [H|[H|H]]; [by right; left| |].
       - do 2 right. left. by destruct (r_ended_ms _).
       - do 3 right. left. by destruct (r_child _). }
  intros [H|[H|[H|[H|[H|H]]]]].
  - apply list_elem_of_singleton in H as [= -> ->]. exfalso. eapply Hno; [by apply family_partition|done].
  - by left.
  - right. left. by destruct (r_ended_ms _).
  - do 2 right. by destruct (r_child _).
  - apply list_elem_of_bind in H as ([k' w] & H & _). apply list_elem_of_fmap in H as (kind & [= -> ->] & Hw%wait_kinds_family).
    rewrite !elem_of_cons, elem_of_nil in Hw. exfalso. by destruct Hw as [Hw|[Hw|[Hw|[Hw|[]]]]]; eapply Hno.
  - exfalso. destruct (r_ended_ms _).
    { destruct (s_evidence s); [|by apply elem_of_nil in H]. apply list_elem_of_singleton in H as [= -> ->]. by eapply Hno. }
    unfold live_rows in H. rewrite !elem_of_app in H. destruct H as [H|[H|[H|[H|[H|[H|H]]]]]].
    + apply list_elem_of_singleton in H as [= -> ->]. eapply Hno; [by apply family_partition|done].
    + destruct (s_trigger s); [|by apply elem_of_nil in H].
      apply list_elem_of_singleton in H as [= -> ->]. eapply Hno; [by apply family_partition|done].
    + unfold due_rows in H. destruct (due_at s); [|by apply elem_of_nil in H]. rewrite !elem_of_cons, elem_of_nil in H.
      destruct H as [[= -> ->]|[[= -> ->]|[]]]; [by eapply Hno|eapply Hno; [by apply family_partition|done]].
    + unfold child_rows in H. destruct (r_child _); [|by apply elem_of_nil in H].
      apply list_elem_of_singleton in H as [= -> ->]. eapply Hno; [by apply family_partition|done].
    + unfold await_rows in H. case_decide; [by apply elem_of_nil in H|].
      apply list_elem_of_omap in H as ([t at_] & _ & H). destruct (competing s t); [|done]. injection H as <- <-.
      eapply Hno; [by apply family_partition|done].
    + apply list_elem_of_fmap in H as (t & [= -> ->] & _). eapply Hno; [by apply family_partition|done].
    + destruct (s_mailbox s); [|by apply elem_of_nil in H]. apply list_elem_of_singleton in H as [= -> ->]. by eapply Hno.
Qed.
Lemma elem_of_control_rows s kd k c : ((kd, k), c) ∈ control_rows s ↔
  ((kd ∈ run_kinds (s_run s) false ∧ k = timed (r_admitted_ms (s_run s)) (run_id s)) ∨
   (∃ t, r_ended_ms (s_run s) = Some t ∧ kd ∈ run_kinds (s_run s) true ∧ k = timed t (run_id s)) ∨
   (∃ l, r_child (s_run s) = Some l ∧ kd = partition "control_parent" (l_parent l) ∧
         k = timed (r_admitted_ms (s_run s)) (run_id s))) ∧ c = to_cell (run_id s).
Proof.
  unfold control_rows. cbv zeta. rewrite !elem_of_app. split.
  - intros [(x & [= -> -> ->] & Hx)%list_elem_of_fmap|[H|H]]; [tauto| |].
    + destruct (r_ended_ms (s_run s)) as [t|]; [|by apply elem_of_nil in H].
      apply list_elem_of_fmap in H as (x & [= -> -> ->] & Hx). split; [|done]. right. left. eauto.
    + destruct (r_child (s_run s)) as [l|]; [|by apply elem_of_nil in H].
      apply list_elem_of_singleton in H as [= -> -> ->]. split; [|done]. right. right. eauto.
  - intros [[[Hk ->]|[(t & -> & Hk & ->)|(l & -> & -> & ->)]] ->].
    + left. apply list_elem_of_fmap. eauto.
    + right. left. cbn [from_option]. apply list_elem_of_fmap. eauto.
    + do 2 right. by left.
Qed.
Lemma run_kind_rows f history s k c :
  ((run_kind f history, k), c) ∈ control_rows s ↔
  of_kind f history (s_run s) = true ∧ ∃ t, instant history (s_run s) = Some t ∧ k = timed t (run_id s) ∧ c = to_cell (run_id s).
Proof.
  assert (∀ b n : string, no_colon b = true → match ru_definition f with Some d => partition b d | None => b end ∈ [b; partition b n] ↔
    is_none_or (ru_definition f) (λ d, bool_decide (d = n)) = true) as Hk.
  { intros b n Hb. destruct (ru_definition f) as [d|]; cbn [is_none_or]; [|split; [done|by left]].
    rewrite bool_decide_eq_true, !elem_of_cons, elem_of_nil. split; [|by intros ->; right; left].
    intros [E|[E|[]]]; [by apply eq_sym, partition_not_base in E|by apply partition_inj in E]. }
  pose proof (λ b : bool, Hk (if b then "control_end" else "control_run") (a_name (r_admission (s_run s)))) as Hb.
  rewrite elem_of_control_rows. clear Hk.
  assert (∀ b : bool, match ru_definition f with Some d => partition (if b then "control_end" else "control_run") d
                 | None => if b then "control_end" else "control_run" end ∈ run_kinds (s_run s) b ↔
    is_none_or (ru_definition f) (λ d, bool_decide (d = a_name (r_admission (s_run s)))) = true) as Hrun.
  { intros b. apply (Hb b). by destruct b. }
  assert (∀ kd b, kd ∈ run_kinds (s_run s) b → family kd ≠ "control_parent") as Hp by (by intros kd [] ->%elem_of_run_kinds).
  assert (∀ kd, kd ∈ run_kinds (s_run s) true → kd ∈ run_kinds (s_run s) false → False) as Hd.
  { intros kd H1%elem_of_run_kinds H2%elem_of_run_kinds. congruence. }
  assert (∀ b : bool, family (match ru_definition f with Some d => partition (if b then "control_end" else "control_run") d
                 | None => if b then "control_end" else "control_run" end) = if b then "control_end" else "control_run") as Hfam.
  { intros b. destruct (ru_definition f); [apply family_partition|apply family_no_colon]; by destruct b. }
  unfold run_kind, of_kind, instant. specialize (Hrun history). specialize (Hfam history).
  destruct history.
  - rewrite <- Hrun. clear Hrun. cbv zeta. split.
    + intros [[[H _]|[(t & -> & H & ->)|(l & _ & E & _)]] ->]; [apply elem_of_run_kinds in H; congruence|by eauto|].
      rewrite E, family_partition in Hfam by done. discriminate Hfam.
    + intros (H & t & -> & -> & ->). split; [|done]. right. left. eauto.
  - destruct (ru_parent f) as [p|].
    + split.
      * intros [[[H _]|[(t & _ & H & _)|(l & -> & E & ->)]] ->];
          [apply Hp in H; by rewrite family_partition in H..|]. apply partition_inj in E as ->; [|done].
        split; [by apply bool_decide_true|eauto].
      * intros (H & t & [= <-] & -> & ->). split; [|done]. do 2 right. destruct (r_child (s_run s)) as [l|]; [|done].
        exists l. apply bool_decide_eq_true in H as ->. done.
    + rewrite <- Hrun. clear Hrun. cbv zeta. split.
      * intros [[[H ->]|[(t & _ & H & _)|(l & _ & E & _)]] ->]; [by eauto|apply elem_of_run_kinds in H; congruence|].
        rewrite E, family_partition in Hfam by done. discriminate Hfam.
      * intros (H & t & [= <-] & -> & ->). split; [|done]. by left.
Qed.

Section listing.
Context `{Host} (r : rows) (HI : Inv r) (f : Runs) (history : bool).
Let L := rows_of r (run_kind f history) (match ru_since_ms f with Some s => time_key s | None => "" end) (time_key <$> ru_before_ms f).

(** What a page shows of an index row. *)
Definition run_of (x : string * cell) : option StoredRun :=
  id ← index_id x.2; match r !! ("run", id) with Some (CRun s) => Some s | _ => None end.
Definition shown (x : string * cell) : option SavedRun :=
  s ← run_of x; if run_matches f (s_run s) then Some (redacted (s_run s)) else None.
Lemma listing_row k c : r !! (run_kind f history, k) = Some c ↔
  ∃ s t, stored r (run_id s) s ∧ of_kind f history (s_run s) = true ∧ instant history (s_run s) = Some t ∧
    k = timed t (run_id s) ∧ c = to_cell (run_id s).
Proof using HI.
  assert (indexed (run_kind f history) = true) as Hix.
  { pose proof (run_kind_family f history) as Hf. unfold indexed. apply bool_decide_true.
    unfold control_family in Hf. rewrite !elem_of_cons, elem_of_nil in Hf.
    destruct Hf as [->|[->|[->|[]]]]; cbn; eauto. }
  rewrite (inv_index r HI (run_kind f history, k) c Hix). split.
  - intros (s & Hs & Hx). apply indexes_rows, control_row_in, run_kind_rows in Hx as (Ho & t & Ht & -> & ->); [|apply run_kind_family].
    exists s, t. done.
  - intros (s & t & Hs & Ho & Ht & -> & ->). exists s. split; [done|].
    assert (((run_kind f history, timed t (run_id s)), to_cell (run_id s)) ∈ index_rows s) as Hin.
    { apply control_row_in; [apply run_kind_family|]. apply run_kind_rows. eauto. }
    destruct (rows_indexes _ _ _ Hin) as [c Hc]. rewrite Hc. f_equal. apply indexes_rows in Hc.
    apply control_row_in, run_kind_rows in Hc as (_ & _ & _ & _ & ->); [done|apply run_kind_family].
Qed.
Lemma run_of_row x : x ∈ L → ∃ s, run_of x = Some s ∧ stored r (run_id s) s ∧ index_id x.2 = Some (run_id s).
Proof using HI.
  destruct x as [k c]. intros [(s & t & Hs & _ & _ & -> & ->)%listing_row _]%elem_of_rows_of. exists s.
  unfold run_of. cbn [snd]. change (index_id (to_cell (run_id s))) with (Some (run_id s)). cbn.
  unfold stored in Hs. by rewrite Hs.
Qed.
Lemma exec_runs (found : list (string * cell)) : (∀ x, x ∈ found → x ∈ L) →
  exec (map_each found (λ x, id ← some_or (index_id x.2) (EMsg "invalid control run index"); run id)) r =
    Ok (omap run_of found, r).
Proof using HI.
  induction found as [|x found IH]; intros Hf; [done|]. cbn [map_each].
  destruct (run_of_row x) as (s & Hx & Hs & Hid); [apply Hf; left|].
  rewrite exec_bind, exec_bind, Hid. cbn [some_or exec]. unfold mret at 1, prog_ret at 1. cbn [exec].
  rewrite (exec_run r _ s HI Hs), exec_bind, IH by (intros y Hy; apply Hf; by right). cbn. by rewrite Hx.
Qed.
Lemma shown_runs (found : list (string * cell)) : redacted <$> filter (λ s, run_matches f s) (s_run <$> omap run_of found) = omap shown found.
Proof.
  induction found as [|x found IH]; [done|]. cbn [omap list_omap]. unfold shown at 1.
  destruct (run_of x) as [s|]; [|exact IH]. cbn [mbind option_bind]. rewrite fmap_cons, filter_cons.
  destruct (run_matches f (s_run s)) eqn:E.
  - rewrite decide_True by done. rewrite fmap_cons. by f_equal.
  - rewrite decide_False by (by intros []). exact IH.
Qed.
(** The listing, one page after another, by its cursors. *)
Fixpoint all_runs (fuel : nat) (cursor : option Cursor) (limit : nat) : prog (list (list SavedRun)) :=
  match fuel with
  | O => PFail EFuel
  | S fuel =>
      page ← query_runs f history cursor limit;
      match next page with
      | None => mret [items page]
      | Some c => rest ← all_runs fuel (Some c) limit; mret (items page :: rest)
      end
  end.
Local Abbreviation query := (value_to_string (VArr [VStr "runs"; runs_value f; VBool history])).
Section walked.
Variable limit : nat.
Hypothesis Hlimit : (1 ≤ limit ≤ MAX_PAGE)%nat.
Hypothesis Hwindow : match ru_since_ms f, ru_before_ms f with Some a, Some b => a ≤ b | _, _ => True end.
Local Abbreviation walked := (walk r (run_kind f history) query (ru_since_ms f) (ru_before_ms f)).
Lemma walked_in cursor todo x : walked cursor todo → x ∈ todo → x ∈ L.
Proof.
  destruct cursor as [cur|]; cbn [walk]; [|by intros ->]. intros (k & c & pre & _ & HL) Hx. unfold L. rewrite HL.
  apply elem_of_app. right. by right.
Qed.
Lemma exec_listing cursor todo : walked cursor todo →
  exec (query_runs f history cursor limit) r =
    Ok (mkPage (omap shown (take limit todo)) (page_end (take limit todo) query limit), r).
Proof using HI Hlimit Hwindow.
  intros Hw. unfold query_runs. cbv zeta. rewrite exec_bind, (exec_page _ _ _ _ _ _ Hlimit Hwindow _ _ Hw).
  rewrite exec_bind, exec_runs; [by rewrite shown_runs|].
  intros x Hx. apply (walked_in _ _ _ Hw). rewrite <- (take_drop limit todo). apply elem_of_app. by left.
Qed.
Lemma exec_all_runs fuel cursor todo : walked cursor todo → (length todo < fuel)%nat →
  ∃ pages, exec (all_runs fuel cursor limit) r = Ok (pages, r) ∧ concat pages = omap shown todo ∧
    Forall (λ p, length p ≤ limit)%nat pages.
Proof using HI Hlimit Hwindow.
  revert cursor todo. induction fuel as [|fuel IH]; intros cursor todo Hw Hf; [lia|]. cbn [all_runs].
  assert (length (omap shown (take limit todo)) ≤ limit)%nat as Hpage.
  { etrans; [apply length_omap_le|]. rewrite length_take. lia. }
  rewrite exec_bind, (exec_listing _ _ Hw). cbn [next items].
  destruct (page_end (take limit todo) query limit) as [cur|] eqn:Ee.
  - eapply walk_next in Hw as Hn; [|exact Hlimit|exact Ee]. destruct Hn as [Hw' Hlt]. destruct (IH _ _ Hw') as (pages & E & Hc & Hall); [lia|].
    exists (omap shown (take limit todo) :: pages). rewrite exec_bind, E. split; [done|]. cbn [concat]. rewrite Hc.
    split; [by rewrite <- omap_app, take_drop|by constructor].
  - exists [omap shown (take limit todo)]. split; [done|]. cbn. rewrite app_nil_r. split; [|by repeat constructor].
    by rewrite (last_page _ _ Hlimit _ Ee).
Qed.
End walked.

Hypothesis Hfits : listing_fits r f history.
Lemma within_range s t : stored r (run_id s) s → instant history (s_run s) = Some t →
  within f t = in_range (match ru_since_ms f with Some s => time_key s | None => "" end) (time_key <$> ru_before_ms f) (timed t (run_id s)).
Proof using Hfits.
  destruct Hfits as (Ht & Hs & Hb). intros Hst Hi. unfold within, in_range. f_equal.
  - destruct (ru_since_ms f) as [a|]; cbn [is_none_or]; [by rewrite window_start by eauto|by rewrite str_leb_nil].
  - destruct (ru_before_ms f) as [b|]; cbn [is_none_or fmap option_fmap option_map]; [by rewrite window_end by eauto|done].
Qed.
Lemma keyed_sublist {A B} (g : string * A → option B) (l : list (string * A)) :
  sublist (omap (λ x, pair x.1 <$> g x) l).*1 l.*1.
Proof. induction l as [|x l IH]; [done|]. cbn. destruct (g x); cbn; by constructor. Qed.
Lemma keyed_sorted {A B} (g : string * A → option B) (l : list (string * A)) :
  StronglySorted key_le l → StronglySorted key_le (omap (λ x, pair x.1 <$> g x) l).
Proof.
  induction 1 as [|x l Hs IH Hx]; [constructor|]. cbn. destruct (g x) as [b|]; cbn; [|done]. constructor; [done|].
  apply Forall_forall. intros y (z & Hz & Hy)%list_elem_of_omap. rewrite Forall_forall in Hx.
  destruct (g z); [|done]. injection Hy as <-. exact (Hx z Hz).
Qed.
Lemma listed_NoDup : NoDup (listed_runs r f history).*1.
Proof using HI.
  apply sort_NoDup, NoDup_omap_keys; [apply NoDup_map_to_list|].
  assert (∀ k i c x, listed_run f history ((k, i), c) = Some x → ∃ s t, c = CRun s ∧ k = "run" ∧ x.1 = timed t (run_id s)) as Hl.
  { intros k i c x Hx. destruct c as [s| | | | | | | | | | | |]; try done. unfold listed_run in Hx.
    destruct (instant history (s_run s)) as [t|]; [|done]. cbn [mbind option_bind] in Hx.
    destruct (bool_decide_reflect (k = "run")); [|done]. cbn [andb] in Hx. destruct (_ && _); [|done].
    injection Hx as <-. by exists s, t. }
  intros [[k i] c] [[k' i'] c'] x y Hk%elem_of_map_to_list Hk'%elem_of_map_to_list Hx Hy Hxy.
  destruct (Hl _ _ _ _ Hx) as (s & t & -> & -> & E). destruct (Hl _ _ _ _ Hy) as (s' & t' & -> & -> & E').
  rewrite E, E' in Hxy. apply timed_inj in Hxy as [_ Hid].
  pose proof (stored_id r HI _ _ Hk) as <-. pose proof (stored_id r HI _ _ Hk') as <-. rewrite Hid in *. congruence.
Qed.
Lemma listing_is_reference : omap shown L = (listed_runs r f history).*2.
Proof using HI Hfits.
  destruct Hfits as (Ht & Hs & Hb).
  trans ((omap (λ x, pair x.1 <$> shown x) L).*2).
  { clear. generalize L. intros l. induction l as [|x l IH]; [done|]. cbn. destruct (shown x); cbn; by rewrite IH. }
  f_equal. apply keyed_unique; [apply keyed_sorted, rows_of_sorted|apply sorted_sort| |by apply listed_NoDup|].
  { eapply sublist_NoDup; [apply rows_of_NoDup|apply keyed_sublist]. }
  intros [k v]. unfold listed_runs. rewrite elem_of_sort, !list_elem_of_omap. split.
  - intros ([k' c] & Hin & Hv). destruct (run_of_row _ Hin) as (s & Hx & Hst & _). cbn [fst] in Hv. unfold shown in Hv.
    rewrite Hx in Hv. cbn in Hv. destruct (run_matches f (s_run s)) eqn:Em; [|done]. injection Hv as -> <-.
    apply elem_of_rows_of in Hin as [(s' & t & Hs' & _ & Hi & -> & ->)%listing_row Hr].
    assert (s' = s) as ->.
    { unfold run_of in Hx. cbn [snd] in Hx. change (index_id (to_cell (run_id s'))) with (Some (run_id s')) in Hx.
      cbn in Hx. unfold stored in Hs'. rewrite Hs' in Hx. by injection Hx. }
    exists (("run", run_id s), CRun s). split; [by apply elem_of_map_to_list|]. unfold listed_run. rewrite Hi. cbn [mbind option_bind].
    rewrite bool_decide_true, Em, (within_range s t) by eauto. by rewrite Hr.
  - intros ([[kind i] c] & Hin%elem_of_map_to_list & Hv). destruct c as [s| | | | | | | | | | | |]; try done.
    unfold listed_run in Hv. destruct (instant history (s_run s)) as [t|] eqn:Hi; [|done]. cbn [mbind option_bind] in Hv.
    destruct (bool_decide _ && _ && _) eqn:Eb; [|done]. injection Hv as <- <-.
    apply andb_true_iff in Eb as [[->%bool_decide_eq_true Em]%andb_true_iff Hw].
    pose proof (stored_self r HI _ _ Hin) as Hst. exists (timed t (run_id s), to_cell (run_id s)). split.
    + apply elem_of_rows_of. split; [|by rewrite <- (within_range s t)]. apply listing_row. exists s, t.
      split_and!; try done. by apply run_matches_kind.
    + unfold shown, run_of. cbn [snd]. change (index_id (to_cell (run_id s))) with (Some (run_id s)). cbn.
      unfold stored in Hst. rewrite Hst. cbn. by rewrite Em.
Qed.
End listing.

(** ** Witness *)

Lemma pages_visit_every_row_witness :
  ∃ pages, exec (all_pages 5 "control_run" "q" (Some 1000) None None 1) rows_child = Ok (pages, rows_child) ∧
    concat pages = rows_of rows_child "control_run" (time_key 1000) None ∧
    Forall (λ p, length p ≤ 1)%nat pages.
Proof.
  apply (pages_visit_every_row rows_child "control_run" "q" (Some 1000) None 1 5).
  - unfold MAX_PAGE. lia.
  - exact I.
  - apply Nat.ltb_lt. vm_compute. reflexivity.
Defined.

(** ** Instants and keys *)

Lemma compare_ltb a b : str_ltb a b = match String.compare a b with Lt => true | _ => false end.
Proof. done. Qed.
Lemma timed_compare a b i j : is_i64 a → is_i64 b →
  String.compare (timed a i) (timed b j) = match Z.compare a b with Eq => String.compare i j | o => o end.
Proof.
  intros Ha Hb. unfold timed. rewrite compare_app by by rewrite !time_key_length.
  rewrite time_key_compare by done. by destruct (Z.compare a b).
Qed.

(** keys of instants read back and sort as time does, whole [i64] range and
    negative instants included: of two timed keys the earlier comes first, and of
    one instant the lesser id; a scan up to [until now] ends exactly after the
    instants that are due at [now]. *)
Theorem timed_keys_follow_time a b i j :
  is_i64 a → is_i64 b →
  time_of_key (time_key a) = Some a ∧
  (time_key a = time_key b ↔ a = b) ∧
  (str_ltb (timed a i) (timed b j) = true ↔ a < b ∨ (a = b ∧ str_ltb i j = true)) ∧
  (str_ltb (timed a i) (until b) = true ↔ a ≤ b).
Proof.
  intros Ha Hb. split; [by apply time_of_key_time_key|]. split_and!.
  - split; [by apply time_key_inj|by intros ->].
  - rewrite !compare_ltb, timed_compare by done.
    destruct (Z.compare_spec a b) as [->|Hlt|Hgt]; (split; [|intros [?|[? ?]]]);
      solve [done | lia | auto].
  - rewrite timed_before_until by done. by rewrite bool_decide_eq_true.
Qed.

(** The rows of different families, runs or event types never meet: the kind
    of a partition determines its family and its value, and the kind of a run's
    pending or live copies the run and the type, whatever characters they hold. *)
Theorem kinds_are_separate f g v w run run' t t' :
  no_colon f = true → no_colon g = true →
  (partition f v = partition g w ↔ f = g ∧ v = w) ∧
  (pending_of run t = pending_of run' t' ↔ run = run' ∧ t = t') ∧
  (live_of run t = live_of run' t' ↔ run = run' ∧ t = t').
Proof.
  assert (∀ f, no_colon f = true → partition f run +:+ ":" +:+ component t = partition f run' +:+ ":" +:+ component t' →
    run = run' ∧ t = t') as Hpair.
  { intros h Hh E. unfold partition in E. rewrite !string_app_assoc in E.
    apply colon_split in E as [_ E]; [|done..]. apply colon_split in E as [E1 E2]; [|by apply component_no_colon..].
    split; by apply component_inj. }
  intros Hf Hg. split_and!; (split; [|by intros [-> ->]]).
  - unfold partition. intros [-> E]%colon_split; [|done..]. split; [done|by apply component_inj].
  - by apply Hpair.
  - by apply Hpair.
Qed.

(** ** Witnesses *)

Lemma timed_keys_follow_time_witness :
  time_of_key (time_key (-1)) = Some (-1) ∧ (time_key (-1) = time_key 5 ↔ -1 = 5) ∧
  (str_ltb (timed (-1) "b") (timed 5 "a") = true ↔ -1 < 5 ∨ (-1 = 5 ∧ str_ltb "b" "a" = true)) ∧
  (str_ltb (timed (-1) "b") (until 5) = true ↔ -1 ≤ 5).
Proof. apply timed_keys_follow_time; unfold is_i64, i64_min, i64_max; lia. Defined.
Lemma kinds_are_separate_witness :
  (partition "event" "a:b" = partition "event_id" "a:b" ↔ "event" = "event_id" ∧ "a:b" = "a:b") ∧
  (pending_of "p" "x:y" = pending_of "p:x" "y" ↔ "p" = "p:x" ∧ "x:y" = "y") ∧
  (live_of "p" "x:y" = live_of "p:x" "y" ↔ "p" = "p:x" ∧ "x:y" = "y").
Proof. apply kinds_are_separate; reflexivity. Defined.
