(* ===== verification/Fuel.v ===== *)
(** * Enough fuel

    The walks over a run's descendants are loops the source ends when no child
    is left; the model bounds them by fuel. Here: a fuel of the number of live
    runs is enough, so the walks of a reachable store always end. [fuelled p] says
    that a program never runs out, [wpf] follows one that has to be shown not to. *)
From S2P Require Import Prelude Json Keys Outcome Journal Listen Types Store Index Admit Mailbox.
From S2P Require Import Triggers Lifecycle Control RunStore Logic Rows Steps Preserve Terminate Operations.
From S2P Require Import History Samples.

Definition fuelled {A} (p : prog A) : Prop := ∀ r, exec p r ≠ Err EFuel.
Definition wpf {A} (p : prog A) (Q : A → rows → Prop) (r : rows) : Prop :=
  match exec p r with Ok (a, r') => Q a r' | Err e => e ≠ EFuel end.

Lemma fuelled_bind {A B} (p : prog A) (f : A → prog B) :
  fuelled p → (∀ a, fuelled (f a)) → fuelled (p ≫= f).
Proof.
  intros Hp Hf r. rewrite exec_bind. specialize (Hp r). destruct (exec p r) as [[a r']|e]; [apply Hf|congruence].
Qed.
Lemma fuelled_ret {A} (a : A) : fuelled (mret a).
Proof. done. Qed.
Lemma fuelled_pret {A} (a : A) : fuelled (PRet a).
Proof. done. Qed.
Lemma fuelled_fail {A} e : e ≠ EFuel → fuelled (PFail (A := A) e).
Proof. by intros Hne r [= ->]. Qed.
Lemma fuelled_op (o : op) : fuelled (POp o PRet).
Proof. intros r. cbn. by destruct (exec_op r o). Qed.
Lemma fuelled_get_cell kind id : fuelled (get_cell kind id).
Proof. exact (fuelled_op (OGet kind id)). Qed.
Lemma fuelled_scan kind start end_ limit : fuelled (scan kind start end_ limit).
Proof. exact (fuelled_op (OScan kind start end_ limit)). Qed.
Lemma fuelled_put_cell kind id c : fuelled (put_cell kind id c).
Proof. done. Qed.
Lemma fuelled_delete_row kind id : fuelled (delete_row kind id).
Proof. done. Qed.
Lemma fuelled_decode {T} `{Row T} c : fuelled (decode (T := T) c).
Proof. unfold decode. by destruct (of_cell c). Qed.
Lemma fuelled_get {T} `{Row T} kind id : fuelled (get (T := T) kind id).
Proof.
  apply fuelled_bind; [apply fuelled_get_cell|]. intros [c|]; [|done].
  apply fuelled_bind; [apply fuelled_decode|done].
Qed.
Lemma fuelled_put {T} `{Row T} kind id (x : T) : fuelled (put kind id x).
Proof. done. Qed.
Lemma fuelled_ensure b e : e ≠ EFuel → fuelled (ensure b e).
Proof. intros Hne. destruct b; [done|by apply fuelled_fail]. Qed.
Lemma fuelled_some_or {A} (o : option A) e : e ≠ EFuel → fuelled (some_or o e).
Proof. intros Hne. destruct o; [done|by apply fuelled_fail]. Qed.
Lemma fuelled_for_each {A} (l : list A) f : (∀ x, fuelled (f x)) → fuelled (for_each l f).
Proof. intros Hf. induction l as [|x l IH]; simpl; [done|by apply fuelled_bind]. Qed.
Lemma fuelled_fold_each {A S} (l : list A) (s : S) f : (∀ s x, fuelled (f s x)) → fuelled (fold_each l s f).
Proof. intros Hf. revert s. induction l as [|x l IH]; intros s; simpl; [done|by apply fuelled_bind]. Qed.
Lemma fuelled_map_each {A B} (l : list A) (f : A → prog B) : (∀ x, fuelled (f x)) → fuelled (map_each l f).
Proof.
  intros Hf. induction l as [|x l IH]; simpl; [done|]. apply fuelled_bind; [done|]. intros y.
  by apply fuelled_bind.
Qed.

Create HintDb fuelled.
#[export] Hint Resolve fuelled_ret fuelled_pret fuelled_get_cell fuelled_scan fuelled_put_cell
  fuelled_delete_row fuelled_decode fuelled_get fuelled_put : fuelled.
(** Walks through a program that has no walk over descendants. *)
Ltac fuelled_step :=
  match goal with
  | |- fuelled _ => solve [eauto 1 with fuelled nocore]
  | |- fuelled (PFail _) => apply fuelled_fail; discriminate
  | |- fuelled (ensure _ _) => apply fuelled_ensure; discriminate
  | |- fuelled (some_or _ _) => apply fuelled_some_or; discriminate
  | |- fuelled (_ ≫= _) => apply fuelled_bind; [|intros]
  | |- fuelled (for_each _ _) => apply fuelled_for_each; intros
  | |- fuelled (fold_each _ _ _) => apply fuelled_fold_each; intros
  | |- fuelled (map_each _ _) => apply fuelled_map_each; intros
  | |- fuelled (let '_ := ?x in _) => destruct x
  | |- fuelled (match ?x with _ => _ end) => destruct x
  | |- _ => progress intros
  end.
Ltac solve_fuelled := repeat (fuelled_step; cbn beta iota zeta).

Lemma fuelled_find_run id : fuelled (find_run id).
Proof. unfold find_run, stored_run. solve_fuelled. Qed.
#[export] Hint Resolve fuelled_find_run : fuelled.
Lemma fuelled_run id : fuelled (run id).
Proof. unfold run. solve_fuelled. Qed.
#[export] Hint Resolve fuelled_run : fuelled.
Lemma fuelled_apply_change c : fuelled (apply_change c).
Proof. by destruct c as [[kind id] [v|]]. Qed.
#[export] Hint Resolve fuelled_apply_change : fuelled.
Lemma fuelled_store_run_indexed s before : fuelled (store_run_indexed s before).
Proof. unfold store_run_indexed. solve_fuelled. Qed.
#[export] Hint Resolve fuelled_store_run_indexed : fuelled.
Lemma fuelled_store_run s : fuelled (store_run s).
Proof. unfold store_run. solve_fuelled. Qed.
Lemma fuelled_indexed_runs kind start end_ limit : fuelled (indexed_runs kind start end_ limit).
Proof. unfold indexed_runs. solve_fuelled. Qed.
#[export] Hint Resolve fuelled_store_run fuelled_indexed_runs : fuelled.
Lemma fuelled_is_stopped : fuelled is_stopped.
Proof. unfold is_stopped. solve_fuelled. Qed.
Lemma fuelled_load_definitions name : fuelled (load_definitions name).
Proof. unfold load_definitions, decode_definitions. solve_fuelled. Qed.
Lemma fuelled_store_definitions name defs : fuelled (store_definitions name defs).
Proof. done. Qed.
#[export] Hint Resolve fuelled_is_stopped fuelled_load_definitions fuelled_store_definitions : fuelled.
Lemma fuelled_queued k : fuelled (queued k).
Proof. unfold queued, check_queue. solve_fuelled. Qed.
#[export] Hint Resolve fuelled_queued : fuelled.
Lemma fuelled_remove_queue k : fuelled (remove_queue k).
Proof. unfold remove_queue. solve_fuelled. Qed.
Lemma fuelled_store_trigger k before after : fuelled (store_trigger k before after).
Proof. unfold store_trigger. solve_fuelled. Qed.
Lemma fuelled_get_trigger k : fuelled (get_trigger k).
Proof. unfold get_trigger. solve_fuelled. Qed.
#[export] Hint Resolve fuelled_remove_queue fuelled_store_trigger fuelled_get_trigger : fuelled.
Lemma fuelled_arm defs wanted : fuelled (arm defs wanted).
Proof. unfold arm. solve_fuelled. Qed.
#[export] Hint Resolve fuelled_arm : fuelled.
Lemma fuelled_running : fuelled running.
Proof. unfold running. solve_fuelled. Qed.
#[export] Hint Resolve fuelled_running : fuelled.
Lemma fuelled_admitted a now join : fuelled (admitted a now join).
Proof. unfold admitted. solve_fuelled. Qed.
#[export] Hint Resolve fuelled_admitted : fuelled.
Lemma fuelled_push s e : fuelled (push s e).
Proof. unfold push, put_row. solve_fuelled. Qed.
#[export] Hint Resolve fuelled_push : fuelled.
Lemma fuelled_notify parent t data now : fuelled (notify parent t data now).
Proof. unfold notify. solve_fuelled. Qed.
#[export] Hint Resolve fuelled_notify : fuelled.

Section with_host.
Context `{Host}.

Lemma fuelled_breaker s fault success default_ now : fuelled (breaker s fault success default_ now).
Proof. unfold breaker. solve_fuelled. Qed.
Hint Resolve fuelled_breaker : fuelled.
Lemma fuelled_refuse refused now : fuelled (refuse refused now).
Proof. unfold refuse. solve_fuelled. Qed.
Lemma fuelled_insert_run a now : fuelled (insert_run a now).
Proof. unfold insert_run. solve_fuelled. Qed.
Hint Resolve fuelled_refuse fuelled_insert_run : fuelled.
Lemma fuelled_admit_firing k a rearm next now : fuelled (admit_firing k a rearm next now).
Proof. unfold admit_firing. solve_fuelled. Qed.
Hint Resolve fuelled_admit_firing : fuelled.
Lemma fuelled_drain_queues name now : fuelled (drain_queues name now).
Proof. unfold drain_queues, drain_one, capacity. solve_fuelled. Qed.
Lemma fuelled_lifecycle id status now : fuelled (lifecycle id status now).
Proof. unfold lifecycle, close_waiting. solve_fuelled. Qed.
Hint Resolve fuelled_drain_queues fuelled_lifecycle : fuelled.
Lemma fuelled_rearm_trigger s now : fuelled (rearm_trigger s now).
Proof. unfold rearm_trigger. solve_fuelled. Qed.
Lemma fuelled_add_bucket name now runs t : fuelled (add_bucket name now runs t).
Proof. unfold add_bucket. solve_fuelled. Qed.
Lemma fuelled_end_child spent now c child : fuelled (end_child spent now c child).
Proof. unfold end_child. solve_fuelled. Qed.
End with_host.
#[export] Hint Resolve fuelled_drain_queues fuelled_lifecycle fuelled_rearm_trigger fuelled_add_bucket
  fuelled_end_child : fuelled.

(** ** Following a program that may run out *)

Lemma wpf_intro {A} (p : prog A) Q r : fuelled p → wp p Q r → wpf p Q r.
Proof. intros Hp Hw. specialize (Hp r). unfold wp, wpf in *. destruct (exec p r) as [[a r']|e]; [done|by intros ->]. Qed.
Lemma wpf_bind {A B} (p : prog A) (f : A → prog B) Q r :
  wpf p (λ a r', wpf (f a) Q r') r → wpf (p ≫= f) Q r.
Proof. unfold wpf. rewrite exec_bind. by destruct (exec p r) as [[a r']|e]. Qed.
Lemma wpf_mono {A} (p : prog A) (P Q : A → rows → Prop) r :
  wpf p P r → (∀ a r', P a r' → Q a r') → wpf p Q r.
Proof. unfold wpf. destruct (exec p r) as [[a r']|e]; auto. Qed.
Lemma wpf_seq {A B} (p : prog A) (f : A → prog B) P Q r :
  fuelled p → wp p P r → (∀ a r', P a r' → wpf (f a) Q r') → wpf (p ≫= f) Q r.
Proof. intros Hp Hw Hf. eapply wpf_bind, wpf_mono; [by eapply wpf_intro|done]. Qed.
Lemma wpf_any {A} (p : prog A) r : fuelled p → wpf p (λ _ _, True) r.
Proof. intros Hp. specialize (Hp r). unfold wpf. destruct (exec p r) as [[a r']|e]; [done|by intros ->]. Qed.

(** ** The live runs of a store *)

Definition live_id (x : Key * cell) : option string :=
  match x with
  | ((kind, id), CRun s) => if decide (kind = "run" ∧ r_ended_ms (s_run s) = None) then Some id else None
  | _ => None
  end.
Definition live_ids (r : rows) : gset string := list_to_set (omap live_id (map_to_list r)).
Lemma elem_of_live_ids r id : id ∈ live_ids r ↔ ∃ s, stored r id s ∧ r_ended_ms (s_run s) = None.
Proof.
  unfold live_ids. rewrite elem_of_list_to_set, list_elem_of_omap. split.
  - intros ([[kind i] c] & Hin%elem_of_map_to_list & E). destruct c; try done. cbn in E.
    case_decide as Hd; [|done]. injection E as <-. destruct Hd as [-> Hn]. by exists s.
  - intros (s & Hs & Hn). exists (("run", id), CRun s). split; [by apply elem_of_map_to_list|].
    cbn. by rewrite decide_True.
Qed.
Lemma live_ids_sub r r' : (∀ id t, stored r' id t → r_ended_ms (s_run t) = None →
    ∃ s, stored r id s ∧ r_ended_ms (s_run s) = None) → live_ids r' ⊆ live_ids r.
Proof. intros Hs id (t & Ht & Hn)%elem_of_live_ids. apply elem_of_live_ids. by eapply Hs. Qed.
Lemma live_ids_moves r r' : moves r r' → live_ids r' ⊆ live_ids r.
Proof. intros Hm. apply live_ids_sub. intros id t Ht Hn. exists t. by rewrite <- (moves_stored r r'). Qed.
(** A run that ends leaves one live run less. *)
Lemma live_ids_end r r' id s : stored r id s → r_ended_ms (s_run s) = None →
  (∀ i t, stored r' i t → r_ended_ms (s_run t) = None → i ≠ id ∧ stored r i t) →
  (S (size (live_ids r')) ≤ size (live_ids r))%nat.
Proof.
  intros Hs Hn Hsub. assert (id ∈ live_ids r) as Hin by (apply elem_of_live_ids; eauto).
  assert (live_ids r' ⊆ live_ids r ∖ {[id]}) as Hss.
  { intros i (t & Ht & Htn)%elem_of_live_ids. destruct (Hsub i t Ht Htn) as [Hne Hr].
    apply elem_of_difference. split; [apply elem_of_live_ids; eauto|]. by rewrite elem_of_singleton. }
  apply subseteq_size in Hss. rewrite size_difference, size_singleton in Hss by (intros ? ->%elem_of_singleton; done).
  assert (size ({[id]} : gset string) ≤ size (live_ids r))%nat as Hpos by (apply subseteq_size; intros ? ->%elem_of_singleton; done).
  rewrite size_singleton in Hpos. lia.
Qed.

(** ** The cascade *)

Section with_host.
Context `{Host}.

Lemma wpf_cascade r0 fuel spent now c r :
  going (parents c) r0 r → (∀ p, p ∈ parents c → has_ended r p) →
  (length (parents c) + size (live_ids r) ≤ fuel)%nat → wpf (cascade fuel spent now c) (λ _ _, True) r.
Proof.
  revert c r. induction fuel as [|fuel IH]; intros [[|p ps] ns es] r Hg Hpar Hm;
    cbn [cascade parents names ended length] in *; [done|lia|done|]. eapply wpf_seq; [apply fuelled_indexed_runs| |].
  { eapply wp_children; [done|]. intros l Hl Hch Hall.
    exact (conj eq_refl (conj Hl (conj Hch Hall)) : (λ l r', r' = r ∧ loaded r l ∧
      (∀ s, s ∈ l → r_ended_ms (s_run s) = None ∧ ∃ k, r_child (s_run s) = Some k ∧ l_parent k = p) ∧
      all_children r p l) l r). }
  intros l r' (-> & Hl & Hch & Hall). eapply wpf_seq.
  { apply fuelled_fold_each. intros. apply fuelled_end_child. }
  { apply (wp_fold_each _ _ _ (λ l c r', going (p :: parents c) r0 r' ∧ children_of r' p l ∧
      all_children r' p l ∧ (∀ q, q ∈ parents c → has_ended r' q) ∧
      (length (parents c) + size (live_ids r') ≤ fuel)%nat)).
    - split; [done|]. split; [split; [done|split; [apply Hpar; by left|done]]|]. split; [done|].
      split; [intros q Hq; apply Hpar; by right|cbn [parents]; lia].
    - intros s l' c r1 (Hg1 & Hc1 & Ha1 & Hp1 & Hm1). eapply wp_end_child; [done..|].
      intros r2 Hg2 Hc2 Ha2 Hmono He2 Hsub. split; [done|]. split; [done|]. split; [done|]. split.
      + intros q [->|Hq]%elem_of_cons; [done|]. by apply Hmono, Hp1.
      + cbn [parents length]. destruct Hc1 as ([Hs _]%loaded_head & _ & Hlive).
        pose proof (live_ids_end r1 r2 _ s Hs (proj1 (Hlive s (list_elem_of_here _ _))) Hsub). lia. }
  cbn beta. intros c r1 ((HI1 & He1 & HX1) & _ & Ha1 & Hp1 & Hm1). apply IH; [|done|done].
  split; [done|]. split; [done|].
  intros id t k Ht Hn Hk He. pose proof (HX1 _ _ _ Ht Hn Hk He) as [Hkp|Hin]%elem_of_cons; [|done].
  pose proof (Ha1 _ _ _ Ht Hn Hk Hkp) as Hin. by apply elem_of_nil in Hin.
Qed.
Lemma wpf_terminate r0 fuel id status now r :
  good r0 r → terminal status = true → (∀ s, stored r id s → r_ended_ms (s_run s) = None) →
  (size (live_ids r) ≤ fuel)%nat → wpf (terminate fuel id status now) (λ _ _, True) r.
Proof.
  intros Hg Ht Hlive Hm. unfold terminate. eapply wpf_seq; [solve_fuelled| |].
  { eapply wp_run; [done|]. intros s Hid Hs. exact (conj eq_refl (conj Hid Hs) :
      (λ s r', r' = r ∧ run_id s = id ∧ stored r id s) s r). }
  intros s r' (-> & Hid & Hs). cbv zeta. eapply wpf_seq; [solve_fuelled|apply wp_reads; [solve_stable|]|].
  { intros b. exact (eq_refl : (λ _ r', r' = r) b r). }
  intros budget r' ->. set (s' := ended_run s status (default 0 budget) now).
  eapply (wpf_seq _ _ (λ _ r1, going [id] r0 r1 ∧ stored r1 id s' ∧
      (S (size (live_ids r1)) ≤ size (live_ids r))%nat)); [solve_fuelled| |].
  { eapply (wp_end_run [] r0 s' s); [done|by rewrite <- Hid in Hs|apply ended_run_evolves; auto|].
    change (run_id s') with (run_id s). rewrite Hid.
    intros r1 Hg1 Hs1 Hr1. split; [done|]. split; [done|]. eapply live_ids_end; [done|by apply Hlive|].
    intros i t Hi Htn. apply (restored_stored r r1 _ (proj1 Hg) Hr1) in Hi as [[_ ->]|Hi]; [done|].
    change (run_id s') with (run_id s) in Hi. by rewrite Hid in Hi. }
  intros _ r1 (Hg1 & Hs1 & Hm1). eapply (wpf_seq _ _ (λ _ r2, going [id] r0 r2 ∧ ∀ i t, stored r2 i t ↔ stored r1 i t)); [solve_fuelled| |].
  { eapply (wp_drop_budget [id] r0); [done|by eexists|auto]. }
  intros _ r2 (Hg2 & Hm2). eapply (wpf_seq _ _ (λ _ r3, going [id] r0 r3 ∧ ∀ i t, stored r3 i t ↔ stored r1 i t)); [solve_fuelled| |].
  { eapply wp_moves; [solve_stable|done|]. intros _ r3 Hg3 Hm3. split; [done|]. intros i t. by rewrite (moves_stored r2 r3). }
  intros _ r3 (Hg3 & Hm3). eapply wpf_bind, wpf_mono; [eapply (wpf_cascade r0)|]; cbn [parents length].
  - done.
  - intros p ->%list_elem_of_singleton. exists s'. split; [by apply Hm3|done].
  - assert (live_ids r3 ⊆ live_ids r1) as Hsub by (apply live_ids_sub; intros i t Hti Htn; exists t; by rewrite <- Hm3).
    pose proof (subseteq_size _ _ Hsub). lia.
  - intros c r4 _. apply wpf_any. solve_fuelled.
Qed.
End with_host.

(** ** More fuel changes nothing *)

Definition more {A} (p p' : prog A) : Prop := ∀ r, exec p r ≠ Err EFuel → exec p' r = exec p r.
Lemma more_refl {A} (p : prog A) : more p p.
Proof. done. Qed.
Lemma more_bind {A B} (p p' : prog A) (f f' : A → prog B) :
  more p p' → (∀ a, more (f a) (f' a)) → more (p ≫= f) (p' ≫= f').
Proof.
  intros Hp Hf r. rewrite !exec_bind. intros Hne. rewrite Hp by (intros E; by rewrite E in Hne).
  destruct (exec p r) as [[a r']|e]; [by apply Hf|done].
Qed.

Section with_host2.
Context `{Host}.
Variable policy : Policy.

Lemma more_cascade fuel fuel' spent now c : (fuel ≤ fuel')%nat →
  more (cascade fuel spent now c) (cascade fuel' spent now c).
Proof.
  revert fuel' c. induction fuel as [|fuel IH]; intros fuel' [ps ns es] Hle.
  - intros r. destruct ps; [by destruct fuel'|done].
  - destruct fuel' as [|fuel']; [lia|]. destruct ps as [|p ps]; cbn [cascade parents names ended]; [apply more_refl|].
    apply more_bind; [apply more_refl|]. intros l. apply more_bind; [apply more_refl|].
    intros c. apply IH. lia.
Qed.
Lemma more_terminate fuel fuel' id status now : (fuel ≤ fuel')%nat →
  more (terminate fuel id status now) (terminate fuel' id status now).
Proof.
  intros Hle. unfold terminate. do 5 (apply more_bind; [apply more_refl|intros ?]).
  apply more_bind; [by apply more_cascade|]. intros c. apply more_refl.
Qed.
Lemma more_cancel fuel fuel' id now : (fuel ≤ fuel')%nat →
  more (cancel_tx fuel id now) (cancel_tx fuel' id now).
Proof.
  intros Hle. unfold cancel_tx, cancel_run. apply more_bind; [apply more_refl|]. intros [s|]; [|apply more_refl].
  case_decide; [apply more_refl|]. apply more_bind; [by apply more_terminate|]. intros []. apply more_refl.
Qed.
Lemma more_finish fuel fuel' f outcome now threshold : (fuel ≤ fuel')%nat →
  more (finish_tx policy fuel f outcome now threshold) (finish_tx policy fuel' f outcome now threshold).
Proof.
  intros Hle. unfold finish_tx. do 2 (apply more_bind; [apply more_refl|intros ?]).
  destruct a0 as [s status]. apply more_bind; [apply more_refl|]. intros []. apply more_bind; [|intros []; apply more_refl].
  destruct (terminal status); [|apply more_refl]. apply more_bind; [apply more_refl|]. intros [].
  by apply more_terminate.
Qed.

Lemma wpf_cancel r fuel id now : sound r → (size (live_ids r) ≤ fuel)%nat →
  wpf (cancel_tx fuel id now) (λ _ _, True) r.
Proof.
  intros Hr Hm. pose proof (good_refl r Hr) as Hg. unfold cancel_tx, cancel_run.
  eapply wpf_seq; [solve_fuelled| |].
  { eapply (wp_find_run [] r id (λ o r', r' = r ∧ ∀ s, o = Some s → stored r id s)); [done|by intros|].
    intros s Hid Hs. split; [done|]. by intros ? [= <-]. }
  intros [s|] r' [-> Hs]; [|done]. case_decide as He; [done|]. eapply wpf_bind, wpf_mono.
  - apply (wpf_terminate r); [done|done| |done]. intros t Ht. specialize (Hs s eq_refl). unfold stored in *.
    assert (t = s) as -> by congruence. by apply eq_None_not_Some.
  - intros ? ? _. apply wpf_any. solve_fuelled.
Qed.
(** The same answer whatever the fuel, from the number of live runs on. *)
Lemma fuel_enough {A} (p : nat → prog A) r n : (∀ n m, (n ≤ m)%nat → more (p n) (p m)) →
  exec (p n) r ≠ Err EFuel → ∀ m, (n ≤ m)%nat → exec (p m) r = exec (p n) r ∧ exec (p m) r ≠ Err EFuel.
Proof. intros Hmore Hn m Hm. rewrite (Hmore n m Hm r Hn). done. Qed.

(** a cancellation ends: with the number of live runs as fuel the walk over a
    run's descendants always completes, and no larger bound gives another answer,
    so the bound is one of the model only. *)
Theorem cancel_terminates r id now fuel :
  reachable policy r → (size (live_ids r) ≤ fuel)%nat →
  exec (cancel_tx fuel id now) r ≠ Err EFuel ∧
  exec (cancel_tx fuel id now) r = exec (cancel_tx (size (live_ids r)) id now) r.
Proof.
  intros Hr%reachable_sound Hm.
  assert (exec (cancel_tx (size (live_ids r)) id now) r ≠ Err EFuel) as Hn.
  { pose proof (wpf_cancel r (size (live_ids r)) id now Hr (le_n _)) as Hw. unfold wpf in Hw.
    destruct (exec _ _) as [[]|e]; congruence. }
  destruct (fuel_enough (λ n, cancel_tx n id now) r (size (live_ids r)) (λ n m, more_cancel n m id now) Hn fuel Hm) as [E1 E2].
  exact (conj E2 E1).
Qed.

Lemma fuelled_awaited_wanted s fresh until_ l : fuelled (awaited_wanted s fresh until_ l).
Proof. induction l as [|[t p] l IH]; cbn [awaited_wanted]; unfold live_cloud; solve_fuelled; apply IH. Qed.
Lemma fuelled_subscribed_wanted s fresh until_ l : fuelled (subscribed_wanted s fresh until_ l).
Proof. induction l as [|t l IH]; cbn [subscribed_wanted]; unfold live_cloud; solve_fuelled; apply IH. Qed.
Hint Resolve fuelled_awaited_wanted fuelled_subscribed_wanted : fuelled.
Lemma fuelled_finish_row s outcome now : fuelled (finish_row s outcome now).
Proof. unfold finish_row, pending_wanted. solve_fuelled. Qed.
Lemma fuelled_checked f now skew : fuelled (checked f now skew).
Proof. unfold checked, authority, not_held. solve_fuelled. Qed.
Hint Resolve fuelled_finish_row fuelled_checked fuelled_breaker : fuelled.

Lemma wpf_finish r fuel f outcome now threshold : sound r → (size (live_ids r) ≤ fuel)%nat →
  wpf (finish_tx policy fuel f outcome now threshold) (λ _ _, True) r.
Proof.
  intros Hr Hm. pose proof (good_refl r Hr) as Hg. unfold finish_tx.
  eapply (wpf_seq _ _ (λ s r', r' = r ∧ run_id s = f_run_id f ∧ stored r (run_id s) s ∧
    owns s f now (skew_ms policy) = true ∧ r_ended_ms (s_run s) = None)); [solve_fuelled| |].
  { eapply wp_checked; [done|]. auto 10. }
  intros s r' (-> & Hid & Hs & (Hst & _)%owns_spec & Hn).
  eapply (wpf_seq _ _ (λ x r', r' = r ∧ stored r (run_id x.1) s ∧ staged r (x.1 <| s_run ::= λ r,
      r <| r_fence := None |> <| r_lease_until_ms := None |> |>) ∧ run_id x.1 = f_run_id f ∧
      r_ended_ms (s_run x.1) = None)); [solve_fuelled| |].
  { apply wp_finish_row; [by rewrite Hst|]. intros st wake n status Hlive. cbn [fst].
    split; [done|]. split; [exact Hs|]. split; [|split; [exact Hid|exact Hn]].
    apply (staged_advance _ (proj1 Hg) s); [by eapply stored_staged; [apply Hg|]|].
    apply advance_live; cbn; auto. }
  intros [s' status] r' (-> & Hs0 & Hstg & Hid' & Hn'). cbn [fst] in *.
  set (s1 := s' <| s_run ::= λ r, r <| r_fence := None |> <| r_lease_until_ms := None |> |>) in *.
  eapply (wpf_seq _ _ (λ _ r1, good r r1 ∧ stored r1 (f_run_id f) s1 ∧ live_ids r1 ⊆ live_ids r));
    [solve_fuelled| |].
  { eapply wp_store_run; [done|done|]. intros r1 Hg1 Hs1 Hr1. split; [done|].
    split; [by rewrite <- Hid'|]. apply live_ids_sub. intros i t Ht Htn.
    apply (restored_stored r r1 _ (proj1 Hg) Hr1) in Ht as [[-> ->]|[_ Ht]]; [|by exists t].
    exists s. split; [exact Hs0|done]. }
  intros _ r1 (Hg1 & Hs1 & Hsub1). eapply wpf_bind, wpf_mono; [|intros; by apply wpf_any].
  destruct (terminal status) eqn:Et; [|apply wpf_any; solve_fuelled].
  eapply (wpf_seq _ _ (λ _ r2, good r r2 ∧ moves r1 r2)); [solve_fuelled| |].
  { eapply wp_moves; [solve_stable|done|auto]. }
  intros _ r2 [Hg2 Hm2]. eapply wpf_mono; [eapply (wpf_terminate r)|done]; [done|done| |].
  - intros t Ht%(moves_stored r1 r2); [|done]. unfold stored in *. assert (t = s1) as -> by congruence. exact Hn'.
  - pose proof (subseteq_size _ _ (live_ids_moves _ _ Hm2)). pose proof (subseteq_size _ _ Hsub1). lia.
Qed.

(** A drive's end ends: [finish] completes its walk over the descendants of a
    run that ended with the number of live runs as fuel, and no larger bound gives
    another answer. *)
Theorem finish_terminates r f outcome now threshold fuel :
  reachable policy r → (size (live_ids r) ≤ fuel)%nat →
  exec (finish_tx policy fuel f outcome now threshold) r ≠ Err EFuel ∧
  exec (finish_tx policy fuel f outcome now threshold) r =
    exec (finish_tx policy (size (live_ids r)) f outcome now threshold) r.
Proof.
  intros Hr%reachable_sound Hm.
  assert (exec (finish_tx policy (size (live_ids r)) f outcome now threshold) r ≠ Err EFuel) as Hn.
  { pose proof (wpf_finish r (size (live_ids r)) f outcome now threshold Hr (le_n _)) as Hw. unfold wpf in Hw.
    destruct (exec _ _) as [[]|e]; congruence. }
  destruct (fuel_enough (λ n, finish_tx policy n f outcome now threshold) r (size (live_ids r))
    (λ n m, more_finish n m f outcome now threshold) Hn fuel Hm) as [E1 E2].
  exact (conj E2 E1).
Qed.
End with_host2.

(** ** Witnesses *)

Lemma cancel_terminates_witness :
  exec (cancel_tx 7 "p" 2000) rows_child ≠ Err EFuel ∧
  exec (cancel_tx 7 "p" 2000) rows_child = exec (cancel_tx (size (live_ids rows_child)) "p" 2000) rows_child.
Proof. apply (cancel_terminates P); [apply reachable_child|]. apply Nat.leb_le. vm_compute. reflexivity. Defined.
Lemma finish_terminates_witness :
  exec (finish_tx P 9 parent_fence Cancelled 1500 3) rows_child ≠ Err EFuel ∧
  exec (finish_tx P 9 parent_fence Cancelled 1500 3) rows_child =
    exec (finish_tx P (size (live_ids rows_child)) parent_fence Cancelled 1500 3) rows_child.
Proof. apply finish_terminates; [apply reachable_child|]. apply Nat.leb_le. vm_compute. reflexivity. Defined.
