(* ===== verification/HoldSpec.v ===== *)
(** * Holding a run

    [set_hold] reaches the live subtree of a run, whole: the walk finds every live
    descendant, in as many steps as there are live runs at most, and each is held
    (or released) in the one commit. *)
From stdpp Require Import relations.
From S2P Require Import Prelude Json Keys Outcome Journal Listen Types Store Index Admit Mailbox.
From S2P Require Import Triggers Lifecycle Control RunStore Logic Rows Steps Preserve Terminate Operations.
From S2P Require Import History Samples Fuel Steps.

(** Live children of the runs already expanded have been found. *)
Definition expanded (r : rows) (seen pending : list StoredRun) : Prop :=
  ∀ p id c k, p ∈ seen → stored r id c → r_ended_ms (s_run c) = None → r_child (s_run c) = Some k →
    l_parent k = run_id p → c ∈ seen ++ pending.

Lemma live_ids_list r (l : list StoredRun) : loaded r l → (∀ s, s ∈ l → r_ended_ms (s_run s) = None) →
  (length l ≤ size (live_ids r))%nat.
Proof.
  intros [HN HL] Hlive. rewrite <- (length_fmap run_id l), <- (size_list_to_set (C := gset string)) by done.
  apply subseteq_size. intros id (s & -> & Hs)%elem_of_list_to_set%list_elem_of_fmap.
  apply elem_of_live_ids. exists s. auto.
Qed.

Lemma twp_hold_tree r rank root fuel seen pending :
  good r r → (∀ id s l, stored r id s → r_child (s_run s) = Some l →
    (∃ p, stored r (l_parent l) p) ∧ (rank (l_parent l) < rank id)%nat) →
  tree_ok r rank root seen pending → expanded r seen pending →
  (size (live_ids r) ≤ fuel + length seen)%nat →
  twp (hold_tree fuel (seen ++ pending) pending)
      (λ tree r', r' = r ∧ tree_ok r rank root tree [] ∧ expanded r tree []) r.
Proof.
  intros Hg HF. revert seen pending. induction fuel as [|n IH]; intros seen [|s pending] Ht Hx Hm;
    cbn [hold_tree].
  1, 3: rewrite app_nil_r; by apply twp_ret.
  - exfalso. pose proof (live_ids_list r _ (tr_loaded _ _ _ _ _ Ht) (tr_live _ _ _ _ _ Ht)) as Hl.
    rewrite length_app in Hl. cbn in Hl. lia.
  - eapply twp_seq.
    { eapply wp_twp; [apply twp_indexed_runs; [apply Hg|..]; by rewrite family_partition|].
      eapply (wp_children _ _ _ _ (λ l r', r' = r ∧ loaded r l ∧
        (∀ c, c ∈ l → r_ended_ms (s_run c) = None ∧ ∃ k, r_child (s_run c) = Some k ∧ l_parent k = run_id s) ∧
        all_children r (run_id s) l)); [exact Hg|auto]. }
    intros children r' (_ & -> & Hl & Hch & Hall).
    replace ((seen ++ s :: pending) ++ children) with ((seen ++ [s]) ++ pending ++ children)
      by by rewrite <- !app_assoc.
    apply IH; [by eapply tree_step| |rewrite length_app; cbn; lia].
    intros p id c k [Hp| ->%list_elem_of_singleton]%elem_of_app Hc Hn Hk Hkp; rewrite <- !app_assoc.
    + pose proof (Hx p id c k Hp Hc Hn Hk Hkp) as Hin. apply elem_of_app in Hin as [Hin|Hin].
      * apply elem_of_app. by left.
      * apply elem_of_app. right. apply elem_of_cons in Hin as [->|Hin]; [by left|].
        right. apply elem_of_app. by left.
    + apply elem_of_app. right. right. apply elem_of_app. right. by eapply Hall.
Qed.

(** The row after a hold or a release. *)
Definition frozen (hold : option Hold) (s : StoredRun) : StoredRun :=
  if decide (is_Some (r_held (s_run s)) ↔ is_Some hold) then s
  else s <| s_run ::= λ r, r <| r_held := hold |> |>.
Lemma frozen_run_id hold s : run_id (frozen hold s) = run_id s.
Proof. unfold frozen. by case_decide. Qed.

Lemma twp_hold_one r0 r hold changed s : good r0 r → stored r (run_id s) s → r_ended_ms (s_run s) = None →
  twp (hold_one hold changed s) (λ _ r', good r0 r' ∧ stored r' (run_id s) (frozen hold s) ∧
    ∀ id, id ≠ run_id s → r' !! ("run", id) = r !! ("run", id)) r.
Proof.
  intros Hg Hs Hn. unfold hold_one, frozen. case_decide; [by apply twp_ret|]. cbv zeta.
  assert (staged r (s <| s_run ::= λ r, r <| r_held := hold |> |>)) as Hst.
  { apply (staged_advance _ (proj1 Hg) s); [by eapply stored_staged; [apply Hg|]|]. advance_live. }
  eapply twp_seq.
  - eapply wp_twp; [by apply twp_store_run_indexed; [apply Hg|..]|].
    eapply (wp_store_run_indexed _ _ _ _ (λ _ r', good r0 r' ∧ stored r' (run_id s) _ ∧
      ∀ id, id ≠ run_id s → r' !! ("run", id) = r !! ("run", id))); [done|exact Hs|exact Hst|].
    intros r1 Hg1 Hs1 Hr1. split; [done|]. split; [exact Hs1|]. intros id Hid.
    by eapply restored_other; [apply Hg|..].
  - intros _ r1 [_ HQ]. by apply twp_ret.
Qed.
Lemma twp_hold_all r0 hold l : ∀ r changed, good r0 r → loaded r l →
  (∀ s, s ∈ l → r_ended_ms (s_run s) = None) →
  twp (fold_each l changed (hold_one hold)) (λ _ r',
    (∀ s, s ∈ l → stored r' (run_id s) (frozen hold s)) ∧
    (∀ id, id ∉ run_id <$> l → r' !! ("run", id) = r !! ("run", id))) r.
Proof.
  induction l as [|s l IH]; intros r changed Hg Hl Hlive; cbn [fold_each].
  { apply twp_ret. split; [intros s Hs; by apply elem_of_nil in Hs|done]. }
  destruct (loaded_head _ _ _ Hl) as (Hs & Hne & Hl').
  eapply twp_seq; [apply (twp_hold_one r0); [done..|apply Hlive; left]|].
  intros b r1 (Hg1 & Hs1 & Ho1). eapply twp_mono; [apply IH|].
  - done.
  - split; [apply Hl'|]. intros t Ht. unfold stored. rewrite Ho1 by by apply Hne. by apply Hl'.
  - intros t Ht. apply Hlive. by right.
  - intros b' r2 (Hin & Hout). split.
    + intros t [->|Ht]%elem_of_cons; [|by apply Hin]. unfold stored. rewrite Hout; [exact Hs1|].
      intros (t & Hid & Ht)%list_elem_of_fmap. by apply (Hne t Ht).
    + intros id [Hid Hnin]%not_elem_of_cons. rewrite Hout by done. by apply Ho1.
Qed.

(** The runs a walk from [root] finds are its live subtree. *)
Lemma tc_last {A} (R : relation A) x y : tc R x y → R x y ∨ ∃ z, tc R x z ∧ R z y.
Proof.
  induction 1 as [x y|x y z Hxy Hyz IH]; [by left|]. right.
  destruct IH as [IH|(w & Hw & Hwz)]; [exists y; split; [by apply tc_once|done]|].
  exists w. split; [by eapply tc_l|done].
Qed.
Definition under (r : rows) (root d : string) : Prop := d = root ∨ tc (child_link r) root d.
Lemma under_link r root p d : under r root p → child_link r p d → under r root d.
Proof. intros [->|Hp] Hl; right; [by apply tc_once|by eapply tc_r]. Qed.
Lemma tree_subtree r rank root tree : sound r →
  (∀ id s l, stored r id s → r_child (s_run s) = Some l →
    (∃ p, stored r (l_parent l) p) ∧ (rank (l_parent l) < rank id)%nat) →
  tree_ok r rank root tree [] → expanded r tree [] → ∀ d t,
  stored r d t → r_ended_ms (s_run t) = None → t ∈ tree ↔ under r (run_id root) d.
Proof.
  intros Hr HF [[HN HL] Hlive Hroot Hpar _] Hx. unfold expanded in Hx. rewrite app_nil_r in *.
  intros d. remember (rank d) as n eqn:En. revert d En.
  induction n as [n IH] using lt_wf_ind. intros d -> t Ht Hn.
  pose proof (stored_id r (proj1 Hr) _ _ Ht) as Hid. split.
  - intros [->|(l & p & Hl & Hp & Hpl)]%Hpar; [by left|]. rewrite <- Hid.
    pose proof (HL p Hp) as Hps. destruct (HF _ _ _ Ht Hl) as [_ Hlt]. rewrite <- Hpl in Hlt.
    apply (under_link r _ (run_id p)).
    + by apply (IH (rank (run_id p)) Hlt (run_id p) eq_refl p Hps (Hlive p Hp)).
    + rewrite Hid. by exists t, l.
  - intros [->|Hd].
    { pose proof (HL root Hroot) as Hs. unfold stored in *. by assert (t = root) as -> by congruence. }
    assert (∃ p, under r (run_id root) p ∧ child_link r p d) as (q & Hq & t' & l & Ht' & Hl & Hlq).
    { destruct (tc_last _ _ _ Hd) as [?|(z & Hz & ?)]; eexists; (split; [|done]); [by left|by right]. }
    unfold stored in *. assert (t' = t) as -> by congruence.
    destruct (live_parent r d t l Hr Ht Hn Hl) as (p & Hp & Hpn). destruct (HF _ _ _ Ht Hl) as [_ Hlt].
    rewrite <- Hlq in Hq. apply (IH _ Hlt _ eq_refl p Hp Hpn) in Hq as Hpt.
    apply (Hx p d t l Hpt Ht Hn Hl). by rewrite (stored_id r (proj1 Hr) _ _ Hp).
Qed.
Lemma tree_root r rank root : stored r (run_id root) root → r_ended_ms (s_run root) = None →
  tree_ok r rank root [] [root].
Proof.
  intros Hs Hn. assert (∀ s, s ∈ [] ++ [root] → s = root) as Hone by (by intros s ?%list_elem_of_singleton).
  split.
  - split; [by apply NoDup_singleton|]. by intros s ->%Hone.
  - by intros s ->%Hone.
  - left.
  - intros s ->%Hone. by left.
  - by intros s ->%Hone.
Qed.

Section with_host.
Context `{Host}.
Variable policy : Policy.

(** C13: a hold reaches a run's live subtree, whole: with the number of live runs
    as fuel [set_hold] of a live run succeeds, every live run at or under it is
    held with the given author (or released), and no other run row changes; a run
    already held keeps its hold. *)
Theorem hold_freezes_subtree r id root hold fuel :
  reachable policy r → r !! ("run", id) = Some (CRun root) → r_ended_ms (s_run root) = None →
  (size (live_ids r) ≤ fuel)%nat →
  ∃ changed r', exec (set_hold fuel id hold) r = Ok (changed, r') ∧
    ∀ d t, r !! ("run", d) = Some (CRun t) →
      (r_ended_ms (s_run t) = None → under r id d → r' !! ("run", d) = Some (CRun (frozen hold t))) ∧
      (is_Some (r_ended_ms (s_run t)) ∨ ¬ under r id d → r' !! ("run", d) = Some (CRun t)).
Proof.
  intros Hr%reachable_sound Hroot Hn Hm. pose proof (good_refl r Hr) as Hg.
  pose proof (stored_id r (proj1 Hr) _ _ Hroot) as <-. destruct (inv_forest r (proj1 Hr)) as [rank HF].
  change (twp (set_hold fuel (run_id root) hold) (λ _ r', ∀ d t, r !! ("run", d) = Some (CRun t) →
    (r_ended_ms (s_run t) = None → under r (run_id root) d → r' !! ("run", d) = Some (CRun (frozen hold t))) ∧
    (is_Some (r_ended_ms (s_run t)) ∨ ¬ under r (run_id root) d → r' !! ("run", d) = Some (CRun t))) r).
  unfold set_hold. eapply twp_bind; [by apply exec_found; [apply Hr|]|]. eapply twp_bind; [done|].
  rewrite decide_False by (by rewrite Hn; intros []). eapply twp_seq.
  { apply (twp_hold_tree r rank root fuel [] [root]); [done|done|by apply tree_root| |cbn; lia].
    intros p id c k Hp. by apply elem_of_nil in Hp. }
  intros tree r' (-> & Ht & Hx). pose proof (tree_subtree r rank root tree Hr HF Ht Hx) as Hsub.
  destruct Ht as [Hl Hlive _ _ _]. rewrite app_nil_r in *. eapply twp_mono; [by eapply twp_hold_all|].
  intros changed r' [Hin Hout] d t Hdt. pose proof (stored_id r (proj1 Hr) _ _ Hdt) as <-. split.
  - intros Htn Hu. by apply Hin, (Hsub _ _ Hdt Htn).
  - intros Hno. rewrite Hout; [done|]. intros (u & Hid & Hu)%list_elem_of_fmap.
    pose proof (proj2 Hl u Hu) as Hus. unfold stored in Hus. rewrite <- Hid in Hus.
    assert (u = t) as -> by congruence. pose proof (Hlive t Hu) as Htn.
    apply (Hsub _ _ Hdt Htn) in Hu. destruct Hno as [Hs|Hno]; [|done]. rewrite Htn in Hs. by destruct Hs.
Qed.
End with_host.

(** ** Witness *)

Definition a_hold : Hold := mkHold "op" "maintenance" "" 1400.
Lemma hold_freezes_subtree_witness :
  ∃ changed r', exec (set_hold 2 "p" (Some a_hold)) rows_child = Ok (changed, r') ∧
    ∀ d t, rows_child !! ("run", d) = Some (CRun t) →
      (r_ended_ms (s_run t) = None → under rows_child "p" d →
         r' !! ("run", d) = Some (CRun (frozen (Some a_hold) t))) ∧
      (is_Some (r_ended_ms (s_run t)) ∨ ¬ under rows_child "p" d → r' !! ("run", d) = Some (CRun t)).
Proof.
  apply (hold_freezes_subtree P rows_child "p" (run_at rows_child "p")).
  - apply reachable_child.
  - vm_compute. reflexivity.
  - vm_compute. reflexivity.
  - apply Nat.leb_le. vm_compute. reflexivity.
Defined.
