(* ===== verification/Frame.v ===== *)
(** * Rows no other operation touches

    Some rows are written by few programs: the operator's audit entries and
    responses, the definitions, and the budgets. [Framed R] says that a relation of
    rows before and after holds across a write of any other kind, and when a budget
    is dropped; then it holds across every program that writes no such row. [Kept R]
    adds the writers of entries and definitions, and the relation holds across every
    operation of the store that is not [spend] ([framed_or_spends]); with
    [KeptBudget R] across every operation ([framed_operation]), so across every
    history. *)
From stdpp Require Import relations.
From S2P Require Import Prelude Json Keys Outcome Journal Listen Types Store Index Admit Mailbox.
From S2P Require Import Triggers Lifecycle Control RunStore Logic Rows Steps Preserve Operations History.

Definition framed_family (f : string) : bool :=
  negb (existsb (str_eqb f) ["control_command"; "control_response"; "definitions"; "budget"]).
Definition framed_kind (kind : string) : bool := framed_family (family kind).
Lemma framed_partition f v : no_colon f = true → framed_family f = true → framed_kind (partition f v) = true.
Proof. intros Hf Hx. unfold framed_kind. by rewrite family_partition. Qed.
Lemma framed_partition_app f v t : no_colon f = true → framed_family f = true →
  framed_kind (partition f v +:+ ":" +:+ t) = true.
Proof.
  intros Hf Hx. unfold framed_kind, partition. rewrite string_app_assoc, (string_app_assoc ":").
  by rewrite family_app.
Qed.
Lemma framed_indexed kind : indexed kind = true → framed_kind kind = true.
Proof.
  unfold indexed, framed_kind, framed_family. intros Hi%bool_decide_eq_true.
  apply negb_true_iff, not_true_iff_false. intros (f & Hf%list_elem_of_In & Hk%bool_decide_eq_true)%existsb_exists.
  rewrite Hk in Hi. rewrite !elem_of_cons, elem_of_nil in Hf.
  destruct Hf as [->|[->|[->|[->|[]]]]]; by destruct Hi.
Qed.
Create HintDb framed.
#[export] Hint Extern 1 (framed_kind _ = true) =>
  (first [reflexivity | apply framed_partition; reflexivity | apply framed_partition_app; reflexivity
         | assumption]) : framed.

(** What storing a run writes: rows of its indexes, and its row. *)
Lemma stable_changes {R : relation rows} `{!PreOrder R} (before after : gmap Key cell) :
  (∀ kind id c, after !! (kind, id) = Some c → stable R (put_cell kind id c)) →
  (∀ kind id c, before !! (kind, id) = Some c → stable R (delete_row kind id)) →
  stable R (for_each (changes before after) apply_change).
Proof.
  intros Hp Hd. apply stable_for_each_in. intros [[kind id] o] H%elem_of_changes. simpl in *.
  destruct o as [v|]; simpl; [apply Hp, H|]. destruct H as [_ [v Hv]]. by eapply Hd.
Qed.
Lemma stable_store_run_indexed {R : relation rows} `{!PreOrder R} s (before : option StoredRun) :
  (∀ kind id c, indexed kind = true → stable R (put_cell kind id c)) →
  (∀ kind id, indexed kind = true → stable R (delete_row kind id)) →
  (∀ id c, stable R (put_cell "run" id c)) →
  stable R (store_run_indexed s (match before with Some o => indexes o | None => ∅ end)).
Proof.
  intros Hp Hd Hr. unfold store_run_indexed. apply stable_bind; [|intros; apply Hr].
  apply stable_changes; intros kind id c Hc.
  - apply Hp. apply (indexes_indexed s _ _ Hc).
  - apply Hd. destruct before as [o|]; [apply (indexes_indexed o _ _ Hc)|by rewrite lookup_empty in Hc].
Qed.

Class Framed (R : relation rows) : Prop := {
  framed_insert r kind id c : framed_kind kind = true → R r (<[(kind, id) := c]> r);
  framed_remove r kind id : framed_kind kind = true → R r (delete (kind, id) r);
  framed_unspent r root : R r (delete (("budget" : string), root) r)
}.
(** A budget may be written too. *)
Class KeptBudget (R : relation rows) : Prop :=
  kept_budget r root c : R r (<[(("budget" : string), root) := c]> r).

Section framed.
Context {R : relation rows} `{!PreOrder R, !Framed R}.

Lemma framed_put_cell kind id c : framed_kind kind = true → stable R (put_cell kind id c).
Proof. intros Hk r. by apply wp_put_cell, framed_insert. Qed.
Lemma framed_put {T} `{Row T} kind id (x : T) : framed_kind kind = true → stable R (put kind id x).
Proof. apply framed_put_cell. Qed.
Lemma framed_delete_row kind id : framed_kind kind = true → stable R (delete_row kind id).
Proof. intros Hk r. by apply wp_delete_row, framed_remove. Qed.
Lemma framed_delete_budget root : stable R (delete_row "budget" root).
Proof. intros r. by apply wp_delete_row, framed_unspent. Qed.
Lemma framed_changes before after :
  (∀ k c, before !! k = Some c ∨ after !! k = Some c → framed_kind k.1 = true) →
  stable R (for_each (changes before after) apply_change).
Proof.
  intros Hk. apply stable_changes; intros kind id c Hc; [apply framed_put_cell|apply framed_delete_row].
  - apply (Hk (kind, id) c). by right.
  - apply (Hk (kind, id) c). by left.
Qed.
Lemma framed_store_run_indexed s (before : option StoredRun) :
  stable R (store_run_indexed s (match before with Some o => indexes o | None => ∅ end)).
Proof.
  apply stable_store_run_indexed; intros; [by apply framed_put_cell, framed_indexed|
    by apply framed_delete_row, framed_indexed|by apply framed_put_cell].
Qed.
Lemma framed_store_run s : stable R (store_run s).
Proof. unfold store_run. apply stable_bind; [apply stable_find_run|]. intros old. apply framed_store_run_indexed. Qed.
Lemma framed_restore s s0 : stable R (store_run_indexed s (indexes s0)).
Proof. exact (framed_store_run_indexed s (Some s0)). Qed.
End framed.
#[export] Hint Resolve framed_put_cell framed_put framed_delete_row framed_delete_budget framed_store_run framed_restore : stable.
#[export] Hint Extern 1 (framed_kind _ = true) => (auto 1 with framed nocore) : stable.

(** ** The components *)

Section components.
Context {R : relation rows} `{!PreOrder R, !Framed R}.
Lemma framed_remove_queue k : stable R (remove_queue k).
Proof. unfold remove_queue. solve_stable. Qed.
Hint Resolve framed_remove_queue : stable.
Lemma framed_trigger_indexes key_ t k c : opt_trigger_indexes key_ t !! k = Some c → framed_kind k.1 = true.
Proof.
  destruct t as [t|]; cbn [opt_trigger_indexes]; [|by rewrite lookup_empty]. unfold trigger_indexes.
  intros [Hin|Hm]%elem_of_foldl_insert; [|by rewrite lookup_empty in Hm].
  apply elem_of_app in Hin as [Hin|Hin].
  - destruct (tg_at_ms t); [|by apply elem_of_nil in Hin].
    by apply list_elem_of_singleton in Hin as [= -> ->].
  - apply list_elem_of_fmap in Hin as (ty & [= -> ->] & _). by apply framed_partition.
Qed.
Lemma framed_store_trigger key_ before after : stable R (store_trigger key_ before after).
Proof.
  unfold store_trigger. apply stable_bind; [|intros; solve_stable].
  apply framed_changes. intros k c [Hk|Hk]; by eapply framed_trigger_indexes.
Qed.
Hint Resolve framed_store_trigger : stable.
Lemma framed_arm defs wanted : stable R (arm defs wanted).
Proof. unfold arm. solve_stable. Qed.
Hint Resolve framed_arm : stable.
Lemma framed_pending_rows run n e x : x ∈ pending_rows run n e → framed_kind x.1.1 = true.
Proof.
  unfold pending_rows. rewrite !elem_of_app, !elem_of_cons, elem_of_nil.
  intros [[->|[->|[]]]|[H|H]]; [by apply framed_partition_app..| |].
  - destruct (published e); [|by apply elem_of_nil in H].
    rewrite !elem_of_cons, elem_of_nil in H. destruct H as [->|[->|[]]]; by apply framed_partition.
  - destruct (e_expires_at_ms e); [|by apply elem_of_nil in H].
    apply list_elem_of_singleton in H as ->. by apply framed_partition.
Qed.
Lemma framed_put_rows run n e : stable R (for_each (pending_rows run n e) put_row).
Proof. apply stable_for_each_in. intros x Hx. by eapply framed_put_cell, framed_pending_rows. Qed.
Lemma framed_drop_rows run n e : stable R (for_each (pending_rows run n e) drop_row).
Proof. apply stable_for_each_in. intros x Hx. by eapply framed_delete_row, framed_pending_rows. Qed.
Hint Resolve framed_put_rows framed_drop_rows : stable.
Lemma framed_push s e : stable R (push s e).
Proof. unfold push. solve_stable. Qed.
Lemma framed_consume s n e k : stable R (consume s n e k).
Proof. unfold consume. solve_stable. Qed.
Lemma framed_refresh_mailbox s : stable R (refresh_mailbox s).
Proof. unfold refresh_mailbox. solve_stable. Qed.
Hint Resolve framed_push framed_consume framed_refresh_mailbox : stable.
Lemma framed_notify parent t data now : stable R (notify parent t data now).
Proof. unfold notify. solve_stable. Qed.
Hint Resolve framed_notify : stable.
Context `{Host}.
Hint Resolve stable_envelope : stable.
Lemma framed_expire s now : stable R (expire s now).
Proof. unfold expire, expire_one. solve_stable. Qed.
Lemma framed_accept s e now : stable R (accept s e now).
Proof. unfold accept. solve_stable. Qed.
Hint Resolve framed_expire framed_accept : stable.
Lemma framed_deliver event target now policy : stable R (deliver event target now policy).
Proof. unfold deliver. solve_stable. Qed.
Lemma framed_publish event target now policy : stable R (publish event target now policy).
Proof. unfold publish, publish_one. solve_stable. Qed.
Lemma framed_forget s : stable R (forget s).
Proof. unfold forget, forget_event. solve_stable. Qed.
Lemma framed_lifecycle id status now : stable R (lifecycle id status now).
Proof. unfold lifecycle, close_waiting. solve_stable. Qed.
Lemma framed_add_bucket name now runs t : stable R (add_bucket name now runs t).
Proof. unfold add_bucket. solve_stable. Qed.
Hint Resolve framed_lifecycle framed_add_bucket : stable.
Lemma framed_end_child spent now c child : stable R (end_child spent now c child).
Proof. unfold end_child. solve_stable. Qed.
Hint Resolve framed_end_child : stable.
Lemma framed_cascade fuel spent now c : stable R (cascade fuel spent now c).
Proof.
  revert c. induction fuel as [|n IH]; intros c; cbn [cascade]; destruct (parents c); solve_stable. 
Qed.
Lemma framed_rearm_trigger s now : stable R (rearm_trigger s now).
Proof. unfold rearm_trigger. solve_stable. Qed.
Lemma framed_admitted a now join : stable R (admitted a now join).
Proof. unfold admitted. solve_stable. Qed.
Hint Resolve framed_cascade framed_rearm_trigger framed_admitted : stable.
Lemma framed_insert_run a now : stable R (insert_run a now).
Proof. unfold insert_run. solve_stable. Qed.
Hint Resolve framed_insert_run : stable.
Lemma framed_admit_firing k a rearm next now : stable R (admit_firing k a rearm next now).
Proof. unfold admit_firing. solve_stable. Qed.
End components.
#[export] Hint Resolve framed_remove_queue framed_store_trigger framed_arm framed_put_rows framed_drop_rows
  framed_push framed_consume framed_refresh_mailbox framed_notify stable_envelope framed_expire
  framed_accept framed_deliver framed_publish framed_forget framed_lifecycle framed_cascade
  framed_rearm_trigger framed_admitted framed_insert_run framed_admit_firing framed_add_bucket : stable.

(** ** The writers of framed rows *)

Section definitions.
Context `{Host}.
Class KeptBreaker (R : relation rows) : Prop :=
  kept_breaker run fault success default_ now : stable R (breaker run fault success default_ now).
Class Kept (R : relation rows) (policy : Policy) : Prop := {
  kept_activate name version epoch_ arming a : stable R (activate name version epoch_ arming a);
  kept_save_definition name yaml b : stable R (save_definition_tx name yaml b);
  kept_pause request name note now : stable R (pause_command request name note now);
  kept_resume name now : stable R (resume_command name now);
  kept_respond request id k event now : stable R (respond_command request id k event now policy);
  kept_control fuel request c now :
    (∀ id now, stable R (cancel_command fuel id now)) → (∀ id hold, stable R (set_hold fuel id hold)) →
    (∀ enabled now, stable R (stop_command enabled now)) → stable R (control_command fuel request c now policy)
}.
End definitions.

Section kept_breaker.
Context `{Host} {R : relation rows} `{!PreOrder R, !Framed R, !KeptBreaker R}.
Lemma framed_breaker run fault success default_ now : stable R (breaker run fault success default_ now).
Proof. apply kept_breaker. Qed.
Hint Resolve framed_breaker : stable.
Lemma framed_refuse refused now : stable R (refuse refused now).
Proof. unfold refuse. solve_stable. Qed.
Hint Resolve framed_refuse : stable.
Lemma framed_drain_queues name now : stable R (drain_queues name now).
Proof. unfold drain_queues, drain_one. solve_stable. Qed.
Hint Resolve framed_drain_queues : stable.
Lemma framed_drain_marked name now : stable R (drain_marked name now).
Proof. unfold drain_marked. solve_stable. Qed.
Lemma framed_drain_pending now limit : stable R (drain_pending now limit).
Proof. unfold drain_pending. solve_stable. Qed.
Hint Resolve framed_drain_marked framed_drain_pending : stable.
Lemma framed_terminate fuel id status now : stable R (terminate fuel id status now).
Proof. unfold terminate. solve_stable. Qed.
Hint Resolve framed_terminate : stable.
Lemma framed_cancel_run fuel id now : stable R (cancel_run fuel id now).
Proof. unfold cancel_run. solve_stable. Qed.
Hint Resolve framed_cancel_run : stable.
Lemma framed_tombstone event now : stable R (tombstone event now).
Proof. unfold tombstone. solve_stable. Qed.
Lemma framed_bury event k old now policy : stable R (bury event k old now policy).
Proof. unfold bury. solve_stable. Qed.
Lemma framed_decision fuel f now : stable R (decision fuel f now).
Proof. unfold decision, overlap_decision, exclusive_decision. solve_stable. Qed.
Hint Resolve framed_tombstone framed_bury framed_decision : stable.
Lemma framed_fire_checked fuel f current now policy : stable R (fire_checked fuel f current now policy).
Proof. unfold fire_checked. solve_stable. Qed.
Lemma framed_first_refusal d l : stable R (first_refusal d l).
Proof. induction l as [|a l IH]; simpl; solve_stable. Qed.
Hint Resolve framed_fire_checked framed_first_refusal : stable.
Lemma framed_fire fuel f now policy : stable R (fire fuel f now policy).
Proof. unfold fire. solve_stable. Qed.
Lemma framed_set_hold fuel id hold : stable R (set_hold fuel id hold).
Proof.
  assert (∀ n tree pending, stable R (hold_tree n tree pending)) as Htree.
  { intros n. induction n as [|n IH]; intros tree [|s pending]; cbn [hold_tree]; solve_stable. }
  unfold set_hold, hold_one. solve_stable.
Qed.
Lemma framed_cancel_command fuel id now : stable R (cancel_command fuel id now).
Proof. unfold cancel_command. solve_stable. Qed.
Lemma framed_stop_command enabled now : stable R (stop_command enabled now).
Proof. unfold stop_command. solve_stable. Qed.
End kept_breaker.
#[export] Hint Resolve framed_drain_queues framed_drain_marked framed_drain_pending framed_terminate
  framed_cancel_run framed_fire framed_breaker : stable.

(** ** Every operation *)

Section operations.
Context `{Host} (policy : Policy) {R : relation rows} `{!PreOrder R, !Framed R, !KeptBreaker R, !Kept R policy}.
Hint Extern 1 => progress (apply stable_checked || apply stable_authority || apply stable_running) : stable.

Hint Resolve stable_oldest stable_awaited_wanted stable_subscribed_wanted : stable.
Lemma framed_finish fuel f outcome now threshold : stable R (finish_tx policy fuel f outcome now threshold).
Proof. unfold finish_tx, finish_row, pending_wanted. solve_stable. Qed.
Lemma framed_start_child owner parent a link now : stable R (start_child_tx policy owner parent a link now).
Proof. unfold start_child_tx, claim_run. solve_stable. Qed.
Lemma framed_sweep now kept : stable R (sweep_tx now kept).
Proof. unfold sweep_tx, sweep_finished, sweep_mailbox, sweep_index. solve_stable. Qed.
Lemma framed_due_as now limit worker : stable R (due_as_tx now limit worker).
Proof. unfold due_as_tx, due_ids. solve_stable. Qed.
Lemma framed_take_event f k types now : stable R (take_event_tx policy f k types now).
Proof. unfold take_event_tx. solve_stable. Qed.
Lemma framed_save_record f k x now : stable R (save_record_tx policy f k x now).
Proof. unfold save_record_tx, not_held. solve_stable. Qed.
Lemma framed_spend `{!KeptBudget R} f k limit now : stable R (spend_tx policy f k limit now).
Proof.
  assert (∀ root (n : Z), stable R (put "budget" root n)) as Hb.
  { intros root n r. apply wp_put, kept_budget. }
  unfold spend_tx. solve_stable.
Qed.
Lemma framed_admit a now : stable R (admit_tx a now).
Proof. unfold admit_tx. solve_stable. Qed.
Lemma framed_start owner a now : stable R (start_tx owner a now).
Proof. unfold start_tx, claim_run. solve_stable. Qed.
Lemma framed_claim owner id now worker : stable R (claim_as_tx owner id now worker).
Proof. unfold claim_as_tx, claim_run. solve_stable. Qed.
Lemma framed_beat w : stable R (beat_tx w).
Proof. unfold beat_tx. solve_stable. Qed.
Lemma framed_apply_control fuel request c now : stable R (apply_control_tx policy fuel request c now).
Proof.
  apply kept_control; [apply framed_cancel_command|apply framed_set_hold|apply framed_stop_command].
Qed.
(** A framed relation that the writers keep holds across every operation but [spend]. *)
Lemma framed_or_spends {A} (p : prog A) : operation policy p → spends policy p ∨ stable R p.
Proof.
  destruct 1; try (left; constructor; fail); right;
    [ apply framed_admit | apply framed_start | apply framed_claim | | | apply framed_save_record
    | | | | apply framed_take_event | | | apply framed_deliver | apply framed_publish
    | apply framed_finish | apply framed_start_child | apply framed_cancel_run | apply framed_fire
    | apply framed_due_as | apply framed_sweep | apply framed_apply_control | apply framed_beat
    | apply kept_save_definition | | apply kept_activate | ].
  - unfold renew_tx. solve_stable.
  - unfold release_tx. solve_stable.
  - unfold describe_wait_tx. solve_stable.
  - unfold register_wait_tx. solve_stable.
  - unfold unregister_wait_tx. solve_stable.
  - unfold subscribe_tx. solve_stable.
  - unfold unsubscribe_tx. solve_stable.
  - unfold activate_tx. apply stable_bind; [apply kept_activate|solve_stable].
  - unfold acknowledge_tx. solve_stable.
Qed.
Context `{!KeptBudget R}.
Lemma framed_operation {A} (p : prog A) : operation policy p → stable R p.
Proof. intros [Hp|Hp]%framed_or_spends; [|done]. destruct Hp. apply framed_spend. Qed.
Lemma framed_steps r r' : rtc (step policy) r r' → R r r'.
Proof.
  induction 1 as [r|r r1 r' (A & p & a & Hp & E) _ IH]; [done|]. etrans; [|done].
  exact (wp_exec _ _ _ _ _ (framed_operation p Hp r) E).
Qed.
End operations.
