(* ===== verification/MailboxSpec.v ===== *)
(** * Deliveries and taken events

    A run holds an event once, by its identity, and takes it once: redelivery of
    the same event changes nothing, another payload under its identity is refused,
    and a taken event is journaled, so a replay takes the same one. *)
From S2P Require Import Prelude Json Keys Outcome Journal Listen Types Store Index Admit Mailbox.
From S2P Require Import Triggers Lifecycle Control RunStore Logic Ordered Rows Steps Preserve Terminate Operations.
From S2P Require Import History Frame Samples.

(** ** Families of rows a program leaves *)

Definition spared (fs : list string) (kind : string) : bool := negb (existsb (str_eqb (family kind)) fs).
Definition same_rows (fs : list string) (r r' : rows) : Prop :=
  ∀ kind id, spared fs kind = false → r' !! (kind, id) = r !! (kind, id).
#[export] Instance same_rows_preorder fs : PreOrder (same_rows fs).
Proof. split; [done|]. intros r1 r2 r3 H1 H2 kind id Hk. by rewrite H2, H1. Qed.
Lemma same_put fs kind id c : spared fs kind = true → stable (same_rows fs) (put_cell kind id c).
Proof.
  intros Hf r. apply wp_put_cell. intros kind' id' Hk. rewrite lookup_insert_ne; [done|]. intros [= <- _]. congruence.
Qed.
Lemma same_put_row {T} `{Row T} fs kind id (x : T) : spared fs kind = true → stable (same_rows fs) (put kind id x).
Proof. apply same_put. Qed.
Lemma same_delete fs kind id : spared fs kind = true → stable (same_rows fs) (delete_row kind id).
Proof.
  intros Hf r. apply wp_delete_row. intros kind' id' Hk. rewrite lookup_delete_ne; [done|]. intros [= <- _]. congruence.
Qed.
Lemma family_partition_app f v t : no_colon f = true → family (partition f v +:+ ":" +:+ t) = f.
Proof. intros Hf. unfold partition. by rewrite !string_app_assoc, family_app. Qed.
Ltac spared_family :=
  unfold spared, events_of, identities_of, types_of, pending_of, live_of, published_of, live_published_of,
    expiring_of, records_of; rewrite ?family_partition, ?family_partition_app by reflexivity; reflexivity.
#[export] Hint Extern 1 (spared _ _ = true) => spared_family : stable.
#[export] Hint Resolve same_put same_put_row same_delete : stable.

(** The rows of a run's copies and identities, the routes of deliveries and the
    journal. *)
Definition copies_rows : list string := ["event"; "event_id"; "delivered"; "record"].
Lemma spared_pending run n e x : x ∈ pending_rows run n e → spared copies_rows x.1.1 = true.
Proof.
  unfold pending_rows. rewrite !elem_of_app, !elem_of_cons, elem_of_nil.
  intros [[->|[->|[]]]|[H|H]]; cbn [fst]; [spared_family..| |].
  - destruct (published e); [|by apply elem_of_nil in H].
    rewrite !elem_of_cons, elem_of_nil in H. destruct H as [->|[->|[]]]; cbn [fst]; spared_family.
  - destruct (e_expires_at_ms e); [|by apply elem_of_nil in H].
    apply list_elem_of_singleton in H as ->. cbn [fst]. spared_family.
Qed.
Lemma same_put_pending run n e : stable (same_rows copies_rows) (for_each (pending_rows run n e) put_row).
Proof. apply stable_for_each_in. intros x Hx%spared_pending. by apply same_put. Qed.
Lemma same_drop_pending run n e : stable (same_rows copies_rows) (for_each (pending_rows run n e) drop_row).
Proof. apply stable_for_each_in. intros x Hx%spared_pending. by apply same_delete. Qed.
#[export] Hint Resolve same_put_pending same_drop_pending : stable.
Lemma copies_indexed kind : indexed kind = true → spared copies_rows kind = true.
Proof.
  unfold indexed, spared. intros Hi%bool_decide_eq_true.
  apply negb_true_iff, not_true_iff_false. intros (f & Hf%list_elem_of_In & Hk%bool_decide_eq_true)%existsb_exists.
  rewrite Hk in Hi. unfold copies_rows in Hf. rewrite !elem_of_cons, elem_of_nil in Hf.
  destruct Hf as [->|[->|[->|[->|[]]]]]; by destruct Hi.
Qed.
Lemma same_store_run s : stable (same_rows copies_rows) (store_run s).
Proof.
  unfold store_run. apply stable_bind; [apply stable_find_run|]. intros old.
  apply stable_store_run_indexed; intros; [by apply same_put, copies_indexed|
    by apply same_delete, copies_indexed|by apply same_put].
Qed.
#[export] Hint Resolve same_store_run : stable.
Lemma wp_same_rows {A} (p : prog A) (Q : A → rows → Prop) r : stable (same_rows copies_rows) p →
  (∀ a r', same_rows copies_rows r r' → Q a r') → wp p Q r.
Proof. intros Hp HQ. eapply wp_mono; [apply Hp|auto]. Qed.
Lemma other_family (k k' : Key) : family k.1 ≠ family k'.1 → k ≠ k'.
Proof. by intros Hf ->. Qed.
Ltac other_family :=
  apply other_family; cbn [fst]; unfold events_of, identities_of, records_of;
  rewrite ?family_partition by reflexivity; discriminate.

(** ** A stored copy *)

(** The run holds a copy of the event under its identity. *)
Definition holds (r : rows) (id i : string) (event : value) : Prop :=
  ∃ c n e, r !! (identities_of id, component i) = Some c ∧ of_cell c = Some n ∧
    r !! (events_of id, sequence n) = Some (CEvent e) ∧ payload <$> e_envelope e = Some (payload event).
Lemma holds_same r r' id i event : same_rows copies_rows r r' → holds r id i event → holds r' id i event.
Proof.
  intros Hs (c & n & e & H1 & H2 & H3). exists c, n, e. rewrite !Hs; [done| |];
    unfold events_of, identities_of, spared; by rewrite family_partition.
Qed.
(** Where deliveries of the identity go: the rows of [delivered], with a run's. *)
Definition routed (i id : string) (delivered : bool) (r r' : rows) : Prop :=
  ∀ kind k, family kind = "delivered" →
    r' !! (kind, k) = (if delivered then <[(partition "delivered" i, id) := to_cell id]> r else r) !! (kind, k).
Lemma routed_same i id delivered r r1 r2 :
  routed i id delivered r r1 → same_rows copies_rows r1 r2 → routed i id delivered r r2.
Proof.
  intros H1 H2 kind k Hk. rewrite <- H1 by done. apply H2. unfold spared. by rewrite Hk.
Qed.
Lemma push_holds s e i event r : e_envelope e = Some event → identity event = Some i →
  wp (push s e) (λ s' r', holds r' (run_id s) i event ∧ run_id s' = run_id s ∧
    routed i (run_id s) (e_delivered e) r r') r.
Proof.
  intros He Hi. unfold push. apply wp_bind, wp_some_or. intros acc _. cbv zeta.
  apply wp_bind, wp_put. set (r1 := <[_ := _]> r). rewrite He. cbn [mbind option_bind]. rewrite Hi.
  apply wp_bind, wp_bind, wp_put. set (r2 := <[_ := _]> r1).
  assert (holds r2 (run_id s) i event) as Hh.
  { eexists _, (s_accepted s), e. split; [apply lookup_insert_eq|]. split; [apply of_to_cell|].
    split; [|by rewrite He].
    unfold r2. rewrite lookup_insert_ne; [apply lookup_insert_eq|other_family]. }
  assert (∀ kind k, family kind = "delivered" → r2 !! (kind, k) = r !! (kind, k)) as Hd2.
  { intros kind k Hk. unfold r2, r1. rewrite !lookup_insert_ne; [done|apply other_family..]; cbn [fst];
      rewrite Hk; unfold events_of, identities_of; by rewrite family_partition. }
  clearbody r1 r2.
  eapply (wp_mono _ (λ _ r3, holds r3 (run_id s) i event ∧ routed i (run_id s) (e_delivered e) r r3)).
  { destruct (e_delivered e); [|apply wp_ret; by split]. apply wp_put. split.
    - destruct Hh as (c & n & h & H1 & H2 & H3). exists c, n, h. by rewrite !lookup_insert_ne by other_family.
    - intros kind k Hk. destruct (decide ((kind, k) = (partition "delivered" i, run_id s))) as [->|Hne].
      + by rewrite !lookup_insert_eq.
      + rewrite !lookup_insert_ne by done. by apply Hd2. }
  intros _ r3 [Hh3 Hr3]. apply wp_bind, wp_same_rows; [solve_stable|]. intros ? r4 H4.
  apply wp_bind, wp_same_rows; [solve_stable|]. intros ? r5 H5.
  apply wp_bind, wp_same_rows; [solve_stable|]. intros ? r6 H6. apply wp_ret.
  assert (same_rows copies_rows r3 r6) as Hsame by (etrans; [|exact H6]; by etrans).
  split; [by eapply holds_same|]. split; [done|]. by eapply routed_same.
Qed.

(** The first row of a kind after a row is put. *)
Lemma first_row r r' kind k c :
  (∀ id, r' !! (kind, id) = <[(kind, k) := c]> r !! (kind, id)) →
  scan_rows r' kind "" None (Some 1%nat) = [(k, c)] ∨
  scan_rows r' kind "" None (Some 1%nat) = scan_rows r kind "" None (Some 1%nat) ∧
    scan_rows r kind "" None (Some 1%nat) ≠ [].
Proof.
  intros Hr. unfold scan_rows, limited.
  assert (∀ x, x ∈ rows_of r' kind "" None ↔ x = (k, c) ∨ x ∈ rows_of r kind "" None ∧ x.1 ≠ k) as Hin.
  { intros [j d]. rewrite !elem_of_rows_of, Hr. unfold in_range. rewrite str_leb_nil. cbn [fst].
    destruct (decide (j = k)) as [->|Hne].
    - rewrite lookup_insert_eq. split; [intros [[= <-] _]; by left|]. intros [[= ->]|[_ Hk]]; done.
    - rewrite lookup_insert_ne by congruence. split; [tauto|]. intros [[= -> _]|[Hx _]]; done. }
  pose proof (rows_of_sorted r' kind "" None) as Hs'. pose proof (rows_of_sorted r kind "" None) as Hs.
  pose proof (rows_of_NoDup r kind "" None) as HN.
  destruct (rows_of r' kind "" None) as [|x l'].
  { exfalso. eapply not_elem_of_nil, Hin. by left. }
  apply StronglySorted_inv in Hs' as [_ Hx]. rewrite Forall_forall in Hx. cbn [take].
  destruct (proj1 (Hin x)) as [->|[Hxr Hxk]]; [left|by left|right].
  destruct (rows_of r kind "" None) as [|y l]; [by apply not_elem_of_nil in Hxr|].
  apply StronglySorted_inv in Hs as [_ Hy]. rewrite Forall_forall in Hy. cbn [take].
  split; [|done]. do 2 f_equal. apply elem_of_cons in Hxr as [?|Hxr]; [done|]. exfalso.
  pose proof (Hy x Hxr) as Hyx. unfold key_le in *. rewrite fmap_cons, NoDup_cons in HN.
  assert (y.1 ≠ x.1) as Hne.
  { intros E. apply HN. rewrite E. by apply list_elem_of_fmap_2. }
  apply Hne, (anti_symm String.le); [done|].
  destruct (decide (y.1 = k)) as [Hk|Hk].
  - rewrite Hk. assert ((k, c) ∈ x :: l') as Hkc by (apply Hin; by left).
    apply elem_of_cons in Hkc as [<-|Hkc]; [done|]. exact (Hx _ Hkc).
  - assert (y ∈ x :: l') as Hyl by (apply Hin; right; split; [left|done]).
    apply elem_of_cons in Hyl as [->|Hyl]; [done|]. exact (Hx _ Hyl).
Qed.

(** ** Deliveries *)

Section with_host.
Context `{Host} (policy : Policy).

(** What [accept] answers leads to a held copy. *)
Lemma accept_holds s e now i event r : e_envelope e = Some event → identity event = Some i →
  wp (accept s e now) (λ o r', holds r' (run_id s) i event ∧
    match o with Some s' => run_id s' = run_id s ∧ routed i (run_id s) (e_delivered e) r r' | None => r' = r end) r.
Proof.
  intros He Hi. unfold accept. rewrite He. cbn [mbind option_bind]. rewrite Hi. apply wp_bind.
  eapply (wp_mono _ (λ b r1, r1 = r ∧ (b = true → holds r (run_id s) i event))).
  { apply wp_bind, wp_get; [intros _; by apply wp_ret|]. intros c n Hc Hn. apply wp_bind. unfold copy.
    apply wp_bind, wp_get; [done|]. intros c' h Hc' Hh. apply wp_pret. case_decide as Hp; [|done].
    apply wp_ret. split; [done|]. intros _. destruct c'; try done. cbn in Hh. injection Hh as ->.
    exists c, n, h. split; [done|]. split; [done|]. split; [done|]. by rewrite <- Hp. }
  intros [] r1 [-> Hh]; [apply wp_ret; split; [by apply Hh|done]|].
  apply wp_bind. set (s1 := if wanted s e now then _ else _).
  assert (run_id s1 = run_id s) as Hid by (unfold s1; by destruct (wanted s e now)).
  eapply wp_mono; [by apply push_holds|]. intros s' r' (Hh' & Hid' & Hr'). rewrite Hid in Hh', Hid', Hr'.
  by apply wp_ret.
Qed.
(** A held copy answers: the same payload is accepted already, another refused. *)
Lemma exec_accept_held s e now i event r : identity event = Some i → holds r (run_id s) i event →
  (e_envelope e ≫= identity) = Some i →
  exec (accept s e now) r =
    if decide (payload <$> e_envelope e = Some (payload event)) then Ok (None, r)
    else Err (EIdentityConflict (show_identity i)).
Proof.
  intros Hi (c & n & h & Hc & Hn & Hh & Hp) He. unfold accept. rewrite He.
  assert (of_cell (CEvent h) = Some h) as Hev by done.
  rewrite exec_bind, exec_bind, (exec_get (T := Z) _ _ c n r Hc Hn), exec_bind. unfold copy.
  rewrite exec_bind, (exec_get (T := StoredEvent) _ _ (CEvent h) h r Hh Hev). cbn [some_or exec]. rewrite Hp. by case_decide.
Qed.

(** [deliver] in two steps: the recipient, and what it is handed. *)
Definition recipient (target : option string) (i : string) (t : string) : prog (option StoredRun) :=
  match target with
  | Some target => find_run target
  | None =>
      first ← indexed_runs (partition "delivered" i) "" None (Some 1%nat);
      match last first with
      | Some first => mret (Some first)
      | None => w ← indexed_runs (partition "wait" t) "" None (Some 1%nat); mret (last w)
      end
  end.
Definition hand_over (stored : StoredEvent) (i : string) (now : Z) (c : option StoredRun) : prog (option string) :=
  match c with
  | None => mret None
  | Some snapshot =>
      let recipient := run_id snapshot in
      gone ← (if decide (is_Some (r_ended_ms (s_run snapshot))) then
                held ← get_cell (identities_of recipient) (component i);
                mret (bool_decide (held = None))
              else mret false);
      if (gone : bool) then mret None
      else
        accepted ← accept snapshot stored now;
        _ ← match accepted with Some s => store_run s | None => mret () end;
        mret (Some recipient)
  end.
Definition delivered_copy (event : value) (t : string) (now : Z) : StoredEvent :=
  mkEvent t (default VNull (vget "data" event)) now None (Some event) true
    (Some (sat_add64 now (mailbox_ms policy))).
Lemma exec_deliver event target now i t r : identity event = Some i → event_type event = Some t →
  exec (deliver_tx policy event target now) r =
  exec (recipient target i t ≫= hand_over (delivered_copy event t now) i now) r.
Proof. intros Hi Ht. unfold deliver_tx, deliver. by rewrite Ht, Hi. Qed.

Lemma wp_recipient target i t r : sound r →
  wp (recipient target i t) (λ c r', r' = r ∧ ∀ s, c = Some s →
    stored r (run_id s) s ∧ ∀ id, target = Some id → run_id s = id) r.
Proof.
  intros Hg%good_refl. unfold recipient. destruct target as [id|].
  - eapply wp_find_run; [done|done|]. intros s Hid Hs. split; [done|]. intros ? [= <-]. rewrite Hid.
    split; [done|]. by intros ? [= ->].
  - apply wp_bind. eapply wp_indexed_runs; [done|]. intros l Hl. destruct (last l) as [s|] eqn:E.
    + apply wp_ret. split; [done|]. intros ? [= <-]. split; [|done].
      eapply Forall2_stored; [done|by apply last_Some_elem].
    + apply wp_bind. eapply wp_indexed_runs; [done|]. intros l' Hl'. apply wp_ret. split; [done|].
      intros s Hs. split; [|done]. eapply Forall2_stored; [exact Hl'|by apply last_Some_elem].
Qed.
Lemma hand_over_holds e i event now s r : e_envelope e = Some event → identity event = Some i →
  e_delivered e = true →
  wp (hand_over e i now (Some s)) (λ o r', ∀ id, o = Some id →
    id = run_id s ∧ holds r' id i event ∧ (r' = r ∨ routed i id true r r')) r.
Proof.
  intros He Hi Hd. unfold hand_over. apply wp_bind, wp_reads; [solve_stable|]. intros [] ; [by apply wp_ret|].
  apply wp_bind. eapply wp_mono; [by apply accept_holds|]. intros [s'|] r1 [Hh Hr]; apply wp_bind.
  - apply wp_same_rows; [solve_stable|]. intros _ r2 H2. apply wp_ret. intros ? [= <-]. split; [done|].
    rewrite Hd in Hr. split; [by eapply holds_same|]. right. eapply routed_same; [apply Hr|done].
  - apply wp_ret, wp_ret. intros ? [= <-]. subst r1. auto.
Qed.
(** Handed over again to the run that holds it. *)
Lemma hand_over_again e i event now s r : identity event = Some i → holds r (run_id s) i event →
  (e_envelope e ≫= identity) = Some i →
  exec (hand_over e i now (Some s)) r =
    if decide (payload <$> e_envelope e = Some (payload event)) then Ok (Some (run_id s), r)
    else Err (EIdentityConflict (show_identity i)).
Proof.
  intros Hi Hh He. unfold hand_over. rewrite exec_bind.
  assert (exec (if decide (is_Some (r_ended_ms (s_run s))) then
      held ← get_cell (identities_of (run_id s)) (component i); mret (bool_decide (held = None))
    else mret false) r = Ok (false, r)) as ->.
  { case_decide; [|done]. rewrite exec_bind. cbn [get_cell exec exec_op].
    destruct Hh as (c & n & h & -> & _). done. }
  rewrite exec_bind, (exec_accept_held s e now i event r Hi Hh He). by case_decide.
Qed.
(** The recipient after a delivery is the run it went to. *)
Lemma recipient_again target i t r r1 s s1 : sound r → Inv r1 → exec (recipient target i t) r = Ok (Some s, r) →
  routed i (run_id s) true r r1 → stored r1 (run_id s) s1 →
  exec (recipient target i t) r1 = Ok (Some s1, r1).
Proof.
  intros Hs HI1 E Hr Hs1. destruct (wp_exec _ _ _ _ _ (wp_recipient target i t r Hs) E) as [_ Hst].
  destruct (Hst s eq_refl) as [Hss Ht]. unfold recipient in *. destruct target as [id|].
  { rewrite <- (Ht id eq_refl). by apply exec_found. }
  assert (family (partition "delivered" i) = "delivered") as Hfam by by rewrite family_partition.
  assert (∀ x c, scan_rows r1 (partition "delivered" i) "" None (Some 1%nat) = [(x, c)] →
    index_id c = Some (run_id s) →
    exec (indexed_runs (partition "delivered" i) "" None (Some 1%nat)) r1 = Ok ([s1], r1)) as Hone.
  { intros x c Hx Hc. unfold indexed_runs. rewrite exec_bind. cbn [scan exec exec_op]. rewrite Hx.
    cbn [map_each]. rewrite exec_bind, exec_bind, Hc. cbn [some_or exec]. by rewrite (exec_run _ _ s1). }
  rewrite exec_bind.
  destruct (first_row r r1 (partition "delivered" i) (run_id s) (to_cell (run_id s))) as [E1|[E1 Hne]].
  { intros k. exact (Hr _ k Hfam). }
  { by rewrite (Hone _ _ E1). }
  destruct (scan_rows r (partition "delivered" i) "" None (Some 1%nat)) as [|[x c] l] eqn:E0; [done|].
  assert (l = []) as ->.
  { unfold scan_rows, limited in E0. destruct (rows_of r _ _ _); [done|]. by injection E0. }
  rewrite exec_bind in E. unfold indexed_runs at 1 in E. rewrite exec_bind in E.
  cbn [scan exec exec_op] in E. rewrite E0 in E. cbn [map_each] in E. rewrite !exec_bind in E.
  destruct (index_id c) as [id|] eqn:Ec; [|done]. cbn [some_or exec] in E.
  destruct (exec (run id) r) as [[s' r']|] eqn:Er; [|done]. cbn in E. injection E as <- _.
  pose proof (wp_run [] r id (λ s _, run_id s = id) r (good_refl r Hs)) as Hrun.
  rewrite (Hone _ _ E1); [done|]. rewrite Ec. f_equal. symmetry.
  refine (wp_exec _ _ _ _ _ (Hrun _) Er). done.
Qed.

(** C19: an ingress delivery is made once per run: when the store answered the run an
    event went to, that run holds it, and delivering the event again as it was delivered
    (to the same target, or again without one) or to the run that holds it answers the
    same run and writes nothing; an event of the same type and identity with another
    payload is refused as a conflict. Repeated without its target, an event delivered by
    name is another delivery: it may go to another run ([redelivered_to_the_least]). *)
Theorem deliver_once r r1 event target now i t id :
  reachable policy r → identity event = Some i → event_type event = Some t →
  exec (deliver_tx policy event target now) r = Ok (Some id, r1) →
  holds r1 id i event ∧
  ∀ event' target' now', identity event' = Some i → event_type event' = Some t →
    target' = target ∨ target' = Some id →
    exec (deliver_tx policy event' target' now') r1 =
      if decide (payload event' = payload event) then Ok (Some id, r1)
      else Err (EIdentityConflict (show_identity i)).
Proof.
  intros Hr Hi Ht E. pose proof (reachable_sound _ _ Hr) as Hsound.
  assert (reachable policy r1) as Hr1.
  { replace r1 with (after (deliver_tx policy event target now) r) by (unfold after, committed; by rewrite E).
    apply reachable_after; [done|constructor]. }
  pose proof (reachable_Inv _ _ Hr1) as HI1.
  assert (good r r1) as (_ & Hev & _).
  { exact (wp_exec _ _ _ _ _ (keeps_deliver event target now policy r r (good_refl r Hsound)) E). }
  rewrite (exec_deliver _ _ _ i t r Hi Ht), exec_bind in E.
  destruct (exec (recipient target i t) r) as [[[s|] r0]|] eqn:Ec; [|done|done].
  destruct (wp_exec _ _ _ _ _ (wp_recipient target i t r Hsound) Ec) as [-> Hst].
  destruct (Hst s eq_refl) as [Hs _].
  destruct (wp_exec _ _ _ _ _ (hand_over_holds (delivered_copy event t now) i event now s r
    eq_refl Hi eq_refl) E id eq_refl) as (-> & Hh & Hrt).
  split; [done|]. intros event' target' now' Hi' Ht' Htg.
  destruct (ev_run _ _ Hev _ _ Hs) as (s1 & Hs1 & _).
  assert (∃ s2, run_id s2 = run_id s ∧ exec (recipient target' i t) r1 = Ok (Some s2, r1)) as (s2 & Hid & E2).
  { destruct Htg as [->| ->].
    - destruct Hrt as [->|Hrt]; [by exists s|]. exists s1. split; [by eapply stored_id|].
      by eapply recipient_again.
    - exists s1. split; [by eapply stored_id|]. by apply exec_found. }
  rewrite (exec_deliver _ _ _ i t r1 Hi' Ht'), exec_bind, E2. cbv iota beta.
  rewrite (hand_over_again (delivered_copy event' t now') i event now' s2 r1 Hi);
    [|by rewrite Hid|done]. cbn. rewrite Hid.
  destruct (decide (payload event' = payload event)) as [Hp|Hp].
  - rewrite decide_True; [done|by rewrite Hp].
  - rewrite decide_False; [done|congruence].
Qed.

(** ** Taken events *)

(** A copy under its number, consumed under a key. *)
Definition consumed_copy (r : rows) (id : string) (n : Z) (e : StoredEvent) (k : string) : Prop :=
  r !! (events_of id, sequence n) = Some (CEvent (e <| e_consumed_key := Some k |>)).
Lemma consume_consumed s n e k r :
  wp (consume s n e k) (λ s' r', consumed_copy r' (run_id s) n e k) r.
Proof.
  unfold consume. apply wp_bind, wp_same_rows; [solve_stable|]. intros _ r1 _. apply wp_bind, wp_put, wp_ret.
  apply lookup_insert_eq.
Qed.
Lemma wp_take f k types now s r : sound r → acting r f now (skew_ms policy) s → r !! (records_of (f_run_id f), k) = None →
  wp (take_event_tx policy f k types now) (λ o r', ∀ event, o = Some event →
    r' !! (records_of (f_run_id f), k) = Some (CRecord (REvent event)) ∧
    ∃ n e r0, exec (envelope e) r0 = Ok (event, r0) ∧ consumed_copy r' (f_run_id f) n e k) r.
Proof.
  intros Hs Ha Hn. pose proof (act_inv Ha) as HI. unfold take_event_tx. apply wp_bind.
  eapply wp_step; [apply (act_checked Ha)|]. cbv zeta. apply wp_bind, wp_get; [intros _|intros; congruence].
  apply wp_bind. eapply (wp_expire r); [by apply good_refl|eapply stored_staged; [done|apply (act_stored Ha)]|].
  intros s1 m r1 Hg1 _ _ Hc1. cbn [fst snd]. apply wp_bind, wp_reads; [apply stable_oldest|]. intros [n|].
  2: { apply wp_bind, wp_exec_intro. intros [] r2 _. by apply wp_ret. }
  apply wp_bind, wp_reads; [solve_stable|]. intros e. apply wp_bind, wp_exec_intro. intros event r2 Ee.
  assert (r1 = r2) as <- by exact (wp_exec _ _ _ _ _ (stable_envelope (R := eq) e r1) Ee).
  cbv zeta. match goal with |- wp (consume ?x _ _ _ ≫= _) _ _ => set (s2 := x) end.
  assert (run_id s2 = f_run_id f) as Hid.
  { rewrite <- (act_id Ha), <- (recounted_run_id _ _ Hc1). unfold s2. by destruct (strip_prefix _ _). }
  apply wp_bind. eapply wp_mono; [apply consume_consumed|]. intros s3 r3 Hk. rewrite Hid in Hk.
  apply wp_bind, wp_reads; [case_decide; solve_stable|]. intros s4. apply wp_bind, wp_put.
  apply wp_bind, wp_same_rows; [solve_stable|]. intros _ r4 H4. apply wp_ret. intros ? [= <-]. split.
  - rewrite H4; [apply lookup_insert_eq|]. unfold spared, records_of. by rewrite family_partition.
  - exists n, e, r1. split; [done|]. unfold consumed_copy. rewrite H4.
    + rewrite lookup_insert_ne; [done|other_family].
    + unfold spared, events_of. by rewrite family_partition.
Qed.

(** C20: an event is taken once. The take consumes a copy and journals the event
    under its key in the same commit, and from then on, whatever operations follow
    and whoever owns the run, a take under that key answers the same event and
    writes nothing: a replay sees the events the first drive saw. *)
Theorem take_event_once r r1 r2 f f' k types types' now now' s s' event :
  reachable policy r → exec (checked f now (skew_ms policy)) r = Ok (s, r) →
  r !! (records_of (f_run_id f), k) = None → not_expiry k →
  exec (take_event_tx policy f k types now) r = Ok (Some event, r1) →
  rtc (step policy) r1 r2 → f_run_id f' = f_run_id f →
  exec (checked f' now' (skew_ms policy)) r2 = Ok (s', r2) →
  (∃ n e, (∃ r0, exec (envelope e) r0 = Ok (event, r0)) ∧ consumed_copy r1 (f_run_id f) n e k) ∧
  exec (take_event_tx policy f' k types' now') r2 = Ok (Some event, r2).
Proof.
  intros Hr Hc Hn Hk E H12 Hid Hc'. pose proof (reachable_sound _ _ Hr) as Hs.
  destruct (checked_acting _ _ _ _ _ _ Hs Hc) as [_ Ha].
  destruct (wp_exec _ _ _ _ _ (wp_take f k types now s r Hs Ha Hn) E event eq_refl) as (Hrec & n & e & r0 & Ee & Hcons).
  split; [by exists n, e; eauto|].
  assert (sound r1) as Hs1.
  { eapply reachable_sound. replace r1 with (after (take_event_tx policy f k types now) r)
      by (unfold after, committed; by rewrite E). apply reachable_after; [done|constructor]. }
  pose proof (steps_good _ _ _ Hs1 H12) as Hg. pose proof (good_sound _ _ Hg) as Hs2.
  destruct (checked_acting _ _ _ _ _ _ Hs2 Hc') as [_ Ha'].
  assert (r2 !! (records_of (f_run_id f), k) = Some (CRecord (REvent event))) as Hrec2.
  { destruct Hg as (_ & Hev & _). destruct (ev_record _ _ Hev _ _ _ Hrec Hk) as [(t & Ht & Hte)|(b & Hb & Hab)].
    - exfalso. pose proof (act_stored Ha') as Hst. rewrite (act_id Ha'), Hid in Hst.
      unfold stored in *. rewrite Hst in Ht. injection Ht as <-. by rewrite (act_live Ha') in Hte; destruct Hte.
    - rewrite Hb. unfold transition_allowed in Hab.
      rewrite orb_false_r in Hab. by apply bool_decide_eq_true in Hab as <-. }
  unfold take_event_tx. rewrite exec_bind, Hc', Hid. cbv zeta. rewrite exec_bind.
  by rewrite (exec_get (T := JRecord) _ _ _ (REvent event) r2 Hrec2).
Qed.
End with_host.

(** ** Witnesses *)

(** The event delivered to the parent by name, then offered to any run. *)
Definition rows_delivered : rows := after (deliver_tx P (an_event "e1" "paid") (Some "p") 1003) rows_called.
Definition rows_taken : rows := after (take_event_tx P parent_fence "/do/4" ["paid"] 1004) rows_delivered.
Lemma reachable_delivered : reachable P rows_delivered.
Proof. apply reachable_after; [apply reachable_called|constructor]. Qed.

Lemma deliver_once_witness :
  let r1 := after (deliver_tx P (an_event "e1" "paid") None 1005) rows_delivered in
  holds r1 "p" ("s" +:+ nul +:+ "e1") (an_event "e1" "paid") ∧
  ∀ event' target' now', identity event' = Some ("s" +:+ nul +:+ "e1") → event_type event' = Some "paid" →
    target' = None ∨ target' = Some "p" →
    exec (deliver_tx P event' target' now') r1 =
      if decide (payload event' = payload (an_event "e1" "paid")) then Ok (Some "p", r1)
      else Err (EIdentityConflict (show_identity ("s" +:+ nul +:+ "e1"))).
Proof.
  apply (deliver_once P rows_delivered _ (an_event "e1" "paid") None 1005 _ "paid" "p");
    [apply reachable_delivered|reflexivity|reflexivity|].
  apply (exec_after (deliver_tx P (an_event "e1" "paid") None 1005) rows_delivered). vm_compute. reflexivity.
Defined.
Lemma checked_delivered : exec (checked parent_fence 1004 (skew_ms P)) rows_delivered =
  Ok (run_at rows_delivered "p", rows_delivered).
Proof. apply exec_reads; [apply stable_checked|]. vm_compute. reflexivity. Qed.
Lemma checked_taken : exec (checked parent_fence 1006 (skew_ms P)) rows_taken = Ok (run_at rows_taken "p", rows_taken).
Proof. apply exec_reads; [apply stable_checked|]. vm_compute. reflexivity. Qed.
Definition taken_event : value :=
  VObj (<["time" := VStr "1003"]> (<["source" := VStr "s"]> (<["id" := VStr "e1"]> {["type" := VStr "paid"]}))).
Lemma take_event_once_witness :
  (∃ n e, (∃ r0, exec (envelope e) r0 = Ok (taken_event, r0)) ∧ consumed_copy rows_taken "p" n e "/do/4") ∧
  exec (take_event_tx P parent_fence "/do/4" ["other"] 1006) rows_taken = Ok (Some taken_event, rows_taken).
Proof.
  apply (take_event_once P rows_delivered rows_taken rows_taken parent_fence parent_fence "/do/4" ["paid"] ["other"]
    1004 1006 (run_at rows_delivered "p") (run_at rows_taken "p") taken_event);
    [apply reachable_delivered|apply checked_delivered|vm_compute; reflexivity| |
     |reflexivity|reflexivity|apply checked_taken].
  - intros n. vm_compute. discriminate.
  - apply (exec_after (take_event_tx P parent_fence "/do/4" ["paid"] 1004) rows_delivered). vm_compute. reflexivity.
Defined.

(** ** The original recipient

    The runs an identity was delivered to are indexed by their ids, so a redelivery without
    a target goes to the least of them, not to the run that accepted the event first. *)
Definition delivered_to (id : string) (now : Z) (r : rows) : rows :=
  after (deliver_tx P (an_event "e1" "paid") (Some id) now) r.
Definition redelivered (r : rows) : result error (option string) :=
  fst <$> exec (deliver_tx P (an_event "e1" "paid") None 1006) r.
Lemma redelivered_to_the_least :
  redelivered (delivered_to "p" 1004 rows_child) = Ok (Some "p") ∧
  redelivered (delivered_to "c" 1005 (delivered_to "p" 1004 rows_child)) = Ok (Some "c").
Proof. vm_compute. split; reflexivity. Qed.
