(* ===== verification/ControlSpec.v ===== *)
(** * Operator commands

    A command is applied once: its audit entry stays, whatever happens later, so
    the same request made again is answered by the entry and another request under
    its id is refused. A stopped store rests. *)
From stdpp Require Import relations.
From S2P Require Import Prelude Json Keys Outcome Journal Listen Types Store Index Admit Mailbox.
From S2P Require Import Triggers Lifecycle Control RunStore Logic Rows Steps Preserve Terminate Operations.
From S2P Require Import History Frame Samples.

(** ** Audit entries and responses stay *)

Definition answer_family (f : string) : bool := existsb (str_eqb f) ["control_command"; "control_response"].
(** The rows of commands and responses stay, but for one that is written now. *)
Definition kept_but (x : option Key) (r r' : rows) : Prop :=
  ∀ k c, answer_family (family k.1) = true → Some k ≠ x → r !! k = Some c → r' !! k = Some c.
#[export] Instance kept_but_preorder x : PreOrder (kept_but x).
Proof. split; [by intros r k c|]. intros r1 r2 r3 H1 H2 k c Hk Hx Hc. auto. Qed.
Lemma kept_but_weaken x r r' : kept_but None r r' → kept_but x r r'.
Proof. intros Hk k c Hf _ Hc. by apply Hk. Qed.
Lemma kept_but_fresh k r r' : r !! k = None → kept_but (Some k) r r' → kept_but None r r'.
Proof. intros Hn Hk k' c Hf _ Hc. apply Hk; [done| |done]. intros [= ->]. congruence. Qed.
Lemma kept_insert x r kind id c : answer_family (family kind) = false → kept_but x r (<[(kind, id) := c]> r).
Proof. intros Hf k c' Hk _ Hc. rewrite lookup_insert_ne; [done|]. intros <-. cbn [fst] in Hk. by rewrite Hf in Hk. Qed.
Lemma framed_no_answer kind : framed_kind kind = true → answer_family (family kind) = false.
Proof.
  unfold framed_kind, framed_family, answer_family. intros Hf%negb_true_iff. apply not_true_iff_false.
  intros (f & Hin%list_elem_of_In & Hk)%existsb_exists. apply not_true_iff_false in Hf. apply Hf, existsb_exists.
  exists f. split; [|done]. apply list_elem_of_In. rewrite !elem_of_cons in *. tauto.
Qed.
#[export] Instance kept_but_framed x : Framed (kept_but x).
Proof.
  split; intros r kind; [intros id c Hf%framed_no_answer; by apply kept_insert|intros id Hf%framed_no_answer|];
    intros k c' Hk _ Hc; [|by rewrite lookup_delete_ne; [|intros <-]]. rewrite lookup_delete_ne; [done|]. intros <-. cbn [fst] in Hk. by rewrite Hf in Hk.
Qed.
#[export] Instance kept_but_budget x : KeptBudget (kept_but x).
Proof. intros r root c. by apply kept_insert. Qed.
Lemma kept_put_definitions x name layout d : stable (kept_but x) (put_cell "definitions" name (CDefinitions layout d)).
Proof. intros r. by apply wp_put_cell, kept_insert. Qed.
Lemma kept_put_here {T} `{Row T} kind id (y : T) : stable (kept_but (Some (kind, id))) (put kind id y).
Proof. intros r. apply wp_put. intros k c' _ Hx Hc. rewrite lookup_insert_ne; [done|]. congruence. Qed.
#[export] Hint Resolve kept_put_definitions kept_put_here : stable.

Section with_host.
Context `{Host}.
Variable policy : Policy.

#[export] Instance kept_but_breaker x : KeptBreaker (kept_but x).
Proof. intros run fault success d now. unfold breaker, store_definitions. solve_stable. Qed.
Lemma kept_of_none {A} (p : prog A) x : stable (kept_but None) p → stable (kept_but x) p.
Proof. apply stable_weaken. intros r r'. apply kept_but_weaken. Qed.
Lemma kept_fresh {A B} kind k (p : option A → prog B) `{Row A} :
  (∀ a, stable (kept_but None) (p (Some a))) → stable (kept_but (Some (kind, k))) (p None) →
  stable (kept_but None) (x ← get (T := A) kind k; p x).
Proof.
  intros Hs Hn r. apply wp_bind, wp_get; [|intros]; [|by apply Hs].
  intros Hr. eapply wp_mono; [apply Hn|]. intros b r' Hk. by eapply kept_but_fresh.
Qed.

Lemma respond_kept request id key_ event now : stable (kept_but None) (respond_command request id key_ event now policy).
Proof.
  unfold respond_command. apply stable_bind; [solve_stable|]. intros identity_. cbv zeta.
  apply kept_fresh; [intros entry; solve_stable|].
  unfold complete_response, offer_to_wildcard. solve_stable.
Qed.
Lemma pause_kept request name note now : stable (kept_but None) (pause_command request name note now).
Proof. unfold pause_command, store_definitions, suspend, suspend_one. solve_stable. Qed.
Lemma resume_kept name now : stable (kept_but None) (resume_command name now).
Proof. unfold resume_command, store_definitions. solve_stable. Qed.
Hint Resolve respond_kept pause_kept resume_kept : stable.
#[export] Instance kept_but_kept : Kept (kept_but None) policy.
Proof.
  split.
  - intros. unfold activate, store_definitions. solve_stable.
  - intros. unfold save_definition_tx, store_definitions. solve_stable.
  - apply pause_kept.
  - apply resume_kept.
  - apply respond_kept.
  - intros fuel request c now Hcancel Hhold Hstop. unfold control_command.
    apply stable_bind; [solve_stable|]. intros _. cbv zeta.
    apply kept_fresh; [intros entry; solve_stable|].
    apply stable_bind.
    + apply kept_of_none. unfold command_effect. solve_stable.
    + intros reply. solve_stable.
Qed.

(** ** One effect per request *)

Lemma exec_ensure_true b e r : b = true → exec (ensure b e) r = Ok ((), r).
Proof. by intros ->. Qed.
Lemma exec_known {A} `{Row A} kind id (x : A) r : r !! (kind, id) = Some (to_cell x) →
  exec (get (T := A) kind id) r = Ok (Some x, r).
Proof.
  intros Hx. unfold get. rewrite exec_bind. cbn [exec get_cell exec_op]. rewrite Hx.
  rewrite exec_bind. unfold decode. by rewrite of_to_cell.
Qed.
Lemma wp_control_recorded fuel request c now r :
  wp (control_command fuel request c now policy) (λ applied r',
    blank (rq_id request) || blank (rq_actor request) || blank (rq_reason request) = false ∧
    ∃ at_, r' !! ("control_command", rq_id request) =
      Some (to_cell (mkControlEntry request (normalize_command c) at_ (reply applied)))) r.
Proof.
  unfold control_command. apply wp_bind, wp_ensure. intros Hb%negb_true_iff. cbv zeta.
  apply wp_bind, wp_get.
  - intros _. apply wp_bind, wp_exec_intro. intros rep r1 _. apply wp_bind, wp_put, wp_bind, wp_put, wp_bind.
    assert (<[("control_history", timed now (component (rq_id request))) :=
        to_cell (mkControlEntry request (normalize_command c) now rep)]>
      (<[("control_command", rq_id request) := to_cell (mkControlEntry request (normalize_command c) now rep)]> r1)
      !! ("control_command", rq_id request) =
      Some (to_cell (mkControlEntry request (normalize_command c) now rep))) as Hrow.
    { rewrite lookup_insert_ne by done. by rewrite lookup_insert_eq. }
    destruct (command_run c) as [run|].
    + apply wp_put, wp_ret. split; [done|]. exists now. rewrite lookup_insert_ne; [exact Hrow|].
      intros [=]%(f_equal (λ k : Key, family k.1)).
    + apply wp_ret, wp_ret. split; [done|]. by exists now.
  - intros cl entry Hcl Hentry. case_decide as Hsame; [|done]. apply wp_ret. split; [done|].
    destruct Hsame as [<- <-]. exists (en_at_ms entry). rewrite Hcl. by destruct cl; simplify_eq/=; destruct entry.
Qed.

(** C15: an operator's request has one effect: once a command has been applied, its
    reply stands whatever operations follow. The same request with the same command
    is answered by the first reply, marked repeated, and writes nothing; its id
    used for another request or command is refused. *)
Theorem control_command_once fuel request c now applied r r1 r2 :
  exec (apply_control_tx policy fuel request c now) r = Ok (applied, r1) → rtc (step policy) r1 r2 →
  (∀ fuel' now', exec (apply_control_tx policy fuel' request c now') r2 =
     Ok (mkApplied (reply applied) true, r2)) ∧
  (∀ fuel' request' c' now', rq_id request' = rq_id request →
     request' ≠ request ∨ normalize_command c' ≠ normalize_command c →
     blank (rq_actor request') || blank (rq_reason request') = false →
     exec (apply_control_tx policy fuel' request' c' now') r2 =
       Err (EControl (RequestConflict (rq_id request)))).
Proof.
  intros E Hs. destruct (wp_exec _ _ _ _ _ (wp_control_recorded fuel request c now r) E) as (Hb & at_ & Hrow).
  apply (framed_steps policy (R := kept_but None)) in Hs.
  apply (Hs ("control_command", rq_id request)) in Hrow; [|done|done].
  apply orb_false_iff in Hb as [[Hb1 Hb2]%orb_false_iff Hb3].
  split; [intros fuel' now'|intros fuel' request' c' now' Hid Hne Hb'];
    unfold apply_control_tx, control_command; rewrite exec_bind; cbv zeta.
  - rewrite exec_ensure_true by by rewrite Hb1, Hb2, Hb3. rewrite exec_bind, (exec_known _ _ _ _ Hrow).
    by rewrite decide_True.
  - rewrite exec_ensure_true. 2: { rewrite Hid, Hb1. cbn. by rewrite Hb'. }
    rewrite exec_bind, Hid, (exec_known _ _ _ _ Hrow). rewrite decide_False; [done|].
    cbn. intros [? ?]. destruct Hne; congruence.
Qed.

(** ** The stop switch *)

Lemma stopped_checked r f now skew : exec is_stopped r = Ok (true, r) →
  exec (checked f now skew) r = Err EStopped.
Proof. intros Hs. unfold checked. by rewrite exec_bind, exec_stopped_running. Qed.
Definition is_release (f : Fence) {A : Set} (p : prog A) : Prop :=
  ∃ now, existT (A := Set) (P := prog) A p = existT unit (release_tx policy f now).
Lemma stopped_fenced r f {A : Set} (p : prog A) : exec is_stopped r = Ok (true, r) → fenced policy f p →
  exec p r = Err EStopped ∨ is_release f p.
Proof.
  intros Hs Hp. assert (∀ now B (g : StoredRun → prog B),
    exec (checked f now (skew_ms policy) ≫= g) r = Err EStopped) as Hc.
  { intros now B g. by rewrite exec_bind, stopped_checked. }
  assert (∀ B (g : unit → prog B), exec (running ≫= g) r = Err EStopped) as Hr.
  { intros B g. by rewrite exec_bind, exec_stopped_running. }
  destruct Hp; try (left; apply Hc); try (left; apply Hr). right. by exists now.
Qed.
Lemma stopped_admit r a now : Inv r → exec is_stopped r = Ok (true, r) → r !! ("run", a_id a) = None →
  ∃ e, exec (admit_tx a now) r = Err e.
Proof.
  intros HI Hs Hn. unfold admit_tx, drain_marked, get. rewrite !exec_bind. cbn [exec get_cell exec_op].
  assert (∃ e, exec (refusal ← drained_refusal false a;
    match refusal with Some e => mret (Err e) | None => b ← insert_run a now; mret (Ok b) end) r = Err e) as [e He].
  { exists EStopped. rewrite exec_bind. cbn [drained_refusal negb exec mret].
    unfold mret, prog_ret. cbn [exec]. rewrite exec_bind. unfold insert_run. rewrite exec_bind.
    unfold admitted. rewrite exec_bind, exec_find_run by done. rewrite Hn.
    by rewrite exec_bind, exec_stopped_running. }
  destruct (r !! ("control_drain", a_name a)) as [c|]; [|by exists e].
  rewrite exec_bind. unfold decode. destruct (of_cell (T := bool) c) as [b|]; [|by eexists].
  exists e. unfold mret, prog_ret. cbn [exec]. by rewrite exec_bind, Hs.
Qed.

(** C16: a stopped store rests: no fenced operation but [release] succeeds (each
    fails as stopped), no run is claimed or told due, no new run is admitted, no
    trigger fires or is told due, and none of these writes anything. *)
Theorem stopped_store_rests r now :
  reachable policy r → exec is_stopped r = Ok (true, r) →
  (∀ f (A : Set) (p : prog A), fenced policy f p →
     exec p r = Err EStopped ∨ is_release f p) ∧
  (∀ owner id worker, exec (claim_as_tx owner id now worker) r = Ok (None, r)) ∧
  (∀ limit worker, exec (due_as_tx now limit worker) r = Ok ([], r)) ∧
  (∀ a, r !! ("run", a_id a) = None → ∃ e, exec (admit_tx a now) r = Err e) ∧
  (∀ fuel f, exec (fire_tx policy fuel f now) r = Ok (Ok FChanged, r)) ∧
  (∀ limit, exec (due_triggers_tx now limit) r = Ok ([], r)) ∧
  (∀ t limit, exec (triggers_for_tx t limit) r = Ok ([], r)).
Proof.
  intros Hr%reachable_Inv Hs. split_and!; intros; try by (unfold claim_as_tx, due_as_tx, fire_tx, fire,
    due_triggers_tx, triggers_for_tx; rewrite exec_bind, Hs).
  - by apply stopped_fenced.
  - by apply stopped_admit.
Qed.
End with_host.

(** ** Witnesses *)

Definition a_request : Request := mkRequest "q1" "op" "maintenance".
Definition rows_commanded : rows := after (apply_control_tx P 5 a_request (CmdStop true) 1900) rows_released.
Lemma reachable_commanded : reachable P rows_commanded.
Proof. apply reachable_after; [apply reachable_released|constructor]. Qed.
Lemma control_command_once_witness :
  (∀ fuel' now', exec (apply_control_tx P fuel' a_request (CmdStop true) now') rows_commanded =
     Ok (mkApplied (Changed true) true, rows_commanded)) ∧
  (∀ fuel' request' c' now', rq_id request' = "q1" →
     request' ≠ a_request ∨ normalize_command c' ≠ CmdStop true →
     blank (rq_actor request') || blank (rq_reason request') = false →
     exec (apply_control_tx P fuel' request' c' now') rows_commanded = Err (EControl (RequestConflict "q1"))).
Proof.
  apply (control_command_once P 5 a_request (CmdStop true) 1900 (mkApplied (Changed true) false) rows_released rows_commanded rows_commanded).
  - apply (exec_after (apply_control_tx P 5 a_request (CmdStop true) 1900) rows_released). vm_compute. reflexivity.
  - apply rtc_refl.
Defined.
Lemma stopped_store_rests_witness :
  (∀ f (A : Set) (p : prog A), fenced P f p →
     exec p rows_commanded = Err EStopped ∨ is_release P f p) ∧
  (∀ owner id worker, exec (claim_as_tx owner id 2000 worker) rows_commanded = Ok (None, rows_commanded)) ∧
  (∀ limit worker, exec (due_as_tx 2000 limit worker) rows_commanded = Ok ([], rows_commanded)) ∧
  (∀ a, rows_commanded !! ("run", a_id a) = None → ∃ e, exec (admit_tx a 2000) rows_commanded = Err e) ∧
  (∀ fuel f, exec (fire_tx P fuel f 2000) rows_commanded = Ok (Ok FChanged, rows_commanded)) ∧
  (∀ limit, exec (due_triggers_tx 2000 limit) rows_commanded = Ok ([], rows_commanded)) ∧
  (∀ t limit, exec (triggers_for_tx t limit) rows_commanded = Ok ([], rows_commanded)).
Proof.
  apply stopped_store_rests; [apply reachable_commanded|].
  apply exec_is_stopped. vm_compute. reflexivity.
Defined.
