(* ===== verification/RecordSpec.v ===== *)
(** * The journal's writes

    [save_record] on every branch, its idempotence, and the budget of [spend]: one
    decision, and over a history ([jumps]) the jumps granted to a tree. *)
From stdpp Require Import relations.
From S2P Require Import Prelude Json Keys Outcome Journal Listen Types Store Index Admit Mailbox.
From S2P Require Import Triggers Lifecycle Control RunStore Logic Rows Steps Preserve Terminate Operations.
From S2P Require Import History Frame Samples.

(** ** Saving a record *)

(** A record may be saved: over one it advances, and a reserved one only over
    itself. *)
Definition savable (old : option cell) (x : JRecord) : Prop :=
  match old with
  | None => reserved x = None
  | Some c => ∃ a, c = CRecord a ∧ check_transition a x = Ok () ∧ (is_Some (reserved x) → a = x)
  end.
(** The totals after a save: a call's answer counts when it is first saved. *)
Definition totals_after `{Host} (t : Totals) (old : option cell) (x : JRecord) : Totals :=
  match x with
  | RCall c => if decide (is_done (call_state c) = true ∧ old ≠ Some (CRecord x))
               then accumulate t (numbers (annotations c)) else t
  | _ => t
  end.
#[local] Arguments totals_after : simpl never.
Lemma records_kind id : ("run" : string) ≠ records_of id ∧ indexed (records_of id) = false.
Proof.
  split; [by destruct id|]. unfold indexed, records_of. by rewrite family_partition.
Qed.
Lemma completed_same a x c d :
  a = RCall c → x = RCall d → is_done (call_state d) = true → transition_allowed a x = true →
  completed_call (Some a) = bool_decide (a = x).
Proof.
  intros -> -> Hd Ht. cbn. unfold transition_allowed in Ht.
  destruct (decide (RCall c = RCall d)) as [E|Hne].
  - rewrite bool_decide_true by done. by injection E as ->.
  - rewrite bool_decide_false in * by done. cbn in Ht. by destruct (is_done (call_state c)).
Qed.

Lemma and_iff_compat_l' (P Q R : Prop) : (P → Q ↔ R) → P ∧ Q ↔ P ∧ R.
Proof. tauto. Qed.

Section with_host.
Context `{Host}.
Variable policy : Policy.

(** The row [save_record] leaves. *)
Definition answered (s : StoredRun) (old : option cell) (x : JRecord) : StoredRun :=
  s <| s_evidence := true |> <| s_run ::= λ r, r <| r_annotations ::= λ t, totals_after t old x |> |>.
Lemma answered_eta s old x : r_annotations (s_run (answered s old x)) = totals_after (r_annotations (s_run s)) old x.
Proof. done. Qed.
Lemma answered_same s old x : s_evidence s = true →
  totals_after (r_annotations (s_run s)) old x = r_annotations (s_run s) → answered s old x = s.
Proof.
  intros He Ht. unfold answered. destruct s as [v r ? ? ? ? ? ? ? ? ? ? ? ? ? e]. destruct r. cbn in *.
  unfold Prelude.update. cbn. subst e. by rewrite Ht.
Qed.
Lemma add_answer_answered s old a x : old = CRecord <$> a →
  (∀ o, a = Some o → transition_allowed o x = true) →
  add_answer (s <| s_evidence := true |>) a x = answered s old x.
Proof.
  intros -> Ht. unfold add_answer, answered, totals_after.
  destruct x as [| |c| | | | | | | |]; try (by destruct s as [? [] ? ? ? ? ? ? ? ? ? ? ? ? ? ?]).
  assert (is_done (call_state c) && negb (completed_call a) = true ↔
    is_done (call_state c) = true ∧ CRecord <$> a ≠ Some (CRecord (RCall c))) as Hiff.
  { rewrite andb_true_iff, negb_true_iff. apply and_iff_compat_l'. intros Ed.
    destruct a as [a|]; [|done]. destruct (decide (a = RCall c)) as [->|Hne].
    - cbn. rewrite Ed. by split; [|intros []].
    - split; [intros _; cbn; congruence|intros _]. apply not_true_iff_false. intros Ec. apply Hne.
      destruct a as [| |d| | | | | | | |]; try done.
      rewrite (completed_same _ _ d c eq_refl eq_refl Ed (Ht _ eq_refl)) in Ec.
      by apply bool_decide_eq_true in Ec. }
  case_decide as Hd.
  - by rewrite (proj2 Hiff Hd).
  - destruct (is_done _ && _) eqn:E; [by destruct Hd; apply Hiff|].
    by destruct s as [? [] ? ? ? ? ? ? ? ? ? ? ? ? ? ?].
Qed.

(** The first part of a save: what it checks of the record there. *)
Lemma exec_save_checks (kind k : string) x (B : Type) (g : option JRecord → prog B) r :
  savable (r !! (kind, k)) x →
  exec (_ ← match reserved x with
            | Some m => ensure (bool_decide (r !! (kind, k) = Some (to_cell x))) (EMsg m)
            | None => mret ()
            end;
        old ← match r !! (kind, k) with
              | Some c =>
                  old ← decode (T := JRecord) c;
                  _ ← match check_transition old x with Ok _ => mret () | Err m => PFail (EMsg m) end;
                  mret (Some old)
              | None => mret None
              end;
        g old) r =
  exec (g (match r !! (kind, k) with Some (CRecord a) => Some a | _ => None end)) r.
Proof.
  unfold savable. destruct (r !! (kind, k)) as [c|].
  - intros (a & -> & Ht & Hres). rewrite exec_bind.
    assert (exec (match reserved x with
      | Some m => ensure (bool_decide (Some (CRecord a) = Some (to_cell x))) (EMsg m)
      | None => mret () end) r = Ok ((), r)) as ->.
    { destruct (reserved x); [|done]. rewrite Hres by done. by rewrite bool_decide_true. }
    rewrite exec_bind. cbn. by rewrite Ht.
  - intros ->. done.
Qed.
Lemma exec_save_refused (kind k : string) x (B : Type) (g : option JRecord → prog B) r :
  ¬ savable (r !! (kind, k)) x → ∃ e,
  exec (_ ← match reserved x with
            | Some m => ensure (bool_decide (r !! (kind, k) = Some (to_cell x))) (EMsg m)
            | None => mret ()
            end;
        old ← match r !! (kind, k) with
              | Some c =>
                  old ← decode (T := JRecord) c;
                  _ ← match check_transition old x with Ok _ => mret () | Err m => PFail (EMsg m) end;
                  mret (Some old)
              | None => mret None
              end;
        g old) r = Err e.
Proof.
  unfold savable. intros Hn. rewrite exec_bind.
  destruct (exec (match reserved x with | Some _ => _ | None => _ end) r) as [[[] r1]|e] eqn:E; [|by eexists].
  assert (r1 = r ∧ (is_Some (reserved x) → r !! (kind, k) = Some (CRecord x))) as [-> Hres].
  { destruct (reserved x); [|injection E as <-; by split; [|intros []]].
    cbn in E. case_bool_decide; [|done]. injection E as <-. by split. }
  clear E. destruct (r !! (kind, k)) as [c|].
  - rewrite exec_bind. unfold decode. destruct (of_cell c) as [a|] eqn:Ec; [|by eexists].
    destruct c; try done. cbn in Ec. injection Ec as ->. cbn.
    destruct (check_transition a x) as [[]|m] eqn:Et; [|by eexists]. exfalso. apply Hn. exists a.
    split; [done|]. split; [done|]. intros Hs. specialize (Hres Hs). congruence.
  - exfalso. apply Hn. destruct (reserved x) as [m|]; [|done]. by specialize (Hres (mk_is_Some _ _ eq_refl)).
Qed.

Lemma answered_advance' s old x : r_ended_ms (s_run s) = None → advance s (answered s old x).
Proof. intros Hn. unfold answered. advance_live. Qed.

(** The whole of a save by a fence that may act: the record, and the run's row. *)
Lemma exec_save_record r f k x now s : acting r f now (skew_ms policy) s →
  savable (r !! (records_of (f_run_id f), k)) x →
  let old := r !! (records_of (f_run_id f), k) in
  ∃ r', exec (save_record_tx policy f k x now) r = Ok ((), r') ∧ Inv r' ∧
    r' !! (records_of (f_run_id f), k) = Some (CRecord x) ∧
    stored r' (run_id s) (answered s old x) ∧
    (∀ key, key.1 ≠ "run" → indexed key.1 = false → key ≠ (records_of (f_run_id f), k) →
       r' !! key = r !! key) ∧
    (∀ id, id ≠ run_id s → r' !! ("run", id) = r !! ("run", id)) ∧
    (s_evidence s = true → old = Some (CRecord x) → r' = r).
Proof.
  intros Ha Hsv. cbv zeta. set (kind := records_of (f_run_id f)) in *. set (old := r !! (kind, k)) in *.
  assert (∀ r1, (r1 = r ∨ r1 = <[(kind, k) := CRecord x]> r) → (r1 = r → old = Some (CRecord x)) →
    moves r r1 ∧ r1 !! (kind, k) = Some (CRecord x)) as Hr1.
  { intros r1 [->| ->] Hold; [split; [reflexivity|by apply Hold]|]. split; [|by rewrite lookup_insert_eq].
    apply moves_record. intros a Hra. unfold savable in Hsv. fold kind in Hra. fold old in Hra. rewrite Hra in Hsv.
    destruct Hsv as (a' & [= <-] & Ht & _). unfold check_transition in Ht.
    by destruct (transition_allowed a x). }
  set (a := match old with Some (CRecord a) => Some a | _ => None end).
  assert (old = CRecord <$> a ∧ ∀ o, a = Some o → transition_allowed o x = true) as [Hola Hta].
  { unfold a. unfold savable in Hsv. destruct old as [c|]; [|done]. destruct Hsv as (b & -> & Ht & _).
    split; [done|]. intros o [= <-]. unfold check_transition in Ht. by destruct (transition_allowed b x). }
  set (r1 := if decide (old = Some (CRecord x)) then r else <[(kind, k) := CRecord x]> r).
  destruct (Hr1 r1) as [Hm1 Hk1]. { unfold r1. case_decide; auto. }
  { unfold r1. case_decide as Hd; [done|]. intros Heq. unfold old. rewrite <- Heq. by rewrite lookup_insert_eq. }
  assert (∃ r', exec (let s' := add_answer (s <| s_evidence := true |>) a x in
      if decide (s_evidence s = false ∨ r_annotations (s_run s') ≠ r_annotations (s_run s))
      then store_run s' else mret ()) r1 = Ok ((), r') ∧ Inv r' ∧ stored r' (run_id s) (answered s old x) ∧
      (∀ key, key.1 ≠ "run" → indexed key.1 = false → r' !! key = r1 !! key) ∧
      (∀ id, id ≠ run_id s → r' !! ("run", id) = r1 !! ("run", id)) ∧
      (s_evidence s = true → totals_after (r_annotations (s_run s)) old x = r_annotations (s_run s) → r' = r1))
    as (r' & E & HI' & Hst' & Hp' & Ho' & Hsame).
  { cbv zeta. rewrite (add_answer_answered s old a x) by done. case_decide as Hd.
    - destruct (exec_update r r1 s (answered s old x)) as (r' & E & HI' & Hs' & Hp & Ho);
        [exact (act_inv Ha)|exact (act_stored Ha)|done|apply answered_advance', (act_live Ha)|].
      exists r'. split_and!; try done. intros He Ht. rewrite answered_eta, Ht in Hd. destruct Hd as [?|?]; congruence.
    - exists r1. split_and!; try done; [by apply (moves_Inv r), (act_inv Ha)|].
      assert (answered s old x = s) as ->; [|apply (moves_stored r r1); [done|apply (act_stored Ha)]].
      rewrite answered_eta in Hd. apply Decidable.not_or in Hd as [He Ht].
      apply dec_stable in Ht. apply not_false_iff_true in He. by apply answered_same. }
  exists r'. split_and!; [|done| |done| | |].
  - unfold save_record_tx. rewrite exec_bind, (act_running Ha), exec_bind, (act_authority Ha).
    cbv zeta. fold kind. rewrite exec_bind. cbn [get_cell exec exec_op]. fold old. rewrite exec_bind.
    rewrite decide_False by (rewrite (act_held Ha); by intros []). cbn [exec mret prog_ret].
    refine (eq_trans (exec_save_checks kind k x _ _ r Hsv) _). fold old. fold a. rewrite exec_bind.
    assert (exec (if decide (old = Some (to_cell x)) then mret () else put kind k x) r = Ok ((), r1)) as ->; [|exact E].
    unfold r1. change (to_cell x) with (CRecord x). by destruct (decide (old = Some (CRecord x))).
  - rewrite Hp'; [done|by apply not_eq_sym, records_kind|apply records_kind].
  - intros key H1 H2 H3. rewrite Hp' by done. unfold r1. destruct (decide (old = Some (CRecord x))); [done|]. rewrite lookup_insert_ne; [done|by apply not_eq_sym].
  - intros id Hid. rewrite Ho' by done. unfold r1. destruct (decide (old = Some (CRecord x))); [done|]. by rewrite lookup_insert_ne.
  - intros He Hold. rewrite Hsame; [unfold r1; by rewrite decide_True|done|]. unfold totals_after.
    destruct x; try done. by rewrite decide_False by (by intros [_ ?]).
Qed.

(** A save that was accepted could be. *)
Lemma save_savable r f k x now s r' : acting r f now (skew_ms policy) s →
  exec (save_record_tx policy f k x now) r = Ok ((), r') →
  savable (r !! (records_of (f_run_id f), k)) x.
Proof.
  intros Ha Es. set (kind := records_of (f_run_id f)).
  assert (savable (r !! (kind, k)) x ∨ ¬ savable (r !! (kind, k)) x) as [Hs|Hn]; [|done|].
  { unfold savable. destruct (r !! (kind, k)) as [c|].
    - destruct c as [| |a| | | | | | | | | |]; try (right; by intros (? & ? & _)).
      destruct (check_transition a x) as [[]|m] eqn:Et; [|right; intros (? & [= <-] & ? & _); congruence].
      destruct (decide (is_Some (reserved x) → a = x)) as [Hd|Hd]; [left; eauto|].
      right. by intros (? & [= <-] & _ & ?).
    - destruct (reserved x); [by right|by left]. }
  unfold save_record_tx in Es. rewrite exec_bind, (act_running Ha), exec_bind, (act_authority Ha) in Es.
  cbv zeta in Es. fold kind in Es. rewrite exec_bind in Es. cbn [get_cell exec exec_op] in Es.
  rewrite exec_bind, decide_False in Es by (rewrite (act_held Ha); by intros []). cbn [exec mret prog_ret] in Es.
  destruct (exec_save_refused kind k x _ (λ old, _ ← (if decide (r !! (kind, k) = Some (to_cell x))
      then mret () else put kind k x);
    let s' := add_answer (s <| s_evidence := true |>) old x in
    if decide (s_evidence s = false ∨ r_annotations (s_run s') ≠ r_annotations (s_run s))
    then store_run s' else mret ()) r Hn) as [e He].
  exfalso. refine (_ (eq_trans (eq_sym He) Es)). done.
Qed.

(** C23: [save_record] on every branch. For a fence that may act, a save is
    accepted exactly when the record there lets it (the transition rules, and the
    reserved kinds only over themselves); then the record is stored, the run's
    totals count the answer if it is first saved here, nothing else of the run or
    of other runs moves, and no other row outside the run's indexes changes. A
    refused save changes nothing. *)
Theorem save_record_result r f k x now s :
  reachable policy r → exec (checked f now (skew_ms policy)) r = Ok (s, r) →
  let key := (records_of (f_run_id f), k) in
  match exec (save_record_tx policy f k x now) r with
  | Ok (_, r') =>
      savable (r !! key) x ∧ r' !! key = Some (CRecord x) ∧
      r' !! ("run", f_run_id f) = Some (CRun (answered s (r !! key) x)) ∧
      (∀ id, id ≠ f_run_id f → r' !! ("run", id) = r !! ("run", id)) ∧
      (∀ k', k'.1 ≠ "run" → indexed k'.1 = false → k' ≠ key → r' !! k' = r !! k')
  | Err _ => ¬ savable (r !! key) x
  end.
Proof.
  intros Hr%reachable_sound Hc. destruct (checked_acting _ _ _ _ _ _ Hr Hc) as [_ Ha]. cbv zeta.
  destruct (exec (save_record_tx policy f k x now) r) as [[[] r']|] eqn:Es.
  - assert (savable (r !! (records_of (f_run_id f), k)) x) as Hsv
      by exact (save_savable r f k x now s r' Ha Es).
    destruct (exec_save_record r f k x now s Ha Hsv) as (r1 & Es1 & _ & H1 & H2 & H3 & H4 & _).
    rewrite Es in Es1. injection Es1 as <-. unfold stored in H2.
    rewrite (act_id Ha) in H2, H4. done.
  - intros Hsv. destruct (exec_save_record r f k x now s Ha Hsv) as (r1 & Es1 & _). congruence.
Qed.

Lemma control_plain : ("control" : string) ≠ "run" ∧ indexed "control" = false ∧
  ∀ id k, (("control" : string), ("stopped" : string)) ≠ (records_of id, k).
Proof. split; [done|]. split; [done|]. intros id k [= E]. Qed.

(** Saving is idempotent: a save made again (by a retry that did not see the
    first one's answer) succeeds and changes nothing, neither the record nor the
    run's annotation totals. *)
Theorem save_record_idempotent r f k x now s r' :
  reachable policy r → exec (checked f now (skew_ms policy)) r = Ok (s, r) →
  exec (save_record_tx policy f k x now) r = Ok ((), r') →
  exec (save_record_tx policy f k x now) r' = Ok ((), r').
Proof.
  intros Hr%reachable_sound Hc Es. destruct (checked_acting _ _ _ _ _ _ Hr Hc) as [_ Ha].
  pose proof (save_savable r f k x now s r' Ha Es) as Hsv.
  destruct (exec_save_record r f k x now s Ha Hsv) as (r1 & Es1 & HI & H1 & H2 & H3 & _ & _).
  rewrite Es in Es1. injection Es1 as <-.
  set (s' := answered s (r !! (records_of (f_run_id f), k)) x) in *.
  assert (acting r' f now (skew_ms policy) s') as Ha'.
  { eapply acting_again; [done|done| |by rewrite <- (act_id Ha)|done..].
    apply H3; [done|done|]. apply control_plain. }
  destruct (exec_save_record r' f k x now s' Ha') as (r2 & Es2 & _ & _ & _ & _ & _ & Hsame).
  { rewrite H1. exists x. split; [done|]. split; [|done]. unfold check_transition. by rewrite transition_refl. }
  rewrite Es2. by rewrite Hsame.
Qed.

(** ** The budget *)

(** The decision of [spend] over the rows before and after it. *)
Definition spend_decided (r r' : rows) (id root k : string) (limit : Z) (x : JRecord) : Prop :=
  let spent := budget_at r root in
  r' !! (records_of id, k) = Some (CRecord x) ∧
  if decide (spent < limit)
  then x = RBudget true (spent + 1) None ∧ budget_at r' root = spent + 1
  else ∃ first, x = RBudget false spent (Some first) ∧ budget_at r' root = spent ∧
    r' !! (records_of id, EXCEEDED) = Some (CRecord (RExceeded first)) ∧
    (r !! (records_of id, EXCEEDED) = None → first = k) ∧
    (∀ by_, r !! (records_of id, EXCEEDED) = Some (CRecord (RExceeded by_)) → first = by_).

Lemma budget_plain root : ("budget" : string) ≠ "run" ∧ indexed "budget" = false ∧
  ∀ id k : string, (("budget" : string), root) ≠ (records_of id, k).
Proof. split; [done|]. split; [done|]. intros id k [= E]. Qed.
Lemma spend_decided_plain r r1 r' id root k limit x :
  spend_decided r r1 id root k limit x →
  (∀ k, k.1 ≠ "run" → indexed k.1 = false → r' !! k = r1 !! k) → spend_decided r r' id root k limit x.
Proof.
  intros Hd Hp. unfold spend_decided, budget_at in *.
  destruct (records_kind id) as [Hne Hx]. destruct (budget_plain root) as (Hb & Hbx & _).
  rewrite !Hp by (try done; by apply not_eq_sym). done.
Qed.
Lemma wp_spend r f k limit now s : acting r f now (skew_ms policy) s → k ≠ EXCEEDED →
  r !! (records_of (f_run_id f), k) = None →
  wp (spend_tx policy f k limit now) (λ x r', Inv r' ∧
    spend_decided r r' (f_run_id f) (default (f_run_id f) (r_root (s_run s))) k limit x ∧
    (∃ s', stored r' (run_id s) s' ∧ s_run s' = s_run s) ∧
    r' !! ("control", "stopped") = r !! ("control", "stopped")) r.
Proof.
  intros Ha Hk Hnone. pose proof (act_inv Ha) as HI. unfold spend_tx.
  set (kind := records_of (f_run_id f)) in *. set (root := default (f_run_id f) (r_root (s_run s))).
  apply wp_bind. eapply wp_step; [apply (act_checked Ha)|]. cbv zeta. fold kind root. apply wp_bind, wp_get.
  2: { intros c x E. congruence. }
  intros _. apply wp_bind. eapply (wp_mono _ (λ loaded r1, r1 = r ∧ default 0 loaded = budget_at r root)).
  { unfold budget_at. apply wp_get; [by intros ->|]. intros c x -> Hx. by rewrite Hx. }
  intros loaded r1 [-> ->]. set (spent := budget_at r root).
  assert (∀ x r2, moves r r2 → r2 !! ("control", "stopped") = r !! ("control", "stopped") →
    spend_decided r (<[(kind, k) := CRecord x]> r2) (f_run_id f) root k limit x →
    wp (_ ← put kind k x; _ ← (if s_evidence s then mret () else store_run (s <| s_evidence := true |>)); mret x)
      (λ x r', Inv r' ∧ spend_decided r r' (f_run_id f) root k limit x ∧
       (∃ s', stored r' (run_id s) s' ∧ s_run s' = s_run s) ∧
       r' !! ("control", "stopped") = r !! ("control", "stopped")) r2) as Hend.
  { intros x r2 Hm Hst Hd. apply wp_bind, wp_put.
    pose proof (moves_record_fresh r r2 (f_run_id f) k x Hm Hnone) as Hm3. fold kind in Hm3.
    apply wp_bind. destruct (s_evidence s).
    - apply wp_ret, wp_ret. split; [by eapply moves_Inv|]. split; [done|]. split.
      + exists s. split; [|done]. apply (moves_stored r); [done|apply (act_stored Ha)].
      + rewrite lookup_insert_ne; [done|]. apply not_eq_sym, control_plain.
    - destruct (exec_update r _ s (s <| s_evidence := true |>) HI (act_stored Ha) Hm3) as (r' & E & HI' & Hs' & Hp & _).
      { pose proof (act_live Ha). advance_live. }
      eapply wp_step; [exact E|]. apply wp_ret. split; [done|]. split; [by eapply spend_decided_plain|].
      split; [by eexists|]. rewrite Hp by done. rewrite lookup_insert_ne; [done|]. apply not_eq_sym, control_plain. }
  destruct (records_kind (f_run_id f)) as [Hne Hx]. fold kind in Hne, Hx.
  assert (∀ j : string, (("budget" : string), root) ≠ (kind, j)) as Hbk by (intros j; apply budget_plain).
  apply wp_bind. destruct (bool_decide (spent < limit)) eqn:Eg.
  - apply bool_decide_eq_true in Eg. apply wp_put. apply wp_bind, wp_ret. cbn [z_of_bool].
    apply Hend; [apply moves_budget; fold spent; lia|by rewrite lookup_insert_ne|].
    unfold spend_decided. fold kind spent. rewrite decide_True by done. rewrite lookup_insert_eq.
    split; [done|]. split; [done|]. unfold budget_at. rewrite lookup_insert_ne by done.
    rewrite lookup_insert_eq. apply (f_equal (default 0) (of_to_cell (spent + 1))).
  - apply bool_decide_eq_false in Eg. apply wp_ret. cbn [z_of_bool]. rewrite Z.add_0_r. apply wp_bind.
    assert (∀ first r2, (r2 = r ∧ r !! (kind, EXCEEDED) = Some (CRecord (RExceeded first)) ∨
        r2 = <[(kind, EXCEEDED) := CRecord (RExceeded first)]> r ∧ r !! (kind, EXCEEDED) = None ∧ first = k) →
      wp (let record := RBudget false spent (Some first) in
          _ ← put kind k record;
          _ ← (if s_evidence s then mret () else store_run (s <| s_evidence := true |>)); mret record)
      (λ x r', Inv r' ∧ spend_decided r r' (f_run_id f) root k limit x ∧
       (∃ s', stored r' (run_id s) s' ∧ s_run s' = s_run s) ∧
       r' !! ("control", "stopped") = r !! ("control", "stopped")) r2) as Hfirst.
    { intros first r2 Hr2. cbv zeta. apply Hend.
      - destruct Hr2 as [[-> _]|(-> & Hn & _)]; [reflexivity|]. apply moves_record. intros a Hra.
        unfold kind in Hn. congruence.
      - destruct Hr2 as [[-> _]|[-> _]]; [done|]. rewrite lookup_insert_ne; [done|]. apply not_eq_sym, control_plain.
      - unfold spend_decided. fold kind spent. rewrite decide_False by done. rewrite lookup_insert_eq.
        split; [done|]. exists first. split; [done|].
        assert ((kind, k) ≠ (kind, (EXCEEDED : string))) as Hke by congruence. unfold budget_at, spent.
        rewrite !(lookup_insert_ne _ (kind, k)) by (try done; apply not_eq_sym, Hbk).
        destruct Hr2 as [[-> Hf]|(-> & Hn & ->)].
        + split; [done|]. split; [done|]. split; [congruence|]. intros b Hb. congruence.
        + rewrite (lookup_insert_ne _ (kind, EXCEEDED)) by (apply not_eq_sym, Hbk). split; [done|].
          split; [by rewrite lookup_insert_eq|]. split; [done|]. intros b Hb. congruence. }
    apply wp_bind, wp_get.
    + intros Hn. apply wp_bind, wp_put, wp_ret. apply Hfirst. by right.
    + intros c y Hc Hy. destruct y; try done. apply wp_ret. apply Hfirst. left.
      destruct c; try done. cbn in Hy. injection Hy as ->. done.
Qed.

(** *** A tree's grants, over histories *)

(** The tree a run belongs to: its root run. *)
Definition tree_of (r : rows) (id : string) : string :=
  match r !! ("run", id) with Some (CRun s) => default id (r_root (s_run s)) | _ => id end.
(** A jump of the tree is granted: a decision not recorded before, for a run of it. *)
Definition grant (root : string) (limit : Z) (r r' : rows) : Prop :=
  ∃ f k now spent, tree_of r (f_run_id f) = root ∧ r !! (records_of (f_run_id f), k) = None ∧
    exec (spend_tx policy f k limit now) r = Ok (RBudget true spent None, r').
(** A history of any operations with [n] grants of the tree, none asked with a limit
    above [L]. *)
Inductive jumps (root : string) (L : Z) : nat → rows → rows → Prop :=
| jumps_none r : jumps root L 0 r r
| jumps_grant n r r1 r2 limit :
    jumps root L n r r1 → grant root limit r1 r2 → limit ≤ L → jumps root L (S n) r r2
| jumps_other n r r1 r2 :
    jumps root L n r r1 → step policy r1 r2 → (∀ limit, ¬ grant root limit r1 r2) → jumps root L n r r2.

(** Only [spend] raises a budget, and the other operations at most drop it. *)
Definition kept_or_dropped (r r' : rows) : Prop :=
  ∀ root, budget_at r' root = budget_at r root ∨ budget_at r' root = 0.
#[local] Instance kept_or_dropped_preorder : PreOrder kept_or_dropped.
Proof.
  split; [by intros r root; left|]. intros r1 r2 r3 H1 H2 root.
  destruct (H2 root) as [->|?]; [apply H1|by right].
Qed.
Lemma kept_insert_other r kind k c : kind ≠ "budget" → kept_or_dropped r (<[(kind, k) := c]> r).
Proof. intros Hk root. left. unfold budget_at. rewrite lookup_insert_ne; [done|congruence]. Qed.
Lemma framed_no_budget kind : framed_kind kind = true → kind ≠ "budget".
Proof. by intros Hf ->. Qed.
#[local] Instance kept_or_dropped_framed : Framed kept_or_dropped.
Proof.
  split; intros r kind.
  - intros id c Hf%framed_no_budget. by apply kept_insert_other.
  - intros id Hf%framed_no_budget root. left. unfold budget_at. rewrite lookup_delete_ne; [done|congruence].
  - intros root. rewrite budget_delete. case_decide; [by right|by left].
Qed.
Lemma kept_put_other {T} `{Row T} kind id (x : T) : kind ≠ "budget" → stable kept_or_dropped (put kind id x).
Proof. intros Hk r. by apply wp_put, kept_insert_other. Qed.
Lemma dropped_put_definitions name layout d : stable kept_or_dropped (put_cell "definitions" name (CDefinitions layout d)).
Proof. intros r. by apply wp_put_cell, kept_insert_other. Qed.
Lemma kept_put_response id k (e : Entry) : stable kept_or_dropped (put (partition "control_response" id) k e).
Proof. by apply kept_put_other. Qed.
Lemma kept_put_command k (e : Entry) : stable kept_or_dropped (put "control_command" k e).
Proof. by apply kept_put_other. Qed.
Hint Resolve dropped_put_definitions kept_put_response kept_put_command : stable.
#[local] Instance kept_or_dropped_breaker : KeptBreaker kept_or_dropped.
Proof. intros run fault success d now. unfold breaker, store_definitions. solve_stable. Qed.
#[local] Instance kept_or_dropped_kept : Kept kept_or_dropped policy.
Proof.
  split.
  - intros. unfold activate, store_definitions. solve_stable.
  - intros. unfold save_definition_tx, store_definitions. solve_stable.
  - intros. unfold pause_command, store_definitions, suspend, suspend_one. solve_stable.
  - intros. unfold resume_command, store_definitions. solve_stable.
  - intros. unfold respond_command, complete_response, offer_to_wildcard. solve_stable.
  - intros fuel request c now Hcancel Hhold Hstop.
    assert (∀ request name note now, stable kept_or_dropped (pause_command request name note now)) as Hp
      by (intros; unfold pause_command, store_definitions, suspend, suspend_one; solve_stable).
    assert (∀ name now, stable kept_or_dropped (resume_command name now)) as Hr
      by (intros; unfold resume_command, store_definitions; solve_stable).
    assert (∀ request id k event now, stable kept_or_dropped (respond_command request id k event now policy)) as Ha
      by (intros; unfold respond_command, complete_response, offer_to_wildcard; solve_stable).
    unfold control_command, command_effect. solve_stable.
Qed.

(** What a spend does to the budgets, whichever key it has. *)
Definition same_budgets (r r' : rows) : Prop := ∀ root, budget_at r' root = budget_at r root.
#[local] Instance same_budgets_preorder : PreOrder same_budgets.
Proof. split; [by intros r root|]. intros r1 r2 r3 H1 H2 root. by rewrite H2. Qed.
Lemma same_budgets_insert r kind k c : kind ≠ "budget" → same_budgets r (<[(kind, k) := c]> r).
Proof. intros Hk root. unfold budget_at. rewrite lookup_insert_ne; [done|congruence]. Qed.
Lemma records_no_budget id : records_of id ≠ "budget".
Proof. by destruct id. Qed.
Lemma same_budgets_store s : stable same_budgets (store_run s).
Proof.
  unfold store_run. apply stable_bind; [apply stable_find_run|]. intros old.
  apply stable_store_run_indexed; intros; intros r.
  - apply wp_put_cell, same_budgets_insert. by intros ->.
  - apply wp_delete_row. intros root. unfold budget_at. rewrite lookup_delete_ne; [done|]. by intros [= ->].
  - by apply wp_put_cell, same_budgets_insert.
Qed.
Lemma same_budgets_record id k (x : JRecord) : stable same_budgets (put (records_of id) k x).
Proof. intros r. apply wp_put, same_budgets_insert, records_no_budget. Qed.
Hint Resolve same_budgets_store same_budgets_record : stable.
Lemma wp_decide id s k (x : JRecord) r :
  wp (_ ← put (records_of id) k x; _ ← (if s_evidence s then mret () else store_run (s <| s_evidence := true |>)); mret x)
    (λ y r', y = x ∧ same_budgets r r') r.
Proof.
  apply wp_bind. eapply wp_mono; [apply same_budgets_record|]. intros [] r1 H1. cbn beta in H1.
  apply wp_bind. eapply (wp_mono _ (λ _ r2, same_budgets r1 r2)).
  { destruct (s_evidence s); [by apply wp_ret|apply same_budgets_store]. }
  intros _ r2 H2. apply wp_ret. split; [done|by etrans].
Qed.
Lemma wp_spend_budgets r f k limit now : sound r →
  wp (spend_tx policy f k limit now) (λ x r',
    let root := tree_of r (f_run_id f) in
    (∀ other, other ≠ root → budget_at r' other = budget_at r other) ∧
    match r !! (records_of (f_run_id f), k), x with
    | None, RBudget true spent first => first = None ∧ budget_at r root < limit ∧ budget_at r' root = budget_at r root + 1
    | _, _ => budget_at r' root = budget_at r root
    end) r.
Proof.
  intros Hr. unfold spend_tx. apply wp_bind. eapply (wp_checked r); [by apply good_refl|]. intros s Hid Hs _ _ _. cbv zeta.
  assert (tree_of r (f_run_id f) = default (f_run_id f) (r_root (s_run s))) as ->.
  { unfold tree_of. rewrite <- Hid. unfold stored in Hs. by rewrite Hs. }
  set (root := default _ _). apply wp_bind, wp_get.
  2: { intros c x Hc Hx. rewrite Hc. by destruct x; try done; apply wp_ret. }
  intros Hnone. rewrite Hnone. apply wp_bind.
  eapply (wp_mono _ (λ loaded r1, r1 = r ∧ default 0 loaded = budget_at r root)).
  { unfold budget_at. apply wp_get; [by intros ->|]. intros c x -> Hx. by rewrite Hx. }
  intros loaded r1 [-> ->]. apply wp_bind. destruct (bool_decide _) eqn:Eg; cbn [z_of_bool].
  - apply bool_decide_eq_true in Eg. apply wp_put, wp_bind, wp_ret. eapply wp_mono; [apply wp_decide|].
    intros x r2 [-> Hb]. cbn beta match. rewrite !Hb, budget_insert. split; [|done].
    intros other Hne. by rewrite Hb, budget_insert_ne.
  - apply wp_ret. apply wp_bind. eapply (wp_mono _ (λ _ r1, same_budgets r r1)).
    { apply wp_bind, wp_get.
      - intros _. apply wp_bind. eapply wp_mono; [apply same_budgets_record|]. intros [] r1 H1. cbn beta in H1. by apply wp_ret.
      - intros c x _ _. by destruct x; try done; apply wp_ret. }
    intros first r1 H1. eapply wp_mono; [apply wp_decide|]. intros x r2 [-> H2]. cbn beta match.
    split; intros; by rewrite H2, H1.
Qed.
Lemma grant_budget root limit r r' : sound r → grant root limit r r' →
  budget_at r root < limit ∧ budget_at r' root = budget_at r root + 1.
Proof.
  intros Hr (f & k & now & spent & <- & Hn & E).
  destruct (wp_exec _ _ _ _ _ (wp_spend_budgets r f k limit now Hr) E) as [_ H2]. rewrite Hn in H2. tauto.
Qed.
Lemma grant_step root limit r r' : grant root limit r r' → step policy r r'.
Proof. intros (f & k & now & spent & _ & _ & E). eexists _, _, _. split; [|exact E]. constructor. Qed.
(** Every step grants the tree a jump, or keeps what the tree spent, or drops it. *)
Lemma step_budget root r r' : sound r → step policy r r' →
  (∃ limit, grant root limit r r') ∨ budget_at r' root = budget_at r root ∨ budget_at r' root = 0.
Proof.
  intros Hr (A & p & a & Hp & E). apply (framed_or_spends policy (R := kept_or_dropped)) in Hp as [Hp|Hp].
  2: { right. exact (wp_exec _ _ _ _ _ (Hp r) E root). }
  destruct Hp as [f k limit now]. destruct (wp_exec _ _ _ _ _ (wp_spend_budgets r f k limit now Hr) E) as [H1 H2].
  destruct (decide (root = tree_of r (f_run_id f))) as [->|Hne]; [|right; left; by apply H1].
  destruct (r !! (records_of (f_run_id f), k)) eqn:En; [by right; left|].
  destruct a as [| | | | | | | |granted spent first| |]; try by right; left.
  destruct granted; [|by right; left]. destruct H2 as (-> & _ & _). left. exists limit, f, k, now, spent. done.
Qed.
Lemma reachable_steps r r' : reachable policy r → rtc (step policy) r r' → reachable policy r'.
Proof. intros Hr Hs. exact (transitivity (R := rtc (step policy)) Hr Hs). Qed.
Lemma budget_nonneg root r : reachable policy r → 0 ≤ budget_at r root.
Proof.
  intros Hr. assert (∀ r0 r, sound r0 → rtc (step policy) r0 r → 0 ≤ budget_at r0 root → 0 ≤ budget_at r root) as Hn.
  { intros r0 r' H0 Hs. induction Hs as [|r0 r1 r2 H1 _ IH]; [done|]. intros Hb.
    apply IH; [by eapply good_sound, step_good|].
    destruct (step_budget root _ _ H0 H1) as [(limit & [_ ->]%grant_budget)|[-> | ->]]; try done; lia. }
  by apply (Hn ∅ r); [apply sound_empty|..].
Qed.
(** Every history is one of grants and of other steps. *)
Lemma history_jumps root r r' : reachable policy r → rtc (step policy) r r' → ∃ L n, jumps root L n r r'.
Proof.
  assert (∀ L L' n r r', L ≤ L' → jumps root L n r r' → jumps root L' n r r') as Hmono.
  { intros L L' n r0 r1 Hle. induction 1; [constructor|eapply jumps_grant; [done..|lia]|by eapply jumps_other]. }
  intros Hr. revert r'. apply (rtc_ind_r (λ r', ∃ L n, jumps root L n r r')); [exists 0, 0%nat; constructor|].
  intros r' r'' Hs Hstep IH.
  destruct IH as (L & n & IH). assert (reachable policy r') as Hr' by by eapply reachable_steps.
  pose proof (budget_nonneg root _ Hr') as Hb. apply reachable_sound in Hr' as Hsound.
  destruct (step_budget root _ _ Hsound Hstep) as [[limit Hg]|Hsame].
  - exists (Z.max L limit), (S n). eapply jumps_grant; [eapply Hmono, IH; lia|done|lia].
  - exists L, n. eapply jumps_other; [done|done|]. intros limit [_ Hg]%grant_budget; [|done].
    destruct Hsame as [Hs0|Hs0]; lia.
Qed.
Lemma jumps_steps root L n r r' : jumps root L n r r' → rtc (step policy) r r'.
Proof.
  induction 1 as [|n r r1 r2 limit _ IH Hg _|n r r1 r2 _ IH Hs _]; [done|..].
  - eapply rtc_r; [done|]. by eapply grant_step.
  - by eapply rtc_r.
Qed.
(** While its root lives, what a tree has spent counts its grants, and is within the
    limits asked with. *)
Lemma jumps_budget root L n r r' : reachable policy r → jumps root L n r r' → ¬ has_ended r' root →
  budget_at r' root = budget_at r root + Z.of_nat n ∧ (n = 0%nat ∨ budget_at r' root ≤ L).
Proof.
  intros Hr Hj. induction Hj as [r|n r r1 r2 limit Hj IH Hg Hle|n r r1 r2 Hj IH Hs Hno]; intros Hend.
  - split; [lia|by left].
  - assert (reachable policy r1) as Hr1 by (eapply reachable_steps; [done|by eapply jumps_steps]). apply reachable_sound in Hr1.
    assert (evolves r1 r2) as Hev by (eapply step_good; [done|by eapply grant_step]).
    destruct IH as [IH _]; [done|by intros He; apply Hend; eapply ended_mono|].
    apply grant_budget in Hg as [Hlt Hb]; [|done]. split; [lia|right; lia].
  - assert (reachable policy r1) as Hr1 by (eapply reachable_steps; [done|by eapply jumps_steps]).
    pose proof (budget_nonneg root _ Hr1) as Hnn. apply reachable_sound in Hr1.
    assert (evolves r1 r2) as Hev by by eapply step_good.
    destruct IH as [IH IHl]; [done|by intros He; apply Hend; eapply ended_mono|].
    assert (budget_at r2 root = budget_at r1 root) as ->; [|by split].
    destruct (ev_budget _ _ Hev root) as [?|Hle]; [done|].
    destruct (step_budget root _ _ Hr1 Hs) as [[limit Hg]|[?|?]]; [by destruct (Hno limit)|lia..].
Qed.

(** C12: a tree never jumps more often than its limit. Over any history of the store, of
    whatever operations, in which [n] jumps of a tree were granted, none asked with a
    limit above [L], and until the tree's root run ends: the tree's budget counts exactly
    the [n] grants on top of what was spent before, no operation resets it, and no grant
    went past [L]. The next jump asked by a fence that may act is then decided by that
    count: granted exactly while it is below the limit asked with, and counted by one;
    else refused, counting nothing, and naming the run's first refusal, recorded in the
    same commit. *)
Theorem spend_within_limit root L n r r' :
  reachable policy r → jumps root L n r r' → ¬ has_ended r' root →
  (n = 0%nat ∨ budget_at r root + Z.of_nat n ≤ L) ∧
  budget_at r' root = budget_at r root + Z.of_nat n ∧
  ∀ f k limit now s x r'',
    exec (checked f now (skew_ms policy)) r' = Ok (s, r') → tree_of r' (f_run_id f) = root →
    k ≠ EXCEEDED → r' !! (records_of (f_run_id f), k) = None →
    exec (spend_tx policy f k limit now) r' = Ok (x, r'') →
    r'' !! (records_of (f_run_id f), k) = Some (CRecord x) ∧
    if decide (budget_at r root + Z.of_nat n < limit)
    then x = RBudget true (budget_at r root + Z.of_nat n + 1) None ∧
         budget_at r'' root = budget_at r root + Z.of_nat n + 1
    else ∃ first, x = RBudget false (budget_at r root + Z.of_nat n) (Some first) ∧
         budget_at r'' root = budget_at r root + Z.of_nat n ∧
         r'' !! (records_of (f_run_id f), EXCEEDED) = Some (CRecord (RExceeded first)) ∧
         (r' !! (records_of (f_run_id f), EXCEEDED) = None → first = k) ∧
         (∀ by_, r' !! (records_of (f_run_id f), EXCEEDED) = Some (CRecord (RExceeded by_)) → first = by_).
Proof.
  intros Hr Hj Hend. destruct (jumps_budget _ _ _ _ _ Hr Hj Hend) as [Hb Hl]. rewrite <- Hb in *.
  split; [done|]. split; [done|]. intros f k limit now s x r'' Hc Ht Hk Hn Es.
  assert (sound r') as Hr' by (apply (reachable_sound policy); eapply reachable_steps; [done|by eapply jumps_steps]).
  destruct (checked_acting _ _ _ _ _ _ Hr' Hc) as [_ Ha].
  assert (default (f_run_id f) (r_root (s_run s)) = root) as Hroot.
  { rewrite <- Ht. unfold tree_of. rewrite <- (act_id Ha). pose proof (act_stored Ha) as Hs. unfold stored in Hs. by rewrite Hs. }
  destruct (wp_exec _ _ _ _ _ (wp_spend r' f k limit now s Ha Hk Hn) Es) as (_ & Hd & _).
  rewrite Hroot in Hd. exact Hd.
Qed.

(** A decision of the budget is made once: asked again for the same jump,
    whatever limit is given then, [spend] answers the recorded decision and
    writes nothing. *)
Theorem spend_replays r f k limit limit' now s x r' :
  reachable policy r → exec (checked f now (skew_ms policy)) r = Ok (s, r) →
  k ≠ EXCEEDED → r !! (records_of (f_run_id f), k) = None →
  exec (spend_tx policy f k limit now) r = Ok (x, r') →
  exec (spend_tx policy f k limit' now) r' = Ok (x, r').
Proof.
  intros Hr%reachable_sound Hc Hk Hn Es. destruct (checked_acting _ _ _ _ _ _ Hr Hc) as [_ Ha].
  destruct (wp_exec _ _ _ _ _ (wp_spend r f k limit now s Ha Hk Hn) Es) as (HI' & Hd & (s' & Hs' & Hrun) & Hst).
  assert (acting r' f now (skew_ms policy) s') as Ha'.
  { eapply acting_again; [done|done|done|by rewrite <- (act_id Ha)|by rewrite Hrun..]. }
  unfold spend_tx. rewrite exec_bind, (act_checked Ha'). cbv zeta. rewrite exec_bind.
  destruct Hd as [Hx Hd]. unfold get. rewrite exec_bind. cbn [get_cell exec exec_op]. rewrite Hx.
  cbn. case_decide; [by destruct Hd as [-> _]|by destruct Hd as (? & -> & _)].
Qed.
End with_host.

(** ** Witnesses *)

Lemma checked_called : exec (checked parent_fence 1002 (skew_ms P)) rows_called = Ok (run_at rows_called "p", rows_called).
Proof. apply exec_reads; [apply stable_checked|]. vm_compute. reflexivity. Qed.
Lemma save_record_result_witness :
  match exec (save_record_tx P parent_fence "/do/2" (RTimer 5) 1002) rows_called with
  | Ok (_, r') =>
      savable (rows_called !! (records_of "p", "/do/2")) (RTimer 5) ∧
      r' !! (records_of "p", "/do/2") = Some (CRecord (RTimer 5)) ∧
      r' !! ("run", "p") = Some (CRun (answered (run_at rows_called "p")
        (rows_called !! (records_of "p", "/do/2")) (RTimer 5))) ∧
      (∀ id, id ≠ "p" → r' !! ("run", id) = rows_called !! ("run", id)) ∧
      (∀ k', k'.1 ≠ "run" → indexed k'.1 = false → k' ≠ (records_of "p", "/do/2") →
        r' !! k' = rows_called !! k')
  | Err _ => ¬ savable (rows_called !! (records_of "p", "/do/2")) (RTimer 5)
  end.
Proof. apply (save_record_result P rows_called parent_fence); [apply reachable_called|apply checked_called]. Defined.
Lemma save_record_idempotent_witness :
  let r' := after (save_record_tx P parent_fence "/do/2" (RTimer 5) 1002) rows_called in
  exec (save_record_tx P parent_fence "/do/2" (RTimer 5) 1002) r' = Ok ((), r').
Proof.
  apply (save_record_idempotent P rows_called parent_fence _ _ _ (run_at rows_called "p"));
    [apply reachable_called|apply checked_called|]. by apply exec_after_ok.
Defined.
(** Two jumps of "p" are granted with limit 2, a timer saved between them, and the third is
    refused. *)
Definition jump_at (k : string) : prog JRecord := spend_tx P parent_fence k 2 1002.
Definition rows_jump1 : rows := after (jump_at "/do/3#1") rows_called.
Definition rows_timer : rows := after (save_record_tx P parent_fence "/do/2" (RTimer 5) 1002) rows_jump1.
Definition rows_jump2 : rows := after (jump_at "/do/3#2") rows_timer.
Lemma jumps_two : jumps P "p" 2 2 rows_called rows_jump2.
Proof.
  assert (reachable P rows_jump1) as H1 by (apply reachable_after; [apply reachable_called|constructor]).
  assert (exec (save_record_tx P parent_fence "/do/2" (RTimer 5) 1002) rows_jump1 = Ok ((), rows_timer)) as Es
    by by apply exec_after_ok.
  eapply (jumps_grant P "p" 2 1 _ rows_timer _ 2); [|exists parent_fence, "/do/3#2", 1002, 2|done].
  - eapply (jumps_other P "p" 2 1 _ rows_jump1).
    + eapply (jumps_grant P "p" 2 0 _ rows_called _ 2); [constructor|exists parent_fence, "/do/3#1", 1002, 1|done].
      split; [vm_compute; reflexivity|]. split; [vm_compute; reflexivity|]. by apply exec_after.
    + eexists _, _, _. split; [|exact Es]. constructor.
    + intros limit [_ Hg]%grant_budget; [|by eapply reachable_sound]. revert Hg. vm_compute. discriminate.
  - split; [vm_compute; reflexivity|]. split; [vm_compute; reflexivity|]. by apply exec_after.
Qed.
Lemma spend_within_limit_witness :
  let third := after (jump_at "/do/3#3") rows_jump2 in
  budget_at rows_jump2 "p" = 2 ∧
  third !! (records_of "p", "/do/3#3") = Some (CRecord (RBudget false 2 (Some "/do/3#3"))).
Proof.
  cbv zeta. destruct (spend_within_limit P "p" 2 2 rows_called rows_jump2) as (_ & Hb & Hd).
  - apply reachable_called.
  - apply jumps_two.
  - intros (s & Hs & He). unfold stored in Hs. 
    assert (r_ended_ms (s_run (run_at rows_jump2 "p")) = None) as Hn by (vm_compute; reflexivity).
    unfold run_at in Hn. rewrite Hs in Hn. rewrite Hn in He. by destruct He.
  - split; [exact Hb|].
    specialize (Hd parent_fence "/do/3#3" 2 1002 (run_at rows_jump2 "p") (RBudget false 2 (Some "/do/3#3"))
      (after (jump_at "/do/3#3") rows_jump2)).
    change (f_run_id parent_fence) with ("p" : string) in Hd. destruct Hd as [Hx _]; [..|exact Hx].
    + apply exec_reads; [apply stable_checked|]. vm_compute. reflexivity.
    + vm_compute. reflexivity.
    + done.
    + vm_compute. reflexivity.
    + apply exec_after. vm_compute. reflexivity.
Defined.
Lemma spend_replays_witness :
  let r' := after (spend_tx P parent_fence "/do/3#1" 5 1002) rows_called in
  exec (spend_tx P parent_fence "/do/3#1" 0 1002) r' = Ok (RBudget true 1 None, r').
Proof.
  apply (spend_replays P rows_called parent_fence "/do/3#1" 5 0 1002 (run_at rows_called "p"));
    [apply reachable_called|apply checked_called|done|vm_compute; reflexivity|]. by apply exec_after.
Defined.
