(* ===== verification/DefinitionSpec.v ===== *)
(** * Definitions, activation and the breaker

    The catalog only grows: a saved version never changes, and the activation epoch
    only moves forward. A breaker observes the runs of the current activation, and
    trips its definition at the threshold; a tripped definition admits nothing. *)
From stdpp Require Import relations.
From S2P Require Import Prelude Json Keys Outcome Journal Listen Types Store Index Admit Mailbox.
From S2P Require Import Triggers Lifecycle Control RunStore Logic Rows Steps Preserve Terminate Operations.
From S2P Require Import History Frame Samples.

Definition catalog (r : rows) (name : string) (d : Definitions) : Prop :=
  r !! ("definitions", name) = Some (CDefinitions (Some DEFINITIONS_VERSION) d).

(** The definitions rows are as they were. *)
Definition same_catalog (r r' : rows) : Prop := ∀ name, r' !! ("definitions", name) = r !! ("definitions", name).
(** The catalog has grown. *)
Definition grown (d d' : Definitions) : Prop := versions d ⊆ versions d' ∧ epoch d ≤ epoch d'.
Definition catalog_grown (r r' : rows) : Prop :=
  ∀ name d, catalog r name d → ∃ d', catalog r' name d' ∧ grown d d'.
#[export] Instance grown_preorder : PreOrder grown.
Proof.
  split; [by intros d; split|]. intros a b c [H1 H2] [H3 H4]. split; [by etrans|]. lia.
Qed.
#[export] Instance same_catalog_preorder : PreOrder same_catalog.
Proof. split; [done|]. intros r1 r2 r3 H1 H2 name. by rewrite H2. Qed.
#[export] Instance catalog_grown_preorder : PreOrder catalog_grown.
Proof.
  split; [by intros r name d Hd; exists d|]. intros r1 r2 r3 H1 H2 name d Hd.
  destruct (H1 _ _ Hd) as (d' & Hd' & G1). destruct (H2 _ _ Hd') as (d'' & Hd'' & G2).
  exists d''. split; [done|]. by etrans.
Qed.
#[export] Instance same_catalog_framed : Framed same_catalog.
Proof.
  split; intros r kind; [intros id c Hf|intros id Hf|]; intros name;
    rewrite ?lookup_insert_ne, ?lookup_delete_ne; try done; by intros [= -> ->].
Qed.
#[export] Instance same_catalog_budget : KeptBudget same_catalog.
Proof. intros r root c name. by rewrite lookup_insert_ne. Qed.
Lemma same_grown r r' : same_catalog r r' → catalog_grown r r'.
Proof. intros Hs name d Hd. exists d. split; [|done]. unfold catalog in *. by rewrite Hs. Qed.
#[export] Instance catalog_grown_framed : Framed catalog_grown.
Proof. split; intros; apply same_grown; [by apply framed_insert|by apply framed_remove|by apply framed_unspent]. Qed.
#[export] Instance catalog_grown_budget : KeptBudget catalog_grown.
Proof. intros r root c. apply same_grown, kept_budget. Qed.
Lemma grown_store r name d d' : catalog r name d → grown d d' →
  catalog_grown r (<[("definitions", name) := CDefinitions (Some DEFINITIONS_VERSION) d']> r).
Proof.
  intros Hd Hg name' d0 Hd0. unfold catalog in *. destruct (decide (name' = name)) as [->|Hne].
  - exists d'. rewrite lookup_insert_eq. split; [done|]. by simplify_eq.
  - exists d0. by rewrite lookup_insert_ne by congruence.
Qed.

(** ** Loading and storing *)

Lemma wp_load_definitions name (Q : option Definitions → rows → Prop) r :
  (r !! ("definitions", name) = None → Q None r) → (∀ d, catalog r name d → Q (Some d) r) →
  wp (load_definitions name) Q r.
Proof.
  intros HN HS. unfold load_definitions. apply wp_bind, wp_get_cell.
  destruct (r !! ("definitions", name)) as [c|] eqn:E; [|by apply wp_ret, HN].
  destruct c; try done. destruct layout as [l|]; [|done]. cbn [decode_definitions].
  apply wp_bind, wp_bind, wp_ensure. intros Hl%bool_decide_eq_true. apply wp_ret, wp_ret, HS.
  unfold catalog. by rewrite E, Hl.
Qed.
Lemma exec_load_definitions r name d : catalog r name d → exec (load_definitions name) r = Ok (Some d, r).
Proof. intros Hd. unfold load_definitions. rewrite exec_bind. cbn [exec get_cell exec_op]. by rewrite Hd. Qed.
(** Programs that frame the catalog, between a load and the store. *)
Lemma wp_same {A} (p : prog A) (Q : A → rows → Prop) r : stable same_catalog p →
  (∀ a r', same_catalog r r' → Q a r') → wp p Q r.
Proof. intros Hp HQ. eapply wp_mono; [apply Hp|auto]. Qed.
Lemma wp_arm defs wanted (Q : Definitions → rows → Prop) r :
  (∀ r', same_catalog r r' → Q (defs <| triggers := keys wanted |>) r') → wp (arm defs wanted) Q r.
Proof.
  intros HQ. unfold arm. repeat (apply wp_bind, wp_same; [solve_stable|intros ? ? ?]). apply wp_ret, HQ.
  by do 2 etrans.
Qed.
Lemma wp_store_grown r0 r name d d' (Q : unit → rows → Prop) : catalog r0 name d → same_catalog r0 r → grown d d' →
  (∀ r', catalog_grown r0 r' → catalog r' name d' → Q tt r') → wp (store_definitions name d') Q r.
Proof.
  intros Hd Hs Hg HQ. apply wp_put_cell, HQ; [|apply lookup_insert_eq]. etrans; [by apply same_grown|].
  eapply grown_store; [|done]. unfold catalog. by rewrite Hs.
Qed.

Section with_host.
Context `{Host}.
Variable policy : Policy.

Lemma grown_same d d' : versions d' = versions d → epoch d' = epoch d → grown d d'.
Proof. intros Hv He. split; [by rewrite Hv|lia]. Qed.
#[export] Instance catalog_grown_breaker : KeptBreaker catalog_grown.
Proof.
  intros run fault success d0 now r. unfold breaker. cbv zeta.
  apply wp_bind, wp_load_definitions; [intros _; by apply wp_ret|]. intros d Hd.
  destruct (negb _); [by apply wp_ret|]. destruct fault as [reason|].
  - destruct (effective _ _) as [t|]; [case_decide|].
    + apply wp_bind, wp_arm. intros r1 H1. apply wp_bind, wp_same; [solve_stable|]. intros _ r2 H2.
      eapply (wp_store_grown r); [done|by etrans|by apply grown_same|done].
    + eapply (wp_store_grown r); [done|done|by apply grown_same|done].
    + eapply (wp_store_grown r); [done|done|by apply grown_same|done].
  - destruct (_ && _); [|by apply wp_ret]. eapply (wp_store_grown r); [done|done|by apply grown_same|done].
Qed.
Lemma activate_grown name version epoch_ arming a : stable catalog_grown (activate name version epoch_ arming a).
Proof.
  intros r. unfold activate. apply wp_bind, wp_load_definitions.
  - intros _. cbv zeta. apply wp_bind, wp_ensure. cbn [default id]. cbn [versions default_definitions].
    rewrite lookup_empty. intros []%bool_decide_eq_true. done.
  - intros d Hd. cbv zeta. cbn [default id]. apply wp_bind, wp_ensure. intros _.
    destruct (is_some_and _ _); [by apply wp_ret|]. apply wp_bind, wp_some_or. intros next Hn.
    apply wp_bind, wp_same; [solve_stable|]. intros _ r1 H1. apply wp_bind, wp_arm. intros r2 H2.
    apply wp_bind. eapply (wp_store_grown r); [done|by etrans| |].
    + split; [done|]. unfold checked_addu64 in Hn. destruct (decide _); [|done]. injection Hn as <-. cbn. lia.
    + intros r3 H3 _. by apply wp_ret.
Qed.
Lemma next_version_fresh d v : next_version d = Some v → versions d !! v = None.
Proof.
  unfold next_version. destruct (last_version d) as [m|] eqn:E.
  - unfold checked_addu64. case_decide; [|done]. intros [= <-].
    destruct (versions d !! (m + 1)) as [x|] eqn:Ex; [|done]. exfalso.
    assert (∀ l k, k ∈ l → ∃ n, foldr (λ v m, Some (match m with Some m => Z.max v m | None => v end)) None l = Some n ∧ k ≤ n) as Hmax.
    { intros l k Hk. induction l as [|y l IH]; [by apply elem_of_nil in Hk|]. cbn [foldr].
      apply elem_of_cons in Hk as [->|Hk]; [destruct (foldr _ _ _); eexists; (split; [done|lia])|].
      destruct (IH Hk) as (n & -> & Hle). eexists. split; [done|lia]. }
    destruct (Hmax (map_to_list (versions d)).*1 (m + 1)) as (n & En & Hle).
    { apply list_elem_of_fmap. exists (m + 1, x). split; [done|]. by apply elem_of_map_to_list. }
    unfold last_version in E. assert (n = m) as -> by congruence. lia.
  - intros [= <-]. destruct (versions d !! 1) as [x|] eqn:Ex; [|done]. exfalso.
    unfold last_version in E. apply elem_of_map_to_list in Ex.
    destruct (map_to_list (versions d)) as [|y l]; [by apply elem_of_nil in Ex|]. done.
Qed.
Lemma save_definition_grown name yaml b : stable catalog_grown (save_definition_tx name yaml b).
Proof.
  intros r. unfold save_definition_tx. apply wp_bind, wp_load_definitions.
  - intros Hn. cbv zeta. cbn [default id]. apply wp_bind, wp_some_or. intros v _. apply wp_bind, wp_put_cell, wp_ret.
    intros name' d' Hd'. exists d'. unfold catalog in *. rewrite lookup_insert_ne by congruence. done.
  - intros d Hd. cbv zeta. cbn [default id]. apply wp_bind, wp_some_or. intros v Hv. apply wp_bind.
    eapply (wp_store_grown r); [done|done| |intros; by apply wp_ret].
    split; [|done]. cbn. by apply insert_subseteq, next_version_fresh.
Qed.
Lemma wp_suspend name d (Q : Definitions → rows → Prop) r :
  (∀ d' r', same_catalog r r' → versions d' = versions d → epoch d' = epoch d → Q d' r') → wp (suspend name d) Q r.
Proof.
  intros HQ. unfold suspend, suspend_one. apply wp_bind, wp_same; [solve_stable|]. intros acc r1 H1.
  apply wp_bind, wp_same; [solve_stable|]. intros _ r2 H2. apply wp_arm. intros r3 H3. apply HQ; [|done..].
  by do 2 etrans.
Qed.
Lemma pause_grown request name note now : stable catalog_grown (pause_command request name note now).
Proof.
  intros r. unfold pause_command. apply wp_bind, wp_load_definitions; [intros _; by apply wp_bind|].
  intros d Hd. apply wp_bind, wp_pret. destruct (tripped d) as [trip|].
  - destruct (t_manual trip); [by apply wp_ret|]. cbv zeta. apply wp_bind, wp_suspend. intros d' r1 H1 Hv He.
    apply wp_bind. eapply (wp_store_grown r); [done|done|by apply grown_same|intros; by apply wp_ret].
  - apply wp_bind, wp_some_or. intros v _. apply wp_bind, wp_suspend. intros d' r1 H1 Hv He. apply wp_bind.
    eapply (wp_store_grown r); [done|done|by apply grown_same|intros; by apply wp_ret].
Qed.
Lemma resume_grown name now : stable catalog_grown (resume_command name now).
Proof.
  intros r. unfold resume_command. apply wp_bind, wp_load_definitions; [intros _; by apply wp_bind|].
  intros d Hd. apply wp_bind, wp_pret. destruct (tripped d) as [trip|]; [|by apply wp_ret].
  destruct (t_manual trip); [|done]. apply wp_bind, wp_same; [solve_stable|]. intros loaded r1 H1.
  apply wp_bind, wp_some_or. intros paused _. apply wp_bind, wp_ensure. intros _. cbv zeta.
  apply wp_bind, wp_arm. intros r2 H2. apply wp_bind, wp_same; [solve_stable|]. intros _ r3 H3.
  apply wp_bind, wp_same; [solve_stable|]. intros _ r4 H4. apply wp_bind.
  eapply (wp_store_grown r); [done|by do 3 etrans|by apply grown_same|]. intros r5 H5 _.
  assert (stable catalog_grown (_ ← drain_queues name now; mret (Changed true))) as Hrest by solve_stable.
  eapply wp_mono; [apply Hrest|]. intros a r6 H6. by etrans.
Qed.
Lemma catalog_put_entry kind k (e : Entry) : family kind ≠ "definitions" → stable catalog_grown (put kind k e).
Proof.
  intros Hk r. apply wp_put, same_grown. intros name. rewrite lookup_insert_ne; [done|].
  intros [= -> _]. by apply Hk.
Qed.
Hint Resolve activate_grown save_definition_grown pause_grown resume_grown : stable.
Lemma respond_grown request id key_ event now : stable catalog_grown (respond_command request id key_ event now policy).
Proof.
  assert (∀ k (e : Entry), stable catalog_grown (put (partition "control_response" id) k e)) as Hput.
  { intros k e. by apply catalog_put_entry. }
  unfold respond_command, complete_response, offer_to_wildcard. solve_stable.
Qed.

#[export] Instance catalog_grown_kept : Kept catalog_grown policy.
Proof.
  split; [apply activate_grown|apply save_definition_grown|apply pause_grown|apply resume_grown|apply respond_grown|].
  intros fuel request c now Hcancel Hhold Hstop. pose proof respond_grown.
  assert (∀ k (e : Entry), stable catalog_grown (put "control_command" k e)) as Hput.
  { intros k e. by apply catalog_put_entry. }
  unfold control_command, command_effect. solve_stable.
Qed.

(** the catalog only grows: whatever operations follow, a saved version of a
    definition stays as it was saved, and the activation epoch never goes back. *)
Theorem saved_version_is_permanent r r' name d v x :
  rtc (step policy) r r' → catalog r name d → versions d !! v = Some x →
  ∃ d', exec (definitions_tx name) r' = Ok (d', r') ∧ versions d' !! v = Some x ∧ epoch d ≤ epoch d'.
Proof.
  intros Hs Hd Hv. apply (framed_steps policy (R := catalog_grown)) in Hs.
  destruct (Hs name d Hd) as (d' & Hd' & Hsub & He). exists d'.
  split; [unfold definitions_tx; by rewrite exec_bind, (exec_load_definitions _ _ d')|].
  split; [|done]. by eapply lookup_weaken.
Qed.

(** ** Activation *)

Lemma wp_activate name version epoch_ arming a d r : catalog r name d → epoch_ = None ∨ epoch_ = Some (epoch d) →
  wp (activate name version epoch_ arming a) (λ o r', ∃ x d', versions d !! version = Some x ∧ o = Some d' ∧
    catalog r' name d' ∧ d' = (activate_defs d version (epoch d + 1) a) <| triggers := keys arming |> ∧
    epoch d < u64_max) r.
Proof.
  intros Hd He. unfold activate. eapply wp_bind, wp_step; [by apply exec_load_definitions|]. cbv zeta. cbn [default id].
  apply wp_bind, wp_ensure. intros [x Hx]%bool_decide_eq_true.
  destruct (is_some_and _ _) eqn:E.
  { exfalso. destruct He as [-> | ->]; [done|]. cbn in E. by apply bool_decide_eq_true in E. }
  apply wp_bind, wp_some_or. intros next Hn. unfold checked_addu64 in Hn.
  destruct (decide _); [|done]. injection Hn as <-.
  apply wp_bind, wp_same; [solve_stable|]. intros _ r1 H1. apply wp_bind, wp_arm. intros r2 H2.
  apply wp_bind. eapply (wp_store_grown r); [done|by etrans| |].
  - split; [done|]. cbn. lia.
  - intros r3 _ Hd3. apply wp_ret. eexists x, _. split_and!; [done..|]. lia.
Qed.

(** Activation is guarded by the epoch it was prepared for: with another epoch
    [activate_with] answers nothing and writes nothing; with the current one, the
    named saved version becomes active in the next epoch, with no trip, no counted
    fault and the given triggers, so the breaker observes no run of the epoch
    before. *)
Theorem activation_compares_epoch r name d version epoch_ arming a o r' :
  catalog r name d → exec (activate_with_tx name version epoch_ arming a) r = Ok (o, r') →
  (epoch_ ≠ epoch d ∧ o = None ∧ r' = r) ∨
  (epoch_ = epoch d ∧ ∃ x d', o = Some d' ∧ versions d !! version = Some x ∧ catalog r' name d' ∧
     active d' = Some version ∧ epoch d' = epoch d + 1 ∧ tripped d' = None ∧ consecutive_faults d' = 0 ∧
     triggers d' = keys arming ∧ versions d' = versions d ∧
     (∀ s, r_epoch s = Some (epoch d) → observed d' s = false)).
Proof.
  intros Hd E. destruct (decide (epoch_ = epoch d)) as [->|Hne].
  - right. split; [done|].
    destruct (wp_exec _ _ _ _ _ (wp_activate name version _ arming a d r Hd (or_intror eq_refl)) E)
      as (x & d' & Hx & -> & Hd' & -> & Hlt). eexists x, _. split; [done|]. split; [done|]. split; [exact Hd'|].
    do 6 (split; [done|]). intros s Hs. unfold observed. rewrite Hs. cbn.
    rewrite (bool_decide_false (Some (epoch d) = Some (epoch d + 1))) by (intros [=]; lia).
    by rewrite andb_false_r.
  - left. split; [done|]. unfold activate_with_tx, activate in E.
    rewrite exec_bind, (exec_load_definitions _ _ d) in E by done. cbv zeta in E. cbn [default id] in E.
    rewrite exec_bind in E. destruct (bool_decide _); [|done]. cbn [ensure exec is_some_and] in E.
    rewrite bool_decide_true in E by done. by injection E as <- <-.
Qed.

(** ** The breaker *)

(** An outcome as the engine tells the breaker of it: a terminal outcome of a run, with the
    fault it counts and whether it is a success; a cancelled run is neither. *)
Record Outcome := mkOutcome { ou_run : SavedRun; ou_fault : option WorkflowError; ou_success : bool; ou_at : Z }.
Definition observe (default_ : Z) (o : Outcome) : prog unit :=
  breaker (ou_run o) (ou_fault o) (ou_success o) default_ (ou_at o).
(** A run of the version and epoch in force. *)
Definition of_activation (name : string) (d : Definitions) (s : SavedRun) : Prop :=
  a_name (r_admission s) = name ∧ active d = Some (a_version (r_admission s)) ∧ r_epoch s = Some (epoch d).
#[export] Instance of_activation_dec name d s : Decision (of_activation name d s).
Proof. apply _. Defined.
(** What an outcome is to the activation in force. *)
Inductive mark := MFault | MSuccess | MNothing.
Definition mark_of (name : string) (d : Definitions) (o : Outcome) : mark :=
  if decide (of_activation name d (ou_run o)) then
    match ou_fault o with Some _ => MFault | None => if ou_success o then MSuccess else MNothing end
  else MNothing.
(** The reference: a fault adds to the streak, a success ends it, and nothing else moves
    it. The position of the fault that completes [threshold], when [n] were counted before. *)
Fixpoint trips_at (threshold : option Z) (n : Z) (marks : list mark) : option nat :=
  match marks with
  | [] => None
  | MFault :: marks =>
      if is_some_and threshold (λ t, bool_decide (t ≤ sat_addu32 n 1)) then Some O
      else S <$> trips_at threshold (sat_addu32 n 1) marks
  | MSuccess :: marks => S <$> trips_at threshold 0 marks
  | MNothing :: marks => S <$> trips_at threshold n marks
  end.
(** The streak after them. *)
Definition streak (n : Z) (marks : list mark) : Z :=
  foldl (λ n m, match m with MFault => sat_addu32 n 1 | MSuccess => 0 | MNothing => n end) n marks.
Definition same_activation (d d' : Definitions) : Prop :=
  versions d' = versions d ∧ active d' = active d ∧ epoch d' = epoch d.
(** The trip of an outcome, when [n] faults were counted with it. *)
Definition tripped_by (d : Definitions) (threshold n : Z) (o : Outcome) (t : Trip) : Prop :=
  t_manual t = None ∧ t_breaker t = true ∧ t_epoch t = epoch d ∧ t_run t = a_id (r_admission (ou_run o)) ∧
  t_threshold t = threshold ∧ t_at_ms t = ou_at o ∧ t_faults t = n ∧ threshold ≤ n ∧
  Some (t_version t) = active d ∧ Some (t_reason t) = ou_fault o.

(** The row of one definition, across observations of other definitions' runs. *)
Definition same_definition (name : string) (r r' : rows) : Prop :=
  r' !! (("definitions" : string), name) = r !! (("definitions" : string), name).
#[local] Instance same_definition_preorder name : PreOrder (same_definition name).
Proof. split; [done|]. intros r1 r2 r3 H1 H2. unfold same_definition in *. congruence. Qed.
#[local] Instance same_definition_framed name : Framed (same_definition name).
Proof.
  split; intros r kind; [intros id c Hf|intros id Hf|]; unfold same_definition;
    rewrite ?lookup_insert_ne, ?lookup_delete_ne; try done; by intros [= -> ->].
Qed.
Lemma observe_other name default_ o : a_name (r_admission (ou_run o)) ≠ name →
  stable (same_definition name) (observe default_ o).
Proof.
  intros Hne. assert (∀ d, stable (same_definition name) (store_definitions (a_name (r_admission (ou_run o))) d)) as Hst.
  { intros d r. apply wp_put_cell. unfold same_definition. rewrite lookup_insert_ne; [done|congruence]. }
  unfold observe, breaker. solve_stable.
Qed.
Lemma wp_observe_unmarked r name d default_ o : catalog r name d → mark_of name d o = MNothing ∨ is_Some (tripped d) →
  wp (observe default_ o) (λ _ r', catalog r' name d) r.
Proof.
  intros Hd Hm. destruct (decide (a_name (r_admission (ou_run o)) = name)) as [Hname|Hne].
  2: { eapply wp_mono; [by apply observe_other|]. intros [] r' Hs. unfold catalog in *. by rewrite Hs. }
  unfold observe, breaker. cbv zeta. rewrite Hname. eapply wp_bind, wp_step; [by apply exec_load_definitions|].
  cbv beta iota. destruct (observed d (ou_run o)) eqn:Eo; [|by apply wp_ret]. cbn [negb].
  unfold observed in Eo. rewrite !andb_true_iff, !bool_decide_eq_true in Eo. destruct Eo as ((Ha & He) & Ht).
  destruct Hm as [Hm|[t Hm]]; [|congruence]. unfold mark_of in Hm. rewrite decide_True in Hm by done.
  destruct (ou_fault o); [done|]. destruct (ou_success o); [done|]. by apply wp_ret.
Qed.
Lemma wp_observe_marked r name d default_ o v : catalog r name d → of_activation name d (ou_run o) → active d = Some v →
  tripped d = None → 0 ≤ consecutive_faults d →
  wp (observe default_ o) (λ _ r', ∃ d', catalog r' name d' ∧ same_activation d d' ∧
    match mark_of name d o with
    | MNothing => d' = d
    | MSuccess => tripped d' = None ∧ consecutive_faults d' = 0
    | MFault =>
        let n := sat_addu32 (consecutive_faults d) 1 in
        match effective (policy_of d v) default_ with
        | Some t =>
            if decide (t ≤ n) then ∃ trip, tripped d' = Some trip ∧ tripped_by d t n o trip ∧ triggers d' = []
            else tripped d' = None ∧ consecutive_faults d' = n
        | None => tripped d' = None ∧ consecutive_faults d' = n
        end
    end) r.
Proof.
  intros Hd Hof Hv Ht Hn. pose proof Hof as (Hname & Hact & Hep). unfold observe, breaker, mark_of.
  rewrite decide_True by done. cbv zeta. rewrite Hname. eapply wp_bind, wp_step; [by apply exec_load_definitions|].
  cbv beta iota. assert (observed d (ou_run o) = true) as ->.
  { unfold observed. by rewrite Hact, Hep, Ht, !bool_decide_true by done. }
  cbn [negb]. assert (v = a_version (r_admission (ou_run o))) as -> by congruence.
  destruct (ou_fault o) as [reason|] eqn:Ef.
  - set (d1 := d <| consecutive_faults ::= λ n, sat_addu32 n 1 |>).
    change (policy_of d1) with (policy_of d). change (consecutive_faults d1) with (sat_addu32 (consecutive_faults d) 1).
    destruct (effective _ _) as [t|]; [case_decide as Hle|].
    + apply wp_bind, wp_arm. intros r1 H1. apply wp_bind, wp_same; [solve_stable|]. intros _ r2 H2.
      eapply (wp_store_grown r _ _ d); [done|by etrans|by apply grown_same|]. intros r3 _ Hd3. eexists. split; [exact Hd3|].
      split; [done|]. eexists. split; [done|]. split; [|done]. unfold tripped_by. cbn. split_and!; done.
    + eapply (wp_store_grown r _ _ d); [done|done|by apply grown_same|]. intros r3 _ Hd3. eexists. split; [exact Hd3|].
      done.
    + eapply (wp_store_grown r _ _ d); [done|done|by apply grown_same|]. intros r3 _ Hd3. eexists. by split; [exact Hd3|].
  - destruct (ou_success o); cbn [andb]; [|apply wp_ret; by exists d].
    destruct (decide (0 < consecutive_faults d)).
    + rewrite bool_decide_true by done. eapply (wp_store_grown r _ _ d); [done|done|by apply grown_same|].
      intros r3 _ Hd3. eexists. split; [exact Hd3|]. done.
    + rewrite bool_decide_false by done. apply wp_ret. exists d. split_and!; try done. lia.
Qed.
Lemma wp_observe_all_tripped r name d default_ os : catalog r name d → is_Some (tripped d) →
  wp (for_each os (observe default_)) (λ _ r', catalog r' name d) r.
Proof.
  intros Hd Ht. revert r Hd. induction os as [|o os IH]; intros r Hd; cbn [for_each]; [by apply wp_ret|].
  apply wp_bind. eapply wp_mono; [apply wp_observe_unmarked; [exact Hd|by right]|]. intros [] r1. apply IH.
Qed.
Lemma mark_of_same name d d' o : same_activation d d' → mark_of name d' o = mark_of name d o.
Proof.
  intros (_ & Ha & He). unfold mark_of. erewrite decide_ext; [done|]. unfold of_activation. by rewrite Ha, He.
Qed.
Lemma same_activation_trans a b c : same_activation a b → same_activation b c → same_activation a c.
Proof. intros (?&?&?) (?&?&?). split_and!; by etrans. Qed.

(** Where a definition is after the outcomes: tripped by the one that completes the
    threshold, or counting the current streak. *)
Definition breaker_result (name : string) (d d' : Definitions) (threshold : option Z) (n : Z) (os : list Outcome) : Prop :=
  let marks := mark_of name d <$> os in
  match trips_at threshold n marks with
  | None => tripped d' = None ∧ consecutive_faults d' = streak n marks
  | Some i => ∃ o t trip, os !! i = Some o ∧ threshold = Some t ∧ tripped d' = Some trip ∧
      tripped_by d t (streak n (firstn (S i) marks)) o trip ∧ triggers d' = []
  end.
Lemma result_cons name d d1 d' threshold n n' o os : same_activation d d1 →
  mark_of name d o = MFault ∧ n' = sat_addu32 n 1 ∧ is_some_and threshold (λ t, bool_decide (t ≤ n')) = false ∨
  mark_of name d o = MSuccess ∧ n' = 0 ∨ mark_of name d o = MNothing ∧ n' = n →
  breaker_result name d1 d' threshold n' os → breaker_result name d d' threshold n (o :: os).
Proof.
  intros Hs Ho. unfold breaker_result. cbv zeta. rewrite fmap_cons.
  assert (mark_of name d1 <$> os = mark_of name d <$> os) as ->.
  { apply list_fmap_ext. intros i x _. by apply mark_of_same. }
  cbn [trips_at streak foldl]. destruct Ho as [(-> & -> & ->)|[(-> & ->)|(-> & ->)]];
    (destruct (trips_at _ _ _); [|done]; intros (o' & t & trip & ? & ? & ? & Hby & ?); exists o', t, trip; split_and!; try done;
     unfold tripped_by in *; destruct Hs as (_ & <- & <-); exact Hby).
Qed.

(** C17: the breaker trips at the threshold. Over any sequence of outcomes, of runs of
    any definition, version and epoch, whether faults, successes or neither: a definition
    in force is tripped exactly when [threshold] faults of runs of its active version and
    epoch follow one another with no success of such a run between them, by the fault
    that completes them (named by the trip, with the count), and its triggers are then
    disarmed; until then the count is the current streak, which only such a fault raises
    (saturating at 32 bits) and only such a success ends. A policy of [Off] never trips,
    and what follows a trip changes nothing of the definition. *)
Theorem breaker_trips_at_threshold r name d v default_ outcomes r' :
  catalog r name d → active d = Some v → tripped d = None → 0 ≤ consecutive_faults d →
  exec (for_each outcomes (observe default_)) r = Ok ((), r') →
  ∃ d', catalog r' name d' ∧ same_activation d d' ∧
    breaker_result name d d' (effective (policy_of d v) default_) (consecutive_faults d) outcomes.
Proof.
  revert r d. induction outcomes as [|o os IH]; intros r d Hd Hv Ht Hn E.
  { injection E as <-. by exists d. }
  cbn [for_each] in E. rewrite exec_bind in E. destruct (exec (observe default_ o) r) as [[[] r1]|] eqn:E1; [|done].
  assert (∀ d1 n', catalog r1 name d1 → same_activation d d1 → tripped d1 = None → consecutive_faults d1 = n' → 0 ≤ n' →
    mark_of name d o = MFault ∧ n' = sat_addu32 (consecutive_faults d) 1 ∧
      is_some_and (effective (policy_of d v) default_) (λ t, bool_decide (t ≤ n')) = false ∨
    mark_of name d o = MSuccess ∧ n' = 0 ∨ mark_of name d o = MNothing ∧ n' = consecutive_faults d →
    ∃ d', catalog r' name d' ∧ same_activation d d' ∧
      breaker_result name d d' (effective (policy_of d v) default_) (consecutive_faults d) (o :: os)) as Hnext.
  { intros d1 n' Hd1 Hs Ht1 <- Hn1 Hm. assert (policy_of d1 v = policy_of d v) as Hp by (unfold policy_of; by rewrite (proj1 Hs)).
    assert (active d1 = Some v) as Hv1 by (destruct Hs as (_ & -> & _); done).
    destruct (IH r1 d1 Hd1 Hv1 Ht1 Hn1 E) as (d' & Hd' & Hs' & Hr). rewrite Hp in Hr.
    exists d'. split; [done|]. split; [by eapply same_activation_trans|by eapply result_cons]. }
  assert (0 ≤ sat_addu32 (consecutive_faults d) 1) as Hsat by (unfold sat_addu32, u32_max; lia).
  destruct (decide (of_activation name d (ou_run o))) as [Hof|Hnof].
  2: { assert (mark_of name d o = MNothing) as Hm by (unfold mark_of; by rewrite decide_False).
    pose proof (wp_exec _ _ _ _ _ (wp_observe_unmarked r name d default_ o Hd (or_introl Hm)) E1) as Hd1. 
    eapply Hnext; [exact Hd1|by split|done|done|done|by right; right]. }
  destruct (wp_exec _ _ _ _ _ (wp_observe_marked r name d default_ o v Hd Hof Hv Ht Hn) E1) as (d1 & Hd1 & Hsame & Hcase).
  destruct (mark_of name d o) eqn:Em.
  - cbv zeta in Hcase. destruct (effective (policy_of d v) default_) as [t|] eqn:Et; [case_decide as Hle|].
    + destruct Hcase as (trip & Htrip & Hby & Harm).
      pose proof (wp_exec _ _ _ _ _ (wp_observe_all_tripped r1 name d1 default_ os Hd1 (mk_is_Some _ _ Htrip)) E) as Hd'.
      exists d1. split; [done|]. split; [done|]. unfold breaker_result. cbv zeta. rewrite fmap_cons, Em.
      cbn [trips_at is_some_and]. rewrite bool_decide_true by done. by exists o, t, trip.
    + destruct Hcase as [? ?]. eapply Hnext; [done..|]. left. cbn. by rewrite bool_decide_false.
    + destruct Hcase as [? ?]. eapply Hnext; [done..|]. by left.
  - destruct Hcase as [? ?]. eapply Hnext; [done..|lia|]. right. by left.
  - subst d1. eapply Hnext; [done..|]. by right; right.
Qed.

(** ** Admission under a trip *)

Lemma exec_drain_marked_none r name now : r !! ("control_drain", name) = None →
  exec (drain_marked name now) r = Ok (false, r).
Proof. intros Hn. unfold drain_marked, get. rewrite !exec_bind. cbn [exec get_cell exec_op]. by rewrite Hn. Qed.
Lemma exec_admitted_new r a d now : Inv r → exec is_stopped r = Ok (false, r) → r !! ("run", a_id a) = None →
  catalog r (a_name a) d →
  exec (admitted a now JoinRoot) r =
    match barred (Some d) a with
    | Some refusal => Err (ETripped refusal)
    | None => Ok (Some (fresh_run a (Some d) now), r)
    end.
Proof.
  intros HI Hstop Hn Hd. unfold admitted. rewrite exec_bind, exec_find_run by done. rewrite Hn.
  rewrite exec_bind, exec_running by done. rewrite exec_bind, (exec_load_definitions _ _ d) by done.
  by destruct (barred (Some d) a).
Qed.

(** A tripped definition admits nothing: a new run of it is refused with the
    trip, whichever way it is admitted, when an operator paused the definition or
    the run's version is the tripped one (by digest) or unknown; another version's
    run is admitted under a breaker's trip. *)
Theorem trip_bars_admission r a d trip now :
  reachable policy r → exec is_stopped r = Ok (false, r) → r !! ("control_drain", a_name a) = None →
  r !! ("run", a_id a) = None → catalog r (a_name a) d → tripped d = Some trip →
  if decide (is_Some (t_manual trip) ∨ digest (Some d) a = "" ∨ digest (Some d) a = t_digest trip)
  then exec (admit_tx a now) r = Err (ETripped (refusal trip (a_name a))) ∧
       ∀ owner, exec (start_tx owner a now) r = Err (ETripped (refusal trip (a_name a)))
  else ∃ r', exec (admit_tx a now) r = Ok (Ok true, r') ∧
       r' !! ("run", a_id a) = Some (CRun (fresh_run a (Some d) now)).
Proof.
  intros HI%reachable_Inv Hstop Hdrain Hn Hd Htrip. unfold admit_tx, start_tx.
  pose proof (exec_admitted_new r a d now HI Hstop Hn Hd) as Hadm.
  unfold barred in Hadm. cbn [mbind option_bind] in Hadm. rewrite Htrip in Hadm. cbn [mbind option_bind] in Hadm.
  case_decide as Hb.
  - split; intros; rewrite exec_bind, exec_drain_marked_none by done; rewrite exec_bind; cbn [exec drained_refusal negb];
      unfold mret, prog_ret; cbn [exec]; rewrite exec_bind; unfold insert_run; rewrite ?exec_bind, Hadm; done.
  - assert (stageable r (fresh_run a (Some d) now)) as Hst.
    { apply staged_stageable. unfold staged, run_id. cbn. rewrite Hn. split; [apply fresh_run_ok|done]. }
    destruct (exec_store_run r HI _ Hst) as (r' & E & Hr'). exists r'. split.
    + rewrite exec_bind, exec_drain_marked_none by done. rewrite exec_bind. cbn [exec drained_refusal negb].
      unfold mret, prog_ret. cbn [exec]. rewrite exec_bind. unfold insert_run.
      rewrite exec_bind, Hadm. cbv beta iota. rewrite exec_bind, E. done.
    + exact (restored_self r r' _ Hr').
Qed.
End with_host.

(** ** Witnesses *)

Definition a_breaker : Breaker := Threshold 2.
Definition rows_saved : rows := after (save_definition_tx "flow" "do: []" a_breaker) ∅.
Definition rows_active : rows := after (activate_with_tx "flow" 1 0 ∅ (activation_at 900)) rows_saved.
Definition catalog_at (r : rows) (name : string) : Definitions :=
  match r !! ("definitions", name) with Some (CDefinitions _ d) => d | _ => default_definitions end.
Definition a_fault : WorkflowError := Error.runtime "boom".
Definition flow_run (id : string) : Admission := mkAdmission id "flow" 1 "do" VNull (VObj ∅).
Definition an_outcome (id : string) (fault : option WorkflowError) (success : bool) : Outcome :=
  mkOutcome (s_run (fresh_run (flow_run id) (Some (catalog_at rows_active "flow")) 1000)) fault success 1000.
(** A fault and a success; a fault, a cancelled run, a fault of a run of no epoch; and the fault that trips. *)
Definition some_outcomes : list Outcome :=
  [an_outcome "r1" (Some a_fault) false; an_outcome "r2" None true; an_outcome "r3" (Some a_fault) false;
   an_outcome "r4" None false; mkOutcome (s_run (fresh_run (flow_run "r5") None 1000)) (Some a_fault) false 1000;
   an_outcome "r6" (Some a_fault) false; an_outcome "r7" None true].
Lemma some_outcomes_trip : trips_at (Some 2) 0 (mark_of "flow" (catalog_at rows_active "flow") <$> some_outcomes) = Some 5%nat.
Proof. vm_compute. reflexivity. Qed.
(** Two runs of the active version that fault: the second trips it. *)
Definition faulted (id : string) (r : rows) : rows :=
  after (finish_tx P 5 (mkFence id "w1" 1) (Faulted a_fault) 1100 3) (after (start_tx "w1" (flow_run id) 1000) r).
Definition rows_tripped : rows := faulted "r2" (faulted "r1" rows_active).

Lemma reachable_saved : reachable P rows_saved.
Proof. apply reachable_after; [constructor|constructor]. Qed.
Lemma reachable_active : reachable P rows_active.
Proof. apply reachable_after; [apply reachable_saved|constructor]. Qed.
Lemma reachable_faulted id r : reachable P r → reachable P (faulted id r).
Proof. intros Hr. do 2 (apply reachable_after; [|constructor]). exact Hr. Qed.

Lemma saved_version_is_permanent_witness : ∃ d', exec (definitions_tx "flow") rows_active = Ok (d', rows_active) ∧
  versions d' !! 1 = versions (catalog_at rows_saved "flow") !! 1 ∧ epoch (catalog_at rows_saved "flow") ≤ epoch d'.
Proof.
  assert (versions (catalog_at rows_saved "flow") !! 1 = Some (mkDefinition "flow" 1 "do: []" "010203" a_breaker))
    as -> by (vm_compute; reflexivity).
  apply (saved_version_is_permanent P rows_saved rows_active "flow" (catalog_at rows_saved "flow") 1).
  - apply step_after. constructor.
  - vm_compute. reflexivity.
  - vm_compute. reflexivity.
Defined.
Lemma activation_compares_epoch_witness :
  let d := catalog_at rows_saved "flow" in let d1 := catalog_at rows_active "flow" in
  (0 ≠ epoch d ∧ Some d1 = None ∧ rows_active = rows_saved) ∨
  (0 = epoch d ∧ ∃ x d', Some d1 = Some d' ∧ versions d !! 1 = Some x ∧ catalog rows_active "flow" d' ∧
     active d' = Some 1 ∧ epoch d' = epoch d + 1 ∧ tripped d' = None ∧ consecutive_faults d' = 0 ∧
     triggers d' = keys (∅ : gmap string Trigger) ∧ versions d' = versions d ∧
     (∀ s, r_epoch s = Some (epoch d) → observed d' s = false)).
Proof.
  cbv zeta. apply (activation_compares_epoch rows_saved "flow" _ 1 0 ∅ (activation_at 900)).
  - vm_compute. reflexivity.
  - apply (exec_after (activate_with_tx "flow" 1 0 ∅ (activation_at 900)) rows_saved). vm_compute. reflexivity.
Defined.
Lemma breaker_trips_at_threshold_witness : ∃ r' d', catalog r' "flow" d' ∧
  same_activation (catalog_at rows_active "flow") d' ∧
  breaker_result "flow" (catalog_at rows_active "flow") d' (Some 2) 0 some_outcomes.
Proof.
  exists (after (for_each some_outcomes (observe 5)) rows_active).
  apply (breaker_trips_at_threshold rows_active "flow" (catalog_at rows_active "flow") 1 5 some_outcomes).
  - vm_compute. reflexivity.
  - vm_compute. reflexivity.
  - vm_compute. reflexivity.
  - vm_compute. discriminate.
  - apply (exec_after_ok (for_each some_outcomes (observe 5)) rows_active). vm_compute. reflexivity.
Defined.
Definition the_trip : Trip :=
  default (mkTrip None true 0 "" 0 0 0 "" a_fault 0) (tripped (catalog_at rows_tripped "flow")).
Lemma trip_bars_admission_witness :
  if decide (is_Some (t_manual the_trip)
     ∨ digest (Some (catalog_at rows_tripped "flow")) (flow_run "r3") = ""
     ∨ digest (Some (catalog_at rows_tripped "flow")) (flow_run "r3") =
         t_digest the_trip)
  then exec (admit_tx (flow_run "r3") 1200) rows_tripped = Err (ETripped (refusal
         the_trip "flow")) ∧
       ∀ owner, exec (start_tx owner (flow_run "r3") 1200) rows_tripped = Err (ETripped (refusal
         the_trip "flow"))
  else ∃ r', exec (admit_tx (flow_run "r3") 1200) rows_tripped = Ok (Ok true, r') ∧
       r' !! ("run", "r3") = Some (CRun (fresh_run (flow_run "r3") (Some (catalog_at rows_tripped "flow")) 1200)).
Proof.
  apply (trip_bars_admission P rows_tripped (flow_run "r3") (catalog_at rows_tripped "flow")).
  - do 2 apply reachable_faulted. apply reachable_active.
  - apply exec_is_stopped. vm_compute. reflexivity.
  - vm_compute. reflexivity.
  - vm_compute. reflexivity.
  - vm_compute. reflexivity.
  - vm_compute. reflexivity.
Defined.
