(* ===== verification/Alone.v ===== *)
(** * A drive that runs alone

    What a piece of the interpreter does when no other branch acts between its
    operations: its outcome, the shared fields it leaves, and the effects it had in
    order. An [Env] answers what the host and the journal are asked. *)
From S2P Require Import Prelude Json Outcome Journal Secrets Drive.
From S2P Require Import Branches.

Record Env := mkEnv {
  en_save : string → JRecord → result string unit;
  en_spend : string → Z → result string (option JRecord);
  en_now : Z;
  en_cancelled : bool;
  en_answer : Dispatched → option (result CallFailure value * Annotations);
  en_emit : value → Dispatched → option (result CallFailure unit);
  en_uuid : string;
  en_pause : Z → bool;
  en_events : events_op → result string unit;
  en_take : string → list string → result string (option value);
  en_held : Z → bool;
  en_notified : Z → bool;
  en_child : ChildStart → result CallFailure (string * string);
  en_schema : string → result string value;
  en_follow : Fault;
  en_turn : bool;
  en_fires : Z → drive_op → bool
}.
#[export] Instance eta_Env : Eta Env := λ r,
  mkEnv (en_save r) (en_spend r) (en_now r) (en_cancelled r) (en_answer r) (en_emit r) (en_uuid r) (en_pause r)
    (en_events r) (en_take r) (en_held r) (en_notified r) (en_child r) (en_schema r) (en_follow r) (en_turn r)
    (en_fires r).
Inductive Effect :=
| Saved (key : string) (r : JRecord)
| Spent (key : string)
| Sent (d : Dispatched)
| Emitted (envelope : value) (d : Dispatched)
| Told (e : events_op)
| Took (key : string)
| Started (c : ChildStart).
Definition effects (o : drive_op) : list Effect :=
  match o with
  | OSave key r => [Saved key r]
  | OSpend key _ => [Spent key]
  | ODispatch d => [Sent d]
  | OEmit e d => [Emitted e d]
  | OEvents e => [Told e]
  | OTake key _ => [Took key]
  | OChild c => [Started c]
  | _ => []
  end.

(** An operation's answer, the fields after it and its effect. A program that runs
    alone has its context and its branches handled first ([Branches.in_context],
    [Branches.pool]). *)
Fixpoint answer (env : Env) (o : drive_op) (s : Shared) : drive_answer o * Shared * list Effect :=
  match o return drive_answer o * Shared * list Effect with
  | OAccess f => (s, f s, [])
  | OContext f => (f VNull, s, [])
  | OSave key r => (en_save env key r, s, effects (OSave key r))
  | OSpend key limit => (en_spend env key limit, s, effects (OSpend key limit))
  | ONow => (en_now env, s, [])
  | OCancelled => (en_cancelled env, s, [])
  | ODispatch d => (en_answer env d, s, effects (ODispatch d))
  | OEmit e d => (en_emit env e d, s, effects (OEmit e d))
  | OUuid => (en_uuid env, s, [])
  | OPause n => (en_pause env n, s, [])
  | OEvents e => (en_events env e, s, effects (OEvents e))
  | OTake key types => (en_take env key types, s, effects (OTake key types))
  | OHeld n => (en_held env n, s, [])
  | ONotified n => (en_notified env n, s, [])
  | OChild c => (en_child env c, s, effects (OChild c))
  | OSchema uri => (en_schema env uri, s, [])
  | OFollow => (en_follow env, s, [])
  | OTurn => (en_turn env, s, [])
  | OYield _ _ => (tt, s, [])
  | ORace ms o =>
      if en_fires env ms o then (None, s, [])
      else let '(x, s, l) := answer env o s in (Some x, s, l)
  end.

(** How a program ended without a result. *)
Inductive stop := Stopped (f : Fault) | Halted (h : halt).
Fixpoint alone {A} (env : Env) (p : drive A) (s : Shared) : result stop A * Shared * list Effect :=
  match p with
  | DRet a => (Ok a, s, [])
  | DFault f => (Err (Stopped f), s, [])
  | DHalt h => (Err (Halted h), s, [])
  | DOp o k =>
      let '(x, s, l) := answer env o s in
      let '(r, s, l') := alone env (k x) s in
      (r, s, l ++ l')
  end.

Lemma alone_bind {A B} env (p : drive A) (f : A → drive B) s :
  alone env (p ≫= f) s =
  match alone env p s with
  | (Ok a, s, l) => let '(r, s, l') := alone env (f a) s in (r, s, l ++ l')
  | (Err e, s, l) => (Err e, s, l)
  end.
Proof.
  revert s. induction p as [a|e|h|o k IH]; intros s; [|done|done|].
  - cbn. by destruct (alone env (f a) s) as [[]].
  - change (DOp o k ≫= f) with (DOp o (λ x, k x ≫= f)). cbn.
    destruct (answer env o s) as [[x s1] l]. rewrite IH.
    destruct (alone env (k x) s1) as [[[a|e] s2] l2]; [|done].
    destruct (alone env (f a) s2) as [[]]. by rewrite app_assoc.
Qed.
Lemma alone_ret {A} env (a : A) s : alone env (mret a) s = (Ok a, s, []).
Proof. done. Qed.
Lemma alone_fault {A} env f s : alone env (DFault f : drive A) s = (Err (Stopped f), s, []).
Proof. done. Qed.
Lemma alone_access env f s : alone env (access f) s = (Ok s, f s, []).
Proof. done. Qed.
Lemma alone_shared env s : alone env shared s = (Ok s, s, []).
Proof. done. Qed.
Lemma alone_record_at env key s : alone env (record_at key) s = (Ok (sh_records s !! key), s, []).
Proof. done. Qed.
Lemma alone_op env o s :
  alone env (perform o) s = let '(x, s, l) := answer env o s in (Ok x, s, l).
Proof. unfold perform. cbn. destruct (answer env o s) as [[]]. by rewrite app_nil_r. Qed.
Lemma alone_saving env key r s :
  @alone (result string unit) env (perform (OSave key r)) s = (Ok (en_save env key r), s, [Saved key r]).
Proof. apply (alone_op env (OSave key r)). Qed.
Lemma alone_spending env key limit s :
  @alone (result string (option JRecord)) env (perform (OSpend key limit)) s =
  (Ok (en_spend env key limit), s, [Spent key]).
Proof. apply (alone_op env (OSpend key limit)). Qed.
Lemma alone_now env s : @alone Z env (perform ONow) s = (Ok (en_now env), s, []).
Proof. apply (alone_op env ONow). Qed.
Lemma alone_cancelled env s : @alone bool env (perform OCancelled) s = (Ok (en_cancelled env), s, []).
Proof. apply (alone_op env OCancelled). Qed.
Lemma alone_dispatch env d s :
  @alone (option (result CallFailure value * Annotations)) env (perform (ODispatch d)) s =
  (Ok (en_answer env d), s, [Sent d]).
Proof. apply (alone_op env (ODispatch d)). Qed.
Lemma alone_or_fault {A} env (r : result Fault A) s : alone env (or_fault r) s = (match r with Ok a => Ok a | Err f => Err (Stopped f) end, s, []).
Proof. by destruct r. Qed.

(** The fields with a record noted in the call journal. *)
Definition noted (key : string) (r : JRecord) (s : Shared) : Shared :=
  match entry_of key r with
  | Some e => s <| sh_calls ::= <[key := e]> |>
  | None => s
  end.
Lemma alone_note env key r s : alone env (note key r) s = (Ok (), noted key r s, []).
Proof. unfold note, noted. by destruct (entry_of key r). Qed.
Definition kept (key : string) (r : JRecord) (s : Shared) : Shared :=
  (noted key r s) <| sh_records ::= <[key := r]> |>.
Definition allowed (old : option JRecord) (r : JRecord) : result string unit :=
  match old with Some old => check_transition old r | None => Ok () end.

(** A durable save: refused by the journal's rules, or by its writer, or kept. *)
Lemma alone_save env secrets key r s :
  alone env (save true secrets key r) s =
  match allowed (sh_records s !! key) r with
  | Err e => (Err (Stopped (FtInterrupted (Error.runtime e))), s, [])
  | Ok _ =>
      match en_save env key (redact_record secrets r) with
      | Ok _ => (Ok (), kept key r s, [Saved key (redact_record secrets r)])
      | Err e => (Err (Stopped (FtInterrupted (Error.runtime ("checkpoint " +:+ key +:+ ": " +:+ text secrets e)))), s,
                  [Saved key (redact_record secrets r)])
      end
  end.
Proof.
  unfold save. rewrite alone_bind, alone_ret. cbv iota.
  rewrite alone_bind, alone_record_at. cbv iota. rewrite alone_bind.
  assert (Hcheck : alone env (match sh_records s !! key with
      | Some old => match check_transition old r with
                    | Ok _ => mret ()
                    | Err e => DFault (FtInterrupted (Error.runtime e))
                    end
      | None => mret ()
      end) s = match allowed (sh_records s !! key) r with
               | Ok _ => (Ok (), s, []) | Err e => (Err (Stopped (FtInterrupted (Error.runtime e))), s, []) end).
  { destruct (sh_records s !! key) as [old|]; [cbn; by destruct (check_transition old r)|done]. }
  rewrite Hcheck. destruct (allowed _ r) as [[]|e]; [|done].
  rewrite alone_bind, alone_saving. destruct (en_save env key _) as [[]|e]; [|done].
  by rewrite alone_bind, alone_ret, alone_bind, alone_note, alone_bind, alone_access, alone_ret.
Qed.
Create Rewrite HintDb alone.
#[export] Hint Rewrite @alone_bind @alone_ret @alone_fault @alone_access @alone_shared @alone_record_at
  alone_saving alone_spending alone_now alone_cancelled alone_dispatch @alone_or_fault alone_note alone_save : alone.

(** ** A branch that runs alone

    [alone] with the workflow context of the branch: what a program makes of a
    context and of the shared fields, and how that is computed from its parts. *)

(** A program's result with its faults, the context and the fields it leaves, and its
    effects. *)
Abbreviation solo_result A := (result halt (result Fault A) * value * Shared * list Effect)%type.
Fixpoint solo {A} (env : Env) (p : drive A) (c : value) (s : Shared) : solo_result A :=
  match p with
  | DRet a => (Ok (Ok a), c, s, [])
  | DFault f => (Ok (Err f), c, s, [])
  | DHalt h => (Err h, c, s, [])
  | DOp o k =>
      match o return (drive_answer o → value → Shared → solo_result A) → solo_result A with
      | OContext f => λ go, go c (f c) s
      | o => λ go,
          let '(x, s, l) := answer env o s in
          let '(r, c, s, l') := go x c s in
          (r, c, s, l ++ l')
      end (λ x c s, solo env (k x) c s)
  end.

(** It is the program in its context, alone. *)
Lemma solo_alone {A} env (p : drive A) c s :
  alone env (in_context c p) s =
  match solo env p c s with
  | (Ok r, c, s, l) => (Ok (r, c), s, l)
  | (Err h, c, s, l) => (Err (Halted h), s, l)
  end.
Proof.
  revert c s. induction p as [a|f|h|o k IH]; intros c s; [done..|].
  destruct o; try (cbn; rewrite IH; by destruct (solo env (k _) c _) as [[[[]]]]).
  - cbn. apply IH.
  - cbn -[answer]. destruct (answer env (ORace left o) s) as [[x s1] l]. rewrite IH.
    by destruct (solo env (k _) c s1) as [[[[]]]].
Qed.
Lemma solo_op {A} env o (k : drive_answer o → drive A) c s :
  (match o with OContext _ => False | _ => True end) →
  solo env (DOp o k) c s =
  let '(x, s, l) := answer env o s in
  let '(r, c, s, l') := solo env (k x) c s in (r, c, s, l ++ l').
Proof. by destruct o. Qed.
Lemma solo_bind {A B} env (p : drive A) (f : A → drive B) c s :
  solo env (p ≫= f) c s =
  match solo env p c s with
  | (Ok (Ok a), c, s, l) => let '(r, c, s, l') := solo env (f a) c s in (r, c, s, l ++ l')
  | (Ok (Err e), c, s, l) => (Ok (Err e), c, s, l)
  | (Err h, c, s, l) => (Err h, c, s, l)
  end.
Proof.
  revert c s. induction p as [a|e|h|o k IH]; intros c s; [|done|done|].
  - cbn. by destruct (solo env (f a) c s) as [[[]]].
  - change (DOp o k ≫= f) with (DOp o (λ x, k x ≫= f)).
    assert (Hcase : (∃ g, o = OContext g) ∨ match o with OContext _ => False | _ => True end)
      by (destruct o; eauto).
    destruct Hcase as [[g ->]|Ho]; [apply IH|].
    rewrite !solo_op by done. destruct (answer env o s) as [[x s1] l]. rewrite IH.
    destruct (solo env (k x) c s1) as [[[[[a|e]|h] c2] s2] l2]; [|done..].
    destruct (solo env (f a) c2 s2) as [[[]]]. by rewrite app_assoc.
Qed.
Lemma solo_reify {A} env (p : drive A) c s :
  solo env (reify p) c s =
  match solo env p c s with
  | (Ok r, c, s, l) => (Ok (Ok r), c, s, l)
  | (Err h, c, s, l) => (Err h, c, s, l)
  end.
Proof.
  revert c s. induction p as [a|e|h|o k IH]; intros c s; [done..|].
  assert (Hcase : (∃ g, o = OContext g) ∨ match o with OContext _ => False | _ => True end)
    by (destruct o; eauto).
  destruct Hcase as [[g ->]|Ho]; [apply IH|]. cbn [reify].
  rewrite !solo_op by done. destruct (answer env o s) as [[x s1] l]. rewrite IH.
  by destruct (solo env (k x) c s1) as [[[[]]]].
Qed.

(** ** Programs that leave the context *)

Fixpoint context_free {A} (p : drive A) : Prop :=
  match p with
  | DOp o k => match o with OContext _ => False | _ => True end ∧ ∀ x, context_free (k x)
  | _ => True
  end.
Lemma context_free_bind {A B} (p : drive A) (f : A → drive B) :
  context_free p → (∀ a, context_free (f a)) → context_free (p ≫= f).
Proof. intros Hp Hf. induction p as [| | |o k IH]; [apply Hf|done|done|]. destruct Hp as [Ho Hk]. split; auto. Qed.
Lemma context_free_perform o :
  (match o with OContext _ => False | _ => True end) → context_free (perform o).
Proof. done. Qed.
Lemma context_free_or_fault {A} (r : result Fault A) : context_free (or_fault r).
Proof. by destruct r. Qed.
Lemma context_free_save durable secrets key r : context_free (save durable secrets key r).
Proof.
  assert (Hnote : context_free (note key r)).
  { unfold note. by destruct (entry_of key r). }
  apply context_free_bind; [by destruct durable|]. intros _. destruct durable; [|done].
  apply context_free_bind; [done|]. intros old. apply context_free_bind.
  { destruct old as [old|]; [by destruct (check_transition old r)|done]. }
  intros _. apply context_free_bind; [done|]. intros saved. apply context_free_bind; [by destruct saved|].
  intros _. by apply context_free_bind.
Qed.
Lemma solo_context_free {A} env (p : drive A) c s :
  context_free p →
  solo env p c s =
  match alone env p s with
  | (Ok a, s, l) => (Ok (Ok a), c, s, l)
  | (Err (Stopped f), s, l) => (Ok (Err f), c, s, l)
  | (Err (Halted h), s, l) => (Err h, c, s, l)
  end.
Proof.
  revert s. induction p as [a|e|h|o k IH]; intros s Hp; [done..|]. destruct Hp as [Ho Hk].
  rewrite solo_op by done. cbn [alone]. destruct (answer env o s) as [[x s1] l]. rewrite IH by done.
  by destruct (alone env (k x) s1) as [[[|[]]]].
Qed.

(** ** The operations a branch uses *)

Lemma solo_ret {A} env (a : A) c s : solo env (mret a) c s = (Ok (Ok a), c, s, []).
Proof. done. Qed.
Lemma solo_fault {A} env f c s : solo env (DFault f : drive A) c s = (Ok (Err f), c, s, []).
Proof. done. Qed.
Lemma solo_or_fault {A} env (r : result Fault A) c s : solo env (or_fault r) c s = (Ok r, c, s, []).
Proof. by destruct r. Qed.
Lemma solo_access env f c s : solo env (access f) c s = (Ok (Ok s), c, f s, []).
Proof. done. Qed.
Lemma solo_record_at env key c s : solo env (record_at key) c s = (Ok (Ok (sh_records s !! key)), c, s, []).
Proof. done. Qed.
Lemma solo_get env c s : @solo value env (perform (OContext id)) c s = (Ok (Ok c), c, s, []).
Proof. done. Qed.
Lemma solo_cancelled env c s : @solo bool env (perform OCancelled) c s = (Ok (Ok (en_cancelled env)), c, s, []).
Proof. done. Qed.
Lemma solo_now env c s : @solo Z env (perform ONow) c s = (Ok (Ok (en_now env)), c, s, []).
Proof. done. Qed.
(** A durable save, in a branch. *)
Lemma solo_save env secrets key r c s :
  solo env (save true secrets key r) c s =
  match allowed (sh_records s !! key) r with
  | Err e => (Ok (Err (FtInterrupted (Error.runtime e))), c, s, [])
  | Ok _ =>
      match en_save env key (redact_record secrets r) with
      | Ok _ => (Ok (Ok ()), c, kept key r s, [Saved key (redact_record secrets r)])
      | Err e => (Ok (Err (FtInterrupted (Error.runtime ("checkpoint " +:+ key +:+ ": " +:+ text secrets e)))), c, s,
                  [Saved key (redact_record secrets r)])
      end
  end.
Proof.
  rewrite solo_context_free by apply context_free_save. rewrite alone_save.
  destruct (allowed _ r); [|done]. by destruct (en_save env key _).
Qed.
