(* ===== verification/DriveSamples.v ===== *)
(** * Concrete drives

    Hosts, environments and documents on which the theorems about a drive are applied. *)
From S2P Require Import Prelude Json Outcome Journal Expr Listen Secrets.
From S2P Require Import Drive Calls Branches Model Tasks Waits Compose Interp Execute Alone Samples.

Definition empty_shared : Shared := mkShared ∅ [] 0 0 0 [] false None None ∅ ∅.
(** A host that has every function, and a journal that takes every save. *)
Definition demo_functions : Functions := {|
  fn_events := true; fn_children := true; fn_resources := true;
  fn_has _ := true; fn_process _ := true; fn_at_most_once _ _ := false;
  fn_unknown_outcome _ _ := None; fn_cooperative _ := false
|}.
Definition demo_env : Env :=
  mkEnv (λ _ _, Ok ()) (λ _ _, Ok None) 1000 false (λ _, Some (Ok (vint 7), ∅)) (λ _ _, Some (Ok ()))
    "7f0c" (λ _, true) (λ _, Ok ()) (λ _ _, Ok None) (λ _, true) (λ _, false)
    (λ _, Err (FInterrupted (Error.runtime "none"))) (λ _, Err "none") FtCancelled true (λ _ _, false).
Definition no_secrets : Redaction := mkRedaction [] [].
(** A call made at the start, and what it leaves. *)
Definition demo_call : drive value :=
  let _ := demo_functions in external_call true no_secrets (TFunction "charge") VNull "/do/0" AtMostOnce.
Definition demo_run := alone demo_env demo_call empty_shared.
(** A jq of three programs. *)
Definition lookup_var (name : string) (vars : list (string * value)) : value := default VNull (assoc name vars).
Definition jumps_host : Host := {|
  rfc3339 ms := Some (pretty ms);
  to_vec_len v := Some 2;
  value_to_string v := "value";
  jaq program vars input :=
    if decide (program = "[$run.jumps]") then JOutput (VArr [vindex "jumps" (lookup_var "$run" vars)])
    else if decide (program = "$item") then JOutput (lookup_var "$item" vars)
    else JOutput input;
  yaml_value text := None;
  sha256 text := [];
  shown v := "value"
|}.
Definition demo_formats : Formats := {|
  schema_errors _ _ := Ok [];
  wait_value _ := Ok VNull;
  value_wait _ := Err "none";
  error_value _ := None
|}.
Definition plain (k : Kind) (then_ : option Flow) : Task :=
  mkTask AtLeastOnce 0 None None None None None then_ k VNull.
(** A loop over [items] whose pass jumps and then calls [f] with the item. *)
Definition loop_start (items : Items) : Start :=
  mkStart
    (mkWorkflow "n" "w" "1.0.0" None None (mkUses [] [] [] [])
      [("each", plain (KFor "item" "i" items None None
         [("a", plain (KSet VNull) (Some (Goto "b")));
          ("b", plain (KCall "f" (Some (VObj {["x" := VStr "${ $item }"]}))) None)]) None)]
      None (mkBudget None XRaise) VNull)
    "r" VNull (Some 1000) (mkLimits 100 10 10 None None None) VNull true.
(** The setup of that run, and a drive of it from nothing. *)
Definition demo_setup : Setup :=
  let st := loop_start (ItInline [vint 0]) in
  mkSetup (st_wf st) "r" true no_secrets (st_limits st) 10 VNull VNull None.
Definition demo_task : Task := plain (KCall "charge" None) None.
Definition run_task_alone (env : Env) (c : value) (s : Shared) :=
  solo env (task (H := jumps_host) (H0 := demo_functions) (H1 := demo_formats) demo_setup 5
              demo_task "charge" "/do/0/charge" VNull []) c s.
Definition demo_execution (fuel : nat) (records : gmap string JRecord) (s : Shared) :=
  alone demo_env (run_execution (H := jumps_host) (H0 := demo_functions) (H1 := demo_formats) fuel demo_setup
                    records 1000 VNull VNull) s.

(** ** Recovery of an interrupted drive *)

(** The shared fields when a drive is cut after [n] operations. *)
Fixpoint upto {A} (env : Env) (n : nat) (p : drive A) (s : Shared) : Shared :=
  match n, p with
  | S n, DOp o k => let '(x, s, _) := answer env o s in upto env n (k x) s
  | _, _ => s
  end.

Section resume.
Context `{Host, Functions, Formats} (fuel : nat) (env : Env) (st : Start).

Definition drive_on (records : gmap string JRecord) : result RunOutcome (drive RunOutcome * Shared) :=
  execute fuel st (en_now env) None (Ok records).
(** The status of a drive on saved records. *)
Definition status_on (records : gmap string JRecord) : option Status :=
  match drive_on records with
  | Ok (p, s) => match (alone env p s).1.1 with Ok o => Some (oc_status o) | Err _ => None end
  | Err o => Some (oc_status o)
  end.
(** What a drive cut after [n] operations leaves in the journal. *)
Definition left_by (n : nat) : gmap string JRecord :=
  match drive_on ∅ with Ok (p, s) => sh_records (upto env n p s) | Err _ => ∅ end.
End resume.

Definition loop_status (items : Items) (records : gmap string JRecord) : option Status :=
  status_on (H := jumps_host) (H0 := demo_functions) (H1 := demo_formats) 20 demo_env (loop_start items) records.
Definition loop_left (items : Items) (n : nat) : gmap string JRecord :=
  left_by (H := jumps_host) (H0 := demo_functions) (H1 := demo_formats) 20 demo_env (loop_start items) n.

Example recovers_anywhere :
  forallb (λ n, bool_decide (loop_status (ItInline [vint 0]) (loop_left (ItInline [vint 0]) n) = Some (Completed (vint 7))))
    (seq 0 100) = true.
Proof. vm_compute. reflexivity. Qed.

(** [$run.jumps] is not restored on recovery: the count a drive starts with is that
    of every jump ever granted, also for the expressions of a parent that evaluated
    them before. A run of a [for] over [[$run.jumps]] completes when nothing
    interrupts it; cut while its (at-least-once) call is pending, it faults on
    recovery because the call's arguments have changed. *)
Theorem resumed_run_can_fault :
  loop_status (ItExpr "[$run.jumps]") ∅ = Some (Completed (vint 7)) ∧
  ∃ n e, loop_status (ItExpr "[$run.jumps]") (loop_left (ItExpr "[$run.jumps]") n) = Some (Faulted e) ∧
    err_detail e = Some "/do/0/each[0]/do/1/b: call bindings changed".
Proof.
  split; [vm_compute; reflexivity|]. exists 60%nat. eexists. split; vm_compute; reflexivity.
Qed.
