(* ===== verification/CallsSpec.v ===== *)
(** * At-most-once calls

    A system of drives of one run, each by its own worker: the newest may save in the
    run's journal, an earlier one that has not noticed cannot any more but still
    runs. Within a drive branches make calls concurrently, another branch's effect
    may come between any two operations of a call, a call or a whole drive may be
    dropped, a save may fail before or after its commit. Whatever happens, a call
    declared at most once is dispatched at most once, by one of the drives. *)
From stdpp Require Import relations.
From S2P Require Import Prelude Json Outcome Journal Secrets Drive Calls Alone Samples DriveSamples.

Section system.
Context `{Host, Functions} (secrets : Redaction).

(** A drive: the fields its branches share, and the calls being made by their
    record's key (no two branches of a drive share a reference). *)
Record driving := mkDriving { dv_shared : Shared; dv_active : gmap string (drive value) }.
(** What the journal holds, which drive may save in it, the drives that still run, and
    what they dispatched. *)
Record world := mkWorld {
  w_disk : gmap string JRecord;
  w_current : nat;
  w_drives : gmap nat driving;
  w_log : list Dispatched
}.
Definition call_key (reference : string) : string := reference +:+ "#call".
(** What a drive starts with: the calls' records that the journal holds. *)
Definition loads (disk : gmap string JRecord) (s : Shared) : Prop :=
  ∀ reference, is_Some (disk !! call_key reference) → is_Some (sh_records s !! call_key reference).
(** What the other branches of a drive do to its records: none is removed, and none of
    an active call is touched. *)
Definition others (active : gmap string (drive value)) (m m' : gmap string JRecord) : Prop :=
  ∀ k, m' !! k = m !! k ∨ (active !! k = None ∧ is_Some (m' !! k)).

(** The operations that touch neither the records nor the log of calls; a call
    itself runs under no timer of its own. *)
Definition quiet (o : drive_op) : Prop :=
  match o with OAccess _ | OSave _ _ | ODispatch _ | ORace _ _ => False | _ => True end.

(** A drive's own move: the journal, its fields and calls, the log; [held] says whether
    it may save. *)
Inductive act (held : bool) : gmap string JRecord → driving → list Dispatched →
    gmap string JRecord → driving → list Dispatched → Prop :=
| ac_start disk s active log t args reference declared :
    active !! call_key reference = None →
    act held disk (mkDriving s active) log
      disk (mkDriving s (<[call_key reference := external_call true secrets t args reference declared]> active)) log
| ac_access disk s active log key f k :
    active !! key = Some (DOp (OAccess f) k) →
    act held disk (mkDriving s active) log disk (mkDriving (f s) (<[key := k s]> active)) log
| ac_saved disk s active log key j r k :
    held = true → active !! key = Some (DOp (OSave j r) k) →
    act held disk (mkDriving s active) log
      (<[j := r]> disk) (mkDriving s (<[key := k (Ok ())]> active)) log
| ac_unsaved disk s active log key j r k e (committed : bool) :
    active !! key = Some (DOp (OSave j r) k) →
    act held disk (mkDriving s active) log
      (if held && committed then <[j := r]> disk else disk) (mkDriving s (<[key := k (Err e)]> active)) log
| ac_answer disk s active log key o k x :
    quiet o → active !! key = Some (DOp o k) →
    act held disk (mkDriving s active) log disk (mkDriving s (<[key := k x]> active)) log
| ac_dispatch disk s active log key d k x :
    active !! key = Some (DOp (ODispatch d) k) →
    act held disk (mkDriving s active) log disk (mkDriving s (<[key := k x]> active)) (d :: log)
| ac_gone disk s active log key :
    act held disk (mkDriving s active) log disk (mkDriving s (delete key active)) log
| ac_others disk s s' active log :
    others active (sh_records s) (sh_records s') →
    act held disk (mkDriving s active) log disk (mkDriving s' active) log.
(** A move of the system: a drive's, a drive's end, a save by anything else (no record
    is removed), and a new drive, which takes the journal over. *)
Inductive move : world → world → Prop :=
| mv_act disk current drives log g d disk' d' log' :
    drives !! g = Some d → act (bool_decide (g = current)) disk d log disk' d' log' →
    move (mkWorld disk current drives log) (mkWorld disk' current (<[g := d']> drives) log')
| mv_end disk current drives log g :
    move (mkWorld disk current drives log) (mkWorld disk current (delete g drives) log)
| mv_disk disk disk' current drives log :
    (∀ k, is_Some (disk !! k) → is_Some (disk' !! k)) → move (mkWorld disk current drives log) (mkWorld disk' current drives log)
| mv_claim disk current current' drives log s :
    (current ≤ current')%nat → drives !! current' = None → loads disk s →
    move (mkWorld disk current drives log)
      (mkWorld disk current' (<[current' := mkDriving s ∅]> drives) log).

Definition first_world : world := mkWorld ∅ 0 ∅ [].
Definition executed (w : world) : Prop := rtc move first_world w.
(** The at-most-once dispatches of a call. *)
Definition dispatches (key : string) (log : list Dispatched) : nat :=
  length (filter (λ d, dp_delivery d = AtMostOnce ∧ call_key (dp_reference d) = key) log).

Arguments dispatches : simpl never.

(** ** What a call knows of its own record *)

Inductive phase := Unsure | Absent | Stored | Armed.
Definition consistent (key : string) (ph : phase) (s : Shared) : Prop :=
  match ph with Absent => sh_records s !! key = None | Armed => is_Some (sh_records s !! key) | _ => True end.
Definition next (key : string) (ph : phase) (s : Shared) : phase :=
  match ph, sh_records s !! key with
  | (Stored | Armed), Some _ => Armed
  | (Stored | Armed), None => Stored
  | _, None => Absent
  | _, Some _ => Unsure
  end.
(** An access leaves the other records, and its own once it is there. *)
Definition own_access (key : string) (f : Shared → Shared) : Prop :=
  ∀ s, (∀ j, j ≠ key → sh_records (f s) !! j = sh_records s !! j) ∧
    (is_Some (sh_records s !! key) → is_Some (sh_records (f s) !! key)).
Fixpoint knows {A} (key : string) (ph : phase) (p : drive A) (Q : A → phase → Prop) : Prop :=
  match p with
  | DRet a => Q a ph
  | DFault _ | DHalt _ => True
  | DOp o k =>
      match o as o return (drive_answer o → drive A) → (∀ x : drive_answer o, phase → Prop) → Prop with
      | OAccess f => λ k IH, own_access key f ∧ ∀ s, consistent key ph s → IH s (next key ph (f s))
      | OSave j _ => λ k IH, j = key ∧ ∀ x, IH x (match ph, x with Absent, Ok _ => Stored | _, _ => ph end)
      | ODispatch d => λ k IH, call_key (dp_reference d) = key ∧
          (dp_delivery d = AtMostOnce → ph = Armed) ∧
          ∀ x, IH x (if decide (dp_delivery d = AtMostOnce) then Unsure else ph)
      | ORace _ _ => λ _ _, False
      | _ => λ k IH, ∀ x, IH x ph
      end k (λ x ph', knows key ph' (k x) Q)
  end.
Lemma knows_mono {A} key ph (p : drive A) (P Q : A → phase → Prop) :
  knows key ph p P → (∀ a ph, P a ph → Q a ph) → knows key ph p Q.
Proof.
  intros Hp HPQ. revert ph Hp. induction p as [a|f|h|o k IH]; intros ph Hp; [by apply HPQ|done|done|].
  destruct o; cbn in *; try destruct Hp as (?&?&Hp); try destruct Hp as [? Hp]; eauto.
Qed.
Lemma knows_bind {A B} key ph (p : drive A) (f : A → drive B) Q :
  knows key ph p (λ a ph, knows key ph (f a) Q) → knows key ph (p ≫= f) Q.
Proof.
  revert ph. induction p as [a|e|h|o k IH]; intros ph Hp; [done|done|done|].
  destruct o; cbn in *; try destruct Hp as (?&?&Hp); try destruct Hp as [? Hp]; eauto.
Qed.

(** What looking at the records can tell. *)
Definition learns (ph ph' : phase) : Prop :=
  match ph with
  | Unsure => ph' = Unsure ∨ ph' = Absent
  | Stored => ph' = Stored ∨ ph' = Armed
  | _ => ph' = ph
  end.
Lemma next_learns key ph s : consistent key ph s → learns ph (next key ph s).
Proof.
  unfold consistent, next, learns.
  destruct ph, (sh_records s !! key); intros Hc; auto; [done|by destruct Hc].
Qed.
Lemma own_access_same key (f : Shared → Shared) :
  (∀ s, sh_records (f s) = sh_records s) → own_access key f.
Proof. intros Hf s. rewrite Hf. auto. Qed.
(** An access that leaves the records loses nothing the call knew. *)
Lemma knows_access key ph f (Q : Shared → phase → Prop) :
  (∀ s, sh_records (f s) = sh_records s) →
  (∀ s ph', learns ph ph' → Q s ph') →
  knows key ph (access f) Q.
Proof.
  intros Hf HQ. split; [by apply own_access_same|]. cbn. intros s Hc.
  apply HQ. unfold next. rewrite Hf. by apply next_learns.
Qed.
Lemma knows_record_at key ph (Q : option JRecord → phase → Prop) :
  (∀ r ph', learns ph ph' → (ph = Absent → r = None) → (r = None → ph = Unsure → ph' = Absent) → Q r ph') →
  knows key ph (record_at key) Q.
Proof.
  intros HQ. apply knows_bind. split; [by apply own_access_same|]. cbn. intros s Hc.
  apply HQ; [by apply next_learns|by intros ->|].
  intros Hr ->. unfold next. cbn in *. by rewrite Hr.
Qed.
Lemma knows_note key ph j r (Q : unit → phase → Prop) :
  Q () ph → (∀ ph', learns ph ph' → Q () ph') →
  knows key ph (note j r) Q.
Proof.
  intros Hph HQ. unfold note. destruct (entry_of j r) as [e|]; [|done].
  apply knows_bind, knows_access; [done|]. intros s ph'. apply HQ.
Qed.
(** A save made while no record was there leaves the call armed. *)
Lemma knows_save key ph r (Q : unit → phase → Prop) :
  (∀ ph', (ph = Absent → ph' = Armed) → Q () ph') →
  knows key ph (save true secrets key r) Q.
Proof.
  intros HQ. unfold save. apply knows_bind.
  apply (knows_bind key ph (record_at key)), knows_record_at.
  intros old ph1 H1 Hold _. apply knows_bind.
  assert (Hstore : ∀ ph2, (ph = Absent → ph2 = Stored ∨ ph2 = Armed) →
    knows key ph2 (_ ← access (λ s, s <| sh_records ::= <[key := r]> |>); mret ()) Q).
  { intros ph2 H2. split.
    - intros s. cbn. split; [intros j Hj; by rewrite lookup_insert_ne|].
      intros _. rewrite lookup_insert_eq. eauto.
    - cbn. intros s _. apply HQ. intros Hph. unfold next. cbn. rewrite lookup_insert_eq.
      by destruct (H2 Hph) as [-> | ->]. }
  assert (Hmid : knows key ph1 (perform (OSave key (redact_record secrets r))) (λ saved ph',
    knows key ph' (_ ← match saved with
        | Ok _ => mret ()
        | Err e => DFault (FtInterrupted (Error.runtime ("checkpoint " +:+ key +:+ ": " +:+ text secrets e)))
        end;
      _ ← note key r; _ ← access (λ s, s <| sh_records ::= <[key := r]> |>); mret ()) Q)).
  { split; [done|]. intros [[]|e]; [|exact I].
    apply (knows_bind key _ (note key r)), knows_note; [|intros ph2 H2]; apply Hstore; intros ->;
      cbn in *; subst ph1; auto. }
  destruct old as [old|]; [|exact Hmid].
  destruct (check_transition old r); [exact Hmid|exact I].
Qed.
Lemma knows_unknown_call key logical_ name args reference ph Q :
  (∀ v ph', Q v ph') →
  knows key ph (unknown_call true secrets key logical_ name args reference) Q.
Proof.
  intros HQ. unfold unknown_call. destruct (fn_unknown_outcome name args) as [marker|]; [|done].
  apply knows_bind, knows_record_at. intros held ph' _ _ _.
  destruct held as [[]|]; try done. apply knows_bind, knows_save. intros. apply HQ.
Qed.
Lemma knows_answered_call key logical_ name args delivery_ reference r a ph Q :
  (∀ v ph', Q v ph') →
  knows key ph (answered_call true secrets key logical_ name args delivery_ reference r a) Q.
Proof.
  intros HQ. unfold answered_call. destruct r as [v|[e|e|e|e]].
  1-3: apply knows_bind, knows_save; intros; cbn; auto.
  - destruct (decide _); [by apply knows_unknown_call|done].
  - cbn. intros [|]; [done|]. destruct (decide _); [by apply knows_unknown_call|done].
Qed.
Lemma knows_restore_call prior key logical_ name args delivery_ reference ph (Q : option value → phase → Prop) :
  (∀ v ph', Q (Some v) ph') →
  (prior = None ∨ delivery_ ≠ AtMostOnce → Q None ph) →
  knows key ph (restore_call true secrets prior key logical_ name args delivery_ reference) Q.
Proof.
  intros Hsome Hnone. unfold restore_call. destruct prior as [r|]; [|by apply Hnone; left].
  destruct r as [| |c| | | | | | | |]; try exact I.
  destruct (decide _); [done|]. destruct (call_state c) as [|e|[v|e]]; try done; [|by apply Hsome].
  destruct (decide _) as [->|]; [|by apply Hnone; right].
  apply knows_bind, knows_unknown_call. intros. apply Hsome.
Qed.
Lemma knows_make_call t reference logical_ args delivery_ ph :
  (delivery_ = AtMostOnce → ph = Absent) →
  knows (call_key reference) ph (make_call true secrets t (call_key reference) logical_ args delivery_ reference)
    (λ _ _, True).
Proof.
  intros Hph. apply knows_bind, knows_save. intros ph1 H1.
  assert (∃ f, (∀ s, sh_records (f s) = sh_records s) ∧
    (if decide (delivery_ = AtMostOnce) then access (λ s, s <| sh_protected ::= Z.add 1 |>) else shared) =
    access f) as (f&Hf&E).
  { destruct (decide _); [exists (λ s, s <| sh_protected ::= Z.add 1 |>)|exists id]; done. }
  rewrite E. apply knows_bind, knows_access; [done|]. intros s ph2 H2.
  apply knows_bind, knows_access; [done|]. intros s' ph3 H3.
  apply knows_bind. split_and!; [done| |].
  - cbn. intros Hd. rewrite H1 in H2 by auto. cbn in H2. by subst ph2.
  - intros [[r a]|]; [|exact I].
    change (knows (call_key reference) (if decide (delivery_ = AtMostOnce) then Unsure else ph3)
      (let '(r, a) := annotated (target_name t) r a in
       answered_call true secrets (call_key reference) logical_ (target_name t) args delivery_ reference r a)
      (λ _ _, True)).
    destruct (annotated _ r a). by apply knows_answered_call.
Qed.
(** A call dispatches at most once, and only with its intent in the journal. *)
Lemma knows_external_call t args reference declared :
  knows (call_key reference) Unsure (external_call true secrets t args reference declared) (λ _ _, True).
Proof.
  unfold external_call. apply knows_bind, knows_access; [done|]. intros s ph1 H1.
  apply knows_bind, knows_record_at. intros prior ph2 H2 Hprior1 Hprior2.
  apply knows_bind, knows_restore_call; [done|]. intros Hph.
  destruct (known_target t); [|exact I].
  apply knows_bind, knows_access; [done|]. intros s' ph3 H3.
  destruct (decide _); [destruct (earlier_attempt _ _ _ _ _ _) as [[]|]|]; try done;
    apply knows_make_call; intros E; destruct Hph as [->|]; try done.
  all: destruct H1 as [-> | ->]; [rewrite Hprior2 in H3 by done|cbn in H2; subst ph2]; done.
Qed.

(** ** The invariant of the system *)

(** What a phase means in a world, for the drive that made the call: [writers] names
    the last drive that saved a call's intent. *)
Definition fits (writers : gmap string nat) (w : world) (g : nat) (s : Shared) (key : string) (ph : phase) : Prop :=
  match ph with
  | Unsure => True
  | Absent => sh_records s !! key = None
  | Stored => dispatches key (w_log w) = 0%nat ∧ writers !! key = Some g
  | Armed => dispatches key (w_log w) = 0%nat ∧ writers !! key = Some g ∧ is_Some (sh_records s !! key)
  end.
(** What is known of a call. *)
Definition known (writers : gmap string nat) (w : world) (g : nat) (s : Shared) (key : string) (p : drive value) : Prop :=
  (∃ reference, key = call_key reference) ∧ ∃ ph, knows key ph p (λ _ _, True) ∧ fits writers w g s key ph.
Record sound (writers : gmap string nat) (w : world) : Prop := {
  (** A call's intent is in the journal, and known to every later drive. *)
  snd_writer : ∀ key g, writers !! key = Some g →
    (∃ reference, key = call_key reference) ∧ is_Some (w_disk w !! key) ∧ (g ≤ w_current w)%nat ∧
    ∀ h d, w_drives w !! h = Some d → (g < h)%nat → is_Some (sh_records (dv_shared d) !! key);
  (** A dispatched call was dispatched once, and known to its drive. *)
  snd_recorded : ∀ key, (dispatches key (w_log w) ≤ 1)%nat ∧
    (dispatches key (w_log w) = 1%nat → ∃ g, writers !! key = Some g ∧
       ∀ d, w_drives w !! g = Some d → is_Some (sh_records (dv_shared d) !! key));
  snd_active : ∀ g d key p, w_drives w !! g = Some d → dv_active d !! key = Some p →
    known writers w g (dv_shared d) key p;
  snd_current : ∀ g d, w_drives w !! g = Some d → (g ≤ w_current w)%nat
}.

Lemma fits_consistent writers w g s key ph : fits writers w g s key ph → consistent key ph s.
Proof. destruct ph; cbn; tauto. Qed.
Lemma fits_mono writers w g s s' key ph :
  fits writers w g s key ph → (is_Some (sh_records s !! key) → is_Some (sh_records s' !! key)) →
  (sh_records s !! key = None → sh_records s' !! key = None) → fits writers w g s' key ph.
Proof. destruct ph; cbn; intuition. Qed.
Lemma dispatches_miss key d log :
  dp_delivery d ≠ AtMostOnce ∨ call_key (dp_reference d) ≠ key →
  dispatches key (d :: log) = dispatches key log.
Proof. intros Hd. unfold dispatches. rewrite filter_cons_False; [done|]. tauto. Qed.
Lemma dispatches_hit key d log :
  dp_delivery d = AtMostOnce → call_key (dp_reference d) = key →
  dispatches key (d :: log) = S (dispatches key log).
Proof. intros. unfold dispatches. by rewrite filter_cons_True. Qed.

Lemma sound_first : sound ∅ first_world.
Proof.
  split; cbn; [by intros ??; rewrite lookup_empty|by intros key; split; [apply Nat.le_0_l|]|..];
    intros ? ?; [intros ? ?|]; by rewrite lookup_empty.
Qed.
(** The journal may gain records. *)
Lemma sound_disk writers disk disk' current drives log :
  sound writers (mkWorld disk current drives log) → (∀ k, is_Some (disk !! k) → is_Some (disk' !! k)) →
  sound writers (mkWorld disk' current drives log).
Proof.
  intros [Hw Hr Ha Hc] Hdom. split; [|done..]. intros key g Hg. destruct (Hw key g Hg) as (Href&Hd&Hle&Hlater).
  split_and!; auto.
Qed.
Lemma grows (disk : gmap string JRecord) j r k : is_Some (disk !! k) → is_Some (<[j := r]> disk !! k).
Proof. intros Hk. apply lookup_insert_is_Some'. auto. Qed.
(** A drive may change its fields and its calls to what still fits. *)
Lemma sound_drive writers disk current drives log g s active s' active' :
  sound writers (mkWorld disk current drives log) → drives !! g = Some (mkDriving s active) →
  (∀ k, is_Some (sh_records s !! k) → is_Some (sh_records s' !! k)) →
  (∀ k q, active' !! k = Some q → known writers (mkWorld disk current drives log) g s' k q) →
  sound writers (mkWorld disk current (<[g := mkDriving s' active']> drives) log).
Proof.
  intros [Hw Hr Ha Hc] Hg Hmem Hact. split; cbn.
  - intros key h Hh. destruct (Hw key h Hh) as (Href&Hd&Hle&Hlater). split_and!; [done..|].
    intros i d [[<- <-]|[_ Hd']]%lookup_insert_Some Hi; [|by eapply Hlater]. apply Hmem. by apply (Hlater g _ Hg).
  - intros key. destruct (Hr key) as [H1 H2]. split; [done|]. intros E. destruct (H2 E) as (h&Hh&Hk).
    exists h. split; [done|]. intros d [[<- <-]|[_ Hd']]%lookup_insert_Some; [|by apply Hk].
    apply Hmem. by apply (Hk _ Hg).
  - intros h d key p [[<- <-]|[_ Hd']]%lookup_insert_Some Hp; [by apply Hact|by apply (Ha h d)].
  - intros h d [[<- <-]|[_ Hd']]%lookup_insert_Some; [by apply (Hc g _ Hg)|by apply (Hc h d)].
Qed.
(** The drive that may save and knows of no intent becomes the writer of the one it has
    just saved. *)
Lemma sound_writer writers disk current drives log key d :
  let w := mkWorld disk current drives log in
  sound writers w → drives !! current = Some d → sh_records (dv_shared d) !! key = None → is_Some (disk !! key) →
  (∃ reference, key = call_key reference) →
  sound (<[key := current]> writers) w ∧ dispatches key log = 0%nat.
Proof.
  intros w [Hw Hr Ha Hc] Hd Hnone Hdisk Href.
  assert (Hno : ∀ h, writers !! key = Some h → (h < current)%nat → False).
  { intros h Hh Hlt. destruct (Hw key h Hh) as (_&_&_&Hlater). destruct (Hlater _ _ Hd Hlt). congruence. }
  assert (E0 : dispatches key log = 0%nat).
  { destruct (Hr key) as [H1 H2]. cbn in *. destruct (dispatches key log) as [|[|n]]; [done| |lia].
    destruct (H2 eq_refl) as (h&Hh&Hk). destruct (Hw key h Hh) as (_&_&Hle&_). cbn in Hle.
    destruct (decide (h = current)) as [->|]; [|destruct (Hno h Hh); lia]. destruct (Hk _ Hd). congruence. }
  split; [|done]. split; [|..|done].
  - intros k h [[<- <-]|[_ Hh]]%lookup_insert_Some; [|by apply Hw]. split_and!; [done..|].
    intros i d' Hd' Hi. apply Hc in Hd'. cbn in *. lia.
  - intros k. destruct (Hr k) as [H1 H2]. split; [done|]. destruct (decide (k = key)) as [->|Hne].
    + cbn. rewrite E0. done.
    + intros E. destruct (H2 E) as (h&Hh&Hk). exists h. by rewrite lookup_insert_ne.
  - intros h d' k p Hd' Hp. destruct (Ha h d' k p Hd' Hp) as (Hcall&ph&Hk&Hf). split; [done|]. exists ph. split; [done|].
    assert (Hsame : writers !! k = Some h → <[key := current]> writers !! k = Some h).
    { intros Hh. destruct (decide (k = key)) as [->|]; [|by rewrite lookup_insert_ne].
      rewrite lookup_insert_eq. f_equal. destruct (decide (h = current)) as [->|]; [done|].
      apply Hc in Hd'. cbn in Hd'. destruct (Hno h Hh). lia. }
    destruct ph; cbn in *; intuition.
Qed.
(** A dispatch whose intent is in the journal is the first. *)
Lemma sound_dispatch writers disk current drives log g s active key d q :
  let w := mkWorld disk current drives log in
  sound writers w → drives !! g = Some (mkDriving s active) →
  (∃ reference, key = call_key reference) → fits writers w g s key Armed → dp_delivery d = AtMostOnce → call_key (dp_reference d) = key →
  knows key Unsure q (λ _ _, True) →
  sound writers (mkWorld disk current (<[g := mkDriving s (<[key := q]> active)]> drives) (d :: log)).
Proof.
  intros w [Hw Hr Ha Hc] Hg Href (E0&Hwr&Hmem) Hd Hkey Hq. cbn in E0. split; cbn.
  - intros k h Hh. destruct (Hw k h Hh) as (Hr'&Hdk&Hle&Hlater). split_and!; [done..|].
    intros i d' [[<- <-]|[_ Hd']]%lookup_insert_Some Hi; [by apply (Hlater g _ Hg)|by apply (Hlater i)].
  - intros k. destruct (Hr k) as [H1 H2]. cbn in *. destruct (decide (k = key)) as [->|Hne].
    + rewrite dispatches_hit, E0 by done. split; [lia|]. intros _. exists g. split; [done|].
      intros d' [[_ <-]|[? ?]]%lookup_insert_Some; done.
    + rewrite dispatches_miss by (right; congruence). split; [done|]. intros E. destruct (H2 E) as (h&Hh&Hk).
      exists h. split; [done|]. intros d' [[<- <-]|[_ Hd']]%lookup_insert_Some; [apply (Hk _ Hg)|by apply Hk].
  - intros h d' k p [[<- <-]|[Hne Hd']]%lookup_insert_Some Hp.
    + cbn in Hp. apply lookup_insert_Some in Hp as [[<- <-]|[Hne Hp]]; [split; [done|by exists Unsure]|].
      destruct (Ha g _ k p Hg Hp) as (Hcall&ph&Hk&Hf). split; [done|]. exists ph. split; [done|].
      destruct ph; cbn in *; rewrite ?dispatches_miss by (right; congruence); done.
    + destruct (Ha h d' k p Hd' Hp) as (Hcall&ph&Hk&Hf). split; [done|]. exists ph. split; [done|].
      destruct (decide (k = key)) as [->|Hk']; [|destruct ph; cbn in *; rewrite ?dispatches_miss by (right; congruence); done].
      destruct ph; cbn in *; [done..|destruct Hf as [_ Hf]; congruence|destruct Hf as (_&Hf&_); congruence].
  - intros h d' [[<- <-]|[_ Hd']]%lookup_insert_Some; [by apply (Hc g _ Hg)|by apply (Hc h d')].
Qed.
(** A dispatch that is not at most once. *)
Lemma sound_log writers disk current drives log d :
  sound writers (mkWorld disk current drives log) → dp_delivery d ≠ AtMostOnce →
  sound writers (mkWorld disk current drives (d :: log)).
Proof.
  intros [Hw Hr Ha Hc] Hd. assert (Hm : ∀ k, dispatches k (d :: log) = dispatches k log).
  { intros k. apply dispatches_miss. auto. }
  split; [done| | |done].
  - intros k. cbn. rewrite Hm. apply Hr.
  - intros h d' k p Hd' Hp. destruct (Ha h d' k p Hd' Hp) as (Hcall&ph&Hk&Hf). split; [done|]. exists ph. split; [done|].
    destruct ph; cbn in *; rewrite ?Hm; done.
Qed.

(** The calls of a drive but one keep what they know. *)
Lemma active_others writers disk current drives log g s active key p s' :
  let w := mkWorld disk current drives log in
  sound writers w → drives !! g = Some (mkDriving s active) →
  (∀ k, k ≠ key → sh_records s' !! k = sh_records s !! k) →
  known writers w g s' key p →
  ∀ k q, <[key := p]> active !! k = Some q → known writers w g s' k q.
Proof.
  intros w Hw Hg Hsame Hp k q [[<- <-]|[Hne Hq]]%lookup_insert_Some; [done|].
  destruct (snd_active _ _ Hw g _ k q Hg Hq) as (Hcall&ph&Hk&Hf). split; [done|]. exists ph. split; [done|].
  destruct ph; cbn in *; rewrite ?Hsame by done; done.
Qed.
Lemma sound_act writers disk current drives log g d disk' d' log' :
  sound writers (mkWorld disk current drives log) → drives !! g = Some d →
  act (bool_decide (g = current)) disk d log disk' d' log' →
  ∃ writers', sound writers' (mkWorld disk' current (<[g := d']> drives) log').
Proof.
  intros Hw Hg Hact.
  assert (Hfit : ∀ s active key p, d = mkDriving s active → active !! key = Some p →
    known writers (mkWorld disk current drives log) g s key p).
  { intros s active key p -> Hp. by apply (snd_active _ _ Hw g _ key p Hg). }
  destruct Hact as [disk s active log t args reference declared Hnone|disk s active log key f k Ha
    |disk s active log key j r k Hheld Ha|disk s active log key j r k e committed Ha|disk s active log key o k x Hq Ha
    |disk s active log key d k x Ha|disk s active log key|disk s s' active log Ho].
  - exists writers. eapply sound_drive; [done..|]. eapply active_others; [done..|].
    split; [by eexists|]. exists Unsure. split; [apply knows_external_call|done].
  - exists writers. destruct (Hfit _ _ _ _ eq_refl Ha) as (Href&ph&[Hown Hp]&Hph).
    specialize (Hp s (fits_consistent _ _ _ _ _ _ Hph)). destruct (Hown s) as [Hne Hsome].
    eapply sound_drive; [done..| |].
    + intros j. destruct (decide (j = key)) as [->|]; [done|]. by rewrite Hne.
    + eapply active_others; [done..|]. split; [done|]. eexists. split; [exact Hp|]. clear Hp.
      unfold next. destruct (sh_records (f s) !! key) eqn:E; destruct ph; cbn in *; rewrite ?E; intuition.
  - apply bool_decide_eq_true in Hheld as ->. destruct (Hfit _ _ _ _ eq_refl Ha) as (Href&ph&[-> Hp]&Hph).
    specialize (Hp (Ok ())).
    assert (Hw1 : sound writers (mkWorld (<[key := r]> disk) current drives log)).
    { eapply sound_disk; [done|]. intros k'. apply grows. }
    destruct ph.
    1,3,4: exists writers; (eapply sound_drive; [done..|]); (eapply active_others; [done..|]); (split; [done|]); by eexists.
    destruct (sound_writer writers (<[key := r]> disk) current drives log key (mkDriving s active))
      as [Hw2 E0]; [done..|by rewrite lookup_insert_eq|done|].
    exists (<[key := current]> writers). eapply sound_drive; [done..|]. eapply active_others; [done..|].
    split; [done|]. exists Stored. split; [done|]. cbn. by rewrite lookup_insert_eq.
  - exists writers. destruct (Hfit _ _ _ _ eq_refl Ha) as (Href&ph&[-> Hp]&Hph). specialize (Hp (Err e)).
    assert (Hw1 : sound writers (mkWorld (if bool_decide (g = current) && committed then <[key := r]> disk else disk)
      current drives log)).
    { destruct (_ && _); [|done]. eapply sound_disk; [done|]. intros k'. apply grows. }
    eapply sound_drive; [done..|]. eapply active_others; [done..|]. split; [done|]. exists ph. by destruct ph.
  - exists writers. destruct (Hfit _ _ _ _ eq_refl Ha) as (Href&ph&Hp&Hph).
    eapply sound_drive; [done..|]. eapply active_others; [done..|]. split; [done|]. exists ph. split; [|done].
    destruct o; done || apply (Hp x).
  - exists writers. destruct (Hfit _ _ _ _ eq_refl Ha) as (Href&ph&(Hkey&Harmed&Hp)&Hph). specialize (Hp x).
    destruct (decide (dp_delivery d = AtMostOnce)) as [Hd|Hd].
    + rewrite (Harmed Hd) in *. by eapply sound_dispatch.
    + apply sound_log; [|done]. eapply sound_drive; [done..|]. eapply active_others; [done..|]. split; [done|]. by exists ph.
  - exists writers. eapply sound_drive; [done..|]. intros k q [_ Hq]%lookup_delete_Some. by apply Hfit with active.
  - exists writers.
    assert (Hkeep : ∀ k, is_Some (sh_records s !! k) → is_Some (sh_records s' !! k)).
    { intros k Hk. destruct (Ho k) as [->|[_ ?]]; done. }
    eapply sound_drive; [done..|]. intros k q Hk. destruct (Hfit _ _ _ _ eq_refl Hk) as (Href&ph&Hp&Hph).
    split; [done|]. exists ph. split; [done|]. eapply fits_mono; [done|auto|]. destruct (Ho k) as [->|[E _]]; [done|congruence].
Qed.
Lemma sound_move w w' writers : move w w' → sound writers w → ∃ writers', sound writers' w'.
Proof.
  intros Hm Hw. destruct Hm as [disk current drives log g d disk' d' log' Hg Hact|disk current drives log g
    |disk disk' current drives log Hdom|disk current current' drives log s Hlt Hfree Hload].
  - by eapply sound_act.
  - exists writers. destruct Hw as [Hw Hr Ha Hc]. split; cbn in *.
    + intros key h Hh. destruct (Hw key h Hh) as (?&?&?&Hlater). split_and!; [done..|].
      intros i d [_ Hd]%lookup_delete_Some. by apply Hlater.
    + intros key. destruct (Hr key) as [H1 H2]. split; [done|]. intros E. destruct (H2 E) as (h&Hh&Hk).
      exists h. split; [done|]. intros d [_ Hd]%lookup_delete_Some. by apply Hk.
    + intros h d key p [_ Hd]%lookup_delete_Some. by apply Ha.
    + intros h d [_ Hd]%lookup_delete_Some. by apply (Hc h d).
  - exists writers. by eapply sound_disk.
  - exists writers. destruct Hw as [Hw Hr Ha Hc]. cbn in *.
    assert (Hnew : ∀ key g, writers !! key = Some g → is_Some (sh_records s !! key)).
    { intros key g Hg. destruct (Hw key g Hg) as ([reference ->]&Hd&_). by apply Hload. }
    split; cbn.
    + intros key h Hh. destruct (Hw key h Hh) as (?&?&?&Hlater). split_and!; [done|done|lia|].
      intros i d [[_ <-]|[_ Hd]]%lookup_insert_Some Hi; [by apply (Hnew key h)|by apply (Hlater i)].
    + intros key. destruct (Hr key) as [H1 H2]. split; [done|]. intros E. destruct (H2 E) as (h&Hh&Hk).
      exists h. split; [done|]. intros d [[_ <-]|[_ Hd]]%lookup_insert_Some; [by apply (Hnew key h)|by apply Hk].
    + intros h d key p [[_ <-]|[_ Hd]]%lookup_insert_Some; [done|by apply Ha].
    + intros h d [[-> _]|[_ Hd]]%lookup_insert_Some; [lia|]. apply Hc in Hd. lia.
Qed.
Lemma sound_executed w : executed w → ∃ writers, sound writers w.
Proof.
  intros Hw. apply (rtc_ind_r (R := move) (λ w, ∃ writers, sound writers w) first_world); [|  |exact Hw].
  - exists ∅. apply sound_first.
  - intros w1 w2 _ Hm [writers Hs]. by eapply sound_move.
Qed.

(** whatever the branches of a run do, whichever workers drive it one after
    another or, unnoticed, at once, whenever drives crash, and however their saves
    fail, an at-most-once call is dispatched at most once, by one of the drives, and
    only after its intent is in the journal, where it stays. *)
Theorem at_most_once w reference :
  executed w →
  let key := call_key reference in
  (dispatches key (w_log w) ≤ 1)%nat ∧
  (dispatches key (w_log w) = 1%nat → is_Some (w_disk w !! key)).
Proof.
  intros Hw key. destruct (sound_executed w Hw) as [writers Hs].
  destruct (snd_recorded _ _ Hs key) as [H1 H2]. split; [done|]. intros E.
  destruct (H2 E) as (g&Hg&_). apply (snd_writer _ _ Hs key g Hg).
Qed.

(** One operation of a call of the drive [g], answered by an environment. *)
Definition advance (env : Env) (g : nat) (key : string) (w : world) : world :=
  match w_drives w !! g with
  | Some (mkDriving s active) =>
      match active !! key with
      | Some (DOp (ORace _ _) _) => w
      | Some (DOp o k) =>
          let '(x, s, l) := answer env o s in
          mkWorld
            (match o with
             | OSave j r => match en_save env j r with
                            | Ok _ => if bool_decide (g = w_current w) then <[j := r]> (w_disk w) else w_disk w
                            | Err _ => w_disk w end
             | _ => w_disk w
             end) (w_current w) (<[g := mkDriving s (<[key := k x]> active)]> (w_drives w))
            (match o with ODispatch d => d :: w_log w | _ => w_log w end)
      | _ => w
      end
  | None => w
  end.
Lemma advance_move env g key w : g = w_current w → w = advance env g key w ∨ move w (advance env g key w).
Proof.
  intros Hg. destruct w as [disk current drives log]. unfold advance. cbn [w_drives w_current] in *. subst g.
  destruct (drives !! current) as [[s active]|] eqn:Ed; [|auto].
  destruct (active !! key) as [[a|f|h|o k]|] eqn:E; auto.
  rewrite bool_decide_eq_true_2 by done.
  assert (Hact : ∀ disk' d' log', act true disk (mkDriving s active) log disk' d' log' →
    move (mkWorld disk current drives log) (mkWorld disk' current (<[current := d']> drives) log')).
  { intros disk' d' log' Ha. eapply mv_act; [done|]. by rewrite bool_decide_eq_true_2. }
  destruct o; auto; right; cbn; apply Hact.
  1: by apply ac_access.
  2: { destruct (en_save env key0 r) as [[]|e]; [by apply ac_saved|].
       by apply (ac_unsaved true _ _ _ _ _ _ _ _ e false). }
  5: by apply ac_dispatch.
  all: lazymatch type of E with _ = Some (DOp ?o _) => by apply (ac_answer true _ _ _ _ _ o) end.
Qed.
Lemma advance_current env g key w : w_current (advance env g key w) = w_current w.
Proof.
  unfold advance. destruct (w_drives w !! g) as [[s active]|]; [|done].
  destruct (active !! key) as [[| | |o k]|]; try done. destruct o; try done; cbn.
Qed.
Lemma advance_executed env g key n w :
  executed w → g = w_current w → executed (Nat.iter n (advance env g key) w).
Proof.
  intros Hw Hg. assert (executed (Nat.iter n (advance env g key) w) ∧ g = w_current (Nat.iter n (advance env g key) w)) as [? _].
  { induction n as [|n [IH E]]; [done|]. set (w' := Nat.iter n (advance env g key) w) in *.
    change (executed (advance env g key w') ∧ g = w_current (advance env g key w')). rewrite advance_current.
    split; [|done]. destruct (advance_move env g key w' E) as [E'|Hm]; [by rewrite <-E'|by eapply rtc_r]. }
  done.
Qed.
Definition begin (g : nat) (t : Target) (args : value) (reference : string) (declared : Delivery) (w : world) : world :=
  match w_drives w !! g with
  | Some (mkDriving s active) =>
      match active !! call_key reference with
      | None => mkWorld (w_disk w) (w_current w)
                  (<[g := mkDriving s (<[call_key reference := external_call true secrets t args reference declared]> active)]>
                     (w_drives w)) (w_log w)
      | Some _ => w
      end
  | None => w
  end.
Lemma begin_executed g t args reference declared w : executed w → executed (begin g t args reference declared w).
Proof.
  intros Hw. destruct w as [disk current drives log]. unfold begin. cbn.
  destruct (drives !! g) as [[s active]|] eqn:Ed; [|done]. destruct (active !! _) eqn:Ea; [done|].
  eapply rtc_r; [exact Hw|]. eapply mv_act; [done|]. by apply ac_start.
Qed.
(** A new drive, on the records of the journal as they are. *)
Definition claim (g : nat) (w : world) : world :=
  mkWorld (w_disk w) g (<[g := mkDriving (empty_shared <| sh_records := w_disk w |>) ∅]> (w_drives w)) (w_log w).
Lemma claim_executed g w : executed w → (w_current w ≤ g)%nat → w_drives w !! g = None → executed (claim g w).
Proof. intros Hw Hg Hfree. eapply rtc_r; [exact Hw|]. destruct w. apply mv_claim; [done..|]. by intros reference. Qed.
End system.

(** A first drive sends the call and is gone before its answer; a second makes it
    again. *)
Lemma at_most_once_witness :
  let _ := demo_functions in
  let call g := begin no_secrets g (TFunction "charge") VNull "/do/0" AtMostOnce in
  let run g n := Nat.iter n (advance demo_env g (call_key "/do/0")) in
  let w1 := run 1%nat 11%nat (call 1%nat (claim 1 first_world)) in
  let w2 := run 2%nat 30%nat (call 2%nat (claim 2 w1)) in
  dispatches (call_key "/do/0") (w_log w1) = 1%nat ∧ dispatches (call_key "/do/0") (w_log w2) = 1%nat ∧
  is_Some (w_disk w2 !! call_key "/do/0").
Proof.
  intros fns call run w1 w2. assert (executed no_secrets w2) as Hw.
  { apply advance_executed; [|by vm_compute]. apply begin_executed, claim_executed; [|vm_compute; lia|by vm_compute].
    apply advance_executed; [|by vm_compute]. apply begin_executed, claim_executed; [apply rtc_refl|vm_compute; lia|by vm_compute]. }
  assert (dispatches (call_key "/do/0") (w_log w2) = 1%nat) as E by (vm_compute; reflexivity).
  split; [vm_compute; reflexivity|]. split; [exact E|]. exact (proj2 (at_most_once no_secrets w2 "/do/0" Hw) E).
Defined.
