(* ===== verification/ReplaySpec.v ===== *)
(** * What a call answers when it is made again

    A call of a durable run whose record is there is answered from it: the
    properties of [Calls.external_call] on each state a record can be in, and the
    determinism of a replay. *)
From S2P Require Import Prelude Json Outcome Journal Secrets Drive Calls Alone Samples DriveSamples.

Section replay.
Context `{Host, Functions} (secrets : Redaction).
Variables (t : Target) (args : value) (reference : string) (declared : Delivery).
Local Abbreviation name := (target_name t).
Local Abbreviation key := (reference +:+ "#call").
Local Abbreviation call := (external_call true secrets t args reference declared).
Definition call_delivery : Delivery := if fn_at_most_once name args then AtMostOnce else declared.
Definition call_record (s : Shared) (state : CallState) (a : Annotations) : Call :=
  mkCall (logical_of (sh_attempts s) reference) name args call_delivery state a.

Lemma alone_call env s :
  alone env call s =
  match alone env (restore_call true secrets (sh_records s !! key) key (logical_of (sh_attempts s) reference)
                     name args call_delivery reference) s with
  | (Ok (Some v), s1, l) => (Ok v, s1, l)
  | (Ok None, s1, l) =>
      let '(r, s2, l') :=
        if known_target t then
          match (if decide (sh_records s !! key = None ∧ logical_of (sh_attempts s) reference ≠ reference ∧
                            call_delivery = AtMostOnce)
                 then earlier_attempt (sh_records s1) (logical_of (sh_attempts s) reference) key name args reference
                 else None) with
          | Some r => (alone env (or_fault r) s1)
          | None => alone env (make_call true secrets t key (logical_of (sh_attempts s) reference) args
                                 call_delivery reference) s1
          end
        else (Err (Stopped (FtFatal (Error.runtime ("unknown function `" +:+ name +:+ "`")))), s1, []) in
      (r, s2, l ++ l')
  | (Err e, s1, l) => (Err e, s1, l)
  end.
Proof.
  unfold external_call. rewrite alone_bind, alone_shared, alone_bind, alone_record_at.
  cbv iota. rewrite alone_bind. fold call_delivery.
  destruct (alone env (restore_call _ _ _ _ _ _ _ _ _) s) as [[[[v|]|e] s1] l]; try done.
  { cbn. by rewrite app_nil_r. }
  destruct (known_target t); [|done]. rewrite alone_bind, alone_shared. cbv iota.
  destruct (if decide _ then _ else _) as [[r|r]|]; [done|done|].
  by destruct (alone env (make_call _ _ _ _ _ _ _ _) s1) as [[]].
Qed.

(** A record that holds the call's own answer. *)
Definition settled (s : Shared) (v : value) : Prop :=
  ∃ a, sh_records s !! key = Some (RCall (call_record s (Done (Ok v)) a)).
Lemma settled_answers env s v : settled s v → alone env call s = (Ok v, s, []).
Proof.
  intros [a Ha]. rewrite alone_call, Ha. cbn.
  rewrite decide_False; [done|]. tauto.
Qed.
Lemma unknown_call_settles env s v s1 l logical_ delivery_ :
  logical_ = logical_of (sh_attempts s) reference → delivery_ = call_delivery → delivery_ = AtMostOnce →
  alone env (unknown_call true secrets key logical_ name args reference) s = (Ok v, s1, l) → settled s1 v.
Proof.
  intros -> -> Hd. unfold unknown_call, settled, call_record. rewrite Hd.
  destruct (fn_unknown_outcome name args) as [marker|]; [|done].
  rewrite alone_bind, alone_record_at. destruct (sh_records s !! key) as [[]|] eqn:E; try done.
  rewrite alone_bind, alone_save. destruct (allowed _ _) as [[]|]; [|done].
  destruct (en_save env _ _) as [[]|]; [|done]. intros [= <- <- _].
  exists ∅. unfold kept, noted. cbn. by rewrite lookup_insert_eq.
Qed.
Lemma answered_settles env s v s1 l r a logical_ :
  logical_ = logical_of (sh_attempts s) reference →
  alone env (answered_call true secrets key logical_ name args call_delivery reference r a) s = (Ok v, s1, l) →
  settled s1 v.
Proof.
  intros Hl. unfold answered_call. destruct r as [w|[e|e|e|e]].
  - rewrite alone_bind, alone_save. destruct (allowed _ _) as [[]|]; [|done].
    destruct (en_save env _ _) as [[]|]; [|done]. intros [= <- <- _].
    exists a. unfold kept, noted, call_record. cbn. by rewrite lookup_insert_eq, Hl.
  - rewrite alone_bind, alone_save. by destruct (allowed _ _) as [[]|]; [destruct (en_save env _ _) as [[]|]|].
  - rewrite alone_bind, alone_save. by destruct (allowed _ _) as [[]|]; [destruct (en_save env _ _) as [[]|]|].
  - destruct (decide _) as [Hd|]; [|done]. by eapply unknown_call_settles.
  - rewrite alone_bind, alone_cancelled. destruct (en_cancelled env); [done|].
    destruct (decide _) as [Hd|]; [|done].
    destruct (alone env (unknown_call _ _ _ _ _ _ _) s) as [[r2 s2] l2] eqn:E.
    intros [= -> -> _]. by eapply unknown_call_settles.
Qed.
Lemma attempts_kept k r s : sh_attempts (kept k r s) = sh_attempts s.
Proof. unfold kept, noted. by destruct (entry_of k r). Qed.
Lemma made_settles env s v s1 l logical_ :
  logical_ = logical_of (sh_attempts s) reference →
  alone env (make_call true secrets t key logical_ args call_delivery reference) s = (Ok v, s1, l) →
  settled s1 v.
Proof.
  intros Hl. unfold make_call. rewrite alone_bind, alone_save.
  destruct (allowed _ _) as [[]|]; [|done]. destruct (en_save env _ _) as [[]|]; [|done]. cbv iota.
  rewrite alone_bind. set (s2 := kept _ _ s).
  assert (∃ s3, sh_attempts s3 = sh_attempts s2 ∧
    alone env (if decide (call_delivery = AtMostOnce) then access (λ s, s <| sh_protected ::= Z.add 1 |>)
               else shared) s2 = (Ok s2, s3, [])) as (s3&H3&E).
  { destruct (decide _); eexists; split; [|apply alone_access| |apply alone_shared]; done. }
  rewrite E, alone_bind, alone_shared, alone_bind, alone_dispatch. cbv iota.
  destruct (en_answer env _) as [[r a]|]; [|done]. destruct (annotated name r a) as [r' a'].
  destruct (alone env (answered_call _ _ _ _ _ _ _ _ _ _) s3) as [[r4 s4] l4] eqn:E4.
  intros [= -> -> _]. eapply answered_settles; [|apply E4].
  rewrite H3. unfold s2. by rewrite attempts_kept.
Qed.

Lemma restore_settles env s v s1 l :
  alone env (restore_call true secrets (sh_records s !! key) key (logical_of (sh_attempts s) reference)
               name args call_delivery reference) s = (Ok (Some v), s1, l) →
  settled s1 v.
Proof.
  unfold restore_call. destruct (sh_records s !! key) as [r|] eqn:Er; [|done].
  destruct r as [| |c| | | | | | | |]; try done.
  destruct (decide _) as [|Hc]; [done|]. destruct (call_state c) as [|e|[w|e]] eqn:Ec; try done.
  - destruct (decide _) as [Hd|]; [|done]. rewrite alone_bind.
    destruct (alone env (unknown_call _ _ _ _ _ _ _) s) as [[[w|e] s2] l2] eqn:E; [|done].
    intros [= -> -> _]. by eapply unknown_call_settles.
  - intros [= -> -> _]. exists (annotations c). rewrite Er. unfold call_record. do 2 f_equal.
    destruct c; cbn in *.
    f_equal; apply dec_stable; tauto.
Qed.
Lemma restore_none env prior s s1 l logical_ :
  alone env (restore_call true secrets prior key logical_ name args call_delivery reference) s = (Ok None, s1, l) →
  s1 = s.
Proof.
  unfold restore_call. destruct prior as [r|]; [|by intros [= <- _]].
  destruct r as [| |c| | | | | | | |]; try done. destruct (decide _); [done|].
  destruct (call_state c) as [|e|[w|e]]; try done.
  destruct (decide _); [|by intros [= <- _]]. rewrite alone_bind.
  by destruct (alone env (unknown_call _ _ _ _ _ _ _) s) as [[[w|f] s2] l2].
Qed.

(** a replay is deterministic: whatever a durable call answered, and however
    it came to answer it (a recorded answer, an answer of an earlier attempt, the
    host's, or the marker of an unknown outcome), the same call made again on the
    records it left gives the same answer, sends nothing and changes nothing,
    whatever the host and the journal would say now. *)
Theorem call_replays env env' s v s1 l s2 :
  alone env call s = (Ok v, s1, l) →
  sh_records s2 = sh_records s1 → sh_attempts s2 = sh_attempts s1 →
  alone env' call s2 = (Ok v, s2, []).
Proof.
  intros Hrun Hrec Hatt.
  assert (settled s1 v → alone env' call s2 = (Ok v, s2, [])) as Hset.
  { intros [a Ha]. apply settled_answers. exists a. rewrite Hrec, Ha. unfold call_record. by rewrite Hatt. }
  rewrite alone_call in Hrun.
  destruct (alone env (restore_call _ _ _ _ _ _ _ _ _) s) as [[[[w|]|] s3] l3] eqn:E; [| |done].
  { injection Hrun as -> -> _. eapply Hset, restore_settles, E. }
  pose proof (restore_none _ _ _ _ _ _ E) as ->.
  destruct (known_target t) eqn:Ht; [|done].
  destruct (decide _) as [(Hp&Hl&Hd)|_]; [destruct (earlier_attempt _ _ _ _ _ _) as [[w|f]|] eqn:Ee|].
  - injection Hrun as -> -> _. rewrite alone_call, Hrec, Hatt, Hp, Ht. cbn.
    by rewrite ?Hrec, ?Hatt, decide_True, Ee by done.
  - done.
  - destruct (alone env (make_call _ _ _ _ _ _ _ _) s) as [[r4 s4] l4] eqn:E4.
    injection Hrun as -> -> _. eapply Hset, made_settles, E4. done.
  - destruct (alone env (make_call _ _ _ _ _ _ _ _) s) as [[r4 s4] l4] eqn:E4.
    injection Hrun as -> -> _. eapply Hset, made_settles, E4. done.
Qed.

(** The dispatch of a call. *)
Definition sent (s : Shared) : Dispatched :=
  mkDispatched t name args reference (logical_of (sh_attempts s) reference)
    (attempt_of (sh_attempts s) reference) call_delivery (fn_cooperative name).
(** The record a definite answer leaves, and what the call answers. *)
Definition ended (r : result CallFailure value) : option (CallState * result stop value) :=
  match r with
  | Ok v => Some (Done (Ok v), Ok v)
  | Err (FResponse e) => Some (Done (Err e), Err (Stopped (FtError e)))
  | Err (FNotExecuted e) => Some (NotExecuted e, Err (Stopped (FtError e)))
  | _ => None
  end.
Lemma pending_advances s state a :
  check_transition (RCall (call_record s Pending ∅)) (RCall (call_record s state a)) = Ok ().
Proof.
  unfold check_transition. assert (transition_allowed (RCall (call_record s Pending ∅))
    (RCall (call_record s state a)) = true) as ->; [|done].
  apply orb_true_intro. right. cbn. by rewrite !bool_decide_true by done.
Qed.
(** What a definite answer does. *)
Lemma alone_answered env s s0 r a state out :
  (∀ k x, en_save env k x = Ok ()) → ended r = Some (state, out) →
  sh_records s !! key = Some (RCall (call_record s0 Pending ∅)) →
  alone env (answered_call true secrets key (logical_of (sh_attempts s0) reference) name args call_delivery
               reference r a) s =
  (out, kept key (RCall (call_record s0 state a)) s, [Saved key (redact_record secrets (RCall (call_record s0 state a)))]).
Proof.
  intros Hsave Hend Hrec. pose proof (pending_advances s0 state a) as Hadv.
  assert (Hkeep : alone env (save true secrets key (RCall (call_record s0 state a))) s =
    (Ok (), kept key (RCall (call_record s0 state a)) s,
     [Saved key (redact_record secrets (RCall (call_record s0 state a)))])).
  { rewrite alone_save, Hrec, Hsave. cbn [allowed]. by rewrite Hadv. }
  unfold answered_call, call_record in *. destruct r as [v|[e|e|e|e]]; try done; injection Hend as <- <-;
    by rewrite alone_bind, Hkeep.
Qed.

(** A call that has no record, made against a journal that takes its saves and
    a host that answers it definitely, has three effects in this order: its intent
    is saved, the call is sent once with its arguments, logical reference, attempt
    and delivery, and its answer is saved with the annotations it carried; the
    caller gets the answer, and the fields hold the answer's record. An answer
    whose annotations are out of bounds is saved and given as a validation error. *)
Theorem call_made env s r a state out :
  sh_records s !! key = None → known_target t = true →
  logical_of (sh_attempts s) reference = reference ∨ call_delivery ≠ AtMostOnce →
  (∀ k x, en_save env k x = Ok ()) → en_answer env (sent s) = Some (r, a) →
  let '(r', a') := annotated name r a in
  ended r' = Some (state, out) →
  ∃ s', alone env call s =
      (out, s', [Saved key (redact_record secrets (RCall (call_record s Pending ∅))); Sent (sent s);
                 Saved key (redact_record secrets (RCall (call_record s state a')))]) ∧
    sh_records s' = <[key := RCall (call_record s state a')]> (sh_records s) ∧
    sh_attempts s' = sh_attempts s.
Proof.
  intros Hnone Hknown Hfirst Hsave Hans. destruct (annotated name r a) as [r' a'] eqn:Ea. intros Hend.
  rewrite alone_call, Hnone, Hknown. cbn [restore_call]. rewrite alone_ret.
  rewrite decide_False by tauto. unfold make_call. rewrite alone_bind, alone_save, Hnone, Hsave.
  cbn [allowed]. rewrite alone_bind. set (s2 := kept _ _ s).
  assert (∃ s3, sh_records s3 = sh_records s2 ∧ sh_attempts s3 = sh_attempts s2 ∧
    alone env (if decide (call_delivery = AtMostOnce) then access (λ s, s <| sh_protected ::= Z.add 1 |>)
               else shared) s2 = (Ok s2, s3, [])) as (s3&H3&H3'&E).
  { destruct (decide _); [exists (s2 <| sh_protected ::= Z.add 1 |>)|exists s2]; done. }
  assert (Hatt : sh_attempts s3 = sh_attempts s) by (by rewrite H3'; apply attempts_kept).
  rewrite E, alone_bind, alone_shared, alone_bind, alone_dispatch, Hatt.
  fold (sent s). rewrite Hans, Ea. cbn [fst snd].
  rewrite (alone_answered env s3 s r' a' state out) by (done || (rewrite H3; apply lookup_insert_eq)).
  eexists. split; [done|]. split; [|by rewrite attempts_kept].
  cbn. rewrite H3. cbn. by rewrite insert_insert_eq.
Qed.
End replay.

Lemma call_replays_witness :
  let s1 := demo_run.1.2 in alone (demo_env <| en_save := λ _ _, Err "down" |> <| en_answer := λ _, None |>) demo_call s1 =
  (Ok (vint 7), s1, []).
Proof.
  exact (call_replays (H := demo_host) (H0 := demo_functions) no_secrets (TFunction "charge") VNull "/do/0" AtMostOnce demo_env _
           empty_shared (vint 7) demo_run.1.2 demo_run.2 demo_run.1.2
           ltac:(vm_compute; reflexivity) eq_refl eq_refl).
Defined.
Lemma call_made_witness :
  ∃ s', demo_run.1.2 = s' ∧ is_Some (sh_records s' !! "/do/0#call").
Proof.
  destruct (call_made (H := demo_host) (H0 := demo_functions) no_secrets (TFunction "charge") VNull "/do/0" AtMostOnce demo_env
    empty_shared (Ok (vint 7)) ∅ (Done (Ok (vint 7))) (Ok (vint 7)) eq_refl eq_refl
    ltac:(left; vm_compute; reflexivity) ltac:(done) eq_refl eq_refl) as (s'&E&Hrec&_).
  exists s'. unfold demo_run, demo_call. rewrite E. split; [done|]. rewrite Hrec.
  exists (RCall (call_record (H0 := demo_functions) (TFunction "charge") VNull "/do/0" AtMostOnce empty_shared
                   (Done (Ok (vint 7))) ∅)). apply lookup_insert_eq.
Defined.
