(* ===== verification/TaskSpec.v ===== *)
(** * A task's checkpoint

    What [Interp.task] leaves when it ends, and what it does when it is entered
    again. *)
From S2P Require Import Prelude Json Outcome Journal Expr Listen Secrets.
From S2P Require Import Drive Calls Branches Model Tasks Waits Compose Interp Execute Alone Samples DriveSamples.

Section task.
Context `{Host, Functions, Formats} (su : Setup).
Hypothesis Hdurable : su_durable su = true.

(** A task's saved result. *)
Definition checkpointed (s : Shared) (reference : string) (r : result Fault (value * Flow)) (c : value) : Prop :=
  ∃ started_ms o, sh_records s !! (reference +:+ "#task") = Some (RTask started_ms (Some (mkTaskResult c o))) ∧
    restored o = r.
(** The tasks a handler has entered, this one included. *)
Definition entered (s : Shared) (reference : string) : Z :=
  default 0 (find_handler reference (enter_handler reference (sh_handlers s))).

Lemma restored_saved r o : outcome_saved r = Some o → restored o = r.
Proof. by destruct r as [[v f]|[]]; intros [= <-]. Qed.
Lemma located_value reference r v : located reference r = Ok v → r = Ok v.
Proof. by destruct r as [|[]]. Qed.

(** Entered again, a task whose result is saved gives it and its context, and has no
    effect, whatever it is given. *)
Lemma checkpointed_answers env run fuel t name reference raw scope c0 s r c :
  checkpointed s reference r c → en_cancelled env = false → entered s reference ≤ HANDLER_TASKS →
  solo env (task_body su run fuel t name reference raw scope) c0 s =
  (Ok r, c, s <| sh_handlers ::= enter_handler reference |>, []).
Proof.
  intros (started_ms&o&Hrec&Hr) Hcancel Hentered.
  unfold task_body. rewrite solo_bind, solo_cancelled, Hcancel. cbv iota.
  unfold handler. rewrite solo_bind, solo_bind, solo_access, solo_ret. cbv iota.
  rewrite decide_False by (unfold entered in Hentered; lia).
  rewrite solo_bind, solo_record_at. cbn [app]. cbv iota.
  change (sh_records (s <| sh_handlers ::= enter_handler reference |>)) with (sh_records s). rewrite Hrec.
  cbn [saved_result context outcome_of]. rewrite solo_bind.
  cbn -[restored]. by rewrite solo_or_fault, Hr.
Qed.

(** A result that recovery gives again: a completion, or an error. *)
Definition definite (r : result Fault (value * Flow)) : Prop :=
  match r with Ok _ | Err (FtError _) => True | _ => False end.
Lemma definite_saved reference r : definite (located reference r) → is_Some (outcome_saved (located reference r)).
Proof. destruct r as [[v f]|[]]; cbn; intros E; done || eauto. Qed.
Lemma kept_task key started_ms res s : sh_records (kept key (RTask started_ms res) s) = <[key := RTask started_ms res]> (sh_records s).
Proof. done. Qed.

Lemma entered_checkpoints env run fuel t name reference raw scope prior c s r c1 s1 l :
  solo env (enter_task su run fuel t name reference raw scope prior) c s = (Ok r, c1, s1, l) →
  definite r → checkpointed s1 reference r c1.
Proof.
  intros Hrun Hdef. unfold enter_task in Hrun. rewrite Hdurable in Hrun.
  rewrite solo_bind in Hrun. set (counted := if decide (prior = None) then _ else _) in Hrun.
  assert (∃ over s2, solo env counted c s = (Ok (Ok over), c, s2, [])) as (over&s2&E2).
  { unfold counted. destruct (decide _); [rewrite solo_bind, solo_access|rewrite solo_ret]; eauto. }
  rewrite E2 in Hrun. destruct over; [by injection Hrun as <- <- <- _|].
  rewrite solo_bind in Hrun.
  assert (∃ started_ms, solo env (match saved_start prior with
                 | Some started_ms => mret started_ms
                 | None => now ← perform ONow; mret (now : Z)
                 end) c s2 = (Ok (Ok started_ms), c, s2, [])) as [started_ms E3].
  { destruct (saved_start prior); [rewrite solo_ret|rewrite solo_bind, solo_now, solo_ret]; eauto. }
  rewrite E3 in Hrun. rewrite solo_bind, solo_save in Hrun.
  destruct (allowed _ _) as [[]|]; [|by injection Hrun as <- <- <- _].
  destruct (en_save env _ _) as [[]|]; [|by injection Hrun as <- <- <- _]. cbv iota in Hrun.
  rewrite solo_bind, solo_reify in Hrun. set (s3 := kept _ _ s2) in Hrun.
  destruct (solo env (steps _ _ _ _ _ _ _ _ _) c s3) as [[[[r0|h] c4] s4] l4]; [|done]. cbv iota in Hrun.
  rewrite solo_bind in Hrun.
  destruct (outcome_saved (located reference r0)) as [o|] eqn:Eo.
  - cbn [when_some] in Hrun. rewrite solo_bind, solo_get, solo_save in Hrun.
    destruct (allowed _ _) as [[]|]; [|by injection Hrun as <- <- <- _].
    destruct (en_save env _ _) as [[]|]; [|by injection Hrun as <- <- <- _].
    rewrite solo_or_fault in Hrun. injection Hrun as <- <- <- _.
    exists started_ms, o. rewrite kept_task, lookup_insert_eq. split; [done|by apply restored_saved].
  - cbn [when_some] in Hrun. rewrite solo_ret, solo_or_fault in Hrun. injection Hrun as <- _ _ _.
    destruct (definite_saved reference r0 Hdef). congruence.
Qed.
(** What a task that ended leaves. *)
Lemma task_checkpoints env run fuel t name reference raw scope c s r c1 s1 l :
  solo env (task_body su run fuel t name reference raw scope) c s = (Ok r, c1, s1, l) →
  definite r → checkpointed s1 reference r c1.
Proof.
  intros Hrun Hdef. unfold task_body in Hrun.
  rewrite solo_bind, solo_cancelled in Hrun. destruct (en_cancelled env); [by injection Hrun as <- <- <- _|].
  unfold handler in Hrun. rewrite solo_bind, solo_bind, solo_access, solo_ret in Hrun. cbv iota in Hrun.
  destruct (decide _); [by injection Hrun as <- <- <- _|].
  rewrite solo_bind, solo_record_at in Hrun. cbv iota in Hrun. set (s2 := s <| sh_handlers ::= _ |>) in *.
  destruct (sh_records s2 !! (reference +:+ "#task")) as [x|] eqn:Ex.
  - destruct (saved_result (Some x)) as [saved|] eqn:Es.
    + rewrite solo_bind in Hrun. cbn -[restored] in Hrun. rewrite solo_or_fault in Hrun.
      injection Hrun as <- <- <- _. destruct x; try done. cbn in Es. subst result.
      exists started_ms, (outcome_of saved). rewrite Ex. by destruct saved.
    + destruct (solo env (enter_task _ _ _ _ _ _ _ _ _) c s2) as [[[[r0|h] c4] s4] l4] eqn:E; [|done].
      injection Hrun as -> -> -> _. by eapply entered_checkpoints.
  - cbn [saved_result] in Hrun.
    destruct (solo env (enter_task _ _ _ _ _ _ _ _ _) c s2) as [[[[r0|h] c4] s4] l4] eqn:E; [|done].
    injection Hrun as -> -> -> _. by eapply entered_checkpoints.
Qed.

(** C3: a task runs once: whatever its first run did, once it has completed or faulted
    with an error the task is answered from its checkpoint whenever it is entered
    again, by any later drive and with any input, scope, host and journal: the same
    output and directive or the same error, the same workflow context, no effect. *)
Theorem task_replays env env' fuel fuel' t t' name name' reference raw raw' scope scope' c c' s s2 r c1 s1 l :
  solo env (task su fuel t name reference raw scope) c s = (Ok r, c1, s1, l) →
  definite r →
  sh_records s2 !! (reference +:+ "#task") = sh_records s1 !! (reference +:+ "#task") →
  en_cancelled env' = false → entered s2 reference ≤ HANDLER_TASKS →
  solo env' (task su (S fuel') t' name' reference raw' scope') c' s2 =
  (Ok r, c1, s2 <| sh_handlers ::= enter_handler reference |>, []).
Proof.
  intros Hrun Hdef Hrec Hcancel Hentered. destruct fuel as [|fuel]; [done|].
  apply task_checkpoints in Hrun as (started_ms&o&Ho&Hr); [|done].
  apply checkpointed_answers; [|done..]. exists started_ms, o. by rewrite Hrec.
Qed.
End task.

(** Leaving no handler changes nothing. *)
Lemma reset_handlers s reference : [] = sh_handlers s → s <| sh_handlers ::= enter_handler reference |> = s.
Proof. by destruct s as [? ? ? ? ? h]; cbn; intros <-. Qed.

Section execution.
Context `{Host, Functions, Formats} (su : Setup).

Lemma redact_terminal st : terminal (redact_status (su_secrets su) st) = terminal st.
Proof. unfold redact_status. by destruct st. Qed.
Lemma alone_reify {A} env (p : drive A) s :
  alone env (reify p) s =
  match alone env p s with
  | (Ok a, s, l) => (Ok (Ok a), s, l)
  | (Err (Stopped f), s, l) => (Ok (Err f), s, l)
  | (Err (Halted h), s, l) => (Err (Halted h), s, l)
  end.
Proof.
  revert s. induction p as [a|f|h|o k IH]; intros s; [done..|]. cbn.
  destruct (answer env o s) as [[x s1] l]. rewrite IH.
  by destruct (alone env (k x) s1) as [[[|[]]]].
Qed.

(** A drive that reports an end has committed it. *)
Lemma conclude_commits env r s o s1 l :
  su_durable su = true →
  alone env (conclude su r) s = (Ok o, s1, l) → terminal (oc_status o) = true →
  ∃ status, finished_status (sh_records s1) = Some status ∧ oc_status o = redact_status (su_secrets su) status.
Proof.
  intros Hdur Hrun Hterm. unfold conclude, commit_end in Hrun. rewrite Hdur in Hrun.
  rewrite alone_bind, alone_shared, alone_bind in Hrun.
  destruct (terminal (status_of r)) eqn:Et.
  - rewrite alone_bind, alone_reify, alone_save in Hrun.
    destruct (allowed _ _) as [[]|]; [|by injection Hrun as <- _ _].
    destruct (en_save env _ _) as [[]|]; [|by injection Hrun as <- _ _].
    injection Hrun as <- <- _. exists (status_of r). split; [|done].
    unfold finished_status. cbn. by rewrite lookup_insert_eq.
  - injection Hrun as <- _ _. cbn in Hterm. by rewrite redact_terminal, Et in Hterm.
Qed.

(** A run ends once: when a durable drive reported that the run completed,
    faulted or was cancelled, every later drive on the records it left reports the
    same status without running anything. *)
Theorem execution_replays env env' fuel fuel' records started_ms started_ms' runtime runtime' input input' s s2 o s1 l :
  su_durable su = true →
  alone env (run_execution fuel su records started_ms runtime input) s = (Ok o, s1, l) →
  sh_records s = records → terminal (oc_status o) = true →
  ∃ o', alone env' (run_execution fuel' su (sh_records s1) started_ms' runtime' input') s2 = (Ok o', s2, []) ∧
    oc_status o' = oc_status o.
Proof.
  intros Hdur Hrun Hs Hterm.
  assert (∃ status, finished_status (sh_records s1) = Some status ∧
    oc_status o = redact_status (su_secrets su) status) as (status&Hfin&Ho).
  2: { unfold run_execution. rewrite Hfin. eexists. split; [done|]. by rewrite Ho. }
  unfold run_execution in Hrun. destruct (finished_status records) as [status|] eqn:Ef.
  { injection Hrun as <- <- _. exists status. by rewrite Hs. }
  rewrite alone_bind, alone_reify in Hrun.
  destruct (alone env (body _ _ _ _ _) s) as [[[a|[f|h]] s3] l3]; [| |done].
  all: destruct (alone env (conclude su _) s3) as [[r4 s4] l4] eqn:E; injection Hrun as -> -> _;
    by apply (conclude_commits _ _ _ _ _ _ Hdur E).
Qed.
End execution.

Lemma task_replays_witness :
  let '(_, c1, s1, _) := run_task_alone demo_env VNull empty_shared in
  run_task_alone (demo_env <| en_save := λ _ _, Err "down" |> <| en_answer := λ _, None |>) (VStr "other") s1 =
  (Ok (Ok (vint 7, Continue)), c1, s1, []).
Proof.
  destruct (run_task_alone demo_env VNull empty_shared) as [[[r c1] s1] l] eqn:E.
  assert (Hr := f_equal (λ x, x.1.1.1) E). vm_compute in Hr.
  assert (Hs := f_equal (λ x, sh_handlers x.1.2) E). vm_compute in Hs. change ([] = sh_handlers s1) in Hs.
  unfold run_task_alone in *. rewrite <- Hr in E.
  rewrite (task_replays (H := jumps_host) (H0 := demo_functions) (H1 := demo_formats) demo_setup eq_refl
    _ _ _ 4 _ _ "charge" "charge" _ _ VNull _ [] _ (VStr "other") _ s1 _ _ _ _ E).
  - by rewrite (reset_handlers s1).
  - exact I.
  - reflexivity.
  - reflexivity.
  - unfold entered. rewrite <- Hs. vm_compute. discriminate.
Defined.
Lemma execution_replays_witness :
  ∃ o', demo_execution 0 (sh_records (demo_execution 20 ∅ empty_shared).1.2) empty_shared = (Ok o', empty_shared, []) ∧
    oc_status o' = Completed (vint 7).
Proof.
  destruct (demo_execution 20 ∅ empty_shared) as [[r s1] l] eqn:E.
  assert (Hr := f_equal (λ x, x.1.1) E). vm_compute in Hr.
  unfold demo_execution in *. rewrite <- Hr in E.
  destruct (execution_replays (H := jumps_host) (H0 := demo_functions) (H1 := demo_formats) demo_setup
    _ demo_env _ 0 _ _ 1000 _ VNull _ VNull _ empty_shared _ _ _ eq_refl E eq_refl eq_refl) as (o'&E'&Ho).
  exists o'. split; [exact E'|exact Ho].
Defined.
