(* ===== verification/Refines.v ===== *)
(** * More fuel

    The model's fuel is only a bound: [refines p q] says that [q] does what [p] does
    wherever [p] did not run out of fuel, and every part of the interpreter keeps it. *)
From S2P Require Import Prelude Json Outcome Journal Expr Listen Secrets.
From S2P Require Import Drive Calls Branches Model Tasks Waits Compose Interp Execute Alone Samples DriveSamples.

Inductive refines {A} : drive A → drive A → Prop :=
| rf_out q : refines (DHalt OutOfFuel) q
| rf_ret a : refines (DRet a) (DRet a)
| rf_fault f : refines (DFault f) (DFault f)
| rf_halt h : refines (DHalt h) (DHalt h)
| rf_op o k k' : (∀ x, refines (k x) (k' x)) → refines (DOp o k) (DOp o k').

Lemma refines_refl {A} (p : drive A) : refines p p.
Proof. induction p; by constructor. Qed.
Lemma refines_bind {A B} (p p' : drive A) (f f' : A → drive B) :
  refines p p' → (∀ a, refines (f a) (f' a)) → refines (p ≫= f) (p' ≫= f').
Proof. intros Hp Hf. induction Hp as [|a|f0|h|o k k' _ IH]; [constructor|apply Hf|constructor..|]. constructor. apply IH. Qed.
Lemma refines_reify {A} (p p' : drive A) : refines p p' → refines (reify p) (reify p').
Proof. intros Hp. induction Hp; by constructor. Qed.
Lemma refines_in_context {A} c (p p' : drive A) : refines p p' → refines (in_context c p) (in_context c p').
Proof.
  intros Hp. revert c. induction Hp as [| | | |o k k' _ IH]; intros c; try constructor.
  destruct o; cbn; auto; constructor; intros x; apply IH.
Qed.
Lemma refines_with_timer {A} ms (p p' : drive A) : refines p p' → refines (with_timer ms p) (with_timer ms p').
Proof.
  intros Hp. induction Hp as [| | | |o k k' _ IH]; try constructor. cbn.
  destruct (awaits o); constructor; [intros [x|]|]; auto. constructor.
Qed.
Lemma both_halt h q : both (DHalt h) q = DHalt h.
Proof. by destruct q. Qed.
Lemma refines_both p p' : refines p p' → ∀ q q', refines q q' → refines (both p q) (both p' q').
Proof.
  induction 1 as [p'|a|f|h|o k k' Hk IH]; intros q q' Hq.
  - rewrite both_halt. constructor.
  - destruct Hq; cbn; constructor. done.
  - destruct Hq; cbn; constructor.
  - rewrite !both_halt. constructor.
  - induction Hq as [q'|a|f|h|o' j j' Hj IHj]; cbn; try constructor.
    + done.
    + intros [|]; constructor; intros x; [apply IH; by constructor|apply IHj].
Qed.
Lemma refines_pool_of stop queue queue' :
  Forall2 refines queue queue' → ∀ running running' log, refines running running' →
  refines (pool_of stop queue log running) (pool_of stop queue' log running').
Proof.
  induction 1 as [|p p' queue queue' Hp Hq IHq]; intros running running' log Hr; revert log;
    (induction Hr as [| | | |o k k' Hk IH]; intros log; try (cbn; constructor));
    destruct o; try (cbn; constructor; intros x; apply IH);
    cbn; destruct (stop r); try constructor; try apply IH.
  apply IHq. by apply refines_both.
Qed.
Lemma refines_branch i p p' : refines p p' → refines (branch i p) (branch i p').
Proof. intros Hp. apply refines_bind; [by apply refines_reify|]. intros r. apply refines_refl. Qed.
Lemma refines_parts l l' : ∀ i : nat,
  Forall2 refines l l' → Forall2 refines (imap (λ j, branch (i + j)) l) (imap (λ j, branch (i + j)) l').
Proof.
  intros i Hl. revert i. induction Hl as [|p p' l l' Hp Hl IH]; intros i; cbn; [done|].
  constructor; [by apply refines_branch|].
  specialize (IH (S i)). eapply Forall2_impl in IH; [|done].
  erewrite imap_ext, (imap_ext _ _ l'); [exact IH|..]; intros; cbn; do 2 f_equal; lia.
Qed.
Lemma refines_all l l' : Forall2 refines l l' → refines (foldr both (DRet ()) l) (foldr both (DRet ()) l').
Proof. induction 1; [constructor|by apply refines_both]. Qed.
Lemma refines_pool stop limit l l' : Forall2 refines l l' → refines (pool stop limit l) (pool stop limit l').
Proof.
  intros Hl. pose proof (refines_parts _ _ 0 Hl) as Hparts.
  apply refines_pool_of; [by apply Forall2_drop|]. by apply refines_all, Forall2_take.
Qed.
Lemma refines_imap {A} (f g : nat → A → drive (value * option Flow)) l :
  (∀ i x, refines (f i x) (g i x)) → Forall2 refines (imap f l) (imap g l).
Proof.
  revert f g. induction l as [|x l IH]; intros f g Hfg; cbn; [done|].
  constructor; [apply Hfg|]. apply IH. intros. apply Hfg.
Qed.
Lemma refines_when_some {A B} (o : option A) (f g : A → drive B) none :
  (∀ a, refines (f a) (g a)) → refines (when_some o f none) (when_some o g none).
Proof. intros Hfg. destruct o; [apply Hfg|apply refines_refl]. Qed.

(** The parts of a program, taken apart as the program is written. *)
Ltac refines_step :=
  match goal with
  | |- refines ?p ?p => apply refines_refl
  | H : context [refines] |- _ => apply H
  | |- refines (_ ≫= _) (_ ≫= _) => apply refines_bind; [|intros]
  | |- refines (reify _) _ => apply refines_reify
  | |- refines (in_context _ _) _ => apply refines_in_context
  | |- refines (with_timer _ _) _ => apply refines_with_timer
  | |- refines (pool _ _ _) _ => apply refines_pool, refines_imap; intros
  | |- refines (when_some _ _ _) _ => apply refines_when_some; intros
  | |- refines (match ?x with _ => _ end) _ => destruct x
  | |- refines (let _ := _ in _) _ => cbv zeta
  end.
Ltac refines_parts := repeat (refines_step; eauto with refines).
Create HintDb refines.

Section interp.
Context `{Host, Functions, Formats} (su : Setup).
Variables (run run' : Task → string → string → value → Scope → drive (value * Flow)) (fuel fuel' : nat).
Hypothesis Hrun : ∀ t n r raw sc, refines (run t n r raw sc) (run' t n r raw sc).
Hypothesis Hfuel : (fuel ≤ fuel')%nat.

Lemma refines_list_from n n' tasks at_ outer scope i visits data :
  (n ≤ n')%nat →
  refines (list_from su run n tasks at_ outer scope i visits data)
          (list_from su run' n' tasks at_ outer scope i visits data).
Proof.
  revert n' i visits data. induction n as [|n IH]; intros [|n'] i visits data Hn; try constructor; [lia|].
  cbn [list_from]. destruct (tasks !! i) as [[name task]|]; [|constructor].
  apply refines_bind; [constructor; intros; constructor|]. intros r. apply refines_bind; [apply Hrun|].
  intros [out flow]. destruct flow; [apply IH; lia|constructor..|].
  destruct (position _ _); [apply IH; lia|constructor].
Qed.
Lemma refines_list tasks at_ data scope :
  refines (run_list su run fuel tasks at_ data scope) (run_list su run' fuel' tasks at_ data scope).
Proof. by apply refines_list_from. Qed.
Lemma refines_layer l reference around inner inner' data :
  (∀ v, refines (inner v) (inner' v)) →
  refines (layer su run fuel l reference around inner data) (layer su run' fuel' l reference around inner' data).
Proof.
  intros Hinner. revert data. induction l as [|[[i name] e] l IH]; intros data; [apply Hinner|].
  cbn [layer]. apply refines_bind; [apply refines_when_some; intros; apply refines_list|].
  intros [v|v|v]; [|constructor..]. apply refines_bind; [apply IH|]. intros [out flow].
  destruct (ex_after e); [|constructor]. apply refines_bind; [apply refines_list|]. intros. apply refines_refl.
Qed.
Lemma refines_call t a reference d : refines (call su run t a reference d) (call su run' t a reference d).
Proof.
  unfold call. destruct (match t with TFunction _ => _ | _ => _ end) as [f|]; [|apply refines_refl].
  destruct (decide _); [|constructor]. apply refines_bind; [apply Hrun|]. intros []. constructor.
Qed.
Hint Resolve refines_refl refines_list refines_call : refines.
Lemma refines_run_process r reference input a d :
  refines (run_process su run r reference input a d) (run_process su run' r reference input a d).
Proof.
  unfold run_process. destruct (run_process_of r); [apply refines_refl|].
  apply refines_bind; [apply refines_refl|]. intros rendered.
  apply refines_bind; [apply refines_call|intros; apply refines_refl].
Qed.
Lemma refines_for_each items i each at_ condition tasks reference input scope desc data :
  refines (for_each su run fuel items i each at_ condition tasks reference input scope desc data)
          (for_each su run' fuel' items i each at_ condition tasks reference input scope desc data).
Proof.
  revert i data. induction items as [|item items IH]; intros i data; cbn [for_each]; [apply refines_refl|].
  apply refines_bind; [apply refines_refl|]. intros [|]; [|apply refines_refl].
  apply refines_bind; [apply refines_list|]. intros [v|v|v]; auto. apply refines_refl.
Qed.
Lemma refines_concurrent items each at_ limit tasks reference input scope :
  refines (concurrent su run fuel items each at_ limit tasks reference input scope)
          (concurrent su run' fuel' items each at_ limit tasks reference input scope).
Proof.
  unfold concurrent. apply refines_bind; [apply refines_refl|]. intros ctx.
  apply refines_bind; [|intros; apply refines_refl].
  apply refines_pool, refines_imap. intros i item. apply refines_bind; [|intros []; apply refines_refl].
  apply refines_in_context, refines_list.
Qed.
Lemma refines_fork_branch at_ input ctx scope i b :
  refines (fork_branch run at_ input ctx scope i b) (fork_branch run' at_ input ctx scope i b).
Proof.
  apply refines_bind; [apply refines_in_context, Hrun|]. intros []. apply refines_refl.
Qed.
Lemma refines_fork branches compete at_ input scope :
  refines (fork su run branches compete at_ input scope) (fork su run' branches compete at_ input scope).
Proof.
  assert (Hpool : ∀ stop ctx, refines
    (pool stop (length (imap (fork_branch run at_ input ctx scope) branches)) (imap (fork_branch run at_ input ctx scope) branches))
    (pool stop (length (imap (fork_branch run' at_ input ctx scope) branches)) (imap (fork_branch run' at_ input ctx scope) branches))).
  { intros. rewrite !length_imap. apply refines_pool, refines_imap. intros. apply refines_fork_branch. }
  unfold fork. apply refines_bind; [apply refines_refl|]. intros prior.
  destruct prior as [[]|]; try apply refines_refl;
    (apply refines_bind; [apply refines_refl|]; intros ctx; cbv zeta;
     destruct compete; [|destruct (su_durable su)];
     (apply refines_bind; [apply Hpool|]; intros; rewrite ?length_imap; apply refines_refl)).
Qed.
Hint Resolve refines_run_process refines_for_each refines_concurrent refines_fork : refines.

Lemma refines_foreach f reference n item scope :
  refines (foreach su run fuel f reference n item scope) (foreach su run' fuel' f reference n item scope).
Proof. apply refines_bind; [apply refines_list|]. intros. apply refines_refl. Qed.
Lemma refines_take_within n n' key routes hold :
  (n ≤ n')%nat → refines (take_within su n key routes hold) (take_within su n' key routes hold).
Proof.
  revert n'. induction n as [|n IH]; intros [|n'] Hn; try constructor; [lia|]. intros taken.
  change (refines
    (found ← storage (taken : result string (option value));
     match found with
     | Some event => _ ← save (su_durable su) (su_secrets su) key (REvent event); mret (Some event)
     | None => over ← perform (OHeld hold);
         if (over : bool) then mret None
         else notified ← perform (ONotified hold);
              if (notified : bool) then take_within su n key routes hold else mret None
     end)
    (found ← storage (taken : result string (option value));
     match found with
     | Some event => _ ← save (su_durable su) (su_secrets su) key (REvent event); mret (Some event)
     | None => over ← perform (OHeld hold);
         if (over : bool) then mret None
         else notified ← perform (ONotified hold);
              if (notified : bool) then take_within su n' key routes hold else mret None
     end)).
  apply refines_bind; [apply refines_refl|]. intros [e|]; [apply refines_refl|].
  apply refines_bind; [apply refines_refl|]. intros [|]; [apply refines_refl|].
  apply refines_bind; [apply refines_refl|]. intros [|]; [apply IH; lia|apply refines_refl].
Qed.
Lemma refines_next_event task reference key routes input scope desc deadline :
  refines (next_event su fuel task reference key routes input scope desc deadline)
          (next_event su fuel' task reference key routes input scope desc deadline).
Proof.
  unfold next_event. destruct (su_durable su); [|apply refines_refl].
  apply refines_bind; [apply refines_refl|]. intros now.
  apply refines_bind; [apply refines_refl|]. intros _.
  destruct (hold_of su task deadline now) as [hold expires].
  apply refines_bind; [apply refines_refl|]. intros limit.
  apply refines_bind; [by apply refines_take_within|]. intros. apply refines_refl.
Qed.
Lemma refines_listen_event task listen routes reference key p subscribed input scope desc deadline :
  refines (listen_event su fuel task listen routes reference key p subscribed input scope desc deadline)
          (listen_event su fuel' task listen routes reference key p subscribed input scope desc deadline).
Proof.
  unfold listen_event. apply refines_bind; [apply refines_refl|].
  intros [[]|]; try apply refines_refl.
  do 2 (apply refines_bind; [apply refines_refl|]; intros).
  apply refines_bind; [apply refines_next_event|]. intros. apply refines_refl.
Qed.
Lemma refines_listen_from n n' task listen routes reference i p consumed outputs subscribed input scope desc deadline :
  (n ≤ n')%nat →
  refines (listen_from su run fuel n task listen routes reference i p consumed outputs subscribed input scope desc deadline)
    (listen_from su run' fuel' n' task listen routes reference i p consumed outputs subscribed input scope desc deadline).
Proof.
  revert n' i p consumed outputs subscribed.
  induction n as [|n IH]; intros [|n'] i p consumed outputs subscribed Hn; try constructor; [lia|].
  cbn [listen_from]. destruct (p_done p); [apply refines_refl|].
  apply refines_bind; [apply refines_listen_event|]. intros [event sub].
  do 3 (apply refines_bind; [apply refines_refl|]; intros ?).
  destruct a1 as [offer_ p']. destruct (decide _); [|apply IH; lia].
  apply refines_bind.
  { apply refines_when_some. intros f. apply refines_bind; [apply refines_foreach|]. intros. apply refines_refl. }
  intros [[out [flow|]]|]; try apply refines_refl;
    (apply refines_bind; [apply refines_refl|]; intros; apply IH; lia).
Qed.
Lemma refines_run_listen task listen reference input scope desc deadline :
  refines (run_listen su run fuel task listen reference input scope desc deadline)
          (run_listen su run' fuel' task listen reference input scope desc deadline).
Proof.
  unfold run_listen. destruct (negb fn_events); [apply refines_refl|].
  do 2 (apply refines_bind; [apply refines_refl|]; intros). by apply refines_listen_from.
Qed.
Lemma refines_within limit key attempt_ref body body' :
  refines body body' → refines (within su limit key attempt_ref body) (within su limit key attempt_ref body').
Proof.
  intros Hbody. unfold within. do 3 (apply refines_bind; [apply refines_refl|]; intros).
  apply refines_bind; [by apply refines_with_timer, refines_reify|]. intros. apply refines_refl.
Qed.
Lemma refines_handle c reference input caught :
  refines (handle su run fuel c reference input caught) (handle su run' fuel' c reference input caught).
Proof.
  unfold handle. destruct (catch_tasks c); [|apply refines_refl].
  apply refines_bind; [apply refines_list|]. intros. apply refines_refl.
Qed.
Lemma refines_attempt_from n n' tasks c reference input snapshot scope desc began k :
  (n ≤ n')%nat →
  refines (attempt_from su run fuel n tasks c reference input snapshot scope desc began k)
          (attempt_from su run' fuel' n' tasks c reference input snapshot scope desc began k).
Proof.
  revert n' k. induction n as [|n IH]; intros [|n'] k Hn; try constructor; [lia|]. intros s.
  cbn [attempt_from]. 
  do 2 (apply refines_bind; [apply refines_refl|]; intros).
  apply refines_bind.
  { apply refines_reify. destruct a0; [apply refines_within|]; apply refines_list. }
  intros [next|f]; [apply refines_refl|]. destruct (catchable c f) as [[error u]|]; [|apply refines_refl].
  do 3 (apply refines_bind; [apply refines_refl|]; intros). destruct (negb a3); [apply refines_refl|].
  apply refines_bind; [apply refines_refl|]. intros [delay|]; [|apply refines_handle].
  do 2 (apply refines_bind; [apply refines_refl|]; intros). apply IH. lia.
Qed.
Lemma refines_attempt tasks c reference input scope desc :
  refines (attempt su run fuel tasks c reference input scope desc)
          (attempt su run' fuel' tasks c reference input scope desc).
Proof.
  unfold attempt. destruct (as_i64 _); [|apply refines_refl].
  apply refines_bind; [apply refines_refl|]. intros. by apply refines_attempt_from.
Qed.
Hint Resolve refines_run_listen refines_attempt : refines.
Lemma refines_kind t reference input scope desc deadline :
  refines (kind su run fuel t reference input scope desc deadline)
          (kind su run' fuel' t reference input scope desc deadline).
Proof.
  unfold kind. destruct (tk_kind t); try apply refines_refl; auto with refines.
  - apply refines_bind; [apply refines_refl|]. intros a.
    apply refines_bind; [apply refines_call|]. intros. apply refines_refl.
  - apply refines_bind; [apply refines_list|]. intros. apply refines_refl.
  - apply refines_bind; [apply refines_refl|]. intros l. destruct concurrency; auto with refines.
  - apply refines_bind; [apply refines_fork|]. intros. apply refines_refl.
Qed.
Lemma refines_exceeded reference first output scope :
  refines (exceeded su run reference first output scope) (exceeded su run' reference first output scope).
Proof.
  unfold exceeded. destruct (bu_on_exceeded _) eqn:E; try apply refines_refl;
    (destruct (decide _); [|apply refines_refl]); (apply refines_bind; [|intros; apply refines_refl]);
    unfold act_on_exceeded; rewrite E; [apply refines_refl|].
  apply refines_bind; [apply refines_refl|]. intros. apply refines_bind; [apply refines_reify, Hrun|].
  intros. apply refines_refl.
Qed.
Lemma refines_timed t reference started_ms limit body body' :
  (∀ d, refines (body d) (body' d)) →
  refines (timed su t reference started_ms limit body) (timed su t reference started_ms limit body').
Proof.
  intros Hbody. unfold timed. apply refines_bind; [apply refines_refl|]. intros done.
  destruct limit as [limit|]; [|apply Hbody]. destruct done; [apply Hbody|].
  destruct (tk_kind t);
    try (apply refines_bind; [apply refines_refl|]; intros rest;
         destruct (match rest with Ok x => (x.1, false) | Err _ => (0, true) end) as [ms expired];
         apply refines_bind; [by apply refines_with_timer, refines_reify|intros; apply refines_refl]).
  apply refines_bind; [by apply refines_reify|intros; apply refines_refl].
Qed.
Lemma refines_finish_steps t reference input scope desc out flow :
  refines (finish_steps su run t reference input scope desc out flow)
          (finish_steps su run' t reference input scope desc out flow).
Proof.
  unfold finish_steps. do 2 (apply refines_bind; [apply refines_refl|]; intros).
  apply refines_bind; [|intros; apply refines_refl].
  destruct (match flow with Some f => f | None => _ end); try apply refines_refl.
  apply refines_bind; [apply refines_refl|]. intros. apply refines_when_some. intros. apply refines_exceeded.
Qed.
Lemma refines_guarded {A} reference deadline (p p' : drive A) :
  refines p p' → refines (guarded reference deadline p) (guarded reference deadline p').
Proof.
  intros Hp. destruct deadline; [|done]. apply refines_bind; [apply refines_refl|]. intros.
  apply refines_bind; [by apply refines_reify|]. intros. apply refines_refl.
Qed.
Lemma refines_steps t name reference raw scope started_ms :
  refines (steps su run fuel t name reference raw scope started_ms)
          (steps su run' fuel' t name reference raw scope started_ms).
Proof.
  unfold steps. do 2 (apply refines_bind; [apply refines_refl|]; intros). destruct (negb _); [apply refines_refl|].
  do 3 (apply refines_bind; [apply refines_refl|]; intros). apply refines_guarded.
  apply refines_bind; [apply refines_refl|]. intros [chosen described].
  apply refines_bind; [|intros []; apply refines_finish_steps].
  apply refines_timed. intros d. apply refines_layer. intros. apply refines_kind.
Qed.
Lemma refines_task_body t name reference raw scope :
  refines (task_body su run fuel t name reference raw scope) (task_body su run' fuel' t name reference raw scope).
Proof.
  unfold task_body. apply refines_bind; [apply refines_refl|]. intros [|]; [apply refines_refl|].
  apply refines_bind; [apply refines_refl|]. intros entered. destruct (decide _); [apply refines_refl|].
  apply refines_bind; [apply refines_refl|]. intros prior. destruct (saved_result prior); [apply refines_refl|].
  unfold enter_task. apply refines_bind; [apply refines_refl|]. intros [|]; [apply refines_refl|].
  do 2 (apply refines_bind; [apply refines_refl|]; intros).
  apply refines_bind; [apply refines_reify, refines_steps|]. intros. apply refines_refl.
Qed.
End interp.

Section fuel.
Context `{Host, Functions, Formats}.

Lemma refines_task su n m t name reference raw scope :
  (n ≤ m)%nat → refines (task su n t name reference raw scope) (task su m t name reference raw scope).
Proof.
  revert m t name reference raw scope. induction n as [|n IH]; intros m t name reference raw scope Hn; [constructor|].
  destruct m as [|m]; [lia|]. apply refines_task_body; [intros; apply IH; lia|lia].
Qed.
Lemma refines_run_execution su n m records started_ms runtime input :
  (n ≤ m)%nat →
  refines (run_execution n su records started_ms runtime input) (run_execution m su records started_ms runtime input).
Proof.
  intros Hn. unfold run_execution. destruct (finished_status records); [apply refines_refl|].
  apply refines_bind; [|intros; apply refines_refl]. apply refines_reify. unfold body.
  apply refines_bind; [apply refines_refl|]. intros. apply refines_bind; [apply refines_refl|]. intros [|];
    [apply refines_refl|].
  assert (Hwf : refines (workflow n su input) (workflow m su input)).
  { unfold workflow. do 2 (apply refines_bind; [apply refines_refl|]; intros).
    apply refines_bind; [|intros []; apply refines_refl].
    apply refines_in_context, refines_list; [|done]. intros. by apply refines_task. }
  unfold timed_workflow. destruct (wf_timeout _); [|done].
  do 3 (apply refines_bind; [apply refines_refl|]; intros). destruct a2 as [[ms deadline]|f]; [|apply refines_refl].
  apply refines_bind; [apply refines_refl|]. intros.
  apply refines_bind; [by apply refines_with_timer, refines_reify|]. intros. apply refines_refl.
Qed.

(** A program that did not run out of fuel does the same with more. *)
Lemma alone_refines {A} env (p q : drive A) s r s1 l :
  refines p q → alone env p s = (r, s1, l) → r ≠ Err (Halted OutOfFuel) → alone env q s = (r, s1, l).
Proof.
  intros Hpq. revert s r s1 l. induction Hpq as [q|a|f|h|o k k' _ IH]; intros s r s1 l Hp Hr; try done.
  - by injection Hp as <- _ _.
  - cbn in *. destruct (answer env o s) as [[x s2] l2].
    destruct (alone env (k x) s2) as [[r3 s3] l3] eqn:E. injection Hp as -> -> <-.
    by rewrite (IH _ _ _ _ _ E Hr).
Qed.
(** The model's fuel is no part of what the interpreter does: a drive that did
    not run out of it does the same under any larger one, effect for effect, whatever
    the host, the journal and the scheduler answer. *)
Theorem fuel_is_only_a_bound env su n m records started_ms runtime input s r s1 l :
  alone env (run_execution n su records started_ms runtime input) s = (r, s1, l) →
  r ≠ Err (Halted OutOfFuel) → (n ≤ m)%nat →
  alone env (run_execution m su records started_ms runtime input) s = (r, s1, l).
Proof. intros Hrun Hr Hn. eapply alone_refines; [by apply refines_run_execution|done..]. Qed.
End fuel.

Lemma fuel_is_only_a_bound_witness :
  demo_execution 50 ∅ empty_shared = demo_execution 20 ∅ empty_shared ∧
  (demo_execution 3 ∅ empty_shared).1.1 = Err (Halted OutOfFuel).
Proof.
  split; [|vm_compute; reflexivity].
  destruct (demo_execution 20 ∅ empty_shared) as [[r s1] l] eqn:E.
  assert (Hr := f_equal (λ x, x.1.1) E). vm_compute in Hr. cbv beta in Hr.
  unfold demo_execution in *.
  apply (fuel_is_only_a_bound (H := jumps_host) (H0 := demo_functions) (H1 := demo_formats) _ _ _ _ _ _ _ _ _ _ _ _ E).
  - rewrite <- Hr. discriminate.
  - lia.
Defined.
