(* ===== verification/Ops.v ===== *)
(** * What a drive asks for

    [all_ops P p]: every operation the program [p] can ever ask for, under any answers,
    satisfies [P]; [returns Q p]: what it returns satisfies [Q]; and a rule for each
    construct of the interpreter. *)
From S2P Require Import Prelude Json Outcome Journal Expr Listen Secrets.
From S2P Require Import Drive Calls Branches Model Tasks Waits Compose Interp Execute Alone.

Fixpoint all_ops {A} (P : drive_op → Prop) (p : drive A) : Prop :=
  match p with DOp o k => P o ∧ ∀ x, all_ops P (k x) | _ => True end.

(** The operations a set of operations has to hold with: the context, the scheduler's
    turns and those under a timer. *)
Class Closed (P : drive_op → Prop) := {
  cl_context f : P (OContext f);
  cl_access f : P (OAccess f);
  cl_turn : P OTurn;
  cl_race ms o : P o → P (ORace ms o)
}.
Definition or_yield (P : drive_op → Prop) (o : drive_op) : Prop :=
  match o with OYield _ _ => True | o => P o end.

Section parts.
Context (P : drive_op → Prop) `{!Closed P}.

Lemma ops_mono {A} (Q : drive_op → Prop) (p : drive A) : (∀ o, P o → Q o) → all_ops P p → all_ops Q p.
Proof. intros HPQ. induction p as [| | |o k IH]; [done..|]. intros [Ho Hk]. split; auto. Qed.
Lemma ops_bind {A B} (p : drive A) (f : A → drive B) :
  all_ops P p → (∀ a, all_ops P (f a)) → all_ops P (p ≫= f).
Proof. intros Hp Hf. induction p as [| | |o k IH]; [apply Hf|done|done|]. destruct Hp. split; auto. Qed.
Lemma ops_reify {A} (p : drive A) : all_ops P p → all_ops P (reify p).
Proof. induction p as [| | |o k IH]; [done..|]. intros [Ho Hk]. split; [done|]. intros x. apply IH, Hk. Qed.
Lemma ops_in_context {A} c (p : drive A) : all_ops P p → all_ops P (in_context c p).
Proof.
  revert c. induction p as [| | |o k IH]; intros c; [done..|]. intros [Ho Hk].
  destruct o; cbn; auto; (split; [done|]; intros x; apply IH, Hk).
Qed.
Lemma ops_with_timer {A} ms (p : drive A) : all_ops P p → all_ops P (with_timer ms p).
Proof.
  induction p as [| | |o k IH]; [done..|]. intros [Ho Hk]. cbn. destruct (awaits o).
  - split; [by apply cl_race|]. intros [x|]; [apply IH, Hk|done].
  - split; [done|]. intros x. apply IH, Hk.
Qed.
Lemma ops_when_some {A B} (o : option A) (f : A → drive B) none :
  (∀ a, all_ops P (f a)) → all_ops P (when_some o f none).
Proof. intros Hf. destruct o; [apply Hf|done]. Qed.
Lemma ops_if {A} (c : bool) (p q : drive A) : all_ops P p → all_ops P q → all_ops P (if c then p else q).
Proof. by destruct c. Qed.
Lemma ops_or_fault {A} (r : result Fault A) : all_ops P (or_fault r).
Proof. by destruct r. Qed.
Lemma ops_or_panic {A} (o : option A) : all_ops P (or_panic o).
Proof. by destruct o. Qed.
Lemma ops_storage {A} (r : result string A) : all_ops P (storage r).
Proof. by destruct r. Qed.
Lemma ops_access f : all_ops P (access f).
Proof. split; [apply cl_access|done]. Qed.
Lemma ops_get : all_ops P (get_context).
Proof. split; [apply cl_context|done]. Qed.
Lemma ops_shared : all_ops P shared.
Proof. apply ops_access. Qed.
Lemma ops_record_at key : all_ops P (record_at key).
Proof. split; [apply cl_access|done]. Qed.
Lemma ops_set v : all_ops P (set_context v).
Proof. split; [apply cl_context|done]. Qed.
Lemma ops_perform o : P o → all_ops P (perform o).
Proof. by split. Qed.

(** ** Several at once *)

Lemma ops_both (Q : drive_op → Prop) p q : Q OTurn → all_ops Q p → all_ops Q q → all_ops Q (both p q).
Proof.
  intros Hturn. revert q. induction p as [a|f|h|o k IH]; intros q Hp Hq; try (by destruct q).
  destruct Hp as [Ho Hk]. induction q as [a|f|h|o' k' IHq]; try done. destruct Hq as [Ho' Hk'].
  split; [done|]. intros [|]; (split; [done|]); intros x; [apply IH; [apply Hk|done]|apply IHq, Hk'].
Qed.
Lemma ops_pool_of stop queue log running :
  Forall (all_ops (or_yield P)) queue → all_ops (or_yield P) running → all_ops P (pool_of stop queue log running).
Proof.
  intros Hq. revert log running. induction Hq as [|p queue Hp Hq IHq]; intros log running Hr; revert log;
    (induction running as [| | |o k IH]; intros log; [done..|]); destruct Hr as [Ho Hk];
    destruct o; try (split; [exact Ho|]; intros x; apply IH, Hk); cbn; destruct (stop r); try done.
  - apply IH, Hk.
  - apply IHq, ops_both; [exact (cl_turn (P := P))|apply Hk|done].
Qed.
Lemma ops_pool stop limit l : Forall (all_ops P) l → all_ops P (pool stop limit l).
Proof.
  intros Hl.
  assert (Hparts : Forall (all_ops (or_yield P)) (imap branch l)).
  { apply Forall_forall. intros p Hp. apply elem_of_lookup_imap in Hp as (i&q&->&Hq).
    assert (all_ops (or_yield P) (reify q)) as Hr.
    { apply (ops_mono (or_yield P)); [by intros []|]. apply ops_reify.
      rewrite Forall_forall in Hl. by apply Hl, list_elem_of_lookup_2 with i. }
    unfold branch. generalize (reify q), Hr. clear. intros q' Hq'.
    induction q' as [| | |o k IH]; [by repeat split|done|done|]. destruct Hq' as [Ho Hk]. split; [done|].
    intros x. apply IH, Hk. }
  apply ops_pool_of; [by apply Forall_drop|].
  apply Forall_take with (n := limit) in Hparts. induction Hparts; [done|]. cbn. apply ops_both; auto. exact (cl_turn (P := P)).
Qed.
Lemma ops_imap {A} (f : nat → A → drive (value * option Flow)) l :
  (∀ i x, all_ops P (f i x)) → Forall (all_ops P) (imap f l).
Proof.
  intros Hf. apply Forall_forall. intros p Hp. by apply elem_of_lookup_imap in Hp as (i&q&->&_).
Qed.
End parts.

(** A program taken apart as it is written. *)
Create HintDb ops.
#[export] Hint Resolve ops_or_fault ops_or_panic ops_storage ops_access ops_get ops_shared ops_record_at ops_set : ops.
Ltac ops_step :=
  match goal with
  | |- all_ops _ (_ ≫= _) => apply ops_bind; [|intros ?]
  | |- all_ops _ (reify _) => apply ops_reify
  | |- all_ops _ (in_context _ _) => apply ops_in_context
  | |- all_ops _ (with_timer _ _) => apply ops_with_timer
  | |- all_ops _ (when_some _ _ _) => apply ops_when_some; intros ?
  | |- all_ops _ (pool _ _ _) => apply ops_pool; [typeclasses eauto|apply ops_imap; intros ? ?]
  | |- all_ops _ (if _ then _ else _) => apply ops_if
  | |- all_ops _ (match ?x with _ => _ end) => destruct x
  | |- all_ops _ (let _ := _ in _) => cbv zeta
  | |- all_ops _ (mret _) => exact I
  | |- all_ops _ (DFault _) => exact I
  | |- all_ops _ (DHalt _) => exact I
  | |- all_ops _ (DRet _) => exact I
  | |- Closed _ => typeclasses eauto
  | |- all_ops _ _ => solve [eauto with ops typeclass_instances]
  end.
Ltac ops := repeat ops_step.

(** ** What a program returns *)

(** What a program returns, if it returns, satisfies [Q], whatever it is answered. *)
Fixpoint returns {A} (Q : A → Prop) (p : drive A) : Prop :=
  match p with DRet a => Q a | DOp o k => ∀ x, returns Q (k x) | _ => True end.

Lemma returns_mono {A} (Q R : A → Prop) p : (∀ a, Q a → R a) → returns Q p → returns R p.
Proof. intros HQR. induction p as [a| | |o k IH]; cbn; auto. Qed.
Lemma returns_any {A} (p : drive A) : returns (λ _, True) p.
Proof. by induction p. Qed.
Lemma returns_bind {A B} Q (p : drive A) (f : A → drive B) : returns (λ a, returns Q (f a)) p → returns Q (p ≫= f).
Proof. induction p as [a| | |o k IH]; [done..|]. intros Hp x. apply IH, Hp. Qed.
Lemma returns_ret {A} (Q : A → Prop) a : Q a → returns Q (mret (M := drive) a).
Proof. done. Qed.
(** Where it does not matter what came before. *)
Lemma returns_after {A B} Q (p : drive A) (f : A → drive B) : (∀ a, returns Q (f a)) → returns Q (p ≫= f).
Proof. intros Hf. apply returns_bind. eapply returns_mono; [|apply returns_any]. auto. Qed.
Definition if_ok {A} (Q : A → Prop) (r : result Fault A) : Prop := match r with Ok a => Q a | Err _ => True end.
Definition if_some {A} (Q : A → Prop) (o : option A) : Prop := match o with Some a => Q a | None => True end.
Lemma returns_reify {A} Q (p : drive A) : returns Q p → returns (if_ok Q) (reify p).
Proof. induction p as [a| | |o k IH]; [done..|]. intros Hp x. apply IH, Hp. Qed.
Lemma returns_or_fault {A} Q (r : result Fault A) : if_ok Q r → returns Q (or_fault r).
Proof. by destruct r. Qed.
Lemma returns_timer {A} Q ms (p : drive A) : returns Q p → returns (if_some Q) (with_timer ms p).
Proof.
  induction p as [a| | |o k IH]; [done..|]. intros Hp. cbn. destruct (awaits o); [intros [x|]|intros x]; cbn;
    [apply IH, Hp|done|apply IH, Hp].
Qed.
(** In a match, a bind or after a part that does not matter. *)
Ltac returns_step :=
  match goal with
  | |- returns _ (_ ≫= _) => apply returns_after; intros ?
  | |- returns _ (match ?x with _ => _ end) => destruct x
  | |- returns _ (when_some ?o _ _) => destruct o; cbn [when_some]
  | |- returns _ (DFault _) => exact I
  | |- returns _ (DHalt _) => exact I
  | |- returns _ (mret _) => apply returns_ret
  end.
(** What a part asks for and returns, for what follows it. *)
Lemma ops_bind_returns {A B} P (Q : A → Prop) (p : drive A) (f : A → drive B) :
  all_ops P p → returns Q p → (∀ a, Q a → all_ops P (f a)) → all_ops P (p ≫= f).
Proof.
  intros Hp HQ Hf. induction p as [a| | |o k IH]; [by apply Hf|done|done|]. destruct Hp as [Ho Hk].
  split; [done|]. intros x. by apply IH.
Qed.
Lemma ops_imap_in {A} P (f : nat → A → drive (value * option Flow)) l :
  (∀ i x, x ∈ l → all_ops P (f i x)) → Forall (all_ops P) (imap f l).
Proof.
  intros Hf. apply Forall_forall. intros p Hp. apply elem_of_lookup_imap in Hp as (i&q&->&Hq).
  by apply Hf, list_elem_of_lookup_2 with i.
Qed.
