(* ===== verification/Saves.v ===== *)
(** * What a drive asks its host for

    The operations of a whole drive, whatever answers it is given: what it saves is
    redacted and under a key the next drive accepts, what it sends has the delivery
    the host demands, and the budget it spends is the run's. *)
From S2P Require Import Prelude Json Outcome Journal Expr Listen Secrets.
From S2P Require Import Drive Calls Branches Model Tasks Waits Compose Interp Execute Alone Ops.

(** ** Keys *)

Lemma contains_right p a b : contains_str p b = true → contains_str p (a +:+ b) = true.
Proof.
  intros Hb. induction a as [|x a IH]; [done|].
  change (starts_with p (String x (a +:+ b)) || contains_str p (a +:+ b) = true). rewrite IH. apply orb_true_r.
Qed.
Lemma contains_prefix p b : contains_str p (p +:+ b) = true.
Proof. destruct p as [|x p]; [by destruct b|].
  change (starts_with (String x p) (String x p +:+ b) || contains_str (String x p) (p +:+ b) = true).
  by rewrite starts_with_app. Qed.
Lemma contains_mid p a b : contains_str p (a +:+ p +:+ b) = true.
Proof. apply contains_right, contains_prefix. Qed.

Lemma ends_with_app suffix a : ends_with suffix (a +:+ suffix) = true.
Proof. unfold ends_with. rewrite strip_suffix_app. by apply bool_decide_eq_true. Qed.

Section saves.
Context `{Host, Functions, Formats} (su : Setup).

(** A wait as it may be reported: read back from a redacted value. *)
Definition reported (w : PendingWait) : Prop :=
  ∃ raw w', value_wait (redact_value (su_secrets su) raw) = Ok w' ∧ ∃ b, w = w' <| w_redacted := b |>.
(** A key under which a durable drive saves [r]. *)
Definition savable (key : string) (r : JRecord) : Prop := su_durable su = true ∧ key_allowed key r = true.
Fixpoint accounted (o : drive_op) : Prop :=
  match o with
  | OSave key r => ∃ r0, r = redact_record (su_secrets su) r0 ∧ savable key r0
  | OTake key _ => ∀ event, key_allowed key (REvent event) = true
  | OSpend key limit => limit = su_max_jumps su ∧ ∀ g n first, savable key (RBudget g n first)
  | ODispatch d =>
      (fn_at_most_once (dp_name d) (dp_args d) = true → dp_delivery d = AtMostOnce) ∧
      known_target (dp_target d) = true ∧ dp_name d = target_name (dp_target d) ∧
      dp_cooperative d = fn_cooperative (dp_name d)
  | OEvents (EvWaiting _ w) => reported w
  | OChild c => fn_children = true ∧ (cs_owned c = true → su_durable su = true)
  | OYield _ _ => False
  | ORace _ o => accounted o
  | _ => True
  end.
#[export] Instance accounted_closed : Closed accounted.
Proof. by split. Qed.
Local Abbreviation fine := (all_ops accounted).

Lemma fine_op o : accounted o → fine (perform o).
Proof. by split. Qed.
Lemma fine_note key r : fine (note key r).
Proof. unfold note. ops. Qed.
Lemma fine_save key r : key_allowed key r = true → fine (save (su_durable su) (su_secrets su) key r).
Proof.
  intros Hkey. unfold save. apply ops_bind; [destruct (su_durable su); [done|apply fine_note]|intros _].
  destruct (su_durable su) eqn:Ed; [|done].
  apply ops_bind; [ops|intros old]. apply ops_bind; [ops|intros _].
  apply ops_bind; [apply fine_op; by exists r|intros saved].
  apply ops_bind; [ops|intros _]. apply ops_bind; [apply fine_note|intros _]. ops.
Qed.
Lemma fine_tell e : accounted (OEvents e) → fine (tell e).
Proof. intros He. unfold tell. apply ops_bind; [by apply fine_op|intros r]. ops. Qed.

(** ** Calls, waits and events *)

#[local] Hint Resolve fine_note fine_save : ops.
Lemma ends_allowed_task ref a b : key_allowed (ref +:+ "#task") (RTask a b) = true.
Proof. apply ends_with_app. Qed.
Lemma ends_allowed_call ref c : key_allowed (ref +:+ "#call") (RCall c) = true.
Proof. apply ends_with_app. Qed.
Lemma ends_allowed_winner ref v : key_allowed (ref +:+ "#winner") (RWinner v) = true.
Proof. apply ends_with_app. Qed.
Lemma ends_allowed_jump ref g n first : key_allowed (ref +:+ "#jump") (RBudget g n first) = true.
Proof. apply ends_with_app. Qed.
Lemma ends_allowed_child ref event : key_allowed (ref +:+ "#child") (REvent event) = true.
Proof. cbn. by rewrite ends_with_app, orb_true_r. Qed.
Lemma ends_allowed_wait ref at_ : key_allowed (ref +:+ "#wait") (RTimer at_) = true.
Proof. cbn. by rewrite ends_with_app. Qed.
Lemma event_allowed ref n event : key_allowed (ref +:+ "#event[" +:+ n) (REvent event) = true.
Proof. cbn. by rewrite contains_mid. Qed.
Lemma retry_allowed ref n at_ : key_allowed (ref +:+ "#retry[" +:+ n) (RTimer at_) = true.
Proof. cbn. by rewrite contains_mid, orb_true_r. Qed.
Lemma attempt_allowed ref n at_ : key_allowed (ref +:+ "#attempt[" +:+ n) (RTimer at_) = true.
Proof. cbn. by rewrite contains_mid, orb_true_r. Qed.
Lemma decision_allowed ref n d : key_allowed (ref +:+ "#retry-decision[" +:+ n) (RRetry d) = true.
Proof. apply contains_mid. Qed.
#[local] Hint Resolve ends_allowed_task ends_allowed_call ends_allowed_winner ends_allowed_jump ends_allowed_child
  ends_allowed_wait event_allowed retry_allowed attempt_allowed decision_allowed : ops.
(** An operation by itself: [OAccess] and [OContext] are closed, the others are judged. *)
#[local] Hint Extern 1 (all_ops accounted (perform _)) => (apply fine_op; first [exact I|apply cl_context]) : ops.

Lemma fine_unknown_call key logical_ name args_ reference :
  (∀ c, key_allowed key (RCall c) = true) →
  fine (unknown_call (su_durable su) (su_secrets su) key logical_ name args_ reference).
Proof. intros Hkey. unfold unknown_call. ops. Qed.
Lemma fine_make_call t reference logical_ args_ delivery_ :
  (fn_at_most_once (target_name t) args_ = true → delivery_ = AtMostOnce) → known_target t = true →
  fine (make_call (su_durable su) (su_secrets su) t (reference +:+ "#call") logical_ args_ delivery_ reference).
Proof.
  intros Hd Ht. assert (Hkey := ends_allowed_call reference).
  assert (Hunknown := λ l n x, fine_unknown_call _ l n x reference Hkey).
  unfold make_call, answered_call, ephemeral_answer. do 3 (apply ops_bind; [ops|intros ?]).
  apply ops_bind; [by apply fine_op|]. intros [[r ann]|]; [|ops].
  destruct (annotated _ _ _) as [r' ann']. ops.
Qed.
Lemma fine_external_call t args_ reference declared :
  fine (external_call (su_durable su) (su_secrets su) t args_ reference declared).
Proof.
  assert (Hkey := ends_allowed_call reference).
  assert (Hunknown := λ l n x, fine_unknown_call _ l n x reference Hkey).
  unfold external_call. do 2 (apply ops_bind; [ops|intros ?]). apply ops_bind; [unfold restore_call; ops|].
  intros [v|]; [ops|]. destruct (known_target t) eqn:Ht; [|ops].
  apply ops_bind; [ops|intros s]. destruct (if decide _ then _ else _); [ops|].
  apply fine_make_call; [|done]. by intros ->.
Qed.
#[local] Hint Resolve fine_external_call : ops.

Definition timer_key (key : string) : Prop := ∀ at_, key_allowed key (RTimer at_) = true.
Lemma fine_sleep_for d key : timer_key key → fine (sleep_for su d key).
Proof. intros Hkey. unfold timer_key in Hkey. unfold sleep_for, sleep. ops. Qed.
Lemma fine_emit with_ reference input a : fine (emit su with_ reference input a).
Proof.
  assert (Hhand : ∀ l e, fine (hand_over su (reference +:+ "#call") l reference e)).
  { intros. unfold hand_over. ops. }
  unfold emit, fresh_envelope. ops.
Qed.
Lemma fine_tell_end e : (match e with EvWaiting _ _ => False | _ => True end) → fine (tell e).
Proof. intros He. apply fine_tell. by destruct e. Qed.
Lemma fine_args ctx input output task_ scope : fine (args su ctx input output task_ scope).
Proof. unfold args, run_argument. ops. Qed.
Lemma fine_conform_opt o v what : fine (conform_opt o v what).
Proof. unfold conform_opt, conform. ops. Qed.
Lemma fine_forget prefix : fine (forget_deadlines prefix).
Proof. unfold forget_deadlines. ops. Qed.
#[local] Hint Resolve fine_emit fine_args fine_conform_opt fine_forget : ops.
#[local] Hint Extern 1 (all_ops accounted (tell _)) => (apply fine_tell_end; exact I) : ops.
#[local] Hint Extern 1 (all_ops accounted (sleep_for _ _ _)) => (apply fine_sleep_for; intros ?) : ops.

Definition event_key (key : string) : Prop := ∀ event, key_allowed key (REvent event) = true.
Lemma fine_take_within fuel key routes hold : event_key key → fine (take_within su fuel key routes hold).
Proof.
  intros Hkey. induction fuel as [|fuel IH]; [done|]. cbn [take_within].
  apply ops_bind; [by apply fine_op|intros taken]. unfold event_key in Hkey. ops.
Qed.
Lemma fine_next_event fuel t reference key routes input scope desc deadline :
  event_key key → fine (next_event su fuel t reference key routes input scope desc deadline).
Proof.
  intros Hkey. assert (Htake : ∀ hold, fine (take_within su fuel key routes hold)) by (intros; by apply fine_take_within).
  assert (Hexpire : ∀ A d, fine (expire (A := A) reference key routes d)) by (intros; unfold expire; ops).
  unfold next_event. destruct (su_durable su) eqn:Ed; [ops|].
  apply ops_bind; [by apply fine_op|intros taken]. ops.
Qed.
Lemma fine_run_child run namespace name version template reference input a :
  fine (run_child su run namespace name version template reference input a).
Proof.
  unfold run_child, child_event, start_child, start_failed. apply ops_bind; [ops|intros child_input].
  destruct (negb fn_children) eqn:Ec; [ops|]. apply negb_false_iff in Ec.
  destruct (negb (run_await run)).
  { apply ops_bind; [|intros ?; ops]. apply ops_bind; [by apply fine_op|intros r]. ops. }
  apply ops_bind; [|intros ?; ops]. apply ops_bind; [ops|]. intros [[]|]; try solve [ops].
  destruct (su_durable su) eqn:Ed; [|exact I]. destruct (negb fn_events); [ops|]. cbn [negb].
  assert (Hsave : ∀ key r, key_allowed key r = true → fine (save true (su_secrets su) key r)) 
    by (intros ???; rewrite <- Ed; by apply fine_save).
  apply ops_bind; [apply ops_bind; [by apply fine_op|intros r; ops]|intros child].
  apply ops_bind; [ops|intros _]. apply ops_bind; [|intros taken; ops].
  apply fine_op. intros event. apply ends_allowed_child.
Qed.
#[local] Hint Resolve fine_run_child : ops.

(** ** Tasks *)

Section over_task.
Variable run_task : Task → string → string → value → Scope → drive (value * Flow).
Variable fuel : nat.
Hypothesis Htask : ∀ t name reference raw scope, fine (run_task t name reference raw scope).
#[local] Hint Resolve Htask : ops.

Lemma fine_run_argument visits : fine (run_argument su visits).
Proof. unfold run_argument. ops. Qed.
#[local] Hint Resolve fine_run_argument : ops.
Lemma fine_run_list tasks at_ input scope : fine (run_list su run_task fuel tasks at_ input scope).
Proof.
  unfold run_list. generalize (outer_visits scope) 0%nat (replicate (length tasks) 0) input. intros outer.
  induction fuel as [|n IH]; intros i visits data; [done|]. cbn [list_from]. ops.
Qed.
#[local] Hint Resolve fine_run_list : ops.
Lemma fine_select i l t input scope described : fine (select_extensions su i l t input scope described).
Proof. revert i. induction l as [|[name e] l IH]; intros i; [done|]. cbn [select_extensions]. ops. Qed.
#[local] Hint Resolve fine_select : ops.
Lemma fine_extensions t reference input scope desc : fine (extensions su t reference input scope desc).
Proof. unfold extensions. ops. Qed.
Lemma fine_layer l reference around inner data :
  (∀ v, fine (inner v)) → fine (layer su run_task fuel l reference around inner data).
Proof.
  intros Hinner. revert data. induction l as [|[[i name] e] l IH]; intros data; [apply Hinner|]. cbn [layer]. ops.
Qed.
Lemma fine_call t a reference delivery_ : fine (call su run_task t a reference delivery_).
Proof. unfold call. ops. Qed.
#[local] Hint Resolve fine_call fine_extensions : ops.
Lemma fine_run_process run reference input a delivery_ :
  fine (run_process su run_task run reference input a delivery_).
Proof. unfold run_process. ops. Qed.
Lemma fine_for_each items i each at_ condition tasks reference input scope desc data :
  fine (for_each su run_task fuel items i each at_ condition tasks reference input scope desc data).
Proof. revert i data. induction items as [|item items IH]; intros i data; [done|]. cbn [for_each]. ops. Qed.
Lemma fine_concurrent items each at_ limit tasks reference input scope :
  fine (concurrent su run_task fuel items each at_ limit tasks reference input scope).
Proof. unfold concurrent. ops. Qed.
Lemma fine_fork_branch at_ input ctx scope i b : fine (fork_branch run_task at_ input ctx scope i b).
Proof. unfold fork_branch. ops. Qed.
#[local] Hint Resolve fine_fork_branch : ops.
Lemma fine_fork branches compete at_ input scope : fine (fork su run_task branches compete at_ input scope).
Proof. unfold fork. ops. Qed.
#[local] Hint Resolve fine_run_process fine_for_each fine_concurrent fine_fork : ops.

Lemma fine_output_of o what out a : fine a → fine (output_of o what out a).
Proof. intros Ha. unfold output_of. ops. Qed.
Lemma fine_export_to e out a : (∀ ctx, fine (a ctx)) → fine (export_to e out a).
Proof. intros Ha. unfold export_to. ops. Qed.
#[local] Hint Extern 1 (all_ops accounted (output_of _ _ _ _)) => (apply fine_output_of; ops) : ops.
#[local] Hint Extern 1 (all_ops accounted (export_to _ _ _)) => (apply fine_export_to; intros ?; ops) : ops.
Lemma fine_foreach f reference n item scope : fine (foreach su run_task fuel f reference n item scope).
Proof. unfold foreach. ops. Qed.
Lemma fine_report_wait listen routes reference key p input scope desc deadline :
  fine (report_wait su listen routes reference key p input scope desc deadline).
Proof.
  unfold report_wait. do 4 (apply ops_bind; [ops|intros ?]). apply ops_bind; [ops|intros raw].
  destruct (value_wait _) as [w|e] eqn:Ew; [|done]. apply fine_tell. exists raw, w. split; [done|]. by eexists.
Qed.
#[local] Hint Resolve fine_foreach fine_report_wait : ops.
Lemma fine_listen_event t listen routes reference i p subscribed input scope desc deadline :
  fine (listen_event su fuel t listen routes reference (reference +:+ "#event[" +:+ i) p subscribed
          input scope desc deadline).
Proof.
  assert (Hnext : fine (next_event su fuel t reference (reference +:+ "#event[" +:+ i) routes input scope desc deadline)).
  { apply fine_next_event. intros event. apply event_allowed. }
  unfold listen_event. ops.
Qed.
#[local] Hint Resolve fine_listen_event : ops.
Lemma fine_run_listen t listen reference input scope desc deadline :
  fine (run_listen su run_task fuel t listen reference input scope desc deadline).
Proof.
  assert (Hfrom : ∀ n routes i p consumed outputs subscribed,
    fine (listen_from su run_task fuel n t listen routes reference i p consumed outputs subscribed
            input scope desc deadline)).
  { induction n as [|n IH]; intros routes i p consumed outputs subscribed; [done|]. cbn [listen_from]. ops. }
  unfold run_listen. ops.
Qed.
Lemma fine_within limit reference n attempt_ref body :
  fine body → fine (within su limit (reference +:+ "#attempt[" +:+ n) attempt_ref body).
Proof. intros Hbody. unfold within. ops. Qed.
Lemma fine_retry_delay r attempt began input a : fine (retry_delay su r attempt began input a).
Proof. unfold retry_delay. ops. Qed.
#[local] Hint Resolve fine_within fine_retry_delay : ops.
Lemma fine_decide_retry c reference n attempt_ref attempt began protected input a :
  fine (decide_retry su c (reference +:+ "#retry-decision[" +:+ n) attempt_ref attempt began protected input a).
Proof. unfold decide_retry. ops. Qed.
#[local] Hint Resolve fine_decide_retry : ops.
Lemma fine_attempt tasks c reference input scope desc :
  fine (attempt su run_task fuel tasks c reference input scope desc).
Proof.
  assert (Hfrom : ∀ n snapshot began k,
    fine (attempt_from su run_task fuel n tasks c reference input snapshot scope desc began k)).
  { induction n as [|n IH]; intros snapshot began k; [done|]. cbn [attempt_from]. unfold handle. ops. }
  unfold attempt. ops.
Qed.
#[local] Hint Resolve fine_run_listen fine_attempt : ops.
Lemma fine_kind t reference input scope desc deadline :
  fine (kind su run_task fuel t reference input scope desc deadline).
Proof. unfold kind. ops. Qed.
Lemma fine_jump reference : fine (jump (su_durable su) (su_secrets su) (su_max_jumps su) reference).
Proof.
  unfold jump, handler. apply ops_bind; [ops|intros inside]. destruct (decide _); [ops|].
  apply ops_bind; [ops|intros saved]. destruct saved; [ops|].
  apply ops_bind; [|intros spent; ops].
  destruct (su_durable su) eqn:Ed; [|done]. apply fine_op. split; [done|]. intros granted spent_ first. split; [done|].
  apply ends_allowed_jump.
Qed.
Lemma fine_exceeded reference first output scope : fine (exceeded su run_task reference first output scope).
Proof. unfold exceeded, act_on_exceeded, exit_exceeded. ops. Qed.
#[local] Hint Resolve fine_kind fine_jump fine_exceeded : ops.
Lemma fine_timed t reference started_ms limit body :
  (∀ d, fine (body d)) → fine (timed su t reference started_ms limit body).
Proof. intros Hbody. unfold timed, child_done, remaining. ops. Qed.
Lemma fine_guarded A reference deadline (p : drive A) : fine p → fine (guarded reference deadline p).
Proof. intros Hp. unfold guarded. ops. Qed.
#[local] Hint Extern 1 (all_ops accounted (timed _ _ _ _ _ _)) => (apply fine_timed; intros ?; ops) : ops.
#[local] Hint Extern 1 (all_ops accounted (layer _ _ _ _ _ _ _ _)) => (apply fine_layer; intros ?; ops) : ops.
Lemma fine_steps t name reference raw scope started_ms :
  fine (steps su run_task fuel t name reference raw scope started_ms).
Proof. unfold steps, finish_steps. repeat (ops || (apply fine_guarded; ops)). Qed.
#[local] Hint Resolve fine_steps : ops.
Lemma fine_task_body t name reference raw scope : fine (task_body su run_task fuel t name reference raw scope).
Proof. unfold task_body, enter_task, handler. ops. Qed.
End over_task.

Lemma fine_task fuel t name reference raw scope : fine (task su fuel t name reference raw scope).
Proof.
  revert t name reference raw scope. induction fuel as [|fuel IH]; intros; [done|]. by apply fine_task_body.
Qed.
#[local] Hint Resolve fine_task : ops.
#[local] Hint Extern 1 (all_ops accounted (run_list _ _ _ _ _ _ _)) => (apply fine_run_list; intros; apply fine_task) : ops.

Lemma fine_timed_workflow fuel started_ms input : fine (timed_workflow fuel su started_ms input).
Proof.
  assert (Hwf : fine (workflow fuel su input)).
  { unfold workflow, output_of. ops. }
  unfold timed_workflow, unknown_workflow, remaining. ops.
Qed.
Lemma fine_commit_end status : fine (commit_end su status).
Proof.
  unfold commit_end. destruct (terminal status) eqn:Et; [|done].
  apply ops_bind; [apply ops_reify, fine_save; exact Et|intros saved; ops].
Qed.
#[local] Hint Resolve fine_timed_workflow fine_commit_end : ops.

(** C4: every operation a drive can ever ask for, whatever the host, the journal, the
    clock, other branches and the scheduler answer, is accounted for: what it saves
    is the redaction of a record under a key that the next drive accepts, and only a
    durable run saves; an event is taken under such a key too; a budget unit is
    spent under a jump's key with the run's limit; a call is sent with the target's
    name and at most once when the host says so; a reported wait was read from a
    redacted one; an owned child is started by a durable run only. *)
Theorem drive_is_accountable fuel records started_ms runtime input :
  all_ops accounted (run_execution fuel su records started_ms runtime input).
Proof.
  unfold run_execution, body, conclude, begin_execution. ops.
Qed.
End saves.
