(* ===== verification/Traces.v ===== *)
(** * Traces of a drive

    [ends p t r]: the program [p] ends with [r] when its operations are answered as
    in [t]. Programs that run together make the interleavings of their traces. *)
From S2P Require Import Prelude Json Outcome Journal Secrets Drive Branches Alone Ops.

(** An operation with its answer. *)
Definition event : Type := sigT drive_answer.
Definition ev (o : drive_op) (x : drive_answer o) : event := existT o x.
Fixpoint ends {A} (p : drive A) (t : list event) (r : result stop A) : Prop :=
  match p with
  | DRet a => t = [] ∧ r = Ok a
  | DFault f => t = [] ∧ r = Err (Stopped f)
  | DHalt h => t = [] ∧ r = Err (Halted h)
  | DOp o k => ∃ x t', t = ev o x :: t' ∧ ends (k x) t' r
  end.

Lemma ends_bind {A B} (p : drive A) (f : A → drive B) t r :
  ends (p ≫= f) t r →
  (∃ a t1 t2, t = t1 ++ t2 ∧ ends p t1 (Ok a) ∧ ends (f a) t2 r) ∨ (∃ e, ends p t (Err e) ∧ r = Err e).
Proof.
  revert t. induction p as [a|e|h|o k IH]; intros t.
  - intros Ht. left. by exists a, [], t.
  - intros [-> ->]. right. by eexists.
  - intros [-> ->]. right. by eexists.
  - intros (x&t'&->&Hk). apply IH in Hk as [(a&t1&t2&->&H1&H2)|(e&He&->)].
    + left. exists a, (ev o x :: t1), t2. split; [done|]. split; [by exists x, t1|done].
    + right. exists e. split; [by exists x, t'|done].
Qed.
Lemma ends_reify {A} (p : drive A) t r :
  ends (reify p) t r →
  match r with
  | Ok (Ok a) => ends p t (Ok a)
  | Ok (Err f) => ends p t (Err (Stopped f))
  | Err (Halted h) => ends p t (Err (Halted h))
  | Err (Stopped _) => False
  end.
Proof.
  revert t. induction p as [a|e|h|o k IH]; intros t; try (by intros [-> ->]).
  intros (x&t'&->&Hk). apply IH in Hk. destruct r as [[]|[]]; try done; by exists x, t'.
Qed.

(** The trace of a program that runs alone. *)
Fixpoint traced {A} (env : Env) (p : drive A) (s : Shared) : list event :=
  match p with
  | DOp o k => let '(x, s, _) := answer env o s in ev o x :: traced env (k x) s
  | _ => []
  end.
Lemma traced_ends {A} env (p : drive A) s : ends p (traced env p s) (alone env p s).1.1.
Proof.
  revert s. induction p as [| | |o k IH]; intros s; [done..|]. cbn.
  destruct (answer env o s) as [[x s'] l]. specialize (IH x s').
  destruct (alone env (k x) s') as [[r s2] l2]. by exists x, (traced env (k x) s').
Qed.

(** ** Interleavings *)

Definition turn (b : bool) : event := ev OTurn b.
(** [m] is [l] and [r] interleaved, with the scheduler's turns. *)
Inductive merge : list event → list event → list event → Prop :=
| mg_nil : merge [] [] []
| mg_left e l r m : merge l r m → merge (e :: l) r (e :: m)
| mg_right e l r m : merge l r m → merge l (e :: r) (e :: m)
| mg_turn b l r m : merge l r m → merge l r (turn b :: m).
(** [m] is all of [ts] interleaved, with turns. *)
Fixpoint weave (ts : list (list event)) (m : list event) : Prop :=
  match ts with
  | [] => Forall (λ e, ∃ b, e = turn b) m
  | t :: ts => ∃ m', weave ts m' ∧ merge t m' m
  end.
Lemma merge_nil_l r : merge [] r r.
Proof. induction r; by constructor. Qed.
Lemma merge_nil_r l : merge l [] l.
Proof. induction l; by constructor. Qed.
Lemma merge_assoc l r t q m : merge l r t → merge t q m → ∃ m2, merge r q m2 ∧ merge l m2 m.
Proof.
  intros Hlr Htq. revert l r Hlr.
  induction Htq as [|e t q m H IH|e t q m H IH|b t q m H IH]; intros l r Hlr.
  - inversion Hlr. subst. exists []. by repeat constructor.
  - inversion Hlr as [|e' l' r' t' Hlr'|e' l' r' t' Hlr'|b l' r' t' Hlr']; subst; apply IH in Hlr' as (m2&H1&H2).
    + exists m2. split; [done|by constructor].
    + exists (e :: m2). split; by constructor.
    + exists m2. split; [done|by constructor].
  - apply IH in Hlr as (m2&H1&H2). exists (e :: m2). split; by constructor.
  - apply IH in Hlr as (m2&H1&H2). exists m2. split; [done|by constructor].
Qed.
Lemma weave_turns us u m : weave us u → merge [] u m → weave us m.
Proof.
  destruct us as [|t us]; cbn.
  - intros Hu Hm. remember [] as l eqn:El. revert Hu. induction Hm as [|e l r m H IH|e l r m H IH|b l r m H IH];
      intros Hu; [constructor|done|inversion Hu; subst; constructor; auto|constructor; eauto].
  - intros (u'&Hu&Ht) Hm. exists u'. split; [done|]. clear Hu. remember [] as l eqn:El. revert Ht. revert t u'.
    induction Hm as [|e l r m H IH|e l r m H IH|b l r m H IH]; intros t u' Ht; [done|done| |constructor; by apply IH].
    inversion Ht; subst; constructor; by apply IH.
Qed.
Lemma weave_app ts us t u m : weave ts t → weave us u → merge t u m → weave (ts ++ us) m.
Proof.
  revert t u m. induction ts as [|t0 ts IH]; intros t u m; cbn.
  - intros Ht Hu Hm. apply (weave_turns us u); [done|]. clear Hu. revert Ht.
    induction Hm as [|e l r m H IH|e l r m H IH|b l r m H IH]; intros Ht; [constructor| |constructor; auto|constructor; auto].
    inversion Ht as [|? ? [b ->] Hl]; subst. constructor. auto.
  - intros (t'&Ht&Hm0) Hu Hm. destruct (merge_assoc _ _ _ _ _ Hm0 Hm) as (m2&H1&H2). exists m2. eauto.
Qed.

(** Two parts that take turns and finish do so on an interleaving of their traces. *)
Lemma both_ends p q t :
  ends (both p q) t (Ok ()) → ∃ l r, ends p l (Ok ()) ∧ ends q r (Ok ()) ∧ merge l r t.
Proof.
  revert q t. induction p as [[]|f|h|o k IH]; intros q t.
  - intros Hq. assert (ends q t (Ok ())) by (by destruct q). exists [], t. split; [done|]. split; [done|apply merge_nil_l].
  - destruct q; by intros [].
  - destruct q; by intros [].
  - induction q as [[]|f|h|o' k' IHq] in t |- *; try (by intros []).
    + intros Hp. exists t, []. split; [exact Hp|]. split; [done|apply merge_nil_r].
    + intros ([|]&t1&->&x&t2&->&Hk).
      * apply IH in Hk as (l&r&Hl&Hr&Hm). exists (ev o x :: l), r.
        split; [by exists x, l|]. split; [exact Hr|]. by repeat constructor.
      * apply IHq in Hk as (l&r&Hl&Hr&Hm). exists l, (ev o' x :: r).
        split; [exact Hl|]. split; [by exists x, r|]. by repeat constructor.
Qed.

(** ** Yields *)

(** What a trace yields, and the trace without. *)
Definition yielded (e : event) : option (nat * branch_result) :=
  match e with existT (OYield i r) _ => Some (i, r) | _ => None end.
Definition yields (t : list event) : list (nat * branch_result) := omap yielded t.
Definition unyielded (t : list event) : list event := filter (λ e, yielded e = None) t.

Lemma yields_merge l r m : merge l r m → yields m ≡ₚ yields l ++ yields r.
Proof.
  intros Hm. induction Hm as [|e l r m H IH|e l r m H IH|b l r m H IH]; [done| | |done]; unfold yields in *; cbn;
    destruct (yielded e); rewrite ?IH; [done..| |done]. apply Permutation_middle.
Qed.
Lemma yields_weave ts m : weave ts m → yields m ≡ₚ concat (yields <$> ts).
Proof.
  revert m. induction ts as [|t ts IH]; intros m; cbn.
  - intros Hm. induction Hm as [|e m [b ->] Hm IH]; [done|exact IH].
  - intros (m'&Hts&Hm). by rewrite (yields_merge _ _ _ Hm), (IH m').
Qed.

(** ** Pools *)

(** A part that does not finish without a yield. *)
Definition yielding (p : drive unit) : Prop := ∀ t, ends p t (Ok ()) → yields t ≠ [].
Definition is_yield (o : drive_op) : Prop := match o with OYield _ _ => True | _ => False end.
Lemma pool_of_op stop queue log o k :
  ¬ is_yield o → pool_of stop queue log (DOp o k) = DOp o (λ x, pool_of stop queue log (k x)).
Proof. destruct queue, o; try done; intros []; exact I. Qed.
Lemma pool_of_yield stop queue log i r k :
  pool_of stop queue log (DOp (OYield i r) k) =
  if stop r then DRet (inl r)
  else match queue with
       | [] => pool_of stop [] (log ++ [(i, r)]) (k tt)
       | p :: queue => pool_of stop queue (log ++ [(i, r)]) (both (k tt) p)
       end.
Proof. by destruct queue. Qed.
Lemma yielding_op o k x : ¬ is_yield o → yielding (DOp o k) → yielding (k x).
Proof.
  intros Ho Hk t Ht. specialize (Hk (ev o x :: t)). unfold yields in *. cbn in Hk.
  destruct o; try (apply Hk; by exists x, t). by destruct Ho.
Qed.
Lemma yielding_both p q : yielding q → yielding (both p q).
Proof.
  intros Hq t Ht. apply both_ends in Ht as (l&r&_&Hr&Hm). apply yields_merge in Hm.
  apply Hq in Hr. intros E. rewrite E in Hm. apply Permutation_nil_l in Hm.
  symmetry in Hm. by apply app_eq_nil in Hm as [_ ?].
Qed.

(** Every part of a pool ran to its end: what it did is an interleaving of what they
    did, and it has what they yielded, as it came. *)
Definition pooled (stop : branch_result → bool) (queue : list (drive unit)) (log : list (nat * branch_result))
    (running : drive unit) (t : list event) (log' : list (nat * branch_result)) : Prop :=
  ∃ t0 ts m, ends running t0 (Ok ()) ∧ Forall2 (λ p t, ends p t (Ok ())) queue ts ∧ weave (t0 :: ts) m ∧
    t = unyielded m ∧ log' = log ++ yields m ∧ Forall (λ x, stop x.2 = false) (yields m).
Lemma yields_op o x t : ¬ is_yield o → yields (ev o x :: t) = yields t.
Proof. destruct o; try done; by intros []. Qed.
Lemma unyielded_op o x t : ¬ is_yield o → unyielded (ev o x :: t) = ev o x :: unyielded t.
Proof. destruct o; try done; by intros []. Qed.
Lemma pooled_op stop queue log o k x t log' :
  ¬ is_yield o → pooled stop queue log (k x) t log' → pooled stop queue log (DOp o k) (ev o x :: t) log'.
Proof.
  intros Ho (t0&ts&m&Hr&Hq&(m'&Hts&Hm)&->&->&Hstop). exists (ev o x :: t0), ts, (ev o x :: m).
  rewrite yields_op, unyielded_op by done.
  split; [by exists x, t0|]. split; [done|]. split; [exists m'; by repeat constructor|done].
Qed.
Lemma pooled_yield stop log i r k t log' :
  stop r = false → pooled stop [] (log ++ [(i, r)]) (k tt) t log' → pooled stop [] log (DOp (OYield i r) k) t log'.
Proof.
  intros Hr (t0&ts&m&H0&Hq&(m'&Hts&Hm)&->&->&Hstop). exists (ev (OYield i r) tt :: t0), ts, (ev (OYield i r) tt :: m).
  split; [by exists tt, t0|]. split; [done|]. split; [exists m'; by repeat constructor|].
  split; [done|]. split; [by rewrite <- app_assoc|]. by constructor.
Qed.
Lemma pooled_next stop p queue log i r k t log' :
  stop r = false → pooled stop queue (log ++ [(i, r)]) (both (k tt) p) t log' →
  pooled stop (p :: queue) log (DOp (OYield i r) k) t log'.
Proof.
  intros Hr (t0&ts&m&H0&Hq&(m'&Hts&Hm)&->&->&Hstop). apply both_ends in H0 as (tl&tp&Hl&Hp&Hlp).
  destruct (merge_assoc _ _ _ _ _ Hlp Hm) as (m2&H1&H2).
  exists (ev (OYield i r) tt :: tl), (tp :: ts), (ev (OYield i r) tt :: m).
  split; [by exists tt, tl|]. split; [by constructor|].
  split; [exists m2; split; [by exists m'|by constructor]|].
  split; [done|]. split; [by rewrite <- app_assoc|]. by constructor.
Qed.
Lemma pool_of_ends stop queue log running t log' :
  (queue = [] ∨ yielding running) → Forall yielding queue →
  ends (pool_of stop queue log running) t (Ok (inr log')) → pooled stop queue log running t log'.
Proof.
  revert log running t. induction queue as [|p queue IHq]; intros log running t Hr Hq; revert log t;
    (induction running as [[]|f|h|o k IH]; intros log t Ht).
  1: { destruct Ht as [-> [= ->]]. exists [], [], []. rewrite app_nil_r.
       repeat split; try constructor. exists []. by repeat constructor. }
  1,2: by destruct Ht.
  2: { destruct Hr as [|Hr]; [done|]. by destruct (Hr [] (conj eq_refl eq_refl)). }
  2,3: by destruct Ht.
  - assert (Hy : is_yield o ∨ ¬ is_yield o) by (destruct o; cbn; auto). destruct Hy as [Hy|Hy].
    + destruct o; try done. rewrite pool_of_yield in Ht. destruct (stop r) eqn:Er; [by destruct Ht|].
      apply pooled_yield; [done|]. apply IH; auto.
    + rewrite pool_of_op in Ht by done. destruct Ht as (x&t'&->&Ht). apply pooled_op; [done|]. apply IH; auto.
  - assert (Hy : is_yield o ∨ ¬ is_yield o) by (destruct o; cbn; auto). destruct Hy as [Hy|Hy].
    + destruct o; try done. rewrite pool_of_yield in Ht. destruct (stop r) eqn:Er; [by destruct Ht|].
      inversion Hq. apply pooled_next; [done|]. apply IHq; [right; by apply yielding_both|done|done].
    + rewrite pool_of_op in Ht by done. destruct Ht as (x&t'&->&Ht). apply pooled_op; [done|].
      apply IH; [right; destruct Hr as [|Hr]; [done|by apply (yielding_op o)]|done].
Qed.

(** ** Pools of branches *)

Definition unyielding {A} (p : drive A) : Prop := all_ops (λ o, ¬ is_yield o) p.
Lemma unyielding_trace {A} (p : drive A) t r : unyielding p → ends p t r → yields t = [] ∧ unyielded t = t.
Proof.
  revert t. induction p as [| | |o k IH]; intros t; try by intros _ [-> _].
  intros [Ho Hk] (x&t'&->&Ht). rewrite yields_op, unyielded_op by done.
  by destruct (IH x t' (Hk x) Ht) as [-> ->].
Qed.
Lemma branch_ends i p t :
  unyielding p → ends (branch i p) t (Ok ()) →
  ∃ r, ends (reify p) (unyielded t) (Ok r) ∧ yields t = [(i, r)].
Proof.
  intros Hp Ht. unfold branch in Ht. apply ends_bind in Ht as [(r&t1&t2&->&H1&x&t3&->&->&_)|(e&_&[=])].
  destruct (unyielding_trace (reify p) t1 (Ok r)) as [Hy Hu]; [by apply ops_reify|done|].
  exists r. unfold yields, unyielded in *. rewrite omap_app, filter_app, Hy, Hu. cbn. by rewrite app_nil_r.
Qed.
Lemma branch_yielding i p : unyielding p → yielding (branch i p).
Proof. intros Hp t Ht. apply branch_ends in Ht as (r&_&->); done. Qed.
Lemma weave_unyielded ts m : weave ts m → weave (unyielded <$> ts) (unyielded m).
Proof.
  revert m. induction ts as [|t ts IH]; intros m; cbn.
  - intros Hm. induction Hm as [|e m [b ->] Hm IH]; [constructor|]. constructor; eauto.
  - intros (m'&Hts&Hm). exists (unyielded m'). split; [by apply IH|]. clear Hts IH. unfold unyielded.
    induction Hm as [|e l r m H IH|e l r m H IH|b l r m H IH]; [constructor| | |exact (mg_turn b _ _ _ IH)];
      (destruct (decide (yielded e = None)) as [He|He];
       [rewrite !(filter_cons_True _ e) by done; by constructor|by rewrite !(filter_cons_False _ e) by done]).
Qed.
Lemma running_ends l t :
  ends (foldr both (DRet ()) l) t (Ok ()) → ∃ ts, Forall2 (λ p t, ends p t (Ok ())) l ts ∧ weave ts t.
Proof.
  revert t. induction l as [|p l IH]; intros t; cbn [foldr].
  - intros [-> _]. exists []. by repeat constructor.
  - intros Ht. apply both_ends in Ht as (tp&tl&Hp&Hl&Hm). apply IH in Hl as (ts&Hts&Hw).
    exists (tp :: ts). split; [by constructor|]. by exists tl.
Qed.

Lemma branches_end n l ts :
  Forall unyielding l → Forall2 (λ p t, ends p t (Ok ())) (imap (λ i, branch (n + i)) l) ts →
  ∃ rs, Forall2 (λ p x, ends (reify p) x.1 (Ok x.2)) l (zip (unyielded <$> ts) rs) ∧ length ts = length rs ∧
    concat (yields <$> ts) = imap (λ i r, ((n + i)%nat, r)) rs.
Proof.
  revert n ts. induction l as [|p l IH]; intros n ts Hl Hts.
  - inversion Hts. subst. exists []. repeat split; constructor.
  - rewrite imap_cons in Hts. inversion Hts as [|? t ? ts' Ht Hts']. subst. inversion Hl. subst.
    rewrite (imap_ext _ (λ i, branch (S n + i))) in Hts' by (intros; f_equal/=; lia).
    destruct (IH (S n) ts') as (rs&H4&Hlen&H5); [done..|].
    apply branch_ends in Ht as (r&Hr&Hy); [|done]. exists (r :: rs).
    split; [by constructor|]. split; [cbn; by rewrite Hlen|]. rewrite imap_cons. cbn. rewrite Hy, H5. cbn.
    f_equal. apply imap_ext. intros. f_equal/=. lia.
Qed.
Lemma pool_ends stop limit l t log :
  (0 < limit)%nat → Forall unyielding l → ends (pool stop limit l) t (Ok (inr log)) →
  ∃ ts rs, Forall2 (λ p x, ends (reify p) x.1 (Ok x.2)) l (zip ts rs) ∧ length ts = length rs ∧
    Forall (λ r, stop r = false) rs ∧ weave ts t ∧ log ≡ₚ imap pair rs.
Proof.
  intros Hlimit Hl Ht. unfold pool in Ht.
  assert (Hy : Forall yielding (imap branch l)).
  { apply Forall_forall. intros p Hp. apply elem_of_lookup_imap in Hp as (i&q&->&Hq).
    apply branch_yielding. rewrite Forall_forall in Hl. by apply Hl, list_elem_of_lookup_2 with i. }
  apply pool_of_ends in Ht; [| |by apply Forall_drop].
  2: { destruct limit as [|limit]; [lia|]. destruct (imap branch l) as [|p parts]; [by left|]. right.
       cbn. inversion Hy. subst. clear -H1. intros t Ht. apply both_ends in Ht as (tp&tl&Hp&_&Hm).
       apply H1 in Hp. apply yields_merge in Hm. intros E. rewrite E in Hm. symmetry in Hm.
       apply Permutation_nil_r in Hm. by apply app_eq_nil in Hm as [? _]. }
  destruct Ht as (t0&tq&m&Hr&Hq&(m'&Hwq&Hm)&->&->&Hstop). apply running_ends in Hr as (tr&Hr&Hwr).
  assert (Hall : Forall2 (λ p t, ends p t (Ok ())) (imap branch l) (tr ++ tq)).
  { rewrite <- (take_drop limit (imap branch l)). by apply Forall2_app. }
  assert (Hw : weave (tr ++ tq) m) by (by apply (weave_app _ _ t0 m')).
  destruct (branches_end 0 l (tr ++ tq) Hl Hall) as (rs&H1&Hlen&H2).
  exists (unyielded <$> (tr ++ tq)), rs. split; [done|]. split; [by rewrite length_fmap|].
  assert (Hy2 := yields_weave _ _ Hw). rewrite H2 in Hy2. cbn [app]. split; [|split; [by apply weave_unyielded|done]].
  rewrite Hy2 in Hstop. apply Forall_forall. intros r Hin. rewrite Forall_forall in Hstop.
  apply list_elem_of_lookup in Hin as [i Hi]. apply (Hstop (i, r)). apply elem_of_lookup_imap. by exists i, r.
Qed.
