(* ===== verification/PoolSpec.v ===== *)
(** * Iterations that run together

    [Compose.concurrent]: a [for] with [concurrency], whatever the order in which the
    scheduler lets the iterations go on. *)
From S2P Require Import Prelude Json Outcome Journal Expr Listen Secrets.
From S2P Require Import Drive Calls Branches Model Tasks Waits Compose Interp Execute Alone Ops Saves Traces.
From S2P Require Import Samples DriveSamples.

(** ** What the results of iterations make *)

Definition stop_of (r : result Fault Next) : option Fault :=
  match r with Ok _ | Err (FtWaiting _) => None | Err f => Some f end.
Definition wait_of (r : result Fault Next) : option Z := match r with Err (FtWaiting d) => Some d | _ => None end.
Definition output_of_next (r : result Fault Next) : option value :=
  match r with Ok n => Some (fst (ended n)) | Err _ => None end.
Definition ends_workflow (r : result Fault Next) : bool := match r with Ok (NEnd _) => true | _ => false end.
(** The first fault that is no wait, in item order; else the earliest wait; else the
    outputs in item order, and the end of the workflow if an iteration asked for it. *)
Definition together (rs : list (result Fault Next)) : result Fault (value * option Flow) :=
  match head (omap stop_of rs), omap wait_of rs with
  | Some f, _ => Err f
  | None, d :: ds => Err (FtWaiting (foldl Z.min d ds))
  | None, [] => Ok (VArr (omap output_of_next rs), if existsb ends_workflow rs then Some End_ else None)
  end.
Definition of_next (r : result Fault Next) : branch_result := match r with Ok n => Ok (ended n) | Err f => Err f end.

Lemma gather_from rs out wake e :
  gather (of_next <$> rs) out wake e =
  match head (omap stop_of rs), wake with
  | Some f, _ => Err f
  | None, Some w => Err (FtWaiting (foldl Z.min w (omap wait_of rs)))
  | None, None =>
      match omap wait_of rs with
      | d :: ds => Err (FtWaiting (foldl Z.min d ds))
      | [] => Ok (VArr (out ++ omap output_of_next rs), if existsb ends_workflow rs then Some End_ else e)
      end
  end.
Proof.
  revert out wake e. induction rs as [|r rs IH]; intros out wake e.
  - cbn. destruct wake; [done|]. by rewrite app_nil_r.
  - destruct r as [n|f]; cbn.
    + destruct n; cbn; rewrite IH, <- ?app_assoc; cbn; [done..|].
      by destruct (existsb ends_workflow rs).
    + destruct f; try done. cbn. rewrite IH. destruct (head _); [done|]. by destruct wake.
Qed.
Lemma gather_together rs : gather (of_next <$> rs) [] None None = together rs.
Proof. rewrite gather_from. unfold together. by destruct (head _), (omap wait_of rs). Qed.

(** The results of a pool by item, whatever the order they came in. *)
Lemma result_of_log (log : list (nat * branch_result)) rs :
  log ≡ₚ imap pair rs → result_of log <$> seq 0 (length rs) = rs.
Proof.
  intros Hlog. apply list_eq. intros i. rewrite list_lookup_fmap.
  destruct (decide (i < length rs)%nat) as [Hi|Hi].
  - rewrite lookup_seq_lt by done. cbn.
    apply lookup_lt_is_Some in Hi as [r Hr]. rewrite Hr. f_equal. unfold result_of.
    assert (Hin : (i, r) ∈ log). { rewrite Hlog. apply elem_of_lookup_imap. by exists i, r. }
    destruct (list_find _ log) as [[j [k r']]|] eqn:Ef.
    + apply list_find_Some in Ef as (Hj&Hk&_). cbn in Hk. subst k.
      apply list_elem_of_lookup_2 in Hj. rewrite Hlog in Hj. apply elem_of_lookup_imap in Hj as (k&r0&[= <- <-]&Hr0).
      congruence.
    + apply list_find_None in Ef. rewrite Forall_forall in Ef. by destruct (Ef _ Hin).
  - rewrite lookup_seq_ge by lia. cbn. symmetry. apply lookup_ge_None. lia.
Qed.

(** ** Programs that do not fault *)

Fixpoint calm {A} (p : drive A) : Prop :=
  match p with DFault _ => False | DOp _ k => ∀ x, calm (k x) | _ => True end.
Lemma calm_ends {A} (p : drive A) t f : calm p → ¬ ends p t (Err (Stopped f)).
Proof.
  revert t. induction p as [| | |o k IH]; intros t Hp; [by intros [_ ?]|done|by intros [_ ?]|].
  intros (x&t'&_&Hk). by apply (IH x t').
Qed.
Lemma calm_branch i p : calm (branch i p).
Proof. unfold branch. induction p as [| | |o k IH]; cbn; done || (intros x; apply IH). Qed.
Lemma calm_both p q : calm p → calm q → calm (both p q).
Proof.
  revert q. induction p as [[]|f|h|o k IH]; intros q Hp Hq; [by destruct q|done|by destruct q|].
  induction q as [[]|f|h|o' k' IHq]; try done. cbn. intros [|] x; [by apply IH|by apply IHq].
Qed.
Lemma calm_pool_of stop queue log running : Forall calm queue → calm running → calm (pool_of stop queue log running).
Proof.
  intros Hq. revert log running. induction Hq as [|p queue Hp Hq IHq]; intros log running Hr; revert log;
    (induction running as [| | |o k IH]; intros log; [done..|]);
    (assert (Hy : is_yield o ∨ ¬ is_yield o) by (destruct o; cbn; auto)); destruct Hy as [Hy|Hy];
    try (rewrite pool_of_op by done; intros x; apply IH, Hr);
    (destruct o; try done; rewrite pool_of_yield; destruct (stop r); [done|]).
  - apply IH, Hr.
  - apply IHq, calm_both; [apply Hr|done].
Qed.
Lemma calm_pool stop limit l : calm (pool stop limit l).
Proof.
  assert (Hl : Forall calm (imap branch l)).
  { apply Forall_forall. intros p Hp. apply elem_of_lookup_imap in Hp as (i&q&->&_). apply calm_branch. }
  apply calm_pool_of; [by apply Forall_drop|]. apply Forall_take with (n := limit) in Hl.
  induction Hl; [done|]. by apply calm_both.
Qed.
(** Nothing stops a pool that no result stops. *)
Lemma pool_of_stopped stop queue log running t r :
  ends (pool_of stop queue log running) t (Ok (inl r)) → stop r = true.
Proof.
  revert log running t. induction queue as [|p queue IHq]; intros log running t; revert log t;
    (induction running as [| | |o k IH]; intros log t; [by intros [_ ?]..|]);
    (assert (Hy : is_yield o ∨ ¬ is_yield o) by (destruct o; cbn; auto)); destruct Hy as [Hy|Hy];
    try (rewrite pool_of_op by done; intros (x&t'&->&Ht); by apply IH in Ht);
    (destruct o; try done; rewrite pool_of_yield; destruct (stop r0) eqn:Er; [by intros [_ [= ->]]|]).
  - apply IH.
  - apply IHq.
Qed.
Lemma in_context_calm {A} c (p : drive A) : calm (in_context c p).
Proof.
  revert c. induction p as [| | |o k IH]; intros c; [done..|]. destruct o; cbn; try (intros x; apply IH). apply IH.
Qed.

Section concurrent.
Context `{Host, Functions, Formats} (su : Setup) (fuel turns : nat).
Variables (items : list value) (each at_ : string) (limit : nat) (tasks : TaskList).
Variables (reference : string) (input : value) (scope : Scope).

(** The [i]th iteration, alone with its copy [c] of the context. *)
Definition iterate (c : value) (i : nat) (item : value) : drive (result Fault Next * value) :=
  in_context c (run_list su (task su fuel) turns tasks (reference +:+ "[" +:+ pretty i +:+ "]/do") input
                  (iteration scope each at_ item i)).
Definition iterated (c : value) (i : nat) (item : value) : drive (value * option Flow) :=
  '(r, _) ← iterate c i item; next ← or_fault r; mret (ended next).

Lemma iterated_unyielding c i item : unyielding (iterated c i item).
Proof.
  apply (ops_mono (accounted su)). { intros o Ho Hy. by destruct o. }
  unfold iterated, iterate. apply ops_bind; [|intros [[] ?]; exact I].
  apply ops_in_context, fine_run_list. intros. apply fine_task.
Qed.
Lemma iterated_ends c i item t r :
  ends (reify (iterated c i item)) t (Ok r) → ∃ x c', ends (iterate c i item) t (Ok (x, c')) ∧ r = of_next x.
Proof.
  intros Ht. apply ends_reify in Ht. unfold iterated in Ht.
  assert (Hbind : ∀ r', ends ('(r, _) ← iterate c i item; next ← or_fault r; mret (ended next)) t r' →
    (∃ x c', ends (iterate c i item) t (Ok (x, c')) ∧ r' = match of_next x with Ok a => Ok a | Err f => Err (Stopped f) end)
    ∨ ∃ h, r' = Err (Halted h)).
  { intros r' Hr. apply ends_bind in Hr as [([x c']&t1&t2&->&Hit&Hrest)|([f|h]&He&->)].
    - left. exists x, c'. destruct x as [n|f]; destruct Hrest as [-> ->]; by rewrite app_nil_r.
    - by destruct (calm_ends _ _ _ (in_context_calm _ _) He).
    - right. by exists h. }
  destruct r as [a|f]; apply Hbind in Ht as [(x&c'&Hx&E)|[h [=]]]; exists x, c'; (split; [done|]);
    by destruct (of_next x); simplify_eq.
Qed.

Lemma iterations_end c n l ts rs :
  Forall2 (λ p x, ends (reify p) x.1 (Ok x.2)) (imap (λ i, iterated c (n + i)) l) (zip ts rs) →
  length ts = length rs →
  ∃ xs, length xs = length l ∧ rs = of_next <$> xs ∧ length ts = length l ∧
    ∀ i item ti ri, l !! i = Some item → ts !! i = Some ti → xs !! i = Some ri →
      ∃ c', ends (iterate c (n + i) item) ti (Ok (ri, c')).
Proof.
  revert n ts rs. induction l as [|item l IH]; intros n ts rs Hall Hlen.
  - destruct ts, rs; try done; [|by inversion Hall]. by exists [].
  - rewrite imap_cons in Hall. destruct ts as [|t ts], rs as [|r rs]; try done; [by inversion Hall|].
    inversion Hall as [|? ? ? ? Ht Hall']. subst.
    rewrite (imap_ext _ (λ i, iterated c (S n + i))) in Hall' by (intros; f_equal/=; lia).
    destruct (IH (S n) ts rs Hall') as (xs&Hxs&->&Hts&Hi); [by injection Hlen|].
    cbn [fst snd] in Ht. apply iterated_ends in Ht as (x&c'&Hx&->). exists (x :: xs). cbn. rewrite Hxs, Hts. split_and!; [done..|].
    intros [|i] item' ti ri Hitem Hti Hri; cbn in Hitem, Hti, Hri.
    + injection Hitem as <-. injection Hti as <-. injection Hri as <-. by exists c'.
    + replace (n + S i)%nat with (S n + i)%nat by lia. by apply Hi.
Qed.

(** C7: a concurrent [for] runs every iteration to its end, and the order in which they
    go on does not show: if it ends, each iteration ended on its own operations and
    answers, with its own copy of the context, the operations of the whole are an
    interleaving of theirs, and the result is that of the iterations in item order:
    the first fault, else the earliest wait, else the outputs. *)
Theorem concurrent_in_item_order t r :
  (0 < limit)%nat →
  ends (concurrent su (task su fuel) turns items each at_ limit tasks reference input scope) t r →
  (∃ h, r = Err (Halted h)) ∨
  ∃ c t' ts (rs : list (result Fault Next)),
    t = ev (OContext id) c :: t' ∧ weave ts t' ∧ length ts = length items ∧ length rs = length items ∧
    (∀ i item ti ri, items !! i = Some item → ts !! i = Some ti → rs !! i = Some ri →
       ∃ c', ends (iterate c i item) ti (Ok (ri, c'))) ∧
    r = match together rs with Ok x => Ok x | Err f => Err (Stopped f) end.
Proof.
  intros Hlimit Ht. unfold concurrent in Ht.
  apply ends_bind in Ht as [(c0&t1&t'&->&(c&t0&->&->&[= ->])&Ht)|(e&(x&t0&_&_&[=])&_)]. cbv zeta in Ht.
  fold (iterated c) in Ht.
  apply ends_bind in Ht as [(d&t1&t2&->&Hpool&Hr)|([f|h]&He&->)].
  2: { by destruct (calm_ends _ _ _ (calm_pool _ _ _) He). }
  2: { left. by exists h. }
  destruct d as [d|log]. { by apply pool_of_stopped in Hpool. }
  right. apply pool_ends in Hpool as (ts&rs&Hend&Hlen&_&Hw&Hlog); [|done|].
  2: { apply Forall_forall. intros p Hp. apply elem_of_lookup_imap in Hp as (i&item&->&_). apply iterated_unyielding. }
  destruct (iterations_end c 0 items ts rs Hend Hlen) as (xs&Hxs&->&Hts&Hall).
  cbn [of_next] in Hr. rewrite <- Hxs in Hr.
  assert (Hres := result_of_log log _ Hlog). rewrite length_fmap in Hres. rewrite Hres, gather_together in Hr.
  exists c, (t1 ++ t2), ts, xs.
  assert (t2 = [] ∧ r = match together xs with Ok x => Ok x | Err f => Err (Stopped f) end) as [-> ->].
  { by destruct (together xs). }
  rewrite app_nil_r. split_and!; done.
Qed.
End concurrent.

Definition demo_concurrent : drive (value * option Flow) :=
  concurrent demo_setup
    (task (H := jumps_host) (H0 := demo_functions) (H1 := demo_formats) demo_setup 5) 5 [vint 1; vint 2] "item" "i" 2
    [("b", plain (KCall "f" (Some (VObj {["x" := VStr "${ $item }"]}))) None)] "/do/0/each" VNull [].
Lemma concurrent_in_item_order_witness :
  ∃ rs, together rs = Ok (VArr [vint 7; vint 7], None) ∧ length rs = 2%nat.
Proof.
  assert (Hdone : (alone demo_env demo_concurrent empty_shared).1.1 = Ok (VArr [vint 7; vint 7], None))
    by (vm_compute; reflexivity).
  destruct (concurrent_in_item_order (H := jumps_host) (H0 := demo_functions) (H1 := demo_formats) demo_setup 5 5
    [vint 1; vint 2] "item" "i" 2 _ "/do/0/each" VNull []
    (traced demo_env demo_concurrent empty_shared) (alone demo_env demo_concurrent empty_shared).1.1
    ltac:(lia) (traced_ends _ _ _)) as [[h Hr]|(c&t'&ts&rs&_&_&_&Hlen&_&Hr)]; rewrite Hdone in Hr; [done|].
  exists rs. split; [|exact Hlen]. destruct (together rs) as [x|f]; [by injection Hr as <-|done].
Defined.
