(* ===== verification/Lease.v ===== *)
(** * The lease adapter

    [crates/durable/src/lib.rs], [Lease]: a worker's fence bound to the seams the
    interpreter reaches its journal and its events through. Each call is one
    operation of the store, at the clock's time. *)
From S2P Require Import Prelude Json Outcome Journal Listen Types Store Admit RunStore Drive.

Section lease.
Context `{Host}.
Variable policy : Policy.
(** [Lease]: the store is the rows its programs run on, the clock's time an argument. *)
Variable fence : Fence.

(** ** [Journal for Lease] *)

Definition lease_load (now : Z) : prog (list (string * JRecord)) := load_records_tx policy fence now.
Definition lease_save (key : string) (record : JRecord) (now : Z) : prog unit :=
  save_record_tx policy fence key record now.
Definition lease_spend (key : string) (limit now : Z) : prog (option JRecord) :=
  record ← spend_tx policy fence key limit now; mret (Some record).

(** ** [Events for Lease] *)

Definition lease_run (run_id : string) : prog unit :=
  ensure (bool_decide (run_id = f_run_id fence)) (EMsg "event run does not own this lease").
Definition lease_event (run_id : string) (e : events_op) (now : Z) : prog unit :=
  _ ← lease_run run_id;
  match e with
  | EvWaiting key wait => describe_wait_tx policy fence key wait now
  | EvRegister types => register_wait_tx policy fence types now
  | EvUnregister key types => unregister_wait_tx policy fence key types now
  | EvSubscribe key types => subscribe_tx policy fence key types now
  | EvUnsubscribe key => unsubscribe_tx policy fence key now
  end.
Definition lease_take (run_id key : string) (types : list string) (now : Z) : prog (option value) :=
  _ ← lease_run run_id; take_event_tx policy fence key types now.
End lease.
