(* ===== verification/FleetSpec.v ===== *)
(** * The interpreter on the store

    The two halves together: workers drive one run over the store, each with the
    fence of its claim, while every other operation of the store goes on. A drive
    loads the run's records through [Lease], makes calls ([Calls]) and saves them
    through [Lease]; it may lose its lease at any moment without noticing. The system
    simulates that of [CallsSpec]. *)
From stdpp Require Import relations.
From S2P Require Import Prelude Json Keys Outcome Journal Listen Types Store Index Admit Mailbox.
From S2P Require Import Triggers Lifecycle Control RunStore Logic Rows Steps Preserve Terminate Operations.
From S2P Require Import History Secrets Drive Calls Execute Lease RecordSpec Saves CallsSpec.
From S2P Require Import Samples DriveSamples.
From S2P Require Alone.

#[export] Instance Fence_countable : Countable Fence.
Proof.
  refine (inj_countable' (λ f, (f_run_id f, f_owner f, f_generation f)) (λ x, mkFence x.1.1 x.1.2 x.2) _). by intros [].
Defined.

Section fleet.
Context `{Host, Functions} (policy : Policy) (secrets : Redaction) (id : string).
Implicit Types (f : Fence) (r : rows).

(** The store, the drives of the run by their fences, and what they dispatched. *)
Record fleet := mkFleet { fl_rows : rows; fl_drives : gmap Fence driving; fl_log : list Dispatched }.

Inductive fleet_step : fleet → fleet → Prop :=
(** Any operation of the store, by anyone. *)
| fs_store r r' drives log : step policy r r' → fleet_step (mkFleet r drives log) (mkFleet r' drives log)
(** A worker starts a drive with the records its lease loads. *)
| fs_load r drives log f now l records :
    f_run_id f = id → drives !! f = None →
    fst <$> exec (lease_load policy f now) r = Ok l →
    load_records secrets (Ok (list_to_map l)) = Ok records →
    fleet_step (mkFleet r drives log) (mkFleet r (<[f := mkDriving (initial_shared records) ∅]> drives) log)
(** A drive saves a call's record through its lease; it may not learn that it did. *)
| fs_save r drives log f s active key j x k now r' y :
    drives !! f = Some (mkDriving s active) → active !! key = Some (DOp (OSave j x) k) →
    exec (lease_save policy f j x now) r = Ok ((), r') → y = Ok () ∨ (∃ e, y = Err e) →
    fleet_step (mkFleet r drives log) (mkFleet r' (<[f := mkDriving s (<[key := k y]> active)]> drives) log)
(** Anything else a drive does, a save that fails included. *)
| fs_act r drives log f d d' log' :
    drives !! f = Some d → act secrets false ∅ d log ∅ d' log' →
    fleet_step (mkFleet r drives log) (mkFleet r (<[f := d']> drives) log')
| fs_end r drives log f : fleet_step (mkFleet r drives log) (mkFleet r (delete f drives) log).
Definition first_fleet : fleet := mkFleet ∅ ∅ [].
Definition deployed (fl : fleet) : Prop := rtc fleet_step first_fleet fl.

(** ** What the journal loads *)

Lemma exec_decode_records (found : list (string * cell)) r l r' :
  exec (map_each found (λ x, y ← decode (T := JRecord) x.2; mret (x.1, y))) r = Ok (l, r') →
  r' = r ∧ ∀ k a, (k, CRecord a) ∈ found → k ∈ l.*1.
Proof.
  revert l r'. induction found as [|[k c] found IH]; intros l r' E.
  - injection E as <- <-. split; [done|]. intros k a []%elem_of_nil.
  - cbn [map_each] in E. rewrite !exec_bind in E. unfold decode in E. cbn [snd] in E.
    destruct (of_cell c) as [y|]; [|done]. cbn in E. rewrite exec_bind in E.
    destruct (exec (map_each found _) r) as [[ys r2]|] eqn:E2; [|done]. cbn in E. injection E as <- <-.
    destruct (IH _ _ eq_refl) as [-> Hin]. split; [done|]. intros k' a [Heq|Hk]%elem_of_cons; [injection Heq as -> <-; left|].
    right. by apply (Hin k' a).
Qed.
(** A load answers the records of its run, under a fence that may act. *)
Lemma exec_lease_load r f now l :
  History.sound r → fst <$> exec (lease_load policy f now) r = Ok l →
  (∃ s, stored r (f_run_id f) s ∧ r_fence (s_run s) = Some f) ∧
  ∀ k a, r !! (records_of (f_run_id f), k) = Some (CRecord a) → k ∈ l.*1.
Proof.
  intros Hr E. unfold lease_load, load_records_tx in E. rewrite exec_bind in E.
  destruct (exec (checked _ _ _) r) as [[s r1]|] eqn:Ec; [|done].
  destruct (exec_checked _ _ _ _ _ _ Hr Ec) as (->&_&Hid&Hs&Hown&_).
  split. { exists s. rewrite <- Hid. split; [done|]. by apply owns_spec in Hown as (_&?&_). }
  rewrite exec_bind in E. cbn [scan exec exec_op] in E.
  destruct (exec (map_each _ _) r) as [[ys r2]|] eqn:Em; [|done]. cbn in E. injection E as <-.
  destruct (exec_decode_records _ _ _ _ Em) as [_ Hin]. intros k a Ha. apply (Hin k a).
  unfold scan_rows. cbn [limited]. apply elem_of_rows_of. split; [done|].
  unfold in_range. by rewrite str_leb_nil.
Qed.
Lemma restore_all_keeps l m m' k :
  restore_all secrets l m = Ok m' → k ∈ l.*1 ∨ is_Some (m !! k) → is_Some (m' !! k).
Proof.
  revert m. induction l as [|[j x] l IH]; intros m E Hk.
  - injection E as <-. destruct Hk as [Hk%elem_of_nil|]; done.
  - cbn in E. destruct (restore secrets x) as [y|]; [|done]. apply (IH _ E).
    destruct Hk as [[->|Hk]%elem_of_cons|Hk]; [right; rewrite lookup_insert_eq; eauto|by left|].
    right. apply lookup_insert_is_Some'. auto.
Qed.
Lemma load_records_keeps l records k :
  load_records secrets (Ok (list_to_map l)) = Ok records → k ∈ l.*1 → is_Some (records !! k).
Proof.
  unfold load_records. cbn. intros E Hk.
  destruct (restore_all secrets (entries (list_to_map l)) ∅) as [m|] eqn:Er; [|done]. injection E as <-.
  apply (restore_all_keeps _ _ _ _ Er). left.
  destruct ((list_to_map l : gmap string JRecord) !! k) as [a|] eqn:Ek.
  - apply list_elem_of_fmap. exists (k, a). by rewrite elem_of_entries.
  - by apply not_elem_of_list_to_map in Ek.
Qed.
(** A save through the lease is its owner's, and leaves the record. *)
Lemma save_leaves r f k x now : History.sound r →
  wp (save_record_tx policy f k x now) (λ _ r', (∃ s, stored r (f_run_id f) s ∧ r_fence (s_run s) = Some f) ∧
    r' !! (records_of (f_run_id f), k) = Some (CRecord x)) r.
Proof.
  intros Hr. assert (Hg := good_refl r Hr). unfold save_record_tx. apply wp_bind, wp_reads; [solve_stable|]. intros _.
  apply wp_bind. eapply wp_authority; [done|]. intros s Hid Hs Ho Hn. cbv zeta.
  apply wp_bind, wp_get_cell. apply wp_bind, wp_reads; [unfold not_held; solve_stable|]. intros _.
  apply wp_bind, wp_reads; [solve_stable|]. intros _. apply wp_bind.
  eapply (wp_mono _ (λ old r1, r1 = r ∧ ∀ a, r !! (records_of (f_run_id f), k) = Some (CRecord a) →
    transition_allowed a x = true)).
  { destruct (r !! (records_of (f_run_id f), k)) as [c|]; [|by apply wp_ret].
    apply wp_bind, wp_decode. intros old Hold. apply wp_bind. unfold check_transition.
    destruct (transition_allowed old x) eqn:E; [|done]. apply wp_ret, wp_ret. split; [done|].
    intros a [= ->]. cbn in Hold. by injection Hold as <-. }
  intros old r1 [-> Hold]. apply wp_bind.
  assert (Hfence : ∃ s, stored r (f_run_id f) s ∧ r_fence (s_run s) = Some f).
  { exists s. rewrite <- Hid. split; [done|]. by apply owns_spec in Ho as (_&?&_). }
  eapply (wp_mono _ (λ _ r1, moves r r1 ∧ r1 !! (records_of (f_run_id f), k) = Some (CRecord x))).
  { case_decide; [by apply wp_ret|]. apply wp_put. split; [by apply moves_record|]. by rewrite lookup_insert_eq. }
  intros _ r1 [Hm Hk]. case_decide; [|by apply wp_ret].
  destruct (exec_update r r1 s (add_answer (s <| s_evidence := true |>) old x)) as (r2&E&_&_&Hsame&_);
    [apply Hr|done|done|by apply answered_advance|].
  unfold wp. rewrite E. split; [done|]. destruct (records_kind (f_run_id f)) as [Hk1 Hk2].
  rewrite Hsame; [done|by apply not_eq_sym|done].
Qed.

(** ** The simulation *)

Definition generation (f : Fence) : nat := Z.to_nat (f_generation f).
(** What the store knows of a fence that was once loaded under: it is the run's, or
    the run has moved past it. *)
Definition issued r f : Prop := f_run_id f = id ∧ 0 ≤ f_generation f ∧
  ∃ s, stored r id s ∧ f_generation f ≤ r_generation (s_run s) ∧
    (f_generation f = r_generation (s_run s) → r_fence (s_run s) = Some f ∨ r_fence (s_run s) = None).
Record simulates (fl : fleet) (w : world) : Prop := {
  si_sound : History.sound (fl_rows fl);
  si_log : w_log w = fl_log fl;
  si_issued : ∀ f d, fl_drives fl !! f = Some d → issued (fl_rows fl) f;
  si_drive : ∀ f d, fl_drives fl !! f = Some d → w_drives w !! generation f = Some d;
  si_fence : ∀ g d, w_drives w !! g = Some d → ∃ f, fl_drives fl !! f = Some d ∧ generation f = g;
  si_inj : ∀ f f', is_Some (fl_drives fl !! f) → is_Some (fl_drives fl !! f') → generation f = generation f' → f = f';
  si_current : w_current w = 0%nat ∨
    ∃ s, stored (fl_rows fl) id s ∧ (w_current w ≤ Z.to_nat (r_generation (s_run s)))%nat;
  (** The calls' records of a live run stay in the store. *)
  si_disk : ∀ reference, is_Some (w_disk w !! call_key reference) →
    has_ended (fl_rows fl) id ∨ ∃ a, fl_rows fl !! (records_of id, call_key reference) = Some (CRecord a)
}.
Lemma call_key_plain reference : not_expiry (call_key reference).
Proof.
  intros n E. apply (f_equal (ends_with "#call")) in E. unfold call_key, expired_key in E.
  rewrite ends_with_app, <- string_app_assoc in E. unfold ends_with, strip_suffix in E.
  rewrite string_rev_app in E. discriminate E.
Qed.

(** Whatever the store does keeps the simulation. *)
Lemma simulates_step r r' drives log w : step policy r r' →
  simulates (mkFleet r drives log) w → simulates (mkFleet r' drives log) w.
Proof.
  intros Hstep [Hr Hlog Hi Hd Hf Hj Hc Hk]. cbn in *.
  destruct (step_good _ _ _ Hr Hstep) as (HI&Hev&HX).
  split; cbn; try done.
  - intros f d Hfd. destruct (Hi f d Hfd) as (?&?&s&Hs&Hle&Hsame). split_and!; [done..|].
    destruct (ev_run _ _ Hev _ _ Hs) as (s'&Hs'&Ha). exists s'. split; [done|].
    pose proof (adv_generation _ _ Ha). split; [lia|]. intros E. destruct Hsame as [E'|E']; [lia|..];
      destruct (adv_fence _ _ Ha) as [E2|E2]; try lia; rewrite E2; auto.
  - destruct Hc as [|(s&Hs&Hle)]; [by left|right]. destruct (ev_run _ _ Hev _ _ Hs) as (s'&Hs'&Ha).
    exists s'. split; [done|]. pose proof (adv_generation _ _ Ha). lia.
  - intros reference Href. destruct (Hk reference Href) as [(s&Hs&He)|(a&Ha)].
    + left. destruct (ev_run _ _ Hev _ _ Hs) as (s'&Hs'&Ha). exists s'. split; [done|].
      by rewrite (adv_ended _ _ Ha He).
    + destruct (ev_record _ _ Hev _ _ _ Ha (call_key_plain reference)) as [?|(b&Hb&_)]; [by left|right; eauto].
Qed.
(** A drive set on both sides. *)
Lemma simulates_put r drives log w f d' log' disk' current' :
  simulates (mkFleet r drives log) w → issued r f →
  (∀ f', is_Some (drives !! f') → generation f = generation f' → f = f') →
  (current' = 0%nat ∨ ∃ s, stored r id s ∧ (current' ≤ Z.to_nat (r_generation (s_run s)))%nat) →
  (∀ reference, is_Some (disk' !! call_key reference) →
     has_ended r id ∨ ∃ a, r !! (records_of id, call_key reference) = Some (CRecord a)) →
  simulates (mkFleet r (<[f := d']> drives) log')
    (mkWorld disk' current' (<[generation f := d']> (w_drives w)) log').
Proof.
  intros [Hr Hlog Hi Hd Hf Hj Hc Hk] Hissued Hfree Hcur Hdisk. cbn in *. split; cbn; try done.
  - intros f' x [[<- _]|[_ Hx]]%lookup_insert_Some; [done|by apply (Hi f' x)].
  - intros f' x [[<- <-]|[Hne Hx]]%lookup_insert_Some; [by rewrite lookup_insert_eq|].
    rewrite lookup_insert_ne; [by apply Hd|]. intros E. apply Hne, Hfree; eauto.
  - intros g x [[<- <-]|[Hne Hx]]%lookup_insert_Some; [exists f; by rewrite lookup_insert_eq|].
    destruct (Hf g x Hx) as (f'&Hf'&<-). exists f'. rewrite lookup_insert_ne; [done|]. by intros ->.
  - intros f1 f2 [x1 Hx1] [x2 Hx2] E.
    apply lookup_insert_Some in Hx1 as [[<- _]|[_ Hx1]], Hx2 as [[<- _]|[_ Hx2]]; [done|..].
    + apply Hfree; eauto.
    + symmetry. apply Hfree; eauto.
    + apply Hj; eauto.
Qed.
(** A drive of the fleet moves on both sides. *)
Lemma simulates_drive r drives log w f d d' log' disk' :
  simulates (mkFleet r drives log) w → drives !! f = Some d →
  (∀ reference, is_Some (disk' !! call_key reference) →
     has_ended r id ∨ ∃ a, r !! (records_of id, call_key reference) = Some (CRecord a)) →
  simulates (mkFleet r (<[f := d']> drives) log')
    (mkWorld disk' (w_current w) (<[generation f := d']> (w_drives w)) log').
Proof.
  intros Hsim Hfd Hdisk. apply (simulates_put _ _ log); [done|by eapply (si_issued _ _ Hsim)| |apply Hsim|done].
  intros f' Hf' E. apply (si_inj _ _ Hsim); eauto.
Qed.
Lemma act_quiet d log d' log' held disk :
  act secrets false ∅ d log ∅ d' log' → act secrets held disk d log disk d' log'.
Proof.
  assert (∀ disk0 disk1, act secrets false disk0 d log disk1 d' log' → disk0 = ∅ → disk1 = ∅ → act secrets held disk d log disk d' log') as Hgo.
  { intros disk0 disk1 Ha _ _. destruct Ha; try by constructor.
    pose proof (ac_unsaved secrets held disk s active log key j r k e false) as Hu. rewrite andb_false_r in Hu. by apply Hu. }
  intros Ha. by eapply Hgo.
Qed.
Lemma stored_inj r s s' : stored r id s' → stored r id s → s' = s.
Proof. unfold stored. congruence. Qed.
Lemma fence_current r f s :
  History.sound r → stored r id s → r_fence (s_run s) = Some f →
  f_generation f = r_generation (s_run s) ∧ 0 ≤ f_generation f ∧ ¬ has_ended r id.
Proof.
  intros Hr Hs Hf. assert (Hok : row_ok s) by (eapply stored_ok; [apply Hr|done]).
  destruct (ok_fence _ Hok _ Hf) as (_&Hg&_). pose proof (ok_generation _ Hok) as Hu. unfold is_u64 in Hu.
  split_and!; [done|lia|]. intros (s'&Hs'&He). unfold stored in *. assert (s' = s) as -> by congruence.
  destruct (ok_ended _ Hok He) as (_&Hn&_). congruence.
Qed.

Lemma simulation fl fl' w writers :
  fleet_step fl fl' → simulates fl w → CallsSpec.sound writers w →
  ∃ w', rtc (move secrets) w w' ∧ simulates fl' w'.
Proof.
  intros Hstep Hsim Hw. destruct Hstep as [r r' drives log Hs|r drives log f now l records Hid Hfree Hl Hload
    |r drives log f s active key j x k now r' y Hf Ha He Hy|r drives log f d d' log' Hf Ha|r drives log f].
  - exists w. split; [apply rtc_refl|]. by eapply simulates_step.
  - assert (Hr := si_sound _ _ Hsim). destruct (exec_lease_load _ _ _ _ Hr Hl) as [(s&Hs&Hfence) Hall].
    rewrite Hid in *. destruct (fence_current r f s Hr Hs Hfence) as (Hg&Hpos&Hlive).
    assert (Hcur : (w_current w ≤ generation f)%nat).
    { unfold generation. rewrite Hg. destruct (si_current _ _ Hsim) as [->|(s'&Hs'&Hle)]; [lia|].
      rewrite <- (stored_inj r s s' Hs' Hs). done. }
    assert (Hsame : ∀ f', is_Some (drives !! f') → generation f = generation f' → f = f').
    { intros f' [d' Hd'] E. destruct (si_issued _ _ Hsim f' d' Hd') as (_&Hpos'&s'&Hs'&_&Heq).
      rewrite (stored_inj r s s' Hs' Hs) in Heq. unfold generation in E.
      assert (Heq' := Heq ltac:(lia)). destruct Heq'; congruence. }
    set (d' := mkDriving (initial_shared records) ∅). destruct w as [disk current wd wlog]. cbn in Hcur.
    assert (wlog = log) as -> by apply (si_log _ _ Hsim).
    exists (mkWorld disk (generation f) (<[generation f := d']> wd) log). split.
    + apply rtc_once, mv_claim; [done| |].
      * destruct (wd !! generation f) as [d0|] eqn:E; [|done].
        destruct (si_fence _ _ Hsim _ d0 E) as (f'&Hf'&Hgen). cbn in Hf'.
        rewrite <- (Hsame f') in Hf' by (done || by eexists). congruence.
      * intros reference Href. destruct (si_disk _ _ Hsim reference Href) as [?|(a&Ha)]; [done|].
        apply (load_records_keeps _ _ _ Hload). by apply (Hall _ a).
    + apply (simulates_put r drives log (mkWorld disk current wd log)); [done| |done| |apply (si_disk _ _ Hsim)].
      * split_and!; [done..|]. exists s. split_and!; [done|lia|by left].
      * right. exists s. split; [done|]. unfold generation. lia.
  - assert (Hr := si_sound _ _ Hsim). destruct (si_issued _ _ Hsim f _ Hf) as (Hid&_). cbn in Hr.
    assert (Hleave := wp_exec _ _ _ _ _ (save_leaves r f j x now Hr) He).
    destruct Hleave as [(s0&Hs0&Hfence) Hrec]. rewrite Hid in *.
    destruct (fence_current r f s0 Hr Hs0 Hfence) as (Hg&Hpos&Hlive).
    assert (Hwd := si_drive _ _ Hsim f _ Hf). destruct w as [disk current wd wlog]. cbn in Hwd.
    assert (Hcur : generation f = current).
    { assert (Hle := snd_current _ _ Hw _ _ Hwd). cbn in Hle. unfold generation in *.
      destruct (si_current _ _ Hsim) as [E|(s'&Hs'&Hle')]; [cbn in *; lia|].
      rewrite (stored_inj r s0 s' Hs' Hs0) in Hle'. cbn in *. lia. }
    assert (wlog = log) as -> by apply (si_log _ _ Hsim).
    exists (mkWorld (<[j := x]> disk) current (<[generation f := mkDriving s (<[key := k y]> active)]> wd) log). split.
    + apply rtc_once. eapply mv_act; [done|]. rewrite bool_decide_eq_true_2 by done.
      destruct Hy as [->|[e ->]]; [by apply ac_saved|]. by apply (ac_unsaved secrets true _ _ _ _ _ _ _ _ e true).
    + assert (Hsim' : simulates (mkFleet r' drives log) (mkWorld disk current wd log)).
      { eapply simulates_step; [|done]. eexists _, _, _. split; [apply op_save_record|exact He]. }
      apply (simulates_drive r' drives log (mkWorld disk current wd log) f (mkDriving s active)); [done..|].
      intros reference Href. destruct (decide (j = call_key reference)) as [->|Hne]; [right; eauto|].
      rewrite lookup_insert_ne in Href by done. by apply (si_disk _ _ Hsim').
  - destruct w as [disk current wd wlog]. assert (wlog = log) as -> by apply (si_log _ _ Hsim).
    exists (mkWorld disk current (<[generation f := d']> wd) log'). split.
    + apply rtc_once. eapply mv_act; [by apply (si_drive _ _ Hsim)|by apply act_quiet].
    + apply (simulates_drive r drives log (mkWorld disk current wd log) f d); [done..|]. apply (si_disk _ _ Hsim).
  - destruct (drives !! f) as [d|] eqn:Ef.
    2: { exists w. split; [apply rtc_refl|]. by rewrite delete_id. }
    destruct w as [disk current wd wlog]. exists (mkWorld disk current (delete (generation f) wd) wlog).
    split; [apply rtc_once, mv_end|]. destruct Hsim as [Hr Hlog Hi Hd Hf Hj Hc Hk]. cbn in *. split; cbn; try done.
    + intros f' d' [_ Hd']%lookup_delete_Some. by apply (Hi f' d').
    + intros f' d' [Hne Hd']%lookup_delete_Some. rewrite lookup_delete_ne; [by apply Hd|].
      intros E. apply Hne, Hj; eauto.
    + intros g d' [Hne Hd']%lookup_delete_Some. destruct (Hf g d' Hd') as (f'&Hf'&<-). exists f'.
      rewrite lookup_delete_ne; [done|]. by intros ->.
    + intros f1 f2 [x1 [_ Hx1]%lookup_delete_Some] [x2 [_ Hx2]%lookup_delete_Some]. apply Hj; eauto.
Qed.
Lemma deployed_simulates fl : deployed fl → ∃ w, executed secrets w ∧ simulates fl w.
Proof.
  intros Hfl. apply (rtc_ind_r (R := fleet_step) (λ fl, ∃ w, executed secrets w ∧ simulates fl w) first_fleet);
    [| |exact Hfl].
  - exists first_world. split; [apply rtc_refl|]. split; cbn; try done; [apply sound_empty|..].
    + by intros f f' [x Hx].
    + by left.
    + intros reference [x Hx]. by rewrite lookup_empty in Hx.
  - intros fl1 fl2 _ Hstep (w&Hw&Hsim). destruct (sound_executed secrets w Hw) as [writers Hs].
    destruct (simulation _ _ _ _ Hstep Hsim Hs) as (w'&Hmove&Hsim'). exists w'. split; [|done].
    exact (transitivity (R := rtc _) Hw Hmove).
Qed.

(** C2: over the store, with every operation of everyone else going on: however the
    workers that drive a run claim it, lose it and drive it on unnoticed, crash, or
    do not learn that a save was committed, an at-most-once call is dispatched at
    most once, and once it was its record is in the store until the run has ended. *)
Theorem fleet_at_most_once fl reference :
  deployed fl →
  let key := call_key reference in
  (dispatches key (fl_log fl) ≤ 1)%nat ∧
  (dispatches key (fl_log fl) = 1%nat →
     has_ended (fl_rows fl) id ∨ ∃ a, fl_rows fl !! (records_of id, key) = Some (CRecord a)).
Proof.
  intros Hfl key. destruct (deployed_simulates fl Hfl) as (w&Hw&Hsim).
  destruct (sound_executed secrets w Hw) as [writers Hs]. rewrite <- (si_log _ _ Hsim).
  destruct (snd_recorded _ _ Hs key) as [H1 H2]. split; [done|]. intros E.
  destruct (H2 E) as (g&Hg&_). apply (si_disk _ _ Hsim). apply (snd_writer _ _ Hs key g Hg).
Qed.

(** One operation of a call, its save made through the lease. *)
Definition fleet_advance (env : Alone.Env) (f : Fence) (key : string) (now : Z) (fl : fleet) : fleet :=
  match fl_drives fl !! f with
  | Some (mkDriving s active) =>
      match active !! key with
      | Some (DOp (OSave j x) k) =>
          match exec (lease_save policy f j x now) (fl_rows fl) with
          | Ok (_, r') => mkFleet r' (<[f := mkDriving s (<[key := k (Ok ())]> active)]> (fl_drives fl)) (fl_log fl)
          | Err _ => fl
          end
      | Some (DOp (ORace _ _) _) => fl
      | Some (DOp o k) =>
          let '(x, s, l) := Alone.answer env o s in
          mkFleet (fl_rows fl) (<[f := mkDriving s (<[key := k x]> active)]> (fl_drives fl))
            (match o with ODispatch d => d :: fl_log fl | _ => fl_log fl end)
      | _ => fl
      end
  | None => fl
  end.
Lemma fleet_advance_step env f key now fl : fl = fleet_advance env f key now fl ∨ fleet_step fl (fleet_advance env f key now fl).
Proof.
  destruct fl as [r drives log]. unfold fleet_advance. cbn [fl_drives fl_rows fl_log].
  destruct (drives !! f) as [[s active]|] eqn:Ed; [|auto].
  destruct (active !! key) as [[a|e|h|o k]|] eqn:E; auto.
  destruct o; auto.
  3: { destruct (exec _ r) as [[[] r']|] eqn:Es; [|auto]. right. eapply fs_save; eauto. }
  all: right; cbn; eapply fs_act; [done|].
  1: by apply ac_access.
  5: by apply ac_dispatch.
  all: lazymatch type of E with _ = Some (DOp ?o _) => by apply (ac_answer secrets false _ _ _ _ _ o) end.
Qed.
Lemma fleet_advance_deployed env f key now n fl : deployed fl → deployed (Nat.iter n (fleet_advance env f key now) fl).
Proof.
  intros Hfl. induction n as [|n IH]; [done|]. set (fl' := Nat.iter n _ fl) in *.
  change (deployed (fleet_advance env f key now fl')).
  destruct (fleet_advance_step env f key now fl') as [E|Hs]; [by rewrite <- E|by eapply rtc_r].
Qed.
Lemma deployed_store r : reachable policy r → deployed (mkFleet r ∅ []).
Proof.
  intros Hr. apply (rtc_ind_r (R := step policy) (λ r, deployed (mkFleet r ∅ [])) ∅); [apply rtc_refl| |exact Hr].
  intros r1 r2 _ Hs IH. eapply rtc_r; [exact IH|by apply fs_store].
Qed.
(** A drive of what the lease loads, with one call begun. *)
Definition fleet_begin (f : Fence) (now : Z) (t : Target) (args : value) (reference : string) (declared : Delivery)
    (fl : fleet) : fleet :=
  match fst <$> exec (lease_load policy f now) (fl_rows fl) with
  | Ok l =>
      match load_records secrets (Ok (list_to_map l)) with
      | Ok records =>
          mkFleet (fl_rows fl) (<[f := mkDriving (initial_shared records)
            {[call_key reference := external_call true secrets t args reference declared]}]> (fl_drives fl)) (fl_log fl)
      | Err _ => fl
      end
  | Err _ => fl
  end.
Lemma fleet_begin_deployed f now t args reference declared fl :
  deployed fl → f_run_id f = id → fl_drives fl !! f = None →
  deployed (fleet_begin f now t args reference declared fl).
Proof.
  intros Hfl Hid Hf. destruct fl as [r drives log]. unfold fleet_begin. cbn [fl_rows fl_drives fl_log] in *.
  destruct (fst <$> exec (lease_load policy f now) r) as [l|] eqn:El; [|exact Hfl].
  destruct (load_records secrets (Ok (list_to_map l))) as [records|] eqn:Er; [|exact Hfl].
  assert (deployed (mkFleet r (<[f := mkDriving (initial_shared records) ∅]> drives) log)) as Hloaded
    by (eapply rtc_r; [exact Hfl|by eapply fs_load]).
  eapply rtc_r; [exact Hloaded|].
  lazymatch goal with |- fleet_step _ (mkFleet _ (<[_ := ?d]> _) _) =>
    rewrite <- (insert_insert_eq drives f d (mkDriving (initial_shared records) ∅)) end.
  eapply fs_act; [apply lookup_insert_eq|]. rewrite <- insert_empty. by apply ac_start.
Qed.
End fleet.

(** A worker sends the call of a claimed run, through the store; it is recorded there. *)
Lemma fleet_at_most_once_witness :
  let _ := demo_functions in
  let begun := fleet_begin P no_secrets parent_fence 1002 (TFunction "charge") VNull "/do/9" AtMostOnce (mkFleet rows_called ∅ []) in
  let fl := Nat.iter 30 (fleet_advance P demo_env parent_fence (call_key "/do/9") 1002) begun in
  dispatches (call_key "/do/9") (fl_log fl) = 1%nat ∧
  (has_ended (fl_rows fl) "p" ∨ ∃ a, fl_rows fl !! (records_of "p", call_key "/do/9") = Some (CRecord a)).
Proof.
  intros fns begun fl. assert (deployed P no_secrets "p" fl) as Hfl.
  { apply fleet_advance_deployed, fleet_begin_deployed; [|done..]. apply deployed_store, reachable_called. }
  assert (dispatches (call_key "/do/9") (fl_log fl) = 1%nat) as E by (vm_compute; reflexivity).
  split; [exact E|]. exact (proj2 (fleet_at_most_once P no_secrets "p" fl "/do/9" Hfl) E).
Defined.
