(* ===== verification/Analysis.v ===== *)
(** * Where a list's flow can go

    [crates/ows/src/model.rs], section 3: the ways a task may continue in its list
    ([successors]), whether running it can leave a loop from inside ([can_leave]), and
    the jump cycles validation rejects ([closed_cycles]); section 4: the call sites of
    a definition and what else it refers to. *)
From S2P Require Import Prelude Json Outcome Journal Expr Model.

(** A sibling by its index, or out of the list. *)
Inductive Next := NextTask (j : nat) | NextOut.
#[export] Instance Next_eq_dec : EqDecision Next.
Proof. solve_decision. Defined.

(** [to], where a directive of the task at [i] leads. *)
Definition flow_to (tasks : TaskList) (i : nat) (f : Flow) : Next :=
  match f with
  | Continue => if decide (S i < length tasks)%nat then NextTask (S i) else NextOut
  | Goto name =>
      match position (λ x : string * Task, bool_decide (x.1 = name)) tasks with
      | Some j => NextTask j
      | None => NextOut
      end
  | Exit | End_ => NextOut
  end.
(** The first occurrences, in order. *)
Fixpoint distinct_from {A} `{EqDecision A} (seen : list A) (l : list A) : list A :=
  match l with
  | [] => seen
  | x :: l => distinct_from (if decide (x ∈ seen) then seen else seen ++ [x]) l
  end.
Definition ways_out (tasks : TaskList) (i : nat) (t : Task) : list Next :=
  let to := flow_to tasks i in
  let own := to (default Continue (tk_then t)) in
  match tk_kind t with
  | KRaise _ => [NextOut]
  | KSwitch cases =>
      map (λ x : string * Case, to (case_then x.2)) cases ++
      (if existsb (λ x : string * Case, bool_decide (case_when x.2 = None)) cases then [] else [own])
  | KTry _ c => [own; match catch_then c with Some f => to f | None => own end]
  | _ => [own]
  end.
(** [successors] of the task [t] at [i]. *)
Definition successors_of (tasks : TaskList) (i : nat) (t : Task) : list Next :=
  distinct_from [] (ways_out tasks i t ++ match tk_when t with Some _ => [flow_to tasks i Continue] | None => [] end).
Definition successors (tasks : TaskList) (i : nat) : list Next :=
  match tasks !! i with Some (_, t) => successors_of tasks i t | None => [] end.

Definition ends_workflow (f : option Flow) : bool := bool_decide (f = Some End_).
(** [can_leave]. *)
Fixpoint can_leave (functions : list (string * Task)) (t : Task) : bool :=
  let list_ := existsb (λ x : string * Task, ends_workflow (tk_then x.2) || can_leave functions x.2) in
  match tk_kind t with
  | KRaise _ => true
  | KCall function _ => existsb (λ x : string * Task, bool_decide (x.1 = function_name function)) functions
  | KDo tasks | KFor _ _ _ _ _ tasks => list_ tasks
  | KFork branches _ => list_ branches
  | KSwitch cases => existsb (λ x : string * Case, bool_decide (case_then x.2 = End_)) cases
  | KTry tasks c =>
      list_ tasks || ends_workflow (catch_then c) || match catch_tasks c with Some l => list_ l | None => false end
  | KListen l => match li_foreach l with Some f => list_ (fe_tasks f) | None => false end
  | KSet _ | KWait _ | KEmit _ | KRun _ => false
  end.

(** ** [closed_cycles] *)

Definition targets (l : list Next) : list nat :=
  omap (λ e, match e with NextTask j => Some j | NextOut => None end) l.
(** The search of one row: [stack], its last pushed first, holds indices to visit.
    Every turn takes one of them, and a visited index pushes its edges once. *)
Fixpoint search (fuel : nat) (edges : list (list Next)) (stack : list nat) (row : list bool) : list bool :=
  match fuel, stack with
  | S fuel, j :: stack =>
      if default false (row !! j) then search fuel edges stack row
      else search fuel edges (rev (targets (default [] (edges !! j))) ++ stack) (<[j := true]> row)
  | _, _ => row
  end.
Definition search_fuel (edges : list (list Next)) : nat := S (2 * list_sum (length <$> edges)).
(** [reach[i]]: what is reachable from [i] in one or more steps. *)
Definition reach_row (edges : list (list Next)) (i : nat) : list bool :=
  search (search_fuel edges) edges (rev (targets (default [] (edges !! i)))) (replicate (length edges) false).
Definition reaches (reach : list (list bool)) (i j : nat) : bool :=
  default false (default [] (reach !! i) !! j).
Definition component (reach : list (list bool)) (n i : nat) : list nat :=
  filter (λ j, j = i ∨ reaches reach i j && reaches reach j i = true) (seq 0 n).
(** Whether a task of a component can leave it. *)
Definition leaves (tasks : TaskList) (functions : list (string * Task)) (edges : list (list Next)) (c : list nat) : bool :=
  existsb (λ j,
    match tasks !! j with Some (_, t) => can_leave functions t | None => false end ||
    (let out := default [] (edges !! j) in
     bool_decide (1 < length out)%nat &&
     existsb (λ e, match e with NextTask k => negb (bool_decide (k ∈ c)) | NextOut => true end) out)) c.
Fixpoint cycles_from (indices : list nat) (tasks : TaskList) (functions : list (string * Task)) (edges : list (list Next))
    (reach : list (list bool)) (seen : list nat) : list (list nat) :=
  match indices with
  | [] => []
  | i :: indices =>
      if bool_decide (i ∈ seen) || negb (reaches reach i i) then cycles_from indices tasks functions edges reach seen
      else
        let c := component reach (length tasks) i in
        let rest := cycles_from indices tasks functions edges reach (c ++ seen) in
        if leaves tasks functions edges c then rest else c :: rest
  end.
(** [closed_cycles]. *)
Definition closed_cycles (tasks : TaskList) (functions : list (string * Task)) : list (list nat) :=
  let indices := seq 0 (length tasks) in
  let edges := successors tasks <$> indices in
  cycles_from indices tasks functions edges (reach_row edges <$> indices) [].

(** ** What a definition refers to *)

(** [list] of [lists], over the visit of one task. *)
Definition list_sites_with {A} (visit : string → Task → list A) (at_ : string) : nat → TaskList → list A :=
  fix go i l :=
    match l with
    | [] => []
    | (name, t) :: l => visit (at_ +:+ "/" +:+ pretty i +:+ "/" +:+ name) t ++ go (S i) l
    end.
(** [lists]: every task with the reference it gets, in definition order. *)
Fixpoint task_sites (at_ : string) (t : Task) {struct t} : list (Task * string) :=
  let list_ at_ := list_sites_with (λ a t, task_sites a t) at_ 0 in
  (t, at_) ::
  match tk_kind t with
  | KDo tasks | KFor _ _ _ _ _ tasks => list_ (at_ +:+ "/do") tasks
  | KFork branches _ => list_ (at_ +:+ "/fork/branches") branches
  | KTry tasks c =>
      list_ (at_ +:+ "/try") tasks ++
      match catch_tasks c with Some h => list_ (at_ +:+ "/catch/do") h | None => [] end
  | KListen l => match li_foreach l with Some f => list_ (at_ +:+ "/foreach/do") (fe_tasks f) | None => [] end
  | _ => []
  end.
Definition list_sites (at_ : string) (l : TaskList) : list (Task * string) := list_sites_with task_sites at_ 0 l.
Definition sites (wf : Workflow) : list (Task * string) :=
  concat ((λ x : string * Task, task_sites ("/use/functions/" +:+ x.1) x.2) <$> us_functions (wf_uses wf)) ++
  concat (imap (λ i (x : string * Extension),
    let at_ := "/use/extensions/" +:+ pretty i +:+ "/" +:+ x.1 in
    match ex_before x.2 with Some l => list_sites (at_ +:+ "/before") l | None => [] end ++
    match ex_after x.2 with Some l => list_sites (at_ +:+ "/after") l | None => [] end)
    (us_extensions (wf_uses wf))) ++
  list_sites "/do" (wf_tasks wf).

(** A [call] of the definition. *)
Record CallSite := mkCallSite {
  site_reference : string;
  site_function : string;
  site_with : option value;
  site_delivery : Delivery
}.
(** [call_sites]. *)
Definition call_sites (wf : Workflow) : list CallSite :=
  omap (λ x : Task * string, match tk_kind x.1 with
    | KCall function with_ => Some (mkCallSite x.2 (function_name function) with_ (tk_delivery x.1))
    | _ => None end) (sites wf).
(** [processes]. *)
Definition processes (wf : Workflow) : list Process :=
  omap (λ x : Task * string, match tk_kind x.1 with KRun r => Some (run_process_of r) | _ => None end) (sites wf).
(** [schema_resources]: the addresses, each once, in order. *)
Definition io (i : option Input) (o e : option Output) : list Schema :=
  omap id [i ≫= in_schema; o ≫= out_schema; e ≫= out_schema].
Definition resources_of (l : list Schema) : list string :=
  omap (λ s, match s with Resource uri => Some uri | Document _ => None end) l.
Definition schema_resources (wf : Workflow) : list string :=
  distinct_from [] (resources_of (io (wf_input wf) (wf_output wf) None ++
    concat ((λ x : Task * string,
      io (tk_input x.1) (tk_output x.1) (tk_export x.1) ++
      match tk_kind x.1 with
      | KListen l => match li_foreach l with Some f => io None (fe_output f) (fe_export f) | None => [] end
      | _ => []
      end) <$> sites wf))).

(** A loop that nothing leaves, and one with a case that does. *)
Definition bare_task (k : Kind) (then_ : option Flow) : Task :=
  mkTask AtLeastOnce 0 None None None None None then_ k VNull.
Example loop_closed :
  closed_cycles [("a", bare_task (KSet VNull) None); ("b", bare_task (KSet VNull) (Some (Goto "a")))] [] = [[0; 1]%nat].
Proof. vm_compute. reflexivity. Qed.
Example loop_open :
  closed_cycles [("a", bare_task (KSet VNull) None);
                 ("b", bare_task (KSwitch [("again", mkCase (Some "true") (Goto "a"))]) None)] [] = [].
Proof. vm_compute. reflexivity. Qed.
