(* ===== verification/AnalysisSpec.v ===== *)
(** * The jump cycles of a list

    [closed_cycles] against the graph of [successors]: it finds nothing exactly when
    every task of the list has a way to its end, and what it finds are the loops no
    task of which has one. *)
From stdpp Require Import relations.
From S2P Require Import Prelude Json Outcome Journal Expr Model Analysis.

Lemma sum_lookup (l : list nat) i n : l !! i = Some n → (n ≤ list_sum l)%nat.
Proof.
  unfold list_sum. revert i. induction l as [|m l IH]; intros [|i] E; [done..| |]; cbn in *.
  - injection E as ->. lia.
  - specialize (IH i E). lia.
Qed.

(** ** The search of a row *)

Section graph.
Variable edges : list (list Next).
Definition edge (i j : nat) : Prop := NextTask j ∈ default [] (edges !! i).
Definition marked (row : list bool) (j : nat) : Prop := row !! j = Some true.
Definition in_range : Prop := ∀ i j, edge i j → (j < length edges)%nat.

Lemma elem_of_targets l j : j ∈ targets l ↔ NextTask j ∈ l.
Proof.
  unfold targets. rewrite list_elem_of_omap. split; [by intros ([|]&Hx&[= ->])|]. intros Hj. by exists (NextTask j).
Qed.
#[local] Arguments targets : simpl never.
Lemma elem_of_pushed j i : j ∈ rev (targets (default [] (edges !! i))) ↔ edge i j.
Proof. by rewrite list_elem_of_In, <- in_rev, <- list_elem_of_In, elem_of_targets. Qed.
(** What the search has left to push. *)
Definition work (row : list bool) : nat :=
  list_sum (zip_with (λ e (b : bool), if b then O else length (targets e)) edges row).
Lemma work_mark row j :
  row !! j = Some false → length row = length edges →
  (work (<[j := true]> row) + length (targets (default [] (edges !! j))) = work row)%nat.
Proof.
  unfold work, list_sum. revert row j. induction edges as [|e l IH]; intros [|b row] [|j] Hj Hlen; try done; cbn in *.
  - injection Hj as ->. lia.
  - injection Hlen as Hlen. rewrite <- Nat.add_assoc. f_equal. exact (IH row j Hj Hlen).
Qed.
Lemma work_start : (work (replicate (length edges) false) ≤ list_sum (length <$> edges))%nat.
Proof.
  unfold work, list_sum. induction edges as [|e l IH]; [done|]. cbn.
  assert (length (targets e) ≤ length e)%nat; [|lia].
  unfold targets. clear. induction e as [|[] e IH]; cbn; lia.
Qed.
(** Marks with an edge out have its target marked, or waiting on the stack. *)
Definition open_at (stack : list nat) (row : list bool) : Prop :=
  ∀ k j, marked row k → edge k j → marked row j ∨ j ∈ stack.
Lemma search_marks fuel stack row :
  in_range → length row = length edges → Forall (λ j, j < length edges)%nat stack →
  (length stack + work row < fuel)%nat → open_at stack row →
  let row' := search fuel edges stack row in
  (∀ j, marked row j ∨ j ∈ stack → marked row' j) ∧ open_at [] row' ∧
  ∀ j, marked row' j → marked row j ∨ ∃ s, s ∈ stack ∧ rtc edge s j.
Proof.
  intros Hrange. revert stack row. induction fuel as [|fuel IH]; intros stack row Hlen Hin Hfuel Hopen; [lia|].
  destruct stack as [|s stack]; cbn [search].
  { split_and!; [|exact Hopen|auto]. intros j [Hj|Hj]; [done|]. by apply not_elem_of_nil in Hj. }
  apply Forall_cons in Hin as [Hs Hin]. destruct (lookup_lt_is_Some_2 row s) as [b Eb]; [by rewrite Hlen|].
  rewrite Eb. cbn [default]. destruct b; cbn.
  - destruct (IH stack row) as (Hm&Ho&Hr); [done|done|cbn in Hfuel; lia|..].
    { intros k j Hk Hj. destruct (Hopen k j Hk Hj) as [|Hx]; [by left|].
      apply elem_of_cons in Hx as [->|]; [by left|by right]. }
    split_and!; [|done|].
    + intros j [Hj|Hj]; apply Hm; [by left|]. apply elem_of_cons in Hj as [->|]; [by left|by right].
    + intros j Hj. destruct (Hr j Hj) as [|(s'&Hs'&?)]; [by left|]. right. exists s'. split; [by right|done].
  - set (out := default [] (edges !! s)).
    assert (Hmark : ∀ j, marked (<[s := true]> row) j ↔ j = s ∨ marked row j).
    { intros j. unfold marked. destruct (decide (j = s)) as [->|Hne].
      - rewrite list_lookup_insert_eq by (by rewrite Hlen). intuition auto.
      - rewrite list_lookup_insert_ne by done. intuition congruence. }
    destruct (IH (rev (targets out) ++ stack) (<[s := true]> row)) as (Hm&Ho&Hr).
    + by rewrite length_insert.
    + apply Forall_app. split; [|done]. apply Forall_forall. intros j Hj.
      apply elem_of_pushed in Hj. by apply (Hrange s).
    + rewrite length_app, length_rev. pose proof (work_mark row s Eb Hlen). cbn in Hfuel. fold out in H. lia.
    + intros k j [->|Hk]%Hmark Hj.
      * right. apply elem_of_app. left. by apply elem_of_pushed.
      * destruct (Hopen k j Hk Hj) as [|[->|]%elem_of_cons]; [left; apply Hmark; auto|left; apply Hmark; auto|].
        right. apply elem_of_app. by right.
    + split_and!; [|done|].
      * intros j Hj. apply Hm. destruct Hj as [Hj|[->|Hj]%elem_of_cons]; [left; apply Hmark; auto|left; apply Hmark; auto|].
        right. apply elem_of_app. by right.
      * intros j Hj. destruct (Hr j Hj) as [[->|Hx]%Hmark|(t&[Ht|Ht]%elem_of_app&Hp)]; [|by left|..].
        -- right. exists s. split; [by left|done].
        -- right. exists s. split; [by left|]. eapply rtc_l; [|done].
           by apply elem_of_pushed.
        -- right. exists t. split; [by right|done].
Qed.
Lemma reach_row_spec i j : in_range → marked (reach_row edges i) j ↔ tc edge i j.
Proof.
  intros Hrange. unfold reach_row.
  set (stack := rev (targets (default [] (edges !! i)))).
  assert (Hst : ∀ k, k ∈ stack ↔ edge i k).
  { intros k. apply elem_of_pushed. }
  assert (Hno : ∀ k, ¬ marked (replicate (length edges) false) k).
  { intros k. unfold marked. by intros [? _]%lookup_replicate_1. }
  destruct (search_marks (search_fuel edges) stack (replicate (length edges) false)) as (Hm&Ho&Hr).
  - done.
  - by rewrite length_replicate.
  - apply Forall_forall. intros k Hk. apply (Hrange i), Hst, Hk.
  - pose proof work_start. unfold search_fuel, stack. rewrite length_rev.
    assert (length (targets (default [] (edges !! i))) ≤ list_sum (length <$> edges))%nat; [|lia].
    assert (length (targets (default [] (edges !! i))) ≤ length (default [] (edges !! i)))%nat as Hle.
    { unfold targets. generalize (default [] (edges !! i)). clear. intros e. induction e as [|[] e IH]; cbn; lia. }
    etrans; [exact Hle|]. destruct (edges !! i) as [e|] eqn:E; cbn; [|lia].
    apply (sum_lookup _ i). by rewrite list_lookup_fmap, E.
  - intros k j' Hk. by apply Hno in Hk.
  - split.
    + intros Hj. destruct (Hr j Hj) as [Hx|(s&Hs&Hp)]; [by apply Hno in Hx|]. apply Hst in Hs. by eapply tc_rtc_r; [apply tc_once|].
    + intros Hp. destruct Hp as [? ? He|? ? ? He Hp].
      * apply Hm. right. by apply Hst.
      * assert (marked (search (search_fuel edges) edges stack (replicate (length edges) false)) y) as Hy
          by (apply Hm; right; by apply Hst).
        clear He. induction Hp as [? ? He|? ? ? He Hp IH].
        -- destruct (Ho _ _ Hy He) as [|[]%not_elem_of_nil]; done.
        -- apply IH. destruct (Ho _ _ Hy He) as [|[]%not_elem_of_nil]; done.
Qed.
End graph.

(** ** The graph of a list *)

Section list_graph.
Variables (tasks : TaskList) (functions : list (string * Task)).
Local Abbreviation n := (length tasks).

(** A task may continue with another, out of the list, or leave it from inside. *)
Definition jumps (i j : nat) : Prop := NextTask j ∈ successors tasks i.
Definition ends_at (i : nat) : Prop :=
  NextOut ∈ successors tasks i ∨ ∃ x, tasks !! i = Some x ∧ can_leave functions x.2 = true.
Definition escapes (i : nat) : Prop := ∃ j, rtc jumps i j ∧ ends_at j.
#[local] Instance ends_at_dec i : Decision (ends_at i).
Proof.
  unfold ends_at. apply or_dec; [apply _|]. destruct (tasks !! i) as [x|] eqn:E.
  - destruct (can_leave functions x.2) eqn:El; [left; eauto|]. right. intros (y&[= <-]&Hy). congruence.
  - right. by intros (y&[=]&_).
Defined.

Lemma distinct_from_elem {A} `{EqDecision A} (seen l : list A) x : x ∈ distinct_from seen l ↔ x ∈ seen ∨ x ∈ l.
Proof.
  revert seen. induction l as [|y l IH]; intros seen; cbn.
  - split; [auto|]. intros [|[]%not_elem_of_nil]; done.
  - rewrite IH, elem_of_cons. destruct (decide (y ∈ seen)); [|rewrite elem_of_app, list_elem_of_singleton]; naive_solver.
Qed.
Lemma flow_to_range i f j : flow_to tasks i f = NextTask j → (j < n)%nat.
Proof.
  destruct f as [| | |name]; cbn; [case_decide; naive_solver|done|done|].
  destruct (position _ tasks) as [k|] eqn:E; [|done]. intros [= <-].
  revert k E. induction tasks as [|x l IH]; cbn; intros k; [done|]. case_bool_decide; [intros [= <-]; lia|].
  destruct (position _ l) as [k'|]; [|done]. intros [= <-]. specialize (IH k' eq_refl). lia.
Qed.
Lemma successors_of_elem i t e :
  e ∈ successors_of tasks i t ↔ e ∈ ways_out tasks i t ∨ (is_Some (tk_when t) ∧ e = flow_to tasks i Continue).
Proof.
  unfold successors_of. rewrite distinct_from_elem, elem_of_app. destruct (tk_when t).
  - rewrite list_elem_of_singleton. pose proof (not_elem_of_nil e). naive_solver.
  - pose proof (not_elem_of_nil e). unfold is_Some. naive_solver.
Qed.
(** What a task's own ways lead to. *)
Lemma ways_out_flow i t e : e ∈ ways_out tasks i t → e = NextOut ∨ ∃ f, e = flow_to tasks i f.
Proof.
  unfold ways_out. destruct (tk_kind t);
    rewrite ?elem_of_cons, ?elem_of_app, ?list_elem_of_In, ?in_map_iff; pose proof (not_elem_of_nil e).
  all: repeat case_match; rewrite <- ?list_elem_of_In, ?elem_of_cons; naive_solver.
Qed.
Lemma jumps_range i j : jumps i j → (i < n ∧ j < n)%nat.
Proof.
  unfold jumps, successors. destruct (tasks !! i) as [[name t]|] eqn:E; [|by intros ?%not_elem_of_nil].
  intros Hj. split; [by eapply lookup_lt_Some|].
  apply successors_of_elem in Hj as [[[=]|(f&Hf)]%ways_out_flow|[_ Hf]]; symmetry in Hf; by eapply flow_to_range.
Qed.
(** A task always continues somewhere. *)
Lemma successors_some i : (i < n)%nat → ∃ e, e ∈ successors tasks i.
Proof.
  intros [[name t] E]%lookup_lt_is_Some_2. unfold successors. rewrite E.
  assert (∃ e, e ∈ ways_out tasks i t) as [e He]; [|exists e; apply successors_of_elem; by left].
  unfold ways_out. destruct (tk_kind t); try (eexists; by apply elem_of_cons; left).
  destruct cases as [|x cases]; cbn; eexists; by apply elem_of_cons; left.
Qed.

(** ** The rows of [reach] *)

Local Abbreviation edges := (successors tasks <$> seq 0 n).
Local Abbreviation reach := (reach_row edges <$> seq 0 n).

Lemma edges_lookup i : default [] (edges !! i) = successors tasks i.
Proof.
  destruct (decide (i < n)%nat) as [Hi|Hi].
  - by rewrite list_lookup_fmap, lookup_seq_lt.
  - rewrite list_lookup_fmap, lookup_seq_ge by lia. cbn. unfold successors. by rewrite lookup_ge_None_2 by lia.
Qed.
Lemma edge_jumps i j : edge edges i j ↔ jumps i j.
Proof. unfold edge, jumps. by rewrite edges_lookup. Qed.
Lemma edge_tc i j : tc (edge edges) i j ↔ tc jumps i j.
Proof. split; (induction 1 as [? ? E|? ? ? E _ IH]; apply edge_jumps in E; [by apply tc_once|by eapply tc_l]). Qed.
Lemma reaches_spec i j : reaches reach i j = true ↔ tc jumps i j.
Proof.
  assert (Hrange : in_range edges).
  { intros k k' Hk%edge_jumps. rewrite length_fmap, length_seq. apply jumps_range in Hk. lia. }
  rewrite <- edge_tc, <- (reach_row_spec edges i j Hrange). unfold reaches, marked.
  destruct (decide (i < n)%nat) as [Hi|Hi].
  - rewrite list_lookup_fmap, lookup_seq_lt by done. cbn [fmap option_fmap option_map default from_option].
    unfold id. change (0 + i)%nat with i. destruct (reach_row edges i !! j) as [[|]|]; cbn; intuition congruence.
  - rewrite list_lookup_fmap, lookup_seq_ge by lia. cbn. split; [done|].
    intros Hm. apply (reach_row_spec edges i j Hrange) in Hm. exfalso. apply Hi.
    assert (∃ k, jumps i k) as [k Hk%jumps_range]; [|lia].
    apply edge_tc in Hm. destruct Hm; eauto.
Qed.
Lemma tc_range i j : tc jumps i j → (i < n ∧ j < n)%nat.
Proof. induction 1 as [i j H|i j k H _ [IH1 IH2]]; apply jumps_range in H; lia. Qed.
Lemma component_spec i j :
  j ∈ component reach n i ↔ (j < n)%nat ∧ (j = i ∨ tc jumps i j ∧ tc jumps j i).
Proof.
  unfold component. rewrite list_elem_of_filter, list_elem_of_In, in_seq.
  rewrite andb_true_iff, !reaches_spec. naive_solver lia.
Qed.

(** ** What is reported *)

Lemma component_same i j : j ∈ component reach n i → component reach n j = component reach n i.
Proof.
  intros [_ [->|[Hij Hji]]]%component_spec; [done|]. unfold component. apply list_filter_iff. intros k.
  rewrite !andb_true_iff, !reaches_spec. split; (intros [->|[? ?]]; [right; tauto|]).
  - destruct (decide (k = i)); [by left|right]. split; by eapply tc_transitive.
  - destruct (decide (k = j)); [by left|right]. split; by eapply tc_transitive.
Qed.
Lemma cycles_sound indices seen c :
  c ∈ cycles_from indices tasks functions edges reach seen →
  ∃ i, tc jumps i i ∧ c = component reach n i ∧ leaves tasks functions edges c = false.
Proof.
  revert seen. induction indices as [|i l IH]; intros seen; cbn [cycles_from]; [by intros ?%not_elem_of_nil|].
  destruct (bool_decide (i ∈ seen) || negb (reaches reach i i)) eqn:E; [apply IH|].
  apply orb_false_iff in E as [_ E%negb_false_iff%reaches_spec].
  destruct (leaves tasks functions edges (component reach n i)) eqn:El; [apply IH|]. intros [->|Hc]%elem_of_cons; [eauto|by eapply IH].
Qed.
Lemma cycles_complete indices seen i :
  i ∈ indices → i ∉ seen → tc jumps i i → leaves tasks functions edges (component reach n i) = false →
  component reach n i ∈ cycles_from indices tasks functions edges reach seen.
Proof.
  revert seen. induction indices as [|h l IH]; intros seen Hi Hseen Hcyc Hl; [by apply not_elem_of_nil in Hi|].
  cbn [cycles_from].
  assert (Hself : ∀ k, (k < n)%nat → k ∈ component reach n k) by (intros k Hk; apply component_spec; auto).
  pose proof (tc_range _ _ Hcyc) as [Hin _].
  destruct (bool_decide (h ∈ seen) || negb (reaches reach h h)) eqn:E.
  - apply IH; try done. apply elem_of_cons in Hi as [->|]; [|done]. exfalso.
    apply orb_true_iff in E as [E%bool_decide_eq_true|E%negb_true_iff]; [done|].
    apply reaches_spec in Hcyc. congruence.
  - apply orb_false_iff in E as [_ E%negb_false_iff%reaches_spec].
    destruct (decide (i ∈ component reach n h)) as [Hc|Hc].
    + pose proof (component_same _ _ Hc) as Es. rewrite <- Es, Hl. by left.
    + assert (component reach n i ∈ cycles_from l tasks functions edges reach (component reach n h ++ seen)) as Hrest.
      { apply IH; try done.
        - apply elem_of_cons in Hi as [->|]; [|done]. by destruct Hc; apply Hself.
        - rewrite elem_of_app. tauto. }
      destruct (leaves tasks functions edges (component reach n h)); [done|by right].
Qed.

(** Nothing of a component that reports no way out has one. *)
Lemma leaves_false c i :
  leaves tasks functions edges c = false → i ∈ c →
  (∀ x, tasks !! i = Some x → can_leave functions x.2 = false) ∧
  ((1 < length (successors tasks i))%nat → ∀ e, e ∈ successors tasks i → ∃ k, e = NextTask k ∧ k ∈ c).
Proof.
  intros Hl Hi. unfold leaves in Hl.
  assert (Hall : ∀ j, j ∈ c → (match tasks !! j with Some (_, t) => can_leave functions t | None => false end ||
    (bool_decide (1 < length (successors tasks j))%nat &&
     existsb (λ e, match e with NextTask k => negb (bool_decide (k ∈ c)) | NextOut => true end) (successors tasks j))) = false).
  { intros j Hj. rewrite <- edges_lookup. apply not_true_iff_false. intros Ht. apply not_true_iff_false in Hl. apply Hl.
    apply existsb_exists. exists j. split; [by apply list_elem_of_In|done]. }
  specialize (Hall i Hi) as [Hcan Hout]%orb_false_iff. split.
  - intros [name t] Hx. by rewrite Hx in Hcan.
  - intros Hlen e He. apply andb_false_iff in Hout as [Hout%bool_decide_eq_false|Hout]; [done|].
    apply not_true_iff_false in Hout.
    assert (match e with NextTask k => negb (bool_decide (k ∈ c)) | NextOut => true end = false) as Hk.
    { apply not_true_iff_false. intros Ht. apply Hout, existsb_exists. exists e. split; [by apply list_elem_of_In|done]. }
    destruct e as [k|]; [|done]. exists k. split; [done|]. by apply negb_false_iff, bool_decide_eq_true in Hk.
Qed.
(** A component without a way out is a trap. *)
Lemma closed_trap i :
  tc jumps i i → leaves tasks functions edges (component reach n i) = false →
  ∀ j, j ∈ component reach n i → ¬ ends_at j ∧ ∀ k, tc jumps j k ↔ k ∈ component reach n i.
Proof.
  intros Hcyc Hl.
  assert (Hin : ∀ j, j ∈ component reach n i → tc jumps i j ∧ tc jumps j i).
  { intros j [_ [->|?]]%component_spec; auto. }
  assert (Hstep : ∀ j e, j ∈ component reach n i → e ∈ successors tasks j →
    ∃ k, e = NextTask k ∧ k ∈ component reach n i).
  { intros j e Hj He. destruct (leaves_false _ _ Hl Hj) as [_ Hmany].
    destruct (decide (1 < length (successors tasks j))%nat) as [Hlen|Hlen]; [by apply Hmany|].
    destruct (Hin j Hj) as [Hij Hji].
    assert (∃ k, jumps j k ∧ (k = i ∨ tc jumps k i)) as (k&Hk&Hki).
    { destruct Hji as [? ? Hs|? k ? Hs Ht]; eauto. }
    assert (e = NextTask k) as ->.
    { unfold jumps in Hk. destruct (successors tasks j) as [|e1 [|e2 l]]; cbn in *;
        [by apply not_elem_of_nil in He| |lia]. apply list_elem_of_singleton in He, Hk. congruence. }
    exists k. split; [done|]. apply component_spec. apply jumps_range in Hk as Hr. split; [lia|].
    destruct Hki as [->|Hki]; [by left|right]. split; [|done]. by eapply tc_r. }
  assert (Hreach : ∀ j k, tc jumps j k → j ∈ component reach n i → k ∈ component reach n i).
  { intros j k. induction 1 as [j k Hs|j k m Hs _ IH]; intros Hj; [|apply IH];
      destruct (Hstep _ _ Hj Hs) as (k'&[= <-]&?); done. }
  intros j Hj. split.
  - intros [Hout|(x&Hx&Hc)].
    + by destruct (Hstep _ _ Hj Hout) as (k&[=]&_).
    + destruct (leaves_false _ _ Hl Hj) as [Hcan _]. by rewrite (Hcan x Hx) in Hc.
  - intros k. split; [intros Hk; by eapply Hreach|]. intros Hk.
    destruct (Hin j Hj) as [_ Hji], (Hin k Hk) as [Hik _]. by eapply tc_transitive.
Qed.

(** ** Every task ends or is led into a loop *)

(** What a task can get to, itself included. *)
Definition region (i : nat) : gset nat := list_to_set (filter (λ j, j = i ∨ reaches reach i j = true) (seq 0 n)).
Lemma region_spec i j : j ∈ region i ↔ (j < n)%nat ∧ rtc jumps i j.
Proof.
  unfold region. rewrite elem_of_list_to_set, list_elem_of_filter, list_elem_of_In, in_seq, reaches_spec, rtc_tc.
  naive_solver lia.
Qed.
Lemma rtc_range i j : (i < n)%nat → rtc jumps i j → (j < n)%nat.
Proof. intros Hi [->|[_ ?]%tc_range]%rtc_tc; done. Qed.
(** A loop all of whose tasks lead back and none of which ends is reported. *)
Lemma trap_reported i :
  (i < n)%nat → (∀ j, rtc jumps i j → ¬ ends_at j ∧ rtc jumps j i) →
  component reach n i ∈ closed_cycles tasks functions ∧ i ∈ component reach n i.
Proof.
  intros Hi Hall. split; [|apply component_spec; auto].
  destruct (successors_some i Hi) as [[k|] He].
  2: { destruct (Hall i) as [Hend _]; [done|]. destruct Hend. by left. }
  assert (Hcyc : tc jumps i i).
  { eapply tc_rtc_r; [by apply tc_once|]. apply Hall. by apply rtc_once. }
  apply cycles_complete; [by apply list_elem_of_In, in_seq; lia|by apply not_elem_of_nil|done|].
  assert (Hin : ∀ j, j ∈ component reach n i → rtc jumps i j).
  { intros j [_ [->|[? _]]]%component_spec; [done|]. by apply tc_rtc. }
  apply not_true_iff_false. intros (j&Hj%list_elem_of_In&Hl)%existsb_exists.
  destruct (Hall j (Hin j Hj)) as [Hend _]. rewrite edges_lookup in Hl.
  apply orb_true_iff in Hl as [Hl|Hl].
  - apply Hend. right. destruct (tasks !! j) as [[name t]|]; [by exists (name, t)|done].
  - apply andb_true_iff in Hl as [_ (e&He'%list_elem_of_In&Hout)%existsb_exists].
    destruct e as [m|]; [|by apply Hend; left]. apply negb_true_iff, bool_decide_eq_false in Hout. apply Hout.
    apply jumps_range in He' as Hr. assert (rtc jumps i m) as Him by (eapply rtc_r; [by apply Hin|done]).
    apply component_spec. split; [lia|right]. split.
    + eapply tc_rtc_l; [by apply Hin|by apply tc_once].
    + eapply tc_rtc_l; [by apply Hall|done].
Qed.
Lemma escape_or_trap i :
  (i < n)%nat → escapes i ∨ ∃ c j, c ∈ closed_cycles tasks functions ∧ j ∈ c ∧ rtc jumps i j.
Proof.
  remember (size (region i)) as k eqn:Hk. revert i Hk. induction (lt_wf k) as [k _ IH]. intros i -> Hi.
  destruct (decide (set_Exists ends_at (region i))) as [(j&[_ Hj]%region_spec&Hend)|Hno].
  { left. by exists j. }
  destruct (decide (set_Exists (λ j, i ∉ region j) (region i))) as [(j&Hj&Hlost)|Hback].
  - apply region_spec in Hj as [Hjn Hj].
    assert (size (region j) < size (region i))%nat as Hless.
    { apply subset_size. split.
      - intros m [Hm Hjm]%region_spec. apply region_spec. split; [done|]. by transitivity j.
      - intros Hsub. apply Hlost, Hsub, region_spec. split; [done|apply rtc_refl]. }
    destruct (IH _ Hless j eq_refl Hjn) as [(m&Hm&Hend)|(c&m&Hc&Hm&Hjm)].
    + left. exists m. split; [by transitivity j|done].
    + right. exists c, m. split_and!; [done..|by transitivity j].
  - right. destruct (trap_reported i Hi) as [Hc Hself]; [|by exists (component reach n i), i].
    intros j Hj. assert (j ∈ region i) as Hreg by (apply region_spec; split; [by eapply rtc_range|done]). split.
    + intros Hend. apply Hno. by exists j.
    + destruct (decide (i ∈ region j)) as [[_ ?]%region_spec|Hn]; [done|]. destruct Hback. by exists j.
Qed.

(** C25: the static check of a list's jumps. Nothing is reported exactly when every task
    of the list has a path to its end, or to a task that may leave it from inside; so
    a list whose end some task cannot reach is always rejected. And what is reported
    is a loop no run leaves: its tasks reach each other and nothing else, and none of
    them ends the list. *)
Theorem closed_cycles_are_traps :
  (closed_cycles tasks functions = [] ↔ ∀ i, (i < n)%nat → escapes i) ∧
  ∀ c, c ∈ closed_cycles tasks functions →
    c ≠ [] ∧ ∀ j, j ∈ c → ¬ ends_at j ∧ ∀ k, tc jumps j k ↔ k ∈ c.
Proof.
  assert (Htraps : ∀ c, c ∈ closed_cycles tasks functions →
    c ≠ [] ∧ ∀ j, j ∈ c → ¬ ends_at j ∧ ∀ k, tc jumps j k ↔ k ∈ c).
  { intros c (i&Hcyc&->&Hl)%cycles_sound. split; [|by apply closed_trap].
    intros E. apply (not_elem_of_nil i). rewrite <- E. apply component_spec. apply tc_range in Hcyc. intuition. }
  split; [|exact Htraps]. split.
  - intros E i Hi. destruct (escape_or_trap i Hi) as [|(c&j&Hc&_)]; [done|]. rewrite E in Hc. by apply not_elem_of_nil in Hc.
  - intros Hall. destruct (closed_cycles tasks functions) as [|c l] eqn:E; [done|exfalso].
    destruct (Htraps c) as [Hne Hc]; [by left|]. destruct c as [|j c]; [done|].
    destruct (Hc j) as [Hend Hreach]; [by left|].
    assert (Hjj : tc jumps j j) by (apply Hreach; by left).
    destruct (Hall j) as (m&Hm&Hends); [apply tc_range in Hjj; lia|].
    assert (m ∈ j :: c) as Hmc by (apply rtc_tc in Hm as [<-|Hm]; [by left|by apply Hreach]).
    by destruct (Hc m Hmc).
Qed.
End list_graph.
