(* ===== verification/FlowSpec.v ===== *)
(** * The interpreter follows the static flow

    [Analysis.successors] against [Interp.steps]: where a task that runs sends its list
    is one of the ways the static check counts, whatever its host, its journal and the
    tasks inside it answer; and the one way it does not count, an extension that exits. *)
From S2P Require Import Prelude Json Outcome Journal Expr Listen Secrets.
From S2P Require Import Drive Calls Branches Model Tasks Waits Compose Interp Execute Alone Ops Saves Traces.
From S2P Require Import Samples DriveSamples.
From S2P Require Import Analysis AnalysisSpec.

(** ** Pools *)

(** A branch yields a result that satisfies [Q], if it yields one. *)
Definition yields_ok (Q : value * option Flow → Prop) (o : drive_op) : Prop :=
  match o with OYield _ r => if_ok Q r | _ => True end.
Lemma yields_branch Q i p : returns Q p → unyielding p → all_ops (yields_ok Q) (branch i p).
Proof.
  unfold branch. induction p as [a| | |o k IH]; cbn; [by intros Hp _; repeat split|by repeat split|done|].
  intros Hp [Ho Hk]. split; [by destruct o|]. intros x. apply (IH x); [apply Hp|apply Hk].
Qed.
Lemma returns_pool_of Q stop queue log running :
  Forall (all_ops (yields_ok Q)) queue → all_ops (yields_ok Q) running → Forall (λ x, if_ok Q x.2) log →
  returns (λ d, match d with inl r => if_ok Q r | inr log => Forall (λ x, if_ok Q x.2) log end)
    (pool_of stop queue log running).
Proof.
  intros Hq. revert log running. induction Hq as [|p queue Hp Hq IHq]; intros log running Hr; revert log;
    (induction running as [| | |o k IH]; intros log Hlog; [done..|]); destruct Hr as [Ho Hk];
    (assert (Hy : is_yield o ∨ ¬ is_yield o) by (destruct o; cbn; auto)); destruct Hy as [Hy|Hy];
    try (rewrite pool_of_op by done; intros x; apply IH; [apply Hk|done]);
    (destruct o; try done; rewrite pool_of_yield; destruct (stop r); [exact Ho|]);
    assert (Forall (λ x, if_ok Q x.2) (log ++ [(branch, r)])) as Hlog'
      by (apply Forall_app; split; [done|by repeat constructor]).
  - apply IH; [apply Hk|done].
  - apply IHq; [|done]. apply ops_both; [done|apply Hk|done].
Qed.
Lemma returns_pool Q stop limit l :
  Forall (λ p, returns Q p ∧ unyielding p) l →
  returns (λ d, match d with inl r => if_ok Q r | inr log => Forall (λ x, if_ok Q x.2) log end) (pool stop limit l).
Proof.
  intros Hl. assert (Hparts : Forall (all_ops (yields_ok Q)) (imap branch l)).
  { apply Forall_forall. intros p Hp. apply elem_of_lookup_imap in Hp as (i&q&->&Hq).
    rewrite Forall_forall in Hl. destruct (Hl q); [by eapply list_elem_of_lookup_2|]. by apply yields_branch. }
  apply returns_pool_of; [by apply Forall_drop| |done].
  apply Forall_take with (n := limit) in Hparts. induction Hparts; [done|]. cbn. by apply ops_both.
Qed.

(** ** The directive of a kind *)

Definition none_or_end (x : value * option Flow) : Prop := x.2 = None ∨ x.2 = Some End_.
Lemma ended_none_or_end n : none_or_end (ended n).
Proof. destruct n; [by left|by left|by right]. Qed.
Lemma gather_none_or_end l out wake e :
  Forall (if_ok none_or_end) l → e = None ∨ e = Some End_ → if_ok none_or_end (gather l out wake e).
Proof.
  intros Hl. revert out wake e. induction Hl as [|r l Hr Hl IH]; intros out wake e He; cbn; [by destruct wake|].
  destruct r as [[v fl]|[]]; cbn; try done; apply IH; [|done]. by destruct fl as [f|].
Qed.
Lemma log_results Q (log : list (nat * branch_result)) n :
  Forall (λ x, if_ok Q x.2) log → Forall (if_ok Q) (result_of log <$> seq 0 n).
Proof.
  intros Hlog. apply Forall_fmap, Forall_forall. intros i _. cbn. unfold result_of.
  destruct (list_find _ log) as [[j [k r]]|] eqn:E; [|done]. apply list_find_Some in E as (Hj&_).
  rewrite Forall_forall in Hlog. by apply (Hlog (k, r)), list_elem_of_lookup_2 with j.
Qed.

(** The directives a task that runs may choose itself. *)
Definition kind_ways (t : Task) (x : value * option Flow) : Prop :=
  match tk_kind t with
  | KRaise _ => False
  | KSwitch cases =>
      (∃ c, c ∈ cases ∧ x.2 = Some (case_then c.2)) ∨ (x.2 = None ∧ ∀ c, c ∈ cases → case_when c.2 ≠ None)
  | KTry _ c => none_or_end x ∨ x.2 = catch_then c
  | _ => none_or_end x
  end.

Lemma first_case_in `{Host} cases input a f : first_case cases input a = Ok (Some f) → ∃ c, c ∈ cases ∧ f = case_then c.2.
Proof.
  induction cases as [|[name c] cases IH]; cbn; [done|].
  destruct (match case_when c with Some w => _ | None => _ end) as [[|]|]; cbn; [|intros (c'&Hc&->)%IH|done].
  - intros [= <-]. exists (name, c). split; [by left|done].
  - exists c'. split; [by right|done].
Qed.
Lemma default_case_in cases :
  match default_case cases with
  | Some f => ∃ c, c ∈ cases ∧ f = case_then c.2
  | None => ∀ c, c ∈ cases → case_when c.2 ≠ None
  end.
Proof.
  unfold default_case. destruct (list_find _ cases) as [[i c]|] eqn:E; cbn.
  - apply list_find_Some in E as (Hc&_). exists c. split; [by eapply list_elem_of_lookup_2|done].
  - apply list_find_None in E. by rewrite Forall_forall in E.
Qed.

Lemma kind_ways_out t v v' fl : kind_ways t (v, fl) → kind_ways t (v', fl).
Proof. unfold kind_ways, none_or_end. by destruct (tk_kind t). Qed.

Lemma returns_ends {A} (Q : A → Prop) p t a : returns Q p → ends p t (Ok a) → Q a.
Proof.
  revert t. induction p as [b| | |o k IH]; intros t Hp; [by intros [_ [= ->]]|by intros [_ ?]..|].
  intros (x&t'&_&Ht). by apply (IH x t').
Qed.

Section flow.
Context `{Host, Functions, Formats} (su : Setup) (fuel turns : nat).
Local Abbreviation run_task := (task su fuel).

Lemma returns_for items i each at_ condition tasks reference input scope desc data :
  returns none_or_end (for_each su run_task turns items i each at_ condition tasks reference input scope desc data).
Proof.
  revert i data. induction items as [|item items IH]; intros i data; [by left|]. cbn [for_each].
  repeat returns_step; [apply IH|apply IH|by right|by left].
Qed.
Lemma returns_concurrent items each at_ limit tasks reference input scope :
  returns none_or_end (concurrent su run_task turns items each at_ limit tasks reference input scope).
Proof.
  unfold concurrent. apply returns_after. intros ctx. apply returns_bind. eapply returns_mono; [|apply returns_pool with (Q := none_or_end)].
  - intros [r|log] Hd; apply returns_or_fault; [done|]. apply gather_none_or_end; [by apply log_results|by left].
  - apply Forall_forall. intros p Hp. apply elem_of_lookup_imap in Hp as (i&item&->&_). split.
    + repeat returns_step. apply ended_none_or_end.
    + apply (ops_mono (accounted su)). { intros o Ho Hy. by destruct o. }
      apply ops_bind; [|intros [[] ?]; exact I]. apply ops_in_context, fine_run_list. intros. apply fine_task.
Qed.
Lemma returns_foreach f reference n item scope :
  returns none_or_end (foreach su run_task turns f reference n item scope).
Proof.
  unfold foreach. apply returns_after. intros next. pose proof (ended_none_or_end next) as He.
  destruct (ended next) as [out flow]. cbn [snd] in He. repeat returns_step. exact He.
Qed.
Lemma returns_listen t l reference input scope desc deadline :
  returns none_or_end (run_listen su run_task turns t l reference input scope desc deadline).
Proof.
  assert (Hfrom : ∀ n routes i p consumed outputs subscribed,
    returns none_or_end (listen_from su run_task turns n t l routes reference i p consumed outputs subscribed
                           input scope desc deadline)).
  { intros n routes. induction n as [|n IH]; intros; [done|]. cbn [listen_from].
    destruct (p_done p); [repeat returns_step; by left|].
    apply returns_after. intros [event subscribed']. do 2 (apply returns_after; intros ?).
    apply returns_after. intros [offer_ p']. case_decide; [|apply IH].
    apply returns_bind. destruct (li_foreach l) as [f|]; cbn [when_some].
    - apply returns_bind. eapply returns_mono; [|apply returns_foreach]. intros [out [flow|]] Hr.
      + apply returns_ret. repeat returns_step. exact Hr.
      + apply returns_ret. repeat returns_step; apply IH.
    - apply returns_ret. repeat returns_step; apply IH. }
  unfold run_listen. repeat returns_step. apply Hfrom.
Qed.
Lemma returns_handle c reference input caught :
  returns (λ x, none_or_end x ∨ x.2 = catch_then c) (handle su run_task turns c reference input caught).
Proof.
  unfold handle. destruct (catch_tasks c); [|by right]. apply returns_after. intros next.
  pose proof (ended_none_or_end next) as He. destruct (ended next) as [out [flow|]]; [by left|by right].
Qed.
Lemma returns_attempt tasks c reference input scope desc :
  returns (λ x, none_or_end x ∨ x.2 = catch_then c) (attempt su run_task turns tasks c reference input scope desc).
Proof.
  assert (Hfrom : ∀ n snapshot began i, returns (λ x, none_or_end x ∨ x.2 = catch_then c)
    (attempt_from su run_task turns n tasks c reference input snapshot scope desc began i)).
  { intros n snapshot began. induction n as [|n IH]; intros i; [done|]. cbn [attempt_from].
    do 2 (apply returns_after; intros ?). cbv zeta. do 2 (apply returns_after; intros ?).
    repeat returns_step; try apply IH; try (left; apply ended_none_or_end).
    apply returns_handle. }
  unfold attempt. repeat returns_step. apply Hfrom.
Qed.
Lemma returns_switch cases input a :
  returns (λ hit, (∃ c, c ∈ cases ∧ match hit with Some f => Some f | None => default_case cases end = Some (case_then c.2))
      ∨ (match hit with Some f => Some f | None => default_case cases end = None ∧ ∀ c, c ∈ cases → case_when c.2 ≠ None))
    (or_fault (first_case cases input a)).
Proof.
  apply returns_or_fault. destruct (first_case cases input a) as [[f|]|] eqn:E; cbn; [left| |done].
  - apply first_case_in in E as (c&Hc&->). by exists c.
  - pose proof (default_case_in cases) as Hd. destruct (default_case cases) as [f|]; [left|right; done].
    destruct Hd as (c&Hc&->). by exists c.
Qed.
(** What a kind chooses is one of the task's ways. *)
Lemma returns_kind t reference input scope desc deadline :
  returns (kind_ways t) (kind su run_task turns t reference input scope desc deadline).
Proof.
  unfold kind, kind_ways. destruct (tk_kind t) as [| |? ? items ? [limit|]| | |cases|tasks c| | | | |];
    cbv zeta; try solve [repeat first
      [apply returns_for|apply returns_concurrent|apply returns_attempt|apply returns_listen
      |apply returns_after; intros ?]; first [by left|apply returns_ret, ended_none_or_end|exact I]].
  apply returns_after. intros a. apply returns_bind. eapply returns_mono; [|apply returns_switch].
  intros hit Hhit. apply Hhit.
Qed.

(** ** The task in its list *)

(** Extensions around a task leave its directive, drop it, or end the workflow. *)
Lemma returns_layer chosen t reference around inner data :
  (∀ data, returns (kind_ways t) (inner data)) →
  returns (λ x, kind_ways t x ∨ (chosen ≠ [] ∧ none_or_end x)) (layer su run_task turns chosen reference around inner data).
Proof.
  intros Hinner. revert data. induction chosen as [|[[index name] e] l IH]; intros data; cbn [layer].
  - eapply returns_mono; [|apply Hinner]. auto.
  - apply returns_after. intros [v|v|v]; [|right; split; [done|by left]|right; split; [done|by right]].
    apply returns_bind. eapply returns_mono; [|apply IH]. intros [out flow] Hx.
    destruct (ex_after e); [|apply returns_ret; destruct Hx as [|[_ ?]]; auto].
    apply returns_after. intros next. apply returns_ret.
    assert (Hkept : ∀ v', kind_ways t (v', flow) ∨ ((index, name, e) :: l ≠ [] ∧ none_or_end (v', flow))).
    { intros v'. destruct Hx as [Hx|[_ Hx]]; [left; by eapply kind_ways_out|by right]. }
    destruct next; [apply Hkept|apply Hkept|right; split; [done|by right]].
Qed.
Lemma returns_timed {Q : value * option Flow → Prop} t reference started_ms limit body :
  (∀ deadline, returns Q (body deadline)) → returns Q (timed su t reference started_ms limit body).
Proof.
  intros Hbody. unfold timed. apply returns_after. intros done. destruct limit as [limit|]; [|apply Hbody].
  destruct done; [apply Hbody|]. cbv zeta.
  assert (Htimer : ∀ ms, returns (if_some (if_ok Q)) (with_timer ms (reify (body None)))).
  { intros ms. apply returns_timer, returns_reify, Hbody. }
  destruct (tk_kind t).
  all: try (apply returns_after; intros rest; destruct rest as [x|f]; apply returns_bind;
    (eapply returns_mono; [|apply Htimer]); intros [[a|f']|] Ha; repeat returns_step; exact Ha).
  apply returns_bind. eapply returns_mono; [|apply returns_reify, Hbody].
  intros [a|[]] Ha; [exact Ha|done..].
Qed.
(** The directive a task that ran gives its list. *)
Definition static_flow (t : Task) (f : Flow) : Prop :=
  f = End_ ∨ (f = default Continue (tk_then t) ∧ kind_ways t (VNull, None)) ∨ (∃ g, f = g ∧ kind_ways t (VNull, Some g))
  ∨ (is_Some (tk_when t) ∧ f = Continue).
Definition extended (f : Flow) (t : Task) : Prop :=
  us_extensions (wf_uses (su_wf su)) ≠ [] ∧ f = default Continue (tk_then t).
Lemma returns_finish t reference input scope desc out flow :
  returns (λ x, x.2 = match flow with Some f => f | None => default Continue (tk_then t) end)
    (finish_steps su run_task t reference input scope desc out flow).
Proof. unfold finish_steps. do 3 (apply returns_after; intros ?). by apply returns_ret. Qed.
Lemma returns_steps t name reference raw scope started_ms :
  returns (λ x, static_flow t x.2 ∨ extended x.2 t) (steps su run_task turns t name reference raw scope started_ms).
Proof.
  unfold steps. apply returns_after. intros desc. apply returns_bind.
  apply returns_mono with (λ runs, runs = true ∨ is_Some (tk_when t)).
  2: { destruct (tk_when t); [|by left]. eapply returns_mono; [|apply returns_any]. intros; right; eauto. }
  intros [|] Hruns; cbn [negb]; [|apply returns_ret; left; do 3 right; by destruct Hruns].
  do 3 (apply returns_after; intros ?). rename a0 into input, a1 into limit.
  assert (Hrun : returns (λ x, static_flow t x.2 ∨ extended x.2 t)
    ('(chosen, described) ← extensions su t reference input scope desc;
      '(out, flow) ← timed su t reference started_ms limit (λ deadline,
        layer su run_task turns chosen reference (scope ++ [("task", described)])
          (λ input, kind su run_task turns t reference input scope desc deadline) input);
      finish_steps su run_task t reference input scope desc out flow)).
  { apply returns_bind. apply returns_mono with (λ x, x.1 = [] ∨ us_extensions (wf_uses (su_wf su)) ≠ []).
    2: { unfold extensions. case_bool_decide; [by left|]. eapply returns_mono; [|apply returns_any]. auto. }
    intros [chosen described] Hchosen. apply returns_bind. eapply returns_mono.
    2: { apply returns_timed. intros deadline. apply returns_layer. intros data. apply returns_kind. }
    intros [out flow] Hflow. eapply returns_mono; [|apply returns_finish]. intros [out' f] Hf. cbn in Hf |- *. subst f.
    destruct Hflow as [Hk|[Hne [Hn|Hn]]]; cbn in *; subst.
    - left. right. destruct flow as [f|]; [right; left; exists f|left]; (split; [done|by eapply kind_ways_out]).
    - right. split; [|done]. by destruct Hchosen.
    - by do 2 left. }
  unfold guarded. destruct ((λ l, _) <$> limit); [|exact Hrun].
  apply returns_after. intros ?. apply returns_bind. eapply returns_mono; [|apply returns_reify, Hrun].
  intros r Hr. apply returns_after. intros ?. by apply returns_or_fault.
Qed.

Lemma static_successor tasks i name t f :
  tasks !! i = Some (name, t) → static_flow t f → f = End_ ∨ flow_to tasks i f ∈ successors tasks i.
Proof.
  intros Hi Hf. unfold successors. rewrite Hi.
  assert (Hown : ∀ e, e ∈ ways_out tasks i t → e ∈ successors_of tasks i t) by (intros; apply successors_of_elem; by left).
  destruct Hf as [->|[[-> Hk]|[(g&->&Hk)|[Hw ->]]]]; [by left|right; apply Hown| |right; apply successors_of_elem; by right].
  - unfold ways_out, kind_ways in *. destruct (tk_kind t); try (by left); [|done].
    apply elem_of_app. right. destruct Hk as [(c&_&[=])|[_ Hno]].
    destruct (existsb _ cases) eqn:E; [|by left]. apply existsb_exists in E as (c&Hc&Hd%bool_decide_eq_true).
    by destruct (Hno c); [apply list_elem_of_In|].
  - unfold kind_ways, none_or_end in Hk. cbn in Hk. unfold ways_out in Hown.
    destruct (tk_kind t); try (by destruct Hk as [[=]|[= ->]]; left); [| |done].
    + destruct Hk as [(c&Hc&[= ->])|[[=] _]]. right. apply Hown, elem_of_app. left.
      apply list_elem_of_In, in_map_iff. exists c. split; [done|by apply list_elem_of_In].
    + destruct Hk as [[[=]|[= ->]]|Hk]; [by left|]. right. apply Hown. rewrite <- Hk. right. by left.
Qed.

(** the interpreter goes only where the static check looks. Whatever the host, the
    journal and the tasks inside it answer, a task of a list that runs and ends with a
    directive ends the workflow or sends the list to one of [successors]; but where
    the workflow has extensions, one that exits leaves the task's own [then]. *)
Theorem steps_follow_successors tasks i name t at_ reference raw scope started_ms trace v f :
  tasks !! i = Some (name, t) →
  ends (steps su (task su fuel) turns t at_ reference raw scope started_ms) trace (Ok (v, f)) →
  f = End_ ∨ flow_to tasks i f ∈ successors tasks i ∨
  (us_extensions (wf_uses (su_wf su)) ≠ [] ∧ f = default Continue (tk_then t)).
Proof.
  intros Hi Ht. pose proof (returns_ends _ _ _ _ (returns_steps t at_ reference raw scope started_ms) Ht) as [Hf|Hf].
  - destruct (static_successor _ _ _ _ _ Hi Hf); auto.
  - auto.
Qed.
End flow.

(** A branch of a switch taken by the loop's first task. *)
Definition switch_list : TaskList :=
  [("a", plain (KSwitch [("out", mkCase (Some "true") Exit); ("again", mkCase None (Goto "a"))]) None)].
Definition switch_task : Task := default demo_task (snd <$> head switch_list).
Definition switch_steps : drive (value * Flow) :=
  steps (H := jumps_host) (H0 := demo_functions) (H1 := demo_formats) demo_setup
    (task (H := jumps_host) (H0 := demo_functions) (H1 := demo_formats) demo_setup 3) 3 switch_task "a" "/do/0/a" VNull [] 1000.
Lemma steps_follow_successors_witness :
  ∃ v f, ends switch_steps (traced demo_env switch_steps empty_shared) (Ok (v, f)) ∧
    (f = End_ ∨ flow_to switch_list 0 f ∈ successors switch_list 0 ∨
     (us_extensions (wf_uses (su_wf demo_setup)) ≠ [] ∧ f = default Continue (tk_then switch_task))).
Proof.
  pose proof (traced_ends demo_env switch_steps empty_shared) as Ht.
  assert ((alone demo_env switch_steps empty_shared).1.1 = Ok (VNull, Goto "a")) as E by (vm_compute; reflexivity).
  rewrite E in Ht. exists VNull, (Goto "a"). split; [exact Ht|].
  exact (steps_follow_successors (H := jumps_host) (H0 := demo_functions) (H1 := demo_formats) demo_setup 3 3
           switch_list 0 "a" switch_task "a" "/do/0/a" VNull [] 1000 _ VNull (Goto "a") eq_refl Ht).
Defined.

(** A list whose only task goes back to itself, in a workflow whose extension exits. *)
Definition spin_list : TaskList := [("a", plain (KSwitch [("again", mkCase None (Goto "a"))]) None)].
Definition exit_extension : Extension :=
  mkExtension "switch" None (Some [("skip", plain (KSet (VObj ∅)) (Some Exit))]) None.
Definition spin_start : Start :=
  mkStart
    (mkWorkflow "n" "w" "1.0.0" None None (mkUses [] [] [("leave", exit_extension)] []) spin_list None
       (mkBudget None XRaise) VNull)
    "r" VNull (Some 1000) (mkLimits 100 10 10 None None None) VNull true.
(** What the static check does not count. A list is reported as a loop that can
    never end, though no task of an extension is one the check lets excuse it, while a
    run of it completes: an extension's [then: exit] skips the task it is around, and
    the task's list goes on to its end. *)
Theorem rejected_list_can_end :
  closed_cycles spin_list [] = [[0%nat]] ∧
  existsb (λ x, existsb (λ y : string * Task, can_leave [] y.2) (default [] (ex_before x.2) ++ default [] (ex_after x.2)))
    (us_extensions (wf_uses (st_wf spin_start))) = false ∧
  status_on (H := jumps_host) (H0 := demo_functions) (H1 := demo_formats) 20 demo_env spin_start ∅
    = Some (Completed (VObj ∅)).
Proof. vm_compute. auto. Qed.
