(* ===== verification/Survey.v ===== *)
(** * What a drive can ask for

    A [Survey] says which tasks a drive may run and what a task among them may ask of
    the host: functions, processes, children, schemas, events. Its laws follow a
    definition: its lists, functions, extensions and handler are among the tasks, and
    so is what a task holds. Whatever a drive is answered, it asks for nothing else
    ([surveyed_execution]). [Listed] and [Valid] are two surveys. *)
From S2P Require Import Prelude Json Outcome Journal Expr Listen Secrets.
From S2P Require Import Drive Calls Branches Model Tasks Waits Compose Interp Execute Alone Ops.

(** The lists of tasks a task holds. *)
Definition nested (k : Kind) : list TaskList :=
  match k with
  | KDo tasks | KFor _ _ _ _ _ tasks | KFork tasks _ => [tasks]
  | KTry tasks c => tasks :: match catch_tasks c with Some h => [h] | None => [] end
  | KListen l => match li_foreach l with Some f => [fe_tasks f] | None => [] end
  | _ => []
  end.

Class Survey (wf : Workflow) := {
  in_survey : Task → Prop;
  may_call : string → Prop;
  may_process : string → Prop;
  may_start : string → string → string → Prop;
  may_resolve : string → Prop;
  may_listen : Prop;
  may_emit : Prop;
  within_nested t l : in_survey t → l ∈ nested (tk_kind t) → ∀ x, x ∈ l → in_survey x.2;
  within_main x : x ∈ wf_tasks wf → in_survey x.2;
  within_function name f : named name (us_functions (wf_uses wf)) = Some f → in_survey f;
  within_extension x l :
    x ∈ us_extensions (wf_uses wf) → ex_before x.2 = Some l ∨ ex_after x.2 = Some l → ∀ y, y ∈ l → in_survey y.2;
  within_handler h : bu_on_exceeded (wf_budget wf) = XTask h → in_survey h;
  within_call t f w :
    in_survey t → tk_kind t = KCall f w → named (function_name f) (us_functions (wf_uses wf)) = None →
    may_call (function_name f);
  within_process t r :
    in_survey t → tk_kind t = KRun r →
    match run_process_of r with
    | PWorkflow namespace name version _ => may_start namespace name version
    | PExternal kind _ => may_process kind
    end;
  within_listen t l : in_survey t → tk_kind t = KListen l → may_listen;
  within_emit t w : in_survey t → tk_kind t = KEmit w → may_emit;
  within_io t uri :
    in_survey t →
    Some (Resource uri) = (tk_input t ≫= in_schema) ∨ Some (Resource uri) = (tk_output t ≫= out_schema) ∨
    Some (Resource uri) = (tk_export t ≫= out_schema) → may_resolve uri;
  within_foreach t l f uri :
    in_survey t → tk_kind t = KListen l → li_foreach l = Some f →
    Some (Resource uri) = (fe_output f ≫= out_schema) ∨ Some (Resource uri) = (fe_export f ≫= out_schema) →
    may_resolve uri;
  workflow_io uri :
    Some (Resource uri) = (wf_input wf ≫= in_schema) ∨ Some (Resource uri) = (wf_output wf ≫= out_schema) →
    may_resolve uri
}.

(** What a survey allows: each call, child, schema, subscription and event is of what it
    names; a call is of no function the definition defines itself. *)
Section allowed.
Context (wf : Workflow) {survey : Survey wf}.
Definition target_allowed (t : Target) : Prop :=
  match t with
  | TFunction name => may_call name ∧ named name (us_functions (wf_uses wf)) = None
  | TProcess kind => may_process kind
  end.
Fixpoint allowed (o : drive_op) : Prop :=
  match o with
  | ODispatch d => target_allowed (dp_target d)
  | OChild c => may_start (cs_namespace c) (cs_name c) (cs_version c)
  | OSchema uri => may_resolve uri
  | OEvents (EvSubscribe _ _) => may_listen
  | OEmit _ _ => may_emit
  | ORace _ o => allowed o
  | _ => True
  end.
#[export] Instance allowed_closed : Closed allowed.
Proof. by split. Qed.
End allowed.

(** ** What the parts of a drive ask for *)

Section drive.
Context `{Host, Functions, Formats}.
Variable su : Setup.
Local Abbreviation wf := (su_wf su).
Context {survey : Survey wf}.
Local Abbreviation fine := (all_ops (allowed wf)).
Local Abbreviation all_inside l := (∀ x : string * Task, x ∈ l → in_survey x.2).
Definition resolved (s : option Schema) : Prop := ∀ uri, s = Some (Resource uri) → may_resolve uri.

(** Operations that name nothing. *)
#[local] Hint Extern 1 (all_ops (allowed _) (perform _)) => (split; [exact I|done]) : ops.
Lemma surveyed_note key r : fine (note key r).
Proof. unfold note. ops. Qed.
Lemma surveyed_save key r : fine (save (su_durable su) (su_secrets su) key r).
Proof. unfold save. assert (Hn := surveyed_note key r). ops. Qed.
Lemma surveyed_tell e : match e with EvSubscribe _ _ => may_listen | _ => True end → fine (tell e).
Proof. intros He. unfold tell. apply ops_bind; [by destruct e|intros ?; ops]. Qed.
#[local] Hint Resolve surveyed_note surveyed_save : ops.
#[local] Hint Extern 1 (all_ops (allowed _) (tell _)) => (apply surveyed_tell; first [exact I|assumption]) : ops.
Lemma surveyed_unknown_call key logical_ name args_ reference :
  fine (unknown_call (su_durable su) (su_secrets su) key logical_ name args_ reference).
Proof. unfold unknown_call. ops. Qed.
#[local] Hint Resolve surveyed_unknown_call : ops.
Lemma surveyed_external_call t args_ reference declared :
  target_allowed wf t → fine (external_call (su_durable su) (su_secrets su) t args_ reference declared).
Proof.
  intros Ht. unfold external_call, restore_call, make_call, answered_call, ephemeral_answer.
  assert (Hsend : ∀ d, dp_target d = t → fine (perform (ODispatch d))).
  { intros d <-. by split. }
  do 3 (apply ops_bind; [ops|intros ?]). destruct a1; [ops|]. destruct (known_target t); [|ops].
  apply ops_bind; [ops|intros ?]. destruct (if decide _ then _ else _); [ops|].
  do 3 (apply ops_bind; [ops|intros ?]). apply ops_bind; [by apply Hsend|]. intros [[r ann]|]; [|ops].
  destruct (annotated _ _ _) as [r' ann']. ops.
Qed.
Lemma surveyed_sleep_for d key : fine (sleep_for su d key).
Proof. unfold sleep_for, sleep. ops. Qed.
Lemma surveyed_emit with_ reference input a : may_emit → fine (emit su with_ reference input a).
Proof.
  intros Hemit.
  assert (Hhand : ∀ l e, fine (hand_over su (reference +:+ "#call") l reference e)).
  { intros. unfold hand_over. apply ops_bind; [ops|intros _]. apply ops_bind; [by split|intros ?; ops]. }
  unfold emit, fresh_envelope. ops.
Qed.
Lemma surveyed_args ctx input output task_ scope : fine (args su ctx input output task_ scope).
Proof. unfold args, run_argument. ops. Qed.
Lemma surveyed_forget prefix : fine (forget_deadlines prefix).
Proof. unfold forget_deadlines. ops. Qed.
#[local] Hint Resolve surveyed_sleep_for surveyed_args surveyed_forget : ops.
Lemma surveyed_conform s v what : resolved s → fine (conform_opt s v what).
Proof.
  intros Hs. unfold conform_opt. destruct s as [s|]; cbn [when_some]; [|done].
  unfold conform. destruct s as [d|uri]; [ops|]. destruct fn_resources; [|done]. apply ops_bind; [|intros []; ops].
  split; [by apply Hs|done].
Qed.
Lemma surveyed_take_within fuel key routes hold : fine (take_within su fuel key routes hold).
Proof. induction fuel as [|fuel IH]; [done|]. cbn [take_within]. ops. Qed.
#[local] Hint Resolve surveyed_take_within : ops.
Lemma surveyed_next_event fuel t reference key routes input scope desc deadline :
  fine (next_event su fuel t reference key routes input scope desc deadline).
Proof. unfold next_event, expire. ops. Qed.
Lemma surveyed_run_child run namespace name version template reference input a :
  may_start namespace name version →
  fine (run_child su run namespace name version template reference input a).
Proof.
  intros Hp. assert (Hstart : ∀ key h i o, fine (start_child key namespace name version h i o)).
  { intros. unfold start_child, start_failed. apply ops_bind; [by split|intros r]. ops. }
  unfold run_child, child_event. ops.
Qed.
#[local] Hint Resolve surveyed_next_event : ops.

(** ** Tasks *)

Section over_task.
Variable run_task : Task → string → string → value → Scope → drive (value * Flow).
Variable fuel : nat.
Hypothesis Htask : ∀ t name reference raw scope, in_survey t → fine (run_task t name reference raw scope).

Lemma surveyed_run_argument visits : fine (run_argument su visits).
Proof. unfold run_argument. ops. Qed.
#[local] Hint Resolve surveyed_run_argument : ops.
Lemma surveyed_run_list tasks at_ input scope : all_inside tasks → fine (run_list su run_task fuel tasks at_ input scope).
Proof.
  intros Hin. unfold run_list. generalize (outer_visits scope) 0%nat (replicate (length tasks) 0) input. intros outer.
  induction fuel as [|n IH]; intros i visits data; [done|]. cbn [list_from].
  destruct (tasks !! i) as [[name t]|] eqn:E; [|done].
  assert (in_survey t) as Ht by (apply (Hin (name, t)), list_elem_of_lookup_2 with i, E).
  cbv zeta. apply ops_bind; [ops|intros run]. apply ops_bind; [by apply Htask|intros [out flow]]. ops.
Qed.
Lemma surveyed_chosen i l t input scope described :
  fine (select_extensions su i l t input scope described) ∧
  returns (λ chosen, ∀ x, x ∈ chosen → (x.1.2, x.2) ∈ l) (select_extensions su i l t input scope described).
Proof.
  revert i. induction l as [|[name e] l IH]; intros i; cbn [select_extensions].
  { split; [done|]. apply returns_ret. by intros x ?%not_elem_of_nil. }
  destruct (IH (S i)) as [Hops Hret]. split; [ops; apply IH|].
  apply returns_after. intros hit. apply returns_bind. eapply returns_mono; [|exact Hret].
  intros rest Hrest. apply returns_ret. intros x Hx. destruct hit.
  - apply elem_of_cons in Hx as [->|Hx]; [by left|right; by apply Hrest].
  - right. by apply Hrest.
Qed.
Definition around_task (l : list (nat * string * Extension)) : Prop :=
  ∀ x, x ∈ l → (x.1.2, x.2) ∈ us_extensions (wf_uses wf).
Lemma surveyed_extensions t reference input scope desc :
  fine (extensions su t reference input scope desc) ∧
  returns (λ x, around_task x.1) (extensions su t reference input scope desc).
Proof.
  unfold extensions. case_match; [split; [done|]; by intros x ?%not_elem_of_nil|]. cbv zeta.
  destruct (surveyed_chosen 0 (us_extensions (wf_uses wf)) t input scope
    (VObj (match desc with VObj m => m | _ => ∅ end ∪ match tk_definition t with VObj m => m | _ => ∅ end))) as [Hops Hret].
  split; [by apply ops_bind|]. apply returns_bind. eapply returns_mono; [|exact Hret]. done.
Qed.
Lemma surveyed_layer l reference around inner data :
  around_task l → (∀ v, fine (inner v)) → fine (layer su run_task fuel l reference around inner data).
Proof.
  intros Hl Hinner. revert data. induction l as [|[[i name] e] l IH]; intros data; [apply Hinner|]. cbn [layer].
  assert (Hin : ∀ tasks, ex_before e = Some tasks ∨ ex_after e = Some tasks → all_inside tasks).
  { intros tasks Hl'. apply (within_extension (name, e)); [|done]. apply (Hl (i, name, e)). by left. }
  assert (Hrest : ∀ data, fine (layer su run_task fuel l reference around inner data)).
  { apply IH. intros x Hx. apply Hl. by right. }
  apply ops_bind.
  - destruct (ex_before e) as [tasks|]; [|done]. apply surveyed_run_list, Hin. by left.
  - intros [v|v|v]; [|done..]. apply ops_bind; [apply Hrest|]. intros [out flow].
    destruct (ex_after e) as [tasks|]; [|done]. apply ops_bind; [apply surveyed_run_list, Hin; by right|done].
Qed.
Lemma surveyed_call t a reference delivery_ :
  match t with TFunction name => named name (us_functions (wf_uses wf)) = None → may_call name | TProcess kind => may_process kind end →
  fine (call su run_task t a reference delivery_).
Proof.
  intros Ht. unfold call. destruct t as [name|kind].
  - destruct (named name (us_functions (wf_uses wf))) as [f|] eqn:E.
    + destruct (decide _); [|done]. apply ops_bind; [apply Htask|intros [? ?]; ops]. by eapply within_function.
    + apply surveyed_external_call. split; auto.
  - by apply surveyed_external_call.
Qed.
Lemma surveyed_run_process run reference input a delivery_ :
  match run_process_of run with
  | PWorkflow namespace name version _ => may_start namespace name version
  | PExternal kind _ => may_process kind
  end → fine (run_process su run_task run reference input a delivery_).
Proof.
  intros Hr. unfold run_process. destruct (run_process_of run) as [namespace name version template|kind definition].
  - by apply surveyed_run_child.
  - apply ops_bind; [ops|intros rendered]. cbv zeta. apply ops_bind; [by apply surveyed_call|intros out; ops].
Qed.
Lemma surveyed_for_each items i each at_ condition tasks reference input scope desc data :
  all_inside tasks →
  fine (for_each su run_task fuel items i each at_ condition tasks reference input scope desc data).
Proof.
  intros Hin. revert i data. induction items as [|item items IH]; intros i data; [done|]. cbn [for_each].
  assert (Hlist := λ at_ input scope, surveyed_run_list tasks at_ input scope Hin). ops.
Qed.
Lemma surveyed_concurrent items each at_ limit tasks reference input scope :
  all_inside tasks → fine (concurrent su run_task fuel items each at_ limit tasks reference input scope).
Proof.
  intros Hin. assert (Hlist := λ at_ input scope, surveyed_run_list tasks at_ input scope Hin). unfold concurrent. ops.
Qed.
Lemma surveyed_fork branches compete at_ input scope :
  all_inside branches → fine (fork su run_task branches compete at_ input scope).
Proof.
  intros Hin. assert (Hpool : ∀ stop limit ctx, fine (pool stop limit (imap (fork_branch run_task at_ input ctx scope) branches))).
  { intros. apply ops_pool; [typeclasses eauto|]. apply ops_imap_in. intros i b Hb. unfold fork_branch.
    apply ops_bind; [|intros [[] ?]; ops]. apply ops_in_context, Htask, (Hin b Hb). }
  unfold fork. revert Hpool. generalize pool. intros pool_ Hpool. ops.
Qed.
Lemma surveyed_output_of o what out a : resolved (o ≫= out_schema) → fine a → fine (output_of o what out a).
Proof. intros Ho Ha. assert (Hc := λ v what, surveyed_conform _ v what Ho). unfold output_of. ops. Qed.
Lemma surveyed_export_to e out a : resolved (e ≫= out_schema) → (∀ ctx, fine (a ctx)) → fine (export_to e out a).
Proof.
  intros He Ha. unfold export_to. destruct e as [e|]; [|done]. cbn [when_some].
  assert (Hc := λ v what, surveyed_conform (out_schema e) v what He). ops.
Qed.
Lemma surveyed_foreach t l f reference n item scope :
  in_survey t → tk_kind t = KListen l → li_foreach l = Some f →
  fine (foreach su run_task fuel f reference n item scope).
Proof.
  intros Ht Ek Ef. unfold foreach.
  assert (all_inside (fe_tasks f)) as Hin.
  { apply (within_nested t); [done|]. rewrite Ek. cbn. rewrite Ef. by left. }
  apply ops_bind; [by apply surveyed_run_list|]. intros next. destruct (ended next) as [out flow].
  apply ops_bind; [apply surveyed_output_of; [intros uri E; eapply within_foreach; eauto|ops]|intros out'].
  apply ops_bind; [apply surveyed_export_to; [intros uri E; eapply within_foreach; eauto|intros; ops]|done].
Qed.
Lemma surveyed_report_wait listen routes reference key p input scope desc deadline :
  fine (report_wait su listen routes reference key p input scope desc deadline).
Proof. unfold report_wait. ops. Qed.
#[local] Hint Resolve surveyed_report_wait : ops.
Lemma surveyed_listen_event t listen routes reference key p subscribed input scope desc deadline :
  may_listen → fine (listen_event su fuel t listen routes reference key p subscribed input scope desc deadline).
Proof. intros Hlisten. unfold listen_event. ops. Qed.
Lemma surveyed_run_listen t l reference input scope desc deadline :
  in_survey t → tk_kind t = KListen l → fine (run_listen su run_task fuel t l reference input scope desc deadline).
Proof.
  intros Ht Ek.
  assert (Heach : ∀ f reference n item scope, li_foreach l = Some f → fine (foreach su run_task fuel f reference n item scope)).
  { intros. by eapply surveyed_foreach. }
  assert (Hevent := λ routes reference key p subscribed input scope desc deadline,
    surveyed_listen_event t l routes reference key p subscribed input scope desc deadline (within_listen t l Ht Ek)).
  assert (Hfrom : ∀ n routes i p consumed outputs subscribed,
    fine (listen_from su run_task fuel n t l routes reference i p consumed outputs subscribed
            input scope desc deadline)).
  { induction n as [|n IH]; intros routes i p consumed outputs subscribed; [done|]. cbn [listen_from].
    destruct (li_foreach l) as [f|] eqn:Ef; [assert (Hf := λ reference n item scope, Heach f reference n item scope eq_refl)|];
      cbn [when_some]; ops. }
  unfold run_listen. ops.
Qed.
Lemma surveyed_attempt tasks c reference input scope desc :
  all_inside tasks → (∀ h, catch_tasks c = Some h → all_inside h) →
  fine (attempt su run_task fuel tasks c reference input scope desc).
Proof.
  intros Hin Hc. assert (Hlist := λ at_ input scope, surveyed_run_list tasks at_ input scope Hin).
  assert (Hhandle : ∀ caught, fine (handle su run_task fuel c reference input caught)).
  { intros. unfold handle. destruct (catch_tasks c) as [h|] eqn:E; [|done].
    apply ops_bind; [apply surveyed_run_list; by apply Hc|intros next; ops]. }
  assert (Hwithin : ∀ limit key at_ body, fine body → fine (within su limit key at_ body)).
  { intros. unfold within. ops. }
  assert (Hdelay : ∀ r attempt began a, fine (retry_delay su r attempt began input a)).
  { intros. unfold retry_delay. ops. }
  assert (Hdecide : ∀ key at_ attempt began protected a, fine (decide_retry su c key at_ attempt began protected input a)).
  { intros. unfold decide_retry. ops. }
  assert (Hfrom : ∀ n snapshot began k,
    fine (attempt_from su run_task fuel n tasks c reference input snapshot scope desc began k)).
  { induction n as [|n IH]; intros snapshot began k; [done|]. cbn [attempt_from]. ops. }
  unfold attempt. ops.
Qed.
Lemma surveyed_kind t reference input scope desc deadline :
  in_survey t → fine (kind su run_task fuel t reference input scope desc deadline).
Proof.
  intros Ht. assert (Hnested := λ l, within_nested t l Ht). assert (Hemit := λ w, within_emit t w Ht).
  assert (Hcall := λ f w, within_call t f w Ht). assert (Hrun := λ r, within_process t r Ht).
  assert (Hlisten := λ l reference input scope desc deadline, surveyed_run_listen t l reference input scope desc deadline Ht).
  unfold kind. destruct (tk_kind t) as [f w|tasks|? ? ? ? [limit|] tasks|tasks ?| | |tasks c| | |l| |r] eqn:Ek;
    cbn [nested] in Hnested; cbv zeta.
  - apply ops_bind; [ops|intros a]. apply ops_bind; [apply surveyed_call; by eapply Hcall|intros ?; ops].
  - apply ops_bind; [apply surveyed_run_list, Hnested; by left|intros ?; ops].
  - apply ops_bind; [ops|intros its]. apply surveyed_concurrent, Hnested. by left.
  - apply ops_bind; [ops|intros its]. apply surveyed_for_each, Hnested. by left.
  - apply ops_bind; [apply surveyed_fork, Hnested; by left|intros ?; ops].
  - ops.
  - ops.
  - apply surveyed_attempt; [apply Hnested; by left|]. intros h Eh. apply Hnested. rewrite Eh. right. by left.
  - ops.
  - ops.
  - by apply Hlisten.
  - apply ops_bind; [ops|intros a]. apply ops_bind; [by eapply surveyed_emit, Hemit|intros ?; ops].
  - apply ops_bind; [ops|intros a]. apply ops_bind; [by apply surveyed_run_process, Hrun|intros ?; ops].
Qed.
Lemma surveyed_jump reference : fine (jump (su_durable su) (su_secrets su) (su_max_jumps su) reference).
Proof. unfold jump, handler. ops. Qed.
Lemma surveyed_exceeded reference first output scope : fine (exceeded su run_task reference first output scope).
Proof.
  unfold exceeded, act_on_exceeded, exit_exceeded. destruct (bu_on_exceeded (wf_budget wf)) eqn:E; [ops|ops|].
  assert (Hh := λ name reference raw scope, Htask t name reference raw scope (within_handler t E)). ops.
Qed.
#[local] Hint Resolve surveyed_jump surveyed_exceeded : ops.
Lemma surveyed_timed t reference started_ms limit body :
  (∀ d, fine (body d)) → fine (timed su t reference started_ms limit body).
Proof. intros Hbody. unfold timed, child_done, remaining. ops. Qed.
Lemma surveyed_guarded A reference deadline (p : drive A) : fine p → fine (guarded reference deadline p).
Proof. intros Hp. unfold guarded. ops. Qed.
Lemma surveyed_steps t name reference raw scope started_ms :
  in_survey t → fine (steps su run_task fuel t name reference raw scope started_ms).
Proof.
  intros Ht. assert (Hio := λ uri, within_io t uri Ht). unfold steps, finish_steps.
  apply ops_bind; [ops|intros desc]. apply ops_bind; [ops|intros runs]. apply ops_if; [ops|].
  apply ops_bind; [apply surveyed_conform; intros uri E; apply Hio; auto|intros _]. do 2 (apply ops_bind; [ops|intros ?]).
  apply surveyed_guarded. destruct (surveyed_extensions t reference a scope desc) as [Hops Hret].
  apply (ops_bind_returns _ (λ x, around_task x.1)); [done|done|]. intros [chosen described] Hchosen.
  apply ops_bind.
  - apply surveyed_timed. intros deadline. apply surveyed_layer; [done|]. intros v. by apply surveyed_kind.
  - intros [out flow]. apply ops_bind; [apply surveyed_output_of; [intros uri E; apply Hio; auto|ops]|intros out'].
    apply ops_bind; [apply surveyed_export_to; [intros uri E; apply Hio; auto|intros; ops]|intros _]. ops.
Qed.
Lemma surveyed_task_body t name reference raw scope :
  in_survey t → fine (task_body su run_task fuel t name reference raw scope).
Proof.
  intros Ht. assert (Hsteps := λ name reference raw scope ms, surveyed_steps t name reference raw scope ms Ht).
  unfold task_body, enter_task, handler. ops.
Qed.
End over_task.

Lemma surveyed_task fuel t name reference raw scope : in_survey t → fine (task su fuel t name reference raw scope).
Proof.
  revert t name reference raw scope. induction fuel as [|fuel IH]; intros; [done|]. by apply surveyed_task_body.
Qed.
Lemma surveyed_workflow fuel input : fine (workflow fuel su input).
Proof.
  assert (Hlist : ∀ at_ input scope, fine (run_list su (task su fuel) fuel (wf_tasks wf) at_ input scope)).
  { intros. apply surveyed_run_list; [intros; by apply surveyed_task|apply within_main]. }
  unfold workflow. cbv zeta. apply ops_bind; [apply surveyed_conform; intros uri E; apply workflow_io; auto|intros _].
  apply ops_bind; [ops|intros v]. apply ops_bind; [by apply ops_in_context|]. intros [r ctx].
  apply ops_bind; [ops|intros next]. apply surveyed_output_of; [intros uri E; apply workflow_io; auto|ops].
Qed.
(** Whatever it is answered, a drive asks for what the survey allows. *)
Lemma surveyed_execution fuel records started_ms runtime input :
  all_ops (allowed wf) (run_execution fuel su records started_ms runtime input).
Proof.
  assert (Hwf := surveyed_workflow fuel).
  unfold run_execution, body, conclude, begin_execution, timed_workflow, unknown_workflow, remaining, commit_end. ops.
Qed.
End drive.
