(* ===== verification/Listed.v ===== *)
(** * What a drive calls is listed

    [Analysis.call_sites], [processes] and [schema_resources] against the interpreter:
    whatever a drive dispatches, starts or looks up is among them; but for the tasks
    of an [on_exceeded] handler, which they do not visit. *)
From S2P Require Import Prelude Json Outcome Journal Expr Listen Secrets.
From S2P Require Import Drive Calls Branches Model Tasks Waits Compose Interp Execute Alone Ops.
From S2P Require Import Samples DriveSamples Analysis AnalysisSpec Survey.

(** ** The tasks of a definition *)

Definition inside (wf : Workflow) (t : Task) : Prop := ∃ at_, ∀ x, x ∈ task_sites at_ t → x ∈ sites wf.
Definition all_inside (wf : Workflow) (l : TaskList) : Prop := ∀ x, x ∈ l → inside wf x.2.

Lemma list_sites_inside wf at_ i l :
  (∀ x, x ∈ list_sites_with task_sites at_ i l → x ∈ sites wf) → all_inside wf l.
Proof.
  revert i. induction l as [|[name t] l IH]; intros i Hl x Hx; [by apply not_elem_of_nil in Hx|].
  cbn [list_sites_with] in Hl. apply elem_of_cons in Hx as [->|Hx].
  - exists (at_ +:+ "/" +:+ pretty i +:+ "/" +:+ name). intros y Hy. apply Hl, elem_of_app. by left.
  - apply (IH (S i)); [|done]. intros y Hy. apply Hl, elem_of_app. by right.
Qed.
Lemma elem_of_concat {A} (x : A) ll : x ∈ concat ll ↔ ∃ l, l ∈ ll ∧ x ∈ l.
Proof.
  induction ll as [|l ll IH]; cbn.
  - split; [by intros ?%not_elem_of_nil|]. by intros (l&?%not_elem_of_nil&_).
  - rewrite elem_of_app, IH. setoid_rewrite elem_of_cons. naive_solver.
Qed.
Section wf.
Variable wf : Workflow.

Lemma inside_site t : inside wf t → ∃ at_, (t, at_) ∈ sites wf.
Proof. intros [at_ Hat]. exists at_. apply Hat. destruct t. by left. Qed.
Lemma task_sites_nested at_ t l :
  l ∈ nested (tk_kind t) → ∃ a, ∀ x, x ∈ list_sites_with task_sites a 0 l → x ∈ task_sites at_ t.
Proof.
  intros Hl. destruct t as [t1 t2 t3 t4 t5 t6 t7 t8 k t10]. cbn [tk_kind] in Hl.
  destruct k as [|tasks|? ? ? ? ? tasks|tasks ?| | |tasks c| | |li| |]; cbn in Hl; try (by apply not_elem_of_nil in Hl);
    try (apply list_elem_of_singleton in Hl as ->; eexists; intros x Hx; right; exact Hx).
  - apply elem_of_cons in Hl as [->|Hl].
    + eexists. intros x Hx. right. cbn. apply elem_of_app. left. exact Hx.
    + destruct (catch_tasks c) as [h|] eqn:Ec; [|by apply not_elem_of_nil in Hl]. apply list_elem_of_singleton in Hl as ->.
      eexists. intros x Hx. right. cbn. rewrite Ec. apply elem_of_app. right. exact Hx.
  - destruct (li_foreach li) as [f|] eqn:Ef; [|by apply not_elem_of_nil in Hl]. apply list_elem_of_singleton in Hl as ->.
    eexists. intros x Hx. right. cbn. rewrite Ef. exact Hx.
Qed.
Lemma inside_nested t l : inside wf t → l ∈ nested (tk_kind t) → all_inside wf l.
Proof.
  intros [at_ Hat] Hl. destruct (task_sites_nested at_ t l Hl) as [a Ha].
  apply (list_sites_inside wf a 0). intros x Hx. by apply Hat, Ha.
Qed.
Lemma inside_main : all_inside wf (wf_tasks wf).
Proof. apply (list_sites_inside wf "/do" 0). intros x Hx. unfold sites. rewrite !elem_of_app. by do 2 right. Qed.
Lemma inside_function name f : named name (us_functions (wf_uses wf)) = Some f → inside wf f.
Proof.
  unfold named. destruct (list_find _ _) as [[i x]|] eqn:E; [|done]. intros [= <-]. apply list_find_Some in E as (Hx&_).
  exists ("/use/functions/" +:+ x.1). intros y Hy. unfold sites. rewrite elem_of_app. left.
  apply elem_of_concat. eexists. split; [|exact Hy]. apply list_elem_of_fmap. exists x. split; [done|].
  by eapply list_elem_of_lookup_2.
Qed.
Lemma inside_extension x l :
  x ∈ us_extensions (wf_uses wf) → ex_before x.2 = Some l ∨ ex_after x.2 = Some l → all_inside wf l.
Proof.
  intros [i Hi]%list_elem_of_lookup_1 Hl.
  assert (Hsub : ∀ a, list_sites a l ⊆ (let at_ := "/use/extensions/" +:+ pretty i +:+ "/" +:+ x.1 in
    match ex_before x.2 with Some l => list_sites (at_ +:+ "/before") l | None => [] end ++
    match ex_after x.2 with Some l => list_sites (at_ +:+ "/after") l | None => [] end) → all_inside wf l).
  { intros a Ha. apply (list_sites_inside wf a 0). intros y Hy. unfold sites. rewrite elem_of_app. right.
    rewrite elem_of_app. left. apply elem_of_concat. eexists. split; [|by apply Ha].
    apply elem_of_lookup_imap. by exists i, x. }
  cbv zeta in Hsub. destruct Hl as [El|El]; rewrite El in Hsub.
  - eapply Hsub. intros y Hy. apply elem_of_app. left. exact Hy.
  - eapply Hsub. intros y Hy. apply elem_of_app. right. exact Hy.
Qed.

(** The tasks of a definition, said of the document: its own, those of its functions and
    of its extensions, and the tasks a task holds; not those of a spent budget's handler. *)
Inductive document_task : Task → Prop :=
| task_main x : x ∈ wf_tasks wf → document_task x.2
| task_function x : x ∈ us_functions (wf_uses wf) → document_task x.2
| task_extension x l y :
    x ∈ us_extensions (wf_uses wf) → ex_before x.2 = Some l ∨ ex_after x.2 = Some l → y ∈ l → document_task y.2
| task_nested t l x : document_task t → l ∈ nested (tk_kind t) → x ∈ l → document_task x.2.
Lemma inside_local x : x ∈ us_functions (wf_uses wf) → inside wf x.2.
Proof.
  intros Hx. exists ("/use/functions/" +:+ x.1). intros y Hy. unfold sites. rewrite elem_of_app. left.
  apply elem_of_concat. eexists. split; [|exact Hy]. apply list_elem_of_fmap. by exists x.
Qed.
Lemma task_inside t : document_task t → inside wf t.
Proof.
  induction 1 as [x Hx|x Hx|x l y Hx Hl Hy|t l x _ IH Hl Hx]; [by apply inside_main|by apply inside_local|
    by eapply inside_extension|by eapply inside_nested].
Qed.
Lemma list_sites_of a i l x : x ∈ list_sites_with task_sites a i l → ∃ y b, y ∈ l ∧ x ∈ task_sites b y.2 ∧
  (length (task_sites b y.2) ≤ length (list_sites_with task_sites a i l))%nat.
Proof.
  revert i. induction l as [|[name t] l IH]; intros i; [by intros ?%not_elem_of_nil|].
  cbn [list_sites_with]. rewrite elem_of_app, length_app. intros [Hx|Hx].
  - exists (name, t). eexists. split; [by left|]. split; [exact Hx|cbn; lia].
  - destruct (IH (S i) Hx) as (y & b & Hy & Hb & Hn). exists y, b. split; [by right|]. split; [done|lia].
Qed.
Lemma task_sites_eq at_ t : task_sites at_ t = (t, at_) ::
  match tk_kind t with
  | KDo tasks | KFor _ _ _ _ _ tasks => list_sites (at_ +:+ "/do") tasks
  | KFork branches _ => list_sites (at_ +:+ "/fork/branches") branches
  | KTry tasks c =>
      list_sites (at_ +:+ "/try") tasks ++
      match catch_tasks c with Some h => list_sites (at_ +:+ "/catch/do") h | None => [] end
  | KListen l => match li_foreach l with Some f => list_sites (at_ +:+ "/foreach/do") (fe_tasks f) | None => [] end
  | _ => []
  end.
Proof. by destruct t. Qed.
Lemma task_sites_of at_ t x : x ∈ task_sites at_ t → x = (t, at_) ∨ ∃ l y b, l ∈ nested (tk_kind t) ∧ y ∈ l ∧
  x ∈ task_sites b y.2 ∧ (length (task_sites b y.2) < length (task_sites at_ t))%nat.
Proof.
  rewrite !task_sites_eq. intros [->|Hx]%elem_of_cons; [by left|right]. cbn [length].
  assert (∀ l a rest1 rest2, x ∈ list_sites a l →
    ∃ y b, y ∈ l ∧ x ∈ task_sites b y.2 ∧
      (length (task_sites b y.2) < S (length (rest1 ++ list_sites a l ++ rest2)))%nat) as Hl.
  { intros l a rest1 rest2 (y & b & Hy & Hb & Hn)%list_sites_of. exists y, b. unfold list_sites.
    rewrite !length_app. split_and!; [done..|lia]. }
  destruct (tk_kind t) as [|tasks|? ? ? ? ? tasks|tasks ?| | |tasks c| | |li| |]; try (by apply not_elem_of_nil in Hx);
    try (destruct (Hl tasks _ [] [] Hx) as (y & b & Hy & Hb & Hn); exists tasks, y, b;
         rewrite app_nil_r in Hn; split_and!; [by left|done..]).
  - cbn [nested]. apply elem_of_app in Hx as [Hx|Hx].
    + destruct (Hl tasks _ [] (match catch_tasks c with Some h => list_sites (at_ +:+ "/catch/do") h | None => [] end) Hx)
        as (y & b & Hy & Hb & Hn). exists tasks, y, b. split_and!; [by left|done..].
    + destruct (catch_tasks c) as [h|]; [|by apply not_elem_of_nil in Hx].
      destruct (Hl h _ (list_sites (at_ +:+ "/try") tasks) [] Hx) as (y & b & Hy & Hb & Hn). exists h, y, b.
      rewrite app_nil_r in Hn. split_and!; [right; by left|done..].
  - cbn [nested]. destruct (li_foreach li) as [f|]; [|by apply not_elem_of_nil in Hx].
    destruct (Hl (fe_tasks f) _ [] [] Hx) as (y & b & Hy & Hb & Hn). exists (fe_tasks f), y, b. rewrite app_nil_r in Hn.
    split_and!; [by left|done..].
Qed.
Lemma task_sites_tasks n : ∀ t at_ x, (length (task_sites at_ t) ≤ n)%nat → document_task t →
  x ∈ task_sites at_ t → document_task x.1.
Proof.
  induction n as [|n IH]; intros t at_ x Hn Ht Hx; [destruct t; cbn in Hn; lia|].
  apply task_sites_of in Hx as [->|(l & y & b & Hl & Hy & Hx & Hlt)]; [done|].
  apply (IH y.2 b x); [lia| |done]. by eapply task_nested.
Qed.
Lemma list_sites_tasks a i l x : (∀ y, y ∈ l → document_task y.2) → x ∈ list_sites_with task_sites a i l → document_task x.1.
Proof. intros Hl (y & b & Hy & Hx & _)%list_sites_of. eapply task_sites_tasks; [done|by apply Hl|done]. Qed.
(** The sites are the document's tasks. *)
Lemma elem_of_sites t : (∃ at_, (t, at_) ∈ sites wf) ↔ document_task t.
Proof.
  split; [|by intros Ht%task_inside%inside_site]. intros [at_ Hin]. change t with ((t, at_).1). revert Hin.
  generalize (t, at_). clear t at_. intros x. unfold sites. rewrite !elem_of_app. intros [Hx|[Hx|Hx]].
  - apply elem_of_concat in Hx as (l & (y & -> & Hy)%list_elem_of_fmap & Hx).
    eapply task_sites_tasks; [done|by apply task_function|done].
  - apply elem_of_concat in Hx as (l & Hl & Hx). apply elem_of_lookup_imap in Hl as (i & y & -> & Hy%list_elem_of_lookup_2).
    apply elem_of_app in Hx as [Hx|Hx].
    + destruct (ex_before y.2) as [l|] eqn:E; [|by apply not_elem_of_nil in Hx].
      eapply list_sites_tasks; [|exact Hx]. intros z Hz. eapply (task_extension y l z); auto.
    + destruct (ex_after y.2) as [l|] eqn:E; [|by apply not_elem_of_nil in Hx].
      eapply list_sites_tasks; [|exact Hx]. intros z Hz. eapply (task_extension y l z); auto.
  - eapply list_sites_tasks; [|exact Hx]. intros z Hz. by apply task_main.
Qed.

(** ** What is listed *)

Definition called (name : string) : Prop := ∃ site, site ∈ call_sites wf ∧ site_function site = name.
Lemma inside_call t f w : inside wf t → tk_kind t = KCall f w → called (function_name f).
Proof.
  intros [at_ Hat]%inside_site E. exists (mkCallSite at_ (function_name f) w (tk_delivery t)). split; [|done].
  apply list_elem_of_omap. exists (t, at_). cbn. by rewrite E.
Qed.
Lemma inside_process t r : inside wf t → tk_kind t = KRun r → run_process_of r ∈ processes wf.
Proof.
  intros [at_ Hat]%inside_site E. apply list_elem_of_omap. exists (t, at_). cbn. by rewrite E.
Qed.
Definition resolved (s : option Schema) : Prop := ∀ uri, s = Some (Resource uri) → uri ∈ schema_resources wf.
Lemma resources_elem uri (l : list Schema) : Resource uri ∈ l → uri ∈ resources_of l.
Proof. intros Hl. apply list_elem_of_omap. by exists (Resource uri). Qed.
Lemma io_elem s i o e :
  s = (i ≫= in_schema) ∨ s = (o ≫= out_schema) ∨ s = (e ≫= out_schema) → ∀ x, s = Some x → x ∈ io i o e.
Proof.
  intros Hs x ->. apply list_elem_of_omap. exists (Some x). split; [|done].
  rewrite !elem_of_cons. naive_solver.
Qed.
Lemma resolved_task t s :
  inside wf t →
  s = (tk_input t ≫= in_schema) ∨ s = (tk_output t ≫= out_schema) ∨ s = (tk_export t ≫= out_schema) → resolved s.
Proof.
  intros [at_ Hat]%inside_site Hs uri E. unfold schema_resources. apply distinct_from_elem. right.
  apply resources_elem, elem_of_app. right. apply elem_of_concat. eexists. split.
  - apply list_elem_of_fmap. by exists (t, at_).
  - apply elem_of_app. left. by eapply io_elem.
Qed.
Lemma resolved_foreach t l f s :
  inside wf t → tk_kind t = KListen l → li_foreach l = Some f →
  s = (fe_output f ≫= out_schema) ∨ s = (fe_export f ≫= out_schema) → resolved s.
Proof.
  intros [at_ Hat]%inside_site Ek Ef Hs uri E. unfold schema_resources. apply distinct_from_elem. right.
  apply resources_elem, elem_of_app. right. apply elem_of_concat. eexists. split.
  - apply list_elem_of_fmap. by exists (t, at_).
  - apply elem_of_app. right. cbn [fst]. rewrite Ek, Ef. eapply io_elem; [|exact E]. by right.
Qed.
Lemma resolved_workflow s :
  s = (wf_input wf ≫= in_schema) ∨ s = (wf_output wf ≫= out_schema) → resolved s.
Proof.
  intros Hs uri E. unfold schema_resources. apply distinct_from_elem. right.
  apply resources_elem, elem_of_app. left. eapply io_elem; [|exact E]. destruct Hs; auto.
Qed.

(** A dispatch names a call site's function, or a process of the definition; a child is
    one of its processes, a schema one of its resources. *)
Fixpoint listed (o : drive_op) : Prop :=
  match o with
  | ODispatch d =>
      match dp_target d with
      | TFunction name => called name ∧ named name (us_functions (wf_uses wf)) = None
      | TProcess kind => ∃ definition, PExternal kind definition ∈ processes wf
      end
  | OChild c => ∃ input, PWorkflow (cs_namespace c) (cs_name c) (cs_version c) input ∈ processes wf
  | OSchema uri => uri ∈ schema_resources wf
  | ORace _ o => listed o
  | _ => True
  end.

(** The tasks the lists visit, as a survey. *)
Section survey.
Hypothesis Hexceeded : ∀ h, bu_on_exceeded (wf_budget wf) ≠ XTask h.
#[local] Instance listed_survey : Survey wf.
Proof.
  refine {|
    in_survey := inside wf; may_call := called; may_process kind := ∃ definition, PExternal kind definition ∈ processes wf;
    may_start namespace name version := ∃ input, PWorkflow namespace name version input ∈ processes wf;
    may_resolve uri := uri ∈ schema_resources wf; may_listen := True; may_emit := True |}.
  - apply inside_nested.
  - intros [name t] Hx. by apply inside_main.
  - apply inside_function.
  - apply inside_extension.
  - by intros h Hh%Hexceeded.
  - intros t f w Ht Ek _. by eapply inside_call.
  - intros t r Ht Ek. pose proof (inside_process t r Ht Ek). destruct (run_process_of r); eauto.
  - done.
  - done.
  - intros t uri Ht Hio. exact (resolved_task t _ Ht Hio uri eq_refl).
  - intros t l f uri Ht Ek Ef Hio. exact (resolved_foreach t l f _ Ht Ek Ef Hio uri eq_refl).
  - intros uri Hio. exact (resolved_workflow _ Hio uri eq_refl).
Defined.
Lemma allowed_listed o : allowed wf o → listed o.
Proof. induction o; cbn; auto. Qed.
End survey.
End wf.

Section drive.
Context `{Host, Functions, Formats}.
Variable su : Setup.
Local Abbreviation wf := (su_wf su).
Hypothesis Hexceeded : ∀ h, bu_on_exceeded (wf_budget wf) ≠ XTask h.

(** C24: what a run of a definition can call is listed. Every call a drive of it can ever
    send, whatever it is answered, is of a function of [call_sites] that the
    definition does not define itself, or of a process of [processes]; so is every
    child it starts, and every schema it looks up is in [schema_resources]; unless
    the definition has a handler for a spent budget, whose tasks they leave out. *)
Theorem drive_calls_are_listed fuel records started_ms runtime input :
  all_ops (listed wf) (run_execution fuel su records started_ms runtime input).
Proof. eapply ops_mono; [apply (allowed_listed wf Hexceeded)|apply surveyed_execution]. Qed.
End drive.

Lemma drive_calls_are_listed_witness :
  all_ops (listed (su_wf demo_setup))
    (run_execution (H := jumps_host) (H0 := demo_functions) (H1 := demo_formats) 5 demo_setup ∅ 1000 VNull VNull) ∧
  site_function <$> call_sites (su_wf demo_setup) = ["f"].
Proof.
  split; [|vm_compute; reflexivity].
  apply (drive_calls_are_listed (H := jumps_host) (H0 := demo_functions) (H1 := demo_formats)). intros h [=].
Defined.

(** A workflow that may not jump, with a task for when it does. *)
Definition report_start : Start :=
  mkStart
    (mkWorkflow "n" "w" "1.0.0" None None (mkUses [] [] [] [])
       [("a", plain (KSet (VObj ∅)) (Some (Goto "b"))); ("b", plain (KSet (VObj ∅)) None)] None
       (mkBudget (Some 0) (XTask (plain (KCall "report" None) None))) VNull)
    "r" VNull (Some 1000) (mkLimits 100 10 10 None None None) VNull false.
Definition report_run :=
  match drive_on (H := jumps_host) (H0 := demo_functions) (H1 := demo_formats) 20 demo_env report_start ∅ with
  | Ok (p, s) => Some (alone demo_env p s)
  | Err _ => None
  end.
(** The handler of a spent budget is not listed: a run that is refused a jump sends
    the handler's call, which no call site of the definition names. *)
Theorem handler_is_not_listed :
  call_sites (st_wf report_start) = [] ∧
  option_map (λ x, omap (λ e, match e with Sent d => Some (dp_name d) | _ => None end) x.2) report_run = Some ["report"].
Proof. vm_compute. auto. Qed.
