(* ===== verification/Parser.v ===== *)
(** * Documents

    [crates/ows/src/model.rs], section 2: from a YAML value to a workflow, with the
    problems of a document that is none. A parser runs with the problems it reports;
    an [Option] is left early by [≫=?]. The members of an object are visited in the
    order of their keys, where the source keeps the document's: only the order of
    problems and of the names under [use] depends on it. This file: the parsers'
    combinators, durations, schemas, errors, retries and events; [TaskParser] and
    [DocumentParser] go on. *)
From S2P Require Import Prelude Json Outcome Journal Expr Listen Model.

(** A definition problem, located by JSON pointer. *)
Record Problem := mkProblem { pr_at : string; pr_message : string }.
#[export] Instance Problem_eq_dec : EqDecision Problem.
Proof. solve_decision. Defined.

(** What is read by libraries: JSON Schema, cron expressions, timestamps (in epoch
    milliseconds), time zones, YAML, and the official schema's verdict. Each gives
    the error it reports, if it reports one. *)
Class Libraries := {
  schema_error : value → option string;
  cron_error : string → option string;
  parse_rfc3339 : string → option Z;
  is_zone : string → bool;
  from_yaml : string → result string value;
  conforms : value → list Problem
}.

(** ** Parsers *)

Definition parser (A : Type) : Type := A * list Problem.
#[export] Instance parser_ret : MRet parser := λ A a, (a, []).
#[export] Instance parser_bind : MBind parser := λ A B f p,
  let '(b, l) := f p.1 in (b, p.2 ++ l).
(** An [Option] under way, left with [None]. *)
Definition bind_some {A B} (p : parser (option A)) (f : A → parser (option B)) : parser (option B) :=
  o ← p; match o with Some a => f a | None => mret None end.
Notation "x ←? p ; q" := (bind_some p (λ x, q))
  (at level 20, p at level 100, q at level 200, only parsing) : ouro_scope.

(** [fail]. *)
Definition fail (at_ message : string) : parser unit := ((), [mkProblem at_ message]).
Definition fail_if (b : bool) (at_ message : string) : parser unit := if b then fail at_ message else mret ().
(** What is not there, with the problem it is. *)
Definition none {A} (at_ message : string) : parser (option A) := _ ← fail at_ message; mret None.
(** [Option::map] and [and_then] over what may be parsed. *)
Definition on_some {A B} (o : option A) (f : A → parser B) : parser (option B) :=
  match o with Some a => b ← f a; mret (Some b) | None => mret None end.
Definition and_then {A B} (o : option A) (f : A → parser (option B)) : parser (option B) :=
  match o with Some a => f a | None => mret None end.
Fixpoint each {A B} (f : A → parser B) (l : list A) : parser (list B) :=
  match l with [] => mret [] | x :: l => b ← f x; bs ← each f l; mret (b :: bs) end.
Definition each_some {A B} (f : A → parser (option B)) (l : list A) : parser (list B) :=
  bs ← each f l; mret (omap id bs).
(** [enumerate]. *)
Definition numbered {A} (l : list A) : list (nat * A) := zip (seq 0 (length l)) l.

Definition joined (l : list string) : string :=
  match l with [] => "" | x :: l => foldl (λ acc y, acc +:+ ", " +:+ y) x l end.
Definition is_object (v : value) : bool := match v with VObj _ => true | _ => false end.
Definition as_object (v : value) : option (gmap string value) := match v with VObj m => Some m | _ => None end.
Definition has (k : string) (m : gmap string value) : bool := bool_decide (is_Some (m !! k)).

(** [object]. *)
Definition object (v : value) (at_ : string) : parser (option (gmap string value)) :=
  match v with VObj m => mret (Some m) | _ => none at_ "expected an object" end.
(** [only]. *)
Definition only (m : gmap string value) (at_ : string) (allowed : list string) : parser unit :=
  _ ← each (λ k, fail_if (negb (bool_decide (k ∈ allowed))) (at_ +:+ "/" +:+ k)
                   ("unknown property (allowed: " +:+ joined allowed +:+ ")")) (keys m);
  mret ().
(** [ouro]. *)
Definition ouro (owner : gmap string value) (at_ : string) (known : list string)
    : parser (option (gmap string value)) :=
  and_then ((owner !! "metadata") ≫= vget "ouro") (λ v,
    m ←? object v (at_ +:+ "/metadata/ouro");
    _ ← only m (at_ +:+ "/metadata/ouro") known;
    mret (Some m)).
(** [string]. *)
Definition string_of (m : gmap string value) (key at_ : string) : parser (option string) :=
  match m !! key with
  | None => mret None
  | Some (VStr s) => mret (Some s)
  | Some _ => none (at_ +:+ "/" +:+ key) "expected a string"
  end.
(** [required_string]. *)
Definition required_string (m : gmap string value) (key at_ : string) : parser string :=
  s ← string_of m key at_;
  match s with
  | Some s => mret s
  | None => _ ← fail_if (negb (has key m)) at_ ("missing `" +:+ key +:+ "`"); mret ""
  end.
Definition bare_string (m : gmap string value) (key at_ : string) : parser (option string) :=
  s ← string_of m key at_; mret (bare <$> s).

Definition DOCUMENT_EXTENSIONS : list string := ["limits"; "at"; "timezone"; "catchup"; "overlap"; "breaker"].
Definition TASK_EXTENSIONS : list string := ["delivery"; "concurrency"; "hold"; "host"].
Definition COMMON : list string := ["if"; "input"; "output"; "export"; "timeout"; "then"; "metadata"].

(** ** Durations, flows, schemas *)

(** The units of a duration object, in milliseconds. *)
Definition UNITS : list (string * Z) :=
  [("days", 86400000); ("hours", 3600000); ("minutes", 60000); ("seconds", 1000); ("milliseconds", 1)].
Definition sat_mulu64 (a b : Z) : Z := Z.min (a * b) u64_max.
Fixpoint sum_units (units : list (string * Z)) (m : gmap string value) (at_ : string) (ms : Z) : parser Z :=
  match units with
  | [] => mret ms
  | (k, unit_) :: units =>
      ms ← match m !! k with
           | None => mret ms
           | Some v =>
               match as_u64 v with
               | Some n => mret (sat_addu64 ms (sat_mulu64 n unit_))
               | None => _ ← fail (at_ +:+ "/" +:+ k) "expected a non-negative integer"; mret ms
               end
           end;
      sum_units units m at_ ms
  end.
(** [duration]. *)
Definition duration (v : value) (at_ : string) : parser (option DurationSpec) :=
  match v with
  | VStr s =>
      match strip s with
      | Some code => mret (Some (DExpr code))
      | None =>
          match parse_iso_duration s with
          | Some d => mret (Some (Fixed d))
          | None => none at_ ("`" +:+ s +:+ "` is not an ISO 8601 duration (e.g. PT30S)")
          end
      end
  | VObj m =>
      _ ← only m at_ (fst <$> UNITS);
      ms ← sum_units UNITS m at_ 0;
      mret (Some (Fixed (millis ms)))
  | _ => none at_ "expected a duration object or an ISO 8601 string"
  end.
(** [flow]. *)
Definition flow (v : value) (at_ : string) : parser (option Flow) :=
  match as_str v with
  | Some s =>
      if decide (s = "continue") then mret (Some Continue)
      else if decide (s = "exit") then mret (Some Exit)
      else if decide (s = "end") then mret (Some End_)
      else if decide (s = "") then none at_ "expected continue, exit, end or a task name"
      else mret (Some (Goto s))
  | None => none at_ "expected continue, exit, end or a task name"
  end.
(** [timeout_object]. *)
Definition timeout_object (v : value) (at_ : string) : parser (option DurationSpec) :=
  m ←? object v at_;
  _ ← only m at_ ["after"];
  match m !! "after" with
  | Some d => duration d (at_ +:+ "/after")
  | None => none at_ "missing `after`"
  end.
(** [transform]. *)
Definition transform (v : option value) (at_ : string) : parser (option value) :=
  match v with
  | None => mret None
  | Some (VStr s) => mret (Some (VStr (bare s)))
  | Some (VObj m) => mret (Some (VObj m))
  | Some _ => none at_ "expected an expression or an object"
  end.

Section with_libraries.
Context `{Libraries}.

(** [schema]. *)
Definition schema (v : value) (at_ : string) : parser (option Schema) :=
  m ←? object v at_;
  _ ← only m at_ ["format"; "document"; "resource"];
  _ ← fail_if (match m !! "format" with Some f => negb (bool_decide (f = VStr "json")) | None => false end)
        (at_ +:+ "/format") "only JSON Schema (`json`) is supported";
  match m !! "resource", m !! "document" with
  | Some r, None =>
      let rat := at_ +:+ "/resource" in
      r ←? object r rat;
      _ ← only r rat ["name"; "endpoint"];
      match r !! "endpoint" with
      | Some (VStr uri) => mret (Some (Resource uri))
      | Some (VObj e) =>
          let eat := rat +:+ "/endpoint" in
          _ ← only e eat ["uri"; "authentication"];
          _ ← fail_if (has "authentication" e) (eat +:+ "/authentication")
                "authentication is not supported; the host's resource resolver carries credentials";
          uri ← required_string e "uri" eat;
          mret (Some (Resource uri))
      | _ => none rat "missing `endpoint`"
      end
  | _, Some d =>
      match schema_error d with
      | None => mret (Some (Document d))
      | Some e => none (at_ +:+ "/document") ("invalid JSON Schema: " +:+ e)
      end
  | None, None => none at_ "missing `document`"
  end.
(** [input], [output]. *)
Definition input (v : value) (at_ : string) : parser Input :=
  m ← object v at_;
  match m with
  | None => mret (mkInput None None)
  | Some m =>
      _ ← only m at_ ["schema"; "from"];
      s ← and_then (m !! "schema") (λ s, schema s (at_ +:+ "/schema"));
      f ← transform (m !! "from") (at_ +:+ "/from");
      mret (mkInput s f)
  end.
Definition output (v : value) (at_ : string) : parser Output :=
  m ← object v at_;
  match m with
  | None => mret (mkOutput None None)
  | Some m =>
      _ ← only m at_ ["schema"; "as"];
      s ← and_then (m !! "schema") (λ s, schema s (at_ +:+ "/schema"));
      f ← transform (m !! "as") (at_ +:+ "/as");
      mret (mkOutput s f)
  end.

(** ** Errors and retries *)

(** [error_def]. *)
Definition error_def (v : value) (at_ : string) : parser (option ErrorDef) :=
  e ←? object v at_;
  _ ← only e at_ ["type"; "status"; "title"; "detail"; "instance"];
  status ← match e !! "status" with
    | Some v =>
        match as_u64 v with
        | Some s =>
            if decide (100 ≤ s ≤ 599) then mret s
            else _ ← fail (at_ +:+ "/status") "expected an HTTP-style status between 100 and 599"; mret 500
        | None => _ ← fail (at_ +:+ "/status") "expected an HTTP-style status between 100 and 599"; mret 500
        end
    | None => _ ← fail at_ "missing `status`"; mret 500
    end;
  type_ ← required_string e "type" at_;
  title ← string_of e "title" at_;
  detail ← string_of e "detail" at_;
  instance_ ← string_of e "instance" at_;
  mret (Some (mkErrorDef type_ status title detail instance_)).

(** An object member, where there is one. *)
Definition member (m : gmap string value) (key at_ : string) : parser (option (gmap string value)) :=
  and_then (m !! key) (λ v, object v (at_ +:+ "/" +:+ key)).
Definition duration_at (m : gmap string value) (key at_ : string) : parser (option DurationSpec) :=
  and_then (m !! key) (λ v, duration v (at_ +:+ "/" +:+ key)).
(** How often: [limit.attempt]. *)
Definition attempts_of (a : gmap string value) (lat : string) : parser (option Z) :=
  match a !! "count" with
  | None => mret None
  | Some v =>
      match as_u64 v with
      | Some n => mret (Some (Z.min n u32_max))
      | None => none (lat +:+ "/attempt/count") "expected a non-negative integer"
      end
  end.
(** [retry]. *)
Definition retry (v : value) (at_ : string) : parser (option Retry) :=
  r ←? object v at_;
  _ ← only r at_ ["when"; "exceptWhen"; "delay"; "backoff"; "limit"; "jitter"];
  when_ ← bare_string r "when" at_;
  except_when ← bare_string r "exceptWhen" at_;
  delay ← duration_at r "delay" at_;
  b ← member r "backoff" at_;
  backoff ← match b with
    | Some b =>
        _ ← only b (at_ +:+ "/backoff") ["constant"; "linear"; "exponential"];
        mret (if has "exponential" b then Exponential else if has "linear" b then Linear else Constant)
    | None => mret Constant
    end;
  l ← member r "limit" at_;
  '(attempts, attempt_duration, duration_) ← match l with
    | Some l =>
        let lat := at_ +:+ "/limit" in
        _ ← only l lat ["attempt"; "duration"];
        a ← member l "attempt" lat;
        '(attempts, attempt_duration) ← match a with
          | Some a =>
              _ ← only a (lat +:+ "/attempt") ["count"; "duration"];
              attempt_duration ← duration_at a "duration" (lat +:+ "/attempt");
              attempts ← attempts_of a lat;
              mret (attempts, attempt_duration)
          | None => mret (None, None)
          end;
        duration_ ← duration_at l "duration" lat;
        mret (attempts, attempt_duration, duration_)
    | None => mret (None, None, None)
    end;
  j ← member r "jitter" at_;
  jitter ← match j with
    | Some j =>
        from ← duration_at j "from" (at_ +:+ "/jitter");
        to ← duration_at j "to" (at_ +:+ "/jitter");
        match from, to with
        | Some f, Some t => mret (Some (f, t))
        | _, _ => none (at_ +:+ "/jitter") "jitter needs `from` and `to`"
        end
    | None => mret None
    end;
  mret (Some (mkRetry when_ except_when delay backoff attempts attempt_duration duration_ jitter)).

(** ** Events *)

(** [read]. *)
Definition read (v : option value) (at_ : string) : parser Read :=
  match v with
  | None => mret ReadData
  | Some v =>
      match as_str v with
      | Some s =>
          if decide (s = "data") then mret ReadData
          else if decide (s = "envelope") then mret ReadEnvelope
          else if decide (s = "raw") then mret ReadRaw
          else _ ← fail at_ "expected data, envelope or raw"; mret ReadData
      | None => _ ← fail at_ "expected data, envelope or raw"; mret ReadData
      end
  end.
(** [filter]. *)
Definition correlation (at_ : string) (x : string * value) : parser (option (string * Correlation)) :=
  let cat := at_ +:+ "/correlate/" +:+ x.1 in
  d ←? object x.2 cat;
  _ ← only d cat ["from"; "expect"];
  from ← required_string d "from" cat;
  expect ← string_of d "expect" cat;
  mret (Some (x.1, mkCorrelation (bare from) expect)).
Definition event_filter (v : value) (at_ : string) : parser (option EventFilter) :=
  m ←? object v at_;
  _ ← only m at_ ["with"; "correlate"];
  with_ ←? match m !! "with" with
           | Some w => object w (at_ +:+ "/with")
           | None => none at_ "missing `with`"
           end;
  _ ← fail_if (bool_decide (with_ = ∅)) (at_ +:+ "/with") "an event filter needs at least one attribute";
  c ← member m "correlate" at_;
  correlate ← match c with Some c => each_some (correlation at_) (entries c) | None => mret [] end;
  mret (Some (mkFilter (entries with_) correlate)).
Definition event_filters (m : gmap string value) (key at_ : string) : parser (list EventFilter) :=
  match m !! key with
  | Some (VArr items) =>
      each_some (λ x : nat * value, event_filter x.2 (at_ +:+ "/" +:+ key +:+ "/" +:+ pretty x.1)) (numbered items)
  | _ => _ ← fail (at_ +:+ "/" +:+ key) "expected a list of event filters"; mret []
  end.
(** [strategy]; nested strategies are those of [until]. *)
Fixpoint strategy (fuel : nat) (v : value) (at_ : string) (until : bool) : parser (option Strategy) :=
  match fuel with
  | O => none at_ "nested too deeply"
  | S fuel =>
      m ←? object v at_;
      _ ← only m at_ ["one"; "any"; "all"; "until"];
      if negb (bool_decide (length (filter (λ k, is_Some (m !! k)) ["one"; "any"; "all"]) = 1%nat)) then
        none at_ "expected exactly one of one, any, all"
      else
        _ ← fail_if (has "until" m && negb (until && has "any" m)) (at_ +:+ "/until")
              "until applies to `any` only, and not inside another until";
        match m !! "one" with
        | Some one => f ←? event_filter one (at_ +:+ "/one"); mret (Some (One f))
        | None =>
            if has "all" m then
              filters ← event_filters m "all" at_;
              _ ← fail_if (bool_decide (filters = [])) (at_ +:+ "/all") "`all` needs at least one event filter";
              mret (Some (All filters))
            else
              filters ← event_filters m "any" at_;
              until_ ← match m !! "until" with
                | None => mret None
                | Some (VStr code) => mret (Some (Condition (bare code)))
                | Some other => s ←? strategy fuel other (at_ +:+ "/until") false; mret (Some (Events s))
                end;
              mret (Some (Any filters until_))
        end
  end.
(** [emit]. *)
Definition emit (v : value) (at_ : string) : parser (option Kind) :=
  m ←? object v at_;
  _ ← only m at_ ["event"];
  event ← member m "event" at_;
  match event with
  | None => none at_ "missing `event`"
  | Some event =>
      _ ← only event (at_ +:+ "/event") ["with"];
      with_ ←? object (default VNull (event !! "with")) (at_ +:+ "/event/with");
      _ ← fail_if (is_none_or ((with_ !! "type") ≫= as_str) (λ s, bool_decide (s = ""))) (at_ +:+ "/event/with")
            "an emitted event needs a `type`";
      mret (Some (KEmit with_))
  end.
End with_libraries.
