(* ===== verification/TaskParser.v ===== *)
(** * Tasks of a document

    [crates/ows/src/model.rs], section 2: [task] and the kinds of tasks, [task_list]. *)
From S2P Require Import Prelude Json Outcome Journal Expr Listen Model Parser.

Section with_libraries.
Context `{Libraries}.

(** ** Tasks *)

(** What the document names: [Parser]'s [retries] and [timeouts]. *)
Record Names := mkNames { nm_retries : list (string * Retry); nm_timeouts : list (string * DurationSpec) }.
Section named.
Variable names : Names.

Definition found {A} (name : string) (l : list (string * A)) : option A :=
  snd ∘ snd <$> list_find (λ x : string * A, x.1 = name) l.
(** [timeout]. *)
Definition timeout (v : value) (at_ : string) : parser (option DurationSpec) :=
  match v with
  | VStr name =>
      match found name (nm_timeouts names) with
      | Some d => mret (Some d)
      | None => none at_ ("no timeout `" +:+ name +:+ "` under use.timeouts")
      end
  | _ => timeout_object v at_
  end.
(** [run_task]. *)
Definition RUN_KINDS : list string := ["container"; "script"; "shell"; "workflow"].
Definition return_of (m : gmap string value) (at_ : string) : parser Return :=
  match m !! "return" with
  | None => mret Stdout
  | Some v =>
      match as_str v with
      | Some s =>
          if decide (s = "stdout") then mret Stdout
          else if decide (s = "stderr") then mret Stderr
          else if decide (s = "code") then mret Code
          else if decide (s = "all") then mret AllOf
          else if decide (s = "none") then mret NoReturn
          else _ ← fail (at_ +:+ "/return") "expected stdout, stderr, code, all or none"; mret Stdout
      | None => _ ← fail (at_ +:+ "/return") "expected stdout, stderr, code, all or none"; mret Stdout
      end
  end.
Definition bool_at (m : gmap string value) (key at_ : string) (none_ bad : bool) : parser bool :=
  match m !! key with
  | None => mret none_
  | Some (VBool b) => mret b
  | Some _ => _ ← fail (at_ +:+ "/" +:+ key) "expected a boolean"; mret bad
  end.
Definition run_task (v : value) (at_ : string) : parser (option Kind) :=
  m ←? object v at_;
  _ ← only m at_ (RUN_KINDS ++ ["await"; "return"]);
  await ← bool_at m "await" at_ true true;
  return_ ← return_of m at_;
  match filter (λ k, is_Some (m !! k)) RUN_KINDS with
  | [kind] =>
      let wat := at_ +:+ "/" +:+ kind in
      definition ←? object (default VNull (m !! kind)) wat;
      process ← (if decide (kind = "workflow") then
          _ ← only definition wat ["namespace"; "name"; "version"; "input"];
          namespace ← required_string definition "namespace" wat;
          name ← required_string definition "name" wat;
          version ← string_of definition "version" wat;
          mret (PWorkflow namespace name (default "latest" version) (definition !! "input"))
        else mret (PExternal kind (VObj definition)));
      mret (Some (KRun (mkRunTask process false await return_)))
  | _ => none at_ "expected exactly one of container, script, shell, workflow"
  end.
(** [switch_task]. *)
Definition pair_of (v : value) : option (string * value) :=
  match as_object v with Some m => match entries m with [x] => Some x | _ => None end | None => None end.
Definition switch_case (at_ : string) (x : nat * value) : parser (bool * option (string * Case)) :=
  let cat := at_ +:+ "/" +:+ pretty x.1 in
  m ← object x.2 cat;
  match m with
  | None => mret (false, None)
  | Some m =>
      match entries m with
      | [(name, case)] =>
          let cat := cat +:+ "/" +:+ name in
          c ← object case cat;
          match c with
          | None => mret (false, None)
          | Some c =>
              _ ← only c cat ["when"; "then"];
              when_ ← bare_string c "when" cat;
              let is_default := bool_decide (when_ = None) in
              then_ ← and_then (c !! "then") (λ t, flow t (cat +:+ "/then"));
              match then_ with
              | Some then_ => mret (is_default, Some (name, mkCase when_ then_))
              | None =>
                  _ ← fail_if (negb (has "then" c)) cat "a switch case needs `then`";
                  mret (is_default, None)
              end
          end
      | _ => _ ← fail cat "each entry must be a single `name: case` pair"; mret (false, None)
      end
  end.
Definition switch_task (v : value) (at_ : string) : parser (option Kind) :=
  match v with
  | VArr items =>
      read ← each (switch_case at_) (numbered items);
      _ ← fail_if (bool_decide (1 < length (filter (λ x : bool * option (string * Case), x.1 = true) read))%nat) at_
            "only one case may omit `when` (the default)";
      mret (Some (KSwitch (omap snd read)))
  | _ => none at_ "expected a list of `- name: case` entries"
  end.
(** [raise_task]. *)
Definition raise_task (v : value) (at_ : string) : parser (option Kind) :=
  r ←? object v at_;
  _ ← only r at_ ["error"];
  match r !! "error" with
  | Some (VStr name) => mret (Some (KRaise (RaiseNamed name)))
  | Some e => d ←? error_def e (at_ +:+ "/error"); mret (Some (KRaise (RaiseInline d)))
  | None => none at_ "missing `error`"
  end.

Section over_tasks.
(** [task_list], one level down. *)
Variable task_list : value → string → parser TaskList.
Variable fuel : nat.

(** A list where there may be one. *)
Definition list_at (m : gmap string value) (key at_ : string) : parser (option TaskList) :=
  on_some (m !! key) (λ d, task_list d (at_ +:+ "/" +:+ key)).
Definition output_at (m : gmap string value) (key at_ : string) : parser (option Output) :=
  on_some (m !! key) (λ o, output o (at_ +:+ "/" +:+ key)).
(** [listen]. *)
Definition listen (v : value) (foreach : option value) (task_at : string) : parser (option Kind) :=
  let at_ := task_at +:+ "/listen" in
  m ←? object v at_;
  _ ← only m at_ ["to"; "read"];
  read_ ← read (m !! "read") (at_ +:+ "/read");
  to ←? match m !! "to" with
        | Some to => strategy fuel to (at_ +:+ "/to") true
        | None => none at_ "missing `to`"
        end;
  match foreach with
  | None => mret (Some (KListen (mkListen _ to read_ None)))
  | Some f =>
      let fat := task_at +:+ "/foreach" in
      f ←? object f fat;
      _ ← only f fat ["item"; "at"; "do"; "output"; "export"];
      item ← string_of f "item" fat;
      index ← string_of f "at" fat;
      tasks ← list_at f "do" fat;
      output_ ← output_at f "output" fat;
      export ← output_at f "export" fat;
      mret (Some (KListen (mkListen _ to read_
        (Some (mkForeach _ (default "item" item) (default "index" index) (default [] tasks) output_ export)))))
  end.
(** [for_task]. *)
Definition concurrency_of (concurrency : option value) (condition : option string) (at_ : string)
    : parser (option nat) :=
  let cat := at_ +:+ "/metadata/ouro/concurrency" in
  match concurrency with
  | None => mret None
  | Some n =>
      match as_u64 n with
      | Some n =>
          if decide (0 < n) then
            match condition with
            | Some _ => none cat "a concurrent for has no `while`"
            | None => mret (Some (Z.to_nat n))
            end
          else none cat "expected a positive integer"
      | None => none cat "expected a positive integer"
      end
  end.
Definition for_task (m : gmap string value) (concurrency : option value) (at_ : string) : parser (option Kind) :=
  f ←? object (default VNull (m !! "for")) (at_ +:+ "/for");
  _ ← only f (at_ +:+ "/for") ["each"; "in"; "at"];
  items ←? match f !! "in" with
           | Some (VStr s) => mret (Some (ItExpr (bare s)))
           | Some (VArr a) => mret (Some (ItInline a))
           | Some _ => none (at_ +:+ "/for/in") "expected an expression or an inline array"
           | None => none (at_ +:+ "/for") "missing `in`"
           end;
  each_ ← string_of f "each" (at_ +:+ "/for");
  index ← string_of f "at" (at_ +:+ "/for");
  condition ← bare_string m "while" at_;
  concurrency ← concurrency_of concurrency condition at_;
  tasks ← list_at m "do" at_;
  _ ← fail_if (bool_decide (tasks = None)) at_ "a for task needs `do`";
  mret (Some (KFor (default "item" each_) (default "index" index) items condition concurrency (default [] tasks))).
(** [try_task]. *)
Definition retry_of (v : option value) (cat : string) : parser (option Retry) :=
  match v with
  | None => mret None
  | Some (VStr name) =>
      match found name (nm_retries names) with
      | Some r => mret (Some r)
      | None => none (cat +:+ "/retry") ("no retry policy `" +:+ name +:+ "` under use.retries")
      end
  | Some r => retry r (cat +:+ "/retry")
  end.
(** [catch.errors]; the outer [None] is an early return. *)
Definition errors_of (v : option value) (cat : string) : parser (option (option (gmap string value))) :=
  match v with
  | None => mret (Some None)
  | Some e =>
      e ←? object e (cat +:+ "/errors");
      _ ← only e (cat +:+ "/errors") ["with"];
      w ← member e "with" (cat +:+ "/errors");
      mret (Some w)
  end.
Definition try_task (m : gmap string value) (at_ : string) : parser (option Kind) :=
  tasks ← task_list (default VNull (m !! "try")) (at_ +:+ "/try");
  match m !! "catch" with
  | None => none at_ "a try task needs `catch`"
  | Some c =>
      let cat := at_ +:+ "/catch" in
      c ←? object c cat;
      _ ← only c cat ["errors"; "as"; "when"; "exceptWhen"; "retry"; "do"; "then"];
      errors ←? errors_of (c !! "errors") cat;
      retry_ ← retry_of (c !! "retry") cat;
      as_ ← string_of c "as" cat;
      when_ ← bare_string c "when" cat;
      except_when ← bare_string c "exceptWhen" cat;
      handler ← list_at c "do" cat;
      then_ ← and_then (c !! "then") (λ t, flow t (cat +:+ "/then"));
      mret (Some (KTry tasks (mkCatch _ errors (default "error" as_) when_ except_when retry_ handler then_)))
  end.
(** [fork_task]. *)
Definition fork_task (v : value) (at_ : string) : parser (option Kind) :=
  f ←? object v at_;
  _ ← only f at_ ["branches"; "compete"];
  branches ← list_at f "branches" at_;
  compete ← bool_at f "compete" at_ false false;
  mret (Some (KFork (default [] branches) compete)).

(** The kind a task's members say it is. *)
Definition kind_of (m : gmap string value) (concurrency : option value) (at_ : string) : parser (option Kind) :=
  if has "for" m then
    _ ← only m at_ (COMMON ++ ["for"; "while"; "do"]); for_task m concurrency at_
  else if has "try" m then
    _ ← only m at_ (COMMON ++ ["try"; "catch"]); try_task m at_
  else match m !! "fork" with Some f =>
    _ ← only m at_ (COMMON ++ ["fork"]); fork_task f (at_ +:+ "/fork")
  | None => if has "call" m then
    _ ← only m at_ (COMMON ++ ["call"; "with"]);
    function ← required_string m "call" at_;
    _ ← fail_if (is_some_and (m !! "with") (λ w, negb (is_object w))) (at_ +:+ "/with") "expected an object of arguments";
    mret (Some (KCall function (m !! "with")))
  else match m !! "set" with Some s =>
    _ ← only m at_ (COMMON ++ ["set"]);
    _ ← fail_if (negb (is_object s || is_some_and (as_str s) (λ t, bool_decide (is_Some (strip t))))) (at_ +:+ "/set")
          ("expected an object or a `${ " +:+ bytes [226; 128; 166] +:+ " }` expression (a fixed text is `set: '${ " +:+
           bytes [34; 226; 128; 166; 34] +:+ " }'`)");
    mret (Some (KSet s))
  | None => match m !! "switch" with Some s =>
    _ ← only m at_ (COMMON ++ ["switch"]); switch_task s (at_ +:+ "/switch")
  | None => match m !! "raise" with Some r =>
    _ ← only m at_ (COMMON ++ ["raise"]); raise_task r (at_ +:+ "/raise")
  | None => match m !! "listen" with Some v =>
    _ ← only m at_ (COMMON ++ ["listen"; "foreach"]); listen v (m !! "foreach") at_
  | None => match m !! "emit" with Some e =>
    _ ← only m at_ (COMMON ++ ["emit"]); emit e (at_ +:+ "/emit")
  | None => match m !! "run" with Some r =>
    _ ← only m at_ (COMMON ++ ["run"]); run_task r (at_ +:+ "/run")
  | None => match m !! "wait" with Some w =>
    _ ← only m at_ (COMMON ++ ["wait"]); d ←? duration w (at_ +:+ "/wait"); mret (Some (KWait d))
  | None => match m !! "do" with Some d =>
    _ ← only m at_ (COMMON ++ ["do"]); tasks ← task_list d (at_ +:+ "/do"); mret (Some (KDo tasks))
  | None =>
    none at_ "unknown task: expected one of call, do, emit, for, fork, listen, raise, run, set, switch, try, wait"
  end end end end end end end end end.

(** [metadata.ouro] of a task. *)
Definition inherits (extensions : gmap string value) (kind : option Kind) (at_ : string) : parser (option Kind) :=
  match extensions !! "host" with
  | None => mret kind
  | Some host =>
      match kind with
      | Some (KRun (mkRunTask (PWorkflow namespace name version i) _ a r)) =>
          if decide (as_str host = Some "inherit") then
            mret (Some (KRun (mkRunTask (PWorkflow namespace name version i) true a r)))
          else _ ← fail (at_ +:+ "/metadata/ouro/host") "expected literal inherit on a workflow run task"; mret kind
      | _ => _ ← fail (at_ +:+ "/metadata/ouro/host") "expected literal inherit on a workflow run task"; mret kind
      end
  end.
(** A [Delivery] as serde reads it. *)
Definition delivery_named (s : string) : option Delivery :=
  if decide (s = "at_least_once") then Some AtLeastOnce
  else if decide (s = "at_most_once") then Some AtMostOnce else None.
Definition delivery_read (v : value) : option Delivery :=
  match v with
  | VStr s => delivery_named s
  | VObj m => match entries m with [(s, VNull)] => delivery_named s | _ => None end
  | _ => None
  end.
Definition delivery_of (extensions m : gmap string value) (at_ : string) : parser Delivery :=
  match extensions !! "delivery" with
  | None => mret AtLeastOnce
  | Some v =>
      match delivery_read v with
      | Some policy =>
          if has "call" m then mret policy
          else _ ← fail (at_ +:+ "/metadata/ouro/delivery") "expected at_least_once or at_most_once on a call task";
               mret AtLeastOnce
      | None => _ ← fail (at_ +:+ "/metadata/ouro/delivery") "expected at_least_once or at_most_once on a call task";
                mret AtLeastOnce
      end
  end.
Definition hold_of (extensions m : gmap string value) (at_ : string) : parser Z :=
  match extensions !! "hold" with
  | None => mret 0
  | Some v =>
      _ ← fail_if (negb (has "listen" m)) (at_ +:+ "/metadata/ouro/hold") "hold belongs on a listen task";
      match as_str v ≫= parse_iso_duration with
      | Some d => mret d
      | None => _ ← fail (at_ +:+ "/metadata/ouro/hold") "expected an ISO 8601 duration (e.g. PT5S)"; mret 0
      end
  end.
(** [task]. *)
Definition task_body (v : value) (at_ : string) : parser (option Task) :=
  m ←? object v at_;
  extensions ← ouro m at_ TASK_EXTENSIONS;
  let extensions := default ∅ extensions in
  kind ← kind_of m (extensions !! "concurrency") at_;
  when_ ← string_of m "if" at_;
  input_ ← on_some (m !! "input") (λ i, input i (at_ +:+ "/input"));
  output_ ← output_at m "output" at_;
  export ← output_at m "export" at_;
  timeout_ ← and_then (m !! "timeout") (λ t, timeout t (at_ +:+ "/timeout"));
  then_ ← and_then (m !! "then") (λ t, flow t (at_ +:+ "/then"));
  _ ← fail_if (has "concurrency" extensions && negb (has "for" m)) (at_ +:+ "/metadata/ouro/concurrency")
        "concurrency belongs on a for task";
  kind ← inherits extensions kind at_;
  delivery_ ← delivery_of extensions m at_;
  hold ← hold_of extensions m at_;
  mret (match kind with
        | Some kind => Some (mkTask delivery_ hold when_ input_ output_ export timeout_ then_ kind v)
        | None => None
        end).
End over_tasks.

(** [task_list], over the parser of one task: the names kept so far tell duplicates. *)
Section list_of_tasks.
Variable task : value → string → parser (option Task).
Fixpoint tasks_from (at_ : string) (items : list (nat * value)) (out : TaskList) : parser TaskList :=
  match items with
  | [] => mret out
  | (i, item) :: items =>
      let iat := at_ +:+ "/" +:+ pretty i in
      m ← object item iat;
      out ← match m with
            | None => mret out
            | Some m =>
                match entries m with
                | [(name, def)] =>
                    _ ← fail_if (bool_decide (name ∈ out.*1)) iat ("duplicate task name `" +:+ name +:+ "` in this list");
                    t ← task def (iat +:+ "/" +:+ name);
                    mret (match t with Some t => out ++ [(name, t)] | None => out end)
                | _ => _ ← fail iat "each entry must be a single `name: task` pair"; mret out
                end
            end;
      tasks_from at_ items out
  end.
Definition task_list_over (v : value) (at_ : string) : parser TaskList :=
  match v with
  | VArr items => tasks_from at_ (numbered items) []
  | _ => _ ← fail at_ "expected a list of `- name: task` entries"; mret []
  end.
End list_of_tasks.
(** [task] and [task_list]: the fuel bounds the nesting of the document. *)
Fixpoint task (fuel : nat) (v : value) (at_ : string) : parser (option Task) :=
  match fuel with
  | O => none at_ "nested too deeply"
  | S fuel => task_body (task_list_over (task fuel)) fuel v at_
  end.
Definition task_list (fuel : nat) : value → string → parser TaskList := task_list_over (task fuel).
End named.
End with_libraries.
