(* ===== verification/DocumentParser.v ===== *)
(** * Whole documents

    [crates/ows/src/model.rs], section 2: [use], the extensions' and the engine's own
    members, schedules, [workflow] and [parse]. *)
From S2P Require Import Prelude Json Outcome Journal Expr Listen Model Parser TaskParser.
From S2P Require Types.

Section with_libraries.
Context `{Libraries}.

Section named.
Variable names : Names.

(** ** The document *)

(** [extensions]. *)
Definition EXTENDED_KINDS : list string :=
  ["call"; "composite"; "emit"; "for"; "listen"; "raise"; "run"; "set"; "switch"; "try"; "wait"; "all"].
Definition extension (fuel : nat) (x : nat * value) : parser (option (string * Extension)) :=
  let at_ := "/use/extensions/" +:+ pretty x.1 in
  match pair_of x.2 with
  | None => none at_ "each entry must be a single `name: extension` pair"
  | Some (name, def) =>
      let at_ := at_ +:+ "/" +:+ name in
      e ←? object def at_;
      _ ← only e at_ ["extend"; "when"; "before"; "after"];
      extend ← required_string e "extend" at_;
      _ ← fail_if (negb (bool_decide (extend = "")) && negb (bool_decide (extend ∈ EXTENDED_KINDS)))
            (at_ +:+ "/extend") ("expected one of " +:+ joined EXTENDED_KINDS);
      when_ ← bare_string e "when" at_;
      before ← list_at (task_list names fuel) e "before" at_;
      after_ ← list_at (task_list names fuel) e "after" at_;
      mret (Some (name, mkExtension extend when_ before after_))
  end.
Definition extensions (fuel : nat) (v : value) : parser (list (string * Extension)) :=
  match v with
  | VArr items => each_some (extension fuel) (numbered items)
  | _ => _ ← fail "/use/extensions" "expected a list of `- name: extension` entries"; mret []
  end.
(** [budget]. *)
Definition budget (fuel : nat) (v : value) : parser Budget :=
  let at_ := "/document/metadata/ouro/limits" in
  m ← object v at_;
  match m with
  | None => mret (mkBudget None XRaise)
  | Some m =>
      _ ← only m at_ ["max_jumps"; "on_exceeded"];
      max_jumps ← match m !! "max_jumps" with
        | None => mret None
        | Some n =>
            _ ← fail_if (bool_decide (as_u64 n = None)) (at_ +:+ "/max_jumps") "expected a non-negative integer";
            mret (as_u64 n)
        end;
      on_exceeded ← match m !! "on_exceeded" with
        | None => mret XRaise
        | Some (VObj t) =>
            t ← task names fuel (VObj t) (at_ +:+ "/on_exceeded");
            mret (match t with Some t => XTask t | None => XRaise end)
        | Some v =>
            if decide (v = VStr "end") then mret XEnd
            else _ ← fail (at_ +:+ "/on_exceeded") "expected `end` or a task (e.g. `call: report`)"; mret XRaise
        end;
      mret (mkBudget max_jumps on_exceeded)
  end.
End named.

(** [breaker]. *)
Definition MAX_THRESHOLD : Z := 1000.
Definition breaker (v : value) : parser Types.Breaker :=
  let at_ := "/document/metadata/ouro/breaker" in
  if decide (as_str v = Some "off") then mret Types.Off
  else match as_object v with
  | None => _ ← fail at_ "expected `off` or `{ threshold: <n> }`"; mret Types.Inherit
  | Some m =>
      _ ← only m at_ ["threshold"];
      match m !! "threshold" with
      | Some n =>
          match as_u64 n with
          | Some n =>
              if decide (1 ≤ n ≤ MAX_THRESHOLD) then mret (Types.Threshold n)
              else _ ← fail (at_ +:+ "/threshold") ("expected an integer from 1 to " +:+ pretty MAX_THRESHOLD);
                   mret Types.Inherit
          | None => _ ← fail (at_ +:+ "/threshold") ("expected an integer from 1 to " +:+ pretty MAX_THRESHOLD);
                    mret Types.Inherit
          end
      | None => _ ← fail_if (bool_decide (m = ∅)) at_ "expected `off` or `{ threshold: <n> }`"; mret Types.Inherit
      end
  end.
(** [document]. *)
Record DocumentOf := mkDocument {
  doc_dsl : string;
  doc_namespace : string;
  doc_name : string;
  doc_version : string;
  doc_title : option string;
  doc_summary : option string
}.
Definition document (v : value) : parser (option DocumentOf) :=
  m ←? object v "/document";
  _ ← only m "/document" ["dsl"; "namespace"; "name"; "version"; "title"; "summary"; "tags"; "metadata"];
  dsl ← required_string m "dsl" "/document";
  _ ← fail_if (negb (bool_decide (dsl = "")) && negb (starts_with "1." dsl)) "/document/dsl"
        ("DSL " +:+ dsl +:+ " is not supported (1.x only)");
  namespace ← required_string m "namespace" "/document";
  name ← required_string m "name" "/document";
  version ← required_string m "version" "/document";
  title ← string_of m "title" "/document";
  summary ← string_of m "summary" "/document";
  mret (Some (mkDocument dsl namespace name version title summary)).
(** [uses], without the functions and extensions, which [workflow] parses once the
    named retries and timeouts are known. *)
Definition secret_name (seen : list string) (i : nat) (v : value) : parser (list string) :=
  let at_ := "/use/secrets/" +:+ pretty i in
  match as_str v with
  | Some n =>
      if decide (n = "") then _ ← fail at_ "expected a secret name"; mret seen
      else if decide (n ∈ seen) then _ ← fail at_ ("secret `" +:+ n +:+ "` is declared twice"); mret seen
      else mret (seen ++ [n])
  | None => _ ← fail at_ "expected a secret name"; mret seen
  end.
Fixpoint secret_names_of (items : list (nat * value)) (seen : list string) : parser (list string) :=
  match items with
  | [] => mret seen
  | (i, v) :: items => seen ← secret_name seen i v; secret_names_of items seen
  end.
Definition entries_at {A} (m : gmap string value) (key at_ : string) (f : value → string → parser (option A))
    : parser (list (string * A)) :=
  e ← member m key at_;
  match e with
  | None => mret []
  | Some e =>
      each_some (λ x : string * value,
        d ←? f x.2 (at_ +:+ "/" +:+ key +:+ "/" +:+ x.1); mret (Some (x.1, d))) (entries e)
  end.
Record UsesOf := mkUsesOf {
  uo_secrets : list string;
  uo_errors : list (string * ErrorDef);
  uo_names : Names;
  uo_functions : list string
}.
Definition uses (v : value) : parser UsesOf :=
  m ← object v "/use";
  match m with
  | None => mret (mkUsesOf [] [] (mkNames [] []) [])
  | Some m =>
      _ ← fail_if (has "authentications" m) "/use/authentications"
            "authentication is not supported; functions carry their own credentials";
      _ ← fail_if (has "catalogs" m) "/use/catalogs"
            "external catalogs are not supported; functions come from the runtime's catalog";
      _ ← only m "/use" ["functions"; "errors"; "retries"; "timeouts"; "authentications"; "catalogs";
                         "extensions"; "secrets"];
      secrets ← match m !! "secrets" with
        | None => mret []
        | Some (VArr names) => secret_names_of (numbered names) []
        | Some _ => _ ← fail "/use/secrets" "expected a list of secret names"; mret []
        end;
      errors ← entries_at m "errors" "/use" error_def;
      retries ← entries_at m "retries" "/use" retry;
      timeouts ← entries_at m "timeouts" "/use" timeout_object;
      functions ← member m "functions" "/use";
      mret (mkUsesOf secrets errors (mkNames retries timeouts) (keys (default ∅ functions)))
  end.
(** A function's body, where the name stood. *)
Definition placeholder : Task := mkTask AtLeastOnce 0 None None None None None None (KDo []) VNull.
Definition functions (names : Names) (fuel : nat) (u : option value) (known : list string)
    : parser (list (string * Task)) :=
  parsed ← each (λ x : string * value,
    t ← task names fuel x.2 ("/use/functions/" +:+ x.1); mret (x.1, t))
    (entries (match u with Some u => default ∅ (as_object (vindex "functions" u)) | None => ∅ end));
  mret (map (λ name, (name, match found name parsed with Some (Some t) => t | _ => placeholder end)) known).

(** ** Schedules *)

Inductive Catchup := Latest | NoCatchup.
Record Schedule := mkSchedule {
  sc_every : option Z;
  sc_cron : option string;
  sc_after : option Z;
  sc_on : option Strategy;
  sc_read : Read;
  sc_at : option Z;
  sc_timezone : option string;
  sc_catchup : Catchup;
  sc_overlap : Types.Overlap
}.
#[export] Instance eta_Schedule : Eta Schedule := λ s,
  mkSchedule (sc_every s) (sc_cron s) (sc_after s) (sc_on s) (sc_read s) (sc_at s) (sc_timezone s) (sc_catchup s)
    (sc_overlap s).
(** A literal duration that is not zero. *)
Definition fixed (m : gmap string value) (key at_ : string) : parser (option Z) :=
  d ← duration_at m key at_;
  match d with
  | Some (Fixed d) => if decide (d = 0) then none (at_ +:+ "/" +:+ key) "expected a positive literal duration"
                      else mret (Some d)
  | Some (DExpr _) => none (at_ +:+ "/" +:+ key) "expected a positive literal duration"
  | None => mret None
  end.
(** [schedule]. *)
Definition schedule (fuel : nat) (v : value) : parser (option Schedule) :=
  let at_ := "/schedule" in
  m ←? object v at_;
  _ ← only m at_ ["every"; "cron"; "after"; "on"; "read"];
  every ← fixed m "every" at_;
  after_ ← fixed m "after" at_;
  cron ← string_of m "cron" at_;
  _ ← match cron with
      | Some c => match cron_error c with
                  | Some e => fail (at_ +:+ "/cron") ("invalid cron expression: " +:+ e)
                  | None => mret ()
                  end
      | None => mret ()
      end;
  on ← and_then (m !! "on") (λ o, strategy fuel o (at_ +:+ "/on") true);
  _ ← fail_if (has "read" m && negb (has "on" m)) (at_ +:+ "/read") "read applies only with `on`";
  read_ ← read (m !! "read") (at_ +:+ "/read");
  _ ← fail_if (bool_decide (every = None) && bool_decide (after_ = None) && bool_decide (cron = None) &&
               bool_decide (on = None)) at_ "a schedule needs every, cron, after or on";
  mret (Some (mkSchedule every cron after_ on read_ None None Latest Types.Skip)).
(** [instant]. *)
Definition instant (v : value) (at_ : string) : parser (option Z) :=
  match as_str v ≫= parse_rfc3339 with
  | Some ms => mret (Some ms)
  | None => none at_ "expected an RFC 3339 timestamp with an offset, e.g. 2030-01-31T09:00:00Z"
  end.
(** The members of [document.metadata.ouro] that qualify a schedule, in turn. *)
Definition OURO : string := "/document/metadata/ouro/".
Definition one_shot (at_ : option value) (given : bool) (s : option Schedule) : parser (option Schedule) :=
  match at_, s with
  | None, s => mret s
  | Some v, None =>
      ms ← instant v (OURO +:+ "at");
      mret (if given then None
            else match ms with
                 | Some ms => Some (mkSchedule None None None None ReadData (Some ms) None Latest Types.Skip)
                 | None => None
                 end)
  | Some _, Some s =>
      _ ← fail (OURO +:+ "at") "a one-shot `at` is a schedule of its own: remove `schedule` (every, cron, after, on)";
      mret (Some s)
  end.
Definition timezone (zone : option value) (s : option Schedule) : parser (option Schedule) :=
  match zone, s with
  | None, s => mret s
  | Some zone, Some s =>
      if bool_decide (is_Some (sc_cron s)) then
        match as_str zone with
        | Some name =>
            if is_zone name then mret (Some (s <| sc_timezone := Some name |>))
            else _ ← fail (OURO +:+ "timezone") "expected an IANA time zone name, e.g. Europe/Berlin"; mret (Some s)
        | None => _ ← fail (OURO +:+ "timezone") "expected an IANA time zone name, e.g. Europe/Berlin"; mret (Some s)
        end
      else _ ← fail (OURO +:+ "timezone") "timezone applies only with a `cron` schedule"; mret (Some s)
  | Some _, None => _ ← fail (OURO +:+ "timezone") "timezone applies only with a `cron` schedule"; mret None
  end.
(** A policy by its name, on a schedule. *)
Definition policy_of {A} (key expected : string) (named : string → option A) (set : A → Schedule → Schedule)
    (v : option value) (s : option Schedule) : parser (option Schedule) :=
  match v with
  | None => mret s
  | Some v =>
      match as_str v, s with
      | Some _, None => _ ← fail (OURO +:+ key) (key +:+ " applies only with a schedule"); mret None
      | Some name, Some s' =>
          match named name with
          | Some a => mret (Some (set a s'))
          | None => _ ← fail (OURO +:+ key) expected; mret s
          end
      | None, _ => _ ← fail (OURO +:+ key) expected; mret s
      end
  end.
Definition catchup_named (s : string) : option Catchup :=
  if decide (s = "latest") then Some Latest else if decide (s = "none") then Some NoCatchup else None.
Definition overlap_named (s : string) : option Types.Overlap :=
  if decide (s = "skip") then Some Types.Skip else if decide (s = "allow") then Some Types.Allow
  else if decide (s = "queue") then Some Types.Queue else if decide (s = "replace") then Some Types.Replace else None.

(** ** [workflow] *)

(** What a document holds: the workflow as the interpreter reads it, and the rest. *)
Record Parsed := mkParsed {
  pa_document : DocumentOf;
  pa_workflow : Workflow;
  pa_names : Names;
  pa_schedule : option Schedule;
  pa_breaker : Types.Breaker
}.
Definition evaluate (m : gmap string value) : parser unit :=
  ev ← member m "evaluate" "";
  match ev with
  | None => mret ()
  | Some ev =>
      _ ← only ev "/evaluate" ["language"; "mode"];
      _ ← fail_if (is_some_and (ev !! "language") (λ l, negb (bool_decide (l = VStr "jq")))) "/evaluate/language"
            "only jq is supported";
      fail_if (is_some_and (ev !! "mode") (λ l, negb (bool_decide (l = VStr "strict")))) "/evaluate/mode"
        "only strict mode is supported"
  end.
Definition workflow (fuel : nat) (v : value) : parser (option Parsed) :=
  m ←? object v "";
  _ ← only m "" ["document"; "input"; "output"; "use"; "do"; "timeout"; "schedule"; "evaluate"];
  _ ← evaluate m;
  document_ ← match m !! "document" with
              | Some d => document d
              | None => none "" "missing `document`"
              end;
  u ← match m !! "use" with Some u => uses u | None => mret (mkUsesOf [] [] (mkNames [] []) []) end;
  let names := uo_names u in
  functions_ ← functions names fuel (m !! "use") (uo_functions u);
  extensions_ ← match (m !! "use") ≫= vget "extensions" with
                | Some e => extensions names fuel e
                | None => mret []
                end;
  tasks ← match m !! "do" with
          | Some d => task_list names fuel d "/do"
          | None => _ ← fail "" "missing `do`"; mret []
          end;
  input_ ← on_some (m !! "input") (λ i, input i "/input");
  output_ ← on_some (m !! "output") (λ o, output o "/output");
  timeout_ ← and_then (m !! "timeout") (λ t, timeout names t "/timeout");
  s ← and_then (m !! "schedule") (schedule fuel);
  extensions_of ← match (m !! "document") ≫= as_object with
                  | Some d => ouro d "/document" DOCUMENT_EXTENSIONS
                  | None => mret None
                  end;
  let metadata key := default ∅ extensions_of !! key in
  s ← one_shot (metadata "at") (has "schedule" m) s;
  s ← timezone (metadata "timezone") s;
  s ← policy_of "catchup" "expected latest or none" catchup_named (λ a s, s <| sc_catchup := a |>)
        (metadata "catchup") s;
  s ← policy_of "overlap" "expected skip, allow, queue or replace" overlap_named (λ a s, s <| sc_overlap := a |>)
        (metadata "overlap") s;
  budget_ ← match metadata "limits" with Some l => budget names fuel l | None => mret (mkBudget None XRaise) end;
  breaker_ ← match metadata "breaker" with Some b => breaker b | None => mret Types.Inherit end;
  mret (match document_ with
        | Some d =>
            Some (mkParsed d
              (mkWorkflow (doc_namespace d) (doc_name d) (doc_version d) input_ output_
                 (mkUses functions_ (uo_errors u) extensions_ (uo_secrets u)) tasks timeout_ budget_ v)
              names s breaker_)
        | None => None
        end).
(** [parse]. *)
Definition parse_with (fuel : nat) (definition : value) : result (list Problem) Parsed :=
  match workflow fuel definition with
  | (Some wf, []) => match conforms definition with [] => Ok wf | problems => Err problems end
  | (_, problems) => Err problems
  end.
(** The nesting of a value. *)
Fixpoint height (v : value) : nat :=
  match v with
  | VArr l => S (foldr (λ v n, Nat.max (height v) n) O l)
  | VObj m => S (map_fold (λ _ v n, Nat.max (height v) n) O m)
  | _ => 1%nat
  end.
Definition parse (definition : value) : result (list Problem) Parsed := parse_with (height definition) definition.
(** [parse_yaml]. *)
Definition parse_yaml (text : string) : result (list Problem) Parsed :=
  match from_yaml text with
  | Ok v => parse v
  | Err e => Err [mkProblem "" ("not YAML: " +:+ e)]
  end.
End with_libraries.
