(* ===== verification/ParserSpec.v ===== *)
(** * What a parsed document is

    [parse]: a document without problems is one the interpreter can rely on
    ([fit_document]): positive concurrency and no [while] beside it, statuses and
    durations in range, distinct task names, filters that name something, deliveries,
    holds and inherited hosts only where they apply. And its fuel is enough. *)
From S2P Require Import Prelude Json Outcome Journal Expr Listen Model Parser TaskParser DocumentParser.
From S2P Require Types.

(** ** Fit documents *)

Definition fit_duration (d : DurationSpec) : bool :=
  match d with Fixed n => bool_decide (n ≤ millis u64_max) | DExpr _ => true end.
Definition fit_error (e : ErrorDef) : bool := bool_decide (100 ≤ ed_status e ≤ 599).
Definition all_of {A} (p : A → bool) (o : option A) : bool := match o with Some a => p a | None => true end.
Definition fit_retry (r : Retry) : bool :=
  all_of fit_duration (rt_delay r) && all_of fit_duration (rt_attempt_duration r) &&
  all_of fit_duration (rt_duration r) && all_of (λ n, bool_decide (n ≤ u32_max)) (rt_attempts r) &&
  all_of (λ j : DurationSpec * DurationSpec, fit_duration j.1 && fit_duration j.2) (rt_jitter r).
Definition fit_filter (f : EventFilter) : bool := negb (bool_decide (f_with f = [])).
Fixpoint fit_strategy (until : bool) (s : Strategy) : bool :=
  match s with
  | One f => fit_filter f
  | All l => negb (bool_decide (l = [])) && forallb fit_filter l
  | Any l u =>
      forallb fit_filter l &&
      match u with
      | None => true
      | Some (Condition _) => until
      | Some (Events s) => until && fit_strategy false s
      end
  end.
Definition distinct (l : list string) : bool := bool_decide (NoDup l).
(** A kind, over the lists of tasks it holds. *)
Definition fit_kind_with (list_ : list (string * Task) → bool) (k : Kind) : bool :=
  match k with
  | KCall _ w => all_of is_object w
  | KDo l | KFork l _ => list_ l
  | KFor _ _ _ condition concurrency l =>
      all_of (λ n, bool_decide (0 < n)%nat && bool_decide (condition = None)) concurrency && list_ l
  | KSet v => is_object v || is_some_and (as_str v) (λ s, bool_decide (is_Some (strip s)))
  | KSwitch cases => bool_decide (length (filter (λ x : string * Case, case_when x.2 = None) cases) ≤ 1)%nat
  | KTry l c => list_ l && all_of list_ (catch_tasks c) && all_of fit_retry (catch_retry c)
  | KRaise (RaiseInline e) => fit_error e
  | KRaise (RaiseNamed _) => true
  | KWait d => fit_duration d
  | KListen l => fit_strategy true (li_to l) && match li_foreach l with Some f => list_ (fe_tasks f) | None => true end
  | KEmit w => is_some_and ((w !! "type") ≫= as_str) (λ s, negb (bool_decide (s = "")))
  | KRun r => negb (run_inherit_host r) || match run_process_of r with PWorkflow _ _ _ _ => true | _ => false end
  end.
Definition is_call (k : Kind) : bool := match k with KCall _ _ => true | _ => false end.
Definition is_listen (k : Kind) : bool := match k with KListen _ => true | _ => false end.
Fixpoint fit_task (t : Task) : bool :=
  (bool_decide (tk_delivery t = AtLeastOnce) || is_call (tk_kind t)) &&
  (bool_decide (tk_hold t = 0) || is_listen (tk_kind t)) &&
  bool_decide (tk_hold t ≤ millis u64_max) && all_of fit_duration (tk_timeout t) &&
  fit_kind_with (λ l, distinct l.*1 && forallb (λ x : string * Task, fit_task x.2) l) (tk_kind t).
Definition fit_list (l : TaskList) : bool := distinct l.*1 && forallb (λ x : string * Task, fit_task x.2) l.
Definition fit_kind (k : Kind) : bool := fit_kind_with fit_list k.
Definition fit_schedule (s : Schedule) : bool :=
  all_of (λ d, bool_decide (d ≠ 0 ∧ d ≤ millis u64_max)) (sc_every s) &&
  all_of (λ d, bool_decide (d ≠ 0 ∧ d ≤ millis u64_max)) (sc_after s) && all_of (fit_strategy true) (sc_on s) &&
  (bool_decide (sc_timezone s = None) || bool_decide (is_Some (sc_cron s))) &&
  match sc_at s with
  | Some _ => bool_decide (sc_every s = None ∧ sc_cron s = None ∧ sc_after s = None ∧ sc_on s = None)
  | None => negb (bool_decide (sc_every s = None ∧ sc_cron s = None ∧ sc_after s = None ∧ sc_on s = None))
  end.
Definition fit_breaker (b : Types.Breaker) : bool :=
  match b with Types.Threshold n => bool_decide (1 ≤ n ≤ MAX_THRESHOLD) | _ => true end.
Definition fit_extension (x : string * Extension) : bool :=
  all_of fit_list (ex_before x.2) && all_of fit_list (ex_after x.2) &&
  (bool_decide (ex_extend x.2 = "") || bool_decide (ex_extend x.2 ∈ EXTENDED_KINDS)).
Definition fit_document (p : Parsed) : bool :=
  let w := pa_workflow p in
  let u := wf_uses w in
  fit_list (wf_tasks w) && forallb (λ x : string * Task, fit_task x.2) (us_functions u) &&
  forallb (λ x : string * ErrorDef, fit_error x.2) (us_errors u) &&
  forallb fit_extension (us_extensions u) &&
  distinct (us_secrets u) && negb (bool_decide ("" ∈ us_secrets u)) && all_of fit_duration (wf_timeout w) &&
  match bu_on_exceeded (wf_budget w) with XTask t => fit_task t | _ => true end &&
  all_of fit_schedule (pa_schedule p) && fit_breaker (pa_breaker p).

(** ** Parsers without problems *)

(** Without a problem, what is parsed satisfies [Q]. *)
Definition sure {A} (Q : A → Prop) (p : parser A) : Prop := p.2 = [] → Q p.1.
Definition yes {A} (Q : A → Prop) (o : option A) : Prop := match o with Some a => Q a | None => False end.
Definition maybe {A} (Q : A → Prop) (o : option A) : Prop := match o with Some a => Q a | None => True end.

Lemma sure_mono {A} (Q R : A → Prop) p : (∀ a, Q a → R a) → sure Q p → sure R p.
Proof. unfold sure. auto. Qed.
Lemma sure_any {A} (p : parser A) : sure (λ _, True) p.
Proof. done. Qed.
Lemma sure_ret {A} (Q : A → Prop) a : Q a → sure Q (mret a).
Proof. by intros Ha _. Qed.
Lemma sure_bind {A B} Q (p : parser A) (f : A → parser B) : sure (λ a, sure Q (f a)) p → sure Q (p ≫= f).
Proof.
  unfold sure. destruct p as [a l]. cbn. unfold parser_bind, mbind. cbn. destruct (f a) as [b l'].
  intros Hp [-> ->]%app_nil. by apply Hp.
Qed.
Lemma sure_after {A B} Q (p : parser A) (f : A → parser B) : (∀ a, sure Q (f a)) → sure Q (p ≫= f).
Proof. intros Hf. apply sure_bind. eapply sure_mono; [|apply sure_any]. auto. Qed.
Lemma sure_bind_some {A B} (Q : option B → Prop) (p : parser (option A)) f :
  sure (yes (λ a, sure Q (f a))) p → sure Q (bind_some p f).
Proof. intros Hp. unfold bind_some. apply sure_bind. eapply sure_mono; [|exact Hp]. by intros [a|]. Qed.
Lemma sure_fail (Q : unit → Prop) at_ m : sure Q (fail at_ m).
Proof. done. Qed.
Lemma sure_failed {B} (Q : B → Prop) at_ m (f : unit → parser B) : sure Q (fail at_ m ≫= f).
Proof. apply sure_bind. done. Qed.
Lemma sure_fail_if b at_ m : sure (λ _, b = false) (fail_if b at_ m).
Proof. by destruct b. Qed.
Lemma sure_none {A} (Q : option A → Prop) at_ m : sure Q (none at_ m).
Proof. done. Qed.
Lemma sure_and_then {A B} Q (o : option A) (f : A → parser (option B)) :
  (∀ a, o = Some a → sure (maybe Q) (f a)) → sure (maybe Q) (and_then o f).
Proof. destruct o; cbn; [by intros Hf; apply Hf|by intros _ _]. Qed.
Lemma sure_on_some {A B} Q (o : option A) (f : A → parser B) :
  (∀ a, o = Some a → sure Q (f a)) → sure (maybe Q) (on_some o f).
Proof.
  destruct o; cbn; [|by intros _ _]. intros Hf. apply sure_bind. eapply sure_mono; [|by apply Hf]. intros b Hb. by apply sure_ret.
Qed.
Lemma sure_each {A B} Q (f : A → parser B) l : (∀ x, x ∈ l → sure Q (f x)) → sure (Forall Q) (each f l).
Proof.
  induction l as [|x l IH]; intros Hf; cbn [each]; [by apply sure_ret|].
  apply sure_bind. eapply sure_mono; [|apply Hf; by left]. intros b Hb.
  apply sure_bind. eapply sure_mono; [|apply IH; intros; apply Hf; by right]. intros bs Hbs. apply sure_ret. by constructor.
Qed.
Lemma sure_each_some {A B} Q (f : A → parser (option B)) l :
  (∀ x, x ∈ l → sure (maybe Q) (f x)) → sure (Forall Q) (each_some f l).
Proof.
  intros Hf. unfold each_some. apply sure_bind. eapply sure_mono; [|by apply sure_each].
  intros bs Hbs. apply sure_ret. induction Hbs as [|[b|] bs Hb _ IH]; cbn; [done|by constructor|done].
Qed.
Lemma sure_if {A} (Q : A → Prop) (c : bool) p q : (c = true → sure Q p) → (c = false → sure Q q) → sure Q (if c then p else q).
Proof. destruct c; auto. Qed.
Lemma sure_object v at_ : sure (yes (λ m, v = VObj m)) (object v at_).
Proof. by destruct v. Qed.
(** What a part gives, for what follows it. *)
Lemma sure_then {A B} (P : A → Prop) (Q : B → Prop) p (f : A → parser B) :
  sure P p → (∀ a, P a → sure Q (f a)) → sure Q (p ≫= f).
Proof. intros Hp Hf. apply sure_bind. by eapply sure_mono. Qed.
Lemma sure_then_some {A B} (P : A → Prop) (Q : option B → Prop) p (f : A → parser (option B)) :
  sure (yes P) p → (∀ a, P a → sure Q (f a)) → sure Q (bind_some p f).
Proof. intros Hp Hf. apply sure_bind_some. eapply sure_mono; [|exact Hp]. intros [a|]; [apply Hf|done]. Qed.
Ltac sure_step :=
  match goal with
  | |- sure _ (fail _ _ ≫= _) => apply sure_failed
  | |- sure _ (fail _ _) => apply sure_fail
  | |- sure _ (none _ _) => apply sure_none
  | |- sure _ (fail_if _ _ _ ≫= _) => eapply sure_then; [apply sure_fail_if|intros [] ?; cbv beta in *]
  | |- sure _ (bind_some (object _ _) _) => eapply sure_then_some; [apply sure_object|intros ? ?E; try subst]
  | |- sure _ (only _ _ _ ≫= _) => apply sure_after; intros _
  | |- sure _ (string_of _ _ _ ≫= _) => apply sure_after; intros ?
  | |- sure _ (bare_string _ _ _ ≫= _) => apply sure_after; intros ?
  | |- sure _ (required_string _ _ _ ≫= _) => apply sure_after; intros ?
  | |- sure _ (member _ _ _ ≫= _) => apply sure_after; intros ?
  | |- sure _ (mret _) => apply sure_ret
  | |- sure _ (let _ := _ in _) => cbv zeta
  | |- sure _ (match ?x with _ => _ end) => let E := fresh "E" in destruct x eqn:E
  end.
Ltac sures := repeat (cbv beta; sure_step).

(** ** Durations, retries, errors *)

#[local] Arguments sum_units : simpl never.
Lemma sum_units_range units m at_ ms :
  ms ≤ u64_max → sure (λ n, n ≤ u64_max) (sum_units units m at_ ms).
Proof.
  revert ms. induction units as [|[k u] units IH]; intros ms Hms; cbn [sum_units]; [by apply sure_ret|].
  apply (sure_then (λ n, n ≤ u64_max)); [|intros n Hn; by apply IH].
  sures; [|done]. unfold sat_addu64. lia.
Qed.
Lemma round_range f : round_u64 f ≤ u64_max.
Proof. destruct f as [|[]| |[]]; cbn; unfold u64_max; lia. Qed.
Lemma iso_range s d : parse_iso_duration s = Some d → d ≤ millis u64_max.
Proof.
  unfold parse_iso_duration. intros E. repeat (case_match || apply bind_Some in E as (?&?&E)); simplify_eq/=.
  all: unfold millis; pose proof (round_range x2); lia.
Qed.
Lemma sure_duration v at_ : sure (yes (λ d, fit_duration d = true)) (duration v at_).
Proof.
  unfold duration. sures.
  - done.
  - apply bool_decide_eq_true. by eapply iso_range.
  - eapply sure_then; [apply sum_units_range; unfold u64_max; lia|]. intros ms Hms. cbv beta in Hms. sures. cbn.
    apply bool_decide_eq_true. unfold millis. lia.
Qed.
Lemma yes_maybe {A} (Q : A → Prop) p : sure (yes Q) p → sure (maybe Q) p.
Proof. apply sure_mono. by intros [|]. Qed.
Lemma sure_duration_at m key at_ : sure (maybe (λ d, fit_duration d = true)) (duration_at m key at_).
Proof. apply sure_and_then. intros v _. apply yes_maybe, sure_duration. Qed.
Lemma sure_timeout_object v at_ : sure (yes (λ d, fit_duration d = true)) (timeout_object v at_).
Proof. unfold timeout_object. sures. apply sure_duration. Qed.
Lemma all_of_maybe {A} (p : A → bool) o : maybe (λ a, p a = true) o → all_of p o = true.
Proof. by destruct o. Qed.
Lemma sure_error_def v at_ : sure (yes (λ e, fit_error e = true)) (error_def v at_).
Proof.
  unfold error_def. sures. apply (sure_then (λ s, 100 ≤ s ≤ 599)); [|intros; sures; by apply bool_decide_eq_true].
  sures. done.
Qed.
Lemma sure_attempts a lat : sure (maybe (λ n, n ≤ u32_max)) (attempts_of a lat).
Proof. unfold attempts_of. sures; cbn; [lia|done]. Qed.
Lemma sure_retry v at_ : sure (yes (λ r, fit_retry r = true)) (retry v at_).
Proof.
  unfold retry. sures. eapply sure_then; [apply sure_duration_at|intros delay Hdelay]. sures.
  apply sure_after. intros backoff. sures.
  apply (sure_then (λ x : option Z * option DurationSpec * option DurationSpec,
    maybe (λ n, n ≤ u32_max) x.1.1 ∧ maybe (λ d, fit_duration d = true) x.1.2 ∧ maybe (λ d, fit_duration d = true) x.2)).
  - sures; [|done]. apply (sure_then (λ x : option Z * option DurationSpec,
      maybe (λ n, n ≤ u32_max) x.1 ∧ maybe (λ d, fit_duration d = true) x.2)).
    + sures; [|done]. eapply sure_then; [apply sure_duration_at|intros d Hd].
      eapply sure_then; [apply sure_attempts|intros n Hn]. by sures.
    + intros [n d] [Hn Hd]. eapply sure_then; [apply sure_duration_at|intros d' Hd']. by sures.
  - intros [[n d] d'] (Hn&Hd&Hd'). sures.
    apply (sure_then (maybe (λ j : DurationSpec * DurationSpec, fit_duration j.1 && fit_duration j.2 = true))).
    + sures; [|done]. eapply sure_then; [apply sure_duration_at|intros from Hf].
      eapply sure_then; [apply sure_duration_at|intros to Ht]. destruct from, to; sures. cbn [maybe fst snd] in *. by rewrite Hf, Ht.
    + intros j Hj. sures. unfold fit_retry. cbn.
      rewrite !andb_true_iff. split_and!; apply all_of_maybe; try done.
      destruct n; [|done]. by apply bool_decide_eq_true.
Qed.

(** ** Events *)

Lemma entries_empty (m : gmap string value) : entries m = [] → m = ∅.
Proof.
  intros E. apply map_eq. intros k. rewrite lookup_empty. destruct (m !! k) as [v|] eqn:Ev; [|done].
  apply elem_of_entries in Ev. rewrite E in Ev. by apply not_elem_of_nil in Ev.
Qed.
Lemma sure_event_filter v at_ : sure (yes (λ f, fit_filter f = true)) (event_filter v at_).
Proof.
  unfold event_filter. sures. apply (sure_then_some (λ _, True)).
  { sures. eapply sure_mono; [|apply sure_object]. by intros []. }
  intros w _. sures. apply sure_after. intros correlate. sures. unfold fit_filter. cbn [yes f_with].
  apply negb_true_iff, bool_decide_eq_false. intros Ew%entries_empty. by apply bool_decide_eq_false in H.
Qed.
Lemma sure_event_filters m key at_ : sure (λ l, forallb fit_filter l = true) (event_filters m key at_).
Proof.
  assert (Hall : ∀ l, Forall (λ f, fit_filter f = true) l → forallb fit_filter l = true).
  { intros l Hl. apply forallb_forall. intros f Hf. rewrite Forall_forall in Hl. by apply Hl, list_elem_of_In. }
  unfold event_filters. sures. eapply sure_mono; [exact Hall|]. apply sure_each_some. intros x _. apply yes_maybe, sure_event_filter.
Qed.
Lemma until_allowed m until other :
  m !! "until" = Some other → has "until" m && negb (until && has "any" m) = false → until = true.
Proof. unfold has. intros ->. rewrite bool_decide_eq_true_2 by done. by destruct until. Qed.
Lemma sure_strategy fuel v at_ until : sure (yes (λ s, fit_strategy until s = true)) (strategy fuel v at_ until).
Proof.
  revert v at_ until. induction fuel as [|fuel IH]; intros v at_ until; [done|]. cbn [strategy]. sures.
  - eapply sure_then_some; [apply sure_event_filter|intros f Hf]. by sures.
  - eapply sure_then; [apply sure_event_filters|intros l Hl]. sures. cbn. cbv beta in *. rewrite Hl.
    match goal with H : bool_decide (l = []) = false |- _ => by rewrite H end.
  - eapply sure_then; [apply sure_event_filters|intros l Hl]. cbv beta in *.
    match goal with H : has _ _ && _ = false |- _ => rename H into Huntil end.
    apply (sure_then (maybe (λ u, match u with Condition _ => until | Events s => until && fit_strategy false s end = true))).
    2: { intros u Hu. sures. cbn. rewrite Hl. destruct u as [[]|]; done. }
    match goal with |- context [?m !! "until"] => destruct (m !! "until") as [other|] eqn:Eu; [|done] end.
    pose proof (until_allowed _ _ _ Eu Huntil) as ->.
    destruct other; try (by apply sure_ret);
      (eapply sure_then_some; [apply IH|intros s Hs]; by sures).
Qed.
Lemma sure_emit v at_ : sure (yes (λ k, match k with
    | KEmit w => is_some_and ((w !! "type") ≫= as_str) (λ s, negb (bool_decide (s = "")))
    | _ => false end = true)) (emit v at_).
Proof.
  unfold emit. sures. cbn. match goal with H : is_none_or ?o _ = false |- _ => destruct o as [s|]; cbn in *; [by rewrite H|done] end.
Qed.

(** ** Tasks *)

Lemma sure_each_unit {A B} (P : A → Prop) (f : A → parser B) l :
  (∀ x, sure (λ _, P x) (f x)) → sure (λ _, ∀ x, x ∈ l → P x) (each f l).
Proof.
  intros Hf. induction l as [|x l IH]; cbn [each]; [by apply sure_ret; intros ? ?%not_elem_of_nil|].
  eapply sure_then; [apply Hf|intros ? Hx]. eapply sure_then; [apply IH|intros ? Hl]. apply sure_ret.
  intros y [->|Hy]%elem_of_cons; [done|by apply Hl].
Qed.
Lemma sure_only m at_ allowed : sure (λ _, ∀ k, has k m = true → k ∈ allowed) (only m at_ allowed).
Proof.
  unfold only. eapply sure_then; [apply (sure_each_unit (λ k, k ∈ allowed))|].
  - intros k. eapply sure_mono; [|apply sure_fail_if]. intros ? Hk. by apply negb_false_iff, bool_decide_eq_true in Hk.
  - intros ? Hall. apply sure_ret. intros k Hk%bool_decide_eq_true. by apply Hall, elem_of_keys.
Qed.

Definition fit_names (n : Names) : Prop :=
  Forall (λ x : string * Retry, fit_retry x.2 = true) (nm_retries n) ∧
  Forall (λ x : string * DurationSpec, fit_duration x.2 = true) (nm_timeouts n).
Lemma found_in {A} name (l : list (string * A)) a : found name l = Some a → ∃ n, (n, a) ∈ l.
Proof.
  unfold found. destruct (list_find _ _) as [[i [n x]]|] eqn:E; [|done]. intros [= <-].
  apply list_find_Some in E as (Hx&_). exists n. by eapply list_elem_of_lookup_2.
Qed.

Section tasks.
Context `{Libraries} (names : Names) (Hnames : fit_names names).
Local Abbreviation fits := (λ l, fit_list l = true).

Lemma sure_timeout v at_ : sure (yes (λ d, fit_duration d = true)) (timeout names v at_).
Proof.
  unfold timeout. destruct v; try apply sure_timeout_object. sures. cbn.
  apply found_in in E as [n Hn]. destruct Hnames as [_ Ht]. rewrite Forall_forall in Ht. by apply (Ht (n, d)).
Qed.
Lemma sure_retry_of v cat : sure (maybe (λ r, fit_retry r = true)) (retry_of names v cat).
Proof.
  unfold retry_of. sures; try (apply yes_maybe, sure_retry); try done. cbn.
  match goal with E : found _ _ = Some _ |- _ => apply found_in in E as [n Hn] end.
  destruct Hnames as [Hr _]. rewrite Forall_forall in Hr. by apply (Hr (n, _)).
Qed.
Lemma sure_run_task v at_ :
  sure (yes (λ k, match k with KRun r => run_inherit_host r = false | _ => False end)) (run_task v at_).
Proof.
  unfold run_task. sures. do 2 (apply sure_after; intros ?). sures. apply sure_after. intros process. by sures.
Qed.
Lemma sure_switch_task v at_ :
  sure (yes (λ k, match k with KSwitch _ => fit_kind k = true | _ => False end)) (switch_task v at_).
Proof.
  unfold switch_task. sures. apply (sure_then (Forall (λ x : bool * option (string * Case),
    match x.2 with Some c => x.1 = bool_decide (case_when c.2 = None) | None => True end))).
  { apply sure_each. intros x _. unfold switch_case. eapply sure_then; [apply sure_any|intros m _].
    sures; try done. eapply sure_then; [apply sure_any|intros c _]. sures; try done.
    eapply sure_then; [apply sure_any|intros f _]. by sures. }
  intros cases Hcases. sures. unfold fit_kind. cbn. apply bool_decide_eq_true.
  match goal with H : bool_decide _ = false |- _ => apply bool_decide_eq_false in H as Hone; clear H end.
  assert (length (filter (λ x : string * Case, case_when x.2 = None) (omap snd cases)) ≤
          length (filter (λ x : bool * option (string * Case), x.1 = true) cases))%nat; [|lia].
  clear Hone. induction Hcases as [|[d [c|]] cases Hx _ IH]; [done| |].
  - change (omap snd ((d, Some c) :: cases)) with (c :: omap snd cases). rewrite !filter_cons. cbn [fst snd] in *.
    subst d. case_bool_decide as Ew; [rewrite !decide_True by done|rewrite !decide_False by done]; cbn [length]; lia.
  - change (omap snd ((d, None) :: cases)) with (omap (M := list) snd cases). rewrite !filter_cons.
    destruct (decide _); cbn [length]; lia.
Qed.
Lemma sure_raise_task v at_ :
  sure (yes (λ k, match k with KRaise _ => fit_kind k = true | _ => False end)) (raise_task v at_).
Proof.
  unfold raise_task. sures; try done; (eapply sure_then_some; [apply sure_error_def|intros e He]; by sures).
Qed.
Section over_tasks.
Variable tl : value → string → parser TaskList.
Hypothesis Htl : ∀ v at_, sure fits (tl v at_).
Variable fuel : nat.

Lemma sure_list_at m key at_ : sure (maybe fits) (list_at tl m key at_).
Proof. apply sure_on_some. intros v _. apply Htl. Qed.
Lemma sure_listen v foreach at_ :
  sure (yes (λ k, is_listen k = true ∧ fit_kind k = true)) (listen tl fuel v foreach at_).
Proof.
  unfold listen. sures. apply sure_after. intros read_.
  apply (sure_then_some (λ s, fit_strategy true s = true)).
  { sures. apply sure_strategy. }
  intros s Hs. sures; [|cbn; unfold fit_kind; cbn; by rewrite Hs].
  eapply sure_then; [apply sure_list_at|intros tasks Ht]. do 2 (apply sure_after; intros ?). sures.
  cbn. unfold fit_kind. cbn. rewrite Hs. split; [done|]. destruct tasks; [exact Ht|done].
Qed.
Lemma sure_concurrency concurrency condition at_ :
  sure (maybe (λ n, (0 < n)%nat ∧ condition = None)) (concurrency_of concurrency condition at_).
Proof. unfold concurrency_of. sures; try done. cbn. split; [lia|done]. Qed.
Lemma sure_for_task m concurrency at_ :
  sure (yes (λ k, match k with KFor _ _ _ _ _ _ => fit_kind k = true | _ => False end)) (for_task tl m concurrency at_).
Proof.
  unfold for_task. sures. apply (sure_then_some (λ _, True)); [by sures|]. intros items _. sures.
  eapply sure_then; [apply sure_concurrency|intros n Hn]. eapply sure_then; [apply sure_list_at|intros tasks Ht].
  sures. unfold fit_kind. cbn. cbv beta in *. apply andb_true_iff. split; [|destruct tasks; [exact Ht|done]].
  destruct n; [|done]. destruct Hn as [Hn ->]. cbn. by rewrite bool_decide_eq_true_2.
Qed.
Lemma sure_try_task m at_ :
  sure (yes (λ k, match k with KTry _ _ => fit_kind k = true | _ => False end)) (try_task names tl m at_).
Proof.
  unfold try_task. eapply sure_then; [apply Htl|intros tasks Ht]. sures.
  apply (sure_then_some (λ _, True)).
  { unfold errors_of. by sures. }
  intros errors _. eapply sure_then; [apply sure_retry_of|intros r Hr]. sures.
  eapply sure_then; [apply sure_list_at|intros h Hh]. apply sure_after. intros f. sures.
  unfold fit_kind. cbn. cbv beta in *. rewrite Ht. cbn. apply andb_true_iff. split; by apply all_of_maybe.
Qed.
Lemma sure_fork_task v at_ :
  sure (yes (λ k, match k with KFork _ _ => fit_kind k = true | _ => False end)) (fork_task tl v at_).
Proof.
  unfold fork_task. sures. eapply sure_then; [apply sure_list_at|intros l Hl]. apply sure_after. intros c. sures.
  cbn. unfold fit_kind. cbn. destruct l; [exact Hl|done].
Qed.

(** The kind read is fit, it is a call or a listen where a member says so, and it does not
    inherit the host yet. *)
Definition kind_read (m : gmap string value) (k : Kind) : Prop :=
  fit_kind k = true ∧ (has "call" m = true → is_call k = true) ∧ (has "listen" m = true → is_listen k = true).
Lemma read_only (Q : Kind → Prop) m at_ allowed p :
  (∀ k, Q k → fit_kind k = true ∧ (("call" ∈ COMMON ++ allowed) → is_call k = true) ∧
               ("listen" ∈ COMMON ++ allowed → is_listen k = true)) →
  sure (yes Q) p → sure (yes (kind_read m)) (only m at_ (COMMON ++ allowed) ≫= λ _, p).
Proof.
  intros HQ Hp. eapply sure_then; [apply sure_only|intros ? Hall]. eapply sure_mono; [|exact Hp].
  intros [k|] Hk; [|done]. apply HQ in Hk as (Hfit&Hc&Hl). split_and!; [done| |]; intros Hm; auto.
Qed.
Ltac absent := let Hin := fresh in intros Hin; exfalso; revert Hin; apply (bool_decide_eq_false _); reflexivity.
Ltac reads Q := eapply (read_only Q); [intros k Hk; destruct k; try done; split_and!; try done; try absent|].
Lemma sure_kind_of m concurrency at_ : sure (yes (kind_read m)) (kind_of names tl fuel m concurrency at_).
Proof.
  unfold kind_of. repeat case_match; try done.
  - reads (λ k : Kind, match k with KFor _ _ _ _ _ _ => fit_kind k = true | _ => False end). apply sure_for_task.
  - reads (λ k : Kind, match k with KTry _ _ => fit_kind k = true | _ => False end). apply sure_try_task.
  - reads (λ k : Kind, match k with KFork _ _ => fit_kind k = true | _ => False end). apply sure_fork_task.
  - reads (λ k : Kind, match k with KCall _ w => all_of is_object w = true | _ => False end). sures. cbn.
    destruct (m !! "with"); cbn in *; [by apply negb_false_iff|done].
  - reads (λ k : Kind, match k with KSet _ => fit_kind k = true | _ => False end). sures. cbn. by apply negb_false_iff.
  - reads (λ k : Kind, match k with KSwitch _ => fit_kind k = true | _ => False end). apply sure_switch_task.
  - reads (λ k : Kind, match k with KRaise _ => fit_kind k = true | _ => False end). apply sure_raise_task.
  - reads (λ k : Kind, is_listen k = true ∧ fit_kind k = true); [by destruct Hk..|]. apply sure_listen.
  - reads (λ k : Kind, match k with KEmit _ => fit_kind k = true | _ => False end). eapply sure_mono; [|apply sure_emit].
    by intros [[]|].
  - reads (λ k : Kind, match k with KRun r => run_inherit_host r = false | _ => False end).
    + unfold fit_kind. cbn. by rewrite Hk.
    + apply sure_run_task.
  - reads (λ k : Kind, match k with KWait d => fit_duration d = true | _ => False end).
    eapply sure_then_some; [apply sure_duration|intros d Hd]. by sures.
  - reads (λ k : Kind, match k with KDo l => fit_list l = true | _ => False end).
    eapply sure_then; [apply Htl|intros l Hl]. by sures.
Qed.

Lemma sure_inherits extensions m kind at_ :
  kind_read m kind → sure (yes (kind_read m)) (inherits extensions (Some kind) at_).
Proof.
  intros Hk. unfold inherits. repeat case_match; try done; sures; try done. subst.
  destruct Hk as (_&Hc&Hl). by split_and!.
Qed.
Lemma sure_delivery extensions m at_ :
  sure (λ d, d = AtLeastOnce ∨ has "call" m = true) (delivery_of extensions m at_).
Proof. unfold delivery_of. sures; auto. Qed.
Lemma sure_hold extensions m at_ :
  sure (λ h, (h = 0 ∨ has "listen" m = true) ∧ h ≤ millis u64_max) (hold_of extensions m at_).
Proof.
  unfold hold_of. sures; [|unfold millis, u64_max; split; [by left|lia]]. split.
  - right. by apply negb_false_iff.
  - apply bind_Some in E0 as (s&_&E0). by eapply iso_range.
Qed.
Definition fits_task (t : Task) : Prop := fit_task t = true.
Lemma sure_task_body v at_ : sure (yes fits_task) (task_body names tl fuel v at_).
Proof.
  unfold task_body. sures. apply sure_after. intros extensions.
  eapply sure_then; [apply sure_kind_of|intros [kind|] Hkind; [|done]]. do 3 (sures; apply sure_after; intros ?).
  eapply (sure_then (maybe (λ d, fit_duration d = true)));
    [apply sure_and_then; intros; apply yes_maybe, sure_timeout|intros timeout Htimeout].
  apply sure_after; intros then_. sures.
  eapply sure_then; [by apply sure_inherits|intros [kind'|] Hkind'; [|done]].
  eapply sure_then; [apply sure_delivery|intros d Hd]. eapply sure_then; [apply sure_hold|intros h (Hh&Hmax)].
  sures. destruct Hkind' as (Hfit&Hc&Hl). unfold yes, fits_task. cbn.
  rewrite !andb_true_iff. split_and!.
  - destruct Hd as [->|Hd]; [done|]. rewrite (Hc Hd). apply orb_true_r.
  - destruct Hh as [->|Hh]; [done|]. rewrite (Hl Hh). apply orb_true_r.
  - by apply bool_decide_eq_true.
  - by apply all_of_maybe.
  - exact Hfit.
Qed.
End over_tasks.

(** A list has distinct names: a second task of a name is a problem. *)
Lemma sure_tasks_from (parse_task : value → string → parser (option Task)) at_ items out :
  (∀ v at_, sure (yes fits_task) (parse_task v at_)) → fit_list out = true →
  sure fits (tasks_from parse_task at_ items out).
Proof.
  intros Htask. revert out. induction items as [|[i item] items IH]; intros out Hout; cbn [tasks_from]; [by apply sure_ret|].
  cbv zeta. eapply sure_then; [apply sure_object|intros [m|] ?; [|done]].
  eapply (sure_then fits); [|intros out' Hout'; by apply IH].
  sures. eapply sure_then; [apply Htask|intros [t|] Ht; [|done]]. sures.
  unfold fit_list, distinct in *. cbv beta in *. rewrite !andb_true_iff, !bool_decide_eq_true in *. destruct Hout as [Hnd Hall].
  match goal with H : bool_decide _ = false |- _ => apply bool_decide_eq_false in H as Hnew end.
  rewrite fmap_app, forallb_app, Hall. cbn. split; [|by rewrite Ht].
  apply NoDup_app. split_and!; [done| |apply NoDup_singleton]. by intros x Hx ->%list_elem_of_singleton.
Qed.
Lemma sure_task_list_over (parse_task : value → string → parser (option Task)) v at_ :
  (∀ v at_, sure (yes fits_task) (parse_task v at_)) → sure fits (task_list_over parse_task v at_).
Proof. intros Htask. unfold task_list_over. sures. by apply sure_tasks_from. Qed.
Lemma sure_task fuel v at_ : sure (yes fits_task) (task names fuel v at_).
Proof.
  revert v at_. induction fuel as [|fuel IH]; intros v at_; [done|]. apply sure_task_body. intros v' at'.
  by apply sure_task_list_over.
Qed.
Lemma sure_task_list fuel v at_ : sure fits (task_list names fuel v at_).
Proof. apply sure_task_list_over, sure_task. Qed.
End tasks.

(** ** The document *)

Lemma Forall_forallb {A} (p : A → bool) l : Forall (λ x, p x = true) l → forallb p l = true.
Proof. induction 1 as [|x l Hx _ IH]; cbn; [done|by rewrite Hx]. Qed.
Lemma sure_entries_at {A} (Q : A → Prop) m key at_ (f : value → string → parser (option A)) :
  (∀ v at_, sure (yes Q) (f v at_)) → sure (Forall (λ x : string * A, Q x.2)) (entries_at m key at_ f).
Proof.
  intros Hf. unfold entries_at. sures; [|constructor]. apply sure_each_some. intros [k v] _. apply yes_maybe.
  eapply sure_then_some; [apply Hf|intros d Hd]. by sures.
Qed.
Lemma sure_secret_names items seen :
  distinct seen = true ∧ "" ∉ seen → sure (λ l, distinct l = true ∧ "" ∉ l) (secret_names_of items seen).
Proof.
  revert seen. induction items as [|[i v] items IH]; intros seen Hseen; cbn [secret_names_of]; [by apply sure_ret|].
  eapply (sure_then (λ l, distinct l = true ∧ "" ∉ l)); [|intros l Hl; by apply IH].
  unfold secret_name. sures. destruct Hseen as [Hd He]. split.
  - apply bool_decide_eq_true, NoDup_app. apply bool_decide_eq_true in Hd. split_and!; [done| |apply NoDup_singleton].
    by intros x Hx ->%list_elem_of_singleton.
  - rewrite elem_of_app, list_elem_of_singleton. by intros [?|<-].
Qed.
Definition fit_uses (u : UsesOf) : Prop :=
  (distinct (uo_secrets u) = true ∧ "" ∉ uo_secrets u) ∧
  Forall (λ x : string * ErrorDef, fit_error x.2 = true) (uo_errors u) ∧ fit_names (uo_names u).
Lemma nothing_used : fit_uses (mkUsesOf [] [] (mkNames [] []) []).
Proof. unfold fit_uses, fit_names. cbn. split_and!; [done|by apply not_elem_of_nil|constructor..]. Qed.

Section with_libraries.
Context `{Libraries}.

Lemma sure_uses v : sure fit_uses (uses v).
Proof.
  unfold uses. eapply sure_then; [apply sure_object|intros [m|] ?; [|done]]. sures.
  eapply (sure_then (λ l, distinct l = true ∧ "" ∉ l)); [|intros secrets Hsecrets].
  { sures; [apply sure_secret_names|]; (split; [done|by apply not_elem_of_nil]). }
  eapply sure_then; [apply (sure_entries_at (λ e, fit_error e = true)), sure_error_def|intros errors He].
  eapply sure_then; [apply (sure_entries_at (λ r, fit_retry r = true)), sure_retry|intros retries Hr].
  eapply sure_then; [apply (sure_entries_at (λ d, fit_duration d = true)), sure_timeout_object|intros timeouts Ht].
  sures. split; [done|]. split; [done|]. by split.
Qed.

Section named.
Context (names : Names) (Hnames : fit_names names).

Lemma sure_functions fuel u known :
  sure (Forall (λ x : string * Task, fits_task x.2)) (functions names fuel u known).
Proof.
  unfold functions.
  eapply (sure_then (Forall (λ x : string * option Task, yes fits_task x.2))).
  { apply sure_each. intros [k v] _. eapply sure_then; [by apply sure_task|intros t Ht]. by sures. }
  intros parsed Hparsed. sures. apply Forall_forall. intros [k t] Hx.
  apply list_elem_of_fmap in Hx as (n&[= -> ->]&_). cbn.
  destruct (found n parsed) as [[t|]|] eqn:E; try done. apply found_in in E as [n' Hn].
  rewrite Forall_forall in Hparsed. by apply Hparsed in Hn.
Qed.
Lemma sure_extensions fuel v : sure (Forall (λ x, fit_extension x = true)) (extensions names fuel v).
Proof.
  unfold extensions. sures. apply sure_each_some. intros x _. unfold extension. sures; try done.
  eapply sure_then; [apply sure_list_at; by apply sure_task_list|intros before Hb].
  eapply sure_then; [apply sure_list_at; by apply sure_task_list|intros after Ha]. sures.
  unfold fit_extension. cbn. rewrite !andb_true_iff. split_and!; [by apply all_of_maybe..|].
  match goal with H : negb _ && negb _ = false |- _ => revert H end.
  destruct (bool_decide (_ = "")), (bool_decide (_ ∈ EXTENDED_KINDS)); done.
Qed.
Lemma sure_budget fuel v :
  sure (λ b, match bu_on_exceeded b with XTask t => fit_task t = true | _ => True end) (budget names fuel v).
Proof.
  unfold budget. eapply sure_then; [apply sure_object|intros [m|] ?; [|done]]. sures. apply sure_after. intros max_jumps.
  eapply (sure_then (λ x, match x with XTask t => fit_task t = true | _ => True end)); [|intros x Hx; by sures].
  sures; try done. eapply sure_then; [by apply sure_task|intros [t|] Ht; [|done]]. by sures.
Qed.
End named.

Lemma sure_breaker v : sure (λ b, fit_breaker b = true) (breaker v).
Proof. unfold breaker. sures; try done. by apply bool_decide_eq_true. Qed.

(** A schedule, and what qualifies it. *)
Definition fits_schedule (s : Schedule) : Prop := fit_schedule s = true.
Definition positive (d : Z) : bool := bool_decide (d ≠ 0 ∧ d ≤ millis u64_max).
Lemma sure_fixed m key at_ : sure (maybe (λ d, positive d = true)) (fixed m key at_).
Proof.
  unfold fixed. eapply sure_then; [apply sure_duration_at|intros [[d|]|] Hd; try done]. sures. 
  apply bool_decide_eq_true. split; [done|]. by apply bool_decide_eq_true in Hd.
Qed.
Lemma sure_schedule fuel v : sure (yes fits_schedule) (schedule fuel v).
Proof.
  unfold schedule. sures.
  eapply sure_then; [apply sure_fixed|intros every He]. eapply sure_then; [apply sure_fixed|intros after_ Ha]. sures.
  apply sure_after. intros ?.
  eapply (sure_then (maybe (λ s, fit_strategy true s = true)));
    [apply sure_and_then; intros; apply yes_maybe, sure_strategy|intros on Hon].
  sures. apply sure_after. intros read_. sures.
  unfold yes, fits_schedule, fit_schedule. cbn. rewrite !andb_true_iff. split_and!; try by apply all_of_maybe.
  - done.
  - apply negb_true_iff, bool_decide_eq_false. intros (->&->&->&->). done.
Qed.
Lemma sure_one_shot v given s :
  maybe fits_schedule s → sure (maybe fits_schedule) (one_shot v given s).
Proof.
  intros Hs. unfold one_shot. destruct v, s; try done; try by sures.
  apply sure_after. intros [ms|]; destruct given; by sures.
Qed.
Lemma sure_timezone v s : maybe fits_schedule s → sure (maybe fits_schedule) (timezone v s).
Proof.
  intros Hs. unfold timezone. destruct v, s as [s|]; try done; try by sures. sures.
  revert Hs. unfold maybe, fits_schedule, fit_schedule. cbn.
  match goal with H : bool_decide (is_Some _) = true |- _ => rewrite H end.
  by rewrite orb_true_r, !andb_true_r.
Qed.
Lemma sure_policy {A} key expected (named : string → option A) set v s :
  (∀ a s, fits_schedule s → fits_schedule (set a s)) →
  maybe fits_schedule s → sure (maybe fits_schedule) (policy_of key expected named set v s).
Proof.
  intros Hset Hs. unfold policy_of. destruct v; [|by sures]. sures; try done. cbn in *. auto.
Qed.
Lemma sure_document v : sure (yes (λ _, True)) (document v).
Proof. unfold document. by sures. Qed.
Lemma workflow_fits fuel v : sure (yes (λ p, fit_document p = true)) (workflow fuel v).
Proof.
  unfold workflow. sures. apply sure_after. intros ?.
  eapply (sure_then (yes (λ _, True))); [sures; apply sure_document|intros [d|] ?; [|done]].
  eapply (sure_then fit_uses); [sures; [apply sure_uses|apply nothing_used]|intros u Hu]. cbv zeta.
  destruct Hu as (Hsecrets&Herrors&Hnames).
  eapply sure_then; [by apply sure_functions|intros fs Hfs].
  eapply (sure_then (Forall (λ x, fit_extension x = true)));
    [sures; [by apply sure_extensions|constructor]|intros es Hes].
  eapply (sure_then (λ l, fit_list l = true)); [sures; by apply sure_task_list|intros tasks Htasks].
  do 2 (apply sure_after; intros ?).
  eapply (sure_then (maybe (λ d, fit_duration d = true)));
    [apply sure_and_then; intros; by apply yes_maybe, sure_timeout|intros timeout Htimeout].
  eapply (sure_then (maybe fits_schedule));
    [apply sure_and_then; intros; apply yes_maybe, sure_schedule|intros s Hs].
  apply sure_after. intros ext. cbv zeta.
  eapply sure_then; [by apply sure_one_shot|clear s Hs; intros s Hs].
  eapply sure_then; [by apply sure_timezone|clear s Hs; intros s Hs].
  do 2 (eapply sure_then; [by apply sure_policy|clear s Hs; intros s Hs]).
  eapply (sure_then (λ b, match bu_on_exceeded b with XTask t => fit_task t = true | _ => True end));
    [sures; [by apply sure_budget|done]|intros b Hb].
  eapply (sure_then (λ b, fit_breaker b = true)); [sures; [apply sure_breaker|done]|intros br Hbr].
  sures. unfold yes, fit_document. cbn. rewrite !andb_true_iff. split_and!; try done.
  1-3: by apply Forall_forallb.
  - apply Hsecrets.
  - apply negb_true_iff, bool_decide_eq_false, Hsecrets.
  - by apply all_of_maybe.
  - by destruct (bu_on_exceeded b).
  - by apply all_of_maybe.
Qed.

(** C26: What [parse] lets through is fit to run: every list's task names are distinct, a
    concurrent [for] has a positive bound and no [while], error statuses lie in 100..599,
    durations within their 64 bits, filters and [all] strategies name something, [until]
    is not nested, a delivery policy is only on a call, a hold only on a listen, host
    inheritance only on a workflow run, a schedule has a trigger and its qualifiers where
    they apply, the breaker's threshold is within its bounds, secrets are distinct and
    not empty. And what it refuses, it refuses with a problem. *)
Theorem parse_is_fit v :
  match parse v with Ok p => fit_document p = true | Err problems => problems ≠ [] end.
Proof.
  unfold parse, parse_with. pose proof (workflow_fits (height v) v) as Hw. unfold sure in Hw.
  destruct (workflow (height v) v) as [[p|] [|x l]]; cbn in Hw; try done.
  specialize (Hw eq_refl). by destruct (conforms v).
Qed.
End with_libraries.

(** *** A document read whole *)

Definition obj (l : list (string * value)) : value := VObj (list_to_map l).
Definition plain_libraries : Libraries := {|
  schema_error := λ _, None; cron_error := λ _, None; parse_rfc3339 := λ _, None; is_zone := λ _, true;
  from_yaml := λ _, Err ""; conforms := λ _, [] |}.
Definition header : value :=
  obj [("dsl", VStr "1.0.0"); ("namespace", VStr "n"); ("name", VStr "w"); ("version", VStr "1.0.0")].
(** A concurrent [for] of [concurrency] over a call. *)
Definition sample (concurrency : Z) : value :=
  obj [("document", header);
       ("do", VArr [obj [("each", obj
          [("for", obj [("in", VStr "${ .items }")]);
           ("do", VArr [obj [("send", obj [("call", VStr "f"); ("with", obj [])])]]);
           ("metadata", obj [("ouro", obj [("concurrency", vint concurrency)])])])]])].
Example sample_is_read :
  match parse (H := plain_libraries) (sample 2), parse (H := plain_libraries) (sample 0) with
  | Ok p, Err l =>
      (λ x : string * Task, tk_kind x.2) <$> wf_tasks (pa_workflow p) =
        [KFor "item" "index" (ItExpr ".items") None (Some 2%nat)
           [("send", mkTask AtLeastOnce 0 None None None None None None (KCall "f" (Some (obj [])))
                       (obj [("call", VStr "f"); ("with", obj [])]))]] ∧
      l = [mkProblem "/do/0/each/metadata/ouro/concurrency" "expected a positive integer"]
  | _, _ => False
  end.
Proof. vm_compute. auto. Qed.

(** ** The parser's fuel

    A document is nested as deeply as its [height]: with at least that much fuel the
    parser gives what [parse] gives, so it never stops on "nested too deeply". *)

(** ** The height of a part *)

Lemma height_item x l : x ∈ l → (height x < height (VArr l))%nat.
Proof.
  intros Hx. cbn [height]. induction l as [|y l IH]; [by apply not_elem_of_nil in Hx|].
  cbn [foldr]. apply elem_of_cons in Hx as [->|Hx]; [lia|]. specialize (IH Hx). cbn in IH. lia.
Qed.
Lemma height_member (m : gmap string value) k x : m !! k = Some x → (height x < height (VObj m))%nat.
Proof.
  intros Hx. cbn [height]. apply le_n_S. revert Hx.
  apply (map_fold_weak_ind (λ n m, m !! k = Some x → (height x ≤ n)%nat)); [by rewrite lookup_empty|].
  intros k' v m' n _ IH. destruct (decide (k = k')) as [->|Hk].
  - rewrite lookup_insert_eq. intros [= ->]. lia.
  - rewrite lookup_insert_ne by done. intros Hx%IH. lia.
Qed.
Lemma height_numbered i x l : (i, x) ∈ numbered l → (height x < height (VArr l))%nat.
Proof. unfold numbered. intros Hx%elem_of_zip_r. by apply height_item. Qed.

Lemma not_there (k : string) (x : value) : (∅ : gmap string value) !! k = Some x → False.
Proof. by rewrite lookup_empty. Qed.

(** ** Parsers that agree *)

Lemma bind_agree {A B} (p : parser A) (f g : A → parser B) : (∀ a, f a = g a) → (p ≫= f) = (p ≫= g).
Proof. intros Hf. unfold mbind, parser_bind. by rewrite Hf. Qed.
Lemma bind_agree_l {A B} (p q : parser A) (f g : A → parser B) :
  p = q → (∀ a, f a = g a) → (p ≫= f) = (q ≫= g).
Proof. intros ->. apply bind_agree. Qed.
Lemma bind_agree_eq {A B} (p : parser A) (f g : A → parser B) :
  (∀ a, p.1 = a → f a = g a) → (p ≫= f) = (p ≫= g).
Proof. intros Hf. unfold mbind, parser_bind. by rewrite Hf. Qed.
Lemma bind_some_agree {A B} (p q : parser (option A)) (f g : A → parser (option B)) :
  p = q → (∀ a, p.1 = Some a → f a = g a) → bind_some p f = bind_some q g.
Proof. intros <- Hf. unfold bind_some, mbind, parser_bind. destruct p as [[a|] l]; cbn; [by rewrite Hf|done]. Qed.
Lemma each_agree {A B} (f g : A → parser B) l : (∀ x, x ∈ l → f x = g x) → each f l = each g l.
Proof.
  induction l as [|x l IH]; intros Hf; [done|]. cbn [each]. rewrite (Hf x) by by left.
  apply bind_agree. intros b. by rewrite IH by (intros; apply Hf; by right).
Qed.
Lemma object_is v at_ m : (object v at_).1 = Some m → v = VObj m.
Proof. destruct v; try done. by intros [= ->]. Qed.

(** ** Strategies and tasks *)

Lemma strategy_agree f1 f2 v at_ until :
  (height v ≤ f1)%nat → (height v ≤ f2)%nat → strategy f1 v at_ until = strategy f2 v at_ until.
Proof.
  revert f2 v at_ until. induction f1 as [|f1 IH]; intros f2 v at_ until H1 H2; [destruct v; cbn in H1; lia|].
  destruct f2 as [|f2]; [destruct v; cbn in H2; lia|]. cbn [strategy].
  apply bind_some_agree; [done|]. intros m ->%object_is. apply bind_agree. intros _. case_match; [done|].
  apply bind_agree. intros _. case_match; [done|]. case_match; [done|].
  apply bind_agree. intros filters. apply bind_agree_l; [|done].
  destruct (m !! "until") as [other|] eqn:E; [|done]. apply height_member in E.
  destruct other; try done; f_equal; apply IH; lia.
Qed.

Section agree.
Context `{Libraries} (names : Names).
Variables (tl1 tl2 : value → string → parser TaskList) (f1 f2 : nat) (n : nat).
(** Both read what is nested less deeply than [n] alike. *)
Hypothesis Htl : ∀ x at_, (height x < n)%nat → tl1 x at_ = tl2 x at_.
Hypothesis Hf1 : (n ≤ S f1)%nat.
Hypothesis Hf2 : (n ≤ S f2)%nat.

Lemma list_at_agree m key at_ : (height (VObj m) ≤ n)%nat → list_at tl1 m key at_ = list_at tl2 m key at_.
Proof.
  clear Hf1 Hf2. intros Hm. unfold list_at, on_some. destruct (m !! key) as [d|] eqn:E; [|done].
  apply height_member in E. by rewrite Htl by lia.
Qed.

Lemma listen_agree v foreach at_ :
  (height v < n)%nat → (∀ f, foreach = Some f → (height f < n)%nat) →
  listen tl1 f1 v foreach at_ = listen tl2 f2 v foreach at_.
Proof.
  intros Hv Hf. unfold listen. apply bind_some_agree; [done|]. intros m ->%object_is. do 2 (apply bind_agree; intros ?).
  apply bind_some_agree.
  - destruct (m !! "to") as [to|] eqn:E; [|done]. apply height_member in E. apply strategy_agree; lia.
  - intros to _. destruct foreach as [f|]; [|done]. specialize (Hf f eq_refl).
    apply bind_some_agree; [done|]. intros f' ->%object_is. do 3 (apply bind_agree; intros ?).
    apply bind_agree_l; [apply list_at_agree; lia|done].
Qed.
Lemma for_task_agree m concurrency at_ :
  (height (VObj m) ≤ n)%nat → for_task tl1 m concurrency at_ = for_task tl2 m concurrency at_.
Proof.
  intros Hm. unfold for_task. apply bind_some_agree; [done|]. intros f _. apply bind_agree. intros _.
  apply bind_some_agree; [done|]. intros items _. do 4 (apply bind_agree; intros ?).
  apply bind_agree_l; [by apply list_at_agree|done].
Qed.
Lemma try_task_agree m at_ :
  (height (VObj m) ≤ n)%nat → has "try" m = true → try_task names tl1 m at_ = try_task names tl2 m at_.
Proof.
  intros Hm [t Et]%bool_decide_eq_true. unfold try_task. rewrite Et. cbn [default].
  pose proof (height_member _ _ _ Et). apply bind_agree_l; [cbn; apply Htl; lia|]. intros tasks.
  destruct (m !! "catch") as [c|] eqn:Ec; [|done]. apply height_member in Ec.
  apply bind_some_agree; [done|]. intros c' ->%object_is. apply bind_agree. intros _.
  apply bind_some_agree; [done|]. intros errors _. do 4 (apply bind_agree; intros ?).
  apply bind_agree_l; [apply list_at_agree; lia|done].
Qed.
Lemma fork_task_agree v at_ : (height v < n)%nat → fork_task tl1 v at_ = fork_task tl2 v at_.
Proof.
  intros Hv. unfold fork_task. apply bind_some_agree; [done|]. intros f ->%object_is. apply bind_agree. intros _.
  apply bind_agree_l; [apply list_at_agree; lia|done].
Qed.
Lemma kind_of_agree m concurrency at_ :
  (height (VObj m) ≤ n)%nat → kind_of names tl1 f1 m concurrency at_ = kind_of names tl2 f2 m concurrency at_.
Proof.
  intros Hm. unfold kind_of. 
  repeat match goal with |- (if ?b then _ else _) = _ => destruct b eqn:?
    | |- match ?m !! ?k with _ => _ end = _ => let E := fresh "E" in destruct (m !! k) eqn:E;
       [apply height_member in E as ?|] end; try reflexivity; apply bind_agree; intros _.
  - by apply for_task_agree.
  - by apply try_task_agree.
  - apply fork_task_agree; lia.
  - apply listen_agree; [lia|]. intros f Ef%height_member. lia.
  - apply bind_agree_l; [apply Htl; lia|done].
Qed.
Lemma task_body_agree v at_ : (height v ≤ n)%nat → task_body names tl1 f1 v at_ = task_body names tl2 f2 v at_.
Proof.
  intros Hv. unfold task_body. apply bind_some_agree; [done|]. intros m ->%object_is. apply bind_agree. intros e.
  apply bind_agree_l; [by apply kind_of_agree|done].
Qed.
End agree.

Section agree.
Context `{Libraries} (names : Names).

Lemma tasks_from_agree t1 t2 n at_ items out :
  (∀ x at_, (height x < n)%nat → t1 x at_ = t2 x at_) → (∀ i x, (i, x) ∈ items → (height x ≤ n)%nat) →
  tasks_from t1 at_ items out = tasks_from t2 at_ items out.
Proof.
  intros Ht. revert out. induction items as [|[i item] items IH]; intros out Hitems; [done|]. cbn [tasks_from].
  assert (height item ≤ n)%nat as Hitem by (eapply Hitems; by left).
  assert (∀ out, tasks_from t1 at_ items out = tasks_from t2 at_ items out) as Hrest.
  { intros out'. apply IH. intros. eapply Hitems. by right. }
  cbv zeta. apply bind_agree_eq. intros m Hm. apply bind_agree_l; [|done].
  destruct m as [m|]; [|done]. apply object_is in Hm as ->.
  destruct (entries m) as [|[name def] [|? ?]] eqn:Ee; try done. apply bind_agree. intros _.
  apply bind_agree_l; [|done]. apply Ht. assert (m !! name = Some def) as Hd%height_member; [|lia].
  apply elem_of_entries. rewrite Ee. by left.
Qed.
Lemma task_list_agree t1 t2 v at_ :
  (∀ x at_, (height x < height v)%nat → t1 x at_ = t2 x at_) → task_list_over t1 v at_ = task_list_over t2 v at_.
Proof.
  intros Ht. destruct v as [| | | |l|]; try done. cbn [task_list_over].
  apply (tasks_from_agree _ _ (height (VArr l))); [done|]. intros i x Hx%height_numbered. lia.
Qed.
Lemma task_agree f1 f2 v at_ :
  (height v ≤ f1)%nat → (height v ≤ f2)%nat → task names f1 v at_ = task names f2 v at_.
Proof.
  revert f2 v at_. induction f1 as [|f1 IH]; intros f2 v at_ H1 H2; [destruct v; cbn in H1; lia|].
  destruct f2 as [|f2]; [destruct v; cbn in H2; lia|]. cbn [task].
  apply (task_body_agree names _ _ _ _ (height v)); [|lia..]. intros x at' Hx.
  apply task_list_agree. intros y at'' Hy. apply IH; lia.
Qed.
Lemma tasks_agree f1 f2 v at_ :
  (height v ≤ f1)%nat → (height v ≤ f2)%nat → task_list names f1 v at_ = task_list names f2 v at_.
Proof. intros H1 H2. apply task_list_agree. intros x at' Hx. apply task_agree; lia. Qed.

(** ** The document *)

Lemma functions_agree f1 f2 u known :
  (∀ v, u = Some v → (height v ≤ f1)%nat ∧ (height v ≤ f2)%nat) → functions names f1 u known = functions names f2 u known.
Proof.
  intros Hu. unfold functions. apply bind_agree_l; [|done]. apply each_agree. intros [k x] Hx%elem_of_entries.
  apply bind_agree_l; [|done]. destruct u as [u|]; [|by apply not_there in Hx].
  destruct (Hu u eq_refl) as [H1 H2].
  destruct (vindex "functions" u) as [| | | | |fs] eqn:E; try by apply not_there in Hx.
  apply height_member in Hx. destruct u as [| | | | |m]; try done. unfold vindex, vget in E.
  destruct (m !! "functions") eqn:Em; [|done]. apply height_member in Em. cbn in E. subst.
  change (default ∅ (as_object (VObj fs))) with fs in Hx. apply task_agree; cbn [snd]; lia.
Qed.
Lemma extension_agree f1 f2 x :
  (height x.2 ≤ f1)%nat → (height x.2 ≤ f2)%nat → extension names f1 x = extension names f2 x.
Proof.
  intros H1 H2. unfold extension. destruct (pair_of x.2) as [[name def]|] eqn:E; [|done]. cbv zeta.
  assert (height def < height x.2)%nat as Hdef.
  { unfold pair_of in E. destruct x.2 as [| | | | |m]; try done. cbn in E.
    destruct (entries m) as [|y [|]] eqn:Ee; simplify_eq. eapply height_member, elem_of_entries. rewrite Ee. by left. }
  apply bind_some_agree; [done|]. intros e ->%object_is. do 4 (apply bind_agree; intros ?).
  assert (∀ key at_, list_at (task_list names f1) e key at_ = list_at (task_list names f2) e key at_) as Hl.
  { intros key at_. apply (list_at_agree _ _ (height (VObj e))); [|done]. intros. apply tasks_agree; lia. }
  do 2 (apply bind_agree_l; [apply Hl|intros ?]). done.
Qed.
Lemma extensions_agree f1 f2 v :
  (height v ≤ f1)%nat → (height v ≤ f2)%nat → extensions names f1 v = extensions names f2 v.
Proof.
  intros H1 H2. destruct v as [| | | |l|]; try done. cbn [extensions]. unfold each_some. apply bind_agree_l; [|done].
  apply each_agree. intros [i x] Hx%height_numbered. apply extension_agree; cbn [snd]; lia.
Qed.
Lemma budget_agree f1 f2 v : (height v ≤ f1)%nat → (height v ≤ f2)%nat → budget names f1 v = budget names f2 v.
Proof.
  intros H1 H2. unfold budget. cbv zeta. apply bind_agree_eq. intros [m|] Hm; [|done]. apply object_is in Hm as ->.
  do 2 (apply bind_agree; intros ?). apply bind_agree_l; [|done].
  destruct (m !! "on_exceeded") as [[| | | | |t]|] eqn:E; try done. apply height_member in E.
  apply bind_agree_l; [|done]. apply task_agree; lia.
Qed.
Lemma schedule_agree f1 f2 v : (height v ≤ f1)%nat → (height v ≤ f2)%nat → schedule f1 v = schedule f2 v.
Proof.
  intros H1 H2. unfold schedule. cbv zeta. apply bind_some_agree; [done|]. intros m ->%object_is.
  do 5 (apply bind_agree; intros ?). apply bind_agree_l; [|done]. unfold and_then.
  destruct (m !! "on") as [o|] eqn:E; [|done]. apply height_member in E. apply strategy_agree; lia.
Qed.
End agree.

Section enough.
Context `{Libraries}.

Lemma ouro_member m at_ known e key x : (ouro m at_ known).1 = Some e → e !! key = Some x → (height x < height (VObj m))%nat.
Proof.
  unfold ouro, and_then. destruct (m !! "metadata") as [d|] eqn:Ed; [|done]. cbn [mbind option_bind].
  apply height_member in Ed. destruct (vget "ouro" d) as [o|] eqn:Eo; [|done].
  destruct d as [| | | | |d]; try done. apply height_member in Eo.
  destruct o as [| | | | |o]; try done. intros [= ->] Ex%height_member. lia.
Qed.
Lemma workflow_agree f1 f2 v : (height v ≤ f1)%nat → (height v ≤ f2)%nat → workflow f1 v = workflow f2 v.
Proof.
  intros H1 H2. unfold workflow. apply bind_some_agree; [done|]. intros m ->%object_is.
  assert (∀ k x, m !! k = Some x → height x < height (VObj m))%nat as Hm by (intros k x; apply height_member).
  do 3 (apply bind_agree; intros ?). apply bind_agree. intros u. cbv zeta.
  apply bind_agree_l; [apply functions_agree; intros x Hx%Hm; lia|intros fs].
  apply bind_agree_l; [|intros es].
  { destruct (m !! "use") as [w|] eqn:E; [|done]. apply Hm in E. cbn [mbind option_bind].
    destruct (vget "extensions" w) as [e|] eqn:Ee; [|done]. destruct w; try discriminate Ee.
    apply height_member in Ee.
    apply extensions_agree; lia. }
  apply bind_agree_l; [destruct (m !! "do") as [d|] eqn:E; [apply Hm in E; apply tasks_agree; lia|done]|intros tasks].
  do 3 (apply bind_agree; intros ?).
  apply bind_agree_l.
  { unfold and_then. destruct (m !! "schedule") as [s|] eqn:E; [|done]. apply Hm in E. apply schedule_agree; lia. }
  intros s. apply bind_agree_eq. intros ext Hext. do 4 (apply bind_agree; intros ?).
  apply bind_agree_l; [|done].
  destruct (default ∅ ext !! "limits") as [l|] eqn:E; [|done].
  destruct ext as [ext|]; [|by apply not_there in E]. cbn [default] in E.
  destruct (m !! "document") as [d|] eqn:Ed; [|done]. cbn [mbind option_bind] in Hext. apply Hm in Ed.
  destruct d as [| | | | |d]; try discriminate Hext. eapply ouro_member in Hext; [|exact E]. apply budget_agree; lia.
Qed.

(** The parser terminates on every document with fuel to spare: more fuel than the
    document's nesting changes nothing, whatever the document. *)
Theorem parse_needs_no_more v fuel : (height v ≤ fuel)%nat → parse_with fuel v = parse v.
Proof. intros Hv. unfold parse, parse_with. by rewrite (workflow_agree fuel (height v)) by lia. Qed.
End enough.

Lemma parse_needs_no_more_witness :
  let libraries := {| schema_error := λ _, None; cron_error := λ _, None; parse_rfc3339 := λ _, None;
                      is_zone := λ _, true; from_yaml := λ _, Err ""; conforms := λ _, [] |} in
  let v := VObj {[ "do" := VArr [] ]} in
  (height v ≤ 7)%nat ∧ parse_with (H := libraries) 7 v = parse (H := libraries) v.
Proof. cbv zeta. split; [vm_compute; lia|apply parse_needs_no_more; vm_compute; lia]. Defined.
