(* ===== verification/Validator.v ===== *)
(** * Validation

    [crates/ows/src/model.rs], section 3: what parsing cannot check. Expressions compile
    with the variables in scope, calls and named errors resolve, directives name
    siblings, no loop is closed, and the host has what the definition needs. A check
    is the list of the problems it finds, in order. *)
From S2P Require Import Prelude Json Outcome Journal Expr Listen Model Parser TaskParser DocumentParser Analysis.
From S2P Require Tasks.

(** [Catalog]: what the host has; and the jq compiler, which gives the error of a
    program over the names of variables (with their [$]). *)
Class Catalog := {
  has_function : string → bool;
  has_events : bool;
  has_emits : bool;
  has_children : bool;
  has_process : string → bool;
  has_secrets : bool;
  has_resources : bool;
  jq_error : string → list string → option string
}.

(** [expr::embedded_strings]. *)
Fixpoint embedded_strings (template : value) : list string :=
  match template with
  | VStr s => if is_embedded s then [s] else []
  | VArr items => flat_map embedded_strings items
  | VObj m => flat_map snd (entries (embedded_strings <$> m))
  | _ => []
  end.

Local Abbreviation RUN := Tasks.RUN.
Definition BASE_VARS : list string := ["context"; "input"; "output"; "task"; "workflow"; "runtime"; RUN].
Definition SECRETS : string := "secrets".
Definition base_args : Args := foldl (λ a n, args_with a n VNull) no_args BASE_VARS.
(** [Args::names]: without their [$]. *)
Definition names_of (a : Args) : list string := (λ n, default n (strip_prefix "$" n)) <$> arg_names a.
Definition bound (a : Args) (names : list string) : Args := foldl (λ a n, args_with a n VNull) a names.

Definition when_ok {A} (o : option A) (f : A → list Problem) : list Problem :=
  match o with Some a => f a | None => [] end.
Definition problem_if (b : bool) (at_ message : string) : list Problem := if b then [mkProblem at_ message] else [].

Section with_catalog.
Context `{Catalog}.
Variable wf : Workflow.
Local Abbreviation functions := (us_functions (wf_uses wf)).

(** [expr]. *)
Definition check_expr (code at_ : string) (a : Args) : list Problem :=
  if contains_str "$authorization" code then
    [mkProblem at_ "`$authorization` describes a call's resolved authentication, which this runtime does not implement; functions carry their own credentials"]
  else if contains_str "$secrets" code && negb (bool_decide (SECRETS ∈ names_of a)) then
    [mkProblem at_ "`$secrets` is only available in `input.from`"]
  else
    (if contains_str "$secrets" code then
       flat_map (λ name, problem_if (negb (bool_decide (name ∈ us_secrets (wf_uses wf)))) at_
                           ("secret `" +:+ name +:+ "` is not declared under use.secrets"))
         (default [] (secret_names code))
     else []) ++
    when_ok (jq_error code (arg_names a)) (λ e, [mkProblem at_ e]).
(** [template]. *)
Definition check_template (t : value) (at_ : string) (a : Args) : list Problem :=
  flat_map (λ e, check_expr e at_ a) (template_exprs t) ++
  map (λ s, mkProblem at_ ("`" +:+ s +:+ "` embeds `${` inside text; make the whole value one expression, e.g. " +:+
    bytes [34] +:+ "${ " +:+ bytes [92; 34] +:+ "Hello " +:+ bytes [92] +:+ "(.name)" +:+ bytes [92; 34] +:+ " }" +:+
    bytes [34])) (embedded_strings t).
(** [transform]. *)
Definition check_transform (t : option value) (at_ : string) (a : Args) : list Problem :=
  match t with
  | Some (VStr code) => check_expr code at_ a
  | Some o => check_template o at_ a
  | None => []
  end.
(** [schema]. *)
Definition check_schema (s : option Schema) (at_ : string) : list Problem :=
  match s with
  | Some (Resource uri) =>
      problem_if (negb has_resources) at_ ("external schema `" +:+ uri +:+ "` needs a host resource resolver")
  | _ => []
  end.
(** [input], [output]. *)
Definition check_input (i : Input) (at_ : string) (a : Args) : list Problem :=
  check_schema (in_schema i) (at_ +:+ "/schema") ++
  check_transform (in_from i) (at_ +:+ "/from") (args_with a SECRETS VNull).
Definition check_output (o : Output) (at_ : string) (a : Args) : list Problem :=
  check_schema (out_schema o) (at_ +:+ "/schema") ++ check_transform (out_as o) (at_ +:+ "/as") a.
(** [flow]. *)
Definition check_flow (f : option Flow) (at_ : string) (siblings : list string) : list Problem :=
  match f with
  | Some (Goto name) =>
      problem_if (negb (bool_decide (name ∈ siblings))) at_
        ("`then: " +:+ name +:+ "` must name a task in the same list (flow directives cannot leave their scope)")
  | _ => []
  end.
(** [variable]. *)
Definition check_variable (name at_ : string) : list Problem :=
  problem_if (bool_decide (name = RUN)) at_ "`run` is reserved for the runtime argument `$run`".
(** [filter]. *)
Definition check_filter (f : EventFilter) (at_ : string) (a : Args) : list Problem :=
  flat_map (λ x : string * value,
    match as_str x.2 ≫= strip with
    | Some code => check_expr code (at_ +:+ "/with/" +:+ x.1) a
    | None => problem_if (is_some_and (as_str x.2) is_embedded) (at_ +:+ "/with/" +:+ x.1)
                "embeds `${` inside text; make it one expression"
    end) (f_with f) ++
  flat_map (λ x : string * Correlation,
    check_expr (from x.2) (at_ +:+ "/correlate/" +:+ x.1 +:+ "/from") a ++
    when_ok (expect x.2 ≫= strip) (λ code, check_expr code (at_ +:+ "/correlate/" +:+ x.1 +:+ "/expect") a))
    (f_correlate f).
Definition check_filters (key : string) (l : list EventFilter) (at_ : string) (a : Args) : list Problem :=
  concat (imap (λ i f, check_filter f (at_ +:+ "/" +:+ key +:+ "/" +:+ pretty i) a) l).
(** [strategy]. *)
Fixpoint check_strategy (s : Strategy) (at_ : string) (a : Args) : list Problem :=
  match s with
  | One f => check_filter f (at_ +:+ "/one") a
  | All filters => check_filters "all" filters at_ a
  | Any filters until =>
      check_filters "any" filters at_ a ++
      match until with
      | Some (Condition c) => check_expr c (at_ +:+ "/until") a
      | Some (Events s) => check_strategy s (at_ +:+ "/until") a
      | None => []
      end
  end.
(** A duration that is an expression. *)
Definition check_duration (d : option DurationSpec) (at_ : string) (a : Args) : list Problem :=
  match d with Some (DExpr e) => check_expr e at_ a | _ => [] end.

(** ** Tasks *)

(** Each task of a list in turn. *)
Definition check_each (check : string → Task → list Problem) (at_ : string) : nat → TaskList → list Problem :=
  fix go i l :=
    match l with
    | [] => []
    | (name, t) :: l => check (at_ +:+ "/" +:+ pretty i +:+ "/" +:+ name) t ++ go (S i) l
    end.
(** Whether a task of an extension may leave any list it is around. *)
Definition extensions_exit : bool :=
  existsb (λ x : string * Extension,
    existsb (λ y : string * Task, can_leave functions y.2) (default [] (ex_before x.2) ++ default [] (ex_after x.2)))
    (us_extensions (wf_uses wf)).
Definition check_cycles (tasks : TaskList) (at_ : string) : list Problem :=
  if extensions_exit then []
  else
    flat_map (λ cycle,
      let name i := default "" (fst <$> tasks !! i) in
      let first := default O (head cycle) in
      [mkProblem (at_ +:+ "/" +:+ pretty first +:+ "/" +:+ name first)
         ("the tasks " +:+ joined (name <$> cycle) +:+
          " jump in a cycle with no conditional way out (add a switch case or an `if` that leaves it)")])
      (closed_cycles tasks functions).
(** [list], over the check of one task. *)
Definition check_list_with (check : string → Args → list string → Task → list Problem) (tasks : TaskList)
    (at_ : string) (a : Args) : list Problem :=
  check_each (λ at_ t, check at_ a tasks.*1 t) at_ 0 tasks ++ check_cycles tasks at_.
Definition check_retry (r : Retry) (at_ : string) (a : Args) : list Problem :=
  when_ok (rt_when r) (λ c, check_expr c (at_ +:+ "/catch/retry/when") a) ++
  when_ok (rt_except_when r) (λ c, check_expr c (at_ +:+ "/catch/retry/exceptWhen") a) ++
  flat_map (λ d, check_duration d (at_ +:+ "/catch/retry") a) [rt_delay r; rt_attempt_duration r; rt_duration r].
Definition check_raise (r : Raise) (at_ : string) (a : Args) : list Problem :=
  let texts d := omap id [ed_title d; ed_detail d] in
  let check d := flat_map (λ text, when_ok (strip text) (λ code, check_expr code (at_ +:+ "/raise/error") a)) (texts d) in
  match r with
  | RaiseInline d => check d
  | RaiseNamed name =>
      match found name (us_errors (wf_uses wf)) with
      | Some d => check d
      | None => [mkProblem (at_ +:+ "/raise/error") ("no error `" +:+ name +:+ "` under use.errors")]
      end
  end.
Definition check_call (function : string) (with_ : option value) (delivery_ : Delivery) (at_ : string) (a : Args)
    : list Problem :=
  let name := function_name function in
  let local := existsb (λ x : string * Task, bool_decide (x.1 = name)) functions in
  problem_if (local && negb (bool_decide (delivery_ = AtLeastOnce))) (at_ +:+ "/metadata/ouro/delivery")
    "put delivery on the external call inside the reusable function" ++
  problem_if (negb local && negb (has_function name)) (at_ +:+ "/call") ("unknown function `" +:+ function +:+ "`") ++
  when_ok with_ (λ w, check_template w (at_ +:+ "/with") a).
Definition check_switch (cases : list (string * Case)) (at_ : string) (a : Args) (siblings : list string) : list Problem :=
  concat (imap (λ i (x : string * Case),
    let cat := at_ +:+ "/switch/" +:+ pretty i +:+ "/" +:+ x.1 in
    when_ok (case_when x.2) (λ w, check_expr w (cat +:+ "/when") a) ++
    check_flow (Some (case_then x.2)) (cat +:+ "/then") siblings) cases).
Definition check_run (r : RunTask) (at_ : string) (a : Args) : list Problem :=
  match run_process_of r with
  | PWorkflow _ _ _ i =>
      problem_if (negb has_children) (at_ +:+ "/run/workflow") "child workflows are not supported by this host" ++
      when_ok i (λ i, check_template i (at_ +:+ "/run/workflow/input") a)
  | PExternal kind definition =>
      problem_if (negb (has_process kind)) (at_ +:+ "/run/" +:+ kind)
        ("run: " +:+ kind +:+ " needs a host process runner, and this host has none for it") ++
      check_template definition (at_ +:+ "/run/" +:+ kind) a
  end.
(** What every task has. *)
Definition check_common (t : Task) (at_ : string) (a : Args) (siblings : list string) : list Problem :=
  when_ok (tk_when t) (λ c, check_expr (bare c) (at_ +:+ "/if") a) ++
  when_ok (tk_input t) (λ i, check_input i (at_ +:+ "/input") a) ++
  when_ok (tk_output t) (λ o, check_output o (at_ +:+ "/output") a) ++
  when_ok (tk_export t) (λ e, check_output e (at_ +:+ "/export") a) ++
  check_duration (tk_timeout t) (at_ +:+ "/timeout") a ++
  check_flow (tk_then t) (at_ +:+ "/then") siblings.
(** What a kind has, over the check of a task. *)
Definition check_kind (check : string → Args → list string → Task → list Problem) (t : Task) (at_ : string)
    (a : Args) (siblings : list string) : list Problem :=
  let list_ := check_list_with check in
  match tk_kind t with
  | KCall function with_ => check_call function with_ (tk_delivery t) at_ a
  | KDo tasks => list_ tasks (at_ +:+ "/do") a
  | KFor each index items condition _ tasks =>
      let inner := bound a [each; index] in
      check_variable each (at_ +:+ "/for/each") ++ check_variable index (at_ +:+ "/for/at") ++
      match items with ItExpr e => check_expr e (at_ +:+ "/for/in") a | ItInline _ => [] end ++
      when_ok condition (λ c, check_expr c (at_ +:+ "/while") inner) ++
      list_ tasks (at_ +:+ "/do") inner
  | KFork branches _ =>
      check_each (λ at_ b, check at_ a [] b) (at_ +:+ "/fork/branches") 0 branches
  | KSet (VStr code) => check_expr (bare code) (at_ +:+ "/set") a
  | KSet other => check_template other (at_ +:+ "/set") a
  | KSwitch cases => check_switch cases at_ a siblings
  | KTry tasks c =>
      let caught := bound a [catch_as c] in
      list_ tasks (at_ +:+ "/try") a ++ check_variable (catch_as c) (at_ +:+ "/catch/as") ++
      when_ok (catch_when c) (λ w, check_expr w (at_ +:+ "/catch/when") caught) ++
      when_ok (catch_except_when c) (λ w, check_expr w (at_ +:+ "/catch/exceptWhen") caught) ++
      when_ok (catch_retry c) (λ r, check_retry r at_ caught) ++
      match catch_tasks c with Some h => list_ h (at_ +:+ "/catch/do") caught | None => [] end ++
      check_flow (catch_then c) (at_ +:+ "/catch/then") siblings
  | KRaise r => check_raise r at_ a
  | KListen l =>
      problem_if (negb has_events) (at_ +:+ "/listen") "events are not supported by this host" ++
      check_strategy (li_to l) (at_ +:+ "/listen/to") a ++
      match li_foreach l with
      | Some f =>
          let inner := bound a [fe_item f; fe_at f] in
          check_variable (fe_item f) (at_ +:+ "/foreach/item") ++ check_variable (fe_at f) (at_ +:+ "/foreach/at") ++
          list_ (fe_tasks f) (at_ +:+ "/foreach/do") inner ++
          when_ok (fe_output f) (λ o, check_output o (at_ +:+ "/foreach/output") inner) ++
          when_ok (fe_export f) (λ e, check_output e (at_ +:+ "/foreach/export") inner)
      | None => []
      end
  | KEmit with_ =>
      problem_if (negb has_emits) (at_ +:+ "/emit") "emitting events is not supported by this host" ++
      check_template (VObj with_) (at_ +:+ "/emit/event/with") a
  | KRun r => check_run r at_ a
  | KWait d => check_duration (Some d) (at_ +:+ "/wait") a
  end.
(** [task]. *)
Fixpoint check_task (at_ : string) (a : Args) (siblings : list string) (t : Task) {struct t} : list Problem :=
  check_common t at_ a siblings ++ check_kind (λ at_ a siblings t, check_task at_ a siblings t) t at_ a siblings.
Definition check_list : TaskList → string → Args → list Problem := check_list_with check_task.
(** A list of an extension, where there is one. *)
Definition check_extension (i : nat) (x : string * Extension) : list Problem :=
  let at_ := "/use/extensions/" +:+ pretty i +:+ "/" +:+ x.1 in
  when_ok (ex_when x.2) (λ w, check_expr w (at_ +:+ "/when") base_args) ++
  when_ok (ex_before x.2) (λ l, check_list l (at_ +:+ "/before") base_args) ++
  when_ok (ex_after x.2) (λ l, check_list l (at_ +:+ "/after") base_args).
End with_catalog.

(** [validate]. *)
Definition validate `{Catalog} (p : Parsed) : list Problem :=
  let wf := pa_workflow p in
  problem_if (negb (bool_decide (us_secrets (wf_uses wf) = [])) && negb has_secrets) "/use/secrets"
    "secrets need a host secret resolver" ++
  when_ok (wf_input wf) (λ i, check_input wf i "/input" base_args) ++
  when_ok (wf_output wf) (λ o, check_output wf o "/output" base_args) ++
  flat_map (λ x : string * Task, check_task wf ("/use/functions/" +:+ x.1) base_args [] x.2) (us_functions (wf_uses wf)) ++
  concat (imap (check_extension wf) (us_extensions (wf_uses wf))) ++
  when_ok (pa_schedule p ≫= sc_on) (λ s, check_strategy wf s "/schedule/on" base_args) ++
  match bu_on_exceeded (wf_budget wf) with
  | XTask handler => check_task wf "/document/metadata/ouro/limits/on_exceeded" base_args [] handler
  | _ => []
  end ++
  check_list wf (wf_tasks wf) "/do" base_args.
