(* ===== verification/Valid.v ===== *)
(** * What a validated document promises

    A document [validate] finds no problem in, against the interpreter: a drive of it
    asks for nothing its host does not have, and its jumps land on tasks of their
    list. And two places where an expression is not checked. *)
From S2P Require Import Prelude Json Outcome Journal Expr Listen Secrets.
From S2P Require Import Drive Calls Branches Model Tasks Waits Compose Interp Execute Alone Ops Traces.
From S2P Require Import Analysis AnalysisSpec Survey FlowSpec Parser TaskParser DocumentParser ParserSpec Validator.
From S2P Require Import Samples DriveSamples.

(** ** No problems *)

Lemma problem_if_nil b at_ m : problem_if b at_ m = [] → b = false.
Proof. by destruct b. Qed.
Lemma flat_map_nil {A B} (f : A → list B) l : flat_map f l = [] → ∀ x, x ∈ l → f x = [].
Proof.
  induction l as [|y l IH]; cbn; [by intros _ x ?%not_elem_of_nil|]. intros [Hy Hl]%app_nil x [->|Hx]%elem_of_cons; auto.
Qed.
Lemma when_ok_nil {A} (o : option A) f a : when_ok o f = [] → o = Some a → f a = [].
Proof. by intros H ->. Qed.
Lemma check_each_nil check at_ i l : check_each check at_ i l = [] → ∀ x, x ∈ l → ∃ at', check at' x.2 = [].
Proof.
  revert i. induction l as [|[name t] l IH]; intros i; cbn [check_each]; [by intros _ x ?%not_elem_of_nil|].
  intros [Ht Hl]%app_nil x [->|Hx]%elem_of_cons; [by eexists|by eapply IH].
Qed.
Lemma concat_imap_nil {A B} (f : nat → A → list B) l : concat (imap f l) = [] → ∀ x, x ∈ l → ∃ i, f i x = [].
Proof.
  revert f. induction l as [|y l IH]; intros f; [by intros _ x ?%not_elem_of_nil|]. rewrite imap_cons. cbn.
  intros [Hy Hl]%app_nil x [->|Hx]%elem_of_cons; [by eexists|]. destruct (IH _ Hl x Hx) as [i Hi]. by exists (S i).
Qed.
Ltac nils := repeat match goal with
  | H : _ ++ _ = [] |- _ => apply app_nil in H as [? H]
  | H : problem_if _ _ _ = [] |- _ => apply problem_if_nil in H
  end.

Section valid.
Context `{Catalog} (wf : Workflow).

(** A task in which no problem was found, wherever it was looked at. *)
Definition valid_task (t : Task) : Prop := ∃ at_ a siblings, check_task wf at_ a siblings t = [].
Definition valid_list (l : TaskList) : Prop := ∃ at_ a, check_list wf l at_ a = [].

Lemma valid_list_tasks l : valid_list l → ∀ x, x ∈ l → ∃ at_ a, check_task wf at_ a l.*1 x.2 = [].
Proof.
  intros (at_&a&Hl) x Hx. unfold check_list, check_list_with in Hl. nils.
  eapply check_each_nil in Hx as [at' Ht]; [|done]. by exists at', a.
Qed.
Lemma valid_list_all l : valid_list l → ∀ x, x ∈ l → valid_task x.2.
Proof. intros Hl x Hx. destruct (valid_list_tasks l Hl x Hx) as (at_&a&Ht). by exists at_, a, l.*1. Qed.
(** The lists a task runs in order; the branches of a fork are none. *)
Definition sequences (k : Kind) : list TaskList :=
  match k with KFork _ _ => [] | _ => nested k end.
Lemma check_task_eq at_ a siblings t :
  check_task wf at_ a siblings t = check_common wf t at_ a siblings ++ check_kind wf (check_task wf) t at_ a siblings.
Proof. by destruct t. Qed.
Ltac valid Ht := unfold valid_task in Ht; destruct Ht as (at_&a&siblings&Ht); rewrite check_task_eq in Ht; nils.

Lemma valid_sequences t l : valid_task t → l ∈ sequences (tk_kind t) → valid_list l.
Proof.
  intros Ht Hl. valid Ht. unfold check_kind in Ht. cbv zeta in Ht.
  destruct (tk_kind t) as [| | | | | |tasks c| | |li| |]; cbn in Hl; try (by apply not_elem_of_nil in Hl); nils.
  - apply list_elem_of_singleton in Hl as ->. by do 2 eexists.
  - apply list_elem_of_singleton in Hl as ->. by do 2 eexists.
  - apply elem_of_cons in Hl as [->|Hl]; [by do 2 eexists|]. destruct (catch_tasks c); [|by apply not_elem_of_nil in Hl].
    apply list_elem_of_singleton in Hl as ->. by do 2 eexists.
  - destruct (li_foreach li); [|by apply not_elem_of_nil in Hl]. nils. apply list_elem_of_singleton in Hl as ->. by do 2 eexists.
Qed.
Lemma valid_nested t l : valid_task t → l ∈ nested (tk_kind t) → ∀ x, x ∈ l → valid_task x.2.
Proof.
  intros Ht Hl. destruct (tk_kind t) as [| | |branches c| | | | | | | |] eqn:E;
    try (apply valid_list_all; eapply valid_sequences; [exact Ht|]; rewrite E; exact Hl).
  apply list_elem_of_singleton in Hl as ->. intros x Hx. valid Ht. unfold check_kind in Ht. rewrite E in Ht.
  eapply check_each_nil in Hx as [at' Hx]; [|exact Ht]. by exists at', a, [].
Qed.
Lemma resource_offered s at_ uri : check_schema s at_ = [] → s = Some (Resource uri) → has_resources = true.
Proof. intros Hs ->. cbn in Hs. nils. by apply negb_false_iff. Qed.
Lemma output_offered (o : option Output) at_ a uri :
  when_ok o (λ o, check_output wf o at_ a) = [] → Some (Resource uri) = (o ≫= out_schema) → has_resources = true.
Proof.
  destruct o as [o|]; [|done]. cbn. unfold check_output. intros Ho E. nils. eapply resource_offered; [eassumption|by symmetry].
Qed.
Lemma input_offered (i : option Input) at_ a uri :
  when_ok i (λ i, check_input wf i at_ a) = [] → Some (Resource uri) = (i ≫= in_schema) → has_resources = true.
Proof.
  destruct i as [i|]; [|done]. cbn. unfold check_input. intros Hi E. nils. eapply resource_offered; [eassumption|by symmetry].
Qed.
Lemma valid_io t uri :
  valid_task t →
  Some (Resource uri) = (tk_input t ≫= in_schema) ∨ Some (Resource uri) = (tk_output t ≫= out_schema) ∨
  Some (Resource uri) = (tk_export t ≫= out_schema) → has_resources = true.
Proof.
  intros Ht Hio. valid Ht. unfold check_common in *. nils.
  destruct Hio as [E|[E|E]]; [eapply input_offered; [|exact E]; eassumption|eapply output_offered; [|exact E]; eassumption..].
Qed.
Lemma valid_foreach t l f uri :
  valid_task t → tk_kind t = KListen l → li_foreach l = Some f →
  Some (Resource uri) = (fe_output f ≫= out_schema) ∨ Some (Resource uri) = (fe_export f ≫= out_schema) →
  has_resources = true.
Proof.
  intros Ht Ek Ef Hio. valid Ht. unfold check_kind in Ht. rewrite Ek, Ef in Ht. cbv zeta in Ht. nils.
  destruct Hio as [E|E]; (eapply output_offered; [|exact E]; eassumption).
Qed.
Lemma valid_call t f w :
  valid_task t → tk_kind t = KCall f w → named (function_name f) (us_functions (wf_uses wf)) = None →
  has_function (function_name f) = true.
Proof.
  intros Ht Ek Hn. valid Ht. unfold check_kind, check_call in Ht. rewrite Ek in Ht. cbv zeta in Ht. nils.
  match goal with H : negb ?local && negb _ = false |- _ => assert (local = false) as El; [|rewrite El in H; by apply negb_false_iff in H] end.
  apply not_true_iff_false. intros (x&Hx%list_elem_of_In&E%bool_decide_eq_true)%existsb_exists.
  unfold named in Hn. destruct (list_find _ _) as [|] eqn:Ef; [done|]. apply list_find_None in Ef.
  rewrite Forall_forall in Ef. by apply (Ef x).
Qed.
Lemma valid_process t r :
  valid_task t → tk_kind t = KRun r →
  match run_process_of r with PWorkflow _ _ _ _ => has_children = true | PExternal kind _ => has_process kind = true end.
Proof.
  intros Ht Ek. valid Ht. unfold check_kind, check_run in Ht. rewrite Ek in Ht.
  destruct (run_process_of r); nils; by apply negb_false_iff.
Qed.
Lemma valid_listen t l : valid_task t → tk_kind t = KListen l → has_events = true.
Proof. intros Ht Ek. valid Ht. unfold check_kind in Ht. rewrite Ek in Ht. cbv zeta in Ht. nils. by apply negb_false_iff. Qed.
Lemma valid_emit t w : valid_task t → tk_kind t = KEmit w → has_emits = true.
Proof. intros Ht Ek. valid Ht. unfold check_kind in Ht. rewrite Ek in Ht. cbv zeta in Ht. nils. by apply negb_false_iff. Qed.
End valid.

(** ** A valid document *)

(** An operation the host has what it takes for. *)
Fixpoint offered `{Catalog} (wf : Workflow) (o : drive_op) : Prop :=
  match o with
  | ODispatch d =>
      match dp_target d with
      | TFunction name => has_function name = true ∧ named name (us_functions (wf_uses wf)) = None
      | TProcess kind => has_process kind = true
      end
  | OChild _ => has_children = true
  | OSchema _ => has_resources = true
  | OEvents (EvSubscribe _ _) => has_events = true
  | OEmit _ _ => has_emits = true
  | ORace _ o => offered wf o
  | _ => True
  end.

Section document.
Context `{Catalog} (p : Parsed) (wf : Workflow) (Hwf : pa_workflow p = wf) (Hvalid : validate p = []).

Ltac document := unfold validate in Hvalid; rewrite Hwf in Hvalid; cbv zeta in Hvalid; nils.
Lemma valid_main : valid_list wf (wf_tasks wf).
Proof. document. by do 2 eexists. Qed.
Lemma valid_function name f : named name (us_functions (wf_uses wf)) = Some f → valid_task wf f.
Proof.
  unfold named. destruct (list_find _ _) as [[i x]|] eqn:E; [|done]. intros [= <-]. apply list_find_Some in E as (Hx&_).
  document.
  match goal with H : flat_map _ (us_functions _) = [] |- _ => eapply flat_map_nil in H; [|by eapply list_elem_of_lookup_2] end.
  by do 3 eexists.
Qed.
Lemma valid_extension x l :
  x ∈ us_extensions (wf_uses wf) → ex_before x.2 = Some l ∨ ex_after x.2 = Some l → valid_list wf l.
Proof.
  intros Hx Hl. document.
  match goal with H : concat _ = [] |- _ => eapply concat_imap_nil in H as [i Hi]; [|exact Hx] end.
  unfold check_extension in Hi. cbv zeta in Hi. nils.
  destruct Hl as [E|E]; rewrite E in *; cbn [when_ok] in *; do 2 eexists; eassumption.
Qed.
Lemma valid_handler h : bu_on_exceeded (wf_budget wf) = XTask h → valid_task wf h.
Proof.
  intros E. document.
  match goal with H : match bu_on_exceeded _ with _ => _ end = [] |- _ => rewrite E in H end. by do 3 eexists.
Qed.
#[local] Instance valid_survey : Survey wf.
Proof.
  refine {|
    in_survey := valid_task wf; may_call name := has_function name = true; may_process kind := has_process kind = true;
    may_start _ _ _ := has_children = true; may_resolve _ := has_resources = true; may_listen := has_events = true;
    may_emit := has_emits = true |}.
  - apply valid_nested.
  - apply valid_list_all, valid_main.
  - apply valid_function.
  - intros x l Hx Hl. by apply valid_list_all, (valid_extension x l).
  - apply valid_handler.
  - apply valid_call.
  - apply valid_process.
  - apply valid_listen.
  - apply valid_emit.
  - apply valid_io.
  - apply valid_foreach.
  - intros uri Hio. document.
    destruct Hio as [E|E]; [eapply input_offered; [|exact E]; eassumption|eapply output_offered; [|exact E]; eassumption].
Defined.
Lemma allowed_offered o : allowed wf o → offered wf o.
Proof. induction o as [| | | | | | | | | |[]| | | | | | | | |]; cbn; auto. Qed.

Lemma valid_secrets : us_secrets (wf_uses wf) ≠ [] → has_secrets = true.
Proof.
  intros Hs. document. rewrite bool_decide_eq_false_2 in * by done. by apply negb_false_iff.
Qed.
End document.

(** C27: a construct the host lacks what it takes for is refused by [validate], never met
    later: whatever a drive of a valid document is answered, it calls only functions
    and processes its host has, and starts children, looks up schemas, subscribes to
    events and emits them only on a host that can; and a document with secrets has a
    host that resolves them. *)
Theorem valid_drive_has_what_it_needs `{Catalog, Host, Functions, Formats} p su fuel records started_ms runtime input :
  validate p = [] → su_wf su = pa_workflow p →
  all_ops (offered (pa_workflow p)) (run_execution fuel su records started_ms runtime input) ∧
  (us_secrets (wf_uses (pa_workflow p)) ≠ [] → has_secrets = true).
Proof.
  intros Hvalid E. split; [|by apply (valid_secrets p)]. rewrite <- E.
  eapply ops_mono; [apply (allowed_offered p _ (eq_sym E) Hvalid)|].
  exact (surveyed_execution (survey := valid_survey p _ (eq_sym E) Hvalid) su fuel records started_ms runtime input).
Qed.

(** ** Jumps *)

(** The lists of a document whose tasks run in order, and its tasks. *)
Inductive runs_list (wf : Workflow) : TaskList → Prop :=
| runs_main : runs_list wf (wf_tasks wf)
| runs_extension x l :
    x ∈ us_extensions (wf_uses wf) → ex_before x.2 = Some l ∨ ex_after x.2 = Some l → runs_list wf l
| runs_nested t l : runs_task wf t → l ∈ sequences (tk_kind t) → runs_list wf l
with runs_task (wf : Workflow) : Task → Prop :=
| runs_listed l x : runs_list wf l → x ∈ l → runs_task wf x.2
| runs_function name f : named name (us_functions (wf_uses wf)) = Some f → runs_task wf f
| runs_handler h : bu_on_exceeded (wf_budget wf) = XTask h → runs_task wf h
| runs_branch t branches compete x :
    runs_task wf t → tk_kind t = KFork branches compete → x ∈ branches → runs_task wf x.2.
Scheme runs_list_ind' := Minimality for runs_list Sort Prop
  with runs_task_ind' := Minimality for runs_task Sort Prop.

Section jumps.
Context `{Catalog} (p : Parsed) (wf : Workflow) (Hwf : pa_workflow p = wf) (Hvalid : validate p = []).

Lemma runs_valid l : runs_list wf l → valid_list wf l.
Proof.
  apply (runs_list_ind' wf (valid_list wf) (valid_task wf)).
  - by apply (valid_main p).
  - by apply (valid_extension p).
  - intros t l' _. apply valid_sequences.
  - intros l' x _ Hl. by apply valid_list_all.
  - by apply (valid_function p).
  - by apply (valid_handler p).
  - intros t branches c x _ Ht Ek. apply (valid_nested wf t); [done|]. rewrite Ek. by left.
Qed.
Lemma goto_sibling f at_ siblings name : check_flow f at_ siblings = [] → f = Some (Goto name) → name ∈ siblings.
Proof. intros Hf ->. cbn in Hf. nils. by apply negb_false_iff, bool_decide_eq_true in Hf. Qed.
(** The directives of a task that name a task name a sibling. *)
Lemma static_sibling su at_ a siblings t name :
  check_task wf at_ a siblings t = [] → static_flow t (Goto name) ∨ extended su (Goto name) t → name ∈ siblings.
Proof.
  intros Ht Hf. rewrite check_task_eq in Ht. nils. unfold check_common in *. nils.
  assert (Hown : Goto name = default Continue (tk_then t) → name ∈ siblings).
  { destruct (tk_then t) as [f|] eqn:E; cbn; intros Ef; [|done]. eapply goto_sibling; [eassumption|congruence]. }
  destruct Hf as [[[=]|[[? _]|[(g&<-&Hk)|[_ [=]]]]]|[_ ?]]; auto.
  unfold kind_ways, none_or_end in Hk. cbn in Hk. unfold check_kind in Ht.
  destruct (tk_kind t) as [| | | | |cases|tasks c| | | | |]; try (by destruct Hk as [[=]|[=]]); [| |done].
  - destruct Hk as [(c&Hc&[= Ec])|[[=] _]]. unfold check_switch in Ht.
    eapply concat_imap_nil in Ht as [i Hi]; [|exact Hc]. cbv zeta in Hi. nils.
    eapply goto_sibling; [exact Hi|by rewrite Ec].
  - destruct Hk as [[[=]|[=]]|Hk]. cbv zeta in Ht. nils. eapply goto_sibling; [eassumption|done].
Qed.
End jumps.
Lemma position_found name (l : TaskList) :
  name ∈ l.*1 → is_Some (position (λ x : string * Task, bool_decide (x.1 = name)) l).
Proof.
  induction l as [|[n t] l IH]; cbn; [by intros ?%not_elem_of_nil|]. intros [->|Hl]%elem_of_cons.
  - by rewrite bool_decide_eq_true_2.
  - case_bool_decide; [done|]. by apply fmap_is_Some, IH.
Qed.

(** C28: in a valid document a jump lands: whatever the host, the journal and the tasks
    inside it answer, a task that runs in one of the document's lists and ends with a
    jump names a task of that list, so the list goes on there and never fails for
    want of it. *)
Theorem valid_jumps_land `{Catalog, Host, Functions, Formats} p su fuel turns tasks i name t at_ reference raw scope
    started_ms trace v target :
  validate p = [] → runs_list (pa_workflow p) tasks → tasks !! i = Some (name, t) →
  ends (steps su (Interp.task su fuel) turns t at_ reference raw scope started_ms) trace (Ok (v, Goto target)) →
  is_Some (position (λ x : string * Task, bool_decide (x.1 = target)) tasks).
Proof.
  intros Hvalid Hl Hi Ht. apply position_found.
  destruct (valid_list_tasks _ tasks (runs_valid p _ eq_refl Hvalid tasks Hl) (name, t)) as (at'&a&Hc);
    [by eapply list_elem_of_lookup_2|].
  eapply static_sibling; [exact Hc|].
  exact (returns_ends _ _ _ _ (returns_steps su fuel turns t at_ reference raw scope started_ms) Ht).
Qed.

(** ** Expressions that are not checked *)

(** A host on which [$nope] does not compile, and its catalog. *)
Definition nope_host : Host := {|
  rfc3339 ms := Some (pretty ms);
  to_vec_len v := Some 2;
  value_to_string v := "value";
  jaq program vars input := if decide (program = "$nope") then JInvalid "undefined variable" else JOutput input;
  yaml_value text := None;
  sha256 text := [];
  shown v := "value"
|}.
Definition nope_catalog : Catalog := {|
  has_function _ := true; has_events := true; has_emits := true; has_children := true; has_process _ := true;
  has_secrets := true; has_resources := true;
  jq_error code _ := if decide (code = "$nope") then Some "undefined variable" else None
|}.
Definition document_of (more : list (string * value)) : value := obj (("document", header) :: more).
(** What the validator finds in a document, and how a run of it ends. *)
Definition valid_and_run (v : value) : option (list Problem * option Status) :=
  match parse (H := plain_libraries) v with
  | Ok p => Some (validate (H := nope_catalog) p,
      status_on (H := nope_host) (H0 := demo_functions) (H1 := demo_formats) 20 demo_env
        (mkStart (pa_workflow p) "r" VNull (Some 1000) (mkLimits 100 10 10 None None None) VNull true) ∅)
  | Err _ => None
  end.
Definition nope : value := VStr "${ $nope }".
(** A task's condition that does not compile is a problem. *)
Example condition_is_checked :
  option_map fst (valid_and_run (document_of
    [("do", VArr [obj [("a", obj [("if", nope); ("set", obj [])])]])])) =
  Some [mkProblem "/do/0/a/if" "undefined variable"].
Proof. vm_compute. reflexivity. Qed.
(** The workflow's own timeout and the jitter of a retry are not: a document passes
    validation and its run faults on an expression that does not compile. *)
Theorem unchecked_expressions :
  (∃ e, valid_and_run (document_of
    [("timeout", obj [("after", nope)]); ("do", VArr [obj [("a", obj [("set", obj [])])]])]) =
    Some ([], Some (Faulted e)) ∧ Error.is_kind e "expression" = true) ∧
  (∃ e, valid_and_run (document_of
    [("do", VArr [obj [("a", obj
      [("try", VArr [obj [("b", obj [("raise", obj
         [("error", obj [("type", VStr "t"); ("status", vint 500)])])])]]);
       ("catch", obj [("retry", obj
         [("limit", obj [("attempt", obj [("count", vint 3)])]);
          ("jitter", obj [("from", nope); ("to", VStr "PT1S")])])])])]])]) =
    Some ([], Some (Faulted e)) ∧ Error.is_kind e "expression" = true).
Proof. split; eexists; split; vm_compute; reflexivity. Qed.

(** ** Witnesses *)

Definition demo_parsed : Parsed :=
  mkParsed (mkDocument "1.0.0" "n" "w" "1.0.0" None None) (su_wf demo_setup) (mkNames [] []) None Types.Inherit.
Lemma valid_drive_has_what_it_needs_witness :
  validate (H := nope_catalog) demo_parsed = [] ∧
  all_ops (offered (H := nope_catalog) (pa_workflow demo_parsed))
    (run_execution (H := jumps_host) (H0 := demo_functions) (H1 := demo_formats) 5 demo_setup ∅ 1000 VNull VNull).
Proof.
  assert (validate (H := nope_catalog) demo_parsed = []) as E by (vm_compute; reflexivity). split; [exact E|].
  exact (proj1 (valid_drive_has_what_it_needs (H := nope_catalog) (H0 := jumps_host) (H1 := demo_functions)
    (H2 := demo_formats) demo_parsed demo_setup 5 ∅ 1000 VNull VNull E eq_refl)).
Defined.
(** The list inside the demo's loop, whose first task jumps to the second. *)
Definition loop_list : TaskList :=
  match wf_tasks (su_wf demo_setup) with
  | [(_, t)] => match tk_kind t with KFor _ _ _ _ _ l => l | _ => [] end
  | _ => []
  end.
Definition loop_jump : Task := default demo_task (snd <$> head loop_list).
Definition loop_steps : drive (value * Flow) :=
  steps (H := jumps_host) (H0 := demo_functions) (H1 := demo_formats) demo_setup
    (Interp.task (H := jumps_host) (H0 := demo_functions) (H1 := demo_formats) demo_setup 3) 3 loop_jump "a" "/do/0/each"
    VNull [] 1000.
Lemma valid_jumps_land_witness :
  validate (H := nope_catalog) demo_parsed = [] ∧
  is_Some (position (λ x : string * Task, bool_decide (x.1 = "b")) loop_list).
Proof.
  assert (validate (H := nope_catalog) demo_parsed = []) as Hvalid by (vm_compute; reflexivity). split; [exact Hvalid|].
  assert (runs_list (pa_workflow demo_parsed) loop_list) as Hl.
  { apply (runs_nested _ (snd (default ("", demo_task) (head (wf_tasks (su_wf demo_setup)))))); [|by left].
    apply (runs_listed _ (wf_tasks (su_wf demo_setup))); [apply runs_main|by left]. }
  pose proof (traced_ends demo_env loop_steps empty_shared) as Ht.
  assert ((alone demo_env loop_steps empty_shared).1.1 = Ok (VNull, Goto "b")) as E by (vm_compute; reflexivity).
  rewrite E in Ht.
  exact (valid_jumps_land (H := nope_catalog) (H0 := jumps_host) (H1 := demo_functions) (H2 := demo_formats)
    demo_parsed demo_setup 3 3 loop_list 0 "a" loop_jump "a" "/do/0/each" VNull [] 1000 _ VNull "b" Hvalid Hl eq_refl Ht).
Defined.
