(* ===== verification/Schedules.v ===== *)
(** * Schedules and published events

    [crates/runtime/src/schedule.rs]: the triggers a definition's schedule arms, the
    firing of due ones, the events offered to those that wait for events, and the
    store's notices. A function is a program ([sched], a free monad) over the calls of
    the store, each one transaction, of the admitter, the clock and the event sink;
    between two of them other processes act. Metrics, traces and observers, which only
    report, are not part of the programs. Sums of times are those of [i64] where they
    do not overflow, except the saturating ones. *)
From S2P Require Import Prelude Json Outcome Keys Journal Expr Listen Types Model Parser TaskParser DocumentParser.

(** What the calendar libraries say: croner's next occurrence of an expression in a zone
    after an instant, and chrono's two ways to show an instant. *)
Class Calendar := {
  next_cron : string → option string → Z → result string Z;
  show_datetime : Z → option string;
  show_rfc3339 : Z → option string
}.

(** ** Programs *)

(** Why a program fails: the host's schema resolver failed, the definition tripped, or
    anything else. *)
Inductive failure :=
| Unavailable (e : string)
| Tripped (t : DefinitionTripped)
| Failed (e : string).
Inductive sched_op :=
| SoDefinitions (name : string)
| SoActivate (name : string) (version epoch_ : Z) (arming : gmap string Trigger) (a : Activation)
| SoDue (now : Z) (limit : nat)
| SoFire (f : Firing) (now : Z)
| SoHasRun (id : string)
| SoTrigger (k : string)
| SoQueued (k : string)
| SoIngested (event : value) (now : Z)
| SoPublish (event : value) (now : Z)
| SoTriggersFor (t : string) (limit : nat)
| SoStopped
| SoNotices (limit : nat)
| SoAcknowledge (k : string)
| SoTriggered (id name : string) (input schedule : value)
| SoSignal
| SoNow
| SoStop
| SoSink (event : value).
(** [Admitter::triggered] gives a run's admission or what a trigger records in its place;
    [SoSink] answers [None] when the worker stopped first. *)
Definition sched_answer (o : sched_op) : Type :=
  match o with
  | SoDefinitions _ => Definitions
  | SoActivate _ _ _ _ _ => option Definitions
  | SoDue _ _ | SoTriggersFor _ _ => list (string * Trigger)
  | SoFire _ _ => Fired
  | SoHasRun _ => bool
  | SoTrigger _ => option Trigger
  | SoQueued _ => option Admission
  | SoIngested _ _ => bool
  | SoPublish _ _ => list string
  | SoStopped | SoStop | SoAcknowledge _ => bool
  | SoNotices _ => list (string * value)
  | SoTriggered _ _ _ _ => result Refused Admission
  | SoSignal => unit
  | SoNow => Z
  | SoSink _ => option (result string unit)
  end.
Inductive sched (A : Type) :=
| SRet (a : A)
| SFail (e : failure)
| SOp (o : sched_op) (k : result failure (sched_answer o) → sched A).
Arguments SRet {A} a.
Arguments SFail {A} e.
Arguments SOp {A} o k.
Fixpoint sched_bind_ {A B} (f : A → sched B) (p : sched A) : sched B :=
  match p with
  | SRet a => f a
  | SFail e => SFail e
  | SOp o k => SOp o (λ x, sched_bind_ f (k x))
  end.
#[export] Instance sched_ret : MRet sched := @SRet.
#[export] Instance sched_bind : MBind sched := @sched_bind_.
(** An operation whose failure is the program's ([?]), and one whose failure it looks at. *)
Definition attempt (o : sched_op) : sched (result failure (sched_answer o)) := SOp o SRet.
Definition or_fail {A} (r : result failure A) : sched A := match r with Ok a => SRet a | Err e => SFail e end.
Definition ask (o : sched_op) : sched (sched_answer o) := SOp o or_fail.
Definition try {A} (r : result string A) : sched A := match r with Ok a => SRet a | Err e => SFail (Failed e) end.
(** What becomes of a program: its failure as a value. *)
Fixpoint caught {A} (p : sched A) : sched (result failure A) :=
  match p with
  | SRet a => SRet (Ok a)
  | SFail e => SRet (Err e)
  | SOp o k => SOp o (λ x, caught (k x))
  end.

(** ** Slots *)

Definition BATCH : nat := 256.
Definition SKIPS_KEPT : nat := 16.
Definition RETRY : string := "retry".
Definition as_i64 (v : value) : option Z := match v with VNum n => Num.as_i64 n | _ => None end.
Definition as_array (v : value) : option (list value) := match v with VArr l => Some l | _ => None end.
(** [v[k] = x] and [remove], of an object. *)
Definition vset (k : string) (x v : value) : value := match v with VObj m => VObj (<[k := x]> m) | _ => v end.
Definition vremove (k : string) (v : value) : value := match v with VObj m => VObj (delete k m) | _ => v end.

(** [key]. *)
Definition trigger_key (name kind : string) : string := name +:+ "#" +:+ kind.
(** [digest]: FNV-1a. *)
Definition digest (text : string) : string :=
  hex16 (foldl (λ h b, Z.lxor h b * 1099511628211 mod 2 ^ 64) 14695981039346656037
           ((λ c, Z.of_N (Ascii.N_of_ascii c)) <$> String.list_ascii_of_string text)).
(** [millis]: at least one. *)
Definition millis_of (nanos : Z) : Z := Z.max (Z.min (as_millis nanos) i64_max) 1.
(** How often each pending notice failed, and when it may be tried again. *)
Abbreviation backoffs := (gmap string (Z * Z)).
(** [next_every]: slots are aligned to the epoch. *)
Definition next_every (every after : Z) : Z := after - after `mod` every + every.

Section with_libraries.
Context `{Host, Libraries, Calendar}.

(** [next_slot]. *)
Definition next_slot (s : Schedule) (kind : string) (after : Z) : result string (option Z) :=
  if decide (kind = "every") then
    match sc_every s with Some every => Ok (Some (next_every (millis_of every) after)) | None => Ok None end
  else if decide (kind = "cron") then
    match sc_cron s with Some c => at_ ← next_cron c (sc_timezone s) after; Ok (Some at_) | None => Ok None end
  else Ok None.
(** [datetime]: an instant chrono cannot hold shows as the epoch. *)
Definition datetime (ms : Z) : value :=
  VObj {[ "iso8601" := VStr (match show_datetime ms with Some s => s | None => default "" (show_datetime 0) end);
          "epoch" := VObj {[ "seconds" := vint (if show_datetime ms then ms / 1000 else 0); "milliseconds" := vint ms ]} ]}.
Definition run_schedule (kind : string) (slot : Z) (previous : option Z) : value :=
  VObj (<["kind" := VStr kind]> (<["slot" := datetime slot]>
    {[ "previous" := match previous with Some p => datetime p | None => VNull end ]})).
(** [previous]: the slot the trigger last started a run for. *)
Definition previous (t : Trigger) : option Z := as_i64 (vindex "previous" (tg_state t)).
(** [active]: the active version's schedule. *)
Definition problems_text (l : list Problem) : string :=
  "invalid workflow:" +:+ bytes [10] +:+ foldr (λ x acc, (if decide (x.1 = O) then "" else bytes [10]) +:+ "  - " +:+
    (if decide (pr_at x.2 = "") then "/" else pr_at x.2) +:+ ": " +:+ pr_message x.2 +:+ acc) "" (numbered l).
Definition parsed (yaml : string) : result string Parsed :=
  match parse_yaml yaml with Ok p => Ok p | Err l => Err (problems_text l) end.
Definition active_schedule (d : Definitions) : sched (option Schedule) :=
  match active d ≫= λ v, versions d !! v with
  | None => mret None
  | Some d => p ← try (parsed (d_yaml d)); mret (pa_schedule p)
  end.
(** [current]. *)
Definition current (d : Definitions) (t : Trigger) : bool :=
  bool_decide (tripped d = None) && bool_decide (vindex "epoch" (tg_state t) = vint (epoch d)).

(** ** Arming *)

(** The state of an armed trigger. *)
Definition armed_state (name kind : string) (epoch_ : Z) (extra : gmap string value) : value :=
  VObj (extra ∪ <["name" := VStr name]> (<["kind" := VStr kind]> {[ "epoch" := vint epoch_ ]})).
Definition armed_time (name : string) (epoch_ : Z) (s : Schedule) (now : Z) (kind : string)
    (out : gmap string Trigger) : result string (gmap string Trigger) :=
  slot ← next_slot s kind now;
  Ok (match slot with
      | Some slot => <[trigger_key name kind := mkTrigger (Some slot) [] (armed_state name kind epoch_ ∅)]> out
      | None => out
      end).
(** [arming]. *)
Definition arming (name yaml : string) (epoch_ now : Z) : result string (gmap string Trigger) :=
  p ← parsed yaml;
  match pa_schedule p with
  | None => Ok ∅
  | Some s =>
      out ← armed_time name epoch_ s now "every" ∅;
      out ← armed_time name epoch_ s now "cron" out;
      let out := match sc_after s with
        | Some _ => <[trigger_key name "after" :=
                        mkTrigger (Some now) [] (armed_state name "after" epoch_ {[ "n" := vint 1 ]})]> out
        | None => out
        end in
      let out := match sc_at s with
        | Some at_ => <[trigger_key name "at" := mkTrigger (Some at_) [] (armed_state name "at" epoch_ ∅)]> out
        | None => out
        end in
      Ok (match sc_on s with
          | Some on => <[trigger_key name "on" :=
              mkTrigger None (routes on no_args) (armed_state name "on" epoch_ {[ "events" := VArr [] ]})]> out
          | None => out
          end)
  end.
(** [activate_armed]: at most sixteen attempts. *)
Fixpoint activate_from (tries : nat) (name : string) (version : Z) (actor note : option string) : sched unit :=
  match tries with
  | O => SFail (Failed ("definition " +:+ name +:+ " changed too often to activate"))
  | S tries =>
      d ← ask (SoDefinitions name);
      v ← try (match versions d !! version with Some v => Ok v | None => Err "unknown definition version" end);
      now ← ask SoNow;
      triggers ← try (arming name (d_yaml v) (epoch d + 1) now);
      done_ ← ask (SoActivate name version (epoch d) triggers (mkActivation now actor note));
      match (done_ : option Definitions) with Some _ => mret () | None => activate_from tries name version actor note end
  end.
Definition activate_armed (name : string) (version : Z) (actor note : option string) : sched unit :=
  activate_from 16 name version actor note.
(** [triggers], [queued]. *)
Fixpoint collect {A B} (f : A → sched (list B)) (l : list A) : sched (list B) :=
  match l with [] => mret [] | x :: l => a ← f x; b ← collect f l; mret (a ++ b) end.
Definition triggers_of (name : string) : sched (list (string * Trigger)) :=
  d ← ask (SoDefinitions name);
  collect (λ k, t ← ask (SoTrigger k); mret (match (t : option Trigger) with Some t => [(k, t)] | None => [] end)) (triggers d).
Definition queued_of (name : string) : sched (list Admission) :=
  d ← ask (SoDefinitions name);
  collect (λ k, a ← ask (SoQueued k); mret (match (a : option Admission) with Some a => [a] | None => [] end)) (triggers d).

(** ** Firing *)

#[export] Instance Catchup_eq_dec : EqDecision Catchup. Proof. solve_decision. Defined.

Section config.
Variable max_concurrent_runs : nat.

(** [moved]. *)
Definition moved (k : string) (t next : Trigger) (busy : option Trigger) : Firing :=
  mkFiring k (Some t) (Some next) [] None None busy None None.
(** [skipped]: the last skips are kept, and all are counted. *)
Definition skipped (t : Trigger) (slot : Z) (reason : string) : Trigger :=
  let record := VObj (<["slot" := vint slot]> (<["reason" := VStr reason]>
    (if decide (reason = "overlap: ceiling") then {[ "overlap" := VStr "ceiling" ]} else ∅))) in
  let skips := default [] (as_array (vindex "skipped" (tg_state t))) ++ [record] in
  t <| tg_state ::= λ st, vset "skips" (vint (default 0 (as_u64 (vindex "skips" (tg_state t))) + 1))
                            (vset "skipped" (VArr (drop (length skips - SKIPS_KEPT) skips)) st) |>.
(** [triggered]: [None] where the definition tripped since. *)
Definition triggered (id name : string) (input schedule : value) : sched (option (result Refused Admission)) :=
  r ← attempt (SoTriggered id name input schedule);
  match (r : result failure (result Refused Admission)) with
  | Ok a => mret (Some a)
  | Err (Tripped _) => mret None
  | Err e => SFail e
  end.
(** [retry_at]: one second, doubled with each failure, at most five minutes. *)
Definition NOTICE_RETRY_MS : Z := 1000.
Definition NOTICE_RETRY_MAX_MS : Z := 300000.
Definition retry_at (now failures : Z) : Z :=
  let delay := Z.min (NOTICE_RETRY_MS * 2 ^ Z.min (Z.max (failures - 1) 0) 20) i64_max in
  sat_add64 now (Z.min delay NOTICE_RETRY_MAX_MS).

(** {n:010} *)
Definition padded10 (n : Z) : string :=
  let s := pretty n in String.concat "" (replicate (10 - String.length s) "0") +:+ s.
(** What a due slot calls for: nothing, a skip, or a run with what the trigger becomes. *)
Inductive plan :=
| Nothing
| Skip (next : Trigger)
| StartRun (id : string) (next busy : Trigger) (rearm : option Rearm).
(** The kinds of [fire], for the slot [slot] of [t], whose retry is over in [t0]. *)
Definition plan_of (s : Schedule) (epoch_ : Z) (k : string) (t0 : Trigger) (name kind : string) (slot now : Z)
    : sched plan :=
  if decide (kind = "every" ∨ kind = "cron") then
    following ← try (next_slot s kind slot);
    match following with
    | None => mret Nothing
    | Some following =>
        at_ ← try (next_slot s kind (Z.max slot now));
        let next := t0 <| tg_at_ms := at_ |> in
        if decide (following ≤ now ∧ sc_catchup s = NoCatchup) then mret (Skip (skipped next slot "missed"))
        else mret (StartRun ("schedule:" +:+ name +:+ ":" +:+ kind +:+ ":" +:+ pretty slot) next next None)
    end
  else if decide (kind = "after") then
    match sc_after s with
    | None => mret Nothing
    | Some after_ =>
        let n := default 1 (as_u64 (vindex "n" (tg_state t0))) in
        mret (StartRun ("schedule:" +:+ name +:+ ":after:" +:+ pretty epoch_ +:+ ":" +:+ padded10 n)
          (t0 <| tg_at_ms := None |> <| tg_state ::= vset "n" (vint (n + 1)) |>)
          (t0 <| tg_at_ms := Some (sat_add64 now (millis_of after_)) |>)
          (Some (mkRearm k (millis_of after_))))
    end
  else if decide (kind = "at") then
    match sc_at s with
    | None => mret Nothing
    | Some _ =>
        let done_ := t0 <| tg_at_ms := None |> <| tg_state ::= vset "done" (VBool true) |> in
        let id := "schedule:" +:+ name +:+ ":at:" +:+ pretty slot in
        ran ← ask (SoHasRun id);
        mret (if (ran : bool) then Skip (skipped done_ slot "already run") else StartRun id done_ done_ None)
    end
  else mret Nothing.
(** [interrupted]: the trigger keeps its slot and is due again after a backoff. *)
Definition interrupted (k : string) (t : Trigger) (slot : Z) (e : string) (now : Z) : sched (option string) :=
  let failures := Z.min (default 0 (as_u64 (vindex "failures" (vindex RETRY (tg_state t)))) + 1) u64_max in
  let retried := t <| tg_at_ms := Some (retry_at now (Z.min failures u32_max)) |>
    <| tg_state ::= vset RETRY (VObj (<["slot" := vint slot]> (<["failures" := vint failures]> {[ "error" := VStr e ]}))) |> in
  _ ← ask (SoFire (mkFiring k (Some t) (Some retried) [] None None None None None) now);
  mret None.
(** A firing with its run or its refusal. *)
Definition with_run (f : Firing) (a : result Refused Admission) (rearm : option Rearm) : Firing :=
  match a with
  | Ok a => mkFiring (fi_key f) (fi_expected f) (fi_next f) [a] rearm (fi_ingress f) (fi_busy f) None (fi_overlap f)
  | Err r => mkFiring (fi_key f) (fi_expected f) (fi_next f) [] None (fi_ingress f) (fi_busy f) (Some r) (fi_overlap f)
  end.
Definition with_guard (f : Firing) (g : OverlapGuard) : Firing :=
  mkFiring (fi_key f) (fi_expected f) (fi_next f) (fi_admit f) (fi_rearm f) (fi_ingress f) (fi_busy f) (fi_refused f)
    (Some g).
(** The slot of a planned run, fired. *)
Definition fire_run (s : Schedule) (k : string) (t : Trigger) (name kind : string) (slot now : Z)
    (id : string) (next busy : Trigger) (rearm : option Rearm) : sched (option string) :=
  let ceiling := skipped busy slot "overlap: ceiling" in
  let busy := skipped busy slot "overlap" in
  r ← caught (triggered id name (VObj ∅) (run_schedule kind slot (previous t)));
  match (r : result failure (option (result Refused Admission))) with
  | Err (Unavailable e) => interrupted k t slot e now
  | Err e => SFail e
  | Ok None => mret None
  | Ok (Some a) =>
      let next := match a, rearm with
        | Err _, Some r => next <| tg_at_ms := Some (sat_add64 now (ra_delay_ms r)) |>
        | _, _ => next
        end in
      let next := next <| tg_state ::= vset "previous" (vint slot) |> in
      let f := with_guard (with_run (moved k t next (Some busy)) a rearm)
                 (mkGuard (sc_overlap s) max_concurrent_runs ceiling) in
      fired ← ask (SoFire f now);
      _ ← (if decide (sc_overlap s = Replace) then ask SoSignal else mret ());
      mret (match (fired : Fired), a with FCommitted, Ok _ => Some id | _, _ => None end)
  end.
(** [fire]: the id of the run it admitted. *)
Definition fire (k : string) (t : Trigger) (now : Z) : sched (option string) :=
  let st := tg_state t in
  let slot := match as_i64 (vindex "slot" (vindex RETRY st)) with Some s => Some s | None => tg_at_ms t end in
  match as_str (vindex "name" st), as_str (vindex "kind" st), slot with
  | Some name, Some kind, Some slot =>
      d ← ask (SoDefinitions name);
      s ← active_schedule d;
      match s with
      | Some s =>
          if current d t then
            p ← plan_of s (epoch d) k (t <| tg_state ::= vremove RETRY |>) name kind slot now;
            match (p : plan) with
            | Nothing => mret None
            | Skip next => _ ← ask (SoFire (moved k t next None) now); mret None
            | StartRun id next busy rearm => fire_run s k t name kind slot now id next busy rearm
            end
          else mret None
      | None => mret None
      end
  | _, _, _ => SFail (Failed ("trigger " +:+ k +:+ " is not a schedule's"))
  end.
(** [fire_due]. *)
Definition fire_due : sched (list string) :=
  now ← ask SoNow;
  due ← ask (SoDue now BATCH);
  collect (λ x : string * Trigger, r ← fire x.1 x.2 now; mret (option_list r)) due.

(** ** Events *)

(** [complete]. *)
Definition complete (event : value) (now : Z) : result string value :=
  match event with
  | VObj e =>
      match list_find (λ k, ¬ Is_true (nonempty_text (e !! k))) ["id"; "source"; "type"] with
      | Some (_, k) => Err ("an event needs `" +:+ k +:+ "`")
      | None =>
          let e := if has "specversion" e then e else <["specversion" := VStr "1.0"]> e in
          Ok (VObj (if has "time" e then e else <["time" := VStr (default "" (show_rfc3339 now))]> e))
      end
  | _ => Err "an event is an object"
  end.
(** [consume]: [None] when the last event is not wanted, [Some None] when the strategy
    is not complete yet. *)
Fixpoint consume_from (s : Strategy) (p : Progress) (consumed : list value) (last_ : Offer) (events : list value)
    : result string (Progress * list value * Offer) :=
  match events with
  | [] => Ok (p, consumed, last_)
  | e :: events =>
      '(o, p) ← Listen.offer s p e VNull no_args;
      if decide (o = Consumed) then
        let consumed := consumed ++ [e] in
        p ← match s with
            | Any _ (Some (Condition c)) =>
                v ← eval c (VArr ((λ e, read_event e ReadData) <$> consumed)) no_args;
                Ok (if truthy v then p <| p_done := true |> else p)
            | _ => Ok p
            end;
        consume_from s p consumed o events
      else consume_from s p consumed o events
  end.
Definition consume (s : Strategy) (events : list value) : result string (option (option (list value))) :=
  '(p, consumed, last_) ← consume_from s (new_progress s) [] Ignored events;
  Ok (if decide (last_ = Ignored) then None else if p_done p then Some (Some consumed) else Some None).
(** Whether a trigger took the event, and the run it started. *)
Inductive taken := TakenNo | TakenYes (run : option string).
(** An event under the same identity. *)
Definition same_event (a b : value) : bool :=
  bool_decide (vget "id" a = vget "id" b) && bool_decide (vget "source" a = vget "source" b).
(** The run of a complete match. *)
Definition match_id (name : string) (matched : list value) : string :=
  "schedule:" +:+ name +:+ ":on:" +:+
  digest (String.concat (bytes [1]) ((λ e, value_to_string (vindex "source" e) +:+ bytes [0] +:+
    value_to_string (vindex "id" e)) <$> matched)).
Definition offer_firing (k : string) (t next : Trigger) (event : value) (a : option (result Refused Admission))
    (overlap : Overlap) (now : Z) : Firing :=
  let busy := skipped next now "overlap" in
  let ceiling := skipped next now "overlap: ceiling" in
  let next := if a then next <| tg_state ::= vset "previous" (vint now) |> else next in
  let f := mkFiring k (Some t) (Some next) [] None (Some event) (Some busy) None
             (Some (mkGuard overlap max_concurrent_runs ceiling)) in
  match a with Some a => with_run f a None | None => f end.
(** What one attempt to offer comes to; [None] where the trigger has changed. *)
Definition offer_once (k : string) (t : Trigger) (event : value) (now : Z) : sched (option taken) :=
  let name := default "" (as_str (vindex "name" (tg_state t))) in
  d ← ask (SoDefinitions name);
  s ← active_schedule d;
  match s ≫= λ s, on ← sc_on s; Some (s, on) with
  | None => mret (Some TakenNo)
  | Some (s, on) =>
      if negb (current d t) then mret (Some TakenNo)
      else
        let held := default [] (as_array (vindex "events" (tg_state t))) in
        if existsb (λ a, same_event a event) held then mret (Some (TakenYes None))
        else
          let matched := held ++ [event] in
          outcome ← try (consume on matched);
          match outcome with
          | None => mret (Some TakenNo)
          | Some outcome =>
              let keep (events : list value) := t <| tg_state ::= vset "events" (VArr events) |> in
              let run := match_id name matched in
              let fire_ next a :=
                fired ← ask (SoFire (offer_firing k t next event a (sc_overlap s) now) now);
                _ ← (if decide (sc_overlap s = Replace) then ask SoSignal else mret ());
                mret (match (fired : Fired) with
                      | FCommitted => Some (TakenYes (match a with Some (Ok _) => Some run | _ => None end))
                      | FIngested | FBusy _ | FQueued | FCeiling => Some (TakenYes None)
                      | FChanged => None
                      end) in
              match outcome with
              | None => fire_ (keep matched) None
              | Some consumed =>
                  a ← triggered run name (VArr ((λ e, read_event e (sc_read s)) <$> consumed))
                        (run_schedule "on" now (previous t));
                  match (a : option (result Refused Admission)) with
                  | None => mret (Some TakenNo)
                  | Some a => fire_ (keep []) (Some a)
                  end
              end
          end
  end.
(** [offer]: at most sixteen attempts. *)
Fixpoint offer_from (tries : nat) (k : string) (t : Trigger) (event : value) (now : Z) : sched taken :=
  match tries with
  | O => SFail (Failed ("trigger " +:+ k +:+ " changed too often to offer an event"))
  | S tries =>
      r ← offer_once k t event now;
      match (r : option taken) with
      | Some r => mret r
      | None =>
          stopped ← ask SoStopped;
          if (stopped : bool) then mret TakenNo
          else
            t ← ask (SoTrigger k);
            match (t : option Trigger) with Some t => offer_from tries k t event now | None => mret TakenNo end
      end
  end.
Definition offer (k : string) (t : Trigger) (event : value) (now : Z) : sched taken := offer_from 16 k t event now.
(** Offered to the triggers of its type in turn, until one takes it. *)
Fixpoint offer_each (l : list (string * Trigger)) (event : value) (now : Z) : sched (list string) :=
  match l with
  | [] => mret []
  | (k, t) :: l =>
      r ← offer k t event now;
      match (r : taken) with TakenYes run => mret (option_list run) | TakenNo => offer_each l event now end
  end.
(** [publish]. *)
Definition publish (event : value) (now : Z) : sched (list string) :=
  ingested ← ask (SoIngested event now);
  reached ← ask (SoPublish event now);
  if (ingested : bool) then mret reached
  else
    l ← ask (SoTriggersFor (default "" (as_str (vindex "type" event))) BATCH);
    started ← offer_each l event now;
    mret (reached ++ started).
Definition publish_event (event : value) : sched (list string) :=
  now ← ask SoNow;
  event ← try (complete event now);
  publish event now.

(** ** Notices *)

Definition NOTICES : nat := 64.
Definition notice_failed (k : string) (b : backoffs) : sched backoffs :=
  now ← ask SoNow;
  let failures := Z.min (default 0 (fst <$> b !! k) + 1) u32_max in
  mret (<[k := (failures, retry_at now failures)]> b).
(** The pending notices in turn, until the worker stops. *)
Fixpoint notify_each (has_sink : bool) (l : list (string * value)) (b : backoffs) (acknowledged : nat)
    : sched (backoffs * nat) :=
  match l with
  | [] => mret (b, acknowledged)
  | (k, event) :: l =>
      stop ← ask SoStop;
      if (stop : bool) then mret (b, acknowledged)
      else
        now ← ask SoNow;
        if is_some_and (b !! k) (λ x, bool_decide (now < x.2)) then notify_each has_sink l b acknowledged
        else
          r ← caught (publish event now);
          match (r : result failure (list string)) with
          | Err (Unavailable _) => b ← notice_failed k b; notify_each has_sink l b acknowledged
          | Err e => SFail e
          | Ok _ =>
              sent ← (if has_sink then ask (SoSink event) else mret (Some (Ok ())));
              match (sent : option (result string unit)) with
              | None => mret (b, acknowledged)
              | Some (Err _) => b ← notice_failed k b; notify_each has_sink l b acknowledged
              | Some (Ok _) =>
                  gone ← ask (SoAcknowledge k);
                  notify_each has_sink l (delete k b) (if (gone : bool) then S acknowledged else acknowledged)
              end
          end
  end.
(** [notify]: the backoffs of notices no longer pending are forgotten first. *)
Definition notify (has_sink : bool) (b : backoffs) : sched (backoffs * nat) :=
  l ← ask (SoNotices NOTICES);
  notify_each has_sink l (filter (λ x : string * (Z * Z), x.1 ∈ l.*1) b) 0.
End config.
End with_libraries.
