(* ===== verification/SchedulesSpec.v ===== *)
(** * What schedules promise

    A program of [Schedules] asks the store, the admitter, the clock and the sink one
    thing at a time, and whatever it is answered is possible: its [trace]s are the
    sequences of questions and answers it can run through, and what it comes to. *)
From stdpp Require Import relations.
From S2P Require Import Prelude Json Keys Outcome Journal Expr Listen Types Store Index Admit Mailbox.
From S2P Require Import Triggers Lifecycle RunStore Logic Steps Preserve Frame Parser TaskParser DocumentParser ParserSpec Samples Schedules.

(** ** Traces *)

Inductive said := Said (o : sched_op) (x : result failure (sched_answer o)).
Fixpoint trace {A} (p : sched A) (l : list said) (r : result failure A) : Prop :=
  match p with
  | SRet a => l = [] ∧ r = Ok a
  | SFail e => l = [] ∧ r = Err e
  | SOp o k => ∃ x l', l = Said o x :: l' ∧ trace (k x) l' r
  end.

Lemma trace_bind {A B} (p : sched A) (f : A → sched B) l r : trace (p ≫= f) l r →
  (∃ a l1 l2, l = l1 ++ l2 ∧ trace p l1 (Ok a) ∧ trace (f a) l2 r) ∨ (∃ e, trace p l (Err e) ∧ r = Err e).
Proof.
  revert l. unfold mbind, sched_bind. induction p as [a|e|o k IH]; intros l; cbn.
  - intros H. left. by exists a, [], l.
  - intros [-> ->]. right. by exists e.
  - intros (x & l' & -> & [(a & l1 & l2 & -> & H1 & H2)|(e & H & ->)]%IH).
    + left. exists a, (Said o x :: l1), l2. split_and!; [done| |done]. eauto.
    + right. exists e. eauto.
Qed.
Lemma trace_ask o l r : trace (ask o) l r → l = [Said o r].
Proof. intros (x & l' & -> & H). by destruct x; destruct H as [-> ->]. Qed.
Lemma trace_attempt o l r : trace (attempt o) l r → ∃ x, l = [Said o x] ∧ r = Ok x.
Proof. intros (x & l' & -> & -> & ->). eauto. Qed.
Lemma trace_try {A} (x : result string A) l r : trace (try x) l r →
  l = [] ∧ ((∃ a, x = Ok a ∧ r = Ok a) ∨ ∃ e, x = Err e ∧ r = Err (Failed e)).
Proof. destruct x; intros [-> ->]; eauto 6. Qed.
Lemma trace_caught {A} (p : sched A) l r : trace (caught p) l r → ∃ x, r = Ok x ∧ trace p l x.
Proof.
  revert l. induction p as [a|e|o k IH]; intros l; cbn; [intros [-> ->]; eauto..|].
  intros (x & l' & -> & (y & -> & H)%IH). eauto 6.
Qed.

Lemma trace_collect {A B} (f : A → sched (list B)) xs l bs : trace (collect f xs) l (Ok bs) →
  ∃ parts, l = concat parts ∧ Forall2 (λ x part, ∃ b, trace (f x) part (Ok b)) xs parts.
Proof.
  revert l bs. induction xs as [|x xs IH]; intros l bs Ht; [destruct Ht as [-> _]; by exists []|].
  cbn [collect] in Ht. apply trace_bind in Ht as [(a & l1 & l2 & -> & Ha & Ht)|(e & _ & ?)]; [|done].
  apply trace_bind in Ht as [(b & l3 & l4 & -> & (parts & -> & Hall)%IH & [-> _])|(e & _ & ?)]; [|done].
  exists (l1 :: parts). split; [by rewrite app_nil_r|]. constructor; eauto.
Qed.

(** What a trace fired, with the answers. *)
Definition fired (s : said) : option (Firing * Z * result failure Fired) :=
  match s with Said (SoFire f now) x => Some (f, now, x) | _ => None end.
Definition firings (l : list said) : list (Firing * Z * result failure Fired) := omap fired l.
(** The runs it asked the admitter for, with the answers. *)
Definition wanted (s : said) : option (string * result failure (result Refused Admission)) :=
  match s with Said (SoTriggered id _ _ _) x => Some (id, x) | _ => None end.
Definition admissions (l : list said) : list (string * result failure (result Refused Admission)) := omap wanted l.
Lemma admissions_app l1 l2 : admissions (l1 ++ l2) = admissions l1 ++ admissions l2.
Proof. apply omap_app. Qed.
Lemma firings_app l1 l2 : firings (l1 ++ l2) = firings l1 ++ firings l2.
Proof. apply omap_app. Qed.

(** Runs a trace through one step of its program. *)
Ltac said_step :=
  match goal with
  | H : trace (mret _) _ _ |- _ => destruct H as [-> H]
  | H : trace (SRet _) _ _ |- _ => destruct H as [-> H]
  | H : trace (SFail _) _ _ |- _ => destruct H as [-> H]
  | H : trace (_ ≫= _) _ _ |- _ =>
      let a := fresh "a" in let l1 := fresh "l" in let l2 := fresh "l" in let e := fresh "e" in
      let H1 := fresh "H" in let H2 := fresh "H" in
      apply trace_bind in H as [(a & l1 & l2 & -> & H1 & H2)|(e & H1 & H2)]
  | H : trace (ask _) _ _ |- _ => apply trace_ask in H as ->
  | H : trace (attempt _) _ _ |- _ => let x := fresh "x" in apply trace_attempt in H as (x & -> & H)
  | H : trace (try _) _ _ |- _ =>
      let a := fresh "a" in let e := fresh "e" in let E := fresh "E" in
      apply trace_try in H as (-> & [(a & E & H)|(e & E & H)])
  | H : trace (caught _) _ _ |- _ => let x := fresh "x" in apply trace_caught in H as (x & -> & H)
  | H : Ok _ = Ok _ |- _ => injection H as H
  | H : Err _ = Err _ |- _ => injection H as H
  | H : Ok _ = Err _ |- _ => discriminate H
  | H : Err _ = Ok _ |- _ => discriminate H
  | H : ?x = ?y |- _ => first [subst x | subst y]
  end.
Ltac said_walk := repeat said_step.

(** ** What a firing keeps of its trigger *)

Lemma vindex_vset_ne k k' x v : k ≠ k' → vindex k (vset k' x v) = vindex k v.
Proof. intros Hk. destruct v; try done. unfold vindex, vget, vset. by rewrite lookup_insert_ne. Qed.
Lemma vindex_vremove_ne k k' v : k ≠ k' → vindex k (vremove k' v) = vindex k v.
Proof. intros Hk. destruct v; try done. unfold vindex, vget, vremove. by rewrite lookup_delete_ne. Qed.
Lemma vindex_vset k x m : vindex k (vset k x (VObj m)) = x.
Proof. unfold vindex, vget, vset. by rewrite lookup_insert_eq. Qed.

(** The skips a trigger remembers. *)
Definition skips_of (t : Trigger) : list value := default [] (as_array (vindex "skipped" (tg_state t))).
(** The same trigger, of the same activation, that remembers no more skips than are kept. *)
Definition same_trigger (t u : Trigger) : Prop :=
  tg_types u = tg_types t ∧
  (∀ k, k ∈ ["name"; "kind"; "epoch"] → vindex k (tg_state u) = vindex k (tg_state t)) ∧
  (length (skips_of u) ≤ Nat.max SKIPS_KEPT (length (skips_of t)))%nat.
(** It is not due at [now]. *)
Definition rests (now : Z) (t : Trigger) : Prop := match tg_at_ms t with Some at_ => now < at_ | None => True end.
Definition settled (now : Z) (t u : Trigger) : Prop := rests now u ∧ same_trigger t u.

#[export] Instance same_trigger_preorder : PreOrder same_trigger.
Proof.
  split.
  - intros t. split_and!; [done|done|lia].
  - intros t u v (Ht & Hs & Hn) (Ht' & Hs' & Hn'). split_and!; [congruence| |lia].
    intros k Hk. by rewrite Hs', Hs.
Qed.
Lemma same_at t u a : same_trigger t u → same_trigger t (u <| tg_at_ms := a |>).
Proof. done. Qed.
Lemma same_set t u k x : k ∉ ["name"; "kind"; "epoch"; "skipped"] → same_trigger t u →
  same_trigger t (u <| tg_state ::= vset k x |>).
Proof.
  rewrite !not_elem_of_cons. intros (Hn & Hk & He & Hs & _) (Ht & Hi & Hl). split_and!; [done| |].
  - intros i H. cbn. rewrite vindex_vset_ne; [by apply Hi|]. rewrite !elem_of_cons, elem_of_nil in H. naive_solver.
  - unfold skips_of. cbn. by rewrite vindex_vset_ne by done.
Qed.
Lemma same_remove t u k : k ∉ ["name"; "kind"; "epoch"; "skipped"] → same_trigger t u →
  same_trigger t (u <| tg_state ::= vremove k |>).
Proof.
  rewrite !not_elem_of_cons. intros (Hn & Hk & He & Hs & _) (Ht & Hi & Hl). split_and!; [done| |].
  - intros i H. cbn. rewrite vindex_vremove_ne; [by apply Hi|]. rewrite !elem_of_cons, elem_of_nil in H. naive_solver.
  - unfold skips_of. cbn. by rewrite vindex_vremove_ne by done.
Qed.
Lemma skipped_state u slot reason : ∃ c l, (length l ≤ SKIPS_KEPT)%nat ∧
  tg_state (skipped u slot reason) = vset "skips" c (vset "skipped" (VArr l) (tg_state u)).
Proof. eexists _, _. split; [|reflexivity]. rewrite length_drop. lia. Qed.
Lemma skips_kept u slot reason :
  (length (skips_of (skipped u slot reason)) ≤ SKIPS_KEPT)%nat ∨ skipped u slot reason = u.
Proof.
  destruct (skipped_state u slot reason) as (c & l & Hl & E). unfold skips_of. rewrite E, vindex_vset_ne by done.
  destruct u as [at_ types st]. destruct st as [| | | | |m]; try (right; reflexivity). left.
  cbn [tg_state]. by rewrite vindex_vset.
Qed.
Lemma same_skipped t u slot reason : same_trigger t u → same_trigger t (skipped u slot reason).
Proof.
  intros H. destruct (skips_kept u slot reason) as [Hk| ->]; [|done].
  destruct H as (Ht & Hi & _). split_and!; [done| |lia].
  intros k Hin. rewrite <- (Hi k Hin). cbn. rewrite !elem_of_cons, elem_of_nil in Hin.
  destruct Hin as [->|[->|[->|[]]]]; by rewrite !vindex_vset_ne.
Qed.
Lemma rests_skipped now u slot reason : rests now u → rests now (skipped u slot reason).
Proof. done. Qed.
Lemma settled_skipped now t u slot reason : settled now t u → settled now t (skipped u slot reason).
Proof. intros [Hr Hs]. split; [exact Hr|by apply same_skipped]. Qed.
Ltac solve_same := repeat first
  [ assumption | reflexivity | apply same_at | apply same_skipped
  | apply same_set; [rewrite !not_elem_of_cons; split_and!; first [done | apply not_elem_of_nil]|]
  | apply same_remove; [rewrite !not_elem_of_cons; split_and!; first [done | apply not_elem_of_nil]|] ].

(** ** Slots *)

Lemma next_every_spec every after : 0 < every →
  after < next_every every after ≤ after + every ∧ (every | next_every every after) ∧
  ∀ slot, (every | slot) → after < slot → next_every every after ≤ slot.
Proof.
  intros He. unfold next_every. pose proof (Z.mod_pos_bound after every He) as Hm.
  pose proof (Z.div_mod after every ltac:(lia)) as Hd.
  assert (after - after `mod` every + every = every * (after `div` every + 1)) as E by lia.
  split_and!; [lia..| |].
  - rewrite E. apply Z.divide_factor_l.
  - intros slot [q ->] Hs. rewrite E, (Z.mul_comm q). apply Z.mul_le_mono_nonneg_l; [lia|].
    assert (after `div` every < q); [|lia]. apply Z.div_lt_upper_bound; lia.
Qed.
Lemma millis_positive d : 0 < millis_of d.
Proof. unfold millis_of. lia. Qed.
(** A retry is after now, by a second at least and five minutes at most. *)
Lemma retry_at_bounds now failures : now < i64_max →
  now < retry_at now failures ∧ retry_at now failures ≤ Z.max i64_min (now + NOTICE_RETRY_MAX_MS) ∧
  (i64_min ≤ now → now + NOTICE_RETRY_MS ≤ i64_max → now + NOTICE_RETRY_MS ≤ retry_at now failures).
Proof.
  intros Hn. unfold retry_at. cbv zeta.
  assert (1 ≤ 2 ^ Z.min (Z.max (failures - 1) 0) 20) as Hp.
  { change 1 with (2 ^ 0). apply Z.pow_le_mono_r; lia. }
  assert (NOTICE_RETRY_MS ≤ Z.min (NOTICE_RETRY_MS * 2 ^ Z.min (Z.max (failures - 1) 0) 20) i64_max) as Hd.
  { unfold NOTICE_RETRY_MS, i64_max in *. lia. }
  unfold sat_add64, clamp, NOTICE_RETRY_MAX_MS, NOTICE_RETRY_MS, i64_max, i64_min in *. lia.
Qed.
Lemma sat_add64_later now d : now < i64_max → 0 < d → now < sat_add64 now d.
Proof. unfold sat_add64, clamp, i64_max, i64_min. lia. Qed.

Section slots.
Context `{Host, Libraries, Calendar}.
Variable max_concurrent_runs : nat.
(** An occurrence of an expression is after the instant it is asked for. *)
Hypothesis next_cron_later : ∀ c zone after at_, next_cron c zone after = Ok at_ → after < at_.

Lemma next_slot_later s kind after at_ : next_slot s kind after = Ok (Some at_) → after < at_.
Proof.
  unfold next_slot. case_decide.
  - destruct (sc_every s) as [e|]; [|done]. intros [= <-].
    destruct (next_every_spec (millis_of e) after (millis_positive e)) as [Hl _]. lia.
  - case_decide; [|done]. destruct (sc_cron s) as [c|]; [|done].
    destruct (next_cron c (sc_timezone s) after) as [a|e] eqn:E; [|done]. intros [= <-]. by eapply next_cron_later.
Qed.

(** The run a slot of [t] starts: of the slot itself, or for [after] the n-th of the epoch. *)
Definition slot_run (epoch_ : Z) (t : Trigger) (name kind : string) (slot : Z) : string :=
  if decide (kind = "after")
  then "schedule:" +:+ name +:+ ":after:" +:+ pretty epoch_ +:+ ":" +:+
         padded10 (default 1 (Json.as_u64 (vindex "n" (tg_state t))))
  else "schedule:" +:+ name +:+ ":" +:+ kind +:+ ":" +:+ pretty slot.
Definition planned (epoch_ : Z) (k : string) (t : Trigger) (name kind : string) (slot now : Z) (p : plan) : Prop :=
  match p with
  | Nothing => True
  | Skip next => settled now t next
  | StartRun id next busy rearm =>
      id = slot_run epoch_ t name kind slot ∧ settled now t next ∧ settled now t busy ∧
      ∀ r, rearm = Some r → ra_trigger r = k ∧ 0 < ra_delay_ms r
  end.
Lemma plan_of_spec s epoch_ k t name kind slot now l r : now < i64_max →
  trace (plan_of s epoch_ k t name kind slot now) l r →
  firings l = [] ∧ admissions l = [] ∧
  match r with Ok p => planned epoch_ k t name kind slot now p | Err _ => True end.
Proof.
  intros Hn. unfold plan_of, planned. case_decide as Hk; [|case_decide as Hk1; [|case_decide as Hk2]].
  - assert (kind ≠ "after") as Ha by by destruct Hk; subst.
    intros Ht. said_walk; try done. case_match; said_walk; try done.
    match goal with E : next_slot s kind (Z.max slot now) = Ok ?x |- _ => rename E into Hlater; rename x into at_ end.
    assert (rests now (t <| tg_at_ms := at_ |>)) as Hr.
    { destruct at_ as [next_|]; [|done]. apply next_slot_later in Hlater. change (now < next_). lia. }
    assert (settled now t (t <| tg_at_ms := at_ |>)) as Hs by (split; [done|solve_same]).
    case_decide; said_walk; (split; [done|]; split; [done|]).
    + by apply settled_skipped.
    + split; [unfold slot_run; by rewrite decide_False|]. by split_and!.
  - intros Ht. subst kind. destruct (sc_after s) as [after_|]; said_walk; (split; [done|]; split; [done|]); [|done].
    split; [done|]; split; [|split].
    + split; [done|solve_same].
    + split; [|solve_same]. apply sat_add64_later; [done|apply millis_positive].
    + intros ? [= <-]. split; [done|apply millis_positive].
  - intros Ht. subst kind. destruct (sc_at s) as [at_|]; said_walk; try done.
    assert (settled now t (t <| tg_at_ms := None |> <| tg_state ::= vset "done" (VBool true) |>)) as Hs.
    { split; [done|solve_same]. }
    match goal with ran : bool |- _ => destruct ran end; (split; [done|]; split; [done|]).
    + by apply settled_skipped.
    + split; [done|]. by split_and!.
  - intros Ht. by said_walk.
Qed.

(** What a firing stores, whatever the store decides. *)
Definition outcomes (f : Firing) : list Trigger :=
  option_list (fi_next f) ++ option_list (fi_busy f) ++ option_list (og_ceiling <$> fi_overlap f).
(** A firing of the slot [t] is due for: it swaps [t] for one that rests, with at most one run. *)
Definition slot_firing (k : string) (t : Trigger) (now : Z) (f : Firing) : Prop :=
  fi_key f = k ∧ fi_expected f = Some t ∧ fi_ingress f = None ∧ is_Some (fi_next f) ∧
  (length (fi_admit f) ≤ 1)%nat ∧ ∀ u, u ∈ outcomes f → settled now t u.
Lemma moved_firing k t next now : settled now t next → slot_firing k t now (moved k t next None).
Proof.
  intros Hs. split_and!; try done; try (cbn; lia). intros u. cbn. by intros ->%list_elem_of_singleton.
Qed.
Lemma same_without_retry t : same_trigger t (t <| tg_state ::= vremove RETRY |>).
Proof. solve_same. Qed.
Lemma settled_of now t t0 u : same_trigger t t0 → settled now t0 u → settled now t u.
Proof. intros Hs [Hr Ht]. split; [done|by etrans]. Qed.

Lemma run_firing k t next busy ceiling a rearm policy now :
  settled now t next → settled now t busy → settled now t ceiling →
  slot_firing k t now (with_guard (with_run (moved k t next (Some busy)) a rearm)
    (mkGuard policy max_concurrent_runs ceiling)).
Proof.
  intros Hn Hb Hc. destruct a; (split_and!; try done; try (cbn; lia)); intros u; cbn;
    rewrite !elem_of_cons, elem_of_nil; by intros [->|[->|[->|[]]]].
Qed.
Lemma interrupted_spec k t slot e now l r : now < i64_max → trace (interrupted k t slot e now) l r →
  ∃ f x, firings l = [(f, now, x)] ∧ slot_firing k t now f ∧ admissions l = [].
Proof.
  intros Hn Ht. unfold interrupted in Ht. cbv zeta in Ht. said_walk; (do 2 eexists; split; [reflexivity|]; split; [|done]);
    (apply (moved_firing k t); split; [by apply retry_at_bounds|solve_same]).
Qed.
Lemma trace_triggered id name input c l r : trace (triggered id name input c) l r →
  ∃ x, l = [Said (SoTriggered id name input c) x] ∧
    r = match x with Ok a => Ok (Some a) | Err (Tripped _) => Ok None | Err e => Err e end.
Proof. unfold triggered. intros Ht. said_walk; (exists x; split; [by destruct x as [|[]]; said_walk|]); by destruct x as [|[]]; said_walk. Qed.
Lemma fire_run_spec s k t name kind slot now id next busy rearm l r :
  now < i64_max → settled now t next → settled now t busy → (∀ r, rearm = Some r → 0 < ra_delay_ms r) →
  trace (fire_run max_concurrent_runs s k t name kind slot now id next busy rearm) l r →
  ∃ a, admissions l = [(id, a)] ∧
    ((∃ f x, firings l = [(f, now, x)] ∧ slot_firing k t now f) ∨
     (firings l = [] ∧ ((∃ t, a = Err (Tripped t)) ∨ ∃ e, r = Err e))).
Proof.
  intros Hn Hx Hb Hr Ht. unfold fire_run in Ht. cbv zeta in Ht.
  apply trace_bind in Ht as [(a & l1 & l2 & -> & Ha & Ht)|(e & Ha & ->)];
    apply trace_caught in Ha as (x & [= ->] & (y & -> & Ex)%trace_triggered).
  exists y. destruct y as [y|[e|t'|e]]; subst x.
  - set (next' := (match y with Ok _ => next | Err _ => _ end) <| tg_state ::= vset "previous" (vint slot) |>) in Ht.
    assert (settled now t next') as Hs.
    { destruct Hx as [Hx Hx'], y, rearm as [r'|]; (split; [|solve_same]); try done.
      apply sat_add64_later; [done|by apply Hr]. }
    pose proof (run_firing k t next' _ _ y rearm (sc_overlap s) now Hs (settled_skipped _ _ _ slot "overlap" Hb)
      (settled_skipped _ _ _ slot "overlap: ceiling" Hb)) as Hf.
    said_walk; try case_decide; said_walk; (split; [done|]); left; eauto.
  - rename select (trace (interrupted _ _ _ _ _) _ _) into Hi.
    apply interrupted_spec in Hi as (f & z & Ef & Hf & Ea); [|done].
    rewrite admissions_app, firings_app, Ea, Ef. split; [done|left; eauto].
  - said_walk. split; [done|right]. split; [done|eauto].
  - said_walk. split; [done|right]. split; [done|eauto].
Qed.

(** The slot a trigger is due for, and the run it starts, as the trigger's state says. *)
Definition due_run (t : Trigger) (id : string) : Prop :=
  ∃ name kind slot epoch_,
    vindex "name" (tg_state t) = VStr name ∧ vindex "kind" (tg_state t) = VStr kind ∧
    vindex "epoch" (tg_state t) = vint epoch_ ∧
    (as_i64 (vindex "slot" (vindex RETRY (tg_state t))) = Some slot ∨ tg_at_ms t = Some slot) ∧
    id = slot_run epoch_ t name kind slot.
(** Why a due trigger is not fired: it is of an earlier epoch or its definition tripped
    or has no such schedule any more. *)
Definition armed_kind (s : Schedule) (kind : string) : Prop :=
  (kind = "every" ∧ is_Some (sc_every s)) ∨ (kind = "cron" ∧ is_Some (sc_cron s)) ∨
  (kind = "after" ∧ is_Some (sc_after s)) ∨ (kind = "at" ∧ is_Some (sc_at s)).
Definition stale (d : Definitions) (t : Trigger) : Prop :=
  current d t = false ∨ active_schedule d = SRet None ∨
  ∃ s kind, active_schedule d = SRet (Some s) ∧ vindex "kind" (tg_state t) = VStr kind ∧ ¬ armed_kind s kind.
Definition excused (t : Trigger) (l : list said) : Prop :=
  (∃ name d, Said (SoDefinitions name) (Ok d) ∈ l ∧ stale d t) ∨
  ∃ id e, (id, Err (Tripped e)) ∈ admissions l.
Definition fired_slot (k : string) (t : Trigger) (now : Z) (l : list said) : Prop :=
  ∃ f x, firings l = [(f, now, x)] ∧ slot_firing k t now f.

Lemma active_schedule_ret d l r : trace (active_schedule d) l r →
  l = [] ∧ match r with Ok s => active_schedule d = SRet s | Err _ => True end.
Proof.
  unfold active_schedule. destruct (active d ≫= _) as [v|]; [|intros Ht; by said_walk].
  intros Ht. destruct (parsed (d_yaml v)) as [p|e]; cbn in Ht; by destruct Ht as [-> ->].
Qed.
Lemma plan_nothing s epoch_ k t name kind slot now l :
  trace (plan_of s epoch_ k t name kind slot now) l (Ok Nothing) → ¬ armed_kind s kind.
Proof.
  unfold plan_of, armed_kind. intros Ht Ha. case_decide as Hk; [|case_decide as Hk1; [|case_decide as Hk2]].
  - said_walk. case_match; said_walk.
    + by case_decide; said_walk.
    + rename select (next_slot _ _ _ = _) into E. unfold next_slot in E.
      destruct Hk as [-> | ->]; cbn in E.
      * destruct Ha as [[_ [e He]]|[[? _]|[[? _]|[? _]]]]; try done. by rewrite He in E.
      * destruct Ha as [[? _]|[[_ [c Hc]]|[[? _]|[? _]]]]; try done. rewrite Hc in E.
        by destruct (next_cron _ _ _).
  - subst. destruct Ha as [[? _]|[[? _]|[[_ [c Hc]]|[? _]]]]; try done. rewrite Hc in Ht. by said_walk.
  - subst. destruct Ha as [[? _]|[[? _]|[[? _]|[_ [c Hc]]]]]; try done. rewrite Hc in Ht. said_walk.
    by destruct a.
  - naive_solver.
Qed.
Definition firing_spec (k : string) (t : Trigger) (now : Z) {A} (l : list said) (r : result failure A) : Prop :=
  (firings l = [] ∨ fired_slot k t now l) ∧ (∀ id a, (id, a) ∈ admissions l → due_run t id) ∧
  (is_ok r = true → fired_slot k t now l ∨ excused t l).
Lemma idle_spec k t now {A} l (r : result failure A) : firings l = [] → admissions l = [] →
  (is_ok r = true → excused t l) → firing_spec k t now l r.
Proof. intros Hf Ha He. split_and!; [by left|intros id a; rewrite Ha; by intros ?%elem_of_nil|auto]. Qed.
Lemma swap_spec k t t0 next now {A} l0 x (r : result failure A) : firings l0 = [] → admissions l0 = [] →
  same_trigger t t0 → settled now t0 next →
  firing_spec k t now (l0 ++ [Said (SoFire (moved k t next None) now) x]) r.
Proof.
  intros Hf Ha Hs Hn.
  assert (fired_slot k t now (l0 ++ [Said (SoFire (moved k t next None) now) x])) as H'.
  { do 2 eexists. rewrite firings_app, Hf. split; [reflexivity|]. eapply moved_firing, settled_of; eassumption. }
  split_and!; [by right| |by left]. intros id a. rewrite admissions_app, Ha. by intros ?%elem_of_nil.
Qed.
Lemma slot_run_state epoch_ t u name kind slot : vindex "n" (tg_state t) = vindex "n" (tg_state u) →
  slot_run epoch_ t name kind slot = slot_run epoch_ u name kind slot.
Proof. unfold slot_run. by intros ->. Qed.
Lemma as_str_some v s : as_str v = Some s → v = VStr s.
Proof. by destruct v; intros [= ->]. Qed.
Lemma fire_spec k t now l r : now < i64_max → trace (Schedules.fire max_concurrent_runs k t now) l r →
  firing_spec k t now l r.
Proof.
  intros Hn Ht. unfold Schedules.fire in Ht. cbv zeta in Ht.
  destruct (as_str (vindex "name" _)) as [name|] eqn:En; [|said_walk; by apply idle_spec].
  destruct (as_str (vindex "kind" _)) as [kind|] eqn:Ek; [|said_walk; by apply idle_spec].
  destruct (match as_i64 _ with Some s => _ | None => _ end) as [slot|] eqn:Eslot; [|said_walk; by apply idle_spec].
  apply as_str_some in En, Ek.
  apply trace_bind in Ht as [(d & l1 & l2 & -> & ->%trace_ask & Ht)|(e & ->%trace_ask & ->)]; [|by apply idle_spec].
  apply trace_bind in Ht as [(s & l1 & l3 & -> & [-> Es]%active_schedule_ret & Ht)|(e & [-> _]%active_schedule_ret & ->)];
    [|by apply idle_spec].
  destruct s as [s|].
  2:{ said_walk. apply idle_spec; [done..|]. intros _. left. exists name, d. split; [left|by right; left]. }
  destruct (current d t) eqn:Ec.
  2:{ said_walk. apply idle_spec; [done..|]. intros _. left. exists name, d. split; [left|by left]. }
  apply trace_bind in Ht as [(p & l1 & l2 & -> & Hp & Ht)|(e & Hp & ->)];
    pose proof (plan_of_spec _ _ _ _ _ _ _ _ _ _ Hn Hp) as (Hf & Ha & Hs).
  2:{ by apply idle_spec. }
  destruct p as [|next|id next busy rearm].
  - apply plan_nothing in Hp. said_walk. rewrite app_nil_r. apply idle_spec; [done..|]. intros _. left. exists name, d.
    split; [left|]. right. right. by exists s, kind.
  - assert (firing_spec k t now (Said (SoDefinitions name) (Ok d) :: l1 ++ l2) r) as Hgoal; [|done].
    assert (∃ x, l2 = [Said (SoFire (moved k t next None) now) x]) as [x ->].
    { said_walk; eauto. }
    rewrite app_comm_cons. eapply swap_spec; [done|done|apply same_without_retry|done].
  - destruct Hs as (-> & Hnext & Hbusy & Hr).
    apply fire_run_spec in Ht as (a & Ea & Hfire); [|done| | |intros; by apply Hr];
      [|by eapply settled_of; [apply same_without_retry|]..].
    assert (firings (Said (SoDefinitions name) (Ok d) :: l1 ++ l2) = firings l2) as E1.
    { change (firings (l1 ++ l2) = firings l2). by rewrite firings_app, Hf. }
    assert (admissions (Said (SoDefinitions name) (Ok d) :: l1 ++ l2) = admissions l2) as E2.
    { change (admissions (l1 ++ l2) = admissions l2). by rewrite admissions_app, Ha. }
    unfold firing_spec, fired_slot, excused. cbn [app]. rewrite E1, E2, Ea. split_and!.
    + destruct Hfire as [Hfire|[Hfire _]]; [by right|by left].
    + intros id b [= -> _]%list_elem_of_singleton. exists name, kind, slot, (epoch d).
      split_and!; try done.
      * unfold current in Ec. apply andb_true_iff in Ec as [_ Ec%bool_decide_eq_true]. done.
      * destruct (as_i64 _) as [s'|]; [left; congruence|by right].
      * by apply slot_run_state, (vindex_vremove_ne "n" RETRY (tg_state t)).
    + intros Hok. destruct Hfire as [Hfire|[_ [[t' ->]|[e ->]]]]; [by left| |done].
      right. right. exists (slot_run (epoch d) (t <| tg_state ::= vremove RETRY |>) name kind slot), t'. left.
Qed.
End slots.

(** ** What the store does with a firing *)

(** The triggers are those before, or fewer. *)
Definition thinned : relation rows := λ r r', ∀ k, r' !! ("trigger", k) = r !! ("trigger", k) ∨ r' !! ("trigger", k) = None.
#[export] Instance thinned_preorder : PreOrder thinned.
Proof.
  split; [by left|]. intros a b c H1 H2 k. destruct (H2 k) as [->|]; [apply H1|by right].
Qed.
Lemma thinned_put_cell kind id c : kind ≠ "trigger" → stable thinned (put_cell kind id c).
Proof. intros Hk r. apply wp_put_cell. intros k. left. by rewrite lookup_insert_ne by congruence. Qed.
Lemma thinned_put {T} `{Row T} kind id (x : T) : kind ≠ "trigger" → stable thinned (put kind id x).
Proof. apply thinned_put_cell. Qed.
Lemma thinned_delete_row kind id : stable thinned (delete_row kind id).
Proof.
  intros r. apply wp_delete_row. intros k. destruct (decide ((kind, id) = ("trigger", k))) as [->|Hk].
  - right. by rewrite lookup_delete_eq.
  - left. by rewrite lookup_delete_ne.
Qed.
Lemma not_trigger kind : family kind ≠ "trigger" → kind ≠ "trigger".
Proof. by intros Hf ->. Qed.
Lemma thinned_store_run s : stable thinned (store_run s).
Proof.
  unfold store_run. apply stable_bind; [apply stable_find_run|]. intros old.
  apply stable_store_run_indexed; intros; [apply thinned_put_cell|apply thinned_delete_row|by apply thinned_put_cell].
  by intros ->.
Qed.
#[local] Hint Resolve thinned_delete_row thinned_store_run : stable.
#[local] Hint Extern 1 (stable thinned (put _ _ _)) => (apply thinned_put; done) : stable.
#[local] Hint Extern 1 (stable thinned (put_cell _ _ _)) => (apply thinned_put_cell; done) : stable.
Lemma thinned_store_definitions name d : stable thinned (store_definitions name d).
Proof. unfold store_definitions. solve_stable. Qed.
#[local] Hint Resolve thinned_store_definitions : stable.
Lemma thinned_store_trigger k t : stable thinned (store_trigger k t None).
Proof.
  unfold store_trigger. apply stable_bind; [|intros; solve_stable].
  apply stable_changes; [|intros; apply thinned_delete_row]. intros kind id c Hc. cbn [opt_trigger_indexes] in Hc.
  by rewrite lookup_empty in Hc.
Qed.
#[local] Hint Resolve thinned_store_trigger : stable.
(** A definition whose breaker trips loses its triggers; nothing else changes one. *)
Lemma thinned_disarm d : stable thinned (arm d ∅).
Proof.
  unfold arm, remove_queue. assert (entries (∅ : gmap string Trigger) = []) as -> by reflexivity. cbn [for_each].
  solve_stable.
Qed.
#[local] Hint Resolve thinned_disarm : stable.
Section firing.
Context `{Host}.
Variable policy : Policy.
Lemma thinned_breaker r fault success default_ now : stable thinned (Triggers.breaker r fault success default_ now).
Proof. unfold Triggers.breaker. solve_stable. Qed.
Hint Resolve thinned_breaker : stable.
Lemma thinned_refuse refused now : stable thinned (refuse refused now).
Proof. unfold refuse, admitted. solve_stable. Qed.
Lemma thinned_admit_firing k a rearm next now : stable thinned (admit_firing k a rearm next now).
Proof. unfold admit_firing, insert_run, admitted. solve_stable. Qed.
Hint Resolve thinned_refuse thinned_admit_firing : stable.

(** The trigger stored under [k], if any, is among [l]. *)
Definition stored_among (r : rows) (k : string) (l : list Trigger) : Prop :=
  ∀ c, r !! ("trigger", k) = Some c → ∃ u, of_cell c = Some u ∧ u ∈ l.
Lemma among_thinned r r' k l : thinned r r' → stored_among r k l → stored_among r' k l.
Proof. intros Ht Hs c Hc. destruct (Ht k) as [E|E]; rewrite E in Hc; [by apply Hs|done]. Qed.
Lemma wp_store_trigger k before u l r : u ∈ l →
  wp (store_trigger k before (Some u)) (λ _ r', stored_among r' k l) r.
Proof.
  intros Hu. unfold store_trigger. apply wp_bind, wp_exec_intro. intros _ r1 _. apply wp_put.
  intros c. rewrite lookup_insert_eq. intros [= <-]. eauto using of_to_cell.
Qed.
(** What a transaction answers, whatever the rows. *)
Definition ends {A} (P : A → Prop) (p : prog A) : Prop := ∀ r, wp p (λ a _, P a) r.
Lemma ends_after {A B} P (p : prog A) (f : A → prog B) : (∀ a, ends P (f a)) → ends P (p ≫= f).
Proof. intros Hf r. apply wp_bind, wp_exec_intro. intros a r' _. apply Hf. Qed.
Lemma ends_ensure {B} P b e (f : unit → prog B) : (b = true → ends P (f tt)) → ends P (ensure b e ≫= f).
Proof. intros Hf r. apply wp_bind, wp_ensure. intros Hb. by apply Hf. Qed.
Lemma ends_with {A} (P : A → Prop) a : P a → ends P (mret a).
Proof. intros Ha r. by apply wp_ret. Qed.
Lemma ends_failed {A} (P : A → Prop) e : ends P (PFail e).
Proof. intros r. apply wp_fail. Qed.
Ltac solve_ends := repeat match goal with
  | |- ends _ (ensure _ _ ≫= _) => apply ends_ensure; intros
  | |- ends _ (_ ≫= _) => apply ends_after; intros
  | |- ends _ (mret _) => apply ends_with
  | |- ends _ (PFail _) => apply ends_failed
  | |- ends _ (match ?x with _ => _ end) => destruct x eqn:?
  end; cbn beta iota.

Definition decides (f : Firing) (d : Fired * option Trigger) : Prop := ∃ u, d.2 = Some u ∧ u ∈ outcomes f.
Lemma decides_next f x : is_Some (fi_next f) → decides f (x, fi_next f).
Proof. intros [u Hu]. exists u. unfold outcomes. rewrite Hu. split; [done|left]. Qed.
Lemma decides_busy f x : is_Some (fi_busy f) → decides f (x, fi_busy f).
Proof. intros [u Hu]. exists u. unfold outcomes. rewrite Hu, !elem_of_app. split; [done|]. right. left. left. Qed.
Lemma decides_ceiling f x g : fi_overlap f = Some g → decides f (x, Some (og_ceiling g)).
Proof.
  intros Hg. exists (og_ceiling g). unfold outcomes. rewrite Hg, !elem_of_app. split; [done|]. right. right. left.
Qed.
Lemma ends_exclusive f : is_Some (fi_next f) → ends (decides f) (exclusive_decision f).
Proof.
  intros Hn. unfold exclusive_decision. destruct (fi_busy f) as [busy|] eqn:Hb; solve_ends; try by apply decides_next.
  rewrite <- Hb. apply decides_busy. by rewrite Hb.
Qed.
Lemma ends_overlap fuel f g a now : is_Some (fi_next f) → fi_overlap f = Some g →
  ends (decides f) (overlap_decision fuel f g a now).
Proof.
  intros Hn Hg. unfold overlap_decision. solve_ends; auto using decides_next, decides_ceiling.
  apply decides_busy. rename select (bool_decide (_ ∧ _) = true) into Hb.
  by apply bool_decide_eq_true in Hb as [_ Hb].
Qed.
Lemma ends_decision fuel f now : is_Some (fi_next f) → ends (decides f) (decision fuel f now).
Proof.
  intros Hn. unfold decision. destruct (fi_overlap f) as [g|] eqn:Hg; [destruct (candidate f)|]; solve_ends;
    auto using ends_exclusive, ends_overlap.
Qed.
(** A firing that took effect left its trigger as one of its outcomes, or the definition
    tripped and it is gone. *)
Lemma wp_fire_checked fuel f current now r : is_Some (fi_next f) →
  wp (fire_checked fuel f current now policy)
    (λ x r', x = FIngested ∨ stored_among r' (fi_key f) (outcomes f)) r.
Proof.
  intros Hn. unfold fire_checked. apply wp_bind, wp_exec_intro. intros used r1 _.
  destruct used; [apply wp_ret; by left|]. apply wp_bind.
  eapply wp_mono; [by apply ends_decision|]. intros [x next] r2 (u & Hd & Hu). cbn in Hd. subst next. cbn beta iota.
  apply wp_bind, wp_exec_intro. intros used r3 _. destruct used; [apply wp_ret; by left|].
  apply wp_bind. eapply wp_mono; [by apply wp_store_trigger|]. intros [] r4 Hs. cbn beta in Hs |- *.
  match goal with |- wp ?p _ _ => assert (stable thinned p) as Hp by solve_stable end.
  eapply wp_mono; [apply Hp|]. intros y r5 Ht. right. exact (among_thinned _ _ _ _ Ht Hs).
Qed.
Lemma wp_fire_tx fuel f now r : is_Some (fi_next f) →
  wp (fire_tx policy fuel f now)
    (λ x r', match x with
             | Ok FChanged | Ok FIngested | Err _ => True
             | Ok _ => stored_among r' (fi_key f) (outcomes f)
             end) r.
Proof.
  intros Hn. unfold fire_tx, Lifecycle.fire. apply wp_bind, wp_exec_intro. intros stopped r1 _.
  destruct stopped; [by apply wp_ret|]. apply wp_bind, wp_ensure. intros _.
  apply wp_bind, wp_exec_intro. intros drained r2 _. apply wp_bind, wp_exec_intro. intros current r3 _.
  case_decide; [by apply wp_ret|]. apply wp_bind, wp_exec_intro. intros refused r4 _.
  destruct refused; [by apply wp_ret|]. apply wp_bind. eapply wp_mono; [by apply wp_fire_checked|].
  intros x r5 [->|Hs]; apply wp_ret; [done|]. by destruct x.
Qed.
End firing.

(** ** Firing *)

Section properties.
Context `{Host, Libraries, Calendar}.
Variable max_concurrent_runs : nat.
Hypothesis next_cron_later : ∀ c zone after at_, next_cron c zone after = Ok at_ → after < at_.

(** a due slot is fired once and its trigger moves on. Whatever a firing of [t] is
    answered, it asks the admitter only for the run of the slot [t] is due for, swaps [t]
    at most once, and for a trigger of the same definition, kind and activation that is
    not due now and remembers a bounded number of skips; and if the store takes the swap,
    whatever its overlap policy decides, that is what it then holds under the key, unless
    the definition's breaker tripped and it holds nothing. *)
Theorem slot_moves_on k t now l r :
  now < i64_max → trace (Schedules.fire max_concurrent_runs k t now) l r →
  (length (firings l) ≤ 1)%nat ∧
  (∀ id a, (id, a) ∈ admissions l → due_run t id) ∧
  ∀ f at_ x, (f, at_, x) ∈ firings l →
    at_ = now ∧ slot_firing k t now f ∧
    ∀ policy fuel rows_ d rows',
      exec (fire_tx policy fuel f now) rows_ = Ok (Ok d, rows') → d ≠ FChanged → d ≠ FIngested →
      ∀ c, rows' !! ("trigger", k) = Some c → ∃ u, of_cell c = Some u ∧ settled now t u.
Proof.
  intros Hn Ht. apply (fire_spec max_concurrent_runs next_cron_later) in Ht as (Hf & Ha & _); [|done].
  split_and!; [|exact Ha|].
  - destruct Hf as [->|(f & x & -> & _)]; cbn; lia.
  - destruct Hf as [->|(f' & x' & -> & Hf)]; [by intros f at_ x ?%elem_of_nil|].
    intros f at_ x Hin. apply list_elem_of_singleton in Hin. injection Hin as -> -> ->.
    split; [done|split; [done|]].
    intros policy fuel rows_ d rows' E Hd Hd' c Hc. pose proof Hf as (Hk & _ & _ & Hnext & _ & Hout).
    pose proof (wp_exec _ _ _ _ _ (wp_fire_tx policy fuel f' now rows_ Hnext) E) as Hs.
    destruct d; try done; cbn beta iota in Hs; rewrite Hk in Hs; destruct (Hs c Hc) as (u & Hu & Hin); eauto.
Qed.

(** C29: no due slot is passed over. When [fire_due] comes to an end, every trigger the
    store listed as due had its slot fired, in the order of the list, but for those of
    another activation, of a tripped definition or of a schedule that has no such kind. *)
Theorem due_slots_are_fired l ids :
  trace (fire_due max_concurrent_runs) l (Ok ids) →
  ∃ now due parts,
    l = Said SoNow (Ok now) :: Said (SoDue now BATCH) (Ok due) :: concat parts ∧
    (now < i64_max →
     Forall2 (λ (x : string * Trigger) part, fired_slot x.1 x.2 now part ∨ excused x.2 part) due parts).
Proof.
  unfold fire_due. intros Ht.
  apply trace_bind in Ht as [(now & l1 & l2 & -> & ->%trace_ask & Ht)|(e & _ & ?)]; [|done].
  apply trace_bind in Ht as [(due & l1 & l3 & -> & ->%trace_ask & Ht)|(e & _ & ?)]; [|done].
  apply trace_collect in Ht as (parts & -> & Hall). exists now, due, parts. split; [done|]. intros Hn.
  eapply Forall2_impl; [exact Hall|]. intros [k t] part (a & Ha). cbn [fst snd] in *.
  apply trace_bind in Ha as [(r & l1 & l2 & -> & Hr & Ha)|(e & _ & ?)]; [|done]. destruct Ha as [-> _].
  rewrite app_nil_r.
  by apply (fire_spec max_concurrent_runs next_cron_later) in Hr as (_ & _ & Hok); [apply Hok|].
Qed.
End properties.

(** ** Events *)

Section events.
Context `{Host, Libraries, Calendar}.
Variable max_concurrent_runs : nat.

(** The events an [on] trigger has matched so far. *)
Definition held (t : Trigger) : list value := default [] (as_array (vindex "events" (tg_state t))).
(** What the strategy makes of the events of a firing: kept while the match is partial,
    and replaced by a run, admitted or refused, once it is complete. *)
Definition matched_by (t : Trigger) (event : value) (f : Firing) : Prop :=
  existsb (λ a, same_event a event) (held t) = false ∧
  ∃ on, match consume on (held t ++ [event]) with
        | Ok (Some None) => candidate f = None ∧ ∀ u, u ∈ outcomes f → held u = held t ++ [event]
        | Ok (Some (Some _)) => is_Some (candidate f) ∧ ∀ u, u ∈ outcomes f → held u = []
        | _ => False
        end.
Definition event_firing (k : string) (t : Trigger) (event : value) (f : Firing) : Prop :=
  fi_key f = k ∧ fi_expected f = Some t ∧ fi_ingress f = Some event ∧ is_Some (fi_next f) ∧
  (length (fi_admit f) ≤ 1)%nat ∧
  (∀ u, u ∈ outcomes f → tg_at_ms u = tg_at_ms t ∧ same_trigger t u) ∧ matched_by t event f.

Lemma current_object d t : current d t = true → ∃ m, tg_state t = VObj m.
Proof.
  unfold current. intros [_ Hc%bool_decide_eq_true]%andb_true_iff. destruct (tg_state t) as [| | | | |m]; [..|eauto];
    unfold vindex, vget in Hc; cbn [default] in Hc; discriminate Hc.
Qed.
Lemma state_set (t : Trigger) f : tg_state (t <| tg_state ::= f |>) = f (tg_state t).
Proof. done. Qed.
Lemma held_keep t m events : tg_state t = VObj m → held (t <| tg_state ::= vset "events" (VArr events) |>) = events.
Proof.
  intros E. unfold held. by rewrite state_set, E, vindex_vset.
Qed.
Lemma held_skipped u slot reason : held (skipped u slot reason) = held u.
Proof.
  destruct (skipped_state u slot reason) as (c & l & _ & E). unfold held. rewrite E.
  by rewrite !vindex_vset_ne.
Qed.
Lemma held_previous u x : held (u <| tg_state ::= vset "previous" x |>) = held u.
Proof.
  unfold held. by rewrite state_set, vindex_vset_ne.
Qed.
Lemma offer_firing_outcomes k t next event a overlap now u :
  u ∈ outcomes (offer_firing max_concurrent_runs k t next event a overlap now) →
  held u = held next ∧ tg_at_ms u = tg_at_ms next ∧ same_trigger next u.
Proof.
  intros Hu. assert (u ∈ [if a then next <| tg_state ::= vset "previous" (vint now) |> else next;
    skipped next now "overlap"; skipped next now "overlap: ceiling"]) as Hin by by destruct a as [[]|].
  rewrite !elem_of_cons, elem_of_nil in Hin. destruct Hin as [->|[->|[->|[]]]].
  - destruct a; [|done]. split_and!; [apply held_previous|done|solve_same].
  - split_and!; [apply held_skipped|done|solve_same].
  - split_and!; [apply held_skipped|done|solve_same].
Qed.
Lemma offer_firing_spec k t event a overlap now d s on outcome events :
  current d t = true → existsb (λ e, same_event e event) (held t) = false →
  sc_on s = Some on → consume on (held t ++ [event]) = Ok (Some outcome) →
  match outcome with None => a = None ∧ events = held t ++ [event] | Some _ => is_Some a ∧ events = [] end →
  event_firing k t event
    (offer_firing max_concurrent_runs k t (t <| tg_state ::= vset "events" (VArr events) |>) event a overlap now).
Proof.
  intros [m Em]%current_object Hs Hon Hc Ho. set (next := t <| tg_state ::= _ |>).
  assert (∀ u, u ∈ outcomes (offer_firing max_concurrent_runs k t next event a overlap now) →
    held u = events ∧ tg_at_ms u = tg_at_ms t ∧ same_trigger t u) as Hu.
  { intros u (-> & -> & Hu)%offer_firing_outcomes. split_and!; [by eapply held_keep|done|].
    etrans; [|exact Hu]. solve_same. }
  split_and!; try (by destruct a as [[]|]).
  - destruct a as [[]|]; cbn; lia.
  - intros u Hin. by destruct (Hu u Hin) as (_ & ? & ?).
  - split; [done|]. exists on. rewrite Hc. destruct outcome as [consumed|]; destruct Ho as [Ha ->].
    + split; [|intros u Hin; by destruct (Hu u Hin)]. destruct Ha as [[] ->]; by eexists.
    + subst a. split; [done|]. intros u Hin. by destruct (Hu u Hin).
Qed.
Lemma trace_swap {A} f now P `{!Decision P} (g : Fired → A) l r :
  trace (fired ← ask (SoFire f now); _ ← (if decide P then ask SoSignal else mret ()); mret (g fired)) l r →
  ∃ x, firings l = [(f, now, x)] ∧ match r with Ok a => ∃ d, x = Ok d ∧ a = g d | Err _ => True end.
Proof.
  intros Ht. apply trace_bind in Ht as [(d & l1 & l2 & -> & ->%trace_ask & Ht)|(e & ->%trace_ask & ->)]; [|eauto].
  exists (Ok d). case_decide; said_walk; (split; [done|]); eauto.
Qed.
Lemma offer_once_spec k t event now l r : trace (offer_once max_concurrent_runs k t event now) l r →
  (firings l = [] ∧ match r with Ok None | Ok (Some (TakenYes (Some _))) => False | _ => True end) ∨
  ∃ f x, firings l = [(f, now, x)] ∧ event_firing k t event f ∧
    match r with
    | Ok None => x = Ok FChanged
    | Ok (Some TakenNo) => False
    | Ok (Some (TakenYes run)) => is_Some run → x = Ok FCommitted
    | Err _ => True
    end.
Proof.
  intros Ht. unfold offer_once in Ht. cbv zeta in Ht.
  apply trace_bind in Ht as [(d & l1 & l2 & -> & ->%trace_ask & Ht)|(e & ->%trace_ask & ->)]; [|by left].
  apply trace_bind in Ht as [(s & l1 & l3 & -> & [-> Es]%active_schedule_ret & Ht)|(e & [-> _]%active_schedule_ret & ->)];
    [|by left].
  cbn [app]. change (firings (_ :: l3)) with (firings l3).
  fold (held t) in Ht.
  destruct s as [s|]; cbn [mbind option_bind] in Ht; [|destruct Ht as [-> ->]; by left].
  destruct (sc_on s) as [on|] eqn:Eon; cbn [mbind option_bind] in Ht; [|destruct Ht as [-> ->]; by left].
  destruct (current d t) eqn:Ec; cbn [negb] in Ht; [|destruct Ht as [-> ->]; by left].
  destruct (existsb _ (held t)) eqn:Eh; [destruct Ht as [-> ->]; by left|].
  apply trace_bind in Ht as [(o & l1 & l2 & -> & [-> [(? & Eo & [= <-])|(? & _ & ?)]]%trace_try & Ht)|
    (e & [-> _]%trace_try & ->)]; [|done|by left].
  cbn [app]. destruct o as [[consumed|]|]; [| |destruct Ht as [-> ->]; by left].
  - apply trace_bind in Ht as [(a & l1 & l4 & -> & (y & -> & Ey)%trace_triggered & Ht)|
      (e & (y & -> & _)%trace_triggered & ->)]; [|by left].
    change (firings ([_] ++ l4)) with (firings l4). destruct a as [a|]; [|destruct Ht as [-> ->]; by left].
    apply trace_swap in Ht as (x & Ef & Hx). right. eexists _, x. split; [exact Ef|]. split.
    + by eapply offer_firing_spec.
    + destruct r as [o|e]; [|done]. destruct Hx as (f & -> & ->). by destruct f; try intros [].
  - apply trace_swap in Ht as (x & Ef & Hx). right. eexists _, x. split; [exact Ef|]. split.
    + by eapply offer_firing_spec.
    + destruct r as [o|e]; [|done]. destruct Hx as (f & -> & ->). by destruct f; try intros [].
Qed.

(** The firings of an offer: those that lost the trigger to another, then at most one. *)
Definition offers (event : value) (now : Z) (l : list (Firing * Z * result failure Fired)) (run : option (option string))
    : Prop :=
  ∃ lost last_, l = lost ++ last_ ∧ (length last_ ≤ 1)%nat ∧ Forall (λ x, x.2 = Ok FChanged) lost ∧
    Forall (λ x, x.1.2 = now ∧ ∃ k t, event_firing k t event x.1.1) l ∧
    match run with
    | Some run => is_Some run → ∃ f, last_ = [(f, now, Ok FCommitted)]
    | None => last_ = []
    end.
Lemma offers_nothing event now : offers event now [] None.
Proof. exists [], []. split_and!; try done; cbn; lia. Qed.
Lemma offers_idle event now : offers event now [] (Some None).
Proof. exists [], []. split_and!; try done; try (cbn; lia); by intros []. Qed.
Lemma offers_lost k t event now f : event_firing k t event f → offers event now [(f, now, Ok FChanged)] None.
Proof.
  intros Hf. exists [(f, now, Ok FChanged)], []. split_and!; try done; try (cbn; lia); [by constructor|].
  constructor; [|done]. eauto.
Qed.
Lemma offers_one k t event now f x run : event_firing k t event f → (is_Some run → x = Ok FCommitted) →
  offers event now [(f, now, x)] (Some run).
Proof.
  intros Hf Hx. exists [], [(f, now, x)]. split_and!; try done.
  - constructor; [|done]. eauto.
  - intros Hr. exists f. by rewrite (Hx Hr).
Qed.
Lemma offers_more event now l1 l2 run : offers event now l1 None → offers event now l2 run →
  offers event now (l1 ++ l2) run.
Proof.
  intros (lost1 & ? & -> & _ & Hl1 & Hf1 & ->) (lost & last_ & -> & Hn & Hl2 & Hf2 & Hr).
  rewrite app_nil_r in *. exists (lost1 ++ lost), last_. rewrite app_assoc.
  split_and!; [done|done|by apply Forall_app|by rewrite <- app_assoc; apply Forall_app|done].
Qed.
(** How a program that offers comes to an end: [f] says whether it took the event. *)
Definition offers_to {A} (event : value) (now : Z) (f : A → option (option string)) (l : list said) (r : result failure A)
    : Prop :=
  offers event now (firings l) (match r with Ok a => f a | Err _ => Some None end).
Definition taking (x : taken) : option (option string) := match x with TakenNo => None | TakenYes run => Some run end.
Lemma offer_from_spec n k t event now l r : trace (offer_from max_concurrent_runs n k t event now) l r →
  offers_to event now taking l r.
Proof.
  revert t l. unfold offers_to. induction n as [|n IH]; intros t l Ht; cbn [offer_from] in Ht.
  { destruct Ht as [-> ->]. apply offers_idle. }
  apply trace_bind in Ht as [(o & l1 & l2 & -> & Ho%offer_once_spec & Ht)|(e & Ho%offer_once_spec & ->)].
  - rewrite firings_app. destruct o as [o|].
    + destruct Ht as [-> ->]. rewrite app_nil_r. destruct Ho as [[-> Hr]|(f & x & -> & Hf & Hx)];
        destruct o as [|[run|]]; try done;
        first [apply offers_nothing | apply offers_idle | by eapply offers_one].
    + destruct Ho as [[_ []]|(f & x & -> & Hf & ->)]. apply offers_more; [by eapply offers_lost|].
      apply trace_bind in Ht as [(stopped & l1' & l3 & -> & ->%trace_ask & Ht)|(e & ->%trace_ask & ->)];
        [|apply offers_idle].
      change (firings ([_] ++ l3)) with (firings l3). destruct stopped; [destruct Ht as [-> ->]; apply offers_nothing|].
      apply trace_bind in Ht as [(u & l1' & l4 & -> & ->%trace_ask & Ht)|(e & ->%trace_ask & ->)]; [|apply offers_idle].
      change (firings ([_] ++ l4)) with (firings l4). destruct u as [u|]; [by eapply IH|].
      destruct Ht as [-> ->]. apply offers_nothing.
  - destruct Ho as [[-> _]|(f & x & -> & Hf & _)]; [apply offers_idle|by eapply offers_one; [|intros []]].
Qed.
Lemma offer_each_spec l0 event now l r : trace (offer_each max_concurrent_runs l0 event now) l r →
  match r with
  | Ok ids => ∃ run, ids = option_list run ∧ offers event now (firings l) (Some run)
  | Err _ => offers event now (firings l) (Some None)
  end.
Proof.
  revert l. induction l0 as [|[k t] l0 IH]; intros l Ht; cbn [offer_each] in Ht.
  { destruct Ht as [-> ->]. exists None. split; [done|apply offers_idle]. }
  apply trace_bind in Ht as [(o & l1 & l2 & -> & Ho%offer_from_spec & Ht)|(e & Ho%offer_from_spec & ->)]; [|exact Ho].
  rewrite firings_app. destruct o as [|run].
  - apply IH in Ht. destruct r as [ids|e]; [|by apply offers_more].
    destruct Ht as (run & -> & Ht). exists run. split; [done|by apply offers_more].
  - destruct Ht as [-> ->]. rewrite app_nil_r. exists run. by split.
Qed.

Lemma publish_spec event now l r : trace (publish max_concurrent_runs event now) l r →
  ∃ x l' run, l = Said (SoIngested event now) x :: l' ∧ (x = Ok true → firings l' = []) ∧
    offers event now (firings l') (Some run) ∧
    ∀ ids, r = Ok ids → ∃ reached, Said (SoPublish event now) (Ok reached) ∈ l' ∧ ids = reached ++ option_list run.
Proof.
  unfold publish. intros Ht.
  apply trace_bind in Ht as [(used & l1 & l2 & -> & ->%trace_ask & Ht)|(e & ->%trace_ask & ->)].
  2:{ exists (Err e), [], None. split_and!; try done. apply offers_idle. }
  exists (Ok used). cbn [app]. exists l2.
  apply trace_bind in Ht as [(reached & l1 & l3 & -> & ->%trace_ask & Ht)|(e & ->%trace_ask & ->)].
  2:{ exists None. split_and!; try done. apply offers_idle. }
  cbn [app]. change (firings (_ :: l3)) with (firings l3). destruct used.
  { destruct Ht as [-> ->]. exists None. split_and!; try done; [apply offers_idle|].
    intros ids [= <-]. exists reached. split; [left|by rewrite app_nil_r]. }
  apply trace_bind in Ht as [(found & l1 & l4 & -> & ->%trace_ask & Ht)|(e & ->%trace_ask & ->)].
  2:{ exists None. split_and!; try done. apply offers_idle. }
  apply trace_bind in Ht as [(ids & l1 & l5 & -> & Ho%offer_each_spec & [-> ->])|(e & Ho%offer_each_spec & ->)].
  - destruct Ho as (run & -> & Ho). exists run. rewrite app_nil_r. split_and!; try done.
    intros ids [= <-]. exists reached. split; [left|done].
  - exists None. by split_and!.
Qed.

(** C30: one event starts at most one run. Whatever [publish] is answered, it swaps
    triggers that were as it read them, under the event's identity, one after another
    until one of the swaps is not refused because the trigger has changed, and none after
    that one; none at all when the identity was taken before. A swap adds the event to a
    partial match, which the trigger keeps, or starts the one run of a complete match,
    which empties it. The runs it answers are those that listen for the event and at most
    one more, which the last swap committed. *)
Theorem event_taken_once event now l r :
  trace (publish max_concurrent_runs event now) l r →
  match l with Said (SoIngested _ _) (Ok true) :: _ => firings l = [] | _ => True end ∧
  (∀ f at_ x, (f, at_, x) ∈ firings l → at_ = now ∧ ∃ k t, event_firing k t event f) ∧
  ∃ lost last_, firings l = lost ++ last_ ∧ (length last_ ≤ 1)%nat ∧ (∀ y, y ∈ lost → y.2 = Ok FChanged) ∧
    ∀ ids, r = Ok ids → ∃ reached run,
      Said (SoPublish event now) (Ok reached) ∈ l ∧ ids = reached ++ option_list run ∧
      (is_Some run → ∃ f, last_ = [(f, now, Ok FCommitted)]).
Proof.
  intros (x & l' & run & -> & Hx & (lost & last_ & El & Hn & Hl & Hf & Hr) & Hids)%publish_spec.
  change (firings (_ :: l')) with (firings l'). split_and!.
  - by destruct x as [[]|]; [apply Hx| |].
  - intros f at_ y Hin. rewrite Forall_forall in Hf. exact (Hf _ Hin).
  - exists lost, last_. split_and!; [done|done|by apply Forall_forall|]. intros ids Hok.
    destruct (Hids ids Hok) as (reached & Hin & ->). exists reached, run. split_and!; [by right|done|done].
Qed.
End events.

(** ** Notices *)

(** Which questions a program can ask. *)
Fixpoint asks {A} (P : sched_op → Prop) (p : sched A) : Prop :=
  match p with SRet _ | SFail _ => True | SOp o k => P o ∧ ∀ x, asks P (k x) end.
Lemma asks_bind {A B} P (p : sched A) (f : A → sched B) : asks P p → (∀ a, asks P (f a)) → asks P (p ≫= f).
Proof. intros Hp Hf. unfold mbind, sched_bind. induction p as [a|e|o k IH]; cbn in *; [done|done|]. naive_solver. Qed.
Lemma asks_ask P o : P o → asks P (ask o).
Proof. intros Ho. split; [done|]. by intros []. Qed.
Lemma asks_attempt P o : P o → asks P (attempt o).
Proof. by split. Qed.
Lemma asks_try {A} P (x : result string A) : asks P (try x).
Proof. by destruct x. Qed.
Lemma asks_ret {A} P (a : A) : asks P (mret a).
Proof. done. Qed.
Lemma asks_trace {A} P (p : sched A) l r : asks P p → trace p l r → Forall (λ s, match s with Said o _ => P o end) l.
Proof.
  revert l. induction p as [a|e|o k IH]; intros l Hp; cbn in *; [by intros [-> _]..|].
  intros (x & l' & -> & Ht). destruct Hp. constructor; eauto.
Qed.
Ltac solve_asks := repeat match goal with
  | |- asks _ (_ ≫= _) => apply asks_bind; [|intros]
  | |- asks _ (ask _) => by apply asks_ask
  | |- asks _ (attempt _) => by apply asks_attempt
  | |- asks _ (try _) => apply asks_try
  | |- asks _ (mret _) => apply asks_ret
  | |- asks _ (SRet _) => exact I
  | |- asks _ (SFail _) => exact I
  | |- asks _ (match ?x with _ => _ end) => destruct x
  end; cbn beta iota.

Section notices.
Context `{Host, Libraries, Calendar}.
Variable max_concurrent_runs : nat.
Variable has_sink : bool.

(** No question of a publish is about notices or the host's sink. *)
Definition inside (o : sched_op) : Prop :=
  match o with SoAcknowledge _ | SoNotices _ | SoSink _ | SoStop => False | _ => True end.
Lemma offer_inside n k t event now : asks inside (offer_from max_concurrent_runs n k t event now).
Proof.
  revert t. induction n as [|n IH]; intros t; [done|]. cbn [offer_from].
  apply asks_bind; [unfold offer_once, active_schedule, triggered; cbv zeta; solve_asks|].
  intros [x|]; [done|]. solve_asks. apply IH.
Qed.
Lemma offer_each_inside l event now : asks inside (offer_each max_concurrent_runs l event now).
Proof.
  induction l as [|[k t] l IH]; [done|]. cbn [offer_each]. apply asks_bind; [apply offer_inside|].
  by intros [|run].
Qed.
Lemma publish_inside event now : asks inside (publish max_concurrent_runs event now).
Proof. unfold publish. solve_asks. apply offer_each_inside. Qed.

(** The notice [k] was handed on: published, taken by the sink, and only then acknowledged. *)
Definition handed (k : string) (event : value) (l : list said) : Prop :=
  ∃ l1 lp l2 now ids x,
    l = l1 ++ lp ++ (if has_sink then [Said (SoSink event) (Ok (Some (Ok ())))] else []) ++ Said (SoAcknowledge k) x :: l2 ∧
    trace (publish max_concurrent_runs event now) lp (Ok ids).
(** It waits for its backoff, which ends after an instant the call read. *)
Definition backs_off (k : string) (b : backoffs) (l : list said) : Prop :=
  ∃ failures at_ now, b !! k = Some (failures, at_) ∧ Said SoNow (Ok now) ∈ l ∧ (now < i64_max → now < at_).
Definition stopped_by (l : list said) : Prop := Said SoStop (Ok true) ∈ l ∨ ∃ event, Said (SoSink event) (Ok None) ∈ l.
Definition acknowledges (s : said) : option string := match s with Said (SoAcknowledge k) _ => Some k | _ => None end.

Lemma handed_app k event l1 l2 l3 : handed k event l2 → handed k event (l1 ++ l2 ++ l3).
Proof.
  intros (a & lp & c & now & ids & x & -> & Ht). exists (l1 ++ a), lp, (c ++ l3), now, ids, x.
  split; [|done]. by rewrite <- !app_assoc.
Qed.
(** What becomes of one notice. *)
Lemma notice_failed_spec k b l r : trace (notice_failed k b) l r →
  ∃ x, l = [Said SoNow x] ∧ match r with
    | Ok b' => ∃ now failures, x = Ok now ∧ b' = <[k := (failures, retry_at now failures)]> b
    | Err _ => True end.
Proof.
  unfold notice_failed. intros Ht.
  apply trace_bind in Ht as [(now & l1 & l2 & -> & ->%trace_ask & [-> ->])|(e & ->%trace_ask & ->)]; eauto 8.
Qed.
Definition hands (ls : list (string * value)) (b : backoffs) (l : list said) (r : result failure (backoffs * nat)) : Prop :=
  (∀ k, k ∈ omap acknowledges l → ∃ event, (k, event) ∈ ls ∧ handed k event l) ∧
  match r with
  | Ok (b', _) =>
      (∀ k, k ∉ ls.*1 → b' !! k = b !! k) ∧
      (stopped_by l ∨ ∀ k event, (k, event) ∈ ls → handed k event l ∨ backs_off k b' l)
  | Err _ => True
  end.
Lemma hands_stop ls b l n : omap acknowledges l = [] → stopped_by l → hands ls b l (Ok (b, n)).
Proof. intros Ha Hs. split; [rewrite Ha; by intros k ?%elem_of_nil|]. split; [done|by left]. Qed.
Lemma hands_err ls b l e : omap acknowledges l = [] → hands ls b l (Err e).
Proof. intros Ha. split; [rewrite Ha; by intros k ?%elem_of_nil|done]. Qed.
Lemma hands_next k event ls b b1 l1 l2 r : k ∉ ls.*1 → (∀ k', k' ≠ k → b1 !! k' = b !! k') →
  (omap acknowledges l1 = [] ∧ backs_off k b1 l1) ∨ (omap acknowledges l1 = [k] ∧ handed k event l1) →
  hands ls b1 l2 r → hands ((k, event) :: ls) b (l1 ++ l2) r.
Proof.
  intros Hk Hb Hone [Ha Hr].
  assert (∀ k' event', handed k' event' l2 → handed k' event' (l1 ++ l2)) as Happ.
  { intros k' event' Hh. rewrite <- (app_nil_r l2). by apply handed_app. }
  split.
  - intros k'. rewrite omap_app, elem_of_app. intros [Hin|Hin].
    + destruct Hone as [[E _]|[E Hh]]; rewrite E in Hin; [by apply elem_of_nil in Hin|].
      apply list_elem_of_singleton in Hin as ->. exists event. split; [left|by apply (handed_app _ _ [])].
    + destruct (Ha k' Hin) as (event' & He & Hh). exists event'. split; [by right|by apply Happ].
  - destruct r as [[b' n]|e]; [|done]. destruct Hr as [Hkeep Hr]. split.
    + intros k'. rewrite fmap_cons, not_elem_of_cons. intros [Hne Hin]. by rewrite Hkeep, Hb.
    + destruct Hr as [[Hs|[ev Hs]]|Hr].
      * left. left. apply elem_of_app. by right.
      * left. right. exists ev. apply elem_of_app. by right.
      * right. intros k' event' [[= -> ->]|Hin]%elem_of_cons.
        -- destruct Hone as [[_ (f & at_ & now & E & Hn & Hl)]|[_ Hh]].
           ++ right. exists f, at_, now. rewrite Hkeep by done. split_and!; [done| |done]. apply elem_of_app. by left.
           ++ left. by apply (handed_app _ _ []).
        -- destruct (Hr k' event' Hin) as [Hh|(f & at_ & now & E & Hn & Hl)]; [left; by apply Happ|right].
           exists f, at_, now. split_and!; [done| |done]. apply elem_of_app. by right.
Qed.
Lemma inside_acks l : Forall (λ s, match s with Said o _ => inside o end) l → omap acknowledges l = [].
Proof. induction 1 as [|[o x] l Ho _ IH]; [done|]. by destruct o. Qed.
Lemma publish_acks event now l r : trace (publish max_concurrent_runs event now) l r → omap acknowledges l = [].
Proof. intros Ht. apply inside_acks. eapply asks_trace; [apply publish_inside|exact Ht]. Qed.

Lemma notify_each_spec ls b n l r : NoDup ls.*1 → trace (notify_each max_concurrent_runs has_sink ls b n) l r →
  hands ls b l r.
Proof.
  revert b n l. induction ls as [|[k event] ls IH]; intros b n l Hd Ht; cbn [notify_each] in Ht.
  { destruct Ht as [-> ->]. split; [by intros k ?%elem_of_nil|]. split; [done|]. right. by intros k event ?%elem_of_nil. }
  rewrite fmap_cons, NoDup_cons in Hd. cbn [fst] in Hd. destruct Hd as [Hk Hd].
  assert (∀ l1 l2, omap acknowledges l1 = [] →
    trace (b ← notice_failed k b; notify_each max_concurrent_runs has_sink ls b n) l2 r →
    hands ((k, event) :: ls) b (l1 ++ l2) r ) as Hfailed.
  { intros l1 l2 Ha Hf.
    apply trace_bind in Hf as [(b1 & l3 & l4 & -> & (x & -> & Hb)%notice_failed_spec & Hf)|(e & (x & -> & _)%notice_failed_spec & ->)].
    - destruct Hb as (now & failures & -> & ->). rewrite app_assoc. eapply hands_next; [done| | |by eapply IH].
      + intros k' Hne. by rewrite lookup_insert_ne.
      + left. rewrite omap_app, Ha. split; [done|]. exists failures, (retry_at now failures), now.
        rewrite lookup_insert_eq. split_and!; [done|apply elem_of_app; right; left|]. intros Hn. by apply retry_at_bounds.
    - apply hands_err. by rewrite omap_app, Ha. }
  apply trace_bind in Ht as [(stop & l1 & l2 & -> & ->%trace_ask & Ht)|(e & ->%trace_ask & ->)]; [|by apply hands_err].
  destruct stop; [destruct Ht as [-> ->]; apply hands_stop; [done|left; left]|].
  apply trace_bind in Ht as [(now & l1 & l3 & -> & ->%trace_ask & Ht)|(e & ->%trace_ask & ->)]; [|by apply hands_err].
  cbn [app].
  destruct (is_some_and (b !! k) _) eqn:Eb.
  { change (?a :: ?c :: l3) with ([a; c] ++ l3). eapply hands_next; [done|done| |by eapply IH].
    left. split; [done|]. destruct (b !! k) as [[f at_]|] eqn:Ek; [|done]. exists f, at_, now.
    split_and!; [done|right; left|]. intros _. by apply bool_decide_eq_true in Eb. }
  apply trace_bind in Ht as [(p & l1 & l2 & -> & (x & [= <-] & Hp)%trace_caught & Ht)|(e & (x & ? & _)%trace_caught & _)];
    [|done].
  pose proof (publish_acks _ _ _ _ Hp) as Ea. rewrite !app_comm_cons.
  destruct p as [ids|[e|t|e]]; [|by apply Hfailed|destruct Ht as [-> ->]; apply hands_err; by rewrite app_nil_r..].
  apply trace_bind in Ht as [(sent & l3 & l4 & -> & Hsink & Ht)|(e & Hsink & ->)].
  2:{ apply hands_err. cbn. rewrite omap_app, Ea. destruct has_sink; [by apply trace_ask in Hsink as ->|by destruct Hsink as [-> ?]]. }
  assert (omap acknowledges l3 = []) as Es.
  { destruct has_sink; [by apply trace_ask in Hsink as ->|by destruct Hsink as [-> _]]. }
  destruct sent as [[[]|e]|].
  - assert (∀ x, omap acknowledges ((Said SoStop (Ok false) :: Said SoNow (Ok now) :: l1) ++ l3 ++ [Said (SoAcknowledge k) x]) = [k]
      ∧ handed k event ((Said SoStop (Ok false) :: Said SoNow (Ok now) :: l1) ++ l3 ++ [Said (SoAcknowledge k) x])) as Hack.
    { intros x. split; [cbn; by rewrite !omap_app, Ea, Es|].
      exists [Said SoStop (Ok false); Said SoNow (Ok now)], l1, [], now, ids, x. split; [|done].
      assert (l3 = if has_sink then [Said (SoSink event) (Ok (Some (Ok ())))] else []) as ->; [|done].
      destruct has_sink; [by apply trace_ask in Hsink|by destruct Hsink]. }
    apply trace_bind in Ht as [(gone & l5 & l6 & -> & ->%trace_ask & Ht)|(e & ->%trace_ask & ->)].
    + rewrite (app_assoc l3), (app_assoc _ _ l6). eapply hands_next; [done| |right; apply Hack|by eapply IH].
      intros k' Hne. by rewrite lookup_delete_ne.
    + rewrite <- (app_nil_r (_ ++ l3 ++ _)). eapply hands_next; [done|done|right; apply Hack|by apply (hands_err _ b)].
  - rewrite app_assoc. apply Hfailed; [|done]. cbn. by rewrite omap_app, Ea, Es.
  - destruct Ht as [-> ->]. rewrite app_nil_r. apply hands_stop; [cbn; by rewrite omap_app, Ea, Es|].
    right. exists event. rewrite elem_of_app. right. destruct has_sink; [|by destruct Hsink].
    apply trace_ask in Hsink as ->. left.
Qed.

(** C31: a notice is not lost. Whatever a call of [notify] is answered, it acknowledges
    only notices it was given that [publish] delivered and then the sink took; and when
    it comes to an end without the worker stopping, every notice it was given was handed
    on and acknowledged so, or is kept with the end of a backoff that is not over. *)
Theorem notices_are_handed_on b l r :
  trace (notify max_concurrent_runs has_sink b) l r →
  ∀ pending l', l = Said (SoNotices NOTICES) (Ok pending) :: l' → NoDup pending.*1 →
  (∀ k x, Said (SoAcknowledge k) x ∈ l' → ∃ event, (k, event) ∈ pending ∧ handed k event l') ∧
  ∀ b' n, r = Ok (b', n) →
    stopped_by l' ∨ ∀ k event, (k, event) ∈ pending → handed k event l' ∨ backs_off k b' l'.
Proof.
  unfold notify. intros Ht pending l' -> Hd.
  apply trace_bind in Ht as [(p & l1 & l2 & E & ->%trace_ask & Ht)|(e & E%trace_ask & ->)].
  - pose proof (f_equal tail E) as El. cbn in El. subst l2.
    pose proof (f_equal (λ l, match l with Said (SoNotices _) (Ok q) :: _ => q | _ => [] end) E) as Ep. cbn in Ep. subst p.
    apply notify_each_spec in Ht as [Ha Hr]; [|done]. split.
    + intros k x Hin. apply Ha, list_elem_of_omap. by exists (Said (SoAcknowledge k) x).
    + intros b' n ->. by destruct Hr.
  - injection E as _ ->. split; [by intros k x ?%elem_of_nil|done].
Qed.
End notices.

(** ** Concrete inputs *)

(** The trace of a program under given answers. *)
Fixpoint play {A} (answers : ∀ o, result failure (sched_answer o)) (p : sched A) : list said * result failure A :=
  match p with
  | SRet a => ([], Ok a)
  | SFail e => ([], Err e)
  | SOp o k => let '(l, r) := play answers (k (answers o)) in (Said o (answers o) :: l, r)
  end.
Lemma play_trace {A} answers (p : sched A) : trace p (play answers p).1 (play answers p).2.
Proof.
  induction p as [a|e|o k IH]; cbn; [done..|]. specialize (IH (answers o)).
  destruct (play answers (k (answers o))) as [l r]. eauto.
Qed.

(** Two definitions: one every minute, one on events of type "go". *)
Definition scheduled (schedule : value) : value :=
  VObj (<["document" := header]> (<["schedule" := schedule]> {["do" := VArr [VObj {["wait" := VObj {["wait" :=
    VObj {["seconds" := vint 1]}]}]}]]})).
Definition minutely : value := scheduled (VObj {["every" := VObj {["minutes" := vint 1]}]}).
Definition on_go : value :=
  scheduled (VObj {["on" := VObj {["one" := VObj {["with" := VObj {["type" := VStr "go"]}]}]}]}).
Definition timed_libraries : Libraries := {|
  schema_error := λ _, None; cron_error := λ _, None; parse_rfc3339 := λ _, None; is_zone := λ _, true;
  from_yaml := λ s, Ok (if decide (s = "on") then on_go else minutely); conforms := λ _, [] |}.
(** A calendar whose every expression comes up each second. *)
Definition steady_calendar : Calendar := {|
  next_cron := λ _ _ after, Ok (after + 1000); show_datetime := λ ms, Some (pretty ms); show_rfc3339 := λ ms, Some (pretty ms) |}.
Lemma steady_later c zone after at_ : @next_cron steady_calendar c zone after = Ok at_ → after < at_.
Proof. intros [= <-]. lia. Qed.
Definition installed (yaml : string) : Definitions :=
  mkDefinitions {[ 1 := mkDefinition "flow" 1 yaml "" Inherit ]} (Some 1) 0 3 None [] ∅.
Definition demo_trigger (kind : string) (at_ : option Z) (types : list string) : Trigger :=
  mkTrigger at_ types (armed_state "flow" kind 3 (if decide (kind = "on") then {[ "events" := VArr [] ]} else ∅)).
Definition demo_event : value := an_event "e1" "go".
(** A store with one trigger and one notice, and an admitter that admits. *)
Definition demo_answers (yaml : string) (o : sched_op) : result failure (sched_answer o) :=
  match o with
  | SoDefinitions _ => Ok (installed yaml)
  | SoActivate _ _ _ _ _ => Ok None
  | SoDue _ _ => Ok [("flow#every", demo_trigger "every" (Some 60000) [])]
  | SoTriggersFor _ _ => Ok [("flow#on", demo_trigger "on" None ["go"])]
  | SoFire _ _ => Ok FCommitted
  | SoHasRun _ | SoIngested _ _ | SoStopped | SoStop => Ok false
  | SoTrigger _ => Ok None
  | SoQueued _ => Ok None
  | SoPublish _ _ => Ok ["listener"]
  | SoNotices _ => Ok [("n1", demo_event)]
  | SoAcknowledge _ => Ok true
  | SoTriggered id name input _ => Ok (Ok (mkAdmission id name 1 yaml input VNull))
  | SoSignal => Ok ()
  | SoNow => Ok 61000
  | SoSink _ => Ok (Some (Ok ()))
  end.
Existing Instances timed_libraries steady_calendar.

Abbreviation every_trigger := (demo_trigger "every" (Some 60000) []).
Abbreviation every_trace := (play (demo_answers "every") (Schedules.fire 10 "flow#every" every_trigger 61000)).
Lemma slot_moves_on_witness :
  every_trace.2 = Ok (Some "schedule:flow:every:60000") ∧ length (firings every_trace.1) = 1%nat ∧
  (∀ id a, (id, a) ∈ admissions every_trace.1 → due_run every_trigger id) ∧
  ∀ f at_ x, (f, at_, x) ∈ firings every_trace.1 → at_ = 61000 ∧ slot_firing "flow#every" every_trigger 61000 f.
Proof.
  split; [vm_compute; reflexivity|]. split; [vm_compute; reflexivity|].
  destruct (slot_moves_on 10 steady_later "flow#every" every_trigger 61000 _ _ ltac:(unfold i64_max; lia)
    (play_trace (demo_answers "every") _)) as (_ & Ha & Hf).
  split; [exact Ha|]. intros f at_ x Hin. destruct (Hf f at_ x Hin) as (? & ? & _). by split.
Defined.
Abbreviation due_trace := (play (demo_answers "every") (fire_due 10)).
Lemma due_slots_are_fired_witness :
  ∃ parts, due_trace.1 = Said SoNow (Ok 61000) ::
      Said (SoDue 61000 BATCH) (Ok [("flow#every", every_trigger)]) :: concat parts ∧
    Forall2 (λ (x : string * Trigger) part, fired_slot x.1 x.2 61000 part ∨ excused x.2 part)
      [("flow#every", every_trigger)] parts.
Proof.
  pose proof (play_trace (demo_answers "every") (fire_due 10)) as Ht.
  assert (due_trace.2 = Ok ["schedule:flow:every:60000"]) as E by (vm_compute; reflexivity). rewrite E in Ht.
  destruct (due_slots_are_fired 10 steady_later _ _ Ht) as (now & due & parts & El & Hall).
  assert (now = 61000) as -> by exact (f_equal (λ l, match l with Said SoNow (Ok n) :: _ => n | _ => 0 end) (eq_sym El)).
  assert (due = [("flow#every", every_trigger)]) as ->
    by exact (f_equal (λ l, match l with _ :: Said (SoDue _ _) (Ok d) :: _ => d | _ => [] end) (eq_sym El)).
  exists parts. split; [exact El|]. apply Hall. unfold i64_max. lia.
Defined.
Abbreviation event_trace := (play (demo_answers "on") (publish 10 demo_event 61000)).
Lemma event_taken_once_witness :
  length (firings event_trace.1) = 1%nat ∧
  (∀ f at_ x, (f, at_, x) ∈ firings event_trace.1 → at_ = 61000 ∧ ∃ k t, event_firing k t demo_event f) ∧
  ∃ run, event_trace.2 = Ok ["listener"; run].
Proof.
  split; [vm_compute; reflexivity|].
  destruct (event_taken_once 10 demo_event 61000 _ _ (play_trace (demo_answers "on") _)) as (_ & Hf & _).
  split; [exact Hf|]. eexists. vm_compute. reflexivity.
Defined.
Abbreviation notice_trace := (play (demo_answers "on") (notify 10 true ∅)).
Lemma notices_are_handed_on_witness :
  notice_trace.2 = Ok (∅, 1%nat) ∧ handed 10 true "n1" demo_event (tail notice_trace.1).
Proof.
  assert (notice_trace.2 = Ok (∅, 1%nat)) as E by (vm_compute; reflexivity). split; [exact E|].
  pose proof (play_trace (demo_answers "on") (notify 10 true ∅)) as Ht.
  assert (∃ l', notice_trace.1 = Said (SoNotices NOTICES) (Ok [("n1", demo_event)]) :: l') as [l' El].
  { eexists. vm_compute. reflexivity. }
  destruct (notices_are_handed_on 10 true ∅ _ _ Ht [("n1", demo_event)] l' El) as [Ha _].
  { apply NoDup_singleton. }
  destruct (Ha "n1" (Ok true)) as (event & [= ->]%list_elem_of_singleton & Hh).
  - apply (list_elem_of_lookup_2 _ 9). rewrite <- (f_equal tail El : tail notice_trace.1 = l'). vm_compute. reflexivity.
  - by rewrite El.
Defined.
