(* ===== verification/Operator.v ===== *)
(** * Operator access

    [crates/runtime/src/control.rs], the requests an operator makes of a store, and the
    read-only views of [crates/durable/src/engine.rs], sections 6 and 7, that show a
    definition and a run. A view is a program of the store's transactions that writes
    nothing; a page is one transaction. *)
From S2P Require Import Prelude Json Keys Outcome Journal Expr Listen Model Parser TaskParser DocumentParser Schedules.
From S2P Require Import Types Store Index Admit Mailbox Triggers Lifecycle Control RunStore.
From S2P Require Import Logic Ordered Rows Steps Preserve Terminate Operations History Samples QuerySpec DefinitionSpec.
From S2P Require Import SchedulesSpec.

(** ** What a definition shows *)

Inductive ScheduleKind := KEvery | KCron | KAfter | KAt | KOn.
#[export] Instance ScheduleKind_eq_dec : EqDecision ScheduleKind.
Proof. solve_decision. Defined.
Record QueuedSlot := mkQueuedSlot { qs_run : string; qs_version : Z }.
Record ScheduleSummary := mkScheduleSummary {
  ss_kind : ScheduleKind;
  ss_next_due_ms : option Z;
  ss_overlap : Overlap;
  ss_catchup : Catchup;
  ss_queued : option QueuedSlot
}.
Record VersionSummary := mkVersionSummary {
  vs_version : Z;
  vs_digest : string;
  vs_activated_ms : option Z;
  vs_activated_epoch : option Z;
  vs_activated_by : option string;
  vs_activation_note : option string;
  vs_breaker : Breaker
}.
Record DefinitionSummary := mkDefinitionSummary {
  ds_name : string;
  ds_versions : list VersionSummary;
  ds_active : option Z;
  ds_epoch : Z;
  ds_consecutive_faults : Z;
  ds_tripped : option Trip;
  ds_schedules : list ScheduleSummary
}.
(** The kinds a schedule configures, nothing due or queued yet. *)
Definition is_configured (s : Schedule) (k : ScheduleKind) : bool :=
  match k with
  | KEvery => bool_decide (is_Some (sc_every s))
  | KCron => bool_decide (is_Some (sc_cron s))
  | KAfter => bool_decide (is_Some (sc_after s))
  | KAt => bool_decide (is_Some (sc_at s))
  | KOn => bool_decide (is_Some (sc_on s))
  end.
Definition configured (s : Schedule) : list ScheduleSummary :=
  (λ k, mkScheduleSummary k None (sc_overlap s) (sc_catchup s) None) <$>
    filter (λ k, is_configured s k) [KEvery; KCron; KAfter; KAt; KOn].
(** The kind a trigger's state names. *)
Definition kind_of_trigger (t : Trigger) : option ScheduleKind :=
  match as_str (vindex "kind" (tg_state t)) with
  | Some "every" => Some KEvery
  | Some "cron" => Some KCron
  | Some "after" => Some KAfter
  | Some "at" => Some KAt
  | Some "on" => Some KOn
  | _ => None
  end.
Fixpoint with_slot (k : ScheduleKind) (due : option Z) (q : option QueuedSlot) (l : list ScheduleSummary)
    : list ScheduleSummary :=
  match l with
  | [] => []
  | s :: l =>
      if decide (ss_kind s = k) then mkScheduleSummary k due (ss_overlap s) (ss_catchup s) q :: l
      else s :: with_slot k due q l
  end.
Definition has_kind (k : ScheduleKind) (l : list ScheduleSummary) : bool :=
  existsb (λ s, bool_decide (ss_kind s = k)) l.
(** One trigger, from its rows or from the state a pause set aside. *)
Definition trigger_slot (paused : option Paused) (l : list ScheduleSummary) (k : string)
    : prog (list ScheduleSummary) :=
  trigger ← match paused with Some p => mret (pa_triggers p !! k) | None => get_trigger k end;
  match (trigger : option Trigger) with
  | None => mret l
  | Some t =>
      match kind_of_trigger t with
      | None => mret l
      | Some kind =>
          if has_kind kind l then
            q ← match paused with
                | Some p =>
                    match pa_queues p !! k with
                    | Some q => q ← check_queue q; mret (Some q)
                    | None => mret None
                    end
                | None => queued k
                end;
            mret (with_slot kind (tg_at_ms t)
                    ((λ q, mkQueuedSlot (a_id (q_admission q)) (a_version (q_admission q))) <$> q) l)
          else mret l
      end
  end.
Definition is_manual (t : option Trip) : bool := is_some_and t (λ t, bool_decide (is_Some (t_manual t))).
Definition version_summary (defs : Definitions) (v : Z) (d : DefinitionV) : VersionSummary :=
  let latest := activations defs !! v in
  mkVersionSummary v (d_digest d) (ad_at_ms <$> latest) (ad_epoch <$> latest) (latest ≫= ad_actor)
    (latest ≫= ad_note) (d_breaker d).
Definition version_le (a b : Z * DefinitionV) : Prop := a.1 ≤ b.1.
#[export] Instance version_le_dec : RelDecision version_le.
Proof. intros a b. unfold version_le. apply _. Defined.

Section with_host.
Context `{Host, Libraries}.

Definition schedule_summaries (name : string) (defs : Definitions) (s : Schedule) : prog (list ScheduleSummary) :=
  paused ← (if is_manual (tripped defs) then get (T := Paused) "paused" name else mret None);
  fold_each (match paused with Some p => keys (pa_triggers p) | None => triggers defs end) (configured s)
    (trigger_slot paused).
Definition definition_summary (name : string) (defs : Definitions) : prog DefinitionSummary :=
  schedules ← match active defs ≫= λ v, versions defs !! v with
    | None => mret []
    | Some active =>
        match parsed (d_yaml active) with
        | Err e => PFail (EMsg e)
        | Ok p => match pa_schedule p with Some s => schedule_summaries name defs s | None => mret [] end
        end
    end;
  mret (mkDefinitionSummary name
    ((λ x, version_summary defs x.1 x.2) <$> merge_sort version_le (map_to_list (versions defs)))
    (active defs) (epoch defs) (consecutive_faults defs) (tripped defs) schedules).
Definition definition_control_tx (name : string) : prog (option DefinitionSummary) :=
  loaded ← load_definitions name;
  match loaded with
  | None => mret None
  | Some defs => x ← definition_summary name defs; mret (Some x)
  end.
Definition query_definitions_tx (cursor : option Cursor) (limit : nat) : prog (Page DefinitionSummary) :=
  page ← page_rows "definitions" "definitions" None None cursor limit;
  items ← map_each page.1 (λ x, defs ← decode_definitions x.2; definition_summary x.1 defs);
  mret (mkPage items page.2).

(** ** What a run shows *)

Record Inspection := mkInspection {
  in_snapshot : RunSnapshot;
  in_pinned : bool;
  in_digest : string;
  in_host : option value;
  in_calls : list CallEntry;
  in_annotations : Totals;
  in_waits : gmap string PendingWait;
  in_children : list SavedRun;
  in_budget_spent : Z;
  in_budget_limit : option Z;
  in_trace_id : option string;
  in_span_id : option string
}.
(** The budget of jumps an admission has: the definition's, under the host's ceiling. *)
Definition budget_limit (a : Admission) : option Z :=
  (λ ceiling, match parse_yaml (a_definition a) with
              | Ok p => max_jumps (wf_budget (pa_workflow p)) ceiling
              | Err _ => ceiling
              end) <$> as_u64 (vindex "max_jumps" (vindex "limits" (a_runtime a))).
Definition inspect_control_tx (id : string) : prog (option Inspection) :=
  found ← find_run id;
  match found with
  | None => mret None
  | Some s =>
      let a := r_admission (s_run s) in
      spent ← match s_budget_ended s with
        | Some spent => mret spent
        | None => spent ← get (T := Z) "budget" (default id (r_root (s_run s))); mret (default 0 spent)
        end;
      children ← indexed_runs (partition "control_parent" id) "" None None;
      snap ← snapshot s;
      mret (Some (mkInspection snap (pinned a) (s_digest s) (host a)
        (call_journal (list_to_map (sn_records snap))) (r_annotations (sn_run snap)) (s_waits s)
        (redacted ∘ s_run <$> children) spent (budget_limit a)
        (as_str (vindex "trace_id" (a_runtime a))) (as_str (vindex "span_id" (a_runtime a)))))
  end.

(** ** The requests of an operator *)

(** What an operator is told of a store's error ([ControlError::from]). *)
Inductive OperatorError := OeControl (e : ControlError) | OeStopped | OeReadOnly | OeStorage (e : error).
Definition operator_error (e : error) : OperatorError :=
  match e with
  | EControl e => OeControl e
  | EStopped => OeStopped
  | EReadOnly => OeReadOnly
  | e => OeStorage e
  end.
Definition told {A} (x : result error A * rows) : result OperatorError A * rows :=
  (match x.1 with Ok a => Ok a | Err e => Err (operator_error e) end, x.2).

(** [Control::execute], at the clock's time. *)
Definition execute (read_only : bool) (fuel : nat) (policy : Policy) (request : Request) (c : Command) (now : Z)
    (r : rows) : result OperatorError Reply * rows :=
  told (update read_only (applied ← control_command fuel request c now policy; mret (reply applied)) r).
Definition list_ (f : Runs) (cursor : option Cursor) (limit : nat) (r : rows)
    : result OperatorError (Page SavedRun) * rows :=
  told (read (query_runs f false cursor limit) r).
Definition history (f : Runs) (cursor : option Cursor) (limit : nat) (r : rows)
    : result OperatorError (Page SavedRun) * rows :=
  if decide (ru_since_ms f = None ∨ ru_before_ms f = None)
  then (Err (OeControl (InvalidInput "history requires a bounded time window")), r)
  else told (read (query_runs f true cursor limit) r).
(** The state a run is counted under. *)
Definition counted_state (r : SavedRun) : string :=
  if decide (is_Some (r_held r)) then "held"
  else match r_state r with
       | SReady => "ready" | SRunning => "running" | SWaiting => "waiting"
       | SCompleted => "completed" | SFailed => "failed" | SCancelled => "cancelled"
       end.
Record Counts := mkCounts { co_states : gmap string nat; co_next : option Cursor }.
Definition count_runs (runs : list SavedRun) : gmap string nat :=
  foldl (λ m r, <[counted_state r := S (default O (m !! counted_state r))]> m) ∅ runs.
Definition counts (f : Runs) (history_ : bool) (cursor : option Cursor) (limit : nat) (r : rows)
    : result OperatorError Counts * rows :=
  if decide (ru_definition f = None) then (Err (OeControl (InvalidInput "counts require a definition")), r)
  else
    match (if history_ then history f cursor limit r else list_ f cursor limit r) with
    | (Ok page, r) => (Ok (mkCounts (count_runs (items page)) (next page)), r)
    | (Err e, r) => (Err e, r)
    end.
Record WorkerStatus := mkWorkerStatus { ws_worker : Worker; ws_stale : bool }.
Definition workers (cursor : option Cursor) (limit : nat) (now : Z) (r : rows)
    : result OperatorError (Page WorkerStatus) * rows :=
  match told (read (workers_tx cursor limit) r) with
  | (Ok page, r) =>
      (Ok (mkPage ((λ w, mkWorkerStatus w (bool_decide (wk_expires_ms w ≤ now))) <$> items page) (next page)), r)
  | (Err e, r) => (Err e, r)
  end.
End with_host.

Create HintDb touching.

(** ** The kinds a program writes *)

(** A program that writes rows of the kinds [P] alone leaves every other; one that writes
    none, [reading], is answered the same by a read transaction. *)
Fixpoint touching {A} (P : string → bool) (p : prog A) : Prop :=
  match p with
  | PRet _ | PFail _ => True
  | POp o k =>
      match o with OGet _ _ | OScan _ _ _ _ => True | OPut kind _ _ | ODelete kind _ => P kind = true end ∧
      ∀ x, touching P (k x)
  end.
Definition reading {A} (p : prog A) : Prop := touching (λ _, false) p.
Lemma reading_guarded {A} (p : prog A) r : reading p → exec (guarded p) r = exec p r.
Proof.
  unfold reading. revert r. induction p as [a|e|o k IH]; intros r; [done..|]. intros [Ho Hk].
  destruct o; try done; cbn; by apply IH.
Qed.
Lemma touching_keeps {A} P (p : prog A) r a r' kind id : touching P p → exec p r = Ok (a, r') → P kind = false →
  r' !! (kind, id) = r !! (kind, id).
Proof.
  intros Hp E HP. revert r Hp E. induction p as [b|e|o k IH]; intros r Hp E; [by injection E as <- <-|done|].
  destruct Hp as [Ho Hk]. cbn [exec] in E. destruct (exec_op r o) as [x r1] eqn:Eo. rewrite (IH _ _ (Hk x) E).
  destruct o; cbn in Eo; injection Eo as <- <-; try done;
    rewrite ?lookup_insert_ne, ?lookup_delete_ne; try done; intros [= -> ->]; congruence.
Qed.
Lemma reading_rows {A} (p : prog A) r a : reading p → fst <$> exec p r = Ok a → exec p r = Ok (a, r).
Proof.
  intros Hp E. rewrite <- (reading_guarded p r Hp) in *. destruct (exec (guarded p) r) as [[b r']|] eqn:Eg; [|done].
  injection E as ->. f_equal. by apply guarded_rows in Eg as ->.
Qed.
Section touching.
Variable P : string → bool.
Lemma touching_bind {A B} (p : prog A) (f : A → prog B) : touching P p → (∀ a, touching P (f a)) → touching P (p ≫= f).
Proof.
  unfold mbind, prog_bind. intros Hp Hf. induction p as [a|e|o k IH]; cbn; [apply Hf|done|].
  destruct Hp as [Ho Hk]. split; [done|]. intros x. by apply IH.
Qed.
Lemma touching_for_each {A} (l : list A) f : (∀ x, x ∈ l → touching P (f x)) → touching P (for_each l f).
Proof.
  intros Hf. induction l as [|x l IH]; [done|]. cbn [for_each]. apply touching_bind; [apply Hf; left|]. intros _.
  apply IH. intros. apply Hf. by right.
Qed.
Lemma touching_map_each {A B} (l : list A) (f : A → prog B) : (∀ x, touching P (f x)) → touching P (map_each l f).
Proof.
  intros Hf. induction l as [|x l IH]; [done|]. cbn [map_each]. apply touching_bind; [apply Hf|]. intros y.
  by apply touching_bind.
Qed.
Lemma touching_fold_each {A S} (l : list A) (s : S) (f : S → A → prog S) : (∀ s x, touching P (f s x)) → touching P (fold_each l s f).
Proof. intros Hf. revert s. induction l as [|x l IH]; intros s; [done|]. cbn [fold_each]. by apply touching_bind. Qed.
Lemma touching_ensure b e : touching P (ensure b e).
Proof. by destruct b. Qed.
Lemma touching_some_or {A} (o : option A) e : touching P (some_or o e).
Proof. by destruct o. Qed.
Lemma touching_decode {T} `{Row T} c : touching P (decode (T := T) c).
Proof. unfold decode. by destruct (of_cell c). Qed.
Lemma touching_get {T} `{Row T} kind id : touching P (get (T := T) kind id).
Proof. unfold get. apply touching_bind; [done|]. intros [c|]; [|done]. by apply touching_bind; [apply touching_decode|]. Qed.
Lemma touching_stored_run c : touching P (stored_run c).
Proof. destruct c; try done. unfold stored_run. apply touching_bind; [apply touching_ensure|done]. Qed.
Lemma touching_find_run id : touching P (find_run id).
Proof.
  unfold find_run. apply touching_bind; [done|]. intros [c|]; [|done]. by apply touching_bind; [apply touching_stored_run|].
Qed.
Lemma touching_run id : touching P (run id).
Proof. unfold run. apply touching_bind; [apply touching_find_run|]. intros. apply touching_some_or. Qed.
Lemma touching_page_rows kind query since before cursor limit : touching P (page_rows kind query since before cursor limit).
Proof.
  unfold page_rows. do 2 (apply touching_bind; [apply touching_ensure|intros _]).
  apply touching_bind; [destruct cursor; [by case_decide|done]|]. intros start. cbv zeta.
  destruct (is_some_and _ _); [done|]. by apply touching_bind.
Qed.
Lemma touching_queued k : touching P (queued k).
Proof.
  unfold queued. apply touching_bind; [apply touching_get|]. intros [q|]; [|done]. unfold check_queue.
  apply touching_bind; [apply touching_bind; [apply touching_ensure|done]|done].
Qed.
End touching.
#[export] Hint Resolve touching_ensure touching_some_or touching_decode touching_get touching_stored_run touching_find_run
  touching_run touching_page_rows touching_queued : touching.
Lemma reading_query_runs `{Host} f history_ cursor limit : reading (query_runs f history_ cursor limit).
Proof.
  unfold reading, query_runs. cbv zeta. apply touching_bind; [auto with touching|]. intros [found next_].
  apply touching_bind; [|done]. apply touching_map_each. intros x. apply touching_bind; auto with touching.
Qed.
Lemma told_read {A} (p : prog A) r a : reading p → exec p r = Ok (a, r) → told (read p r) = (Ok a, r).
Proof. intros Hp E. unfold told, read, committed. by rewrite reading_guarded, E. Qed.

(** ** Listings and counts *)

(** The pages a question gives, one after another, by their cursors. *)
Fixpoint follow {E A} (ask : option Cursor → result E (A * option Cursor)) (fuel : nat) (cursor : option Cursor)
    : option (result E (list A)) :=
  match fuel with
  | O => None
  | S fuel =>
      match ask cursor with
      | Err e => Some (Err e)
      | Ok (a, None) => Some (Ok [a])
      | Ok (a, Some c) =>
          match follow ask fuel (Some c) with
          | Some (Ok l) => Some (Ok (a :: l))
          | x => x
          end
      end
  end.
Definition asked {E A B} (items_ : A → B) (next_ : A → option Cursor) (x : result E A * rows)
    : result E (B * option Cursor) :=
  match x.1 with Ok a => Ok (items_ a, next_ a) | Err e => Err e end.

Section listings.
Context `{Host}.
Variable policy : Policy.
Variables (r : rows) (f : Runs) (history_ : bool) (limit : nat).
Definition ask_runs (cursor : option Cursor) : result OperatorError (list SavedRun * option Cursor) :=
  asked items next (if history_ then history f cursor limit r else list_ f cursor limit r).
Definition ask_counts (cursor : option Cursor) : result OperatorError (gmap string nat * option Cursor) :=
  asked co_states co_next (counts f history_ cursor limit r).

Lemma counted_sum (runs : list SavedRun) st :
  default O (count_runs runs !! st) = length (filter (λ x, counted_state x = st) runs).
Proof.
  unfold count_runs. assert (∀ m : gmap string nat, default O (foldl (λ m r, <[counted_state r := S (default O (m !! counted_state r))]> m) m runs !! st) =
    (default O (m !! st) + length (filter (λ x, counted_state x = st) runs))%nat) as Hg; [|by rewrite Hg, lookup_empty].
  induction runs as [|x runs IH]; intros m; cbn [foldl]; [cbn; lia|]. rewrite IH. rewrite filter_cons. case_decide as Hx.
  - rewrite Hx, lookup_insert_eq. cbn. lia.
  - by rewrite lookup_insert_ne.
Qed.
Lemma counted_pages (pages : list (list SavedRun)) st :
  sum_list ((λ m, default O (m !! st)) <$> (count_runs <$> pages)) = length (filter (λ x, counted_state x = st) (concat pages)).
Proof.
  induction pages as [|p pages IH]; [done|]. rewrite !fmap_cons. cbn [sum_list concat].
  rewrite IH, counted_sum, filter_app, length_app. done.
Qed.

Context (HI : Inv r) (Hlimit : (1 ≤ limit ≤ MAX_PAGE)%nat)
  (Hwindow : match ru_since_ms f, ru_before_ms f with Some a, Some b => a ≤ b | _, _ => True end)
  (Hbounds : history_ = true → is_Some (ru_since_ms f) ∧ is_Some (ru_before_ms f)).
Local Abbreviation query := (value_to_string (VArr [VStr "runs"; runs_value f; VBool history_])).
Lemma page_of cursor todo :
  walk r (run_kind f history_) query (ru_since_ms f) (ru_before_ms f) cursor todo →
  let page := omap (shown r f) (take limit todo) in
  ask_runs cursor = Ok (page, page_end (take limit todo) query limit) ∧
  (is_Some (ru_definition f) → ask_counts cursor = Ok (count_runs page, page_end (take limit todo) query limit)).
Proof using HI Hlimit Hwindow Hbounds.
  intros Hw page. pose proof (exec_listing r HI f history_ limit Hlimit Hwindow cursor todo Hw) as E.
  assert ((if history_ then history f cursor limit r else list_ f cursor limit r) =
    (Ok (mkPage page (page_end (take limit todo) query limit)), r)) as Ep.
  { destruct history_.
    - unfold history. destruct (Hbounds eq_refl) as [[a Ha] [b Hb]]. rewrite decide_False by (rewrite Ha, Hb; intros [?|?]; done).
      by apply told_read; [apply reading_query_runs|].
    - by apply told_read; [apply reading_query_runs|]. }
  unfold ask_runs, ask_counts, counts. rewrite Ep. split; [done|]. intros [d Hd]. by rewrite decide_False by (by rewrite Hd).
Qed.
Lemma follow_runs fuel cursor todo :
  walk r (run_kind f history_) query (ru_since_ms f) (ru_before_ms f) cursor todo → (length todo < fuel)%nat →
  ∃ pages, follow ask_runs fuel cursor = Some (Ok pages) ∧
    (is_Some (ru_definition f) → follow ask_counts fuel cursor = Some (Ok (count_runs <$> pages))) ∧
    concat pages = omap (shown r f) todo ∧ Forall (λ p, length p ≤ limit)%nat pages.
Proof using HI Hlimit Hwindow Hbounds.
  revert cursor todo. induction fuel as [|fuel IH]; intros cursor todo Hw Hf; [lia|]. cbn [follow].
  destruct (page_of cursor todo Hw) as [-> Hcounts].
  assert (length (omap (shown r f) (take limit todo)) ≤ limit)%nat as Hpage.
  { etrans; [apply length_omap_le|]. rewrite length_take. lia. }
  destruct (page_end (take limit todo) query limit) as [cur|] eqn:Ee.
  - eapply walk_next in Hw as Hn; [|exact Hlimit|exact Ee]. destruct Hn as [Hw' Hlt].
    destruct (IH _ _ Hw') as (pages & -> & Hcs & Hc & Hall); [lia|].
    exists (omap (shown r f) (take limit todo) :: pages). split_and!; [done| | |by constructor].
    { intros Hd. by rewrite Hcounts, Hcs. }
    cbn [concat]. rewrite Hc. by rewrite <- omap_app, take_drop.
  - exists [omap (shown r f) (take limit todo)]. split_and!; [done| | |by repeat constructor].
    { intros Hd. by rewrite Hcounts. }
    cbn. rewrite app_nil_r. by rewrite (last_page _ _ Hlimit _ Ee).
Qed.
End listings.

Section with_host.
Context `{Host}.
Variable policy : Policy.

(** C40: An operator sees every run: in every reachable store, following the cursors of a list,
    or of a history in a window bounded on both sides, shows the stored runs its filter takes in
    its window, of one definition or of all, each once, by instant and then by id, on pages no
    longer than asked, with their host data blanked; the walk ends; and where the filter names a
    definition the counts of the same pages add up, for each state, to the runs so shown in it. A
    history that is not so bounded, and counts of no definition, are refused. The store stands
    still between the pages, a window is not reversed, a page has a length the store allows, and
    the instants of the runs and of the window fit 64 bits ([listing_fits]). *)
Theorem operators_see_every_run r f history_ limit fuel :
  reachable policy r → listing_fits r f history_ → (1 ≤ limit ≤ MAX_PAGE)%nat →
  match ru_since_ms f, ru_before_ms f with Some a, Some b => a ≤ b | _, _ => True end → (size r < fuel)%nat →
  let runs := (listed_runs r f history_).*2 in
  let unbounded := history_ = true ∧ (ru_since_ms f = None ∨ ru_before_ms f = None) in
  (¬ unbounded →
   ∃ pages, follow (ask_runs r f history_ limit) fuel None = Some (Ok pages) ∧ concat pages = runs ∧
     Forall (λ p, length p ≤ limit)%nat pages ∧
     (is_Some (ru_definition f) →
      follow (ask_counts r f history_ limit) fuel None = Some (Ok (count_runs <$> pages)) ∧
      ∀ st, sum_list ((λ m, default O (m !! st)) <$> (count_runs <$> pages)) =
            length (filter (λ x, counted_state x = st) runs))) ∧
  ∀ cursor,
    (unbounded → ask_runs r f history_ limit cursor = Err (OeControl (InvalidInput "history requires a bounded time window"))) ∧
    (ru_definition f = None →
     ask_counts r f history_ limit cursor = Err (OeControl (InvalidInput "counts require a definition"))).
Proof.
  intros HI%reachable_Inv Hfits Hlimit Hwindow Hfuel runs unbounded. split.
  - intros Hu. assert (history_ = true → is_Some (ru_since_ms f) ∧ is_Some (ru_before_ms f)) as Hbounds.
    { intros Hh. split; apply not_eq_None_Some; intros Hn; apply Hu; split; auto. }
    set (start := match ru_since_ms f with Some s => time_key s | None => "" end).
    set (L := rows_of r (run_kind f history_) start (time_key <$> ru_before_ms f)).
    assert (length L ≤ size r)%nat as Hsize.
    { unfold L. rewrite rows_of_perm, <- length_map_to_list. apply length_omap_le. }
    destruct (follow_runs r f history_ limit HI Hlimit Hwindow Hbounds fuel None L) as (pages & Hr & Hc & Hcat & Hall);
      [done|lia|]. exists pages.
    assert (concat pages = runs) as Hruns by (rewrite Hcat; by apply listing_is_reference).
    split_and!; [done..|]. intros Hd. split; [by apply Hc|]. intros st. by rewrite counted_pages, Hruns.
  - intros cursor. split.
    + intros [-> Hn]. unfold ask_runs, history. by rewrite decide_True.
    + intros Hn. unfold ask_counts, counts. by rewrite decide_True.
Qed.
End with_host.

(** ** A pause and what is shown of it *)

Definition trigger_kind (kind : string) : bool :=
  existsb (str_eqb (family kind)) ["trigger"; "trigger_due"; "trigger_type"; "trigger_queue"; "queue_name"].
Lemma trigger_index_kind k t key_ c : opt_trigger_indexes key_ t !! k = Some c → trigger_kind k.1 = true.
Proof.
  destruct t as [t|]; cbn [opt_trigger_indexes]; [|by rewrite lookup_empty]. unfold trigger_indexes.
  intros [H|H]%elem_of_foldl_insert; [|by rewrite lookup_empty in H]. unfold trigger_kind. apply elem_of_app in H as [H|H].
  - destruct (tg_at_ms t); [|by apply elem_of_nil in H]. by apply list_elem_of_singleton in H as [= -> ->].
  - apply list_elem_of_fmap in H as (ty & [= -> ->] & _). cbn [fst]. by rewrite family_partition.
Qed.
Lemma touching_store_trigger key_ a b : touching trigger_kind (store_trigger key_ a b).
Proof.
  unfold store_trigger. apply touching_bind; [|by destruct b, a]. apply touching_for_each.
  intros [[kind id] o] Ho%elem_of_changes. destruct o as [v|].
  - destruct Ho as [Hv _]. split; [|done]. by apply trigger_index_kind in Hv.
  - destruct Ho as [_ [v Hv]]. split; [|done]. by apply trigger_index_kind in Hv.
Qed.
Lemma touching_remove_queue k : touching trigger_kind (remove_queue k).
Proof.
  unfold remove_queue. apply touching_bind; [apply touching_queued|]. intros [q|]; [|done].
  apply touching_bind; [done|]. intros _. split; [|done]. unfold trigger_kind. by rewrite family_partition.
Qed.
Lemma touching_arm d wanted : touching trigger_kind (arm d wanted).
Proof.
  unfold arm. apply touching_bind; [apply touching_for_each; intros; apply touching_remove_queue|intros _].
  apply touching_bind; [|intros _; apply touching_bind; [|done]]; apply touching_for_each.
  - intros k _. apply touching_bind; [apply touching_get|]. intros. apply touching_store_trigger.
  - intros [k t] _. apply touching_bind; [apply touching_get|]. intros. apply touching_store_trigger.
Qed.

(** What the rows hold of a trigger. *)
Definition trigger_at (r : rows) (k : string) : option Trigger := r !! ("trigger", k) ≫= of_cell.
Definition queue_at (r : rows) (k : string) : option Queued := r !! ("trigger_queue", k) ≫= of_cell.
Lemma wp_get_at {T} `{Row T} kind k (Q : option T → rows → Prop) r : Q (r !! (kind, k) ≫= of_cell) r → wp (get kind k) Q r.
Proof.
  intros HQ. apply wp_get; [intros E; by rewrite E in HQ|]. intros c x Hc Hx. rewrite Hc in HQ. cbn in HQ. by rewrite Hx in HQ.
Qed.
Section suspended.
Variables (r : rows) (d : Definitions) (acc : gmap string Trigger * gmap string Queued).
(** What [suspend] sets aside of the triggers of [d]. *)
Record aside : Prop := {
  aside_triggers k : acc.1 !! k = if decide (k ∈ triggers d) then trigger_at r k else None;
  aside_queues k : acc.2 !! k = if decide (k ∈ triggers d) then queue_at r k else None
}.
End suspended.
Lemma wp_set_aside r d : wp (fold_each (triggers d) (∅, ∅) suspend_one) (λ acc r', r' = r ∧ aside r d acc) r.
Proof.
  eapply wp_mono; [apply (wp_fold_each _ _ _ (λ todo acc r', r' = r ∧ ∃ done, triggers d = done ++ todo ∧
    ∀ k, acc.1 !! k = (if decide (k ∈ done) then trigger_at r k else None) ∧
         acc.2 !! k = if decide (k ∈ done) then queue_at r k else None))|].
  - split; [done|]. exists []. split; [done|]. intros k. by rewrite !decide_False by apply not_elem_of_nil.
  - intros k todo acc r' (-> & done & Hd & Hacc). unfold suspend_one, get_trigger.
    apply wp_bind, wp_get_at, wp_bind, wp_get_at, wp_ret. split; [reflexivity|]. exists (done ++ [k]).
    split; [by rewrite Hd, <- app_assoc|]. intros j. destruct (Hacc j) as [H1 H2]. cbn [fst snd].
    fold (trigger_at r k) (queue_at r k). destruct (decide (j = k)) as [->|Hj].
    + rewrite !decide_True by (apply elem_of_app; right; left). split.
      * destruct (trigger_at r k) as [t|] eqn:Et; [by rewrite lookup_insert_eq|]. rewrite H1. by case_decide.
      * destruct (queue_at r k) as [q|] eqn:Eq; [by rewrite lookup_insert_eq|]. rewrite H2. by case_decide.
    + assert (j ∈ done ++ [k] ↔ j ∈ done) as Hin.
      { rewrite elem_of_app, elem_of_cons, elem_of_nil. tauto. }
      rewrite !(decide_ext _ _ _ _ Hin), <- H1, <- H2. split.
      * destruct (trigger_at r k); [by rewrite lookup_insert_ne|done].
      * destruct (queue_at r k); [by rewrite lookup_insert_ne|done].
  - intros acc r' (-> & done & Hd & Hacc). split; [reflexivity|]. rewrite app_nil_r in Hd. subst done.
    split; intros k; apply Hacc.
Qed.
Lemma wp_remove_trigger k r : wp (current ← get_trigger k; store_trigger k current None) (λ _ r',
  r' !! ("trigger", k) = None ∧ ∀ j, j ≠ k → r' !! ("trigger", j) = r !! ("trigger", j)) r.
Proof.
  assert (∀ cur r2, exec (for_each (changes (opt_trigger_indexes k cur) (opt_trigger_indexes k None)) apply_change) r = Ok ((), r2) →
    ∀ j, r2 !! ("trigger", j) = r !! ("trigger", j)) as Hj.
  { intros cur r2 E j. eapply (touching_keeps (λ kind, negb (str_eqb kind "trigger"))); [|exact E|done].
    apply touching_for_each. intros [[kind id] o] Ho%elem_of_changes.
    destruct o as [v|]; [destruct Ho as [Ho _]; cbn [opt_trigger_indexes] in Ho; by rewrite lookup_empty in Ho|].
    destruct Ho as [_ [v Hv]]. split; [|done].
    destruct cur as [t|]; cbn [opt_trigger_indexes] in Hv; [|by rewrite lookup_empty in Hv].
    apply elem_of_foldl_insert in Hv as [Hv|Hv]; [|by rewrite lookup_empty in Hv]. apply elem_of_app in Hv as [Hv|Hv].
    - destruct (tg_at_ms t); [|by apply elem_of_nil in Hv]. by apply list_elem_of_singleton in Hv as [= -> ->].
    - apply list_elem_of_fmap in Hv as (ty & [= -> ->] & _). apply negb_true_iff, bool_decide_eq_false.
      intros Hp. apply (f_equal family) in Hp. by rewrite family_partition in Hp. }
  apply wp_bind, wp_get; [intros Hn|intros c t Hc Ht]; unfold store_trigger; apply wp_bind, wp_exec_intro; intros [] r2 E;
    pose proof (Hj _ _ E) as Hr2.
  - apply wp_ret. split; [by rewrite Hr2|]. intros j _. apply Hr2.
  - apply wp_delete_row. split; [apply lookup_delete_eq|]. intros j Hne. rewrite lookup_delete_ne by congruence. apply Hr2.
Qed.
(** Once disarmed, none of the triggers is left in the store. *)
Lemma wp_disarmed r d : wp (arm d ∅) (λ _ r', ∀ k, k ∈ triggers d → r' !! ("trigger", k) = None) r.
Proof.
  unfold arm. apply wp_bind, wp_exec_intro. intros _ r1 _. apply wp_bind. set (l := filter _ _).
  assert (l = triggers d) as ->.
  { unfold l. generalize (triggers d). intros ks. induction ks as [|k ks IH]; [done|].
    rewrite filter_cons_True by apply lookup_empty. by rewrite IH. }
  eapply wp_mono; [apply (wp_for_each _ _ (λ todo r', ∀ k, k ∈ triggers d → k ∉ todo → r' !! ("trigger", k) = None))|].
  - intros k Hk Hn. by destruct Hn.
  - intros k todo r' HI. eapply wp_mono; [apply wp_remove_trigger|]. intros _ r3 [Hk Hne] j Hin Hnt.
    destruct (decide (j = k)) as [->|Hjk]; [done|]. rewrite Hne by done. apply HI; [done|]. by intros [?|?]%elem_of_cons.
  - intros [] r' HI. apply wp_bind, wp_pret, wp_ret. intros k Hk. apply HI; [done|]. apply not_elem_of_nil.
Qed.
Lemma wp_suspended r name d : wp (suspend name d) (λ d' r', d' = d <| triggers := [] |> ∧
  (∀ n, r' !! ("definitions", n) = r !! ("definitions", n)) ∧
  ∃ acc, aside r d acc ∧ r' !! ("paused", name) = Some (CPaused (mkPaused (epoch d) acc.1 acc.2)) ∧
    ∀ k, k ∈ triggers d → r' !! ("trigger", k) = None) r.
Proof.
  unfold suspend. apply wp_bind. eapply wp_mono; [apply wp_set_aside|]. intros acc r' [-> Ha].
  apply wp_bind, wp_put, wp_exec_intro. intros d' r' E. pose proof (touching_arm d ∅) as Ht.
  pose proof (λ kind id, touching_keeps _ _ _ _ _ kind id Ht E) as Hk.
  pose proof (wp_exec _ _ _ _ _ (wp_disarmed _ d) E) as Hgone. split_and!.
  - unfold arm in E. rewrite exec_bind in E. destruct (exec (for_each _ _) _) as [[[] r1]|]; [|done].
    rewrite exec_bind in E. destruct (exec (for_each _ _) _) as [[[] r2]|]; [|done].
    rewrite exec_bind in E. destruct (exec (for_each _ _) _) as [[[] r3]|]; [|done]. by injection E as <- _.
  - intros n. rewrite Hk by done. by rewrite lookup_insert_ne.
  - exists acc. split_and!; [done| |done]. rewrite Hk by done. by rewrite lookup_insert_eq.
Qed.

(** The trip of a definition that an operator paused. *)
Definition paused_by (request : Request) (note : string) (t : option Trip) (t' : Trip) : Prop :=
  let manual := Some (mkManual (rq_actor request) (rq_reason request) note) in
  match t with
  | Some t => t' = t <| t_manual := manual |>
  | None => t_manual t' = manual ∧ t_breaker t' = false
  end.
Lemma wp_pause r name d request note now : catalog r name d → is_manual (tripped d) = false →
  wp (pause_command request name note now) (λ _ r', ∃ trip acc,
    catalog r' name (d <| triggers := [] |> <| tripped := Some trip |>) ∧ paused_by request note (tripped d) trip ∧
    aside r d acc ∧ r' !! ("paused", name) = Some (CPaused (mkPaused (epoch d) acc.1 acc.2)) ∧
    ∀ k, k ∈ triggers d → r' !! ("trigger", k) = None) r.
Proof.
  intros Hd Hm. unfold pause_command. apply wp_bind. eapply wp_step; [by apply exec_load_definitions|].
  apply wp_bind, wp_pret.
  destruct (tripped d) as [t|] eqn:Et.
  - cbn in Hm. destruct (t_manual t) as [m|] eqn:Em; [by rewrite bool_decide_true in Hm|]. cbv zeta.
    set (trip := t <| t_manual := _ |>). apply wp_bind. eapply wp_mono; [apply wp_suspended|].
    intros d' r' (-> & _ & acc & Ha & Hp & Hg). apply wp_bind, wp_put_cell, wp_ret. exists trip, acc.
    split_and!; [apply lookup_insert_eq|done| |by rewrite lookup_insert_ne|].
    + destruct Ha as [H1 H2]. by split.
    + intros k Hk. rewrite lookup_insert_ne by done. by apply Hg.
  - apply wp_bind, wp_some_or. intros v _. apply wp_bind. eapply wp_mono; [apply wp_suspended|].
    intros d' r' (-> & _ & acc & Ha & Hp & Hg). apply wp_bind, wp_put_cell, wp_ret. eexists _, acc.
    split_and!; [apply lookup_insert_eq|split; reflexivity|done|by rewrite lookup_insert_ne|].
    intros k Hk. rewrite lookup_insert_ne by done. by apply Hg.
Qed.

(** ** The same slots, from the rows or from what was set aside *)

Lemma exec_get_at {T} `{Row T} kind k r (o : option T) r' : exec (get kind k) r = Ok (o, r') →
  o = r !! (kind, k) ≫= of_cell ∧ r' = r.
Proof.
  intros E. eapply (wp_exec _ (λ o r', o = r !! (kind, k) ≫= of_cell ∧ r' = r)); [|exact E]. by apply wp_get_at.
Qed.
Lemma exec_queued_at k r o r' : exec (queued k) r = Ok (o, r') →
  r' = r ∧ match queue_at r k with Some q => o = Some q ∧ q_version q = 1 | None => o = None end.
Proof.
  unfold queued. rewrite exec_bind. destruct (exec (get _ _) _) as [[q r1]|] eqn:E; [|done].
  apply exec_get_at in E as [-> ->]. fold (queue_at r k). destruct (queue_at r k) as [q|]; [|by intros [= <- <-]].
  unfold check_queue. rewrite exec_bind, exec_bind. case_bool_decide as Hv; [|done]. by intros [= <- <-].
Qed.
Lemma exec_check_queue q r : q_version q = 1 → exec (check_queue q) r = Ok (q, r).
Proof. intros Hv. unfold check_queue. by rewrite exec_bind, bool_decide_true. Qed.

Section slots.
Variables (r r1 : rows) (d : Definitions) (acc : gmap string Trigger * gmap string Queued) (e : Z).
Hypothesis Ha : aside r d acc.
Local Abbreviation kept := (Some (mkPaused e acc.1 acc.2)).
Lemma slot_kept l k l' r' : k ∈ triggers d → exec (trigger_slot None l k) r = Ok (l', r') → r' = r ∧
  match trigger_at r k with
  | None => l' = l
  | Some _ => exec (trigger_slot kept l k) r1 = Ok (l', r1)
  end.
Proof using Ha.
  intros Hk. unfold trigger_slot, get_trigger. rewrite exec_bind.
  destruct (exec (get _ _) _) as [[t r2]|] eqn:E; [|done]. apply exec_get_at in E as [-> ->]. fold (trigger_at r k).
  rewrite exec_bind. cbn [pa_triggers pa_queues]. rewrite (aside_triggers _ _ _ Ha), (aside_queues _ _ _ Ha), !decide_True by done.
  destruct (trigger_at r k) as [t|]; [|by intros [= <- <-]]. cbn [mret prog_ret exec].
  unfold mret, prog_ret. cbn [exec]. destruct (kind_of_trigger t) as [kind|]; [|by intros [= <- <-]].
  destruct (has_kind kind l); [|by intros [= <- <-]]. rewrite exec_bind.
  destruct (exec (queued k) r) as [[q r2]|] eqn:Eq; [|done]. apply exec_queued_at in Eq as [-> Hq].
  rewrite exec_bind. destruct (queue_at r k) as [q'|].
  - destruct Hq as [-> Hv]. rewrite exec_bind, exec_check_queue by done. by intros [= <- <-].
  - subst q. by intros [= <- <-].
Qed.
Lemma slots_kept ks l l' r' : (∀ k, k ∈ ks → k ∈ triggers d) → exec (fold_each ks l (trigger_slot None)) r = Ok (l', r') →
  r' = r ∧ exec (fold_each (filter (λ k, is_Some (trigger_at r k)) ks) l (trigger_slot kept)) r1 = Ok (l', r1).
Proof using Ha.
  revert l. induction ks as [|k ks IH]; intros l Hin; cbn [fold_each]; [by intros [= <- <-]|]. rewrite exec_bind.
  destruct (exec (trigger_slot None l k) r) as [[l1 r2]|] eqn:E; [|done].
  apply slot_kept in E as [-> Hs]; [|apply Hin; left]. intros Hrest.
  apply IH in Hrest as [-> Hrest]; [|intros; apply Hin; by right]. split; [done|]. rewrite filter_cons.
  destruct (trigger_at r k) as [t|].
  - rewrite decide_True by eauto. cbn [fold_each]. by rewrite exec_bind, Hs.
  - subst l1. by rewrite decide_False by (by intros [? ?]).
Qed.
Lemma keys_kept : StronglySorted String.le (triggers d) → NoDup (triggers d) →
  keys acc.1 = filter (λ k, is_Some (trigger_at r k)) (triggers d).
Proof using Ha.
  intros Hs HN. apply (StronglySorted_unique String.le).
  - unfold keys. pose proof (entries_sorted acc.1) as Hso. induction Hso as [|x l Hl IH Hx]; [constructor|].
    rewrite fmap_cons. constructor; [done|]. rewrite Forall_fmap. exact Hx.
  - by apply StronglySorted_filter.
  - apply NoDup_Permutation; [apply entries_NoDup|by apply NoDup_filter|]. intros k.
    rewrite elem_of_keys, list_elem_of_filter, (aside_triggers _ _ _ Ha). case_decide; [tauto|].
    split; [by intros [? ?]|tauto].
Qed.
End slots.

Section views.
Context `{Host, Libraries}.
Lemma reading_definition_control name : reading (definition_control_tx name).
Proof.
  unfold reading, definition_control_tx, load_definitions. apply touching_bind.
  - apply touching_bind; [done|]. intros [c|]; [|done]. apply touching_bind; [|done]. destruct c; try done. destruct layout; [|done].
    cbn [decode_definitions]. apply touching_bind; [auto with touching|done].
  - intros [d|]; [|done]. apply touching_bind; [|done]. unfold definition_summary. apply touching_bind; [|done].
    destruct (active d ≫= _) as [v|]; [|done]. destruct (parsed (d_yaml v)) as [p|]; [|done]. destruct (pa_schedule p) as [s|]; [|done].
    unfold schedule_summaries. apply touching_bind; [destruct (is_manual _); [apply touching_get|done]|]. intros paused.
    apply touching_fold_each. intros l k. unfold trigger_slot, get_trigger.
    apply touching_bind; [destruct paused; [done|apply touching_get]|]. intros [t|]; [|done].
    destruct (kind_of_trigger t) as [kind|]; [|done]. destruct (has_kind kind l); [|done]. apply touching_bind; [|done].
    destruct paused as [p'|]; [|apply touching_queued]. destruct (pa_queues p' !! k); [|done].
    unfold check_queue. do 2 (apply touching_bind; [|done]). auto with touching.
Qed.
Lemma exec_definition_control name d r : catalog r name d →
  exec (definition_control_tx name) r = exec (x ← definition_summary name d; mret (Some x)) r.
Proof. intros Hd. unfold definition_control_tx. by rewrite exec_bind, (exec_load_definitions _ _ _ Hd). Qed.
Lemma schedules_kept name r r1 d trip acc s l r' :
  StronglySorted String.le (triggers d) → NoDup (triggers d) → is_manual (tripped d) = false → is_manual (Some trip) = true →
  aside r d acc → r1 !! ("paused", name) = Some (CPaused (mkPaused (epoch d) acc.1 acc.2)) →
  exec (schedule_summaries name d s) r = Ok (l, r') →
  r' = r ∧ exec (schedule_summaries name (d <| triggers := [] |> <| tripped := Some trip |>) s) r1 = Ok (l, r1).
Proof.
  intros Hs HN Hm Hm1 Ha Hp. unfold schedule_summaries. rewrite Hm, !exec_bind. unfold mret at 1, prog_ret at 1. cbn [exec].
  intros E. cbn [tripped]. change (is_manual (tripped (d <| triggers := [] |> <| tripped := Some trip |>))) with (is_manual (Some trip)).
  rewrite Hm1, (exec_get (T := Paused) _ _ _ (mkPaused (epoch d) acc.1 acc.2) _ Hp) by reflexivity. cbn [pa_triggers].
  rewrite (keys_kept r d acc Ha Hs HN). eapply slots_kept; [done| |exact E]. auto.
Qed.
Lemma summary_kept name r r1 d trip acc x r' :
  StronglySorted String.le (triggers d) → NoDup (triggers d) → is_manual (tripped d) = false → is_manual (Some trip) = true →
  aside r d acc → r1 !! ("paused", name) = Some (CPaused (mkPaused (epoch d) acc.1 acc.2)) →
  exec (definition_summary name d) r = Ok (x, r') →
  r' = r ∧ ds_tripped x = tripped d ∧
  exec (definition_summary name (d <| triggers := [] |> <| tripped := Some trip |>)) r1 =
    Ok (mkDefinitionSummary name (ds_versions x) (ds_active x) (ds_epoch x) (ds_consecutive_faults x) (Some trip) (ds_schedules x), r1).
Proof.
  intros Hs HN Hm Hm1 Ha Hp. unfold definition_summary. rewrite !exec_bind.
  change (active (d <| triggers := [] |> <| tripped := Some trip |>)) with (active d).
  change (versions (d <| triggers := [] |> <| tripped := Some trip |>)) with (versions d).
  destruct (active d ≫= λ v, versions d !! v) as [v|]; [|by intros [= <- <-]].
  destruct (parsed (d_yaml v)) as [p|]; [|done]. destruct (pa_schedule p) as [s|]; [|by intros [= <- <-]].
  destruct (exec (schedule_summaries name d s) r) as [[l r2]|] eqn:E; [|done].
  destruct (schedules_kept name r r1 d trip acc s l r2) as [-> ->]; [done..|]. by intros [= <- <-].
Qed.

(** A pause is shown as it was: whatever a definition that is not paused shows, after an
    operator paused it it shows the same versions, activation, epoch and faults and the same
    schedules, each with its next slot and its queued run, and the pause with its actor, reason
    and note, over a breaker's trip where there is one; while its triggers are gone from the
    store, so that none of them fires. *)
Theorem pause_keeps_what_is_shown r name d x request note now reply_ r1 :
  catalog r name d → StronglySorted String.le (triggers d) → NoDup (triggers d) → is_manual (tripped d) = false →
  exec (definition_control_tx name) r = Ok (Some x, r) → exec (pause_command request name note now) r = Ok (reply_, r1) →
  ∃ trip, paused_by request note (ds_tripped x) trip ∧
    exec (definition_control_tx name) r1 = Ok (Some (mkDefinitionSummary name (ds_versions x) (ds_active x) (ds_epoch x)
      (ds_consecutive_faults x) (Some trip) (ds_schedules x)), r1) ∧
    ∀ k, k ∈ triggers d → r1 !! ("trigger", k) = None.
Proof.
  intros Hd Hs HN Hm Ex Ep. pose proof (wp_exec _ _ _ _ _ (wp_pause r name d request note now Hd Hm) Ep) as (trip & acc & Hd1 & Ht & Ha & Hp & Hg).
  assert (is_manual (Some trip) = true) as Hm1.
  { cbn. apply bool_decide_true. unfold paused_by in Ht. destruct (tripped d); [by rewrite Ht|]. destruct Ht as [-> _]. done. }
  rewrite (exec_definition_control _ _ _ Hd), exec_bind in Ex.
  destruct (exec (definition_summary name d) r) as [[x' r']|] eqn:E; [|done]. injection Ex as -> ->.
  destruct (summary_kept name r r1 d trip acc x r) as (_ & Htr & Ex1); [done..|]. exists trip. rewrite Htr.
  split_and!; [done| |done]. by rewrite (exec_definition_control _ _ _ Hd1), exec_bind, Ex1.
Qed.
End views.

(** ** Concrete inputs *)

Definition flow_filter : Runs := mkRuns (Some "sub") None (Some "p") None None.
Definition any_filter : Runs := mkRuns None None None None None.
Lemma listing_fits_child f history_ : ru_since_ms f = None → ru_before_ms f = None → listing_fits rows_child f history_.
Proof.
  intros Hs Hb. split_and!; [|by rewrite Hs|by rewrite Hb]. intros id s t Hst Hi.
  assert (rows_all rows_child (λ _ c, match c with
    CRun s => bool_decide (is_i64 (r_admitted_ms (s_run s))) && is_none_or (r_ended_ms (s_run s)) (λ t, bool_decide (is_i64 t))
    | _ => true end) = true) as Ha by (vm_compute; reflexivity).
  apply (rows_all_spec _ _ _ _ Ha) in Hst. apply andb_true_iff in Hst as [H1 H2]. apply bool_decide_eq_true in H1.
  destruct history_; cbn in Hi; [|by injection Hi as <-]. rewrite Hi in H2. by apply bool_decide_eq_true in H2.
Qed.
Lemma operators_see_every_run_witness :
  (∃ pages, follow (ask_runs rows_child flow_filter false 1) 40 None = Some (Ok pages) ∧
     concat pages = [redacted (s_run (run_at rows_child "c"))] ∧
     sum_list ((λ m, default O (m !! "running")) <$> (count_runs <$> pages)) = 1%nat) ∧
  (∃ pages, follow (ask_runs rows_child any_filter false 1) 40 None = Some (Ok pages) ∧
     (λ x, a_id (r_admission x)) <$> concat pages = ["p"; "c"]) ∧
  ask_runs rows_child any_filter true 1 None = Err (OeControl (InvalidInput "history requires a bounded time window")) ∧
  ask_counts rows_child any_filter false 1 None = Err (OeControl (InvalidInput "counts require a definition")).
Proof.
  assert (1 ≤ 1 ≤ MAX_PAGE)%nat as Hlimit by (unfold MAX_PAGE; lia).
  assert (size rows_child < 40)%nat as Hsize by (apply Nat.ltb_lt; vm_compute; reflexivity).
  assert (∀ f : Runs, ¬ (false = true ∧ (ru_since_ms f = None ∨ ru_before_ms f = None))) as Hlist by (by intros f [? _]).
  destruct (operators_see_every_run P rows_child flow_filter false 1 40) as [Hflow _];
    [apply reachable_child|by apply listing_fits_child|done|exact I|done|].
  destruct (operators_see_every_run P rows_child any_filter false 1 40) as [Hany Hrefused];
    [apply reachable_child|by apply listing_fits_child|done|exact I|done|].
  destruct (operators_see_every_run P rows_child any_filter true 1 40) as [_ Hunbounded];
    [apply reachable_child|by apply listing_fits_child|done|exact I|done|].
  split_and!.
  - destruct (Hflow (Hlist _)) as (pages & Hr & Hc & _ & Hs). exists pages. destruct Hs as [_ Hs]; [by eexists|].
    split; [exact Hr|]. rewrite Hc, Hs. split; vm_compute; reflexivity.
  - destruct (Hany (Hlist _)) as (pages & Hr & Hc & _). exists pages. split; [exact Hr|]. rewrite Hc. vm_compute. reflexivity.
  - apply Hunbounded. split; [done|by left].
  - by apply Hrefused.
Defined.

(** A definition that starts a run each minute, active with its trigger. *)
Definition rows_minutely : rows :=
  after (activate_with_tx "flow" 1 0 {["flow#every" := every_trigger]} (activation_at 900))
    (after (save_definition_tx "flow" "every" Inherit) ∅).
Definition minutely_request : Request := mkRequest "q1" "ann" "audit".
Definition minutely_slots : list ScheduleSummary := [mkScheduleSummary KEvery (Some 60000) Types.Skip Latest None].
Definition minutely_shown : DefinitionSummary :=
  mkDefinitionSummary "flow" [mkVersionSummary 1 "010203" (Some 900) (Some 1) None None Inherit] (Some 1) 1 0 None minutely_slots.
Lemma pause_keeps_what_is_shown_witness :
  ∃ x, exec (definition_control_tx "flow") rows_minutely = Ok (Some x, rows_minutely) ∧ ds_schedules x = minutely_slots ∧
  ∃ x1, let r1 := after (pause_command minutely_request "flow" "hold on" 1000) rows_minutely in
    exec (definition_control_tx "flow") r1 = Ok (Some x1, r1) ∧ ds_schedules x1 = minutely_slots ∧
    r1 !! ("trigger", "flow#every") = None.
Proof.
  assert (exec (definition_control_tx "flow") rows_minutely = Ok (Some minutely_shown, rows_minutely)) as Ex.
  { apply reading_rows; [apply reading_definition_control|]. vm_compute. reflexivity. }
  exists minutely_shown. split; [exact Ex|]. split; [reflexivity|].
  destruct (pause_keeps_what_is_shown rows_minutely "flow" (catalog_at rows_minutely "flow") minutely_shown minutely_request "hold on" 1000
    (Changed true) (after (pause_command minutely_request "flow" "hold on" 1000) rows_minutely)) as (trip & _ & E1 & Hg).
  - vm_compute. reflexivity.
  - vm_compute. repeat constructor.
  - vm_compute. repeat constructor. by intros ?%elem_of_nil.
  - vm_compute. reflexivity.
  - exact Ex.
  - apply exec_after. vm_compute. reflexivity.
  - eexists. split; [exact E1|]. split; [reflexivity|]. apply Hg. vm_compute. left.
Defined.
