(* ===== verification/Registry.v ===== *)
(** * Functions, the registry and the start check

    [crates/runtime/src/registry.rs] and [capabilities.rs]: the functions a host
    registers and the capabilities it gives, what a definition is validated against, the
    ids of child runs, and what a definition version needs, cached per generation of the
    registry. A handler is the host's: calling it is an operation of [Admitter]. *)
From S2P Require Import Prelude Json Keys Outcome Journal Expr Listen Types Model Analysis Parser DocumentParser Validator Schedules.

(** The libraries the runtime calls beyond those of the documents: jsonschema's
    [Validator::validate] (its first error), the jq compiler, the hash of
    [DefaultHasher], and the version the build gives the crate. *)
Class RuntimeLibraries := {
  schema_violation : value → value → option string;
  jq_compile : string → list string → option string;
  text_hash : string → Z;
  package_version : string
}.

(** ** Functions *)

(** [Function], but for its handler. *)
Record Function := mkFunction {
  fu_name : string;
  fu_input : value;
  fu_output : value;
  fu_delivery : Delivery
}.
(** [Registry]; the compiled schemas of a [Registered] are those of its function. *)
Abbreviation Registry := (gmap string Function).
(** [builtin]. *)
Definition builtin (name : string) : bool := bool_decide (name = "start_child" ∨ name = "child_outcome").
(** [Catalog for Registry]. *)
Definition registry_has (r : Registry) (name : string) : bool := bool_decide (is_Some (r !! name)) || builtin name.
(** [ProcessRunner], but for [run], and the capabilities of a runtime: those that are
    called are operations of [Admitter]. *)
Record ProcessRunner := mkRunner { pr_runs : string → bool; pr_delivery : string → Delivery }.
Record Capabilities := mkCapabilities {
  cp_processes : option ProcessRunner;
  cp_secrets : bool;
  cp_resources : bool;
  cp_sink : bool
}.
Definition no_capabilities : Capabilities := mkCapabilities None false false false.
(** [self.capabilities.processes.as_ref().is_some_and(|p| p.runs(kind))] *)
Definition runs_process (c : Capabilities) (kind : string) : bool :=
  match cp_processes c with Some p => pr_runs p kind | None => false end.

(** [has_expression]. *)
Fixpoint has_expression (v : value) : bool :=
  match v with
  | VStr s => contains_str "${" s
  | VArr l => existsb has_expression l
  | VObj m => existsb snd (entries (has_expression <$> m))
  | _ => false
  end.
(** [Delivery] as serde writes it. *)
Definition delivery_value (d : Delivery) : value :=
  VStr (match d with AtLeastOnce => "at_least_once" | AtMostOnce => "at_most_once" end).

(** ** Ids and host data *)

(** [hashed_id]: 128 bits of the hash of the parts as a JSON array. *)
Definition hashed_id `{Host} (prefix : string) (parts : list string) : string :=
  prefix +:+ String.concat "" (hex_fixed 2 <$> take 16 (sha256 (value_to_string (VArr (VStr <$> parts))))).
Definition host_child_id `{Host} (run_id reference key : string) : string :=
  hashed_id "hostchild:" [run_id; reference; key].
Definition child_id `{Host} (run_id reference : string) : string := hashed_id "child:" [run_id; reference].
Definition MAX_HOST_BYTES : Z := 16 * 1024.
(** [host_data]: the refusal is the size. *)
Definition host_data `{Host} (host : value) : result Z (option value) :=
  if is_null host then Ok None
  else
    let bytes := default usize_max (to_vec_len host) in
    if decide (MAX_HOST_BYTES < bytes) then Err bytes else Ok (Some host).

(** ** The start check *)

Record MissingFunction := mkMissing { mf_function : string; mf_path : list (string * Z) }.
(** [Display for MissingFunction], [MissingFunction::error]. *)
Definition missing_display (m : MissingFunction) : string :=
  let shown (x : string * Z) := x.1 +:+ " version " +:+ pretty x.2 in
  "function `" +:+ mf_function m +:+ "` is not registered" +:+
  match shown <$> mf_path m with
  | [] => ""
  | first :: path => "; called by " +:+ foldl (λ a b, a +:+ " > " +:+ b) first path
  end.
Definition configuration (detail : string) : WorkflowError :=
  Error.standard "configuration" 400 "Configuration Error" detail.
Definition missing_error (m : MissingFunction) : WorkflowError := configuration (missing_display m).

(** [Needs]. *)
Record Needs := mkNeeds {
  nd_missing : option string;
  nd_children : list (string * string * string)
}.
(** The key of a check: name, version, hash of the text, generation. *)
Abbreviation CheckKey := (string * Z * Z * Z)%type.
Abbreviation Checks := (gmap CheckKey Needs).
(** [Installed]. *)
Record Installed := mkInstalled { in_registry : Registry; in_generation : Z; in_checks : Checks }.
(** [Installed::replace]. *)
Definition replace_registry (i : Installed) (r : Registry) : Installed := mkInstalled r (in_generation i + 1) ∅.

Section with_libraries.
Context `{Host, Libraries, RuntimeLibraries}.

(** [Registry::register]. *)
Definition register (r : Registry) (f : Function) : result string Registry :=
  if decide (fu_name f = "" ∨ builtin (fu_name f) = true) then Err "empty or reserved function name"
  else if decide (is_Some (r !! fu_name f)) then Err ("function " +:+ fu_name f +:+ " already registered")
  else match schema_error (fu_input f) with
  | Some e => Err e
  | None => match schema_error (fu_output f) with
    | Some e => Err e
    | None => Ok (<[fu_name f := f]> r)
    end
  end.

(** [HostCatalog]. *)
Definition host_catalog (r : Registry) (c : Capabilities) : Catalog := {|
  has_function := registry_has r;
  has_events := true;
  has_emits := true;
  has_children := true;
  has_process := runs_process c;
  has_secrets := cp_secrets c;
  has_resources := cp_resources c;
  jq_error := jq_compile
|}.
(** The first failure of a list of checks. *)
Fixpoint first_error {A} (check : A → result string unit) (l : list A) : result string unit :=
  match l with [] => Ok () | x :: l => _ ← check x; first_error check l end.
Definition require (b : bool) (e : string) : result string unit := if b then Ok () else Err e.
(** The arguments a call site gives a registered function: against its schema when no
    expression is in them, else by their names. *)
Definition check_site (r : Registry) (site : CallSite) : result string unit :=
  match r !! site_function site with
  | None => Ok ()
  | Some f =>
      let here := site_reference site +:+ ": " +:+ site_function site in
      let args := default (VObj ∅) (site_with site) in
      if negb (has_expression args) then
        match schema_violation (fu_input f) args with
        | Some e => Err (here +:+ " input: " +:+ e)
        | None => Ok ()
        end
      else match args with
      | VObj given =>
          _ ← first_error (λ name, require (has name given) (here +:+ " needs argument " +:+ name))
                (omap as_str (default [] (as_array (vindex "required" (fu_input f)))));
          match vindex "additionalProperties" (fu_input f), vindex "properties" (fu_input f) with
          | VBool false, VObj properties =>
              first_error (λ x : string * value, require (has x.1 properties) (here +:+ " takes no argument " +:+ x.1))
                (entries given)
          | _, _ => Ok ()
          end
      | _ => Ok ()
      end
  end.
(** [Registry::validate_with]. *)
Definition validate_with (r : Registry) (c : Capabilities) (yaml : string) : result string Parsed :=
  p ← parsed yaml;
  match validate (H := host_catalog r c) p with
  | [] => _ ← first_error (check_site r) (call_sites (pa_workflow p)); Ok p
  | problems => Err (problems_text problems)
  end.
(** [Registry::bindings]. *)
Definition bindings (r : Registry) (wf : Workflow) : value :=
  VObj (foldl (λ m site, match r !! site_function site with
    | Some f => <[site_function site := VObj (<["input" := fu_input f]> (<["output" := fu_output f]>
                    {[ "delivery" := delivery_value (fu_delivery f) ]}))]> m
    | None => m
    end) ∅ (call_sites wf)).

(** [Needs::of]. *)
Definition is_local (wf : Workflow) (name : string) : bool :=
  existsb (λ x : string * Task, bool_decide (x.1 = name)) (us_functions (wf_uses wf)).
Fixpoint processes_need (c : Capabilities) (missing : option string) (l : list Process) : Needs :=
  match l with
  | [] => mkNeeds missing []
  | PWorkflow namespace name version _ :: l =>
      let n := processes_need c missing l in mkNeeds (nd_missing n) ((namespace, name, version) :: nd_children n)
  | PExternal kind _ :: l =>
      processes_need c
        (match missing with
         | None => if runs_process c kind then None else Some ("run:" +:+ kind)
         | Some m => Some m
         end) l
  end.
Definition needs_of (r : Registry) (c : Capabilities) (yaml : string) : Needs :=
  match parse_yaml yaml with
  | Err _ => mkNeeds None []
  | Ok p =>
      let wf := pa_workflow p in
      processes_need c
        (head (filter (λ name, is_local wf name = false ∧ registry_has r name = false) (site_function <$> call_sites wf)))
        (processes wf)
  end.
(** [Checks::needs]: what is cached, else computed and stored unless another check did
    meanwhile ([found] is the cache at the second look). *)
Definition check_key (name : string) (version : Z) (yaml : string) (generation : Z) : CheckKey :=
  (name, version, text_hash yaml, generation).
Definition checks_needs (before found : Checks) (r : Registry) (generation : Z) (c : Capabilities)
    (name : string) (version : Z) (yaml : string) : Needs * Checks :=
  let k := check_key name version yaml generation in
  match before !! k with
  | Some n => (n, before)
  | None =>
      let n := default (needs_of r c yaml) (found !! k) in
      (n, <[k := n]> found)
  end.
End with_libraries.
