(* ===== verification/Admitter.v ===== *)
(** * Admission and the interpreter's host

    [crates/runtime/src/execution.rs], sections 2 and 4: how a run is admitted (its
    definition checked, validated and bound, its place in a run tree), and what the
    runtime answers the interpreter and the handlers of a drive: calls, child runs, the
    runs of a call's lineage. A function is a program ([rt], a free monad that fails with
    values of its own type) over the calls of the store, each one transaction, of the
    host's resolver, handlers and runners, and of the clock; between two of them other
    processes act. Spans, metrics and observers are not part of the programs. The checks
    of [Registry] that are cached are computed here: the cache answers the same. *)
From S2P Require Import Prelude Json Outcome Journal Expr Listen Secrets Drive Model Tasks Execute Types RunStore Control.
From S2P Require Import Analysis Parser DocumentParser Validator Schedules Registry.

(** ** Errors *)

(** What an operation or a step fails with, by the type of the error the code gives it;
    [RfFuel] is the model's own. *)
Inductive fault :=
| RfTripped (t : DefinitionTripped)
| RfMismatch (m : AdmissionMismatch)
| RfHeld (run : string)
| RfStopped
| RfIdentity (identity : string)
| RfMissing (m : MissingFunction)
| RfInvalid (e : string)
| RfUnavailable (uri e : string)
| RfUnknown (e : string)
| RfRefused (e : WorkflowError)
| RfOther (e : string)
| RfFuel.
(** [Display for AdmissionMismatch], and of the others. *)
Definition mismatch_display (m : AdmissionMismatch) : string :=
  "run " +:+ am_id m +:+ " was already admitted with another " +:+
  match am_field m with
  | FieldName => "definition"
  | FieldVersion => "version"
  | FieldHost => "host data"
  | FieldLink => "parent link"
  end.
Definition fault_text (f : fault) : string :=
  match f with
  | RfTripped t => tripped_display t
  | RfMismatch m => mismatch_display m
  | RfHeld run => "run " +:+ run +:+ " is held by an operator"
  | RfStopped => "runtime emergency stop is set"
  | RfIdentity identity => "event " +:+ identity +:+ " was already accepted with another payload"
  | RfMissing m => missing_display m
  | RfUnavailable uri e => "schema " +:+ uri +:+ ": " +:+ e
  | RfRefused e => Error.display e
  | RfInvalid e | RfUnknown e | RfOther e => e
  | RfFuel => ""
  end.
(** [refusal]: why this host refuses a run, as a trigger records it. *)
Definition refusal_of (f : fault) : option WorkflowError :=
  match f with
  | RfMissing m => Some (missing_error m)
  | RfInvalid e => Some (Error.validation e)
  | _ => None
  end.
(** [ChildRefusal], [ChildError]. *)
Inductive ChildRefusal :=
| CrUnavailable
| CrHostData (bytes : Z)
| CrDepth (e : WorkflowError)
| CrTripped (t : DefinitionTripped)
| CrMismatch (m : AdmissionMismatch)
| CrInadmissible (f : fault).
Inductive ChildError := CeRefused (r : ChildRefusal) | CeInterrupted (f : fault).
(** [child_error]. *)
Definition child_error (f : fault) : ChildError :=
  match f with
  | RfTripped t => CeRefused (CrTripped t)
  | RfMismatch m => CeRefused (CrMismatch m)
  | RfMissing _ | RfInvalid _ | RfUnknown _ => CeRefused (CrInadmissible f)
  | _ => CeInterrupted f
  end.
(** [Display for ChildError], [From<ChildError> for FunctionError]. *)
Definition host_data_display (bytes : Z) : string :=
  "host data of " +:+ pretty bytes +:+ " bytes exceeds " +:+ pretty MAX_HOST_BYTES +:+ " bytes".
Definition child_error_text (e : ChildError) : string :=
  match e with
  | CeRefused CrUnavailable => "this call cannot start child runs (a process run or a mocked call)"
  | CeRefused (CrHostData bytes) => host_data_display bytes
  | CeRefused (CrDepth e) => Error.display e
  | CeRefused (CrTripped t) => tripped_display t
  | CeRefused (CrMismatch m) => mismatch_display m
  | CeRefused (CrInadmissible f) | CeInterrupted f => fault_text f
  end.
Definition child_error_answer (e : ChildError) : WorkflowError :=
  match e with
  | CeRefused _ => Error.not_executed (child_error_text e)
  | CeInterrupted _ => Error.interrupted (child_error_text e)
  end.
(** [reserved_child_error]. *)
Definition reserved_child_error (f : fault) : fault :=
  match child_error f with
  | CeRefused (CrTripped t) => RfRefused (tripped_error t)
  | CeRefused reason => RfRefused (Error.not_executed (child_error_text (CeRefused reason)))
  | CeInterrupted f => f
  end.
(** [mismatch]. *)
Definition mismatch (m : AdmissionMismatch) : fault := RfRefused (Error.not_executed (mismatch_display m)).

(** ** Programs *)

(** [Output], what a handler is given but for its cancellation token, span and meter
    ([FunctionContext]; whether it may start children and reach runs), and a recorded
    call ([RecordedCall]). *)
Record Output := mkOut { ou_value : value; ou_annotations : Annotations }.
Record FunctionContext := mkFunctionContext {
  fc_run_id : string;
  fc_task_path : string;
  fc_attempt : Z;
  fc_idempotency_key : string;
  fc_input : value;
  fc_function : string;
  fc_definition : string;
  fc_version : Z;
  fc_delivery : Delivery;
  fc_host : option value;
  fc_children : bool;
  fc_runs : bool
}.
#[export] Instance eta_FunctionContext : Eta FunctionContext := λ c,
  mkFunctionContext (fc_run_id c) (fc_task_path c) (fc_attempt c) (fc_idempotency_key c) (fc_input c) (fc_function c)
    (fc_definition c) (fc_version c) (fc_delivery c) (fc_host c) (fc_children c) (fc_runs c).
Record RecordedCall := mkRecordedCall {
  rc_task_path : string;
  rc_logical : string;
  rc_function : string;
  rc_arguments : value;
  rc_delivery : Delivery;
  rc_result : result WorkflowError value;
  rc_annotations : Annotations
}.
(** [Lineage]: the jump budget the run was admitted with, and its ancestors. *)
Record Lineage := mkLineage { ln_max_jumps : Z; ln_depth : Z }.
#[export] Instance Lineage_eq_dec : EqDecision Lineage. Proof. solve_decision. Defined.
(** [Mode]: a dry run knows which calls its host mocks, a replay what was recorded. *)
Record Recorded := mkRecorded {
  re_calls : gmap string (RecordedCall * CallStatus);
  re_events : gmap string value;
  re_budgets : gmap string bool;
  re_first : option string
}.
(** What a replay takes from a run's records ([replay_inner]): its calls by reference, a
    call without an answer as the unknown outcome it was; the events taken, the decisions
    on its budget and the first refusal of it. *)
Definition recorded_call (reference : string) (c : Call) : RecordedCall :=
  mkRecordedCall reference (logical c) (function c) (arguments c) (delivery c)
    (match call_state c with
     | Done r => r
     | NotExecuted e => Err e
     | Pending => Err (Error.unknown_outcome "the recorded call has no answer")
     end) (annotations c).
Fixpoint recorded_calls (l : list (string * JRecord)) (out : gmap string (RecordedCall * CallStatus))
    : result string (gmap string (RecordedCall * CallStatus)) :=
  match l with
  | [] => Ok out
  | (key, RCall c) :: l =>
      match strip_suffix "#call" key with
      | Some reference =>
          recorded_calls l (<[reference := (recorded_call reference c, call_status (delivery c) (call_state c))]> out)
      | None => Err "invalid call record key"
      end
  | _ :: l => recorded_calls l out
  end.
Definition kept {A} (f : JRecord → option A) (records : list (string * JRecord)) : list (string * A) :=
  omap (λ x : string * JRecord, pair x.1 <$> f x.2) records.
Definition recorded_of (records : list (string * JRecord)) : result string Recorded :=
  let events := list_to_map (kept (λ r, match r with REvent event => Some event | _ => None end) records) in
  let budgets := list_to_map (kept (λ r, match r with RBudget granted _ _ => Some granted | _ => None end) records) in
  let first := head (kept (λ r, match r with RExceeded by_ => Some by_ | _ => None end) records).*2 in
  calls ← recorded_calls records ∅;
  Ok (mkRecorded calls events budgets first).
Inductive Mode := Live | Dry (mocks : string → value → bool) | Replay (r : Recorded).
(** [ExecutionFunctions], but for what reports and the permits. *)
Record Execution := mkExecution {
  xn_fence : Fence;
  xn_definition : string * Z;
  xn_lineage : Lineage;
  xn_mode : Mode;
  xn_host : option value;
  xn_schemas : gmap string value
}.
(** [Pinned]: the external schemas a run was admitted with. *)
Definition pinned_schema (m : gmap string value) (uri : string) : result string value :=
  match m !! uri with Some v => Ok v | None => Err ("schema " +:+ uri +:+ " was not resolved at admission") end.
(** A run as a drive hands it to the interpreter ([resume_from]): its host, what it is
    called with, and the records the drive read, or why it could not. *)
Record Driven := mkDriven {
  dv_host : Execution;
  dv_start : Start;
  dv_loaded : result fault (gmap string JRecord)
}.
(** What comes first while a run executes: the worker's stop, a renewal of the lease that
    fails, or the run's end. *)
Inductive raced := RcStopped | RcRenewal (f : fault) | RcEnded (o : RunOutcome).
(** The calls of the definition source and the store ([RoDefinitions] to [RoTake],
    [RoClaim] to [RoSave], [RoCancel], [RoList]), of the host ([RoResolve], a handler, a
    runner, the answer of a mock, the sink), the span a run is admitted in, a permit of
    the runtime's (given unless the call or the drive is cancelled first; of an isolated
    run, that it is not), what a dry run or a replay notes down, the operations of
    schedules, a run executing together with its heartbeat, and a held one that goes on
    until the calls it sent are answered ([RoSettle]). *)
Inductive rt_op :=
| RoDefinitions (name : string)
| RoGet (id : string)
| RoAdmit (a : Admission) (now : Z)
| RoStartChild (parent : Fence) (a : Admission) (link : ChildLink) (now : Z)
| RoRelease (f : Fence) (now : Z)
| RoCheckLease (f : Fence) (now : Z)
| RoChildOutcome (parent key child : string)
| RoInspect (id : string)
| RoQueryRuns (filter : Runs) (history : bool) (cursor : option Cursor) (limit : nat)
| RoDeliver (event : value) (target : option string) (now : Z)
| RoPublish (event : value) (target : option string) (now : Z)
| RoSpend (f : Fence) (key : string) (limit now : Z)
| RoTake (f : Fence) (run key : string) (types : list string)
| RoNow
| RoTrace
| RoResolve (uri : string)
| RoPermit
| RoHandler (name : string) (args : value) (c : FunctionContext)
| RoProcess (kind : string) (args : value) (c : FunctionContext)
| RoMock (name : string) (args : value) (c : FunctionContext)
| RoSink (event : value)
| RoMocked (r : RecordedCall)
| RoUsed (reference : string)
| RoSchedule (o : sched_op)
| RoClaim (id : string) (now : Z) (worker : Compatibility)
| RoLoad (f : Fence) (now : Z)
| RoFinish (f : Fence) (outcome : Status) (now threshold : Z)
| RoStopped
| RoDue (now : Z) (limit : nat) (worker : Compatibility)
| RoSweep (now kept : Z)
| RoBeat (w : Worker)
| RoSave (name yaml : string) (b : Breaker)
| RoRace (d : Driven)
| RoSettle (d : Driven)
| RoCancel (id : string) (now : Z)
| RoList.
Definition rt_answer (o : rt_op) : Type :=
  match o with
  | RoDefinitions _ => Definitions
  | RoGet _ => option SavedRun
  | RoAdmit _ _ => bool
  | RoStartChild _ _ _ _ => option Fence
  | RoRelease _ _ | RoCheckLease _ _ | RoMocked _ | RoUsed _ => unit
  | RoChildOutcome _ _ _ => option Status
  | RoInspect _ => option RunSnapshot
  | RoQueryRuns _ _ _ _ => Page SavedRun
  | RoDeliver _ _ _ => option string
  | RoPublish _ _ _ => list string
  | RoSpend _ _ _ _ => option JRecord
  | RoTake _ _ _ _ => option value
  | RoNow => Z
  | RoTrace => option (string * string)
  | RoResolve _ => value
  | RoPermit => bool
  | RoHandler _ _ _ | RoMock _ _ _ => result WorkflowError Output
  | RoProcess _ _ _ => result WorkflowError value
  | RoSink _ => result WorkflowError unit
  | RoSchedule o => sched_answer o
  | RoClaim _ _ _ => option Fence
  | RoLoad _ _ => gmap string JRecord
  | RoFinish _ _ _ _ => Status
  | RoStopped => bool
  | RoDue _ _ _ => list string
  | RoSweep _ _ => Swept
  | RoBeat _ => unit
  | RoSave _ _ _ => DefinitionV
  | RoRace _ => raced
  | RoSettle _ => option RunOutcome
  | RoCancel _ _ => bool
  | RoList => list SavedRun
  end.
Inductive rt (E A : Type) :=
| RRet (a : A)
| RFail (e : E)
| ROp (o : rt_op) (k : result fault (rt_answer o) → rt E A).
Arguments RRet {E A} a.
Arguments RFail {E A} e.
Arguments ROp {E A} o k.
Fixpoint rt_bind_ {E A B} (f : A → rt E B) (p : rt E A) : rt E B :=
  match p with
  | RRet a => f a
  | RFail e => RFail e
  | ROp o k => ROp o (λ x, rt_bind_ f (k x))
  end.
#[export] Instance rt_ret {E} : MRet (rt E) := @RRet E.
#[export] Instance rt_bind {E} : MBind (rt E) := @rt_bind_ E.
(** [map_err], [?] on a result, and an operation with its error mapped. *)
Fixpoint map_err {E F A} (f : E → F) (p : rt E A) : rt F A :=
  match p with
  | RRet a => RRet a
  | RFail e => RFail (f e)
  | ROp o k => ROp o (λ x, map_err f (k x))
  end.
Definition fail_with {E F A} (f : E → F) (r : result E A) : rt F A :=
  match r with Ok a => RRet a | Err e => RFail (f e) end.
Definition call_with {E} (f : fault → E) (o : rt_op) : rt E (rt_answer o) := ROp o (fail_with f).
Definition request : ∀ o : rt_op, rt fault (rt_answer o) := call_with (λ e, e).
(** Its result as a value. *)
Fixpoint outcome_of {E F A} (p : rt E A) : rt F (result E A) :=
  match p with
  | RRet a => RRet (Ok a)
  | RFail e => RRet (Err e)
  | ROp o k => ROp o (λ x, outcome_of (k x))
  end.

(** ** A run's place in its tree *)

(** [Lineage::of]: what an admission does not pin is a root's under today's ceiling. *)
Definition lineage_of (a : Admission) (limits : Limits) : Lineage :=
  let pinned := vindex "limits" (a_runtime a) in
  mkLineage (default (lm_max_jumps limits) (Json.as_u64 (vindex "max_jumps" pinned)))
    (match Json.as_u64 (vindex "depth" pinned) with Some d => if decide (d ≤ u32_max) then d else 0 | None => 0 end).
(** [Lineage::child]: refused past the host's nesting depth, [max_depth] of [Limits]. *)
Definition lineage_child (l : Lineage) (max_depth : Z) : result WorkflowError Lineage :=
  let depth := sat_addu32 (ln_depth l) 1 in
  if decide (max_depth < depth) then
    Err (Error.budget ("a child run would nest " +:+ pretty depth +:+ " deep; this host allows " +:+ pretty max_depth))
  else Ok (mkLineage (ln_max_jumps l) depth).
Definition pin (l : Lineage) : value :=
  VObj (<["max_jumps" := vint (ln_max_jumps l)]> {[ "depth" := vint (ln_depth l) ]}).
(** [validate_limits] of [run.rs]: a definition only tightens the host's ceiling. *)
Definition validate_limits (wf : Workflow) (limits : Limits) : result string unit :=
  match bu_max_jumps (wf_budget wf) with
  | Some n =>
      if decide (lm_max_jumps limits < n) then
        Err (problems_text [mkProblem "/document/metadata/ouro/limits/max_jumps"
               (pretty n +:+ " is above this host's ceiling of " +:+ pretty (lm_max_jumps limits) +:+ " jumps")])
      else Ok ()
  | None => Ok ()
  end.
(** [a.runtime[key] = value] *)
Definition with_runtime (k : string) (v : value) (a : Admission) : Admission :=
  mkAdmission (a_id a) (a_name a) (a_version a) (a_definition a) (a_input a) (vset k v (a_runtime a)).
Definition with_host (h : option value) (a : Admission) : Admission :=
  match h with Some h => with_runtime HOST h a | None => a end.

(** ** Admission *)

(** [Admitter], but for what reports. *)
Record Admitter := mkAdmitter {
  ad_registry : Registry;
  ad_capabilities : Capabilities;
  ad_metadata : value;
  ad_application : option string;
  ad_limits : Limits;
  ad_max_depth : Z;
  ad_breaker_threshold : Z;
  ad_max_concurrent_runs : nat
}.
(** A definition as a check sees it. *)
Definition identified : Type := string * Z * string.
Definition of_definition (d : DefinitionV) : identified := (d_name d, d_version d, d_yaml d).
(** The versions of a definition, newest first. *)
Definition newer (a b : Z * DefinitionV) : Prop := b.1 ≤ a.1.
#[export] Instance newer_dec : RelDecision newer. Proof. intros a b. unfold newer. apply _. Defined.
Definition newest_first (d : Definitions) : list DefinitionV := (merge_sort newer (map_to_list (versions d))).*2.

Section admission.
Context `{Host, Libraries, RuntimeLibraries}.
Variable adm : Admitter.
(** How many definitions a start check may enter. *)
Variable fuel : nat.

(** [Admitter::root]. *)
Definition root_lineage : Lineage := mkLineage (lm_max_jumps (ad_limits adm)) 0.
(** [Admitter::target]. *)
Definition document_names (d : DefinitionV) : option (string * string) :=
  match from_yaml (d_yaml d) with
  | Ok v => doc ← vget "document" v; ns ← vget "namespace" doc ≫= as_str; version ← vget "version" doc ≫= as_str;
            Some (ns, version)
  | Err _ => None
  end.
Definition target_in (d : Definitions) (namespace version : string) : option DefinitionV :=
  candidate ← (if decide (version = "latest") then active d ≫= λ v, versions d !! v
               else snd <$> list_find (λ v, snd <$> document_names v = Some version) (newest_first d));
  if decide (fst <$> document_names candidate = Some namespace) then Some candidate else None.
Definition target (namespace name version : string) : rt fault (option DefinitionV) :=
  d ← request (RoDefinitions name); mret (target_in d namespace version).
(** [Admitter::check_tree]: [seen] are the versions entered so far, [path] leads here. *)
Fixpoint check_children (visit : gset (string * Z) → DefinitionV → rt fault (gset (string * Z)))
    (seen : gset (string * Z)) (l : list (string * string * string)) : rt fault (gset (string * Z)) :=
  match l with
  | [] => mret seen
  | (namespace, name, version) :: l =>
      d ← target namespace name version;
      seen ← match (d : option DefinitionV) with Some d => visit seen d | None => mret seen end;
      check_children visit seen l
  end.
Fixpoint check_tree (fuel : nat) (path : list (string * Z)) (seen : gset (string * Z)) (d : identified)
    : rt fault (gset (string * Z)) :=
  match fuel with
  | O => RFail RfFuel
  | S fuel =>
      let '(name, version, yaml) := d in
      if decide ((name, version) ∈ seen) then mret seen
      else
        let path := path ++ [(name, version)] in
        let needs := needs_of (ad_registry adm) (ad_capabilities adm) yaml in
        match nd_missing needs with
        | Some f => RFail (RfMissing (mkMissing f path))
        | None =>
            check_children (λ seen d, check_tree fuel path seen (of_definition d)) ({[ (name, version) ]} ∪ seen)
              (nd_children needs)
        end
  end.
(** [Admitter::check]. *)
Definition check (d : identified) : rt fault unit := _ ← check_tree fuel [] ∅ d; mret ().

(** [Admitter::schemas]. *)
Fixpoint schemas_from (uris : list string) (out : gmap string value) : rt fault (gmap string value) :=
  match uris with
  | [] => mret out
  | uri :: uris =>
      _ ← (if cp_resources (ad_capabilities adm) then mret () else RFail (RfOther ("no resource resolver for " +:+ uri)));
      document ← call_with (λ e, RfUnavailable uri (fault_text e)) (RoResolve uri);
      match schema_error document with
      | Some e => RFail (RfOther ("schema " +:+ uri +:+ " is not a JSON Schema: " +:+ e))
      | None => schemas_from uris (<[uri := document]> out)
      end
  end.
Definition schemas (p : Parsed) : rt fault (gmap string value) := schemas_from (schema_resources (pa_workflow p)) ∅.
(** [Admitter::validate]. *)
Definition validated (yaml : string) : rt fault Parsed :=
  p ← fail_with RfOther (validate_with (ad_registry adm) (ad_capabilities adm) yaml);
  _ ← fail_with RfOther (validate_limits (pa_workflow p) (ad_limits adm));
  _ ← schemas p;
  mret p.
(** [Admitter::admission]. *)
Definition runtime_value (l : Lineage) (bound : option (value * gmap string value)) (trace : option (string * string))
    : value :=
  let r := VObj (<["name" := VStr "ouro-runtime"]> (<["version" := VStr package_version]>
             {[ "metadata" := ad_metadata adm ]})) in
  let r := match bound with
    | Some (bindings, schemas) => vset "schemas" (VObj schemas) (vset "bindings" bindings r)
    | None => r
    end in
  let r := vset "limits" (pin l) r in
  let r := match ad_application adm with Some v => vset APPLICATION_VERSION (VStr v) r | None => r end in
  match trace with Some (t, s) => vset "span_id" (VStr s) (vset "trace_id" (VStr t) r) | None => r end.
Definition admission (id : string) (d : DefinitionV) (input : value) (l : Lineage)
    (bound : option (value * gmap string value)) : rt fault Admission :=
  trace ← request RoTrace;
  mret (mkAdmission id (d_name d) (d_version d) (d_yaml d) input (runtime_value l bound trace)).
(** [Admitter::of]. *)
Definition invalid (f : fault) : fault :=
  match f with RfUnavailable uri e => f | f => RfInvalid (fault_text f) end.
Definition admission_of (id : string) (d : DefinitionV) (input : value) (l : Lineage) : rt fault Admission :=
  _ ← check (of_definition d);
  p ← map_err invalid (validated (d_yaml d));
  s ← map_err invalid (schemas p);
  admission id d input l (Some (bindings (ad_registry adm) (pa_workflow p), s)).
(** [Admitter::current]. *)
Definition current (name : string) : rt fault DefinitionV :=
  d ← request (RoDefinitions name);
  match tripped d with
  | Some t => RFail (RfTripped (Types.refusal t name))
  | None =>
      match active d ≫= λ v, versions d !! v with
      | Some v => mret v
      | None => RFail (RfUnknown ("no active definition for " +:+ name))
      end
  end.
(** [Admitter::active_in], [pinned_in], [active] and [pinned]. *)
Definition active_in (id name : string) (input : value) (l : Lineage) : rt fault Admission :=
  d ← current name; admission_of id d input l.
Definition pinned_in (id name : string) (version : Z) (input : value) (l : Lineage) : rt fault Admission :=
  d ← request (RoDefinitions name);
  match versions d !! version with
  | Some v => a ← admission_of id v input l; mret (with_runtime PINNED (VBool true) a)
  | None => RFail (RfUnknown ("unknown definition version " +:+ pretty version +:+ " of " +:+ name))
  end.
(** [Admitter::triggered]. *)
Definition triggered (id name : string) (input schedule : value) : rt fault (result Refused Admission) :=
  d ← current name;
  r ← outcome_of (admission_of id d input root_lineage);
  match (r : result fault Admission) with
  | Ok a => mret (Ok (with_runtime "schedule" schedule a))
  | Err f =>
      match refusal_of f with
      | Some e =>
          a ← admission id d input root_lineage None;
          mret (Err (mkRefused (with_runtime "schedule" schedule a) e (ad_breaker_threshold adm)))
      | None => RFail f
      end
  end.
(** A program of [Schedules] with this admitter in it. *)
Definition failure_of (f : fault) : failure :=
  match f with
  | RfTripped t => Tripped t
  | RfUnavailable _ _ => Unavailable (fault_text f)
  | f => Failed (fault_text f)
  end.
Definition answer_of {A} (x : result fault A) : result failure A :=
  match x with Ok a => Ok a | Err f => Err (failure_of f) end.
Definition schedule_op (o : sched_op) : rt failure (result failure (sched_answer o)) :=
  match o as o return rt failure (result failure (sched_answer o)) with
  | SoTriggered id name input schedule =>
      rt_bind_ (λ x : result fault (result Refused Admission), RRet (answer_of x))
        (outcome_of (triggered id name input schedule))
  | o => ROp (RoSchedule o) (λ x, RRet (answer_of x))
  end.
Fixpoint scheduled {A} (p : sched A) : rt failure A :=
  match p with
  | SRet a => RRet a
  | SFail e => RFail e
  | SOp o k => x ← schedule_op o; scheduled (k x)
  end.

(** [Runtime::start_with]. *)
Definition start_with (id name : string) (input : value) (version : option Z) (host_ : value)
    : rt fault SavedRun :=
  h ← fail_with (λ bytes, RfOther (host_data_display bytes)) (host_data host_);
  saved ← request (RoGet id);
  match (saved : option SavedRun) with
  | Some saved => _ ← fail_with RfMismatch (joins (r_admission saved) name version h); mret saved
  | None =>
      a ← match version with
          | Some version => pinned_in id name version input root_lineage
          | None => active_in id name input root_lineage
          end;
      now ← request RoNow;
      _ ← request (RoAdmit (with_host h a) now);
      saved ← request (RoGet id);
      match (saved : option SavedRun) with
      | Some saved => mret saved
      | None => RFail (RfOther "admitted run disappeared")
      end
  end.
End admission.

(** ** The interpreter's host *)

(** [CallInfo], but for the cancellation token and the annotations, which a call returns
    here beside its answer. *)
Record CallInfo := mkCallInfo {
  ci_run_id : string;
  ci_reference : string;
  ci_logical : string;
  ci_attempt : Z;
  ci_delivery : Delivery;
  ci_input : value;
  ci_secrets : Redaction
}.
(** What [start_child] gives: [ChildRef], and [Child]. *)
Record ChildRef := mkChildRef { cr_id : string; cr_key : string; cr_done : string; cr_waiting : string }.
Definition child_ref (id key : string) : ChildRef := mkChildRef id key ("done:" +:+ id) ("waiting:" +:+ id).
Definition child_ref_value (c : ChildRef) : value :=
  VObj (<["id" := VStr (cr_id c)]> (<["key" := VStr (cr_key c)]> (<["done" := VStr (cr_done c)]>
    {[ "waiting" := VStr (cr_waiting c) ]}))).
(** [Status] as serde writes it. *)
Class StatusFormat := { status_value : option Status → value }.

(** An admission with its host, and the answer of one made for a child ([Err] where it is
    refused): what is sent to the store, and what happens then. *)
Definition commit_child {E} (f g : fault → E) (fence : Fence) (a : Admission) (link : ChildLink) (now : Z) : rt E unit :=
  started ← call_with f (RoStartChild fence a link now);
  match (started : option Fence) with Some fence => call_with g (RoRelease fence now) | None => mret () end.
(** A failure as an interrupted or a not executed call. *)
Definition interrupted_call (f : fault) : CallFailure := FInterrupted (Error.runtime (fault_text f)).
Definition refused_call (f : fault) : CallFailure :=
  match f with
  | RfTripped t => FNotExecuted (tripped_error t)
  | RfMismatch m => FNotExecuted (Error.not_executed (mismatch_display m))
  | f => interrupted_call f
  end.
Definition failed_builtin (f : fault) : CallFailure :=
  match f with RfRefused e => FNotExecuted e | f => interrupted_call f end.
Definition misconfigured (f : fault) : CallFailure := FNotExecuted (configuration (fault_text f)).
Definition is_replay (m : Mode) : bool := match m with Replay _ => true | _ => false end.

Section execution.
Context `{Host, Libraries, RuntimeLibraries, StatusFormat, Calendar}.
Variable adm : Admitter.
Variable fuel : nat.
Variable xn : Execution.

(** ** Child runs *)

(** [HostChildren::start_child], for a call of the drive: [start] is the [ChildStart]'s
    key, name, version, input and host data. *)
Definition admit_host_child (id name : string) (version : option Z) (input : value) (l : Lineage) : rt fault Admission :=
  match version with
  | Some version => pinned_in adm fuel id name version input l
  | None => active_in adm fuel id name input l
  end.
Definition host_start_child (run_id reference logical_ key name : string) (version : option Z) (input host_ : value)
    : rt ChildError ChildRef :=
  l ← fail_with (λ e, CeRefused (CrDepth e)) (lineage_child (xn_lineage xn) (ad_max_depth adm));
  let id := host_child_id run_id reference key in
  let key := logical_ +:+ "/" +:+ key in
  saved ← call_with CeInterrupted (RoGet id);
  a ← match (saved : option SavedRun) with
      | Some saved =>
          _ ← fail_with (λ m, CeRefused (CrMismatch m))
                (joins (r_admission saved) name None (host (r_admission saved)));
          mret (r_admission saved)
      | None =>
          h ← fail_with (λ bytes, CeRefused (CrHostData bytes)) (host_data host_);
          a ← map_err child_error (admit_host_child id name version input l);
          mret (with_host h a)
      end;
  now ← call_with CeInterrupted RoNow;
  _ ← commit_child child_error CeInterrupted (xn_fence xn) a (mkLink run_id key reference) now;
  mret (child_ref id key).

(** [builtin]: [child_outcome] and [start_child], reserved. *)
Definition refused_start (detail : string) : fault := RfRefused (Error.validation detail).
Definition builtin_outcome (args : value) (info : CallInfo) : rt fault value :=
  id ← fail_with RfOther (match as_str (vindex "id" args) with Some s => Ok s | None => Err "child_outcome requires id" end);
  key ← fail_with RfOther (match as_str (vindex "key" args) with Some s => Ok s | None => Err "child_outcome requires key" end);
  o ← request (RoChildOutcome (ci_run_id info) key id);
  mret (status_value o).
Definition inherits (args : value) : result fault bool :=
  match vget "host" args with
  | None => Ok false
  | Some (VStr mode) => if decide (mode = "inherit") then Ok true else Err (refused_start "start_child host must be inherit")
  | Some _ => Err (refused_start "start_child host must be inherit")
  end.
Definition builtin_start (args : value) (info : CallInfo) : rt fault value :=
  name ← match as_str (vindex "name" args) with
         | Some name => mret name
         | None => RFail (refused_start "start_child requires name")
         end;
  inherit ← fail_with (λ f, f) (inherits args);
  let id := child_id (ci_run_id info) (ci_reference info) in
  saved ← request (RoGet id);
  a ← match (saved : option SavedRun) with
      | Some saved =>
          _ ← fail_with mismatch (joins (r_admission saved) name None (host (r_admission saved)));
          mret (r_admission saved)
      | None =>
          l ← fail_with RfRefused (lineage_child (xn_lineage xn) (ad_max_depth adm));
          a ← map_err reserved_child_error (active_in adm fuel id name (default VNull (vget "input" args)) l);
          mret (if (inherit : bool) then with_host (xn_host xn) a else a)
      end;
  now ← request RoNow;
  _ ← commit_child reserved_child_error (λ f, f) (xn_fence xn) a
        (mkLink (ci_run_id info) (ci_logical info) (ci_reference info)) now;
  mret (child_ref_value (child_ref id (ci_logical info))).
Definition builtin_call (name : string) (args : value) (info : CallInfo) : rt fault value :=
  if decide (name = "child_outcome") then builtin_outcome args info else builtin_start args info.

(** [Children::start]: the child of a [run: workflow] task. *)
Definition child_target (c : ChildStart) : rt CallFailure DefinitionV :=
  d ← map_err interrupted_call (target (cs_namespace c) (cs_name c) (cs_version c));
  match (d : option DefinitionV) with
  | Some d => mret d
  | None => RFail (FNotExecuted (configuration ("no workflow " +:+ cs_namespace c +:+ "/" +:+ cs_name c +:+ " version " +:+
                cs_version c +:+ " to run")))
  end.
Definition children_start (run_id : string) (c : ChildStart) : rt CallFailure (string * string) :=
  let id := child_id run_id (cs_key c) in
  let child := (id, "done:" +:+ id) in
  if is_replay (xn_mode xn) then mret child
  else
    saved ← call_with interrupted_call (RoGet id);
    a ← match (saved : option SavedRun) with
        | Some saved => mret (r_admission saved)
        | None =>
            l ← fail_with FNotExecuted (lineage_child (xn_lineage xn) (ad_max_depth adm));
            let l := if cs_owned c then l else mkLineage (lm_max_jumps (ad_limits adm)) (ln_depth l) in
            d ← child_target c;
            a ← map_err misconfigured (admission_of adm fuel id d (cs_input c) l);
            mret (if cs_inherit_host c then with_host (xn_host xn) a else a)
        end;
    now ← call_with interrupted_call RoNow;
    _ ← (if cs_owned c then
           commit_child refused_call interrupted_call (xn_fence xn) a (mkLink run_id (cs_key c) (cs_key c)) now
         else _ ← call_with refused_call (RoAdmit a now); mret ());
    mret child.

(** ** Calls *)

(** An answer read back with its secrets. *)
Definition value_annotation (v : value) : result string Annotation :=
  match v with
  | VNum n => Ok (ANumber n)
  | VStr s => Ok (AText s)
  | _ => Err "data did not match any variant of untagged enum Annotation"
  end.
Fixpoint annotations_from (l : list (string * value)) (out : Annotations) : result string Annotations :=
  match l with
  | [] => Ok out
  | (k, v) :: l => a ← value_annotation v; annotations_from l (<[k := a]> out)
  end.
Definition restored_annotations (secrets : Redaction) (a : Annotations) : result string Annotations :=
  v ← Secrets.restore_value secrets (VObj (annotation_value <$> a));
  match v with VObj m => annotations_from (entries m) ∅ | _ => Err "invalid type: expected a map" end.
(** [replayed]: the recorded answer of a call, with the annotations it adds. *)
Definition replayed (r : Recorded) (name : string) (args : value) (info : CallInfo)
    : rt (CallFailure * Annotations) Output :=
  match re_calls r !! ci_reference info with
  | None =>
      RFail (FNotExecuted (Error.runtime ("missing replay result at " +:+ ci_reference info)), ∅)
  | Some (call, status) =>
      if decide (rc_function call ≠ name ∨ rc_arguments call ≠ Secrets.redact_value (ci_secrets info) args ∨
                 rc_logical call ≠ ci_logical info ∨ rc_delivery call ≠ ci_delivery info)
      then RFail (FNotExecuted (Error.runtime "replay call bindings differ"), ∅)
      else
        _ ← call_with (λ f, (interrupted_call f, ∅)) (RoUsed (ci_reference info));
        match rc_result call with
        | Ok v =>
            match Secrets.restore_value (ci_secrets info) v, restored_annotations (ci_secrets info) (rc_annotations call) with
            | Ok v, Ok a => mret (mkOut v a)
            | Err e, _ | _, Err e => RFail (FNotExecuted (Error.runtime e), ∅)
            end
        | Err e =>
            match status with
            | CNotExecuted => RFail (FNotExecuted e, ∅)
            | CUnknown | CPending => RFail (FUnknown e, ∅)
            | CCompleted | CFailed => RFail (FResponse e, rc_annotations call)
            end
        end
  end.
(** A host's error answer says how far the call got. *)
Definition answered {A} (r : result WorkflowError A) : rt CallFailure A := fail_with answer r.
(** The dispatch of a call: to the mock, the handler or the runner. *)
Definition dispatch (mocks : string → value → bool) (name : string) (process : option string) (args : value)
    (c : FunctionContext) (info : CallInfo) : rt CallFailure Output :=
  if mocks name args then
    o ← call_with interrupted_call (RoMock name args (c <| fc_children := false |> <| fc_runs := false |>));
    let o := o : result WorkflowError Output in
    _ ← call_with interrupted_call (RoMocked (mkRecordedCall (ci_reference info) (ci_logical info) name args
          (ci_delivery info) (match o with Ok o => Ok (ou_value o) | Err e => Err e end)
          (match o with Ok o => ou_annotations o | Err _ => ∅ end)));
    answered o
  else
    match process with
    | None => o ← call_with interrupted_call (RoHandler name args c); answered (o : result WorkflowError Output)
    | Some kind =>
        o ← call_with interrupted_call (RoProcess kind args c);
        v ← answered (o : result WorkflowError value); mret (mkOut v ∅)
    end.
Definition mocks_of (m : Mode) : string → value → bool := match m with Dry mocks => mocks | _ => λ _ _, false end.
(** What is checked of a call before and after it is dispatched. *)
Definition violation (schema v : value) (what : string) (f : WorkflowError → CallFailure) : rt CallFailure unit :=
  match schema_violation schema v with
  | Some e => RFail (f (Error.validation (what +:+ ": " +:+ e)))
  | None => mret ()
  end.
Definition dispatched (mocks : string → value → bool) (name : string) (process : option string) (args : value)
    (c : FunctionContext) (info : CallInfo) : rt CallFailure Output :=
  let f := match process with Some _ => None | None => ad_registry adm !! name end in
  _ ← match f with Some f => violation (fu_input f) args (name +:+ " input") FNotExecuted | None => mret () end;
  permit ← call_with interrupted_call RoPermit;
  _ ← (if (permit : bool) then mret () else RFail (FInterrupted (Error.runtime "call cancelled before dispatch")));
  now ← call_with interrupted_call RoNow;
  _ ← call_with interrupted_call (RoCheckLease (xn_fence xn) now);
  o ← dispatch mocks name process args c info;
  _ ← match f with
      | Some f => violation (fu_output f) (ou_value o) (name +:+ " output") FResponse
      | None => mret ()
      end;
  match check_annotations (ou_annotations o) with
  | Err e => RFail (FResponse (Error.validation (name +:+ " annotations: " +:+ e)))
  | Ok _ => mret o
  end.
(** [has], [at_most_once]. *)
Definition host_has (name : string) : bool := builtin name || bool_decide (is_Some (ad_registry adm !! name)).
Definition host_at_most_once (name : string) : bool :=
  let declared := match strip_prefix "run:" name with
    | Some kind => (λ p, pr_delivery p kind) <$> cp_processes (ad_capabilities adm)
    | None => fu_delivery <$> ad_registry adm !! name
    end in
  bool_decide (declared = Some AtMostOnce).
(** [invoke_function]: a call of a function, or with [process] of a process; its failure
    carries the annotations it adds. *)
Definition call_context (name : string) (process : option string) (info : CallInfo) : FunctionContext :=
  let alive := bool_decide (process = None) && negb (is_replay (xn_mode xn)) in
  mkFunctionContext (ci_run_id info) (ci_reference info) (ci_attempt info)
    (value_to_string (VArr [VStr (ci_run_id info); VStr (ci_logical info)]))
    (ci_input info) name (xn_definition xn).1 (xn_definition xn).2 (ci_delivery info) (xn_host xn) alive alive.
Definition invoke_function (name : string) (process : option string) (args : value) (info : CallInfo)
    : rt (CallFailure * Annotations) (value * Annotations) :=
  let known := match process with Some kind => runs_process (ad_capabilities adm) kind | None => host_has name end in
  if negb known then RFail (FNotExecuted (Error.validation ("unknown function " +:+ name)), ∅)
  else
    o ← match xn_mode xn with
        | Replay r => replayed r name args info
        | m =>
            map_err (λ e, (e, ∅))
              (if builtin name then
                 v ← map_err failed_builtin (builtin_call name args info); mret (mkOut v ∅)
               else dispatched (mocks_of m) name process args (call_context name process info) info)
        end;
    mret (ou_value o, ou_annotations o).

(** ** Events *)

(** [emit]. *)
Definition stripped (v : value) : value := vremove "time" (vremove "id" v).
Definition emit (event : value) (info : CallInfo) : rt CallFailure unit :=
  match xn_mode xn with
  | Dry _ =>
      call_with interrupted_call (RoMocked (mkRecordedCall (ci_reference info) (ci_logical info) "emit" event
        (ci_delivery info) (Ok event) ∅))
  | Replay r =>
      match re_calls r !! ci_reference info with
      | Some (call, _) =>
          if decide (rc_function call = "emit" ∧
                     stripped (rc_arguments call) = stripped (Secrets.redact_value (ci_secrets info) event))
          then call_with interrupted_call (RoUsed (ci_reference info))
          else RFail (FNotExecuted (Error.runtime "replay emit differs"))
      | None => RFail (FNotExecuted (Error.runtime "replay emit differs"))
      end
  | Live =>
      now ← call_with interrupted_call RoNow;
      _ ← call_with interrupted_call (RoCheckLease (xn_fence xn) now);
      _ ← map_err (λ f, FInterrupted (Error.runtime (match f with
            | Unavailable e | Failed e => e
            | Tripped t => tripped_display t
            end))) (scheduled adm fuel (publish (ad_max_concurrent_runs adm) event now));
      if cp_sink (ad_capabilities adm) then
        r ← call_with interrupted_call (RoSink event);
        fail_with FResponse (r : result WorkflowError unit)
      else mret ()
  end.

(** [take]: a replay gives the run the recorded envelope first. *)
Definition take (info_run : string) (key : string) (types : list string) : rt fault (option value) :=
  _ ← match xn_mode xn with
      | Replay r =>
          match re_events r !! key with
          | Some event =>
              time ← fail_with RfOther (match as_str (vindex "time" event) with
                | Some t => Ok t | None => Err "missing recorded event time" end);
              at_ ← fail_with RfOther (match parse_rfc3339 time with
                | Some at_ => Ok at_ | None => Err "invalid recorded event time" end);
              _ ← request (RoPublish event (Some info_run) at_); mret ()
          | None => mret ()
          end
      | _ => mret ()
      end;
  request (RoTake (xn_fence xn) info_run key types).
(** [ReplayJournal::spend]: a recorded decision is saved again as it was. *)
Definition replay_spend (r : Recorded) (key : string) (limit : Z) : rt fault (option JRecord) :=
  limit ← match re_budgets r !! key with
          | Some true => mret u64_max
          | Some false =>
              _ ← match re_first r with
                  | Some first =>
                      if decide (first = key) then mret ()
                      else now ← request RoNow; _ ← request (RoSpend (xn_fence xn) first 0 now); mret ()
                  | None => mret ()
                  end;
              mret 0
          | None => mret limit
          end;
  now ← request RoNow;
  request (RoSpend (xn_fence xn) key limit now).
End execution.

(** ** The runs a call may reach *)

(** [RunAccessError]. *)
Inductive RunAccessError :=
| ReUnavailable | ReOutOfScope | ReReservedEventType | ReTargetEnded
| ReInterrupted (f : fault) | ReInvalidEvent (e : string) | ReStorage (f : fault).
(** The children of a run, of any state. *)
Definition children_filter (parent : string) : Runs :=
  mkRuns None None (Some parent) None None.
Definition reserved_type (t : string) : bool :=
  existsb (λ r, starts_with r t) ["done:"; "waiting:"; "child:"].

Section runs.
(** [CallRuns]: the call's lease, its run and the host's nesting depth. *)
Variable fence : Fence.
Variable self : string.
Variable max_depth : nat.

Section walk.
Context {A : Type}.
(** A walk up the child links from [link], of [n] steps at most: what it answers for a
    parent, or to go on from it. *)
Fixpoint walk (step : ChildLink → rt fault (option A + option ChildLink)) (n : nat) (link : option ChildLink)
    : rt fault (option A) :=
  match n, link with
  | S n, Some up => x ← step up; match (x : option A + option ChildLink) with inl a => mret a | inr link => walk step n link end
  | _, _ => mret None
  end.
End walk.
(** [below]: [id], when it is the call's run or a descendant of it. *)
Definition below (id : string) : rt fault (option SavedRun) :=
  found ← request (RoGet id);
  match (found : option SavedRun) with
  | None => mret None
  | Some found =>
      if decide (id = self) then mret (Some found)
      else walk (λ up,
        if decide (l_parent up = self) then mret (inl (Some found))
        else
          parent ← request (RoGet (l_parent up));
          mret (match (parent : option SavedRun) with Some p => inr (r_child p) | None => inl None end))
        (S max_depth) (r_child found)
  end.
(** [lineage]: also an ancestor. *)
Definition above (id : string) : rt fault (option SavedRun) :=
  own ← request (RoGet self);
  walk (λ up,
    parent ← request (RoGet (l_parent up));
    mret (if decide (l_parent up = id) then inl parent
          else inr ((parent : option SavedRun) ≫= r_child)))
    (S max_depth) ((own : option SavedRun) ≫= r_child).
Definition lineage_run (id : string) : rt fault (option SavedRun) :=
  found ← below id;
  match (found : option SavedRun) with Some r => mret (Some r) | None => above id end.

(** [RunAccess for CallRuns]. *)
Definition access_records (id : string) : rt fault (option (list (string * JRecord))) :=
  found ← lineage_run id;
  match (found : option SavedRun) with
  | None => mret None
  | Some _ => s ← request (RoInspect id); mret (sn_records <$> (s : option RunSnapshot))
  end.
Definition access_children (parent : string) (cursor : option Cursor) (limit : nat) : rt RunAccessError (Page SavedRun) :=
  found ← map_err ReStorage (lineage_run parent);
  match (found : option SavedRun) with
  | None => RFail ReOutOfScope
  | Some _ => call_with ReStorage (RoQueryRuns (children_filter parent) false cursor limit)
  end.
(** An identity conflict is the event's fault, any other the storage's. *)
Definition delivery_error (f : fault) : RunAccessError :=
  match f with RfIdentity _ => ReInvalidEvent (fault_text f) | f => ReStorage f end.
Definition access_deliver `{Calendar} (event : value) (target_ : string) : rt RunAccessError string :=
  found ← map_err ReStorage (below target_);
  match (found : option SavedRun) with
  | None => RFail ReOutOfScope
  | Some _ =>
      now ← call_with ReInterrupted RoNow;
      _ ← call_with ReInterrupted (RoCheckLease fence now);
      if reserved_type (default "" (vget "type" event ≫= as_str)) then RFail ReReservedEventType
      else
        now ← call_with ReInterrupted RoNow;
        event ← fail_with ReInvalidEvent (complete event now);
        recipient ← call_with delivery_error (RoDeliver event (Some target_) now);
        match (recipient : option string) with Some r => mret r | None => RFail ReTargetEnded end
  end.
End runs.
