(* ===== verification/AdmitterSpec.v ===== *)
(** * What admission and the interpreter's host promise

    The start check against the graph of the documents that run each other and what
    their tasks call ([served]: what their drives may then ask of the host); what a
    call of the host is checked for before a handler sees it; where a child run stands
    and whose host data it has; which runs, records and children a handler reaches;
    what a refused start left undone. A program is followed
    either on answers that do not change ([steady]) or along any sequence of questions
    and answers it can run through ([track]). *)
From stdpp Require Import relations.
From S2P Require Import Alone Ops Execute Survey Listed.
From S2P Require Import Prelude Json Outcome Journal Expr Listen Secrets Drive Model Tasks Types RunStore Control.
From S2P Require Import Analysis Parser DocumentParser Validator Schedules Registry Admitter.

(** ** Programs on answers that do not change *)

Section steady.
Variable world : ∀ o, result fault (rt_answer o).
Fixpoint steady {E A} (p : rt E A) : result E A :=
  match p with
  | RRet a => Ok a
  | RFail e => Err e
  | ROp o k => steady (k (world o))
  end.
Lemma steady_bind {E A B} (p : rt E A) (f : A → rt E B) :
  steady (p ≫= f) = match steady p with Ok a => steady (f a) | Err e => Err e end.
Proof. unfold mbind, rt_bind. induction p as [a|e|o k IH]; cbn; [done..|apply IH]. Qed.
End steady.

(** ** The start check *)

(** The keys of the saved versions of a catalog. *)
Definition catalog_keys (catalog : gmap string Definitions) : gset (string * Z) :=
  ⋃ ((λ x : string * Definitions, set_map (pair x.1) (dom (versions x.2))) <$> map_to_list catalog).
Lemma elem_of_catalog_keys catalog name v :
  (name, v) ∈ catalog_keys catalog ↔ ∃ d, catalog !! name = Some d ∧ is_Some (versions d !! v).
Proof.
  unfold catalog_keys. rewrite elem_of_union_list. split.
  - intros (X & (x & -> & Hx)%list_elem_of_fmap & Hv). destruct x as [n d]. apply elem_of_map_to_list in Hx.
    apply elem_of_map in Hv as (v' & [= <- <-] & Hv%elem_of_dom). eauto.
  - intros (d & Hd & Hv). exists (set_map (pair name) (dom (versions d))).
    split; [apply list_elem_of_fmap; exists (name, d); split; [done|by apply elem_of_map_to_list]|].
    apply elem_of_map. exists v. split; [done|by apply elem_of_dom].
Qed.

Section start_check.
Context `{Host, Libraries, RuntimeLibraries}.
Variable adm : Admitter.
Variable catalog : gmap string Definitions.
Definition entry (name : string) : Definitions := default default_definitions (catalog !! name).
Variable world : ∀ o, result fault (rt_answer o).
Hypothesis world_catalog : ∀ name, world (RoDefinitions name) = Ok (entry name).
(** A version is saved under its own name and number. *)
Hypothesis well_kept : ∀ name v d, versions (entry name) !! v = Some d → d_name d = name ∧ d_version d = v.

Definition needs (d : DefinitionV) : Needs := needs_of (ad_registry adm) (ad_capabilities adm) (d_yaml d).
Definition saved_version (d : DefinitionV) : Prop := versions (entry (d_name d)) !! d_version d = Some d.
Definition key (d : DefinitionV) : string * Z := (d_name d, d_version d).
(** The document of a version: one whose text does not parse has none. *)
Definition document_of (d : DefinitionV) (wf : Workflow) : Prop := ∃ p, parse_yaml (d_yaml d) = Ok p ∧ pa_workflow p = wf.
(** What a document calls that the host lacks: a function that it does not define itself,
    that is not registered and is none of the reserved ones; a process that no runner of
    the host runs. *)
Inductive lacks (wf : Workflow) : string → Prop :=
| lacks_function t f w :
    document_task wf t → tk_kind t = KCall f w →
    (∀ x, x ∈ us_functions (wf_uses wf) → x.1 ≠ function_name f) →
    ad_registry adm !! function_name f = None →
    function_name f ≠ "start_child" → function_name f ≠ "child_outcome" → lacks wf (function_name f)
| lacks_process t r kind definition :
    document_task wf t → tk_kind t = KRun r → run_process_of r = PExternal kind definition →
    (∀ p, cp_processes (ad_capabilities adm) = Some p → pr_runs p kind = false) → lacks wf ("run:" +:+ kind).
Definition version_lacks (d : DefinitionV) (f : string) : Prop := ∃ wf, document_of d wf ∧ lacks wf f.
(** The version a child workflow's names stand for: the active one, or the newest saved
    one whose document has the version; of the namespace in either case. *)
Inductive resolves (defs : Definitions) (namespace version : string) (e : DefinitionV) : Prop :=
| resolves_latest v x :
    version = "latest" → active defs = Some v → versions defs !! v = Some e →
    document_names e = Some (namespace, x) → resolves defs namespace version e
| resolves_newest v :
    version ≠ "latest" → versions defs !! v = Some e → document_names e = Some (namespace, version) →
    (∀ v' e' x, v < v' → versions defs !! v' = Some e' → document_names e' ≠ Some (x, version)) →
    resolves defs namespace version e.
(** [e] is the target of a [run: workflow] task of [d]. *)
Definition runs_version (d e : DefinitionV) : Prop := ∃ wf t r namespace name version input,
  document_of d wf ∧ document_task wf t ∧ tk_kind t = KRun r ∧
  run_process_of r = PWorkflow namespace name version input ∧ resolves (entry name) namespace version e.
(** [e] is reached from [d] through the versions [l]. *)
Inductive leads : list DefinitionV → DefinitionV → DefinitionV → Prop :=
| leads_here d : leads [d] d d
| leads_on d d' e l : runs_version d d' → leads l d' e → leads (d :: l) d e.

Lemma target_saved name namespace version d :
  target_in (entry name) namespace version = Some d → saved_version d.
Proof using well_kept.
  unfold target_in. intros (c & Hc & Hd)%bind_Some. case_decide; [|done]. injection Hd as ->.
  assert (∃ v, versions (entry name) !! v = Some d) as [v Hv].
  { case_decide; [apply bind_Some in Hc as (v & _ & ?); eauto|].
    apply fmap_Some in Hc as ([i d'] & (Hi%list_elem_of_lookup_2 & _)%list_find_Some & ->). cbn.
    unfold newest_first in Hi. apply list_elem_of_fmap in Hi as ([v d''] & -> & Hi).
    rewrite merge_sort_Permutation in Hi. apply elem_of_map_to_list in Hi. eauto. }
  destruct (well_kept _ _ _ Hv) as [Hn Hve]. unfold saved_version. by rewrite Hn, Hve.
Qed.
Lemma saved_key d e : saved_version d → saved_version e → key d = key e → d = e.
Proof. unfold saved_version, key. intros Hd He [= Hn Hv]. rewrite Hn, Hv in Hd. congruence. Qed.
Lemma saved_in_keys d : saved_version d → key d ∈ catalog_keys catalog.
Proof.
  intros Hd. apply elem_of_catalog_keys. unfold saved_version, entry in Hd.
  destruct (catalog !! d_name d) as [defs|]; [eauto|]. cbn in Hd. by rewrite lookup_empty in Hd.
Qed.

(** *** What a version needs, against its document *)

Lemma processes_need_spec c m l :
  nd_children (processes_need c m l) =
    omap (λ p, match p with PWorkflow ns n v _ => Some (ns, n, v) | PExternal _ _ => None end) l ∧
  nd_missing (processes_need c m l) =
    match m with
    | Some f => Some f
    | None => head (omap (λ p, match p with
        | PExternal kind _ => if runs_process c kind then None else Some ("run:" +:+ kind)
        | PWorkflow _ _ _ _ => None end) l)
    end.
Proof.
  revert m. induction l as [|[ns n v i|kind x] l IH]; intros m; cbn [processes_need]; [by destruct m|..].
  - destruct (IH m) as [Hca Hpr]. cbn. by rewrite Hca, Hpr.
  - destruct (IH (match m with None => if runs_process c kind then None else Some ("run:" +:+ kind) | Some m => Some m end)) as [Hca Hpr].
    rewrite Hca, Hpr. split; [done|]. cbn. destruct m; [done|]. by destruct (runs_process c kind).
Qed.
Lemma head_elem {A} (l : list A) : match head l with Some x => x ∈ l | None => l = [] end.
Proof. destruct l; [done|by left]. Qed.
Lemma is_local_spec wf name : is_local wf name = false ↔ ∀ x, x ∈ us_functions (wf_uses wf) → x.1 ≠ name.
Proof.
  unfold is_local. rewrite <- not_true_iff_false, existsb_exists. setoid_rewrite <- list_elem_of_In.
  setoid_rewrite bool_decide_eq_true. naive_solver.
Qed.
Lemma registry_lacks name : registry_has (ad_registry adm) name = false ↔
  ad_registry adm !! name = None ∧ name ≠ "start_child" ∧ name ≠ "child_outcome".
Proof.
  unfold registry_has, builtin. rewrite orb_false_iff, !bool_decide_eq_false, eq_None_not_Some. tauto.
Qed.
Lemma runs_lacks kind : runs_process (ad_capabilities adm) kind = false ↔
  ∀ p, cp_processes (ad_capabilities adm) = Some p → pr_runs p kind = false.
Proof. unfold runs_process. destruct (cp_processes _); [naive_solver|by split]. Qed.
(** The first functions not found, and the first processes not run. *)
Lemma calls_lack wf f :
  f ∈ filter (λ name, is_local wf name = false ∧ registry_has (ad_registry adm) name = false) (site_function <$> call_sites wf) ↔
  ∃ t g w, document_task wf t ∧ tk_kind t = KCall g w ∧ f = function_name g ∧
    (∀ x, x ∈ us_functions (wf_uses wf) → x.1 ≠ f) ∧
    ad_registry adm !! f = None ∧ f ≠ "start_child" ∧ f ≠ "child_outcome".
Proof.
  rewrite list_elem_of_filter, is_local_spec, registry_lacks, list_elem_of_fmap. split.
  - intros [(Hl & Hr) (site & -> & ([t at_] & Hin & Hs)%list_elem_of_omap)]. cbn in Hs.
    destruct (tk_kind t) as [| | | | | | | | | | |g w] eqn:Ek; try done. all: injection Hs as <-; cbn in *.
    all: eexists t, _, _; split; [by apply elem_of_sites; exists at_|]; split_and!; try done; tauto.
  - intros (t & g & w & Ht & Ek & -> & Hl & Hr & Hb). split; [tauto|].
    apply elem_of_sites in Ht as [at_ Hin]. exists (mkCallSite at_ (function_name g) w (tk_delivery t)). split; [done|].
    apply list_elem_of_omap. exists (t, at_). split; [done|]. cbn. by rewrite Ek.
Qed.
Lemma elem_of_processes wf p : p ∈ processes wf ↔ ∃ t r, document_task wf t ∧ tk_kind t = KRun r ∧ run_process_of r = p.
Proof.
  unfold processes. rewrite list_elem_of_omap. split.
  - intros ([t at_] & Hin & Hp). cbn in Hp. destruct (tk_kind t) eqn:Ek; try done. injection Hp as <-.
    eexists t, _. split; [by apply elem_of_sites; exists at_|done].
  - intros (t & r & Ht & Ek & <-). apply elem_of_sites in Ht as [at_ Hin]. exists (t, at_). split; [done|]. cbn. by rewrite Ek.
Qed.
Lemma processes_lack wf f :
  f ∈ omap (λ p, match p with
      | PExternal kind _ => if runs_process (ad_capabilities adm) kind then None else Some ("run:" +:+ kind)
      | PWorkflow _ _ _ _ => None end) (processes wf) ↔
  ∃ t r kind x, document_task wf t ∧ tk_kind t = KRun r ∧ run_process_of r = PExternal kind x ∧ f = "run:" +:+ kind ∧
    ∀ p, cp_processes (ad_capabilities adm) = Some p → pr_runs p kind = false.
Proof.
  rewrite list_elem_of_omap. setoid_rewrite elem_of_processes. setoid_rewrite <- runs_lacks. split.
  - intros (p & (t & r & Ht & Ek & <-) & Hf). destruct (run_process_of r) as [|kind x] eqn:Er; [done|].
    destruct (runs_process _ kind) eqn:Ec; [done|]. injection Hf as <-. exists t, r, kind, x. done.
  - intros (t & r & kind & x & Ht & Ek & Er & -> & Hk). exists (PExternal kind x). split; [by exists t, r|]. by rewrite Hk.
Qed.
Lemma needs_missing d :
  match nd_missing (needs d) with Some f => version_lacks d f | None => ∀ f, ¬ version_lacks d f end.
Proof.
  unfold needs, needs_of, version_lacks, document_of. destruct (parse_yaml (d_yaml d)) as [p|e].
  2: { cbn. by intros f (wf & (p & [=] & _) & _). }
  set (wf := pa_workflow p). rewrite (proj2 (processes_need_spec _ _ _)).
  pose proof (head_elem (filter (λ name, is_local wf name = false ∧ registry_has (ad_registry adm) name = false) (site_function <$> call_sites wf))) as Hca.
  pose proof (head_elem (omap (λ p, match p with
      | PExternal kind _ => if runs_process (ad_capabilities adm) kind then None else Some ("run:" +:+ kind)
      | PWorkflow _ _ _ _ => None end) (processes wf))) as Hpr.
  destruct (head (filter _ _)) as [f|].
  { exists wf. split; [by exists p|]. apply calls_lack in Hca as (t & g & w & Ht & Ek & -> & Hl & Hr & Hb1 & Hb2).
    by eapply lacks_function. }
  destruct (head (omap _ _)) as [f|].
  { exists wf. split; [by exists p|]. apply processes_lack in Hpr as (t & r & kind & x & Ht & Ek & Er & -> & Hp).
    by eapply lacks_process. }
  intros f (wf' & (p' & [= <-] & <-) & Hl). destruct Hl as [t g w Ht Ek Hl Hr Hb1 Hb2|t r kind x Ht Ek Er Hp].
  - eapply (not_elem_of_nil (function_name g)). rewrite <- Hca. apply calls_lack. by exists t, g, w.
  - eapply (not_elem_of_nil ("run:" +:+ kind)). rewrite <- Hpr. apply processes_lack. by exists t, r, kind, x.
Qed.
Lemma needs_children d ns n v : (ns, n, v) ∈ nd_children (needs d) ↔
  ∃ wf t r input, document_of d wf ∧ document_task wf t ∧ tk_kind t = KRun r ∧ run_process_of r = PWorkflow ns n v input.
Proof.
  unfold needs, needs_of, document_of. destruct (parse_yaml (d_yaml d)) as [p|e].
  2: { cbn. split; [by intros ?%not_elem_of_nil|]. by intros (? & ? & ? & ? & (p & [=] & _) & _). }
  rewrite (proj1 (processes_need_spec _ _ _)), list_elem_of_omap. setoid_rewrite elem_of_processes. split.
  - intros (q & (t & r & Ht & Ek & <-) & Hq). destruct (run_process_of r) as [? ? ? i|] eqn:Er; [|done].
    injection Hq as -> -> ->. exists (pa_workflow p), t, r, i. split; [by exists p|done].
  - intros (wf & t & r & i & (p' & [= <-] & <-) & Ht & Ek & Er). exists (PWorkflow ns n v i). split; [by exists t, r|done].
Qed.
Lemma newest_sorted defs i j x y :
  merge_sort newer (map_to_list (versions defs)) !! i = Some x →
  merge_sort newer (map_to_list (versions defs)) !! j = Some y → (i < j)%nat → y.1 < x.1.
Proof.
  set (L := merge_sort _ _). intros Hi Hj Hij.
  assert (StronglySorted newer L) as Hs.
  { apply StronglySorted_merge_sort; [|intros a b; unfold newer; lia]. intros a b c. unfold newer. lia. }
  assert (NoDup L.*1) as HN by (unfold L; rewrite merge_sort_Permutation; apply NoDup_fst_map_to_list).
  assert (y.1 ≤ x.1) as Hle.
  { revert i j Hi Hj Hij. induction Hs as [|a L' _ IH Ha]; intros i j Hi Hj Hij; [done|].
    destruct j as [|j]; [lia|]. destruct i as [|i].
    - injection Hi as ->. rewrite Forall_forall in Ha. apply (Ha y). by eapply list_elem_of_lookup_2.
    - eapply (IH _ i j); [done|done|lia]. Unshelve. by apply NoDup_cons in HN as [_ ?]. }
  assert (y.1 ≠ x.1); [|lia]. intros E. assert (i = j); [|lia].
  eapply (NoDup_lookup L.*1); [done| |]; rewrite list_lookup_fmap.
  - by rewrite Hi.
  - rewrite Hj. cbn. by rewrite E.
Qed.
Lemma target_resolves defs ns v e : target_in defs ns v = Some e ↔ resolves defs ns v e.
Proof.
  unfold target_in. split.
  - intros (c & Hc & Hd)%bind_Some. case_decide as Hn; [|done]. injection Hd as ->.
    apply fmap_Some in Hn as ([ns' x] & Hn & ->). cbn [fst] in *. case_decide as Hv.
    + apply bind_Some in Hc as (w & Ha & Hw). by eapply resolves_latest.
    + apply fmap_Some in Hc as ([i e'] & Hf & ->). cbn [snd] in *. apply list_find_Some in Hf as (Hi & Hx & Hbefore).
      rewrite Hn in Hx. cbn in Hx. injection Hx as ->. unfold newest_first in Hi, Hbefore. rewrite list_lookup_fmap in Hi.
      apply fmap_Some in Hi as ([w e''] & Hi & ->). cbn [snd] in *.
      assert (versions defs !! w = Some e'') as Hw.
      { apply list_elem_of_lookup_2 in Hi. rewrite merge_sort_Permutation in Hi. by apply elem_of_map_to_list in Hi. }
      eapply resolves_newest; [done|done|done|]. intros v' e' y Hlt He' Hdoc.
      assert ((v', e') ∈ merge_sort newer (map_to_list (versions defs))) as [j Hj]%list_elem_of_lookup_1
        by (rewrite merge_sort_Permutation; by apply elem_of_map_to_list).
      destruct (decide (j < i)%nat) as [Hji|Hji].
      * apply (Hbefore j e'); [by rewrite list_lookup_fmap, Hj|done|by rewrite Hdoc].
      * destruct (decide (i = j)) as [->|]; [rewrite Hi in Hj; injection Hj as -> ->; lia|].
        pose proof (newest_sorted defs i j _ _ Hi Hj ltac:(lia)) as Hs. cbn in Hs. lia.
  - intros [w x Hv Ha Hw Hn|w Hv Hw Hn Hnew]; apply bind_Some; exists e.
    + rewrite decide_True by done. rewrite Ha. cbn. rewrite Hw. split; [done|]. rewrite Hn. by rewrite decide_True.
    + rewrite decide_False by done. rewrite Hn. split; [|by rewrite decide_True].
      assert ((w, e) ∈ merge_sort newer (map_to_list (versions defs))) as [i Hi]%list_elem_of_lookup_1
        by (rewrite merge_sort_Permutation; by apply elem_of_map_to_list).
      apply fmap_Some. exists (i, e). split; [|done]. apply list_find_Some. unfold newest_first.
      rewrite list_lookup_fmap, Hi. split; [done|]. split; [by rewrite Hn|]. intros j y Hj Hji.
      rewrite list_lookup_fmap in Hj. apply fmap_Some in Hj as ([w' e'] & Hj & ->). cbn [snd].
      intros Hx. apply fmap_Some in Hx as ([z u] & Hz & ->). cbn [snd] in *.
      pose proof (newest_sorted defs j i _ _ Hj Hi Hji) as Hs. cbn in Hs. eapply (Hnew w' e' z); [lia| |done].
      apply list_elem_of_lookup_2 in Hj. rewrite merge_sort_Permutation in Hj. by apply elem_of_map_to_list in Hj.
Qed.

(** What a check of [d] that found [seen] entered leaves. *)
Definition explored (path : list (string * Z)) (seen : gset (string * Z)) (l : list DefinitionV)
    (r : result fault (gset (string * Z))) : Prop :=
  match r with
  | Ok entered =>
      seen ⊆ entered ∧ entered ⊆ catalog_keys catalog ∧ (∀ d, d ∈ l → key d ∈ entered) ∧
      ∀ d, saved_version d → key d ∈ entered → key d ∉ seen →
        nd_missing (needs d) = None ∧ ∀ e, runs_version d e → key e ∈ entered
  | Err (RfMissing m) => ∃ d route e, d ∈ l ∧ leads route d e ∧ mf_path m = path ++ (key <$> route) ∧
      nd_missing (needs e) = Some (mf_function m)
  | Err _ => False
  end.
(** The versions the children of a definition resolve to. *)
Definition resolved (l : list (string * string * string)) : list DefinitionV :=
  omap (λ x, target_in (entry x.1.2) x.1.1 x.2) l.

Lemma explored_children path visit l : Forall saved_version (resolved l) →
  ∀ seen, seen ⊆ catalog_keys catalog →
  (∀ seen' d, seen ⊆ seen' → seen' ⊆ catalog_keys catalog → d ∈ resolved l → explored path seen' [d] (steady world (visit seen' d))) →
  explored path seen (resolved l) (steady world (check_children visit seen l)).
Proof using world_catalog well_kept.
  intros Hl. induction l as [|[[ns n] v] l IH]; intros seen Hs Hv.
  { cbn. split_and!; [done|done|by intros ? ?%elem_of_nil|done]. }
  cbn [check_children]. unfold target, request. rewrite !steady_bind. cbn [call_with steady]. rewrite world_catalog. cbn [fail_with steady mret rt_ret].
  unfold resolved in Hl, Hv. cbn [omap list_omap fst snd] in Hl, Hv.
  change (resolved ((ns, n, v) :: l)) with
    (match target_in (entry n) ns v with Some d => d :: resolved l | None => resolved l end).
  destruct (target_in (entry n) ns v) as [d|]; [|by apply IH].
  apply Forall_cons in Hl as [Hd Hl]. rewrite steady_bind.
  specialize (IH Hl). pose proof (Hv seen d ltac:(done) Hs ltac:(left)) as Hx.
  destruct (steady world (visit seen d)) as [entered|f].
  - destruct Hx as (Hse & Hek & Hin & Hcl).
    assert (explored path entered (resolved l) (steady world (check_children visit entered l))) as Hrest.
    { apply IH; [done|]. intros seen' e Hs' Hk' He. apply Hv; [set_solver|done|by right]. }
    destruct (steady world (check_children visit entered l)) as [out|[]]; cbn in *; try done.
    + destruct Hrest as (Hse' & Hek' & Hin' & Hcl'). split_and!; [set_solver|done| |].
      * intros e [->|He]%elem_of_cons; [apply Hse', Hin; by left|by apply Hin'].
      * intros e He Hout Hns. destruct (decide (key e ∈ entered)) as [Hen|Hen]; [|by apply Hcl'].
        destruct (Hcl e He Hen Hns) as [Hm Hc]. split; [done|]. intros c Hr. by apply Hse', Hc.
    + destruct Hrest as (d' & route & e & Hd' & Hx). exists d', route, e. split; [by right|done].
  - destruct f; cbn in *; try done. destruct Hx as (d' & route & e & Hd' & Hx). exists d', route, e.
    split; [|done]. apply list_elem_of_singleton in Hd' as ->. by left.
Qed.
Lemma resolved_saved l : Forall saved_version (resolved l).
Proof using well_kept.
  apply Forall_forall. intros d (x & Hx & Hd)%list_elem_of_omap. by eapply target_saved.
Qed.
Lemma elem_of_resolved d e : e ∈ resolved (nd_children (needs d)) ↔ runs_version d e.
Proof.
  unfold resolved. rewrite list_elem_of_omap. split.
  - intros ([[ns n] v] & (wf & t & r & i & Hd & Ht & Ek & Er)%needs_children & He%target_resolves).
    by exists wf, t, r, ns, n, v, i.
  - intros (wf & t & r & ns & n & v & i & Hd & Ht & Ek & Er & He). exists (ns, n, v).
    split; [apply needs_children; by exists wf, t, r, i|by apply target_resolves].
Qed.

Lemma explored_tree fuel : ∀ path seen d, saved_version d → seen ⊆ catalog_keys catalog →
  (size (catalog_keys catalog ∖ seen) < fuel)%nat →
  explored path seen [d] (steady world (check_tree adm fuel path seen (of_definition d))).
Proof using world_catalog well_kept.
  induction fuel as [|fuel IH]; intros path seen d Hd Hs Hf; [lia|].
  cbn [check_tree of_definition]. case_decide as Hin.
  { cbn. split_and!; [done|done|by intros e ->%list_elem_of_singleton|done]. }
  change (needs_of (ad_registry adm) (ad_capabilities adm) (d_yaml d)) with (needs d).
  destruct (nd_missing (needs d)) as [f|] eqn:Em.
  { exists d, [d], d. split_and!; [by left|apply leads_here|done|done]. }
  pose proof (saved_in_keys d Hd) as Hk. set (seen' := {[key d]} ∪ seen).
  pose proof (explored_children (path ++ [key d])
    (λ seen e, check_tree adm fuel (path ++ [key d]) seen (of_definition e))
    (nd_children (needs d)) (resolved_saved _) seen' ltac:(set_solver)) as Hall.
  assert (∀ seen0, seen' ⊆ seen0 → (size (catalog_keys catalog ∖ seen0) < fuel)%nat) as Hsize.
  { intros seen0 Hs0. assert (catalog_keys catalog ∖ seen0 ⊂ catalog_keys catalog ∖ seen) as Hsub by
      (unfold key in *; set_solver). apply subset_size in Hsub. lia. }
  specialize (Hall (λ seen0 e Hs0 Hk0 He, IH _ _ _ (proj1 (Forall_forall _ _) (resolved_saved _) _ He) Hk0 (Hsize _ Hs0))).
  fold (key d). fold seen'.
  destruct (steady world _) as [entered|f]; [|destruct f; cbn in Hall |- *; try done].
  - destruct Hall as (Hse & Hek & Hch & Hcl). cbn. split_and!; [set_solver|done| |].
    + intros e ->%list_elem_of_singleton. set_solver.
    + intros e He Hen Hns. destruct (decide (key e = key d)) as [E|E].
      * apply saved_key in E as ->; [|done..]. split; [done|]. intros c Hc. by apply Hch, elem_of_resolved.
      * apply Hcl; set_solver.
  - destruct Hall as (d' & route & e & Hd' & Hr & Hp & Hm). exists d, (d :: route), e.
    split_and!; [by left| |by rewrite Hp, <- app_assoc|done].
    eapply leads_on; [by apply elem_of_resolved|done].
Qed.

Lemma reached_closed (entered : gset (string * Z)) d : (∀ d, saved_version d → key d ∈ entered →
    nd_missing (needs d) = None ∧ ∀ e, runs_version d e → key e ∈ entered) →
  saved_version d → key d ∈ entered → ∀ e, rtc runs_version d e → nd_missing (needs e) = None.
Proof using well_kept.
  intros Hcl Hd Hk e He. induction He as [d|d c e Hc He IH]; [by apply Hcl|].
  destruct (Hcl d Hd Hk) as [_ Hch]. apply IH; [|by apply Hch].
  destruct Hc as (_ & _ & _ & ns & n & v & _ & _ & _ & _ & _ & Ht%target_resolves). by eapply target_saved.
Qed.
(** What a drive sends can be done by the host. *)
Fixpoint served (o : drive_op) : Prop :=
  match o with
  | ODispatch d =>
      match dp_target d with
      | TFunction name => is_Some (ad_registry adm !! name) ∨ name = "start_child" ∨ name = "child_outcome"
      | TProcess kind => ∃ p, cp_processes (ad_capabilities adm) = Some p ∧ pr_runs p kind = true
      end
  | ORace _ o => served o
  | _ => True
  end.
Lemma listed_served wf : (∀ f, ¬ lacks wf f) → ∀ o, listed wf o → served o.
Proof.
  intros Hno. induction o; cbn; auto. destruct (dp_target d) as [name|kind].
  - intros [(site & ([t at_] & Hin & Hs)%list_elem_of_omap & <-) Hl]. cbn in Hs.
    destruct (tk_kind t) eqn:Ek; try done. injection Hs as <-. cbn [site_function] in *.
    match goal with |- is_Some (_ !! ?n) ∨ _ => set (name := n) in * end.
    destruct (ad_registry adm !! name) eqn:Er; [by left; eexists|right].
    destruct (decide (name = "start_child")); [by left|]. destruct (decide (name = "child_outcome")); [by right|].
    exfalso. apply (Hno name). eapply lacks_function; [by apply elem_of_sites; exists at_|done| |done..].
    intros x Hx Heq. unfold named in Hl. destruct (list_find _ _) as [[i y]|] eqn:Ef; [done|].
    apply list_find_None in Ef. rewrite Forall_forall in Ef. by apply (Ef x).
  - intros (x & (t & r & Ht & Ek & Er)%elem_of_processes). destruct (runs_process (ad_capabilities adm) kind) eqn:Ec.
    + unfold runs_process in Ec. destruct (cp_processes _) as [p|]; [by exists p|done].
    + exfalso. apply (Hno ("run:" +:+ kind)). eapply lacks_process; [done..|]. by apply runs_lacks.
Qed.

(** C32: the start check is exact and ends. On a catalog of saved versions that does not
    change meanwhile, with as many definitions to enter as it has versions: it passes
    exactly when no version that a run of the checked one can reach through the child
    workflows of its document, transitively, has a task that calls a function or runs a
    process the host lacks; and then no drive of a reached version, whatever it is
    answered, sends a call of such a function or process. Otherwise it names one, with the
    versions that lead to it. The tasks are those of the document but for the handler of a
    spent budget, which the check leaves out ([check_skips_the_handler]). *)
Theorem start_check_is_exact fuel d : saved_version d → (size (catalog_keys catalog) < fuel)%nat →
  match steady world (check adm fuel (of_definition d)) with
  | Ok _ => ∀ e, rtc runs_version d e →
      (∀ f, ¬ version_lacks e f) ∧
      ∀ `{!Functions} `{!Formats} su n records started_ms runtime input,
        document_of e (su_wf su) → (∀ h, bu_on_exceeded (wf_budget (su_wf su)) ≠ XTask h) →
        all_ops served (run_execution n su records started_ms runtime input)
  | Err (RfMissing m) => ∃ route e, leads route d e ∧ mf_path m = key <$> route ∧
      version_lacks e (mf_function m)
  | Err _ => False
  end.
Proof using world_catalog well_kept.
  intros Hd Hf. unfold check. rewrite steady_bind.
  pose proof (explored_tree fuel [] ∅ d Hd ltac:(set_solver) ltac:(by rewrite difference_empty_L)) as Hx.
  destruct (steady world (check_tree adm fuel [] ∅ (of_definition d))) as [entered|[]]; cbn in Hx |- *; try done.
  - destruct Hx as (_ & _ & Hin & Hcl). intros e He.
    assert (∀ f, ¬ version_lacks e f) as Hno.
    { assert (nd_missing (needs e) = None) as Hn.
      { eapply (reached_closed entered); [|done|apply Hin; by left|done]. intros c Hc Hk. apply Hcl; [done|done|set_solver]. }
      pose proof (needs_missing e) as Hm. by rewrite Hn in Hm. }
    split; [done|]. intros ? ? su n records started_ms runtime input Hwf Hex.
    eapply ops_mono; [|exact (surveyed_execution su (survey := listed_survey _ Hex) n records started_ms runtime input)].
    intros o Ho%(allowed_listed _ Hex). apply (listed_served (su_wf su)); [|done].
    intros f Hl. apply (Hno f). by exists (su_wf su).
  - destruct Hx as (d' & route & e & ->%list_elem_of_singleton & Hr & Hp & Hm). exists route, e.
    split_and!; [done..|]. pose proof (needs_missing e) as Hn. by rewrite Hm in Hn.
Qed.
End start_check.

(** ** The cache of the start check *)

Section cache.
Context `{Host, Libraries, RuntimeLibraries}.
Variable c : Capabilities.

(** The registries installed so far, by generation, and what is installed: a registry
    replaces another; a check that took the one of generation [g] with the registry, then
    or earlier, and found nothing [before], stores what it computed. *)
Inductive cached : list Registry → Installed → Prop :=
| cached_new r : cached [r] (mkInstalled r 0 ∅)
| cached_replaced h i r : cached h i → cached (h ++ [r]) (replace_registry i r)
| cached_stored h i g r before name v yaml : cached h i → h !! g = Some r →
    before !! check_key name v yaml (Z.of_nat g) = None →
    cached h (mkInstalled (in_registry i) (in_generation i)
      (checks_needs before (in_checks i) r (Z.of_nat g) c name v yaml).2).
(** Each entry is what some text under its key needs of the registry of its generation. *)
Definition entries_fit (h : list Registry) (k : Checks) : Prop := ∀ name v x g n, k !! (name, v, x, g) = Some n →
  ∃ j r yaml, g = Z.of_nat j ∧ h !! j = Some r ∧ text_hash yaml = x ∧ n = needs_of r c yaml.
Lemma checks_needs_fit h before found g r name v yaml : entries_fit h before → entries_fit h found → h !! g = Some r →
  let '(n, k) := checks_needs before found r (Z.of_nat g) c name v yaml in
  entries_fit h k ∧ ∃ yaml', text_hash yaml' = text_hash yaml ∧ n = needs_of r c yaml'.
Proof.
  intros Hb Hf Hg. unfold checks_needs, check_key.
  assert (∀ k n, entries_fit h k → k !! (name, v, text_hash yaml, Z.of_nat g) = Some n →
    ∃ yaml', text_hash yaml' = text_hash yaml ∧ n = needs_of r c yaml') as Hfit.
  { intros k n Hk Hn. apply Hk in Hn as (j & r' & yaml' & Hj & Hr & Hx & ->). apply Nat2Z.inj in Hj as <-.
    rewrite Hg in Hr. injection Hr as <-. eauto. }
  destruct (before !! _) as [n|] eqn:Eb; [split; [exact Hb|by eapply (Hfit before)]|].
  set (n := default (needs_of r c yaml) (found !! (name, v, text_hash yaml, Z.of_nat g))).
  assert (∃ yaml', text_hash yaml' = text_hash yaml ∧ n = needs_of r c yaml') as (yaml' & Hx & Hn).
  { unfold n. destruct (found !! _) as [n'|] eqn:Ef; [by eapply Hfit|by exists yaml]. }
  split; [|eauto]. intros name' v' x' g' n' [[Hk <-]|[_ Hin]]%lookup_insert_Some; [|by eapply Hf].
  injection Hk as <- <- <- <-. by exists g, r, yaml'.
Qed.
Lemma entries_fit_more h h' k : entries_fit h k → entries_fit (h ++ h') k.
Proof.
  intros Hk name v x g n Hn. apply Hk in Hn as (j & r & yaml & -> & Hr & Hx & ->). exists j, r, yaml.
  split_and!; [done|by apply lookup_app_l_Some|done..].
Qed.
Lemma checks_empty_fit h : entries_fit h ∅.
Proof. intros name v x g n Hn. by rewrite lookup_empty in Hn. Qed.
Lemma cached_fit h i : cached h i → entries_fit h (in_checks i) ∧ h !! Z.to_nat (in_generation i) = Some (in_registry i) ∧
  in_generation i = Z.of_nat (length h) - 1.
Proof.
  induction 1 as [r|h i r Hc (Hf & Hr & Hg)|h i g r before name v yaml Hc (Hf & Hr & Hg) Hgr Hb]; cbn.
  - split_and!; [apply checks_empty_fit|done..].
  - split_and!; [apply checks_empty_fit| |rewrite length_app; cbn; lia].
    rewrite Hg. replace (Z.to_nat _) with (length h) by lia. by apply list_lookup_middle.
  - split_and!; [|done..]. unfold checks_needs. rewrite Hb. cbn.
    pose proof (checks_needs_fit h ∅ (in_checks i) g r name v yaml) as Hx. unfold checks_needs in Hx. rewrite lookup_empty in Hx.
    by apply Hx; [apply checks_empty_fit|..].
Qed.
(** A cached check never stands for another registry: through any replacements of the registry
    and any checks going on meanwhile, also those made with a registry since replaced, a check
    answers what a text with the hash of its own needs of the registry it was made with, whichever
    caches its two looks found. *)
Theorem check_stands_for_its_registry h h' i i' g r name v yaml : cached h i → cached (h ++ h') i' → h !! g = Some r →
  ∃ yaml', text_hash yaml' = text_hash yaml ∧
    (checks_needs (in_checks i) (in_checks i') r (Z.of_nat g) c name v yaml).1 = needs_of r c yaml'.
Proof.
  intros Hi Hi' Hg. apply cached_fit in Hi as (Hi & _). apply cached_fit in Hi' as (Hi' & _).
  pose proof (checks_needs_fit (h ++ h') (in_checks i) (in_checks i') g r name v yaml) as Hx.
  destruct (checks_needs _ _ _ _ _ _ _ _) as [n k]. apply Hx; [by apply entries_fit_more|done|by apply lookup_app_l_Some].
Qed.
End cache.

(** ** Any answers *)

Inductive event := Told (o : rt_op) (x : result fault (rt_answer o)).
Fixpoint track {E A} (p : rt E A) (l : list event) (r : result E A) : Prop :=
  match p with
  | RRet a => l = [] ∧ r = Ok a
  | RFail e => l = [] ∧ r = Err e
  | ROp o k => ∃ x l', l = Told o x :: l' ∧ track (k x) l' r
  end.
Lemma track_bind {E A B} (p : rt E A) (f : A → rt E B) l r : track (p ≫= f) l r →
  (∃ a l1 l2, l = l1 ++ l2 ∧ track p l1 (Ok a) ∧ track (f a) l2 r) ∨ (∃ e, track p l (Err e) ∧ r = Err e).
Proof.
  revert l. unfold mbind, rt_bind. induction p as [a|e|o k IH]; intros l; cbn.
  - intros Hl. left. by exists a, [], l.
  - intros [-> ->]. right. by exists e.
  - intros (x & l' & -> & [(a & l1 & l2 & -> & Hp & Hf)|(e & Hp & ->)]%IH).
    + left. exists a, (Told o x :: l1), l2. split_and!; [done| |done]. eauto.
    + right. exists e. eauto.
Qed.
Lemma track_map_err {E F A} (f : E → F) (p : rt E A) l r : track (map_err f p) l r →
  (∃ a, r = Ok a ∧ track p l (Ok a)) ∨ (∃ e, r = Err (f e) ∧ track p l (Err e)).
Proof.
  revert l. induction p as [a|e|o k IH]; intros l; cbn; [intros [-> ->]; eauto..|].
  intros (x & l' & -> & [(a & -> & Hp)|(e & -> & Hp)]%IH); eauto 8.
Qed.
Lemma track_outcome {E F A} (p : rt E A) l (r : result F (result E A)) : track (outcome_of p) l r →
  ∃ x, r = Ok x ∧ track p l x.
Proof.
  revert l. induction p as [a|e|o k IH]; intros l; cbn; [intros [-> ->]; eauto..|].
  intros (x & l' & -> & (y & -> & Hp)%IH). eauto 6.
Qed.
Lemma track_call {E} (f : fault → E) o l r : track (call_with f o) l r →
  ∃ x, l = [Told o x] ∧ r = match x with Ok a => Ok a | Err e => Err (f e) end.
Proof. intros (x & l' & -> & Ht). exists x. by destruct x; destruct Ht as [-> ->]. Qed.
Lemma track_fail {E F A} (f : E → F) (x : result E A) l r : track (fail_with f x) l r →
  l = [] ∧ ((∃ a, x = Ok a ∧ r = Ok a) ∨ ∃ e, x = Err e ∧ r = Err (f e)).
Proof. destruct x; intros [-> ->]; eauto 6. Qed.

(** Follows a track through one step of its program. *)
Ltac track_step :=
  match goal with
  | T : track (mret _) _ _ |- _ => destruct T as [-> T]
  | T : track (RRet _) _ _ |- _ => destruct T as [-> T]
  | T : track (RFail _) _ _ |- _ => destruct T as [-> T]
  | T : track (_ ≫= _) _ _ |- _ =>
      let a := fresh "a" in let l1 := fresh "l" in let l2 := fresh "l" in let e := fresh "e" in
      let T1 := fresh "T" in let T2 := fresh "T" in
      apply track_bind in T as [(a & l1 & l2 & -> & T1 & T2)|(e & T1 & T2)]
  | T : track (map_err _ _) _ _ |- _ =>
      let a := fresh "a" in let e := fresh "e" in let T' := fresh "T" in
      apply track_map_err in T as [(a & T' & T)|(e & T' & T)]
  | T : track (outcome_of _) _ _ |- _ => let x := fresh "x" in let T' := fresh "T" in apply track_outcome in T as (x & T' & T)
  | T : track (request _) _ _ |- _ => unfold request in T
  | T : track (call_with _ _) _ _ |- _ => let x := fresh "x" in apply track_call in T as (x & -> & T)
  | T : track (fail_with _ _) _ _ |- _ =>
      let a := fresh "a" in let e := fresh "e" in let E := fresh "Hx" in
      apply track_fail in T as (-> & [(a & E & T)|(e & E & T)])
  | T : Ok _ = Ok _ |- _ => injection T as T
  | T : Err _ = Err _ |- _ => injection T as T
  | T : Ok _ = Err _ |- _ => discriminate T
  | T : Err _ = Ok _ |- _ => discriminate T
  | T : ?x = ?y |- _ => first [subst x | subst y]
  end.
Ltac track_walk := repeat track_step.

(** What a track sent to a handler or a runner. *)
Definition sent (e : event) : bool :=
  match e with Told (RoHandler _ _ _) _ | Told (RoProcess _ _ _) _ => true | _ => false end.
Definition dispatches (l : list event) : list event := filter (λ e, sent e = true) l.
Lemma dispatches_app l1 l2 : dispatches (l1 ++ l2) = dispatches l1 ++ dispatches l2.
Proof. apply filter_app. Qed.

(** Programs that never ask for an operation of a kind. *)
Fixpoint asks_no {E A} (P : rt_op → bool) (p : rt E A) : Prop :=
  match p with ROp o k => P o = false ∧ ∀ x, asks_no P (k x) | _ => True end.
Lemma asks_no_bind {E A B} P (p : rt E A) (f : A → rt E B) : asks_no P p → (∀ a, asks_no P (f a)) → asks_no P (p ≫= f).
Proof. intros Hp Hf. unfold mbind, rt_bind. induction p as [a|e|o k IH]; cbn in *; [done..|]. naive_solver. Qed.
Lemma asks_no_map_err {E F A} P (f : E → F) (p : rt E A) : asks_no P p → asks_no P (map_err f p).
Proof. induction p as [a|e|o k IH]; cbn; [done..|]. naive_solver. Qed.
Lemma asks_no_outcome {E F A} P (p : rt E A) : asks_no P p → asks_no P (outcome_of (F := F) p).
Proof. induction p as [a|e|o k IH]; cbn; [done..|]. naive_solver. Qed.
Lemma asks_no_call {E} P (f : fault → E) o : P o = false → asks_no P (call_with f o).
Proof. intros Ho. split; [done|]. by intros []. Qed.
Lemma asks_no_fail {E F A} P (f : E → F) (x : result E A) : asks_no P (fail_with f x).
Proof. by destruct x. Qed.
Lemma asks_no_track {E A} P (p : rt E A) l r : asks_no P p → track p l r →
  ∀ o x, Told o x ∈ l → P o = false.
Proof.
  revert l. induction p as [a|e|o k IH]; intros l Hp; cbn; [intros [-> _] ? ? []%elem_of_nil..|].
  destruct Hp as [Ho Hk]. intros (x & l' & -> & Ht) o' x' [He|Hin]%elem_of_cons; [|by eapply IH].
  by injection He as -> _.
Qed.

(** What an admission asks for: the catalog, the resolver and the span. *)
Definition reads_only (P : rt_op → bool) : Prop :=
  P RoTrace = false ∧ ∀ s, P (RoDefinitions s) = false ∧ P (RoResolve s) = false.
Section asks.
Context `{Host, Libraries, RuntimeLibraries, StatusFormat, Calendar}.
Variable adm : Admitter.
Variable fuel : nat.
Variable P : rt_op → bool.
Hypothesis HP : reads_only P.

Lemma asks_no_request o : P o = false → asks_no P (request o).
Proof. apply asks_no_call. Qed.
Lemma asks_no_children visit seen l : (∀ seen d, asks_no P (visit seen d)) → asks_no P (check_children visit seen l).
Proof using HP.
  intros Hv. revert seen. induction l as [|[[ns n] v] l IH]; intros seen; [done|]. cbn [check_children]. unfold target.
  apply asks_no_bind; [apply asks_no_bind; [by apply asks_no_request, HP|done]|]. intros [d|]; (apply asks_no_bind; [by try apply Hv|done]).
Qed.
Lemma asks_no_tree n path seen d : asks_no P (check_tree adm n path seen d).
Proof using HP.
  revert path seen d. induction n as [|n IH]; intros path seen [[name v] yaml]; [done|]. cbn [check_tree].
  case_decide; [done|]. destruct (nd_missing _); [done|]. apply asks_no_children. intros; apply IH.
Qed.
Lemma asks_no_schemas uris out : asks_no P (schemas_from adm uris out).
Proof using HP.
  revert out. induction uris as [|uri uris IH]; intros out; [done|]. cbn [schemas_from].
  apply asks_no_bind; [by destruct (cp_resources _)|]. intros _. apply asks_no_bind; [by apply asks_no_call, HP|].
  intros v. by destruct (schema_error _).
Qed.
Lemma asks_no_admission id d input l b : asks_no P (admission adm id d input l b).
Proof using HP. apply asks_no_bind; [by apply asks_no_request, HP|done]. Qed.
Lemma asks_no_of id d input l : asks_no P (admission_of adm fuel id d input l).
Proof using HP.
  unfold admission_of, check, schemas, validated.
  repeat first [apply asks_no_admission | apply asks_no_bind; [|intros ?] | apply asks_no_map_err | apply asks_no_tree
               | apply asks_no_fail | apply asks_no_schemas | done].
Qed.
Lemma asks_no_active id name input l : asks_no P (active_in adm fuel id name input l).
Proof using HP.
  unfold active_in, current. apply asks_no_bind; [|intros d; apply asks_no_of].
  apply asks_no_bind; [by apply asks_no_request, HP|]. intros d. destruct (tripped d); [done|]. by destruct (active d ≫= _).
Qed.
Lemma asks_no_pinned id name v input l : asks_no P (pinned_in adm fuel id name v input l).
Proof using HP.
  unfold pinned_in. apply asks_no_bind; [by apply asks_no_request, HP|]. intros d. destruct (versions d !! v); [|done].
  apply asks_no_bind; [apply asks_no_of|done].
Qed.
Lemma asks_no_commit {E} (f g : fault → E) fence a link now :
  P (RoStartChild fence a link now) = false → (∀ fence, P (RoRelease fence now) = false) →
  asks_no P (commit_child f g fence a link now).
Proof. intros Hs Hr. unfold commit_child. apply asks_no_bind; [by apply asks_no_call|]. intros [fence'|]; [by apply asks_no_call|done]. Qed.
End asks.

(** ** What a call is checked for *)

Section calls.
Context `{Host, Libraries, RuntimeLibraries, StatusFormat, Calendar}.
Variable adm : Admitter.
Variable fuel : nat.
Variable xn : Execution.

(** A handler's or runner's call: of the call's own target, where the drive is no replay
    and its host does not answer the call itself, with arguments of the function's schema
    and the run's host data, right after the store has confirmed the lease. *)
Definition fit_dispatch (name : string) (process : option string) (args : value) (info : CallInfo)
    (before : list event) (e : event) : Prop :=
  is_replay (xn_mode xn) = false ∧ mocks_of (xn_mode xn) name args = false ∧ builtin name = false ∧
  (∃ now, last before = Some (Told (RoCheckLease (xn_fence xn) now) (Ok ()))) ∧
  let c := call_context xn name process info in
  match process with
  | None => ∃ f x, ad_registry adm !! name = Some f ∧ schema_violation (fu_input f) args = None ∧
      e = Told (RoHandler name args c) x
  | Some kind => runs_process (ad_capabilities adm) kind = true ∧ ∃ x, e = Told (RoProcess kind args c) x
  end.
(** What a call answers was within the function's schema and the bounds of annotations. *)
Definition fit_output (name : string) (process : option string) (v : value) (a : Annotations) : Prop :=
  check_annotations a = Ok () ∧
  ∀ f, process = None → ad_registry adm !! name = Some f → schema_violation (fu_output f) v = None.

Lemma dispatch_spec mocks name process args c info l r :
  track (dispatch mocks name process args c info) l r →
  (mocks name args = true ∧ dispatches l = []) ∨
  (mocks name args = false ∧ ∃ e, l = [e] ∧ sent e = true ∧
    match process with
    | None => ∃ x, e = Told (RoHandler name args c) x
    | Some kind => ∃ x, e = Told (RoProcess kind args c) x
    end).
Proof.
  unfold dispatch, answered. destruct (mocks name args); intros Ht.
  - left. split; [done|]. track_walk; done.
  - right. split; [done|]. destruct process; track_walk; eauto 8.
Qed.
Lemma track_violation schema v what f l r : track (violation schema v what f) l r →
  l = [] ∧ (r = Ok () → schema_violation schema v = None).
Proof. unfold violation. destruct (schema_violation schema v); intros Ht; track_walk; done. Qed.
(** The schema of a function, where there is one. *)
Definition conforms_to (schema : Function → value) (f : option Function) (v : value) : Prop :=
  ∀ g, f = Some g → schema_violation (schema g) v = None.
Lemma track_conforms schema f v what wrong l r :
  track (match f with Some g => violation (schema g) v what wrong | None => mret () end) l r →
  l = [] ∧ (r = Ok () → conforms_to schema f v).
Proof.
  destruct f as [g|]; [|by intros [-> ->]]. intros [-> Hg]%track_violation. split; [done|].
  by intros Hr g' [= <-]; apply Hg.
Qed.
Lemma dispatched_spec name process args info l r :
  is_replay (xn_mode xn) = false → builtin name = false →
  match process with Some kind => runs_process (ad_capabilities adm) kind = true | None => is_Some (ad_registry adm !! name) end →
  track (dispatched adm xn (mocks_of (xn_mode xn)) name process args (call_context xn name process info) info) l r →
  (dispatches l = [] ∨ ∃ before e after, l = before ++ e :: after ∧ dispatches l = [e] ∧
     fit_dispatch name process args info before e) ∧
  (∀ o, r = Ok o → fit_output name process (ou_value o) (ou_annotations o)).
Proof.
  intros Hm Hb Hk Ht. unfold dispatched in Ht.
  set (f := match process with Some _ => None | None => ad_registry adm !! name end) in Ht.
  apply track_bind in Ht as [(u & l1 & l2 & -> & [-> Hi]%track_conforms & Ht)|(e & [-> _]%track_conforms & ->)];
    [|by split; [left|]]. destruct u. specialize (Hi eq_refl).
  apply track_bind in Ht as [(permit & l3 & l4 & -> & Hp & Ht)|(e & Hp & ->)]; [|track_walk; by split; [left|]].
  apply track_call in Hp as (xp & -> & _).
  apply track_bind in Ht as [(u & l5 & l6 & -> & Hp & Ht)|(e & Hp & ->)];
    [|destruct permit; track_walk; by split; [left|]].
  assert (l5 = []) as -> by (by destruct permit; track_walk). clear Hp.
  apply track_bind in Ht as [(now & l7 & l8 & -> & Hn & Ht)|(e & Hn & ->)]; [|track_walk; by split; [left|]].
  apply track_call in Hn as (xn' & -> & _).
  apply track_bind in Ht as [(u' & l9 & l10 & -> & Hl & Ht)|(e & Hl & ->)]; [|track_walk; by split; [left|]].
  apply track_call in Hl as ([[]|] & -> & Hl); [clear Hl|done]. cbn [app].
  set (before := [Told RoPermit xp; Told RoNow xn'; Told (RoCheckLease (xn_fence xn) now) (Ok ())]).
  change (Told RoPermit xp :: Told RoNow xn' :: Told (RoCheckLease (xn_fence xn) now) (Ok ()) :: l10) with (before ++ l10).
  assert (∀ le r', track (dispatch (mocks_of (xn_mode xn)) name process args (call_context xn name process info) info) le r' →
    ∀ la, dispatches la = [] → dispatches (before ++ le ++ la) = [] ∨
      ∃ before' e after, before ++ le ++ la = before' ++ e :: after ∧ dispatches (before ++ le ++ la) = [e] ∧
        fit_dispatch name process args info before' e) as Hsent.
  { intros le r' Hd la Hla. rewrite !dispatches_app, Hla, app_nil_r.
    apply dispatch_spec in Hd as [[Hk' ->]|[Hk' (e & -> & He & Hx)]]; [by left|]. right.
    exists before, e, la. split; [done|]. split; [cbn; by rewrite He|].
    split_and!; [done..|by exists now|]. cbv zeta. destruct process as [kind|]; [by split|].
    destruct Hk as [g Hg]. destruct Hx as [x ->]. exists g, x. split_and!; [done|by apply Hi|done]. }
  apply track_bind in Ht as [(o & l11 & l12 & -> & Hd & Ht)|(e & Hd & ->)].
  2:{ split; [|done]. specialize (Hsent _ _ Hd [] eq_refl). by rewrite app_nil_r in Hsent. }
  apply track_bind in Ht as [(u'' & l13 & l14 & -> & [-> Ho]%track_conforms & Ht)|(e & [-> _]%track_conforms & ->)];
    [|by split; [apply (Hsent _ _ Hd)|]].
  destruct u''. specialize (Ho eq_refl). cbn [app].
  assert (l14 = []) as -> by (by destruct (check_annotations _); track_walk).
  split; [by apply (Hsent _ _ Hd)|]. intros o' ->. destruct (check_annotations (ou_annotations o)) as [[]|] eqn:Ea; destruct Ht as [_ Ht]; [injection Ht as ->|done].
  split; [done|]. intros g -> Hg. by apply Ho.
Qed.

Lemma track_replayed rec name args info l r : track (replayed rec name args info) l r →
  l = [] ∨ ∃ x, l = [Told (RoUsed (ci_reference info)) x].
Proof.
  unfold replayed. destruct (re_calls rec !! _) as [[call status]|]; [|intros Ht; track_walk; by left].
  case_decide; intros Ht; [track_walk; by left|].
  apply track_bind in Ht as [(u & l1 & l2 & -> & Hu & Ht)|(e & Hu & ->)]; apply track_call in Hu as (x & -> & _); right; exists x; [|done].
  assert (l2 = []) as ->; [|done]. repeat case_match; by track_walk.
Qed.
Definition is_dispatch (o : rt_op) : bool := match o with RoHandler _ _ _ | RoProcess _ _ _ => true | _ => false end.
Lemma dispatches_none {E A} (p : rt E A) l r : asks_no is_dispatch p → track p l r → dispatches l = [].
Proof.
  intros Hp Ht. pose proof (asks_no_track _ _ _ _ Hp Ht) as Hl. clear Hp Ht.
  induction l as [|[o x] l IH]; [done|]. unfold dispatches. rewrite filter_cons_False.
  - apply IH. intros o' x' Hin. eapply Hl. by right.
  - pose proof (Hl o x ltac:(by left)). by destruct o.
Qed.
Lemma builtin_asks name args info : asks_no is_dispatch (builtin_call adm fuel xn name args info).
Proof.
  assert (reads_only is_dispatch) as HP by done.
  unfold builtin_call, builtin_outcome, builtin_start. case_decide;
  repeat first [by apply asks_no_active | by apply asks_no_commit | apply asks_no_bind; [|intros ?] | apply asks_no_fail
               | by apply asks_no_request | apply asks_no_map_err | done
               | match goal with |- asks_no _ (match ?x with _ => _ end) => destruct x end].
Qed.
(** C33: Whatever the store, the host and the clock answer a call of the host: at most one handler
    or runner is called, with arguments of the function's schema and the run's host data, for a
    function the registry holds or a process the host runs, right after the store confirmed the
    lease, never in a replay and never for a call a dry run's host answers itself; an answer that
    comes through is within the function's output schema and the bounds of annotations; and a
    replay asks the host and the store for nothing. *)
Theorem call_is_checked name process args info l r :
  track (invoke_function adm fuel xn name process args info) l r →
  (dispatches l = [] ∨ ∃ before e after, l = before ++ e :: after ∧ dispatches l = [e] ∧
     fit_dispatch name process args info before e) ∧
  (∀ v a, r = Ok (v, a) → is_replay (xn_mode xn) = false → builtin name = false → fit_output name process v a) ∧
  (is_replay (xn_mode xn) = true → ∀ o x, Told o x ∈ l → o = RoUsed (ci_reference info)).
Proof.
  unfold invoke_function. destruct (negb _) eqn:Ek; intros Ht.
  { track_walk. split_and!; [by left|done|by intros _ ? ? ?%elem_of_nil]. }
  apply negb_false_iff in Ek.
  assert (∀ e, track (match xn_mode xn with
      | Replay r => replayed r name args info
      | m => map_err (λ e, (e, ∅))
              (if builtin name then v ← map_err failed_builtin (builtin_call adm fuel xn name args info); mret (mkOut v ∅)
               else dispatched adm xn (mocks_of m) name process args (call_context xn name process info) info)
      end) l e →
    (dispatches l = [] ∨ ∃ before e after, l = before ++ e :: after ∧ dispatches l = [e] ∧
       fit_dispatch name process args info before e) ∧
    (∀ o, e = Ok o → is_replay (xn_mode xn) = false → builtin name = false →
       fit_output name process (ou_value o) (ou_annotations o)) ∧
    (is_replay (xn_mode xn) = true → ∀ o x, Told o x ∈ l → o = RoUsed (ci_reference info))) as Hmain.
  { clear Ht. intros e Ht. destruct (is_replay (xn_mode xn)) eqn:Em.
    - destruct (xn_mode xn) as [| |rec]; [done|done|]. apply track_replayed in Ht as [->|[x ->]].
      + split_and!; [by left|done|by intros _ ? ? ?%elem_of_nil].
      + split_and!; [by left|done|]. by intros _ o x' [= -> _]%list_elem_of_singleton.
    - assert (track (map_err (λ e, (e, ∅))
          (if builtin name then v ← map_err failed_builtin (builtin_call adm fuel xn name args info); mret (mkOut v ∅)
           else dispatched adm xn (mocks_of (xn_mode xn)) name process args (call_context xn name process info) info)) l e) as Ht'
        by (by destruct (xn_mode xn)).
      clear Ht. destruct (builtin name) eqn:Eb.
      + split_and!; [left|done|done]. eapply dispatches_none, Ht'.
        apply asks_no_map_err, asks_no_bind; [apply asks_no_map_err, builtin_asks|done].
      + assert (match process with Some kind => runs_process (ad_capabilities adm) kind = true | None => is_Some (ad_registry adm !! name) end)
          as Hk. { destruct process; [done|]. unfold host_has in Ek. rewrite Eb in Ek. by apply bool_decide_eq_true in Ek. }
        apply track_map_err in Ht' as [(o & -> & Ht)|(f & -> & Ht)];
          (apply dispatched_spec in Ht as [Hd Ho]; [|done..]); split_and!; try done.
        intros o' [= ->] _ _. by apply Ho. }
  apply track_bind in Ht as [(o & l1 & l2 & -> & Ht & [-> ->])|(e & Ht & ->)].
  - rewrite app_nil_r in *. apply Hmain in Ht as (Hd & Ho & Hr). split_and!; [done| |done].
    intros v a [= <- <-] Hm Hb. by apply Ho.
  - apply Hmain in Ht as (Hd & Ho & Hr). by split_and!.
Qed.
End calls.

(** ** Where a child stands, and whose host data it has *)

Lemma vget_vset_ne k k' x v : k ≠ k' → vget k (vset k' x v) = vget k v.
Proof. intros Hk. destruct v; try done. unfold vget, vset. by rewrite lookup_insert_ne. Qed.
Definition on_object (a : Admission) : Prop := is_object (a_runtime a) = true.
Lemma on_object_with k v a : on_object a → on_object (with_runtime k v a).
Proof. unfold on_object, with_runtime. cbn. by destruct (a_runtime a). Qed.
Lemma lineage_with k v a limits : k ≠ "limits" → lineage_of (with_runtime k v a) limits = lineage_of a limits.
Proof. intros Hk. unfold lineage_of, vindex at 2 4, with_runtime. cbn [a_runtime]. by rewrite vget_vset_ne. Qed.
Lemma host_with k v a : k ≠ HOST → Types.host (with_runtime k v a) = Types.host a.
Proof. intros Hk. unfold Types.host, with_runtime. cbn [a_runtime]. by rewrite vget_vset_ne. Qed.
(** Host data as an admission answers it: [null] is none. *)
Definition given (h : option value) : option value := h ≫= λ h, if is_null h then None else Some h.
Lemma host_with_host h a : on_object a → Types.host a = None → Types.host (with_host h a) = given h.
Proof.
  unfold on_object. intros Ho Hh. destruct h as [h|]; [|done]. destruct (a_runtime a) as [| | | | |m] eqn:E; try done.
  unfold Types.host, with_host, with_runtime. cbn [a_runtime]. rewrite E. unfold vset, vget. by rewrite lookup_insert_eq.
Qed.
Lemma lineage_with_host h a limits : lineage_of (with_host h a) limits = lineage_of a limits.
Proof. destruct h; [by apply lineage_with|done]. Qed.

(** A lineage of machine integers. *)
Definition in_range (l : Lineage) : Prop := 0 ≤ ln_max_jumps l ∧ 0 ≤ ln_depth l ≤ u32_max.
Lemma as_u64_vint z : 0 ≤ z → Json.as_u64 (vint z) = Some z.
Proof. intros Hz. unfold vint, Num.of_z. by rewrite decide_True. Qed.

Section children.
Context `{Host, Libraries, RuntimeLibraries, StatusFormat, Calendar}.
Variable adm : Admitter.
Variable fuel : nat.
Variable xn : Execution.
Local Abbreviation limits := (ad_limits adm).

(** An admission as [admission_of] makes it. *)
Definition made (id : string) (l : Lineage) (a : Admission) : Prop :=
  a_id a = id ∧ lineage_of a limits = l ∧ Types.host a = None ∧ on_object a.
Lemma runtime_limits l b t : vindex "limits" (runtime_value adm l b t) = pin l.
Proof. unfold runtime_value. by destruct b as [[]|], (ad_application adm), t as [[]|]. Qed.
Lemma runtime_host l b t : vget HOST (runtime_value adm l b t) = None.
Proof. unfold runtime_value. by destruct b as [[]|], (ad_application adm), t as [[]|]. Qed.
Lemma runtime_object l b t : is_object (runtime_value adm l b t) = true.
Proof. unfold runtime_value. by destruct b as [[]|], (ad_application adm), t as [[]|]. Qed.
Lemma lineage_of_pin id d v y i l b t now : in_range l →
  lineage_of (mkAdmission id d v y i (runtime_value adm l b t)) now = l.
Proof.
  intros [Hj Hd]. unfold lineage_of. cbn [a_runtime]. rewrite runtime_limits.
  unfold pin, vindex, vget. rewrite lookup_insert_eq, lookup_insert_ne, lookup_singleton_eq by done.
  unfold from_option, Datatypes.id. rewrite !as_u64_vint by lia. rewrite decide_True by lia. by destruct l.
Qed.
Lemma admission_made id d input l b t r a : in_range l → track (admission adm id d input l b) t r → r = Ok a → made id l a.
Proof.
  intros Hl Ht ->. unfold admission in Ht.
  apply track_bind in Ht as [(tr & ? & ? & -> & _ & [-> Ht])|(? & _ & ?)]; [|done]. injection Ht as ->. split_and!; [done| | |].
  - by apply lineage_of_pin.
  - unfold Types.host. cbn [a_runtime]. by rewrite runtime_host.
  - apply runtime_object.
Qed.
Lemma of_made id d input l t r a : in_range l → track (admission_of adm fuel id d input l) t r → r = Ok a → made id l a.
Proof.
  intros Hl Ht ->. unfold admission_of in Ht.
  repeat match type of Ht with track (_ ≫= _) _ _ =>
    apply track_bind in Ht as [(? & ? & ? & -> & _ & Ht)|(? & _ & ?)]; [|done] end.
  by eapply admission_made.
Qed.
Lemma active_made id name input l t r a : in_range l → track (active_in adm fuel id name input l) t r → r = Ok a → made id l a.
Proof.
  intros Hl Ht ->. unfold active_in in Ht. apply track_bind in Ht as [(? & ? & ? & -> & _ & Ht)|(? & _ & ?)]; [|done].
  by eapply of_made.
Qed.
Lemma pinned_made id name v input l t r a : in_range l → track (pinned_in adm fuel id name v input l) t r → r = Ok a → made id l a.
Proof.
  intros Hl Ht ->. unfold pinned_in in Ht. apply track_bind in Ht as [(d & ? & ? & -> & _ & Ht)|(? & _ & ?)]; [|done].
  destruct (versions d !! v) as [d'|]; [|by track_walk].
  apply track_bind in Ht as [(a' & ? & ? & -> & Ha & Ht)|(? & _ & ?)]; [|done]. track_walk.
  eapply of_made in Ha as (Hi & Hn & Hh & Ho); [|done..]. split_and!; [done|by rewrite lineage_with|by rewrite host_with|by apply on_object_with].
Qed.

(** The admission a child is started with: that of the run it joins, or one a level deeper
    than the call's run, within the host's depth, with the budget [jumps] and host data [h]. *)
Definition child_admission (id : string) (jumps : Z) (h : option value) (l : list event) (a : Admission) : Prop :=
  (∃ saved, Told (RoGet id) (Ok (Some saved)) ∈ l ∧ a = r_admission saved) ∨
  (let depth := sat_addu32 (ln_depth (xn_lineage xn)) 1 in
   a_id a = id ∧ lineage_of a limits = mkLineage jumps depth ∧ depth ≤ ad_max_depth adm ∧ Types.host a = h).
Definition places (id : string) (link : option ChildLink) (jumps : Z) (h : option value) (l : list event) (o : rt_op)
    : Prop :=
  match o with
  | RoStartChild f a k _ => f = xn_fence xn ∧ link = Some k ∧ child_admission id jumps h l a
  | RoAdmit a _ => link = None ∧ child_admission id jumps h l a
  | _ => True
  end.
Definition starting (o : rt_op) : bool := match o with RoStartChild _ _ _ _ | RoAdmit _ _ => true | _ => false end.
Lemma places_other id link j h l o : starting o = false → places id link j h l o.
Proof. by destruct o. Qed.
Lemma starting_reads : reads_only starting.
Proof. done. Qed.
Definition quiet (l : list event) : Prop := ∀ o x, Told o x ∈ l → starting o = false.
Lemma quiet_app l1 l2 : quiet l1 → quiet l2 → quiet (l1 ++ l2).
Proof. intros H1' H2' o x [Hin|Hin]%elem_of_app; eauto. Qed.
Lemma quiet_nil : quiet [].
Proof. by intros ? ? ?%elem_of_nil. Qed.
Lemma quiet_one o x : starting o = false → quiet [Told o x].
Proof. intros Ho o' x' [= -> _]%list_elem_of_singleton. done. Qed.
Lemma quiet_track {E A} (p : rt E A) l r : asks_no starting p → track p l r → quiet l.
Proof. intros Hp Ht o x. by eapply asks_no_track. Qed.
(** A part that starts nothing, before what the rest starts. *)
Lemma places_after id link j h l1 l2 : quiet l1 →
  (∀ o x, Told o x ∈ l2 → places id link j h (l1 ++ l2) o) → ∀ o x, Told o x ∈ l1 ++ l2 → places id link j h (l1 ++ l2) o.
Proof. intros Hq Hl o x [Hin|Hin]%elem_of_app; [by eapply places_other, Hq|by eapply Hl]. Qed.
Lemma places_quiet id link j h l l' : quiet l' → ∀ o x, Told o x ∈ l' → places id link j h l o.
Proof. intros Hq o x Hin. by eapply places_other, Hq. Qed.
Lemma commit_places {E} (f g : fault → E) id link j h l a now l' r :
  child_admission id j h l a → track (commit_child f g (xn_fence xn) a link now) l' r →
  ∀ o x, Told o x ∈ l' → places id (Some link) j h l o.
Proof.
  intros Ha Ht. unfold commit_child in Ht. apply track_bind in Ht as [(s & l1 & l2 & -> & Hs & Ht)|(e & Hs & ->)];
    apply track_call in Hs as (x & -> & _).
  - intros o y [He|Hin]%elem_of_cons; [by injection He as -> _|]. apply places_other.
    destruct s as [fence'|]; [|destruct Ht as [-> _]; by apply elem_of_nil in Hin].
    apply track_call in Ht as (z & -> & _). by apply list_elem_of_singleton in Hin as [= -> _].
  - by intros o y [= -> _]%list_elem_of_singleton.
Qed.
Lemma child_admission_mono id j h l l' a : l ⊆ l' → child_admission id j h l a → child_admission id j h l' a.
Proof. intros Hl [(s & Hs & ->)|Ha]; [left|by right]. exists s. split; [by apply Hl|done]. Qed.
Lemma lineage_child_spec l max l' : lineage_child l max = Ok l' →
  l' = mkLineage (ln_max_jumps l) (sat_addu32 (ln_depth l) 1) ∧ sat_addu32 (ln_depth l) 1 ≤ max.
Proof. unfold lineage_child. cbv zeta. case_decide; [done|]. intros [= <-]. split; [done|lia]. Qed.
Lemma in_range_child l max l' : in_range l → lineage_child l max = Ok l' → in_range l'.
Proof.
  intros [Hj Hd] [-> _]%lineage_child_spec. split; [done|]. cbn. unfold sat_addu32, u32_max in *. lia.
Qed.
(** Made at its place and given its host. *)
Lemma made_child id a j h l : made id (mkLineage j (sat_addu32 (ln_depth (xn_lineage xn)) 1)) a →
  sat_addu32 (ln_depth (xn_lineage xn)) 1 ≤ ad_max_depth adm → child_admission id j (given h) l (with_host h a).
Proof.
  intros (Hi & Hl & Hh & Ho) Hd. right. cbv zeta.
  split_and!; [by destruct h|by rewrite lineage_with_host|done|by apply host_with_host].
Qed.
Hypothesis xn_in_range : in_range (xn_lineage xn).

(** The part that gives the admission: a join's, or one made. *)
Definition gives (id : string) (j : Z) (h : option value) {E} (p : rt E Admission) (before : list event) : Prop :=
  ∀ l r, track p l r → quiet l ∧ ∀ a, r = Ok a → child_admission id j h (before ++ l) a.
(** A start: quiet, then the admission, then its commit. *)
Lemma start_places {E B} (f g : fault → E) id link j h (p : rt E Admission) (k : rt E B) before l r :
  quiet before → gives id j h p before → (∀ l r, track k l r → quiet l) →
  track (a ← p; now ← call_with g RoNow; _ ← commit_child f g (xn_fence xn) a link now; k) l r →
  ∀ o x, Told o x ∈ before ++ l → places id (Some link) j h (before ++ l) o.
Proof.
  intros Hq Hp Hk Ht. apply places_after; [done|].
  apply track_bind in Ht as [(a & l1 & l2 & -> & Ha & Ht)|(e & Ha & _)]; [|eapply places_quiet, Hp, Ha].
  destruct (Hp _ _ Ha) as [Hq1 Hc]. specialize (Hc a eq_refl).
  apply track_bind in Ht as [(now & l3 & l4 & -> & Hn & Ht)|(e & Hn & _)]; apply track_call in Hn as (xn' & -> & _);
    [|apply places_quiet, quiet_app; [done|] ]. 2:{ apply quiet_one. reflexivity. }
  assert (child_admission id j h (before ++ l1 ++ [Told RoNow xn'] ++ l4) a) as Hc'.
  { eapply child_admission_mono, Hc. set_solver. }
  intros o x [Hin|[Hin|Hin]%elem_of_app]%elem_of_app; [by eapply places_quiet|eapply places_quiet; [|exact Hin]; by apply quiet_one|].
  apply track_bind in Ht as [(u & l5 & l6 & -> & Hcm & Ht)|(e & Hcm & _)]; [|by eapply commit_places].
  apply elem_of_app in Hin as [Hin|Hin]; [by eapply commit_places|eapply places_quiet; [|exact Hin]; by eapply Hk].
Qed.
Lemma joined_or_made {E} (g : fault → E) id j h (joined_ : SavedRun → rt E Admission) (fresh : rt E Admission) :
  (∀ s l r, track (joined_ s) l r → l = [] ∧ ∀ a, r = Ok a → a = r_admission s) →
  (∀ l r, track fresh l r → quiet l ∧ ∀ a, r = Ok a → ∀ l', child_admission id j h l' a) →
  ∀ before, gives id j h (saved ← call_with g (RoGet id);
    match (saved : option SavedRun) with Some s => joined_ s | None => fresh end) before.
Proof.
  intros Hj Hf before l r Ht. apply track_bind in Ht as [(s & l1 & l2 & -> & Hg & Ht)|(e & Hg & ->)];
    apply track_call in Hg as (x & -> & Hx); [|split; [by apply quiet_one|done]].
  destruct x as [s'|]; [injection Hx as <-|done]. destruct s as [s|].
  - apply Hj in Ht as [-> Ha]. split; [by apply quiet_one|]. intros a ->%Ha. left. exists s. split; [|done].
    apply elem_of_app. right. by left.
  - apply Hf in Ht as [Hq Ha]. split; [apply quiet_app; [by apply quiet_one|done]|]. intros a Hr. by apply Ha.
Qed.
Lemma track_ok {E A B} (p : rt E A) (f : A → rt E B) a l1 l2 r :
  track p l1 (Ok a) → track (f a) l2 r → track (p ≫= f) (l1 ++ l2) r.
Proof.
  revert l1. unfold mbind, rt_bind. induction p as [a'|e|o k IH]; intros l1; cbn; [by intros [-> [= ->]]|by intros [_ ?]|].
  intros (x & l' & -> & Hp) Hf. exists x, (l' ++ l2). split; [done|by apply IH].
Qed.
Lemma track_err {E A B} (p : rt E A) (f : A → rt E B) e l : track p l (Err e) → track (p ≫= f) l (Err e).
Proof.
  revert l. unfold mbind, rt_bind. induction p as [a'|e'|o k IH]; intros l; cbn; [by intros [_ ?]|by intros [-> [= ->]]|].
  intros (x & l' & -> & Hp). exists x, l'. split; [done|by apply IH].
Qed.
Lemma track_assoc {E A B C} (p : rt E A) (q : A → rt E B) (f : B → rt E C) l r :
  track (s ← p; a ← q s; f a) l r → track (a ← (s ← p; q s); f a) l r.
Proof.
  intros Ht. apply track_bind in Ht as [(s & l1 & l2 & -> & Hp & Ht)|(e & Hp & ->)]; [|by apply track_err, track_err].
  apply track_bind in Ht as [(a & l3 & l4 & -> & Hq & Ht)|(e & Hq & ->)].
  - rewrite app_assoc. eapply track_ok; [by eapply track_ok|done].
  - apply track_err. by eapply track_ok.
Qed.
Lemma deeper l' : lineage_child (xn_lineage xn) (ad_max_depth adm) = Ok l' →
  in_range l' ∧ l' = mkLineage (ln_max_jumps (xn_lineage xn)) (sat_addu32 (ln_depth (xn_lineage xn)) 1) ∧
  sat_addu32 (ln_depth (xn_lineage xn)) 1 ≤ ad_max_depth adm.
Proof using xn_in_range. intros Hl. split; [by eapply in_range_child|by apply lineage_child_spec]. Qed.
Lemma host_data_given h h' : host_data h = Ok h' → given h' = h'.
Proof.
  unfold host_data. destruct (is_null h) eqn:En; [by intros [= <-]|]. case_decide; [done|]. intros [= <-].
  cbn. by rewrite En.
Qed.

Lemma made_places {E} (c : fault → E) (p : rt fault Admission) id j h : asks_no starting p →
  (∀ l r a, track p l r → r = Ok a → made id (mkLineage j (sat_addu32 (ln_depth (xn_lineage xn)) 1)) a) →
  sat_addu32 (ln_depth (xn_lineage xn)) 1 ≤ ad_max_depth adm → ∀ l r, track (a ← map_err c p; mret (with_host h a)) l r →
  quiet l ∧ ∀ a, r = Ok a → ∀ l', child_admission id j (given h) l' a.
Proof.
  intros Hq Hm Hd l r Ht.
  apply track_bind in Ht as [(a & l1 & l2 & -> & Ha & [-> ->])|(e & Ha & ->)]; [rewrite app_nil_r|];
    (split; [by eapply quiet_track, Ha; apply asks_no_map_err|]); [|done].
  intros ? [= <-] l'. apply track_map_err in Ha as [(? & [= <-] & Ha)|(? & ? & _)]; [|done].
  apply made_child; [by eapply Hm|done].
Qed.
(** The refusal of a join, before the admission it answers. *)
Lemma track_joins {E F} (c : F → E) (x : result F ()) s l r :
  track (_ ← fail_with c x; mret (r_admission s)) l r → l = [] ∧ ∀ a, r = Ok a → a = r_admission s.
Proof.
  intros Ht. apply track_bind in Ht as [(u & l3 & l4 & -> & Hu & [-> ->])|(e & Hu & ->)];
    apply track_fail in Hu as (-> & _); [|done]. by split; [|intros ? [= <-]].
Qed.
(** A child a handler starts. *)
Lemma host_child_places run ref logical_ k name version input host_ l r :
  track (host_start_child adm fuel xn run ref logical_ k name version input host_) l r →
  ∀ o x, Told o x ∈ l → places (host_child_id run ref k) (Some (mkLink run (logical_ +:+ "/" +:+ k) ref))
    (ln_max_jumps (xn_lineage xn)) (match host_data host_ with Ok h => h | Err _ => None end) l o.
Proof using xn_in_range.
  intros Ht. unfold host_start_child in Ht.
  apply track_bind in Ht as [(l' & l1 & l2 & -> & Hl & Ht)|(e & Hl & _)]; apply track_fail in Hl as (-> & Hl);
    [|by intros ? ? ?%elem_of_nil].
  destruct Hl as [(? & Hl & [= ->])|(? & ? & ?)]; [|done]. apply deeper in Hl as (Hr & -> & Hd). cbn [app].
  cbv zeta in Ht. apply track_assoc in Ht. change l2 with ([] ++ l2).
  eapply start_places, Ht; [apply quiet_nil| |by intros ? ? [-> _]; apply quiet_nil].
  apply joined_or_made.
  - intros s l r'. apply track_joins.
  - intros l r' Hf. apply track_bind in Hf as [(h & l3 & l4 & -> & Hh & Hf)|(e & Hh & ->)]; apply track_fail in Hh as (-> & Hh);
      [|split; [apply quiet_nil|done]]. destruct Hh as [(h' & Hh & Hx)|(? & ? & ?)]; [|done]. injection Hx as <-.
    assert (match host_data host_ with Ok h => h | Err _ => None end = given h) as ->
      by (by rewrite Hh, (host_data_given _ _ Hh)). revert Hf. apply made_places; [| |done].
    + unfold admit_host_child. destruct version; [by apply asks_no_pinned|by apply asks_no_active].
    + intros l r0 a. unfold admit_host_child. destruct version; [by apply pinned_made|by apply active_made].
Qed.
(** A child a workflow starts with the reserved function. *)
Lemma builtin_places name args info l r : track (builtin_call adm fuel xn name args info) l r →
  ∀ o x, Told o x ∈ l → places (child_id (ci_run_id info) (ci_reference info))
    (Some (mkLink (ci_run_id info) (ci_logical info) (ci_reference info))) (ln_max_jumps (xn_lineage xn))
    (match inherits args with Ok true => given (xn_host xn) | _ => None end) l o.
Proof using xn_in_range.
  unfold builtin_call. case_decide.
  { intros Ht. apply places_quiet. eapply quiet_track, Ht. unfold builtin_outcome.
    repeat first [apply asks_no_bind; [|intros ?] | apply asks_no_fail | by apply asks_no_request | done]. }
  intros Ht. unfold builtin_start in Ht.
  apply track_bind in Ht as [(n & l1 & l2 & -> & Hn & Ht)|(e & Hn & _)];
    (assert (quiet [] ∧ ∀ l r, track (match as_str (vindex "name" args) with Some name => mret name
       | None => RFail (refused_start "start_child requires name") end) l r → l = []) as [_ Hnil]
       by (split; [apply quiet_nil|by destruct (as_str _); intros ? ? [-> _]]));
    apply Hnil in Hn as ->; [|by intros ? ? ?%elem_of_nil].
  apply track_bind in Ht as [(inherit & l3 & l4 & -> & Hi & Ht)|(e & Hi & _)]; apply track_fail in Hi as (-> & Hi);
    [|by intros ? ? ?%elem_of_nil].
  destruct Hi as [(i' & Hi & Hx)|(? & ? & ?)]; [|done]. injection Hx as <-. rewrite Hi. cbn [app].
  cbv zeta in Ht. apply track_assoc in Ht. change l4 with ([] ++ l4).
  eapply start_places, Ht; [apply quiet_nil| |by intros ? ? [-> _]; apply quiet_nil].
  apply joined_or_made.
  - intros s l r'. apply track_joins.
  - intros l r' Hf. apply track_bind in Hf as [(l' & l5 & l6 & -> & Hl & Hf)|(e & Hl & ->)]; apply track_fail in Hl as (-> & Hl);
      [|split; [apply quiet_nil|done]].
    destruct Hl as [(? & Hl & [= ->])|(? & ? & ?)]; [|done]. apply deeper in Hl as (Hr & -> & Hd). cbn [app].
    assert (track (a ← map_err reserved_child_error (active_in adm fuel (child_id (ci_run_id info) (ci_reference info)) n
        (default VNull (vget "input" args)) (mkLineage (ln_max_jumps (xn_lineage xn)) (sat_addu32 (ln_depth (xn_lineage xn)) 1)));
        mret (with_host (if (inherit : bool) then xn_host xn else None) a)) l6 r') as Hf' by (by destruct inherit).
    assert ((if inherit then given (xn_host xn) else None) = given (if inherit then xn_host xn else None)) as -> by (by destruct inherit).
    revert Hf'. apply made_places; [by apply asks_no_active| |done]. intros l r0 a. by apply active_made.
Qed.
(** The child of a [run: workflow] task. *)
Definition task_link (run : string) (c : ChildStart) : option ChildLink :=
  if cs_owned c then Some (mkLink run (cs_key c) (cs_key c)) else None.
Definition task_budget (c : ChildStart) : Z :=
  if cs_owned c then ln_max_jumps (xn_lineage xn) else lm_max_jumps limits.
Lemma task_admission c d k l r : 0 ≤ lm_max_jumps limits → ∀ l0, lineage_child (xn_lineage xn) (ad_max_depth adm) = Ok l0 →
  track (a ← map_err misconfigured (admission_of adm fuel k d (cs_input c)
           (if cs_owned c then l0 else mkLineage (lm_max_jumps limits) (ln_depth l0)));
         mret (if cs_inherit_host c then with_host (xn_host xn) a else a)) l r →
  quiet l ∧ ∀ a, r = Ok a → ∀ l', child_admission k (task_budget c) (if cs_inherit_host c then given (xn_host xn) else None) l' a.
Proof using xn_in_range.
  intros Hj l0 Hl Ht. apply deeper in Hl as (Hr & -> & Hd).
  assert (track (a ← map_err misconfigured (admission_of adm fuel k d (cs_input c)
      (mkLineage (task_budget c) (sat_addu32 (ln_depth (xn_lineage xn)) 1)));
    mret (with_host (if cs_inherit_host c then xn_host xn else None) a)) l r) as Ht'.
  { unfold task_budget. by destruct (cs_owned c), (cs_inherit_host c). }
  assert ((if cs_inherit_host c then given (xn_host xn) else None) = given (if cs_inherit_host c then xn_host xn else None)) as ->
    by (by destruct (cs_inherit_host c)).
  revert Ht'. apply made_places; [by apply asks_no_of| |done]. intros l1 r0 a. apply of_made.
  destruct Hr as [Hr1 Hr2]. split; [|done]. cbn. unfold task_budget. by destruct (cs_owned c).
Qed.
Lemma task_places run c l r : 0 ≤ lm_max_jumps limits → track (children_start adm fuel xn run c) l r →
  ∀ o x, Told o x ∈ l → places (child_id run (cs_key c)) (task_link run c) (task_budget c)
    (if cs_inherit_host c then given (xn_host xn) else None) l o.
Proof using xn_in_range.
  intros Hj Ht. unfold children_start in Ht. cbv zeta in Ht.
  destruct (is_replay _); [destruct Ht as [-> _]; by intros ? ? ?%elem_of_nil|].
  apply track_assoc in Ht. match type of Ht with track (?q ≫= _) _ _ => set (p := q) in Ht end.
  assert (∀ before, gives (child_id run (cs_key c)) (task_budget c) (if cs_inherit_host c then given (xn_host xn) else None) p before) as Hp.
  { apply joined_or_made; [intros s l0 r0 [-> ->]; split; [done|by intros ? [= <-]]|]. intros l0 r0 Hf.
    apply track_bind in Hf as [(l' & l5 & l6 & -> & Hl & Hf)|(e & Hl & ->)]; apply track_fail in Hl as (-> & Hl);
      [|split; [apply quiet_nil|done]].
    destruct Hl as [(l0 & Hl & Hx)|(? & ? & ?)]; [|done]. injection Hx as <-. cbn [app].
    apply track_bind in Hf as [(d & l7 & l8 & -> & Hd & Hf)|(e & Hd & ->)];
      (assert (asks_no starting (child_target c)) as Hq by
        (unfold child_target, target; apply asks_no_bind; [apply asks_no_map_err, asks_no_bind; [by apply asks_no_request|done]|by intros []]));
      [|split; [by eapply quiet_track|done]].
    destruct (task_admission _ _ _ _ _ Hj _ Hl Hf) as [Hq' Ha]. split; [|done]. by apply quiet_app; [eapply quiet_track|]. }
  unfold task_link. destruct (cs_owned c).
  - change l with ([] ++ l). eapply start_places, Ht; [apply quiet_nil|by apply Hp|by intros ? ? [-> _]; apply quiet_nil].
  - apply track_bind in Ht as [(a & l1 & l2 & -> & Ha & Ht)|(e & Ha & _)]; [|apply places_quiet; destruct (Hp [] _ _ Ha) as [Hq _]; exact Hq].
    destruct (Hp [] _ _ Ha) as [Hq Hc]. specialize (Hc a eq_refl). apply places_after; [done|].
    apply track_bind in Ht as [(now & l3 & l4 & -> & Hn & Ht)|(e & Hn & _)]; apply track_call in Hn as (xn' & -> & _);
      [|apply places_quiet; by apply quiet_one].
    intros o x [Hin|Hin]%elem_of_app; [eapply places_quiet; [|exact Hin]; by apply quiet_one|].
    assert (∀ y, y ∈ l4 → ∃ z, y = Told (RoAdmit a now) z) as Hl.
    { apply track_bind in Ht as [(u & l5 & l6 & -> & Hu & [-> _])|(e & Hu & _)]; [rewrite app_nil_r|];
        (apply track_bind in Hu as [(b & l7 & l8 & -> & Hb & [-> _])|(e' & Hb & _)]; apply track_call in Hb as (? & -> & _);
         [rewrite app_nil_r|]); intros y ->%list_elem_of_singleton; eauto. }
    destruct (Hl _ Hin) as [x' [= -> _]]. split; [done|]. eapply child_admission_mono, Hc. set_solver.
Qed.
(** C34: A child has its place and no more authority than is given: whatever the store and the
    clock answer, a run that a handler, the reserved function or a [run: workflow] task starts is
    started under the id of its call, through the drive's lease and under the link of the call (an
    independent one under none); it is the run the store holds under that id as it was admitted, or
    a new one a level deeper than its starter, within the host's depth, with the budget of its
    starter (an independent one with the host's), and with the host data the handler gives, its
    starter's where the workflow inherits it, and none otherwise. *)
Theorem child_has_its_place l : 0 ≤ lm_max_jumps limits →
  (∀ run ref logical_ k name version input host_ r,
     track (host_start_child adm fuel xn run ref logical_ k name version input host_) l r → ∀ o x, Told o x ∈ l →
     places (host_child_id run ref k) (Some (mkLink run (logical_ +:+ "/" +:+ k) ref)) (ln_max_jumps (xn_lineage xn))
       (match host_data host_ with Ok h => h | Err _ => None end) l o) ∧
  (∀ name args info r, track (builtin_call adm fuel xn name args info) l r → ∀ o x, Told o x ∈ l →
     places (child_id (ci_run_id info) (ci_reference info))
       (Some (mkLink (ci_run_id info) (ci_logical info) (ci_reference info))) (ln_max_jumps (xn_lineage xn))
       (match inherits args with Ok true => given (xn_host xn) | _ => None end) l o) ∧
  (∀ run c r, track (children_start adm fuel xn run c) l r → ∀ o x, Told o x ∈ l →
     places (child_id run (cs_key c)) (task_link run c) (task_budget c)
       (if cs_inherit_host c then given (xn_host xn) else None) l o).
Proof using xn_in_range.
  intros Hj. split_and!.
  - intros run ref logical_ k name version input host_ r. apply host_child_places.
  - intros name args info r. apply builtin_places.
  - intros run c r. by apply task_places.
Qed.
End children.

(** ** The runs a handler reaches *)

Section reach.
Context `{Calendar}.
Variable runs : string → option SavedRun.
Variable fence : Fence.
Variable self : string.
Variable max_depth : nat.
(** [b] is the parent of [a]. *)
Definition parent_of (a b : string) : Prop := ∃ r link, runs a = Some r ∧ r_child r = Some link ∧ l_parent link = b.
(** At most as many links up as a walk takes. *)
Definition under (a b : string) : Prop := ∃ n, (n ≤ S max_depth)%nat ∧ nsteps parent_of n a b.

Variable world : ∀ o, result fault (rt_answer o).
Hypothesis world_runs : ∀ id, world (RoGet id) = Ok (runs id).

(** From a run whose link is [link]. *)
Definition above_link (n : nat) (link : option ChildLink) (b : string) : Prop :=
  ∃ l k, link = Some l ∧ (k < n)%nat ∧ nsteps parent_of k (l_parent l) b.
Lemma above_link_step n l b : l_parent l ≠ b →
  above_link (S n) (Some l) b ↔ above_link n (runs (l_parent l) ≫= r_child) b.
Proof.
  intros Hb. split.
  - intros (l' & k & [= <-] & Hk & Hn). inversion Hn as [|k' x y z (r & link & Hr & Hl & <-) Hn']; subst; [done|].
    rewrite Hr. cbn. exists link, k'. split_and!; [done|lia|done].
  - intros (link & k & Hl & Hk & Hn). apply bind_Some in Hl as (r & Hr & Hl).
    exists l, (S k). split_and!; [done|lia|]. eapply nsteps_l; [|done]. by exists r, link.
Qed.
Lemma above_link_here n l : above_link (S n) (Some l) (l_parent l).
Proof. exists l, O. split_and!; [done|lia|constructor]. Qed.
Lemma above_link_none n b : ¬ above_link n None b.
Proof. by intros (? & ? & ? & _). Qed.
Lemma above_link_zero link b : ¬ above_link 0 link b.
Proof. intros (? & ? & _ & ? & _). lia. Qed.
Lemma under_above a b : under a b ↔ a = b ∨ ∃ r, runs a = Some r ∧ above_link (S max_depth) (r_child r) b.
Proof.
  split.
  - intros (n & Hn & Hs). inversion Hs as [|k x y z (r & link & Hr & Hl & <-) Hs']; subst; [by left|right].
    exists r. split; [done|]. exists link, k. split_and!; [done|lia|done].
  - intros [->|(r & Hr & link & k & Hl & Hk & Hs)]; [exists O; split; [lia|constructor]|].
    exists (S k). split; [lia|]. eapply nsteps_l; [|done]. by exists r, link.
Qed.

(** What the two walks answer. *)
Lemma walk_below (found : SavedRun) n link :
  ∃ o, steady world (walk (λ up, if decide (l_parent up = self) then mret (inl (Some found))
     else parent ← request (RoGet (l_parent up));
          mret (match (parent : option SavedRun) with Some p => inr (r_child p) | None => inl None end)) n link) = Ok o ∧
    ((o = Some found ∧ above_link n link self) ∨ (o = None ∧ ¬ above_link n link self)).
Proof using world_runs.
  revert link. induction n as [|n IH]; intros link; [exists None; split; [done|right; split; [done|apply above_link_zero]]|].
  destruct link as [l|]; [|exists None; split; [done|right; split; [done|apply above_link_none]]].
  cbn [walk]. rewrite steady_bind. case_decide as Hl.
  - exists (Some found). split; [done|]. left. split; [done|]. rewrite <- Hl. apply above_link_here.
  - rewrite steady_bind. unfold request. cbn [call_with steady]. rewrite world_runs. cbn [fail_with steady mret rt_ret].
    pose proof (above_link_step n l self Hl) as Hstep. destruct (runs (l_parent l)) as [p|]; cbn [mbind option_bind] in Hstep.
    + destruct (IH (r_child p)) as (o & Ho & Hw). exists o. split; [exact Ho|]. tauto.
    + exists None. split; [done|]. right. split; [done|]. rewrite Hstep. apply above_link_none.
Qed.
Lemma walk_above id n link :
  ∃ o, steady world (walk (λ up, parent ← request (RoGet (l_parent up));
      mret (if decide (l_parent up = id) then inl parent else inr ((parent : option SavedRun) ≫= r_child))) n link) = Ok o ∧
    ((o = runs id ∧ above_link n link id) ∨ (o = None ∧ ¬ above_link n link id)).
Proof using world_runs.
  revert link. induction n as [|n IH]; intros link; [exists None; split; [done|right; split; [done|apply above_link_zero]]|].
  destruct link as [l|]; [|exists None; split; [done|right; split; [done|apply above_link_none]]].
  cbn [walk]. rewrite steady_bind, steady_bind. unfold request. cbn [call_with steady]. rewrite world_runs.
  cbn [fail_with steady mret rt_ret]. case_decide as Hl.
  - exists (runs id). rewrite Hl. split; [done|]. left. split; [done|]. rewrite <- Hl. apply above_link_here.
  - pose proof (above_link_step n l id Hl) as Hstep. destruct (IH (runs (l_parent l) ≫= r_child)) as (o & Ho & Hw).
    exists o. split; [exact Ho|]. tauto.
Qed.
Lemma below_spec id : ∃ o, steady world (below self max_depth id) = Ok o ∧
  ∀ r, o = Some r ↔ runs id = Some r ∧ under id self.
Proof using world_runs.
  unfold below. rewrite steady_bind. unfold request. cbn [call_with steady]. rewrite world_runs. cbn [fail_with steady].
  destruct (runs id) as [found|] eqn:Ef; [|exists None; split; [done|naive_solver]].
  case_decide as Hid.
  - exists (Some found). split; [done|]. intros r. split; [|naive_solver]. intros [= ->]. split; [done|].
    apply under_above. by left.
  - destruct (walk_below found (S max_depth) (r_child found)) as (o & Ho & Hw). exists o. split; [exact Ho|].
    intros r. rewrite under_above. split.
    + intros ->. destruct Hw as [[[= ->] Hu]|[? _]]; [|done]. eauto.
    + intros [[= ->] [?|(r' & Hr' & Hu)]]; [done|]. destruct Hw as [[-> _]|[_ Hn]]; [done|]. naive_solver.
Qed.
Lemma lineage_run_spec id : ∃ o, steady world (lineage_run self max_depth id) = Ok o ∧
  ∀ r, o = Some r ↔ runs id = Some r ∧ (under id self ∨ under self id).
Proof using world_runs.
  unfold lineage_run. destruct (below_spec id) as (o & Ho & Hb). rewrite steady_bind, Ho.
  destruct o as [r|]; [exists (Some r); split; [done|naive_solver]|].
  unfold above. rewrite steady_bind. unfold request at 1. cbn [call_with steady]. rewrite world_runs. cbn [fail_with steady].
  destruct (walk_above id (S max_depth) (runs self ≫= r_child)) as (o & Hs & Hw). exists o. split; [exact Hs|].
  assert (∀ r, runs id = Some r → ¬ under id self) as Hnot by (intros r Hr Hu; discriminate (proj2 (Hb r) (conj Hr Hu))).
  assert (above_link (S max_depth) (runs self ≫= r_child) id ↔ ∃ r, runs self = Some r ∧ above_link (S max_depth) (r_child r) id) as Hal.
  { destruct (runs self) as [own|]; cbn; [naive_solver|]. split; [|naive_solver]. intros Hl. by apply above_link_none in Hl. }
  assert (self = id → under id self) as Hself by (intros ->; apply under_above; by left).
  intros r. rewrite (under_above self id), <- Hal. naive_solver.
Qed.

(** Programs that stop at the first call that fails, asking only for runs. *)
Fixpoint looks {E A} (p : rt E A) : Prop :=
  match p with
  | ROp o k => (∃ id, o = RoGet id) ∧ (∀ e, ∃ e', k (Err e) = RFail e') ∧ ∀ x, looks (k x)
  | _ => True
  end.
Lemma looks_bind {E A B} (p : rt E A) (f : A → rt E B) : looks p → (∀ a, looks (f a)) → looks (p ≫= f).
Proof.
  intros Hp Hf. unfold mbind, rt_bind. induction p as [a|e|o k IH]; cbn in *; [done..|].
  destruct Hp as (Ho & He & Hk). split_and!; [done| |auto]. intros e. destruct (He e) as [e' ->]. by exists e'.
Qed.
Lemma looks_get id : looks (request (RoGet id)).
Proof. split_and!; [by exists id|by intros e; exists e|by intros []]. Qed.
Lemma looks_walk {A} (step : ChildLink → rt fault (option A + option ChildLink)) n link :
  (∀ up, looks (step up)) → looks (walk step n link).
Proof.
  intros Hs. revert link. induction n as [|n IH]; intros [l|]; cbn [walk]; try done.
  apply looks_bind; [apply Hs|]. by intros [a|link].
Qed.
Lemma looks_below id : looks (below self max_depth id).
Proof.
  apply looks_bind; [apply looks_get|]. intros [found|]; [|done]. case_decide; [done|].
  apply looks_walk. intros up. case_decide; [done|]. apply looks_bind; [apply looks_get|done].
Qed.
(** The store answers with its runs, where it answers. *)
Definition honest (l : list event) : Prop := ∀ id x, Told (RoGet id) (Ok x) ∈ l → x = runs id.
Lemma looks_steady {E A} (p : rt E A) l a : looks p → honest l → track p l (Ok a) → steady world p = Ok a.
Proof using world_runs.
  revert l. induction p as [a'|e|o k IH]; intros l; cbn; [by intros _ _ [_ [= ->]]|by intros _ _ [_ ?]|].
  intros ([id ->] & He & Hk) Hh (x & l' & -> & Ht). destruct x as [x|e].
  - rewrite world_runs. rewrite <- (Hh id x ltac:(by left)). eapply IH; [done| |done]. intros id' x' Hin. apply Hh. by right.
  - destruct (He e) as [e' Hk']. rewrite Hk' in Ht. by destruct Ht.
Qed.

Definition delivering (o : rt_op) : bool := match o with RoDeliver _ _ _ => true | _ => false end.
Lemma looks_asks {E A} (p : rt E A) : looks p → asks_no delivering p.
Proof. induction p as [a|e|o k IH]; cbn; [done..|]. intros ([id ->] & _ & Hk). split; [done|auto]. Qed.
(** A run of the store that is the call's own, an ancestor or a descendant of it. *)
Definition in_lineage (id : string) : Prop := is_Some (runs id) ∧ (under id self ∨ under self id).
Definition reading (o : rt_op) : bool := match o with RoGet _ => true | _ => false end.
Lemma looks_reads {E A} (p : rt E A) l r : looks p → track p l r → ∀ o x, Told o x ∈ l → ∃ i, o = RoGet i.
Proof.
  intros Hp Ht o x Hin. assert (asks_no (λ o, negb (reading o)) p) as Hno.
  { clear Ht. induction p as [a|e|o' k IH]; cbn in *; [done..|]. destruct Hp as ([id ->] & _ & Hk). split; [done|auto]. }
  pose proof (asks_no_track _ _ _ _ Hno Ht o x Hin) as Hr. destruct o; try done. eauto.
Qed.
Lemma looks_lineage id : looks (lineage_run self max_depth id).
Proof.
  apply looks_bind; [apply looks_below|]. intros [r|]; [done|]. apply looks_bind; [apply looks_get|]. intros own.
  apply looks_walk. intros up. by apply looks_bind; [apply looks_get|].
Qed.
(** What a handler's access first reads. *)
Lemma track_lineage id l o : track (lineage_run self max_depth id) l (Ok o) → honest l → is_Some o ↔ in_lineage id.
Proof using world_runs.
  intros Ht Hh. destruct (lineage_run_spec id) as (o' & Ho & Hspec).
  erewrite looks_steady in Ho; [|apply looks_lineage|exact Hh|exact Ht]. injection Ho as <-. unfold in_lineage.
  split; [intros [r Hr]; apply Hspec in Hr as [-> ?]; by split|]. intros [[r Hr] Hu]. exists r. by apply Hspec.
Qed.
Lemma honest_app l1 l2 : honest (l1 ++ l2) → honest l1 ∧ honest l2.
Proof. intros Hh. split; intros id x Hin; apply Hh, elem_of_app; [by left|by right]. Qed.
Lemma records_in_lineage id l r : track (access_records self max_depth id) l r → honest l →
  (∀ o x, Told o x ∈ l → (∃ i, o = RoGet i) ∨ (o = RoInspect id ∧ in_lineage id)) ∧
  ∀ found, r = Ok found → match found with
    | Some records => ∃ s, Told (RoInspect id) (Ok (Some s)) ∈ l ∧ records = sn_records s
    | None => in_lineage id → Told (RoInspect id) (Ok None) ∈ l
    end.
Proof using world_runs.
  intros Ht Hh. unfold access_records in Ht. apply track_bind in Ht as [(found & l1 & l2 & -> & Hl & Ht)|(f & Hl & ->)].
  2: { split; [|done]. intros o x Hin. left. by eapply looks_reads; [apply looks_lineage|..]. }
  apply honest_app in Hh as [Hh1 Hh2]. pose proof (track_lineage _ _ _ Hl Hh1) as Hin_.
  pose proof (looks_reads _ _ _ (looks_lineage id) Hl) as Hreads. destruct found as [r0|].
  2: { destruct Ht as [-> ->]. rewrite app_nil_r. split; [by left; eapply Hreads|]. intros found [= <-] Hli. by apply Hin_ in Hli as [? ?]. }
  assert (in_lineage id) as Hli by (apply Hin_; by eexists).
  apply track_bind in Ht as [(s & l3 & l4 & -> & Hs & Ht)|(f & Hs & ->)]; apply track_call in Hs as (y & -> & Hy).
  - destruct y as [y|]; [|done]. injection Hy as <-. destruct Ht as [-> ->]. rewrite app_nil_r. split.
    + intros o x [Hin|Hin]%elem_of_app; [left; by eapply Hreads|]. apply list_elem_of_singleton in Hin. right.
      split; [|done]. by injection Hin.
    + intros found [= <-]. destruct s as [s|]; cbn.
      * exists s. split; [|done]. apply elem_of_app. right. by left.
      * intros _. apply elem_of_app. right. by left.
  - split; [|done]. intros o x [Hin|Hin]%elem_of_app; [left; by eapply Hreads|].
    apply list_elem_of_singleton in Hin. right. split; [|done]. by injection Hin.
Qed.
Lemma children_in_lineage id cursor limit l r : track (access_children self max_depth id cursor limit) l r → honest l →
  let query := RoQueryRuns (children_filter id) false cursor limit in
  (∀ o x, Told o x ∈ l → (∃ i, o = RoGet i) ∨ (o = query ∧ in_lineage id)) ∧
  (∀ page, r = Ok page → in_lineage id ∧ Told query (Ok page) ∈ l) ∧
  (r = Err ReOutOfScope → ¬ in_lineage id).
Proof using world_runs.
  intros Ht Hh. cbv zeta. unfold access_children in Ht.
  apply track_bind in Ht as [(found & l1 & l2 & -> & Hl & Ht)|(f & Hl & ->)];
    apply track_map_err in Hl as [(found' & Hf & Hl)|(f' & Hf & Hl)]; try done;
    pose proof (looks_reads _ _ _ (looks_lineage id) Hl) as Hreads.
  2: { injection Hf as ->. split_and!; [|done|done]. intros o x Hin. left. by eapply Hreads. }
  injection Hf as <-. apply honest_app in Hh as [Hh1 Hh2]. pose proof (track_lineage _ _ _ Hl Hh1) as Hin_.
  destruct found as [r0|].
  2: { destruct Ht as [-> ->]. rewrite app_nil_r. split_and!; [by left; eapply Hreads|done|]. intros _ Hli. by apply Hin_ in Hli as [? ?]. }
  assert (in_lineage id) as Hli by (apply Hin_; by eexists).
  apply track_call in Ht as (y & -> & Hy). split_and!.
  - intros o x [Hin|Hin]%elem_of_app; [left; by eapply Hreads|]. apply list_elem_of_singleton in Hin. right.
    split; [|done]. by injection Hin.
  - intros page ->. split; [done|]. destruct y; [|done]. injection Hy as ->. apply elem_of_app. right. by left.
  - intros ->. by destruct y.
Qed.
Lemma matches_children id s : run_matches (children_filter id) s = true ↔ ∃ link, r_child s = Some link ∧ l_parent link = id.
Proof.
  unfold run_matches. cbn. destruct (r_child s) as [link|]; cbn; [|split; [done|by intros (? & ? & _)]].
  rewrite bool_decide_eq_true. naive_solver.
Qed.

(** C35: a handler reaches its lineage. What the runtime looks up for it is exactly a run of
    the store that is the call's own, an ancestor or a descendant, within the links a walk
    takes. Whatever the store answers otherwise: the records of a run are asked for and
    answered only for a run of the lineage, and are those the store has; its children are
    asked for and answered only for a run of the lineage, and are the runs whose link names
    it (of an ancestor, also the call's siblings), any other run is out of scope; and an
    event is delivered only to the call's own run or a descendant, after the store
    confirmed the lease, and is of no type the engine keeps for itself. *)
Theorem handler_reaches_its_lineage id :
  (∃ o, steady world (lineage_run self max_depth id) = Ok o ∧
     ∀ r, o = Some r ↔ runs id = Some r ∧ (under id self ∨ under self id)) ∧
  (∀ l r, track (access_records self max_depth id) l r → honest l →
     (∀ o x, Told o x ∈ l → (∃ i, o = RoGet i) ∨ (o = RoInspect id ∧ in_lineage id)) ∧
     ∀ found, r = Ok found → match found with
       | Some records => ∃ s, Told (RoInspect id) (Ok (Some s)) ∈ l ∧ records = sn_records s
       | None => in_lineage id → Told (RoInspect id) (Ok None) ∈ l
       end) ∧
  (∀ cursor limit l r, track (access_children self max_depth id cursor limit) l r → honest l →
     let query := RoQueryRuns (children_filter id) false cursor limit in
     (∀ o x, Told o x ∈ l → (∃ i, o = RoGet i) ∨ (o = query ∧ in_lineage id)) ∧
     (∀ page, r = Ok page → in_lineage id ∧ Told query (Ok page) ∈ l) ∧
     (r = Err ReOutOfScope → ¬ in_lineage id) ∧
     ∀ s, run_matches (children_filter id) s = true ↔ ∃ link, r_child s = Some link ∧ l_parent link = id) ∧
  (∀ sent_ l r, track (access_deliver fence self max_depth sent_ id) l r → honest l →
     ∀ e t now x, Told (RoDeliver e t now) x ∈ l →
       t = Some id ∧ is_Some (runs id) ∧ under id self ∧ reserved_type (default "" (vget "type" sent_ ≫= as_str)) = false ∧
       ∃ now', Told (RoCheckLease fence now') (Ok ()) ∈ l).
Proof using world_runs.
  split; [apply lineage_run_spec|]. split; [apply records_in_lineage|]. split.
  { intros cursor limit l r Ht Hh. cbv zeta. destruct (children_in_lineage id cursor limit l r Ht Hh) as (? & ? & ?).
    split_and!; [done..|]. apply matches_children. }
  intros sent_ l r Ht Hh e t now x Hin. unfold access_deliver in Ht.
  apply track_bind in Ht as [(found & l1 & l2 & -> & Hb & Ht)|(f & Hb & ->)];
    apply track_map_err in Hb as [(found' & Hf & Hb)|(f' & Hf & Hb)]; try done;
    pose proof (asks_no_track _ _ _ _ (looks_asks _ (looks_below id)) Hb) as Hno; [|by apply Hno in Hin].
  injection Hf as <-. apply elem_of_app in Hin as [Hin|Hin]; [by apply Hno in Hin|].
  destruct found as [r0|]; [|destruct Ht as [-> _]; by apply elem_of_nil in Hin].
  assert (is_Some (runs id) ∧ under id self) as [Hs Hu].
  { destruct (below_spec id) as (o & Ho & Hb'). erewrite looks_steady in Ho; [|apply looks_below| |exact Hb].
    - injection Ho as <-. destruct (proj1 (Hb' r0) eq_refl). eauto.
    - intros id' x' Hin'. apply Hh. apply elem_of_app. by left. }
  apply track_bind in Ht as [(now1 & l3 & l4 & -> & Hn & Ht)|(f & Hn & ->)]; apply track_call in Hn as (xn & -> & _);
    [|by apply list_elem_of_singleton in Hin].
  apply elem_of_app in Hin as [Hin|Hin]; [by apply list_elem_of_singleton in Hin|].
  apply track_bind in Ht as [(u & l5 & l6 & -> & Hl & Ht)|(f & Hl & ->)]; apply track_call in Hl as (xl & -> & Hl);
    [|by apply list_elem_of_singleton in Hin].
  apply elem_of_app in Hin as [Hin|Hin]; [by apply list_elem_of_singleton in Hin|].
  destruct xl as [[]|]; [clear Hl|done]. destruct (reserved_type _) eqn:Er; [destruct Ht as [-> _]; by apply elem_of_nil in Hin|].
  apply track_bind in Ht as [(now2 & l7 & l8 & -> & Hn & Ht)|(f & Hn & ->)]; apply track_call in Hn as (xn' & -> & _);
    [|by apply list_elem_of_singleton in Hin].
  apply elem_of_app in Hin as [Hin|Hin]; [by apply list_elem_of_singleton in Hin|].
  apply track_bind in Ht as [(ev & l9 & l10 & -> & He & Ht)|(f & He & ->)]; apply track_fail in He as (-> & _);
    [|by apply elem_of_nil in Hin]. cbn [app] in Hin.
  assert (t = Some id) as ->.
  { apply track_bind in Ht as [(rc & l11 & l12 & -> & Hd & Ht)|(f & Hd & _)]; apply track_call in Hd as (xd & -> & _).
    - apply elem_of_app in Hin as [Hin|Hin]; [by apply list_elem_of_singleton in Hin as [= _ -> _]|].
      assert (l12 = []) as -> by (by destruct rc; destruct Ht). by apply elem_of_nil in Hin.
    - by apply list_elem_of_singleton in Hin as [= _ -> _]. }
  split_and!; [done..|]. exists now1. set_solver.
Qed.
End reach.

(** ** What a refusal means *)

Section refusals.
Context `{Host, Libraries, RuntimeLibraries, StatusFormat, Calendar}.
Variable adm : Admitter.
Variable fuel : nat.
Variable xn : Execution.

(** A start the store refused: the errors it decides in the transaction, which then does
    not commit. Any other (the store or the connection to it failing) may come after the
    commit, and leave a run. *)
Inductive definite : fault → Prop :=
| definite_tripped t : definite (RfTripped t)
| definite_mismatch m : definite (RfMismatch m).
(** No run was started: every start that was asked for, if any, was refused definitely. *)
Definition nothing_started (l : list event) : Prop :=
  ∀ o x, Told o x ∈ l → starting o = true → ∃ f, x = Err f ∧ definite f.
(** The errors of the runtime's own types are raised by it, never answered to it. *)
Definition raised_here (f : fault) : bool :=
  match f with RfMissing _ | RfInvalid _ | RfUnknown _ | RfRefused _ => true | _ => false end.
Definition own_errors (l : list event) : Prop := ∀ o f, Told o (Err f) ∈ l → raised_here f = false.
Lemma own_errors_app l1 l2 : own_errors (l1 ++ l2) → own_errors l1 ∧ own_errors l2.
Proof. intros Ho. split; intros o f Hin; apply (Ho o f); set_solver. Qed.
Lemma quiet_nothing l : quiet l → nothing_started l.
Proof. intros Hq o x Hin Hs. by rewrite (Hq o x Hin) in Hs. Qed.
Lemma nothing_app l1 l2 : nothing_started l1 → nothing_started l2 → nothing_started (l1 ++ l2).
Proof. intros Hl1 Hl2 o x [Hin|Hin]%elem_of_app; eauto. Qed.
Definition told_fault (e : event) : option fault := match e with Told _ (Ok _) => None | Told _ (Err f) => Some f end.
Lemma nothing_failed o f : definite f → nothing_started [Told o (Err f)].
Proof.
  intros Hf o' x Hin _. apply list_elem_of_singleton in Hin. exists f. split; [|done].
  apply (f_equal told_fault) in Hin. cbn in Hin. destruct x; [done|]. by injection Hin as ->.
Qed.

(** An error that a commit answers with [f] only where the store refused. *)
Definition refusal_only {E} (f : fault → E) (e : E) : Prop := ∀ x, f x = e → raised_here x = false → definite x.
(** An error that [g], for the calls around it, does not give. *)
Definition not_by {E} (g : fault → E) (e : E) : Prop := ∀ x, g x = e → raised_here x = true.
Lemma track_commit {E} (f g : fault → E) fence a link now l e :
  refusal_only f e → not_by g e → own_errors l →
  track (commit_child f g fence a link now) l (Err e) → nothing_started l.
Proof.
  intros Hf Hg Hown Ht. unfold commit_child in Ht.
  apply track_bind in Ht as [(s & l1 & l2 & -> & Hs & Ht)|(e' & Hs & [= <-])];
    apply track_call in Hs as (x & -> & Hx).
  - destruct s as [fence'|]; [|by destruct Ht]. apply track_call in Ht as (y & -> & Hy). destruct y as [|f']; [done|].
    injection Hy as Hy. symmetry in Hy. apply Hg in Hy. 
    rewrite (Hown (RoRelease fence' now) f') in Hy; [done|]. apply elem_of_app. right. by left.
  - destruct x as [|f']; [done|]. injection Hx as Hx. apply nothing_failed, Hf; [done|]. eapply Hown. by left.
Qed.
Lemma refused_start_did_nothing {E B} (g : fault → E) (p : rt E Admission) (k : Admission → Z → rt E ()) (z : B) l e :
  (∀ l r, track p l r → quiet l) →
  (∀ a now l, own_errors l → track (k a now) l (Err e) → nothing_started l) →
  own_errors l → track (a ← p; now ← call_with g RoNow; _ ← k a now; mret z) l (Err e) → nothing_started l.
Proof.
  intros Hp Hk Hg Ht.
  apply track_bind in Ht as [(a & l1 & l2 & -> & Ha & Ht)|(e' & Ha & _)]; [|by eapply quiet_nothing, Hp].
  apply nothing_app; [by eapply quiet_nothing, Hp|]. apply own_errors_app in Hg as [_ Hg].
  apply track_bind in Ht as [(now & l3 & l4 & -> & Hn & Ht)|(e' & Hn & _)]; apply track_call in Hn as (x & -> & _);
    [|by apply quiet_nothing, quiet_one].
  apply nothing_app; [by apply quiet_nothing, quiet_one|]. apply own_errors_app in Hg as [_ Hg].
  apply track_bind in Ht as [(u & l5 & l6 & -> & Hc & [_ ?])|(e' & Hc & [= ->])]; [done|]. by eapply Hk.
Qed.

(** What the three classifications call a refusal. *)
Lemma child_error_refusal why : refusal_only child_error (CeRefused why).
Proof. intros [] Hx Hr; try done; constructor. Qed.
Lemma refused_call_refusal e : refusal_only refused_call (FNotExecuted e).
Proof. intros [] Hx Hr; try done; constructor. Qed.
Lemma reserved_child_error_refusal e : refusal_only reserved_child_error (RfRefused e).
Proof. intros [] Hx Hr; try done; constructor. Qed.
Lemma track_admit a now l e : own_errors l →
  track (_ ← call_with refused_call (RoAdmit a now); mret ()) l (Err (FNotExecuted e)) → nothing_started l.
Proof.
  intros Hown Ht. apply track_bind in Ht as [(b & l1 & l2 & -> & Hb & [_ ?])|(e' & Hb & [= <-])]; [done|].
  apply track_call in Hb as (x & -> & Hx). destruct x as [|f]; [done|]. injection Hx as Hx.
  apply nothing_failed, (refused_call_refusal e); [done|]. eapply Hown. by left.
Qed.
Ltac asks := repeat first
  [ by apply asks_no_active | by apply asks_no_pinned | by apply asks_no_of | apply asks_no_bind; [|intros ?] | apply asks_no_fail
  | by apply asks_no_call | by apply asks_no_request | apply asks_no_map_err | done
  | match goal with |- asks_no _ (match ?x with _ => _ end) => destruct x end ].
Lemma builtin_refused name args info e l : own_errors l →
  track (builtin_call adm fuel xn name args info) l (Err (RfRefused e)) → nothing_started l.
Proof.
  intros Hno Hc. unfold builtin_call in Hc. case_decide.
  { eapply quiet_nothing, quiet_track, Hc. unfold builtin_outcome. asks. }
  unfold builtin_start in Hc.
  apply track_bind in Hc as [(n & l1 & l2 & -> & Hn & Hc)|(? & Hn & _)];
    (assert (nothing_started l) as Hq || assert (nothing_started l1) as Hq);
    [by destruct (as_str _); destruct Hn as [-> _]; apply quiet_nothing, quiet_nil| |
     by destruct (as_str _); destruct Hn as [-> _]; apply quiet_nothing, quiet_nil|done].
  apply nothing_app; [done|].
  apply own_errors_app in Hno as [_ Hno2]. clear Hn Hq.
  apply track_bind in Hc as [(i & l3 & l4 & -> & Hi & Hc)|(? & Hi & _)]; apply track_fail in Hi as (-> & _);
    [|apply quiet_nothing, quiet_nil]. cbn [app] in *. cbv zeta in Hc. apply track_assoc in Hc. revert Hc.
  apply refused_start_did_nothing with (k := λ a now, commit_child reserved_child_error (λ f, f) (xn_fence xn) a
    (mkLink (ci_run_id info) (ci_logical info) (ci_reference info)) now); [|intros a now l0|done].
  - intros l0 r. apply quiet_track. asks.
  - apply track_commit; [apply reserved_child_error_refusal|]. by intros x ->.
Qed.
(** C36: a refusal means that nothing happened: when a handler's start of a child is refused,
    or the reserved function or a [run: workflow] task answers that it was not executed,
    then every start it asked of the store, if any, was one the store refused definitely
    (a tripped definition, another admission under the id), whatever the store and the
    host answered. A start that succeeded, or that failed in a way that may have left the
    run behind (the store failing, the lease lost, the host stopped), is never answered so:
    it is an interruption. *)
Theorem refused_start_started_nothing l : own_errors l →
  (∀ run ref logical_ k name version input host_ why,
     track (host_start_child adm fuel xn run ref logical_ k name version input host_) l (Err (CeRefused why)) →
     nothing_started l) ∧
  (∀ name args info e, builtin name = true → is_replay (xn_mode xn) = false →
     track (invoke_function adm fuel xn name None args info) l (Err (FNotExecuted e, ∅)) → nothing_started l) ∧
  (∀ run c e, track (children_start adm fuel xn run c) l (Err (FNotExecuted e)) → nothing_started l).
Proof.
  intros Hno. split_and!.
  - intros run ref logical_ k name version input host_ why Ht. unfold host_start_child in Ht.
    apply track_bind in Ht as [(l' & l1 & l2 & -> & Hl & Ht)|(e & Hl & _)]; apply track_fail in Hl as (-> & _);
      [|apply quiet_nothing, quiet_nil]. cbn [app] in *. cbv zeta in Ht. apply track_assoc in Ht.
    revert Ht. apply refused_start_did_nothing with (k := λ a now, commit_child child_error CeInterrupted (xn_fence xn) a
      (mkLink run (logical_ +:+ "/" +:+ k) ref) now); [|by intros a now l0; apply track_commit; [apply child_error_refusal|]|done].
    intros l0 r. apply quiet_track. unfold admit_host_child. asks.
  - intros name args info e Hb Hm Ht. unfold invoke_function, host_has in Ht. rewrite Hb in Ht. cbn [orb negb] in Ht.
    assert (∃ f, failed_builtin f = FNotExecuted e ∧ track (builtin_call adm fuel xn name args info) l (Err f)) as (f & Hf & Hc).
    { apply track_bind in Ht as [(? & ? & ? & -> & _ & [_ ?])|(e' & Ht & [= <-])]; [done|].
      assert (track (map_err (λ e, (e, ∅)) (v ← map_err failed_builtin (builtin_call adm fuel xn name args info); mret (mkOut v ∅)))
        l (Err (FNotExecuted e, ∅ : Annotations))) as Ht' by (by destruct (xn_mode xn)).
      apply track_map_err in Ht' as [(? & ? & _)|(e1 & He1 & Ht')]; [done|]. injection He1 as He1. subst e1.
      apply track_bind in Ht' as [(? & ? & ? & -> & _ & [_ ?])|(e2 & Ht' & He2)]; [done|]. injection He2 as He2. subst e2.
      apply track_map_err in Ht' as [(? & ? & _)|(f & Hf & Ht')]; [done|]. injection Hf as Hf. eauto. }
    destruct f as [| | | | | | | | |e'| |]; try done. clear Ht Hf. by eapply builtin_refused.
  - intros run c e Ht. unfold children_start in Ht. cbv zeta in Ht. destruct (is_replay _); [by destruct Ht|].
    apply track_assoc in Ht. revert Ht.
    apply refused_start_did_nothing with (k := λ a now, if cs_owned c then
      commit_child refused_call interrupted_call (xn_fence xn) a (mkLink run (cs_key c) (cs_key c)) now
      else _ ← call_with refused_call (RoAdmit a now); mret ()); [| |done].
    + intros l0 r. apply quiet_track. unfold child_target, target. asks.
    + intros a now l0. destruct (cs_owned c); [by apply track_commit; [apply refused_call_refusal|]|]. apply track_admit.
Qed.
End refusals.

(** ** Concrete inputs *)

(** Two definitions: [parent] calls [a] and runs [kid], which calls [b]. *)
Definition calling_with (more : gmap string value) (tasks : list value) : value :=
  VObj (<["document" := VObj (<["dsl" := VStr "1.0.0"]> (<["namespace" := VStr "n"]> (<["name" := VStr "w"]>
    (<["version" := VStr "1.0.0" ]> more))))]> {[ "do" := VArr tasks ]}).
Definition calling (tasks : list value) : value := calling_with ∅ tasks.
(** Its limits: no jump, and [b] is called when one is refused. *)
Definition handled_limits : gmap string value :=
  {[ "metadata" := VObj {[ "ouro" := VObj {[ "limits" := VObj (<["max_jumps" := vint 0]>
    {[ "on_exceeded" := VObj {[ "call" := VStr "b" ]} ]}) ]} ]} ]}.
Definition call_task (f : string) : value := VObj {[ f := VObj {[ "call" := VStr f ]} ]}.
Definition kid_task : value :=
  VObj {[ "kid" := VObj {[ "run" := VObj {[ "workflow" := VObj (<["namespace" := VStr "n"]> (<["name" := VStr "kid"]>
    {[ "version" := VStr "latest" ]})) ]} ]} ]}.
#[export] Instance kin_host : Host := {|
  rfc3339 ms := Some (pretty ms);
  to_vec_len v := Some 2;
  value_to_string v := "";
  jaq program args input := JOutput input;
  yaml_value text := None;
  sha256 text := [1; 2; 3];
  shown v := "value"
|}.
#[export] Instance kin_libraries : Libraries := {|
  schema_error := λ _, None; cron_error := λ _, None; parse_rfc3339 := λ _, None; is_zone := λ _, true;
  from_yaml := λ s, Ok (if decide (s = "handled") then calling_with handled_limits [call_task "a"]
    else calling (if decide (s = "parent") then [call_task "a"; kid_task] else [call_task "b"]));
  conforms := λ _, [] |}.
#[export] Instance kin_runtime : RuntimeLibraries := {|
  schema_violation := λ schema v, if decide (schema = v) then Some "refused" else None;
  jq_compile := λ _ _, None; text_hash := λ _, 0; package_version := "0.1.0" |}.
#[export] Instance kin_status : StatusFormat := {| status_value := λ _, VNull |}.
#[export] Instance kin_calendar : Calendar := {|
  next_cron := λ _ _ after, Ok after; show_datetime := λ ms, Some (pretty ms); show_rfc3339 := λ ms, Some (pretty ms) |}.
Definition kin_function (name : string) : Function := mkFunction name (VStr "in") (VStr "out") AtLeastOnce.
Definition kin_admitter (names : list string) : Admitter :=
  mkAdmitter (list_to_map ((λ n, (n, kin_function n)) <$> names)) no_capabilities (VObj ∅) None
    (mkLimits 100 20 10 None None None) 3 3 10.
Definition version_of (name yaml : string) : DefinitionV := mkDefinition name 1 yaml "" Inherit.
Definition one_version (name yaml : string) : Definitions :=
  mkDefinitions {[ 1 := version_of name yaml ]} (Some 1) 0 1 None [] ∅.
Definition kin_catalog : gmap string Definitions :=
  <["parent" := one_version "parent" "parent"]> {[ "kid" := one_version "kid" "kid" ]}.
(** A store that has runs [kin_runs]: [c] a child of [p], and [p] a root. *)
Definition kin_run (id : string) (link : option ChildLink) : SavedRun :=
  mkRun (mkAdmission id "parent" 1 "parent" VNull (VObj ∅)) SRunning None 1 None 0 0 None None link 0 None None ∅ None.
Definition kin_runs (id : string) : option SavedRun :=
  if decide (id = "p") then Some (kin_run "p" None)
  else if decide (id = "c") then Some (kin_run "c" (Some (mkLink "p" "/do/0" "/do/0")))
  else if decide (id = "other") then Some (kin_run "other" None) else None.
Definition kin_world (o : rt_op) : result fault (rt_answer o) :=
  match o with
  | RoDefinitions name => Ok (default default_definitions (kin_catalog !! name))
  | RoGet id => Ok (kin_runs id)
  | RoStartChild _ a _ _ => Ok (Some (mkFence (a_id a) "w" 1))
  | RoRelease _ _ | RoCheckLease _ _ => Ok ()
  | RoNow => Ok 1000
  | RoPermit => Ok true
  | RoTrace => Ok None
  | RoHandler _ _ _ => Ok (Ok (mkOut (vint 7) ∅))
  | RoDeliver _ t _ => Ok t
  | _ => Err (RfOther "")
  end.
Section play.
Variable world : ∀ o, result fault (rt_answer o).
Fixpoint rt_play {E A} (p : rt E A) : list event * result E A :=
  match p with
  | RRet a => ([], Ok a)
  | RFail e => ([], Err e)
  | ROp o k => let '(l, r) := rt_play (k (world o)) in (Told o (world o) :: l, r)
  end.
Lemma rt_play_track {E A} (p : rt E A) : track p (rt_play p).1 (rt_play p).2.
Proof.
  induction p as [a|e|o k IH]; cbn; [done..|]. specialize (IH (world o)).
  destruct (rt_play (k (world o))) as [l r]. eauto.
Qed.
Definition of_world (e : event) : Prop := match e with Told o x => x = world o end.
Lemma rt_play_world {E A} (p : rt E A) : Forall of_world (rt_play p).1.
Proof.
  induction p as [a|e|o k IH]; cbn; [constructor..|]. specialize (IH (world o)).
  destruct (rt_play (k (world o))) as [l r]. by constructor.
Qed.
Lemma rt_play_told {E A} (p : rt E A) o x : Told o x ∈ (rt_play p).1 → x = world o.
Proof. intros Hin. exact (proj1 (Forall_forall _ _) (rt_play_world p) _ Hin). Qed.
End play.
Lemma kin_kept name v d : versions (entry kin_catalog name) !! v = Some d → d_name d = name ∧ d_version d = v.
Proof.
  unfold entry, kin_catalog. destruct (decide (name = "parent")) as [->|Hp]; [|destruct (decide (name = "kid")) as [->|Hk]].
  - rewrite lookup_insert_eq. cbn. by intros [<- <-]%lookup_singleton_Some.
  - rewrite lookup_insert_ne, lookup_singleton_eq by done. cbn. by intros [<- <-]%lookup_singleton_Some.
  - rewrite lookup_insert_ne, lookup_singleton_ne by done. cbn. by rewrite lookup_empty.
Qed.
Abbreviation kin_checked := (kin_admitter ["a"]).
Lemma start_check_is_exact_witness :
  steady kin_world (check kin_checked 3 ("parent", 1, "parent")) = Err (RfMissing (mkMissing "b" [("parent", 1); ("kid", 1)])) ∧
  ∃ route e, leads kin_catalog route (version_of "parent" "parent") e ∧
    [("parent", 1); ("kid", 1)] = key <$> route ∧ version_lacks kin_checked e "b".
Proof.
  assert (steady kin_world (check kin_checked 3 ("parent", 1, "parent")) =
    Err (RfMissing (mkMissing "b" [("parent", 1); ("kid", 1)]))) as E by (vm_compute; reflexivity).
  split; [exact E|].
  pose proof (start_check_is_exact kin_checked kin_catalog kin_world (λ _, eq_refl) kin_kept 3
    (version_of "parent" "parent") ltac:(reflexivity) ltac:(vm_compute; lia)) as Hx.
  change (of_definition (version_of "parent" "parent")) with ("parent", 1, "parent") in Hx.
  rewrite E in Hx. exact Hx.
Defined.
(** A store that fails while the child's own child is looked up. *)
Definition kin_outage (o : rt_op) : result fault (rt_answer o) :=
  match o with
  | RoDefinitions name => if decide (name = "kid") then Err (RfOther "connection reset")
                          else Ok (default default_definitions (kin_catalog !! name))
  | o => kin_world o
  end.
(** A text checked under the name and version of a saved one that it runs: the saved one
    is taken for the text, and its missing function is not found. *)
Example check_confuses_catalogs :
  steady kin_world (check kin_checked 3 ("kid", 1, "parent")) = Ok () ∧
  runs_version kin_catalog (version_of "kid" "parent") (version_of "kid" "kid") ∧
  nd_missing (needs kin_checked (version_of "kid" "kid")) = Some "b".
Proof.
  split; [vm_compute; reflexivity|]. split; [|vm_compute; reflexivity].
  apply (elem_of_resolved kin_checked kin_catalog).
  assert (resolved kin_catalog (nd_children (needs kin_checked (version_of "kid" "parent"))) = [version_of "kid" "kid"]) as ->
    by (vm_compute; reflexivity).
  by left.
Qed.
(** The handler of a spent budget is left out: a text whose handler calls a function the
    host lacks passes. *)
Example check_skips_the_handler :
  steady kin_world (check kin_checked 3 ("handled", 1, "handled")) = Ok () ∧
  ad_registry kin_checked !! "b" = None ∧
  match parse_yaml "handled" with
  | Ok p => match bu_on_exceeded (wf_budget (pa_workflow p)) with
      | XTask t => match tk_kind t with KCall f _ => Some (function_name f) | _ => None end
      | _ => None end
  | Err _ => None
  end = Some "b".
Proof. split; [vm_compute; reflexivity|]. split; vm_compute; reflexivity. Qed.

Definition kin_installed : Installed := mkInstalled (ad_registry kin_checked) 0
  (checks_needs ∅ ∅ (ad_registry kin_checked) 0 no_capabilities "kid" 1 "kid").2.
Abbreviation kin_newer := (ad_registry (kin_admitter ["a"; "b"])).
Abbreviation kin_replaced := (replace_registry kin_installed kin_newer).
Abbreviation kin_second := (checks_needs (in_checks kin_replaced) (in_checks kin_replaced) kin_newer 1 no_capabilities "kid" 1 "kid").1.
(** A check with the registry that replaced the one a cached check was made with. *)
Lemma check_stands_for_its_registry_witness :
  size (in_checks kin_installed) = 1%nat ∧ nd_missing kin_second = None ∧
  ∃ yaml', text_hash yaml' = text_hash "kid" ∧ kin_second = needs_of kin_newer no_capabilities yaml'.
Proof.
  split; [vm_compute; reflexivity|]. split; [vm_compute; reflexivity|].
  assert (cached no_capabilities [ad_registry kin_checked] kin_installed) as Hc.
  { apply (cached_stored no_capabilities [ad_registry kin_checked] (mkInstalled (ad_registry kin_checked) 0 ∅) 0
      (ad_registry kin_checked) ∅ "kid" 1 "kid"); [apply cached_new|reflexivity|reflexivity]. }
  assert (cached no_capabilities [ad_registry kin_checked; kin_newer] kin_replaced) as Hr by (apply (cached_replaced _ [_]), Hc).
  exact (check_stands_for_its_registry no_capabilities [ad_registry kin_checked; kin_newer] [] kin_replaced kin_replaced 1 kin_newer
    "kid" 1 "kid" Hr Hr eq_refl).
Defined.
Definition kin_execution : Execution :=
  mkExecution (mkFence "p" "w" 1) ("parent", 1) (mkLineage 20 0) Live (Some (VStr "tenant")) ∅.
(** A [run: workflow] task then answers a configuration error, which its workflow may
    catch, where a handler's start of the same child is interrupted. *)
Example outage_reads_as_configuration :
  steady kin_outage (children_start (kin_admitter ["a"; "b"]) 3 kin_execution "p"
    (mkChildStart "/do/1/kid" "n" "parent" "latest" true VNull true)) =
    Err (FNotExecuted (configuration "connection reset")) ∧
  steady kin_outage (host_start_child (kin_admitter ["a"; "b"]) 3 kin_execution "p" "/do/0/a" "/do/0/a" "k" "parent" None VNull VNull) =
    Err (CeInterrupted (RfOther "connection reset")).
Proof. split; vm_compute; reflexivity. Qed.
Definition kin_info : CallInfo := mkCallInfo "p" "/do/0/a" "/do/0/a" 1 AtLeastOnce VNull (mkRedaction [] []).
Abbreviation kin_call := (rt_play kin_world (invoke_function kin_checked 3 kin_execution "a" None VNull kin_info)).
Lemma call_is_checked_witness :
  kin_call.2 = Ok (vint 7, ∅) ∧
  (∃ before e after, kin_call.1 = before ++ e :: after ∧ dispatches kin_call.1 = [e] ∧
     fit_dispatch kin_checked kin_execution "a" None VNull kin_info before e) ∧
  fit_output kin_checked "a" None (vint 7) ∅.
Proof.
  assert (kin_call.2 = Ok (vint 7, ∅)) as E by (vm_compute; reflexivity). split; [exact E|].
  destruct (call_is_checked kin_checked 3 kin_execution "a" None VNull kin_info _ _ (rt_play_track kin_world _)) as (Hd & Ho & _).
  split; [|by apply Ho]. destruct Hd as [Hd|Hd]; [|exact Hd].
  assert (length (dispatches kin_call.1) = 1%nat) as Hl by (vm_compute; reflexivity). by rewrite Hd in Hl.
Defined.

Abbreviation kin_parent := (kin_admitter ["b"]).
Definition kin_child : ChildStart := mkChildStart "/do/1/kid" "n" "kid" "latest" true VNull true.
Abbreviation kin_start := (rt_play kin_world (children_start kin_parent 3 kin_execution "p" kin_child)).
Lemma child_has_its_place_witness :
  existsb (λ e : event, match e with Told o _ => starting o end) kin_start.1 = true ∧
  ∀ o x, Told o x ∈ kin_start.1 →
    places kin_parent kin_execution (child_id "p" "/do/1/kid") (Some (mkLink "p" "/do/1/kid" "/do/1/kid")) 20
      (Some (VStr "tenant")) kin_start.1 o.
Proof.
  split; [vm_compute; reflexivity|].
  assert (in_range (xn_lineage kin_execution)) as Hr by (unfold in_range, u32_max; cbn; lia).
  destruct (child_has_its_place kin_parent 3 kin_execution Hr kin_start.1 ltac:(cbn; lia)) as (_ & _ & Ht).
  exact (Ht "p" kin_child _ (rt_play_track kin_world _)).
Defined.

Definition kin_event : value :=
  VObj (<["id" := VStr "e"]> (<["source" := VStr "s"]> {[ "type" := VStr "go" ]})).
Abbreviation kin_deliver := (rt_play kin_world (access_deliver (mkFence "p" "w" 1) "p" 3 kin_event "c")).
Lemma handler_reaches_its_lineage_witness :
  kin_deliver.2 = Ok "c" ∧ existsb (λ e, match e with Told (RoDeliver _ _ _) _ => true | _ => false end) kin_deliver.1 = true ∧
  steady kin_world (lineage_run "p" 3 "other") = Ok None ∧
  (∀ r, None = Some r ↔ kin_runs "other" = Some r ∧ (under kin_runs 3 "other" "p" ∨ under kin_runs 3 "p" "other")) ∧
  ¬ in_lineage kin_runs "p" 3 "other" ∧
  ∀ e t now x, Told (RoDeliver e t now) x ∈ kin_deliver.1 → t = Some "c" ∧ under kin_runs 3 "c" "p".
Proof.
  split; [vm_compute; reflexivity|]. split; [vm_compute; reflexivity|].
  assert (steady kin_world (lineage_run "p" 3 "other") = Ok None) as E by (vm_compute; reflexivity). split; [exact E|].
  pose proof (handler_reaches_its_lineage kin_runs (mkFence "p" "w" 1) "p" 3 kin_world (λ _, eq_refl)) as Hx.
  assert (∀ (E A : Type) (p : rt E A), honest kin_runs (rt_play kin_world p).1) as Hh.
  { intros E0 A0 p id y Hy. apply rt_play_told in Hy. by injection Hy. }
  split_and!.
  - destruct (Hx "other") as [(o & Ho & Hs) _]. rewrite E in Ho. injection Ho as <-. exact Hs.
  - destruct (Hx "other") as (_ & _ & Hc & _).
    apply (Hc None 5%nat _ _ (rt_play_track kin_world (access_children "p" 3 "other" None 5)) (Hh _ _ _)).
    vm_compute. reflexivity.
  - intros e t now x Hin. destruct (Hx "c") as (_ & _ & _ & Hd).
    destruct (Hd kin_event _ _ (rt_play_track kin_world _) (Hh _ _ _) e t now x Hin) as (? & _ & ? & _). done.
Defined.

(** A store that has another run under the child's id, or that fails: the start is refused,
    or interrupted. *)
Definition kin_taken : AdmissionMismatch := mkMismatch "c" FieldLink.
Definition kin_failing (f : fault) (o : rt_op) : result fault (rt_answer o) :=
  match o with RoStartChild _ _ _ _ => Err f | o => kin_world o end.
Definition kin_host_start : rt ChildError ChildRef :=
  host_start_child kin_parent 3 kin_execution "p" "/do/0/a" "/do/0/a" "k" "kid" None VNull VNull.
Definition kin_refused : list event * result ChildError ChildRef := rt_play (kin_failing (RfMismatch kin_taken)) kin_host_start.
Example outage_interrupts : (rt_play (kin_failing (RfOther "connection reset")) kin_host_start).2 =
  Err (CeInterrupted (RfOther "connection reset")).
Proof. vm_compute. reflexivity. Qed.
Lemma kin_failing_own f o e : raised_here f = false → kin_failing f o = Err e → raised_here e = false.
Proof. intros Hf. destruct o; cbn; intros [=]; subst; done. Qed.
Lemma refused_start_started_nothing_witness :
  kin_refused.2 = Err (CeRefused (CrMismatch kin_taken)) ∧
  existsb (λ e, match e with Told (RoStartChild _ _ _ _) _ => true | _ => false end) kin_refused.1 = true ∧
  nothing_started kin_refused.1.
Proof.
  assert (kin_refused.2 = Err (CeRefused (CrMismatch kin_taken))) as E by (vm_compute; reflexivity).
  assert (own_errors kin_refused.1) as Hn.
  { intros o e Hin. apply (kin_failing_own (RfMismatch kin_taken) o e eq_refl). symmetry.
    exact (rt_play_told (kin_failing (RfMismatch kin_taken)) kin_host_start o (Err e) Hin). }
  split; [exact E|]. split; [vm_compute; reflexivity|].
  destruct (refused_start_started_nothing kin_parent 3 kin_execution _ Hn) as (Hh & _ & _).
  eapply Hh. rewrite <- E. apply (rt_play_track (kin_failing (RfMismatch kin_taken)) kin_host_start).
Defined.
