(* ===== verification/Worker.v ===== *)
(** * The worker

    [crates/runtime/src/execution.rs], sections 1 and 3: what an operator saves and
    activates, one drive of a run from its claim to the end of its lease, and the loop
    that drives the due runs. A drive is a program of [Admitter]; the loop, whose
    branches [select!] polls together, is a state with one step per branch. Of
    [testing.rs], the rounds of an isolated run and what a replay is made of. Spans,
    metrics, observers and the map of cancellation tokens are not part of them. *)
From S2P Require Import Prelude Json Outcome Journal Expr Listen Secrets Drive Model Tasks Execute Types RunStore Control.
From S2P Require Import Analysis Parser DocumentParser Validator Schedules Registry Admitter.

(** [Config], as far as a drive reads it, and the runtime's parts. *)
Record Runtime := mkRuntime {
  rn_admitter : Admitter;
  rn_application : Compatibility;
  rn_max_concurrency : nat;
  rn_retention_ms : Z;
  rn_worker_id : string;
  rn_host_name : option string;
  rn_started_ms : Z
}.
(** [Ending]. *)
Record Ending := mkEnding { en_status : Status; en_foreign : bool; en_limit_exceeded : bool }.
Definition own (s : Status) : Ending := mkEnding s false false.
Definition foreign (s : Status) : Ending := mkEnding s true false.
Definition stopped_status (text : string) : Status := Interrupted (Error.runtime text).

Section drive.
Context `{Host, Libraries, RuntimeLibraries}.
Variable rn : Runtime.
Variable fuel : nat.
Local Abbreviation adm := (rn_admitter rn).

(** What a drive checks of the definition a run was admitted with: it validates, and what
    it binds is what was bound at admission. *)
Definition resumable (a : Admission) : result string Parsed :=
  p ← validate_with (ad_registry adm) (ad_capabilities adm) (a_definition a);
  if decide (vindex "bindings" (a_runtime a) = bindings (ad_registry adm) (pa_workflow p)) then Ok p
  else Err "function bindings changed since admission".
(** The limits of a drive: a dry run's sleeps and listens are cut to nothing. *)
Definition drive_limits (m : Mode) : Limits :=
  let l := ad_limits adm in
  match m with
  | Dry _ => mkLimits (lm_max_tasks l) (lm_max_jumps l) (lm_max_attempts l) (Some 0) (Some 0) (Some 0)
  | _ => l
  end.
(** What the interpreter is given: the budget the run was admitted with, which its
    definition tightens; the descriptor that [$runtime] shows. *)
Definition driven (saved : SavedRun) (fence : Fence) (m : Mode) (p : Parsed) (loaded : result fault (gmap string JRecord))
    : Driven :=
  let a := r_admission saved in
  let limits := drive_limits m in
  let l := lineage_of a limits in
  let limits := mkLimits (lm_max_tasks limits) (ln_max_jumps l) (lm_max_attempts limits) (lm_max_sleep limits)
                  (lm_max_listen limits) (lm_max_hold limits) in
  let l := mkLineage (max_jumps (wf_budget (pa_workflow p)) (ln_max_jumps l)) (ln_depth l) in
  let r := a_runtime a in
  let shown := VObj (<["name" := vindex "name" r]> (<["version" := vindex "version" r]>
    (<["metadata" := default (VObj ∅) (vget "metadata" r)]> {[ "schedule" := default VNull (vget "schedule" r) ]}))) in
  mkDriven (mkExecution fence (a_name a, a_version a) l m (Types.host a)
               (default ∅ (as_object (vindex "schemas" r))))
    (mkStart (pa_workflow p) (a_id a) (a_input a) (Some (r_admitted_ms saved)) limits shown true) loaded.

(** [finish], [release] and [get], at the clock's time. *)
Definition finish_drive (fence : Fence) (s : Status) : rt fault Status :=
  now ← request RoNow; request (RoFinish fence s now (ad_breaker_threshold adm)).
Definition release_drive (fence : Fence) : rt fault unit :=
  now ← request RoNow; request (RoRelease fence now).
Definition outcome_at (id : string) : rt fault (option Status) :=
  saved ← request (RoGet id); mret ((saved : option SavedRun) ≫= r_outcome).
(** [yield_held]. *)
Definition yield_held (fence : Fence) : rt fault Ending :=
  let held := mret (own (stopped_status ("run " +:+ f_run_id fence +:+ " is held by an operator"))) in
  r ← outcome_of (release_drive fence);
  match (r : result fault unit) with
  | Ok _ => held
  | Err e =>
      saved ← request (RoGet (f_run_id fence));
      let saved := saved : option SavedRun in
      match saved ≫= r_outcome with
      | Some s => mret (foreign s)
      | None =>
          now ← request RoNow;
          let ours := is_some_and saved (λ r, bool_decide (r_fence r = Some fence) &&
                        is_some_and (r_lease_until_ms r) (λ at_, bool_decide (now < at_))) in
          if (ours : bool) then RFail e else held
      end
  end.
(** The run, [id], ended under this drive: what is committed of it. *)
Definition conclude_drive (id : string) (fence : Fence) (o : RunOutcome) : rt fault Ending :=
  found ← outcome_at id;
  match (found : option Status) with
  | Some s => mret (foreign s)
  | None =>
      stopped ← request RoStopped;
      if (stopped : bool) then
        _ ← release_drive fence; mret (own (stopped_status "runtime emergency stop is set"))
      else
        r ← outcome_of (finish_drive fence (oc_status o));
        match (r : result fault Status) with
        | Ok s => mret (mkEnding s false (oc_limit_exceeded o))
        | Err (RfHeld _) => yield_held fence
        | Err RfStopped => _ ← release_drive fence; mret (own (stopped_status (fault_text RfStopped)))
        | Err e => RFail e
        end
  end.
(** The worker stopped, or the lease is lost or in question. *)
Definition stop_drive (fence : Fence) : rt fault Ending :=
  _ ← release_drive fence; mret (own (stopped_status "worker stopped")).
Definition lose_drive (id : string) (fence : Fence) (e : fault) : rt fault Ending :=
  _ ← match e with RfStopped => release_drive fence | _ => mret () end;
  found ← outcome_at id;
  mret (match (found : option Status) with Some s => foreign s | None => own (stopped_status (fault_text e)) end).
(** What comes of the race between the run, its heartbeat and the worker's stop. *)
Definition after_race (id : string) (fence : Fence) (d : Driven) (r : raced) : rt fault Ending :=
  match r with
  | RcEnded o => conclude_drive id fence o
  | RcRenewal (RfHeld _) =>
      o ← request (RoSettle d);
      match (o : option RunOutcome) with Some o => conclude_drive id fence o | None => yield_held fence end
  | RcStopped => stop_drive fence
  | RcRenewal e => lose_drive id fence e
  end.
(** [execute]. *)
Definition execute_drive (saved : SavedRun) (fence : Fence) (m : Mode) : rt fault Ending :=
  let a := r_admission saved in
  now ← request RoNow;
  loaded ← outcome_of (request (RoLoad fence now));
  checked ← outcome_of (check adm fuel (a_name a, a_version a, a_definition a));
  match (checked : result fault unit) with
  | Err (RfMissing missing) => s ← finish_drive fence (Faulted (missing_error missing)); mret (own s)
  | Err e => RFail e
  | Ok _ =>
      match resumable a with
      | Err e => s ← finish_drive fence (Interrupted (Error.validation e)); mret (own s)
      | Ok p =>
          let d := driven saved fence m p loaded in
          r ← request (RoRace d);
          after_race (a_id a) fence d r
      end
  end.
(** [drive_mode]. *)
Definition drive_mode (id : string) (m : Mode) : rt fault (option Status) :=
  permit ← request RoPermit;
  if negb (permit : bool) then mret None
  else
    now ← request RoNow;
    fence ← request (RoClaim id now (rn_application rn));
    match (fence : option Fence) with
    | None => outcome_at id
    | Some fence =>
        saved ← request (RoGet id);
        match (saved : option SavedRun) with
        | Some saved => e ← execute_drive saved fence m; mret (Some (en_status e))
        | None => RFail (RfOther "claimed run disappeared")
        end
    end.
End drive.

(** ** Dry runs and replays *)

Section isolated.
Context `{Host, Libraries, RuntimeLibraries}.
Variable rn : Runtime.
Variable fuel : nat.
Local Abbreviation adm := (rn_admitter rn).

(** The last millisecond of the year 9999. *)
Definition FAR_MS : Z := 253402300799000.
(** [TestClock::advance]. *)
Definition advance (clock time : Z) : Z := Z.max clock time.
Fixpoint drive_each (m : Mode) (due : list string) : rt fault unit :=
  match due with
  | [] => mret ()
  | id :: due => _ ← drive_mode rn fuel id m; drive_each m due
  end.
(** [run_isolated], for [n] rounds, whose runtime's clock shows [clock]. *)
Fixpoint run_isolated (m : Mode) (id : string) (n : nat) (clock : Z) : rt fault Status :=
  match n with
  | O => RFail (RfOther "isolated execution exceeded recovery limit")
  | S n =>
      cancelled ← request RoPermit;
      if negb (cancelled : bool) then mret (stopped_status "isolated run stopped")
      else
        root ← request (RoGet id);
        match (root : option SavedRun) with
        | None => RFail (RfOther "isolated run disappeared")
        | Some root =>
            match r_outcome root with
            | Some s => mret s
            | None =>
                due ← request (RoDue clock (rn_max_concurrency rn) default_compatibility);
                match (due : list string) with
                | [] =>
                    runs ← request RoList;
                    let live := filter (λ r, r_ended_ms r = None) (runs : list SavedRun) in
                    let next := foldr Z.min i64_max (r_wake_at_ms <$> live) in
                    if decide (FAR_MS ≤ next) then mret (Waiting next)
                    else run_isolated m id n (advance clock next)
                | due => _ ← drive_each m due; run_isolated m id n clock
                end
            end
        end
  end.
(** What a replay is made of ([replay_inner], up to its private store): the admission,
    with a candidate definition in its place where one is given, the recorded answers,
    and when the run was started. *)
Definition replayed_admission (a : Admission) (yaml : string) (p : Parsed) : Admission :=
  with_runtime "bindings" (bindings (ad_registry adm) (pa_workflow p))
    (mkAdmission (a_id a) (a_name a) (a_version a) yaml (a_input a) (a_runtime a)).
Definition started_at (records : list (string * JRecord)) : option Z :=
  head (omap (λ x : string * JRecord, match x.2 with RExecution x => Some (x_started_ms x) | _ => None end) records).
Definition replay_of (id : string) (yaml : option string) : rt fault (Admission * Recorded * Z) :=
  _ ← match yaml with Some yaml => _ ← validated adm yaml; mret () | None => mret () end;
  original ← request (RoInspect id);
  match (original : option RunSnapshot) with
  | None => RFail (RfOther "unknown recorded run")
  | Some original =>
      a ← match yaml with
          | Some yaml => p ← validated adm yaml; mret (replayed_admission (r_admission (sn_run original)) yaml p)
          | None => mret (r_admission (sn_run original))
          end;
      r ← fail_with RfOther (recorded_of (sn_records original));
      if decide (re_calls r = ∅ ∧ r_outcome (sn_run original) = None) then RFail (RfOther "recorded results unavailable")
      else
        again ← request (RoInspect id);
        match (again : option RunSnapshot) with
        | None => RFail (RfOther "unknown run")
        | Some again =>
            match started_at (sn_records again) with
            | None => RFail (RfOther "recorded execution unavailable (possibly retained out)")
            | Some started => mret (a, r, started)
            end
        end
  end.
(** How a replay ends, that used [used] of the [count] recorded calls. *)
Definition replay_verdict (s : Status) (used count : nat) : result string nat :=
  match s with
  | Completed _ => if decide (used = count) then Ok used else Err "replay left unused call results"
  | _ => Ok used
  end.
End isolated.

(** ** What the host and the loop ask for *)

Section runtime.
Context `{Host, Libraries, RuntimeLibraries, Calendar}.
Variable rn : Runtime.
Variable fuel : nat.
Local Abbreviation adm := (rn_admitter rn).

(** [save], [activated]. *)
Definition save (name yaml : string) : rt fault DefinitionV :=
  p ← validated adm yaml;
  request (RoSave name yaml (pa_breaker p)).
Definition activated (name : string) (version : Z) (actor note : option string) : rt fault unit :=
  d ← request (RoDefinitions name);
  match versions d !! version with
  | None => RFail (RfOther "unknown definition version")
  | Some d =>
      _ ← validated adm (d_yaml d);
      map_err (λ f, RfOther (match f with Unavailable e | Failed e => e | Tripped t => tripped_display t end))
        (scheduled adm fuel (activate_armed name version actor note))
  end.
(** [activate_as]. *)
Definition activate_as (name : string) (version : Z) (actor : string) (note : option string) : rt fault unit :=
  if decide (trim actor = "") then RFail (RfOther "an attributed activation needs an actor")
  else activated name version (Some actor) note.
(** [Runtime::deliver]. *)
Definition runtime_deliver (event : value) (target_ : option string) : rt fault (option string) :=
  now ← request RoNow;
  event ← fail_with RfOther (complete event now);
  request (RoDeliver event target_ now).
(** [Runtime::cancel]; [signal_cancelled] fires the tokens of the drives going on whose
    runs have ended: their ids. *)
Fixpoint signal_cancelled (running : list string) : rt fault (list string) :=
  match running with
  | [] => mret []
  | id :: running =>
      saved ← request (RoGet id);
      fired ← signal_cancelled running;
      mret (if is_some_and saved (λ r, bool_decide (is_Some (r_ended_ms r))) then id :: fired else fired)
  end.
Definition runtime_cancel (id : string) (running : list string) : rt fault (bool * list string) :=
  now ← request RoNow;
  changed ← request (RoCancel id now);
  fired ← signal_cancelled running;
  mret (changed : bool, fired).
(** [Runtime::start_child]. *)
Definition runtime_start_child (parent : Fence) (key id name : string) (input host_ : value) : rt fault SavedRun :=
  owner ← request (RoGet (f_run_id parent));
  match (owner : option SavedRun) with
  | None => RFail (RfOther "unknown parent run")
  | Some owner =>
      saved ← request (RoGet id);
      a ← match (saved : option SavedRun) with
          | Some saved =>
              _ ← fail_with RfMismatch (joins (r_admission saved) name None (Types.host (r_admission saved)));
              mret (r_admission saved)
          | None =>
              p ← fail_with RfOther (parsed (a_definition (r_admission owner)));
              let l := lineage_of (r_admission owner) (ad_limits adm) in
              let l := mkLineage (max_jumps (wf_budget (pa_workflow p)) (ln_max_jumps l)) (ln_depth l) in
              l ← fail_with (λ e, RfOther (Error.display e)) (lineage_child l (ad_max_depth adm));
              h ← fail_with (λ bytes, RfOther (host_data_display bytes)) (host_data host_);
              a ← active_in adm fuel id name input l;
              mret (with_host h a)
          end;
      now ← request RoNow;
      started ← request (RoStartChild parent a (mkLink (f_run_id parent) key key) now);
      _ ← match (started : option Fence) with
          | Some f => now ← request RoNow; request (RoRelease f now)
          | None => mret ()
          end;
      saved ← request (RoGet id);
      match (saved : option SavedRun) with
      | Some saved => mret saved
      | None => RFail (RfOther "child disappeared")
      end
  end.
(** [beat], [heartbeat] and the last beat of a worker that stopped; [held] counts the
    runs in execution. *)
Definition beat (held : Z) (now expires_ms : Z) : rt fault unit :=
  request (RoBeat (mkWorker (rn_worker_id rn) (rn_host_name rn) (c_version (rn_application rn)) (rn_started_ms rn)
    now expires_ms held)).
Definition heartbeat (held : Z) : rt fault unit :=
  now ← request RoNow; beat held now (sat_add64 now LEASE_MS).
Definition last_beat (held : Z) : rt fault unit := now ← request RoNow; beat held now now.
(** [Runtime::sweep]. *)
Definition runtime_sweep : rt fault Swept := now ← request RoNow; request (RoSweep now (rn_retention_ms rn)).
(** The store work of one tick: a sweep each hour, the due slots, the due runs. *)
Definition tick_work (swept : bool) : rt fault (list string) :=
  _ ← (if swept then _ ← runtime_sweep; mret () else mret ());
  _ ← map_err (λ f, RfOther (match f with Unavailable e | Failed e => e | Tripped t => tripped_display t end))
        (scheduled adm fuel (fire_due (ad_max_concurrent_runs adm)));
  now ← request RoNow;
  request (RoDue now (rn_max_concurrency rn) (rn_application rn)).
End runtime.

(** ** The loop *)

(** What the worker has under way: the runs it drives, whether a tick, a hand-off of
    notices and a beat are in flight; the failure it left the loop with; whether it left
    it, and the last failures of what it drains then, by kind. *)
Record Loop := mkLoop {
  lo_running : list string;
  lo_ids : gset string;
  lo_ticking : bool;
  lo_notifying : bool;
  lo_beating : bool;
  lo_failure : option fault;
  lo_draining : bool;
  lo_late : gmap nat fault
}.
#[export] Instance eta_Loop : Eta Loop := λ l,
  mkLoop (lo_running l) (lo_ids l) (lo_ticking l) (lo_notifying l) (lo_beating l) (lo_failure l) (lo_draining l) (lo_late l).
Definition new_loop : Loop := mkLoop [] ∅ false false false None false ∅.
(** What a branch is taken for: the stop, a future that ended with what it gave, a timer. *)
Inductive branch_of :=
| BStop
| BRun (id : string) (r : result fault (option Status))
| BNotified (r : result fault unit)
| BBeaten (r : result fault unit)
| BBeat
| BTicked (r : result fault (list string))
| BTick.
(** A failure of what has ended, over an earlier one. *)
Definition failed_with {A} (r : result fault A) (l : Loop) : Loop :=
  match r with Err e => l <| lo_failure := Some e |> <| lo_draining := true |> | Ok _ => l end.
(** The runs of a tick, until the worker drives as many as it may. *)
Fixpoint start_due (max : nat) (due : list string) (l : Loop) : Loop :=
  match due with
  | [] => l
  | id :: due =>
      if decide (max ≤ size (lo_ids l))%nat then l
      else if decide (id ∈ lo_ids l) then start_due max due l
      else start_due max due (l <| lo_ids ::= union {[id]} |> <| lo_running ::= cons id |>)
  end.
(** One branch of the loop, where its future is ready: [None] where it cannot be taken. *)
Definition loop_branch (max : nat) (b : branch_of) (l : Loop) : option Loop :=
  match b with
  | BStop => Some (l <| lo_draining := true |>)
  | BRun id r =>
      if decide (id ∈ lo_running l) then
        Some (failed_with r (l <| lo_ids ::= λ s, s ∖ {[id]} |> <| lo_running ::= filter (λ x, x ≠ id) |>))
      else None
  | BNotified r => if lo_notifying l then Some (failed_with r (l <| lo_notifying := false |>)) else None
  | BBeaten r => if lo_beating l then Some (failed_with r (l <| lo_beating := false |>)) else None
  | BBeat => Some (l <| lo_beating := true |>)
  | BTicked r =>
      if lo_ticking l then
        let l := l <| lo_ticking := false |> in
        Some (match r with Ok due => start_due max due l | Err _ => failed_with r l end)
      else None
  | BTick => Some (l <| lo_ticking := true |> <| lo_notifying := true |>)
  end.
(** The drain: what is under way ends, and the last failure of each kind is kept. *)
Definition late {A} (kind : nat) (r : result fault A) (l : Loop) : Loop :=
  match r with Err e => l <| lo_late ::= <[kind := e]> |> | Ok _ => l end.
Definition drain_branch (b : branch_of) (l : Loop) : option Loop :=
  match b with
  | BRun id r =>
      if decide (id ∈ lo_running l) then Some (late 3 r (l <| lo_running ::= filter (λ x, x ≠ id) |>)) else None
  | BTicked r => if lo_ticking l then Some (late 2 r (l <| lo_ticking := false |>)) else None
  | BNotified r => if lo_notifying l then Some (late 1 r (l <| lo_notifying := false |>)) else None
  | BBeaten r => if lo_beating l then Some (late 0 r (l <| lo_beating := false |>)) else None
  | _ => None
  end.
Definition loop_step (max : nat) (b : branch_of) (l : Loop) : option Loop :=
  if lo_draining l then drain_branch b l else loop_branch max b l.
(** The worker returns when everything it started has ended, with the failure of the
    beats, else of the notices, the ticks, the runs, else the one it left the loop with. *)
Definition returned (l : Loop) : bool :=
  lo_draining l && bool_decide (lo_running l = []) && negb (lo_ticking l) && negb (lo_notifying l) && negb (lo_beating l).
Definition worker_result (l : Loop) : result fault unit :=
  match head (omap (λ k, lo_late l !! k) (seq 0 4) ++ option_list (lo_failure l)) with
  | Some e => Err e
  | None => Ok ()
  end.
