(* ===== verification/WorkerSpec.v ===== *)
(** * What the worker promises

    Of the loop: the runs it drives, what it starts and ends, and what it returns. Of a
    drive: under which lease it acts, what it gives to the interpreter, and how it leaves
    the run. Of the two together with admission: a run that was admitted resumes, with
    what it was admitted with. Of a replay: that its calls are answered as the run's
    records say. *)
From S2P Require Import Prelude Json Outcome Journal Expr Listen Secrets SecretsSpec Drive Model Tasks Execute Types RunStore Control.
From S2P Require Import Analysis Parser DocumentParser Validator Schedules Registry Admitter AdmitterSpec Worker.

(** ** The loop *)

Fixpoint loop_run (max : nat) (bs : list branch_of) (l : Loop) : option Loop :=
  match bs with
  | [] => Some l
  | b :: bs => l ← loop_step max b l; loop_run max bs l
  end.
(** How many futures are under way, and what a branch failed with. *)
Definition flight (l : Loop) : nat :=
  length (lo_running l) + Nat.b2n (lo_ticking l) + Nat.b2n (lo_notifying l) + Nat.b2n (lo_beating l).
Definition failed {A} (r : result fault A) : option fault := match r with Ok _ => None | Err e => Some e end.
Definition branch_failed (b : branch_of) : option fault :=
  match b with
  | BRun _ r => failed r
  | BNotified r | BBeaten r => failed r
  | BTicked r => failed r
  | BStop | BBeat | BTick => None
  end.

Section loop.
Variable max : nat.

(** What holds between two branches: every run once, no more than allowed; while it goes
    on, the ids are those of the runs and nothing has failed. *)
Record sound (l : Loop) : Prop := {
  sound_once : NoDup (lo_running l);
  sound_max : (length (lo_running l) ≤ max)%nat;
  sound_ids : lo_draining l = false → lo_ids l = list_to_set (lo_running l);
  sound_failure : lo_draining l = false → lo_failure l = None;
  sound_late : lo_draining l = false → lo_late l = ∅
}.
Lemma sound_new : sound new_loop.
Proof. by split; cbn; [constructor|lia|..]. Qed.
Lemma without_absent id (l : list string) : id ∉ l → filter (λ x, x ≠ id) l = l.
Proof.
  induction l as [|x l IH]; [done|]. intros [Hx Hl]%not_elem_of_cons. rewrite filter_cons_True by done. f_equal. auto.
Qed.
Lemma without_once id (l : list string) : NoDup l → id ∈ l → length l = S (length (filter (λ x, x ≠ id) l)).
Proof.
  intros Hn Hin. induction Hn as [|x l Hx Hn IH]; [by apply elem_of_nil in Hin|]. apply elem_of_cons in Hin as [->|Hin].
  - rewrite filter_cons_False by (by intros []). by rewrite without_absent.
  - rewrite filter_cons_True by (by intros ->). cbn. f_equal. auto.
Qed.
Lemma without_ids id (l : list string) : (list_to_set l : gset string) ∖ {[id]} = list_to_set (filter (λ x, x ≠ id) l).
Proof.
  apply set_eq. intros x. rewrite elem_of_difference, elem_of_singleton, !elem_of_list_to_set, list_elem_of_filter. tauto.
Qed.
Lemma sound_without (l : Loop) id : sound l → sound (l <| lo_ids ::= λ s, s ∖ {[id]} |> <| lo_running ::= filter (λ x, x ≠ id) |>).
Proof.
  intros [Hn Hm Hi Hf Hl]. split; cbn.
  - by apply NoDup_filter.
  - etransitivity; [apply length_filter|done].
  - intros Hd. by rewrite Hi, without_ids.
  - done.
  - done.
Qed.
Lemma sound_failed {A} (r : result fault A) l : sound l → sound (failed_with r l).
Proof. intros [Hn Hm Hi Hf Hl]. destruct r; split; cbn; done. Qed.
(** What a tick's runs do to the loop: nothing but start some of them, up to the bound. *)
Lemma start_due_spec due l : sound l → lo_draining l = false →
  let l' := start_due max due l in
  sound l' ∧ lo_draining l' = false ∧ lo_running l ⊆ lo_running l' ∧
  (∀ id, id ∈ lo_running l' → id ∈ lo_running l ∨ id ∈ due) ∧
  ((∀ id, id ∈ due → id ∈ lo_running l') ∨ length (lo_running l') = max).
Proof.
  cbv zeta. revert l. induction due as [|id due IH]; intros l Hs Hd; cbn [start_due].
  { split_and!; [done..|by auto|left; by intros ? ?%elem_of_nil]. }
  pose proof (sound_ids l Hs Hd) as Hi. pose proof (sound_once l Hs) as Hn. pose proof (sound_max l Hs) as Hx.
  assert (size (lo_ids l) = length (lo_running l)) as Hz by (by rewrite Hi, size_list_to_set).
  case_decide as Hm; [split_and!; [done..|by auto|right; lia]|].
  case_decide as Hid; rewrite Hi, elem_of_list_to_set in Hid.
  - destruct (IH l Hs Hd) as (Hs' & Hd' & Hin & Hfrom & Hall). split_and!; [done..| |].
    + intros x Hxin. apply Hfrom in Hxin. set_solver.
    + destruct Hall as [Hall|]; [left|by right]. intros x [->|Hxin]%elem_of_cons; [by apply Hin|by apply Hall].
  - assert (sound (l <| lo_ids ::= union {[id]} |> <| lo_running ::= cons id |>)) as Hs1.
    { split; cbn; [by constructor|lia| |apply Hs|apply Hs]. intros _. by rewrite Hi. }
    destruct (IH _ Hs1 Hd) as (Hs' & Hd' & Hin & Hfrom & Hall). cbn in Hin, Hfrom. split_and!; [done|done|set_solver| |].
    + intros x Hxin. apply Hfrom in Hxin. set_solver.
    + destruct Hall as [Hall|]; [left|by right]. intros x [->|Hxin]%elem_of_cons; [by apply Hin; left|by apply Hall].
Qed.
Lemma drain_spec b l l' : sound l → lo_draining l = true → drain_branch b l = Some l' →
  sound l' ∧ lo_draining l' = true ∧ lo_running l' ⊆ lo_running l ∧ flight l = S (flight l').
Proof.
  intros [Hn Hm Hi Hf Hl] Hd Hb.
  assert (∀ {A} k (r : result fault A) m, lo_draining m = true → NoDup (lo_running m) → (length (lo_running m) ≤ max)%nat →
    sound (late k r m) ∧ lo_draining (late k r m) = true ∧ lo_running (late k r m) = lo_running m ∧ flight (late k r m) = flight m) as Hlate.
  { intros A k r m Hdm Hnm Hxm. destruct r; cbn; (split_and!; [split; cbn; congruence|done..]). }
  destruct b as [|id r|r|r| |r|]; cbn in Hb; try done.
  - case_decide as Hid; [|done]. injection Hb as <-.
    edestruct (Hlate _ 3%nat r (l <| lo_running ::= filter (λ x, x ≠ id) |>)) as (Hs & Hdl & Hr & Hfl);
      [done|by apply NoDup_filter|by etransitivity; [apply length_filter|]|].
    split_and!; [done..|rewrite Hr; cbn; by intros x [_ ?]%list_elem_of_filter|]. rewrite Hfl. unfold flight. cbn.
    rewrite (without_once id) by done. lia.
  - destruct (lo_notifying l) eqn:E; [|done]. injection Hb as <-.
    edestruct (Hlate _ 1%nat r (l <| lo_notifying := false |>)) as (Hs & Hdl & Hr & Hfl); [done..|].
    split_and!; [done..|by rewrite Hr|]. rewrite Hfl. unfold flight. cbn. rewrite E. cbn. lia.
  - destruct (lo_beating l) eqn:E; [|done]. injection Hb as <-.
    edestruct (Hlate _ 0%nat r (l <| lo_beating := false |>)) as (Hs & Hdl & Hr & Hfl); [done..|].
    split_and!; [done..|by rewrite Hr|]. rewrite Hfl. unfold flight. cbn. rewrite E. cbn. lia.
  - destruct (lo_ticking l) eqn:E; [|done]. injection Hb as <-.
    edestruct (Hlate _ 2%nat r (l <| lo_ticking := false |>)) as (Hs & Hdl & Hr & Hfl); [done..|].
    split_and!; [done..|by rewrite Hr|]. rewrite Hfl. unfold flight. cbn. rewrite E. cbn. lia.
Qed.
(** A branch of the running loop starts only what a tick listed. *)
Definition listed_by (b : branch_of) : list string := match b with BTicked (Ok due) => due | _ => [] end.
Lemma branch_spec b l l' : sound l → lo_draining l = false → loop_branch max b l = Some l' →
  sound l' ∧ (∀ id, id ∈ lo_running l' → id ∈ lo_running l ∨ id ∈ listed_by b) ∧
  ((∀ id, id ∈ listed_by b → id ∈ lo_running l') ∨ length (lo_running l') = max).
Proof.
  intros Hs Hd Hb.
  assert (∀ {A} (r : result fault A), sound (failed_with r l) → ∀ m, lo_running m = lo_running l → sound m →
    sound (failed_with r m) ∧ lo_running (failed_with r m) = lo_running l) as Hfail.
  { intros A r _ m Hr Hm. split; [by apply sound_failed|by destruct r]. }
  destruct b as [|id r|r|r| |r|]; cbn in Hb; try (injection Hb as <-).
  - split_and!; [by destruct Hs; split|by left|left; by intros ? ?%elem_of_nil].
  - case_decide as Hid; [|done]. injection Hb as <-. cbn [listed_by].
    split_and!; [by apply sound_failed, sound_without| |left; by intros ? ?%elem_of_nil].
    intros x Hx. left. assert (x ∈ filter (λ y, y ≠ id) (lo_running l)) as Hy by (by destruct r).
    by apply list_elem_of_filter in Hy as [_ Hy].
  - destruct (lo_notifying l); [|done]. injection Hb as <-. cbn [listed_by].
    edestruct (Hfail _ r (sound_failed r l Hs) (l <| lo_notifying := false |>)) as [Hs' Hr]; [done|by destruct Hs; split|].
    split_and!; [done|rewrite Hr; by left|left; by intros ? ?%elem_of_nil].
  - destruct (lo_beating l); [|done]. injection Hb as <-. cbn [listed_by].
    edestruct (Hfail _ r (sound_failed r l Hs) (l <| lo_beating := false |>)) as [Hs' Hr]; [done|by destruct Hs; split|].
    split_and!; [done|rewrite Hr; by left|left; by intros ? ?%elem_of_nil].
  - split_and!; [by destruct Hs; split|by left|left; by intros ? ?%elem_of_nil].
  - destruct (lo_ticking l); [|done]. injection Hb as <-.
    assert (sound (l <| lo_ticking := false |>)) as Hs1 by (by destruct Hs; split).
    destruct r as [due|e]; cbn [listed_by].
    + destruct (start_due_spec due _ Hs1 Hd) as (Hs' & _ & _ & Hfrom & Hall). by split_and!.
    + split_and!; [by apply sound_failed|by left|left; by intros ? ?%elem_of_nil].
  - split_and!; [by destruct Hs; split|by left|left; by intros ? ?%elem_of_nil].
Qed.
Lemma step_sound b l l' : sound l → loop_step max b l = Some l' →
  sound l' ∧ (∀ id, id ∈ lo_running l' → id ∈ lo_running l ∨ lo_draining l = false ∧ id ∈ listed_by b) ∧
  (lo_draining l = true → lo_draining l' = true ∧ flight l = S (flight l')).
Proof.
  intros Hs. unfold loop_step. destruct (lo_draining l) eqn:Ed; intros Hb.
  - destruct (drain_spec b l l' Hs Ed Hb) as (Hs' & Hd & Hr & Hf). split_and!; [done|by left; apply Hr|done].
  - destruct (branch_spec b l l' Hs Ed Hb) as (Hs' & Hr & _). split_and!; [done| |done]. intros id [?|?]%Hr; auto.
Qed.
Lemma run_snoc bs b l : loop_run max (bs ++ [b]) l = (l ← loop_run max bs l; loop_step max b l).
Proof.
  revert l. induction bs as [|b' bs IH]; intros l; cbn.
  - by destruct (loop_step max b l).
  - destruct (loop_step max b' l) as [l1|]; [apply IH|done].
Qed.
Lemma run_app bs bs' l : loop_run max (bs ++ bs') l = (l ← loop_run max bs l; loop_run max bs' l).
Proof.
  revert l. induction bs as [|b bs IH]; intros l; cbn; [done|]. destruct (loop_step max b l) as [l1|]; [apply IH|done].
Qed.
Lemma run_sound bs l l' : sound l → loop_run max bs l = Some l' → sound l'.
Proof.
  revert l. induction bs as [|b bs IH]; intros l Hs; cbn; [by intros [= <-]|].
  intros (l1 & Hb & Hr)%bind_Some. eapply IH, Hr. by eapply step_sound.
Qed.
(** What the loop drives, and what it starts. *)
Lemma loop_bounded bs l : loop_run max bs new_loop = Some l →
  NoDup (lo_running l) ∧ (length (lo_running l) ≤ max)%nat ∧
  (∀ id, id ∈ lo_running l → ∃ due, BTicked (Ok due) ∈ bs ∧ id ∈ due) ∧
  (∀ due l', lo_draining l = false → loop_step max (BTicked (Ok due)) l = Some l' →
     (∀ id, id ∈ due → id ∈ lo_running l') ∨ length (lo_running l') = max).
Proof.
  intros Hr. pose proof (run_sound bs _ _ sound_new Hr) as Hs. split_and!; [apply Hs..| |].
  - clear Hs. revert l Hr. induction bs as [|b bs IH] using rev_ind; intros l.
    + cbn. intros [= <-] id Hin. by apply elem_of_nil in Hin.
    + rewrite run_snoc. intros (l1 & Hr & Hb)%bind_Some id Hin.
      apply step_sound in Hb as (_ & Hfrom & _); [|by eapply run_sound, Hr; apply sound_new].
      destruct (Hfrom id Hin) as [Hin'|[_ Hin']].
      * destruct (IH _ Hr id Hin') as (due & ? & ?). exists due. split; [set_solver|done].
      * destruct b as [| | | | |[due|]|]; cbn in Hin'; try by apply elem_of_nil in Hin'. exists due. split; [set_solver|done].
  - intros due l' Hd. unfold loop_step. rewrite Hd. intros Hb. by apply branch_spec in Hb as (_ & _ & ?).
Qed.

(** ** The end of the worker *)

(** The failures the result is taken from. *)
Definition held_failures (l : Loop) : list fault := omap (λ k, lo_late l !! k) (seq 0 4) ++ option_list (lo_failure l).
Lemma elem_of_held e l : e ∈ held_failures l ↔ (∃ k, (k < 4)%nat ∧ lo_late l !! k = Some e) ∨ lo_failure l = Some e.
Proof.
  unfold held_failures. rewrite elem_of_app, list_elem_of_omap. f_equiv.
  - split; intros (k & Hk & He); exists k; (split; [|done]); apply elem_of_seq in Hk || apply elem_of_seq; lia.
  - destruct (lo_failure l) as [f|]; cbn; [|split; [by intros ?%elem_of_nil|done]].
    rewrite list_elem_of_singleton. naive_solver.
Qed.
(** What a branch does to them. *)
Definition keeps (f : option fault) (l l' : Loop) : Prop :=
  (∀ e, e ∈ held_failures l' → e ∈ held_failures l ∨ f = Some e) ∧
  (is_Some f ∨ held_failures l ≠ [] → held_failures l' ≠ []).
Lemma keeps_same f l l' : f = None → lo_late l' = lo_late l → lo_failure l' = lo_failure l → keeps f l l'.
Proof. intros -> Hl Hf. unfold keeps, held_failures. rewrite Hl, Hf. split; [by left|]. by intros [[? ?]|?]. Qed.
Lemma keeps_failed {A} (r : result fault A) l m : lo_late m = lo_late l → lo_failure m = lo_failure l →
  keeps (failed r) l (failed_with r m).
Proof.
  intros Hl Hf. destruct r as [a|e]; [by apply keeps_same|]. split.
  - intros e'. rewrite !elem_of_held. cbn. rewrite Hl. naive_solver.
  - intros _. apply (elem_of_not_nil e). apply elem_of_held. by right.
Qed.
Lemma keeps_late {A} k (r : result fault A) l m : (k < 4)%nat → lo_late m = lo_late l → lo_failure m = lo_failure l →
  keeps (failed r) l (late k r m).
Proof.
  intros Hk Hl Hf. destruct r as [a|e]; [by apply keeps_same|]. split.
  - intros e'. rewrite !elem_of_held. cbn. rewrite Hl, Hf. intros [(k' & Hk' & He)|?]; [|auto].
    apply lookup_insert_Some in He as [[<- <-]|[_ He]]; eauto.
  - intros _. apply (elem_of_not_nil e). apply elem_of_held. left. exists k. cbn. by rewrite lookup_insert_eq.
Qed.
Lemma start_due_keeps due l : lo_late (start_due max due l) = lo_late l ∧ lo_failure (start_due max due l) = lo_failure l.
Proof.
  revert l. induction due as [|id due IH]; intros l; cbn; [done|]. case_decide; [done|]. case_decide; [apply IH|].
  destruct (IH (l <| lo_ids ::= union {[id]} |> <| lo_running ::= cons id |>)) as [-> ->]. done.
Qed.
Lemma step_keeps b l l' : loop_step max b l = Some l' → keeps (branch_failed b) l l'.
Proof.
  unfold loop_step. destruct (lo_draining l); destruct b as [|id r|r|r| |[due|e]|]; cbn;
    try case_decide; try case_match; try done; intros [= <-];
    try (by apply keeps_same); try (by apply keeps_failed); try (by apply keeps_late; [lia|..]).
  - by apply (keeps_late 2 (Err (A := list string) e) l (l <| lo_ticking := false |>)); [lia|..].
  - destruct (start_due_keeps due (l <| lo_ticking := false |>)) as [Hl Hf]. by apply keeps_same.
  - by apply (keeps_failed (Err (A := list string) e) l (l <| lo_ticking := false |>)).
Qed.
Lemma run_keeps bs l : loop_run max bs new_loop = Some l →
  (∀ e, e ∈ held_failures l → ∃ b, b ∈ bs ∧ branch_failed b = Some e) ∧
  ((∃ b, b ∈ bs ∧ is_Some (branch_failed b)) → held_failures l ≠ []).
Proof.
  revert l. induction bs as [|b bs IH] using rev_ind; intros l.
  - cbn. intros [= <-]. split; [by intros e ?%elem_of_nil|]. by intros (b & ?%elem_of_nil & _).
  - rewrite run_snoc. intros (l1 & Hr & Hb)%bind_Some. apply step_keeps in Hb as [Hfrom Hto]. destruct (IH _ Hr) as [Hk Hn]. split.
    + intros e [(b' & Hin & He)%Hk|He]%Hfrom; [exists b'|exists b]; (split; [set_solver|done]).
    + intros (b' & [Hin| ->%list_elem_of_singleton]%elem_of_app & Hf); apply Hto; [right; apply Hn; eauto|by left].
Qed.
(** The end of something that is under way. *)
Definition pending (l : Loop) (b : branch_of) : Prop :=
  match b with
  | BRun id _ => id ∈ lo_running l
  | BTicked _ => lo_ticking l = true
  | BNotified _ => lo_notifying l = true
  | BBeaten _ => lo_beating l = true
  | BStop | BBeat | BTick => False
  end.
Lemma pending_drain l b : pending l b ↔ ∃ l', drain_branch b l = Some l'.
Proof.
  destruct b; cbn; try (split; [done|by intros (? & ?)]).
  - case_decide; (split; [eauto|intros (? & ?)]); done.
  - destruct (lo_notifying l); (split; [eauto|intros (? & ?)]); done.
  - destruct (lo_beating l); (split; [eauto|intros (? & ?)]); done.
  - destruct (lo_ticking l); (split; [eauto|intros (? & ?)]); done.
Qed.
Lemma returned_flight l : returned l = true ↔ lo_draining l = true ∧ flight l = 0%nat.
Proof.
  unfold returned, flight. destruct (lo_draining l), (lo_ticking l), (lo_notifying l), (lo_beating l); cbn;
    rewrite ?andb_true_r, ?andb_false_r, ?bool_decide_eq_true, ?length_zero_iff_nil; try (split; [done|intros [? ?]; first [done|lia]]).
  rewrite <- length_zero_iff_nil. split; [intros ?; split; [done|lia]|lia].
Qed.
(** C38: The worker's loop drives each run once, no more of them than the bound, only runs a tick
    listed as due, and after a tick every run that was listed or as many as it may. Once it was
    stopped or has failed it starts nothing: each future it has under way can be taken when it
    ends, with whatever it ends with, and after exactly as many steps as it had futures it returns,
    and not before. No failure is lost: it returns without one only if nothing failed from its
    start on, and otherwise with one that something did fail with. *)
Theorem worker_returns bs l : loop_run max bs new_loop = Some l →
  (NoDup (lo_running l) ∧ (length (lo_running l) ≤ max)%nat ∧
   (∀ id, id ∈ lo_running l → ∃ due, BTicked (Ok due) ∈ bs ∧ id ∈ due) ∧
   (∀ due l', lo_draining l = false → loop_step max (BTicked (Ok due)) l = Some l' →
      (∀ id, id ∈ due → id ∈ lo_running l') ∨ length (lo_running l') = max)) ∧
  (lo_draining l = true →
     (∀ b, pending l b ↔ ∃ l', loop_step max b l = Some l') ∧
     ∀ bs' l', loop_run max bs' l = Some l' →
       lo_running l' ⊆ lo_running l ∧ flight l = (length bs' + flight l')%nat ∧ (returned l' = true ↔ length bs' = flight l)) ∧
  match worker_result l with
  | Ok _ => ∀ b, b ∈ bs → branch_failed b = None
  | Err e => ∃ b, b ∈ bs ∧ branch_failed b = Some e
  end.
Proof.
  intros Hr. split; [by apply loop_bounded|]. split.
  - intros Hd. split; [intros b; unfold loop_step; rewrite Hd; apply pending_drain|].
    pose proof (run_sound bs _ _ sound_new Hr) as Hs. clear Hr. intros bs' l' Hr.
    assert (lo_draining l' = true ∧ lo_running l' ⊆ lo_running l ∧ flight l = (length bs' + flight l')%nat) as (Hd' & Hsub & Hf).
    { revert l Hs Hd Hr. induction bs' as [|b bs' IH]; intros l Hs Hd; cbn; [by intros [= <-]|].
      intros (l1 & Hb & Hr)%bind_Some. unfold loop_step in Hb. rewrite Hd in Hb.
      destruct (drain_spec b l l1 Hs Hd Hb) as (Hs1 & Hd1 & Hr1 & ->).
      destruct (IH _ Hs1 Hd1 Hr) as (? & ? & ->). split_and!; [done|by etransitivity|done]. }
    split_and!; [done..|]. rewrite returned_flight. split; [intros [_ ?]; lia|intros ?; split; [done|lia]].
  - destruct (run_keeps bs l Hr) as [Hk Hn]. unfold worker_result. fold (held_failures l).
    destruct (held_failures l) as [|e es]; cbn.
    + intros b Hb. destruct (branch_failed b) eqn:E; [|done]. exfalso. apply Hn; [|done]. exists b. by rewrite E.
    + apply Hk. by left.
Qed.
End loop.

(** ** A drive and its lease *)

(** The lease an operation of a drive acts under; a run handed to the interpreter; a lease
    given back or a run ended. *)
Definition acts (o : rt_op) : option Fence :=
  match o with
  | RoFinish f _ _ _ | RoRelease f _ | RoLoad f _ => Some f
  | RoRace d | RoSettle d => Some (xn_fence (dv_host d))
  | _ => None
  end.
Definition is_race (o : rt_op) : bool := match o with RoRace _ => true | _ => false end.
Definition race_of (e : event) : option (Driven * result fault raced) :=
  match e with Told (RoRace d) x => Some (d, x) | _ => None end.
Definition leaves (e : event) : bool :=
  match e with Told (RoFinish _ _ _ _) (Ok _) | Told (RoRelease _ _) (Ok _) => true | _ => false end.
Definition ends (l : list event) : nat := length (filter (λ e, leaves e = true) l).
Lemma ends_app l1 l2 : ends (l1 ++ l2) = (ends l1 + ends l2)%nat.
Proof. unfold ends. by rewrite filter_app, length_app. Qed.

Section lease.
Context `{Host, Libraries, RuntimeLibraries}.
Variable rn : Runtime.
Variable fuel : nat.
Variable fence : Fence.
Local Abbreviation adm := (rn_admitter rn).
Local Abbreviation id := (f_run_id fence).

(** A part of the drive that acts under its lease only, gives no run to the interpreter,
    and ends the run or gives the lease back at most [n] times. *)
Record tidy (n : nat) (l : list event) : Prop := {
  tidy_lease : ∀ o x f, Told o x ∈ l → acts o = Some f → f = fence;
  tidy_race : ∀ o x, Told o x ∈ l → is_race o = false;
  tidy_ends : (ends l ≤ n)%nat
}.
Lemma tidy_app n m l1 l2 : tidy n l1 → tidy m l2 → tidy (n + m) (l1 ++ l2).
Proof.
  intros [Hl1 Hr1 He1] [Hl2 Hr2 He2]. split.
  - intros o x f [?|?]%elem_of_app; eauto.
  - intros o x [?|?]%elem_of_app; eauto.
  - rewrite ends_app. lia.
Qed.
Lemma tidy_nil : tidy 0 [].
Proof. by split; [intros ??? ?%elem_of_nil|intros ?? ?%elem_of_nil|]. Qed.
Lemma tidy_le n m l : (n ≤ m)%nat → tidy n l → tidy m l.
Proof. intros Hn []. split; [done..|lia]. Qed.
Lemma tidy_one o x : (∀ f, acts o = Some f → f = fence) → is_race o = false →
  tidy (if leaves (Told o x) then 1 else 0) [Told o x].
Proof.
  intros Ha Hr. split.
  - intros o' x' f He%list_elem_of_singleton. injection He as -> _. apply Ha.
  - intros o' x' He%list_elem_of_singleton. by injection He as -> _.
  - unfold ends. cbn [filter]. destruct (leaves (Told o x)) eqn:E; [|rewrite filter_cons_False by (by rewrite E); done].
    rewrite filter_cons_True by done. done.
Qed.
(** A call that acts under no lease. *)
Lemma tidy_read o x : acts o = None → tidy 0 [Told o x].
Proof.
  intros Ha. assert (leaves (Told o x) = false) as El by (by destruct o).
  pose proof (tidy_one o x) as Ht. rewrite El in Ht. apply Ht; [by rewrite Ha|by destruct o].
Qed.
Lemma tidy_asks {E A} (p : rt E A) l r : asks_no (λ o, bool_decide (is_Some (acts o))) p → track p l r → tidy 0 l.
Proof.
  intros Hp Ht. assert (∀ o x, Told o x ∈ l → acts o = None) as Hn.
  { intros o x Hin. eapply asks_no_track in Ht; [|done..]. apply bool_decide_eq_false in Ht. by apply eq_None_not_Some. }
  clear Hp Ht. induction l as [|[o x] l IH]; [apply tidy_nil|]. apply (tidy_app 0 0 [_]).
  - apply tidy_read, (Hn o x). by left.
  - apply IH. intros o' x' Hin. apply (Hn o' x'). by right.
Qed.

Lemma finish_spec s l r : track (finish_drive rn fence s) l r →
  tidy 1 l ∧ match r with
  | Ok s' => ∃ now, Told (RoFinish fence s now (ad_breaker_threshold adm)) (Ok s') ∈ l
  | Err _ => ends l = 0%nat
  end.
Proof.
  intros Ht. unfold finish_drive in Ht.
  apply track_bind in Ht as [(now & l1 & l2 & -> & Hn & Ht)|(e & Hn & ->)]; apply track_call in Hn as (x & -> & _).
  - apply track_call in Ht as (y & -> & ->). split.
    + eapply (tidy_app 0 1); [by apply tidy_read|]. eapply tidy_le, tidy_one; [by destruct (leaves _); lia| |done].
      by intros f [= <-].
    + destruct y as [s'|e]; [|done]. exists now. set_solver.
  - split; [|done]. eapply tidy_le, tidy_read; [lia|done].
Qed.
Lemma release_spec l r : track (release_drive fence) l r →
  tidy 1 l ∧ match r with
  | Ok _ => ∃ now, Told (RoRelease fence now) (Ok ()) ∈ l
  | Err e => ends l = 0%nat
  end.
Proof.
  intros Ht. unfold release_drive in Ht.
  apply track_bind in Ht as [(now & l1 & l2 & -> & Hn & Ht)|(e & Hn & ->)]; apply track_call in Hn as (x & -> & _).
  - apply track_call in Ht as (y & -> & ->). split.
    + eapply (tidy_app 0 1); [by apply tidy_read|]. eapply tidy_le, tidy_one; [by destruct (leaves _); lia| |done].
      by intros f [= <-].
    + destruct y as [[]|e]; [|done]. exists now. set_solver.
  - split; [|done]. eapply tidy_le, tidy_read; [lia|done].
Qed.
Lemma outcome_at_spec l r : track (outcome_at id) l r →
  tidy 0 l ∧ ∀ s, r = Ok (Some s) → ∃ saved, Told (RoGet id) (Ok (Some saved)) ∈ l ∧ r_outcome saved = Some s.
Proof.
  intros Ht. unfold outcome_at in Ht.
  apply track_bind in Ht as [(o & l1 & l2 & -> & Hg & Ht)|(e & Hg & ->)]; apply track_call in Hg as (x & -> & Hx).
  - destruct Ht as [-> ->]. split; [by apply tidy_read|]. intros s [= Hs]. apply bind_Some in Hs as (saved & -> & Hs).
    exists saved. destruct x as [x|]; [|done]. injection Hx as <-. split; [by left|done].
  - split; [by apply tidy_read|done].
Qed.
Lemma tidy_zero n l : tidy n l → ends l = 0%nat → tidy 0 l.
Proof. intros [] He. split; [done..|lia]. Qed.

(** How a drive that has the lease leaves the run: it ended it; it gave the lease back; it
    found it ended; the lease it could not give back was no longer its own; or a renewal
    failed, by which it lost the lease. *)
Inductive ending_of (l : list event) : Ending → Prop :=
| EoFinished o now threshold s b :
    Told (RoFinish fence o now threshold) (Ok s) ∈ l → ending_of l (mkEnding s false b)
| EoReleased now text :
    Told (RoRelease fence now) (Ok ()) ∈ l → ending_of l (own (stopped_status text))
| EoFound saved s :
    Told (RoGet id) (Ok (Some saved)) ∈ l → r_outcome saved = Some s → ending_of l (foreign s)
| EoTaken now now' f (saved : option SavedRun) text :
    Told (RoRelease fence now) (Err f) ∈ l → Told (RoGet id) (Ok saved) ∈ l → Told RoNow (Ok now') ∈ l →
    (∀ r until, saved = Some r → r_fence r = Some fence → r_lease_until_ms r = Some until → until ≤ now') →
    ending_of l (own (stopped_status text))
| EoLost d f :
    Told (RoRace d) (Ok (RcRenewal f)) ∈ l → f ≠ RfStopped → (∀ run, f ≠ RfHeld run) →
    ending_of l (own (stopped_status (fault_text f))).
Lemma ending_mono l l' e : l ⊆ l' → ending_of l e → ending_of l' e.
Proof. intros Hl []; [eapply EoFinished|eapply EoReleased|eapply EoFound|eapply EoTaken|eapply EoLost]; eauto. Qed.
(** The clock answers: reading it does not fail. *)
Definition clocked (l : list event) : Prop := ∀ f, Told RoNow (Err f) ∉ l.
Lemma clocked_app l1 l2 : clocked (l1 ++ l2) → clocked l1 ∧ clocked l2.
Proof. intros Hc. split; intros f Hin; apply (Hc f); set_solver. Qed.
Lemma release_failed_spec l e : clocked l → track (release_drive fence) l (Err e) →
  tidy 0 l ∧ ∃ now, Told (RoRelease fence now) (Err e) ∈ l.
Proof.
  intros Hc Ht. destruct (release_spec _ _ Ht) as [Hl He]. split; [by eapply tidy_zero|]. unfold release_drive in Ht.
  apply track_bind in Ht as [(now & l1 & l2 & -> & Hn & Ht)|(e' & Hn & He')]; apply track_call in Hn as (x & -> & Hx).
  - exists now. apply track_call in Ht as (y & -> & Hy). destruct y; [done|]. injection Hy as ->. set_solver.
  - destruct x as [|f]; [done|]. exfalso. apply (Hc f). by left.
Qed.
(** What a part of the drive that ends it answers. *)
Definition concludes (before l : list event) (r : result fault Ending) : Prop :=
  tidy 1 l ∧ ∀ e, r = Ok e → ending_of (before ++ l) e.
Lemma yield_spec before l r : clocked l → track (yield_held fence) l r → concludes before l r.
Proof.
  intros Hc Ht. unfold yield_held in Ht. cbv zeta in Ht. set (text := "run " +:+ _) in Ht.
  apply track_bind in Ht as [(x & l1 & l2 & -> & Hr & Ht)|(e & Hr & _)]; apply track_outcome in Hr as (y & Hy & Hr); [|done].
  injection Hy as ->. apply clocked_app in Hc as [Hc1 Hc]. destruct y as [u|f].
  - destruct (release_spec _ _ Hr) as [Hl (now & Hin)], Ht as [-> ->]. rewrite app_nil_r. split; [done|].
    intros e [= <-]. apply (EoReleased _ now). apply elem_of_app. by right.
  - apply release_failed_spec in Hr as [Hl [now1 Hf]]; [|done]. assert (∀ l', tidy 0 l' → tidy 1 (l1 ++ l')) as Htidy.
    { intros l' Hl'. eapply tidy_le, (tidy_app 0 0); [lia|done..]. }
    apply track_bind in Ht as [(saved & l3 & l4 & -> & Hg & Ht)|(e & Hg & ->)]; apply track_call in Hg as (x & -> & Hx);
      [|split; [by apply Htidy, tidy_read|done]].
    destruct x as [saved'|]; [injection Hx as <-|done]. destruct (saved ≫= r_outcome) as [s|] eqn:Es.
    + destruct Ht as [-> ->]. split; [by apply Htidy, tidy_read|].
      intros e [= <-]. apply bind_Some in Es as (r0 & -> & Hs). eapply EoFound, Hs. set_solver.
    + apply track_bind in Ht as [(now & l5 & l6 & -> & Hn & Ht)|(e & Hn & ->)]; apply track_call in Hn as (x & -> & Hx);
        [|split; [by apply Htidy, (tidy_app 0 0 [_] [_]); apply tidy_read|done]].
      destruct x as [now'|]; [injection Hx as <-|done].
      match type of Ht with track (if ?b then _ else _) _ _ => destruct b eqn:Eb end; destruct Ht as [-> ->];
        (split; [by apply Htidy, (tidy_app 0 0 [_] [_]); apply tidy_read|done || intros e [= <-]]).
      apply (EoTaken _ now1 now f saved); [set_solver..|]. intros r0 until -> Hfe Hu. cbn in Eb. rewrite Hfe, Hu in Eb.
      rewrite bool_decide_true in Eb by done. cbn in Eb. apply bool_decide_eq_false in Eb. lia.
Qed.
Lemma concludes_after before l1 l2 r : tidy 0 l1 → concludes (before ++ l1) l2 r → concludes before (l1 ++ l2) r.
Proof. intros Hl [Ht He]. split; [by apply (tidy_app 0 1)|]. intros e Hr. rewrite app_assoc. auto. Qed.
Lemma concludes_failed before l e : tidy 1 l → concludes before l (Err e).
Proof. by split. Qed.
Lemma concludes_found before l (found : option Status) s : tidy 1 l → found = Some s →
  (∀ s, found = Some s → ∃ saved, Told (RoGet id) (Ok (Some saved)) ∈ l ∧ r_outcome saved = Some s) →
  concludes before l (Ok (foreign s)).
Proof.
  intros Hl -> Hf. split; [done|]. intros e [= <-]. destruct (Hf s eq_refl) as (saved & Hin & Hs).
  eapply EoFound, Hs. apply elem_of_app. by right.
Qed.
(** A lease given back before the drive ends on its own. *)
Lemma give_back_spec before text l r : track (_ ← release_drive fence; mret (own (stopped_status text))) l r → concludes before l r.
Proof.
  intros Ht. apply track_bind in Ht as [(u & l1 & l2 & -> & Hr & [-> ->])|(e & Hr & ->)]; apply release_spec in Hr as [Hl Hr];
    [|by apply concludes_failed]. rewrite app_nil_r. split; [done|]. intros e [= <-]. destruct Hr as [now Hin].
  apply (EoReleased _ now). apply elem_of_app. by right.
Qed.
Lemma conclude_spec before o l r : clocked l → track (conclude_drive rn id fence o) l r → concludes before l r.
Proof.
  intros Hc Ht. unfold conclude_drive in Ht.
  apply track_bind in Ht as [(found & l1 & l2 & -> & Hg & Ht)|(e & Hg & ->)]; apply outcome_at_spec in Hg as [Hl Hf];
    [|apply concludes_failed; eapply tidy_le, Hl; lia]. apply clocked_app in Hc as [_ Hc]. destruct found as [s|].
  { destruct Ht as [-> ->]. rewrite app_nil_r. eapply concludes_found; [eapply tidy_le, Hl; lia|done|]. intros s' [= <-]. by apply Hf. }
  apply concludes_after; [done|].
  apply track_bind in Ht as [(stopped & l3 & l4 & -> & Hs & Ht)|(e & Hs & ->)]; apply track_call in Hs as (x & -> & _);
    [|apply concludes_failed; eapply tidy_le, tidy_read; [lia|done]].
  apply concludes_after; [by apply tidy_read|]. apply clocked_app in Hc as [_ Hc].
  destruct stopped; [by eapply give_back_spec|].
  apply track_bind in Ht as [(y & l5 & l6 & -> & Hy & Ht)|(e & Hy & _)]; apply track_outcome in Hy as (z & Hz & Hy); [|done].
  injection Hz as ->. apply clocked_app in Hc as [_ Hc]. apply finish_spec in Hy as [Hl5 Hy]. destruct z as [s|f].
  - destruct Ht as [-> ->]. rewrite app_nil_r. split; [done|]. intros e [= <-]. destruct Hy as [now Hin].
    eapply EoFinished. apply elem_of_app. right. exact Hin.
  - apply concludes_after; [by eapply tidy_zero|].
    destruct f; try (destruct Ht as [-> ->]; apply concludes_failed; eapply tidy_le, tidy_nil; lia).
    + by apply yield_spec.
    + by eapply give_back_spec.
Qed.
Lemma lose_spec before d e l r : (∀ run, e ≠ RfHeld run) → Told (RoRace d) (Ok (RcRenewal e)) ∈ before →
  track (lose_drive id fence e) l r → concludes before l r.
Proof.
  intros He Hb Ht. unfold lose_drive in Ht.
  assert (∀ l1 x, track (match e with RfStopped => release_drive fence | _ => mret () end) l1 x →
    tidy 1 l1 ∧ (e = RfStopped → ∀ u, x = Ok u → ∃ now, Told (RoRelease fence now) (Ok ()) ∈ l1)) as Hgive.
  { intros l1 x Hx. destruct e; try (destruct Hx as [-> _]; split; [eapply tidy_le, tidy_nil; lia|done]).
    apply release_spec in Hx as [Hl Hx]. split; [done|]. by intros _ u ->. }
  apply track_bind in Ht as [(u & l1 & l2 & -> & Hu & Ht)|(f & Hu & ->)]; apply Hgive in Hu as [Hl Hu];
    [|by apply concludes_failed].
  apply track_bind in Ht as [(found & l3 & l4 & -> & Hg & [-> ->])|(f & Hg & ->)]; apply outcome_at_spec in Hg as [Hl3 Hf];
    [|apply concludes_failed; by apply (tidy_app 1 0)]. rewrite app_nil_r.
  assert (tidy 1 (l1 ++ l3)) as Hall by (by apply (tidy_app 1 0)). split; [done|]. intros e' [= <-].
  destruct found as [s|].
  { destruct (Hf s eq_refl) as (saved & Hin & Hs). eapply EoFound, Hs. set_solver. }
  assert (e = RfStopped ∨ e ≠ RfStopped) as [->|Hne] by (destruct e; first [by left|by right]).
  - destruct (Hu eq_refl u eq_refl) as [now Hin]. apply (EoReleased _ now). apply elem_of_app. right. apply elem_of_app. by left.
  - apply (EoLost _ d); [apply elem_of_app; by left|done..].
Qed.
Lemma after_race_spec before d x l r : clocked l → xn_fence (dv_host d) = fence → Told (RoRace d) (Ok x) ∈ before →
  track (after_race rn id fence d x) l r → concludes before l r.
Proof.
  intros Hc Hd Hb Ht. destruct x as [|f|o]; [by eapply give_back_spec| |by eapply conclude_spec].
  assert (track (lose_drive id fence f) l r → (∀ run, f ≠ RfHeld run) → concludes before l r) as Hlose by
    (intros Hx Hf; by eapply lose_spec).
  destruct f; try (by apply Hlose; [exact Ht|]). clear Hlose.
  apply track_bind in Ht as [(o & l1 & l2 & -> & Ho & Ht)|(e & Ho & ->)]; apply track_call in Ho as (y & -> & _).
  - apply clocked_app in Hc as [_ Hc]. apply concludes_after.
    { eapply (tidy_one _ y); [|done]. by intros f [= <-]. }
    destruct o; [by eapply conclude_spec|by apply yield_spec].
  - apply concludes_failed. eapply tidy_le, (tidy_one _ y); [destruct (leaves _); lia| |done]. by intros f [= <-].
Qed.
(** A run given to the interpreter: after the start check passed and the definition was
    found as it was admitted, as [driven] makes it. *)
Definition raced_well (saved : SavedRun) (m : Mode) (l : list event) (d : Driven) (x : result fault raced) : Prop :=
  ∃ l1 l2 p loaded checked, l = l1 ++ Told (RoRace d) x :: l2 ∧ (∀ o y, Told o y ∈ l1 ++ l2 → is_race o = false) ∧
    checked ⊆ l1 ∧ track (check adm fuel (a_name (r_admission saved), a_version (r_admission saved), a_definition (r_admission saved)))
      checked (Ok ()) ∧
    resumable rn (r_admission saved) = Ok p ∧ d = driven rn saved fence m p loaded.
Definition acts_well (saved : SavedRun) (m : Mode) (l : list event) (r : result fault Ending) : Prop :=
  (∀ o x f, Told o x ∈ l → acts o = Some f → f = fence) ∧ (ends l ≤ 1)%nat ∧
  (∀ d x, Told (RoRace d) x ∈ l → raced_well saved m l d x) ∧ ∀ e, r = Ok e → ending_of l e.
Lemma tidy_acts saved m l r : concludes [] l r → acts_well saved m l r.
Proof.
  intros [[Hl Hr He] Hc]. split_and!; [done..| |done]. intros d x Hin. by apply Hr in Hin.
Qed.
(** The run's end without its race. *)
Lemma finish_concludes saved m l0 s l r : tidy 0 l0 → track (s ← finish_drive rn fence s; mret (own s)) l r →
  acts_well saved m (l0 ++ l) r.
Proof.
  intros Hl0 Ht. apply tidy_acts, concludes_after; [done|].
  apply track_bind in Ht as [(s' & l1 & l2 & -> & Hf & [-> ->])|(e & Hf & ->)]; apply finish_spec in Hf as [Hl Hf];
    [|by apply concludes_failed]. rewrite app_nil_r. split; [done|]. intros e [= <-]. destruct Hf as [now Hin].
  eapply EoFinished. apply elem_of_app. right. exact Hin.
Qed.
Lemma execute_spec saved m l r : clocked l → a_id (r_admission saved) = id →
  track (execute_drive rn fuel saved fence m) l r → acts_well saved m l r.
Proof.
  intros Hc Hid Ht. unfold execute_drive in Ht. cbv zeta in Ht. rewrite Hid in Ht.
  apply track_bind in Ht as [(now & l1 & l2 & -> & Hn & Ht)|(e & Hn & ->)]; apply track_call in Hn as (x & -> & _);
    [|apply tidy_acts, concludes_failed; eapply tidy_le, tidy_read; [lia|done]].
  apply track_bind in Ht as [(loaded & l3 & l4 & -> & Hl & Ht)|(e & Hl & _)]; apply track_outcome in Hl as (y & Hy & Hl); [|done].
  apply track_call in Hl as (z & -> & _).
  assert (tidy 0 [Told (RoLoad fence now) z]) as Hload by (apply (tidy_one (RoLoad fence now) z); [by intros f [= <-]|done]).
  apply track_bind in Ht as [(checked & l5 & l6 & -> & Hk & Ht)|(e & Hk & _)]; apply track_outcome in Hk as (k & Hkk & Hk); [|done].
  injection Hkk as ->. assert (tidy 0 l5) as Hl5.
  { eapply tidy_asks, Hk. apply asks_no_bind; [by apply asks_no_tree|done]. }
  set (before := [Told RoNow x] ++ [Told (RoLoad fence now) z] ++ l5).
  assert (tidy 0 before) as Hb by (apply (tidy_app 0 0); [by apply tidy_read|by apply (tidy_app 0 0)]).
  replace ([Told RoNow x] ++ [Told (RoLoad fence now) z] ++ l5 ++ l6) with (before ++ l6) in * by (unfold before; by rewrite <- !app_assoc).
  apply clocked_app in Hc as [_ Hc].
  destruct k as [[]|f]; [|destruct f; try (destruct Ht as [-> ->]; apply tidy_acts, concludes_failed; rewrite app_nil_r; eapply tidy_le, Hb; lia);
    by eapply finish_concludes].
  destruct (resumable rn (r_admission saved)) as [p|e] eqn:Er; [|by eapply finish_concludes].
  set (d := driven rn saved fence m p loaded) in Ht.
  assert (∀ y l8, (∀ o y, Told o y ∈ l8 → is_race o = false) → raced_well saved m (before ++ Told (RoRace d) y :: l8) d y) as Hwell.
  { intros y' l8 Hl8. exists before, l8, p, loaded, l5. split_and!; [done| |set_solver|done..].
    intros o v [Hin|Hin]%elem_of_app; [by eapply tidy_race|by eapply Hl8]. }
  assert (∀ y l8 r, concludes (before ++ [Told (RoRace d) y]) l8 r → acts_well saved m (before ++ Told (RoRace d) y :: l8) r) as Hall.
  { intros y' l8 r' [[Hl8 Hr8 He8] Hend]. split_and!.
    - intros o v f [Hin|[Hin|Hin]%elem_of_cons]%elem_of_app Ha; [by eapply tidy_lease| |by eapply Hl8].
      injection Hin as -> _. by injection Ha as <-.
    - rewrite ends_app. change (ends (Told (RoRace d) y' :: l8)) with (ends ([Told (RoRace d) y'] ++ l8)). rewrite ends_app.
      pose proof (tidy_ends _ _ Hb). change (ends [Told (RoRace d) y']) with 0%nat. lia.
    - intros d' v [Hin|[Hin|Hin]%elem_of_cons]%elem_of_app; [by apply (tidy_race _ _ Hb) in Hin| |by apply Hr8 in Hin].
      apply (f_equal race_of) in Hin. injection Hin as -> ->. by apply Hwell.
    - intros e He. specialize (Hend e He). by rewrite <- app_assoc in Hend. }
  apply track_bind in Ht as [(v & l7 & l8 & -> & Hx & Ht)|(e & Hx & ->)]; apply track_call in Hx as (y' & -> & Hx).
  - destruct y' as [v'|]; [injection Hx as <-|done]. apply Hall. apply clocked_app in Hc as [_ Hc].
    eapply after_race_spec, Ht; [done|done|]. set_solver.
  - apply Hall, concludes_failed. eapply tidy_le, tidy_nil. lia.
Qed.
End lease.

Section drives.
Context `{Host, Libraries, RuntimeLibraries}.
Variable rn : Runtime.
Variable fuel : nat.

(** The clock answers, and the store answers for the run it is asked for. *)
Record orderly (id : string) (l : list event) : Prop := {
  orderly_clock : clocked l;
  orderly_claim : ∀ now w f, Told (RoClaim id now w) (Ok (Some f)) ∈ l → f_run_id f = id;
  orderly_get : ∀ saved, Told (RoGet id) (Ok (Some saved)) ∈ l → a_id (r_admission saved) = id
}.
(** What is promised of a drive of [id] in mode [m] that ran through [l] to [r]. *)
Definition drives_well (id : string) (m : Mode) (l : list event) (r : result fault (option Status)) : Prop :=
  let claimed f := ∃ now, Told (RoClaim id now (rn_application rn)) (Ok (Some f)) ∈ l in
  (∀ o x f, Told o x ∈ l → acts o = Some f → claimed f) ∧ (ends l ≤ 1)%nat ∧
  (∀ d x, Told (RoRace d) x ∈ l → ∃ f saved, claimed f ∧ Told (RoGet id) (Ok (Some saved)) ∈ l ∧
     raced_well rn fuel f saved m l d x) ∧
  match r with
  | Ok None => ∀ o x, Told o x ∈ l → acts o = None
  | Ok (Some s) => (∃ saved, Told (RoGet id) (Ok (Some saved)) ∈ l ∧ r_outcome saved = Some s) ∨
      ∃ f e, claimed f ∧ ending_of f l e ∧ s = en_status e
  | Err _ => True
  end.
Lemma idle_drives id m l r : Forall (λ e, match e with Told o _ => acts o = None end) l →
  (∀ s, r = Ok (Some s) → ∃ saved, Told (RoGet id) (Ok (Some saved)) ∈ l ∧ r_outcome saved = Some s) →
  drives_well id m l r.
Proof.
  intros Hl Hs. assert (∀ o x, Told o x ∈ l → acts o = None) as Hn by (intros o x Hin; by apply (proj1 (Forall_forall _ _) Hl) in Hin).
  split_and!.
  - intros o x f Hin Ha. by rewrite (Hn o x Hin) in Ha.
  - clear Hs Hn. unfold ends. induction Hl as [|[o x] l Ho Hl IH]; [cbn; lia|]. rewrite filter_cons_False; [done|by destruct o].
  - intros d x Hin. by specialize (Hn _ _ Hin).
  - destruct r as [[s|]|e]; [left; auto|done..].
Qed.
Lemma raced_well_after f saved m l0 l d x : (∀ o y, Told o y ∈ l0 → is_race o = false) →
  raced_well rn fuel f saved m l d x → raced_well rn fuel f saved m (l0 ++ l) d x.
Proof.
  intros Hl0 (l1 & l2 & p & loaded & checked & -> & Hr & Hc & Hrest). exists (l0 ++ l1), l2, p, loaded, checked.
  split_and!; [by rewrite <- app_assoc| |set_solver|apply Hrest..].
  intros o y. rewrite <- app_assoc. intros [Hin|Hin]%elem_of_app; eauto.
Qed.
(** The drive's part under its lease, after a part that acts under none. *)
Lemma claimed_drives fence saved m l0 l now r :
  Forall (λ e, match e with Told o _ => acts o = None end) l0 → ends l0 = 0%nat → clocked l →
  Told (RoClaim (f_run_id fence) now (rn_application rn)) (Ok (Some fence)) ∈ l0 →
  Told (RoGet (f_run_id fence)) (Ok (Some saved)) ∈ l0 → a_id (r_admission saved) = f_run_id fence →
  track (e ← execute_drive rn fuel saved fence m; mret (Some (en_status e))) l r →
  drives_well (f_run_id fence) m (l0 ++ l) r.
Proof.
  intros Hq He0 Hc Hcl Hg Hid Ht.
  assert (∀ o x, Told o x ∈ l0 → acts o = None) as Hn by (intros o v Hin; by apply (proj1 (Forall_forall _ _) Hq) in Hin).
  assert (∃ e, acts_well rn fuel fence saved m l e ∧ ∀ s, r = Ok s → ∃ e', e = Ok e' ∧ s = Some (en_status e'))
    as (e & (Hl & He & Hr & Hend) & Hres).
  { apply track_bind in Ht as [(e & l1 & l2 & -> & Hx & [-> ->])|(f & Hx & ->)];
      [|by exists (Err f); split; [eapply execute_spec|]]. rewrite app_nil_r in *.
    exists (Ok e). split; [by eapply execute_spec|]. intros s [= <-]. by exists e. }
  assert (∃ now', Told (RoClaim (f_run_id fence) now' (rn_application rn)) (Ok (Some fence)) ∈ l0 ++ l) as Hcl'
    by (exists now; set_solver).
  split_and!.
  - intros o v f [Hin|Hin]%elem_of_app Ha; [by rewrite (Hn o v Hin) in Ha|]. by rewrite (Hl o v f Hin Ha).
  - rewrite ends_app. lia.
  - intros d v [Hin|Hin]%elem_of_app; [by apply Hn in Hin|]. exists fence, saved. split_and!; [done|set_solver|].
    apply raced_well_after; [|by apply Hr]. intros o v' Hin'. apply Hn in Hin'. by destruct o.
  - destruct r as [s|]; [|done]. destruct (Hres s eq_refl) as (e' & -> & ->). right. exists fence, e'.
    split_and!; [done| |done]. eapply ending_mono, Hend; [set_solver|done].
Qed.
(** C8: Whatever the store, the host and the interpreter answer a drive: it acts under the lease it
    claimed and no other; it gives the run to the interpreter at most once, with what it was
    admitted with, and only after the start check passed and its definition still binds what it
    bound; it ends the run or gives the lease back at most once; and when it reports a status it
    did one of the two, or found the run ended, or had lost the lease. *)
Theorem drive_keeps_to_its_lease id m l r : orderly id l → track (drive_mode rn fuel id m) l r → drives_well id m l r.
Proof.
  intros [Hc Hclaim Hget] Ht. unfold drive_mode in Ht.
  apply track_bind in Ht as [(permit & l1 & l2 & -> & Hp & Ht)|(e & Hp & ->)]; apply track_call in Hp as (x & -> & _);
    [|by apply idle_drives; [repeat constructor|]].
  destruct (negb permit); [destruct Ht as [-> ->]; by apply idle_drives; [repeat constructor|]|].
  apply track_bind in Ht as [(now & l3 & l4 & -> & Hn & Ht)|(e & Hn & ->)]; apply track_call in Hn as (y & -> & _);
    [|by apply idle_drives; [repeat constructor|]].
  apply track_bind in Ht as [(fence & l5 & l6 & -> & Hf & Ht)|(e & Hf & ->)]; apply track_call in Hf as (z & -> & Hz);
    [|by apply idle_drives; [repeat constructor|]].
  destruct z as [fence'|]; [injection Hz as <-|done]. destruct fence as [fence|].
  - assert (f_run_id fence = id) as <- by (eapply Hclaim; right; right; by left).
    apply track_bind in Ht as [(saved & l7 & l8 & -> & Hg & Ht)|(e & Hg & ->)]; apply track_call in Hg as (v & -> & Hv);
      [|apply idle_drives; [repeat constructor|done]].
    destruct v as [saved'|]; [injection Hv as <-|done]. destruct saved as [saved|];
      [|destruct Ht as [-> ->]; apply idle_drives; [repeat constructor|done]].
    rewrite !(assoc_L (++)). rewrite !(assoc_L (++)) in Hc, Hget. apply clocked_app in Hc as [_ Hc].
    eapply claimed_drives, Ht; [repeat constructor|done|done|right; right; by left|right; right; right; by left|].
    apply Hget. right; right; right; by left.
  - apply track_bind in Ht as [(o & l7 & l8 & -> & Hg & [-> ->])|(e & Hg & ->)]; apply track_call in Hg as (v & -> & Hv).
    + destruct v as [saved|]; [injection Hv as <-|done]. apply idle_drives; [repeat constructor|].
      intros s [= Hs]. apply bind_Some in Hs as (r0 & -> & Hs). exists r0. split; [set_solver|done].
    + apply idle_drives; [repeat constructor|done].
Qed.
End drives.

(** ** From admission to the drive *)

Section resumes.
Context `{Host, Libraries, RuntimeLibraries, Calendar}.
Variable adm : Admitter.
Variable fuel : nat.
(** A worker with the registry and the capabilities of the admitter, whatever else it is
    configured with. *)
Variable rn : Runtime.
Hypothesis same_registry : ad_registry (rn_admitter rn) = ad_registry adm.
Hypothesis same_capabilities : ad_capabilities (rn_admitter rn) = ad_capabilities adm.
Hypothesis ceiling : 0 ≤ lm_max_jumps (ad_limits adm).
Local Abbreviation top := (lm_max_jumps (ad_limits adm)).

(** What an admission pins: its bindings, and its place, whatever the limits are later. *)
Definition pins (l : Lineage) (a : Admission) : Prop :=
  (∃ p, validate_with (ad_registry adm) (ad_capabilities adm) (a_definition a) = Ok p ∧
     vindex "bindings" (a_runtime a) = bindings (ad_registry adm) (pa_workflow p) ∧
     max_jumps (wf_budget (pa_workflow p)) top = default top (bu_max_jumps (wf_budget (pa_workflow p)))) ∧
  ∀ limits, lineage_of a limits = l.
Lemma pins_with l k v a : k ≠ "bindings" → k ≠ "limits" → pins l a → pins l (with_runtime k v a).
Proof.
  intros Hb Hl [(p & Hp & Hbind & Hj) Hlin]. split; [|intros limits; rewrite lineage_with by done; apply Hlin].
  exists p. split_and!; [done| |done]. rewrite <- Hbind. unfold vindex, with_runtime. cbn [a_runtime]. by rewrite vget_vset_ne.
Qed.
Lemma pins_host l h a : pins l a → pins l (with_host h a).
Proof. destruct h; [by apply pins_with|done]. Qed.
Lemma runtime_bindings l b s t : vindex "bindings" (runtime_value adm l (Some (b, s)) t) = b.
Proof. unfold runtime_value. by destruct (ad_application adm), t as [[]|]. Qed.
Lemma within_ceiling wf u : validate_limits wf (ad_limits adm) = Ok u → max_jumps (wf_budget wf) top = default top (bu_max_jumps (wf_budget wf)).
Proof.
  unfold validate_limits, max_jumps. destruct (bu_max_jumps (wf_budget wf)) as [n|]; [|done]. case_decide; [done|]. intros _. cbn. lia.
Qed.
Lemma of_pins id d input l t a : in_range l → track (admission_of adm fuel id d input l) t (Ok a) → pins l a.
Proof.
  intros Hl Ht. unfold admission_of in Ht.
  apply track_bind in Ht as [(u & t1 & t2 & -> & _ & Ht)|(? & _ & ?)]; [|done].
  apply track_bind in Ht as [(p & t3 & t4 & -> & Hp & Ht)|(? & _ & ?)]; [|done].
  apply track_bind in Ht as [(s & t5 & t6 & -> & _ & Ht)|(? & _ & ?)]; [|done].
  apply track_map_err in Hp as [(p' & Hpp & Hp)|(? & ? & _)]; [|done]. injection Hpp as ->. unfold validated in Hp.
  apply track_bind in Hp as [(p1 & t7 & t8 & -> & Hv & Hp)|(? & _ & ?)]; [|done].
  apply track_fail in Hv as (-> & [(p2 & Hv & Hx)|(? & _ & ?)]); [|done]. injection Hx as <-.
  apply track_bind in Hp as [(u1 & t9 & t10 & -> & Hlim & Hp)|(? & _ & ?)]; [|done].
  apply track_fail in Hlim as (-> & [(u2 & Hlim & _)|(? & _ & ?)]); [|done].
  apply track_bind in Hp as [(s1 & t11 & t12 & -> & _ & [_ Hp])|(? & _ & ?)]; [|done]. injection Hp as <-.
  unfold admission in Ht. apply track_bind in Ht as [(tr & t13 & t14 & -> & _ & [_ Ht])|(? & _ & ?)]; [|done]. injection Ht as ->.
  split; [|intros limits; by apply lineage_of_pin]. exists p'. split_and!; [done|apply runtime_bindings|by eapply within_ceiling].
Qed.
(** What a drive, of fuel [n], of a saved run of [a] makes of it when it answers: it gave the
    run to the interpreter, with its definition's reading [p], or the start check found a
    function missing, and the run was ended for that. *)
Definition drive_resumes (a : Admission) (p : Parsed) : Prop :=
  ∀ n saved fence m l s, r_admission saved = a → track (execute_drive rn n saved fence m) l (Ok s) →
    (∃ loaded x, Told (RoRace (driven rn saved fence m p loaded)) x ∈ l) ∨
    ∃ checked missing now, checked ⊆ l ∧
      track (check (rn_admitter rn) n (a_name a, a_version a, a_definition a)) checked (Err (RfMissing missing)) ∧
      Told (RoFinish fence (Faulted (missing_error missing)) now (ad_breaker_threshold (rn_admitter rn))) (Ok (en_status s)) ∈ l.
(** A run that resumes: its definition is the worker's to run, and its drive has the
    host data, the depth, and the ceiling it was admitted with, which its own budget, at
    most that, tightens. *)
Definition resumes (l : Lineage) (a : Admission) : Prop :=
  ∃ p, resumable rn a = Ok p ∧ drive_resumes a p ∧ ∀ saved fence m loaded, r_admission saved = a →
    let d := driven rn saved fence m p loaded in
    st_wf (dv_start d) = pa_workflow p ∧ st_input (dv_start d) = a_input a ∧ xn_host (dv_host d) = Types.host a ∧
    lm_max_jumps (st_limits (dv_start d)) = ln_max_jumps l ∧
    xn_lineage (dv_host d) = mkLineage (max_jumps (wf_budget (pa_workflow p)) (ln_max_jumps l)) (ln_depth l) ∧
    default top (bu_max_jumps (wf_budget (pa_workflow p))) ≤ top.
Lemma resumable_drives a p : resumable rn a = Ok p → drive_resumes a p.
Proof.
  intros Hp n saved fence m l s <- Ht. unfold execute_drive in Ht. cbv zeta in Ht.
  apply track_bind in Ht as [(now & l1 & l2 & -> & _ & Ht)|(e & _ & ?)]; [|done].
  apply track_bind in Ht as [(loaded & l3 & l4 & -> & _ & Ht)|(e & _ & ?)]; [|done].
  apply track_bind in Ht as [(checked & l5 & l6 & -> & Hk & Ht)|(e & _ & ?)]; [|done].
  apply track_outcome in Hk as (k & Hkk & Hk). injection Hkk as ->. destruct k as [[]|f].
  - left. rewrite Hp in Ht. apply track_bind in Ht as [(x & l7 & l8 & -> & Hx & _)|(e & _ & ?)]; [|done].
    apply track_call in Hx as (y & -> & _). exists loaded, y. set_solver.
  - right. destruct f; try by destruct Ht. exists l5, m0.
    apply track_bind in Ht as [(s' & l7 & l8 & -> & Hf & [-> Hs])|(e & _ & ?)]; [|done]. injection Hs as ->.
    unfold finish_drive in Hf. apply track_bind in Hf as [(now' & l9 & l10 & -> & _ & Hf)|(e & _ & ?)]; [|done].
    apply track_call in Hf as (y & -> & Hy). destruct y as [y|]; [injection Hy as ->|done]. exists now'. split_and!; [set_solver|done|set_solver].
Qed.
Lemma pins_resumes l a : pins l a → resumes l a.
Proof using same_registry same_capabilities ceiling.
  intros [(p & Hp & Hb & Hj) Hl]. assert (resumable rn a = Ok p) as Hr.
  { unfold resumable. rewrite same_registry, same_capabilities, Hp. cbn. by rewrite decide_True. }
  exists p. split_and!; [done|by apply resumable_drives|].
  intros saved fence m loaded <-. cbv zeta. unfold driven. cbv zeta. rewrite Hl. cbn. split_and!; [done..|].
  rewrite <- Hj. unfold max_jumps. destruct (bu_max_jumps _); lia.
Qed.
Lemma active_pins id name input l t a : in_range l → track (active_in adm fuel id name input l) t (Ok a) → pins l a.
Proof.
  intros Hl Ht. apply track_bind in Ht as [(d & t1 & t2 & -> & _ & Ht)|(? & _ & ?)]; [|done]. by eapply of_pins.
Qed.
Lemma pinned_pins id name v input l t a : in_range l → track (pinned_in adm fuel id name v input l) t (Ok a) → pins l a.
Proof.
  intros Hl Ht. apply track_bind in Ht as [(d & t1 & t2 & -> & _ & Ht)|(? & _ & ?)]; [|done].
  destruct (versions d !! v); [|by destruct Ht].
  apply track_bind in Ht as [(a' & t3 & t4 & -> & Ha & [_ Ht])|(? & _ & ?)]; [|done]. injection Ht as ->.
  apply pins_with; [done..|]. by eapply of_pins.
Qed.
(** C37: A run resumes as it was admitted: a worker with the functions and the capabilities of
    the admitter, however its limits were changed meanwhile, finds what start and a firing admit
    to be its own to run, its definition valid and its bindings as they were; a drive of it that
    answers gave it to the interpreter, unless the start check, which follows the versions of
    its children that are active by then, found a function missing, when the run is faulted for
    that; and the interpreter has the input, the host data and the depth of the admission and its
    ceiling of jumps, which the definition's own budget never exceeds. *)
Theorem admitted_run_resumes :
  (∀ id name input version host_ l r a now x,
     track (start_with adm fuel id name input version host_) l r → Told (RoAdmit a now) x ∈ l →
     resumes (mkLineage top 0) a) ∧
  (∀ id name input schedule l a, track (triggered adm fuel id name input schedule) l (Ok (Ok a)) →
     resumes (mkLineage top 0) a).
Proof using same_registry same_capabilities ceiling.
  assert (in_range (mkLineage top 0)) as Hr by (unfold in_range, u32_max; cbn; lia). split.
  - intros id name input version host_ l r a now x Ht Hin. apply pins_resumes. unfold start_with in Ht.
    apply track_bind in Ht as [(h & l1 & l2 & -> & Hh & Ht)|(e & Hh & _)]; apply track_fail in Hh as (-> & _);
      [|by apply elem_of_nil in Hin]. cbn [app] in Hin.
    apply track_bind in Ht as [(saved & l3 & l4 & -> & Hg & Ht)|(e & Hg & _)]; apply track_call in Hg as (y & -> & _);
      [|by apply list_elem_of_singleton in Hin].
    apply elem_of_app in Hin as [Hin|Hin]; [by apply list_elem_of_singleton in Hin|]. destruct saved as [saved|].
    { apply track_bind in Ht as [(u & l5 & l6 & -> & Hj & [-> _])|(e & Hj & _)]; apply track_fail in Hj as (-> & _);
        by apply elem_of_nil in Hin. }
    match type of Ht with track (?q ≫= _) _ _ => assert (asks_no starting q ∧ ∀ t b, track q t (Ok b) → pins (mkLineage top 0) b) as [Hq Hp] end.
    { destruct version; split; [by apply asks_no_pinned|by intros; eapply pinned_pins|by apply asks_no_active|by intros; eapply active_pins]. }
    apply track_bind in Ht as [(b & l5 & l6 & -> & Hb & Ht)|(e & Hb & _)];
      [|by pose proof (asks_no_track _ _ _ _ Hq Hb _ _ Hin)].
    apply elem_of_app in Hin as [Hin|Hin]; [by pose proof (asks_no_track _ _ _ _ Hq Hb _ _ Hin)|]. apply Hp in Hb.
    apply track_bind in Ht as [(now' & l7 & l8 & -> & Hn & Ht)|(e & Hn & _)]; apply track_call in Hn as (z & -> & _);
      [|by apply list_elem_of_singleton in Hin].
    apply elem_of_app in Hin as [Hin|Hin]; [by apply list_elem_of_singleton in Hin|].
    apply track_bind in Ht as [(v & l9 & l10 & -> & Ha & Ht)|(e & Ha & _)]; apply track_call in Ha as (z' & -> & _).
    + apply elem_of_app in Hin as [Hin|Hin]; [apply list_elem_of_singleton in Hin; injection Hin as -> _ _; by apply pins_host|].
      apply track_bind in Ht as [(s & l11 & l12 & -> & Hs & Ht)|(e & Hs & _)]; apply track_call in Hs as (z'' & -> & _);
        [|by apply list_elem_of_singleton in Hin]. apply elem_of_app in Hin as [Hin|Hin]; [by apply list_elem_of_singleton in Hin|].
      destruct s; destruct Ht as [-> _]; by apply elem_of_nil in Hin.
    + apply list_elem_of_singleton in Hin. injection Hin as -> _ _. by apply pins_host.
  - intros id name input schedule l a Ht. apply pins_resumes. unfold triggered in Ht.
    apply track_bind in Ht as [(d & l1 & l2 & -> & _ & Ht)|(? & _ & ?)]; [|done].
    apply track_bind in Ht as [(x & l3 & l4 & -> & Hx & Ht)|(? & _ & ?)]; [|done].
    apply track_outcome in Hx as (y & Hxy & Hy). injection Hxy as ->. destruct y as [b|f].
    + destruct Ht as [_ Ht]. injection Ht as ->. apply pins_with; [done..|]. by eapply of_pins.
    + destruct (refusal_of f); [|by destruct Ht].
      by apply track_bind in Ht as [(b & l5 & l6 & -> & _ & [_ ?])|(? & _ & ?)].
Qed.
End resumes.

(** ** What a replay answers *)

(** Annotations kept under their names, their texts mapped; and read back from a value. *)
Definition map_annotation (h : string → string) (a : Annotation) : Annotation :=
  match a with AText s => AText (h s) | ANumber n => ANumber n end.
Lemma convert_annotations_total {E} (h : string → string) m :
  convert_annotations (E := E) (λ s, Ok (h s)) m = Ok (map_annotation h <$> m).
Proof.
  destruct (fold_entries (E := E) m (λ k, k) (λ _ a b, b = map_annotation h a)) as (M & HM & HM' & HF); [done|eauto|].
  replace (map_annotation h <$> m) with M.
  - apply HF. by intros out k [n|s] b _ ->.
  - apply map_eq. intros k. apply option_eq. intros b. rewrite lookup_fmap, fmap_Some. split.
    + intros (k' & a & <- & Hk & -> & _)%HM. by exists a.
    + intros (a & Ha & ->). by destruct (HM' _ _ Ha) as (b & -> & Hb).
Qed.
Lemma annotations_from_fold l out : annotations_from l out =
  foldl (λ acc x, out ← acc; a ← value_annotation x.2; Ok (<[x.1 := a]> out)) (Ok out) l.
Proof.
  revert out. induction l as [|[k v] l IH]; intros out; [done|]. cbn [annotations_from foldl fst snd].
  change (out0 ← Ok out; ?f out0) with (f out). rewrite bind_ok.
  destruct (value_annotation v) as [a|e]; [apply IH|]. clear IH. cbn. by induction l.
Qed.
Lemma value_annotation_back a : value_annotation (annotation_value a) = Ok a.
Proof. by destruct a. Qed.
Lemma annotations_back m : annotations_from (entries (annotation_value <$> m)) ∅ = Ok m.
Proof.
  rewrite annotations_from_fold.
  destruct (fold_entries (E := string) (annotation_value <$> m) (λ k, k) (λ _ v a, v = annotation_value a)) as (M & HM & HM' & HF); [done| |].
  { intros k v (a & <- & _)%lookup_fmap_Some. eauto. }
  assert (∀ a b, annotation_value a = annotation_value b → a = b) as Hinj by (by intros [] []; intros [= ->]).
  replace m with M at 2; [|].
  - apply HF. intros out k v a _ ->. cbn [fst snd]. by rewrite bind_ok, value_annotation_back.
  - apply map_eq. intros k. apply option_eq. intros a. split.
    + intros (k' & v & <- & Hv & -> & _)%HM. apply lookup_fmap_Some in Hv as (b & Hb & Hm). by apply Hinj in Hb as <-.
    + intros Ha. destruct (HM' k (annotation_value a)) as (b & Hb & HMb); [by rewrite lookup_fmap, Ha|]. by apply Hinj in Hb as ->.
Qed.
(** An object of annotations is restored when its names hold no marks. *)
Lemma annotations_restored (h : string → string) (g : string → result string string) m :
  (∀ s, g (h s) = Ok s) → (∀ k, is_Some (m !! k) → g k = Ok k) →
  map_strings g (VObj (annotation_value <$> (map_annotation h <$> m))) = Ok (VObj (annotation_value <$> m)).
Proof.
  intros Hg Hk. cbn [map_strings]. set (n := map_strings g <$> _).
  destruct (fold_entries (E := string) n (λ k, k) (λ _ (x : result string value) v, x = Ok v)) as (M & HM & HM' & HF); [done| |].
  { intros k x. unfold n. rewrite !lookup_fmap. destruct (m !! k) as [[num|s]|]; cbn; [| |done].
    - intros [= <-]. eauto.
    - intros [= <-]. rewrite Hg. cbn. eauto. }
  assert (∀ k, M !! k = annotation_value <$> m !! k) as HMk.
  { intros k. destruct (m !! k) as [a|] eqn:Ea.
    - assert (n !! k = Some (Ok (annotation_value a))) as Hn.
      { unfold n. rewrite !lookup_fmap, Ea. destruct a; cbn; [done|]. by rewrite Hg. }
      destruct (HM' _ _ Hn) as (v & [= <-] & Hv). done.
    - destruct (M !! k) as [v|] eqn:Ev; [|done]. apply HM in Ev as (k' & x & -> & Hx & _).
      unfold n in Hx. by rewrite !lookup_fmap, Ea in Hx. }
  rewrite HF.
  - rewrite bind_ok. do 2 f_equal. apply map_eq. intros k. by rewrite HMk, lookup_fmap.
  - intros out k x v Hx ->. cbn [fst snd]. rewrite !bind_ok. rewrite Hk; [by rewrite bind_ok|].
    unfold n in Hx. rewrite !lookup_fmap in Hx. by destruct (m !! k).
Qed.

Lemma recorded_calls_other l out m j : recorded_calls l out = Ok m → j +:+ "#call" ∉ l.*1 → m !! j = out !! j.
Proof.
  revert out. induction l as [|[k r] l IH]; intros out; cbn [recorded_calls fmap list_fmap]; [by intros [= <-]|].
  intros Hm [Hk Hj]%not_elem_of_cons. destruct r; try by apply IH.
  destruct (strip_suffix "#call" k) as [ref|] eqn:Ek; [|done]. apply strip_suffix_Some in Ek as ->.
  rewrite (IH _ Hm Hj), lookup_insert_ne; [done|]. by intros ->.
Qed.
Lemma recorded_calls_get l out m ref c : NoDup l.*1 → recorded_calls l out = Ok m → (ref +:+ "#call", RCall c) ∈ l →
  m !! ref = Some (recorded_call ref c, call_status (delivery c) (call_state c)).
Proof.
  revert out. induction l as [|[k r] l IH]; intros out; [by intros _ _ ?%elem_of_nil|].
  rewrite fmap_cons, NoDup_cons. intros [Hk HN] Hm [Hin|Hin]%elem_of_cons.
  - injection Hin as <- <-. cbn [recorded_calls] in Hm. rewrite strip_suffix_app in Hm.
    rewrite (recorded_calls_other _ _ _ _ Hm Hk). by rewrite lookup_insert_eq.
  - cbn [recorded_calls] in Hm. destruct r; try by eapply IH. destruct (strip_suffix "#call" k); [by eapply IH|done].
Qed.

(** A call as a run stores it. *)
Definition stored_state (s : Redaction) (st : CallState) : CallState :=
  match st with
  | Pending => Pending
  | NotExecuted e => NotExecuted (redact_error s e)
  | Done (Ok v) => Done (Ok (redact_value s v))
  | Done (Err e) => Done (Err (redact_error s e))
  end.
Definition stored_call (s : Redaction) (c : Call) : Call :=
  mkCall (logical c) (function c) (redact_value s (arguments c)) (delivery c) (stored_state s (call_state c))
    (map_annotation (text s) <$> annotations c).
Lemma map_error_total {E} h e : map_error (E := E) (λ s, Ok (h s)) e =
  Ok (mkError (h (err_type e)) (err_status e) (h <$> err_title e) (h <$> err_detail e) (h <$> err_instance e)).
Proof. by destruct e as [t st [] [] []]. Qed.
Lemma redact_call s c : legible (red_texts s) = true → redact_record s (RCall c) = RCall (stored_call s c).
Proof.
  intros Hl. unfold stored_call. unfold redact_record, redact_value. destruct (Secrets.active s) eqn:Ha.
  - assert (∀ v, map_strings (E := string) (λ t, Ok (text s t)) v = Ok (or_self v (map_strings (E := string) (λ t, Ok (text s t)) v))) as Hm.
    { intros v. destruct (map_strings_mapped (text s) (restore_text s) (text_mapped s Ha Hl) v) as (v' & -> & _). done. }
    cbn [convert]. rewrite Hm, bind_ok. rewrite convert_annotations_total.
    assert (convert_state (E := string) (λ t, Ok (text s t)) (call_state c) = Ok (stored_state s (call_state c))) as ->.
    { destruct (call_state c) as [|e|[v|e]]; cbn [convert_state]; [done| | |].
      - by rewrite map_error_total, bind_ok.
      - rewrite Hm, bind_ok. unfold stored_state, redact_value. by rewrite Ha.
      - by rewrite map_error_total, bind_ok. }
    by rewrite !bind_ok.
  - cbn [or_self]. assert (∀ t, text s t = t) as Ht by (intros t; unfold text; by rewrite Ha).
    assert (∀ e, redact_error s e = e) as He.
    { intros [ty st ti de ins]. unfold redact_error. cbn. rewrite Ht. f_equal; [destruct ti|destruct de|destruct ins]; cbn; by rewrite ?Ht. }
    destruct c as [lo fn ar de st an]. cbn. f_equal. f_equal.
    + destruct st as [|e|[v|e]]; cbn; [done| | |]; rewrite ?He; [done| |done]. unfold redact_value. by rewrite Ha.
    + apply map_eq. intros k. rewrite lookup_fmap. destruct (an !! k) as [[n|t]|]; cbn; by rewrite ?Ht.
Qed.
Lemma annotations_come_back s m : legible (red_texts s) = true → (∀ k, is_Some (m !! k) → mark_free k) →
  restored_annotations s (map_annotation (text s) <$> m) = Ok m.
Proof.
  intros Hl Hk. unfold restored_annotations, restore_value. destruct (Secrets.active s) eqn:Ha.
  - rewrite (annotations_restored (text s) (restore_text s)); [|by apply text_mapped|].
    + rewrite bind_ok. apply annotations_back.
    + intros k Hin. unfold restore_text. by rewrite (Hk k Hin).
  - rewrite bind_ok. assert (map_annotation (text s) <$> m = m) as ->; [|apply annotations_back].
    apply map_eq. intros k. rewrite lookup_fmap. unfold text. rewrite Ha. by destruct (m !! k) as [[]|].
Qed.

(** The call [info] makes is the recorded [c]: of the same target, arguments, logical
    reference and delivery. *)
Definition same_call (c : Call) (name : string) (args : value) (info : CallInfo) : Prop :=
  function c = name ∧ redact_value (ci_secrets info) (arguments c) = redact_value (ci_secrets info) args ∧
  logical c = ci_logical info ∧ delivery c = ci_delivery info.
(** What the call answered, as a replay tells it: a value and its annotations with their
    secrets; an error and its annotations as they are stored, redacted, though the comment of
    [replayed] says that the result gets its secrets back. *)
Definition told (s : Redaction) (c : Call) : result (CallFailure * Annotations) Output :=
  match call_state c with
  | Done (Ok v) => Ok (mkOut v (annotations c))
  | Done (Err e) => Err (FResponse (redact_error s e), map_annotation (text s) <$> annotations c)
  | NotExecuted e => Err (FNotExecuted (redact_error s e), ∅)
  | Pending => Err (FUnknown (Error.unknown_outcome "the recorded call has no answer"), ∅)
  end.
(** C39: A replay answers as the run's records do. A call that the run made, whose record is among
    those the replay was made from, is answered with the value and the annotations it had, secrets
    included; or, told apart by how far the call got, with its error, which is handed on as it is
    stored, redacted, with its annotations redacted, so that an error that held a secret is not
    told as it was, although [replayed]'s comment says that the result gets its secrets back. A
    call the run did not make so, or not at all, is refused as not executed; and but for noting the
    record as used nothing is asked of the host or the store. The records are keyed once, the
    secrets are legible (secrets and paths are not empty and hold no mark, paths differ, and no
    secret occurs in a path it could spoil), and the names of the call's annotations hold no
    marks. *)
Theorem replay_answers_as_recorded records r name args info l x :
  NoDup records.*1 → recorded_of records = Ok r → track (replayed r name args info) l x →
  let key := ci_reference info +:+ "#call" in
  let s := ci_secrets info in
  (∀ c, legible (red_texts s) = true → (∀ k, is_Some (annotations c !! k) → mark_free k) →
     (key, redact_record s (RCall c)) ∈ records →
     (same_call c name args info → ∃ y, l = [Told (RoUsed (ci_reference info)) y] ∧
        (y = Ok () → x = told s c ∧
           ∀ e, call_state c = Done (Err e) → redact_error s e ≠ e → ∀ m, x ≠ Err (FResponse e, m))) ∧
     (¬ same_call c name args info → l = [] ∧ ∃ e, x = Err (FNotExecuted e, ∅))) ∧
  (key ∉ records.*1 → l = [] ∧ ∃ e, x = Err (FNotExecuted e, ∅)).
Proof.
  intros HN Hr Ht. cbv zeta. unfold recorded_of in Hr. destruct (recorded_calls records ∅) as [calls|] eqn:Ec; [|done].
  rewrite bind_ok in Hr. injection Hr as <-. unfold replayed in Ht. cbn [re_calls] in Ht. split.
  - intros c Hl Hk Hin. rewrite redact_call in Hin by done. rewrite (recorded_calls_get _ _ _ _ _ HN Ec Hin) in Ht.
    unfold same_call. cbn [recorded_call rc_function rc_arguments rc_logical rc_delivery rc_result rc_annotations stored_call
      function arguments logical delivery annotations call_state] in Ht. case_decide as Hb.
    { destruct Ht as [-> ->]. split; [intros (? & ? & ? & ?); tauto|]. intros _. split; [done|eauto]. }
    split; [|intros Hn; exfalso; destruct Hn; split_and!; by apply dec_stable; tauto]. intros _.
    enough (∃ y, l = [Told (RoUsed (ci_reference info)) y] ∧ (y = Ok () → x = told (ci_secrets info) c)) as (y & -> & Hy).
    { exists y. split; [done|]. intros Hok. specialize (Hy Hok). split; [exact Hy|]. intros e He Hne m Hx. rewrite Hx in Hy.
      unfold told in Hy. rewrite He in Hy. by injection Hy as Hy _. }
    apply track_bind in Ht as [(u & l1 & l2 & -> & Hu & Ht)|(e & Hu & ->)]; apply track_call in Hu as (y & -> & Hy);
      exists y; [|split; [done|by intros ->]].
    pose proof (annotations_come_back _ _ Hl Hk) as Hann. unfold told.
    destruct (call_state c) as [|e|[v|e]]; cbn [stored_state call_status] in Ht.
    + destruct (delivery c); by destruct Ht as [-> ->].
    + by destruct Ht as [-> ->].
    + rewrite (value_restored _ v Hl), Hann in Ht. by destruct Ht as [-> ->].
    + by destruct Ht as [-> ->].
  - intros Hk. rewrite (recorded_calls_other _ _ _ _ Ec Hk), lookup_empty in Ht. destruct Ht as [-> ->]. eauto.
Qed.

(** ** Concrete inputs *)

Abbreviation sample_branches := [BTick; BBeat; BTicked (Ok ["x"; "y"; "x"; "z"]); BRun "x" (Ok None); BStop; BNotified (Ok ());
  BRun "y" (Err (RfOther "store")); BBeaten (Err (RfOther "beat"))].
Definition sample_loop (n : nat) : Loop := default new_loop (loop_run 2 (firstn n sample_branches) new_loop).
Lemma worker_returns_witness :
  lo_running (sample_loop 3) = ["y"; "x"] ∧ NoDup (lo_running (sample_loop 3)) ∧
  returned (sample_loop 8) = true ∧ worker_result (sample_loop 8) = Err (RfOther "beat") ∧
  ∃ b, b ∈ sample_branches ∧ branch_failed b = Some (RfOther "beat").
Proof.
  split; [vm_compute; reflexivity|].
  destruct (worker_returns 2 (firstn 3 sample_branches) (sample_loop 3)) as [(Hn & _) _]; [vm_compute; reflexivity|].
  split; [exact Hn|]. split; [vm_compute; reflexivity|].
  assert (worker_result (sample_loop 8) = Err (RfOther "beat")) as E by (vm_compute; reflexivity). split; [exact E|].
  destruct (worker_returns 2 sample_branches (sample_loop 8)) as (_ & _ & Hr); [vm_compute; reflexivity|].
  rewrite E in Hr. exact Hr.
Defined.

Abbreviation kin_both := (kin_admitter ["a"; "b"]).
Definition kin_worker : Runtime := mkRuntime kin_both default_compatibility 2 0 "w" None 0.
Definition kin_admission : Admission :=
  match (rt_play kin_world (admission_of kin_both 3 "p" (version_of "parent" "parent") VNull (mkLineage 20 0))).2 with
  | Ok a => a
  | Err _ => mkAdmission "" "" 0 "" VNull VNull
  end.
(** The world of a drive of the run [p]: it is [p]'s lease that is claimed, and the run ends. *)
Definition drive_world (o : rt_op) : result fault (rt_answer o) :=
  match o with
  | RoGet id => Ok (if decide (id = "p") then
        Some (mkRun kin_admission SRunning None 1 None 0 0 None None None 0 None None ∅ None) else None)
  | RoClaim id _ _ => Ok (if decide (id = "p") then Some (mkFence "p" "w" 1) else None)
  | RoLoad _ _ => Ok ∅
  | RoRace _ => Ok (RcEnded (mkRunOutcome (Completed (vint 7)) [] 2 false))
  | RoStopped => Ok false
  | RoFinish _ s _ _ => Ok s
  | o => kin_world o
  end.
Abbreviation kin_drive := (rt_play drive_world (drive_mode kin_worker 3 "p" Live)).
Lemma drive_keeps_to_its_lease_witness :
  kin_drive.2 = Ok (Some (Completed (vint 7))) ∧ ends kin_drive.1 = 1%nat ∧ length (omap race_of kin_drive.1) = 1%nat ∧
  drives_well kin_worker 3 "p" Live kin_drive.1 kin_drive.2.
Proof.
  split; [vm_compute; reflexivity|]. split; [vm_compute; reflexivity|]. split; [vm_compute; reflexivity|].
  apply (drive_keeps_to_its_lease kin_worker 3 "p" Live); [|apply (rt_play_track drive_world)]. split.
  - intros f Hin. apply rt_play_told in Hin. discriminate Hin.
  - intros now w f Hin. apply rt_play_told in Hin. injection Hin as ->. reflexivity.
  - intros saved Hin. apply rt_play_told in Hin. injection Hin as ->. reflexivity.
Defined.
(** A worker whose own ceiling is lower than the one the run is admitted under. *)
Definition kin_lower : Runtime :=
  mkRuntime (mkAdmitter (ad_registry kin_both) no_capabilities (VObj ∅) None (mkLimits 100 5 10 None None None) 3 3 10)
    default_compatibility 2 0 "w" None 0.
Definition admits (e : event) : option Admission := match e with Told (RoAdmit a _) _ => Some a | _ => None end.
Abbreviation kin_admits := (omap admits (rt_play drive_world (start_with kin_both 3 "q" "parent" VNull None (VStr "tenant"))).1).
Lemma admitted_run_resumes_witness :
  length kin_admits = 1%nat ∧ ∀ a, a ∈ kin_admits → resumes kin_both kin_lower (mkLineage 20 0) a.
Proof.
  split; [vm_compute; reflexivity|]. intros a (e & Hin & He)%list_elem_of_omap. destruct e as [o x].
  destruct (admitted_run_resumes kin_both 3 kin_lower eq_refl eq_refl ltac:(cbn; lia)) as [Hs _].
  destruct o; try discriminate He. injection He as ->. eapply Hs; [|exact Hin]. apply (rt_play_track drive_world).
Defined.
(** A replay of a run whose one call answered with a secret in its value and an annotation. *)
Definition replay_world (o : rt_op) : result fault (rt_answer o) :=
  match o with RoUsed _ => Ok () | o => kin_world o end.
Definition secret_info : CallInfo :=
  mkCallInfo "p" "/do/0/a" "/do/0/a" 1 AtLeastOnce VNull plain_redaction.
Definition secret_call (r : result WorkflowError value) : Call :=
  mkCall "/do/0/a" "a" (VStr "send s3cr3t") AtLeastOnce (Done r) {["note" := AText "s3cr3t-token"]}.
Definition secret_records (r : result WorkflowError value) : list (string * JRecord) :=
  [("/do/0/a#call", redact_record plain_redaction (RCall (secret_call r)))].
Definition secret_recorded (r : result WorkflowError value) : Recorded :=
  match recorded_of (secret_records r) with Ok x => x | Err _ => mkRecorded ∅ ∅ ∅ None end.
Abbreviation secret_replay r args := (rt_play replay_world (replayed (secret_recorded r) "a" args secret_info)).
Abbreviation secret_value := (VStr "got s3cr3t").
(** An error that the call was answered with comes back from the record with its secret, and
    is told to the replayed run without it. *)
Definition secret_error : WorkflowError := Error.runtime "no s3cr3t".
Lemma replay_answers_as_recorded_witness :
  secret_records (Ok secret_value) ≠ [("/do/0/a#call", RCall (secret_call (Ok secret_value)))] ∧
  (secret_replay (Ok secret_value) (VStr "send s3cr3t")).2 = Ok (mkOut secret_value {["note" := AText "s3cr3t-token"]}) ∧
  (secret_replay (Ok secret_value) (VStr "send s3cr3t-token")).1 = [] ∧
  (secret_replay (Err secret_error) (VStr "send s3cr3t")).2 = told plain_redaction (secret_call (Err secret_error)) ∧
  ∀ m, (secret_replay (Err secret_error) (VStr "send s3cr3t")).2 ≠ Err (FResponse secret_error, m).
Proof.
  split; [vm_compute; discriminate|].
  assert (∀ o args l x, recorded_of (secret_records o) = Ok (secret_recorded o) →
    track (replayed (secret_recorded o) "a" args secret_info) l x →
    (same_call (secret_call o) "a" args secret_info →
      ∃ y, l = [Told (RoUsed "/do/0/a") y] ∧ (y = Ok () → x = told plain_redaction (secret_call o) ∧
        ∀ e, o = Err e → redact_error plain_redaction e ≠ e → ∀ m, x ≠ Err (FResponse e, m))) ∧
    (¬ same_call (secret_call o) "a" args secret_info → l = [] ∧ ∃ e, x = Err (FNotExecuted e, ∅))) as Hr.
  { intros o args l x Ho Ht.
    destruct (replay_answers_as_recorded (secret_records o) (secret_recorded o) "a" args secret_info l x
      (NoDup_singleton "/do/0/a#call") Ho Ht) as [Hc _].
    destruct (Hc (secret_call o) plain_legible) as [Hsame Hother]; [|apply list_elem_of_here|].
    { intros k [a Ha]. cbn [annotations secret_call] in Ha. apply lookup_singleton_Some in Ha as [<- _]. vm_compute. reflexivity. }
    split; [|exact Hother]. intros Hs. destruct (Hsame Hs) as (y & Hl & Hy). exists y. split; [exact Hl|]. intros Hok.
    destruct (Hy Hok) as [Hx He]. split; [exact Hx|]. intros e ->. by apply He. }
  assert (∀ o, recorded_of (secret_records o) = Ok (secret_recorded o) → ∃ y : result fault (), y = Ok () ∧
    (y = Ok () → (secret_replay o (VStr "send s3cr3t")).2 = told plain_redaction (secret_call o) ∧
      ∀ e, o = Err e → redact_error plain_redaction e ≠ e → ∀ m, (secret_replay o (VStr "send s3cr3t")).2 ≠ Err (FResponse e, m))) as Hsent.
  { intros o Ho. destruct (Hr _ _ _ _ Ho (rt_play_track replay_world (replayed (secret_recorded o) "a" (VStr "send s3cr3t") secret_info)))
      as [(y & Hl & Hx) _]; [repeat split|]. exists y. split; [|exact Hx].
    refine (rt_play_told replay_world _ (RoUsed "/do/0/a") y _). rewrite Hl. by left. }
  destruct (Hsent (Ok secret_value)) as (y & -> & Hv); [vm_compute; reflexivity|].
  destruct (Hsent (Err secret_error)) as (y' & -> & He); [vm_compute; reflexivity|].
  destruct (Hv eq_refl) as [Hval _]. destruct (He eq_refl) as [Herr Hno]. split_and!; [exact Hval| |exact Herr|].
  - refine (proj1 (proj2 (Hr (Ok secret_value) _ _ _ _
      (rt_play_track replay_world (replayed (secret_recorded (Ok secret_value)) "a" (VStr "send s3cr3t-token") secret_info))) _)).
    + vm_compute. reflexivity.
    + intros (_ & Ha & _). vm_compute in Ha. discriminate Ha.
  - apply (Hno secret_error); [reflexivity|]. vm_compute. discriminate.
Defined.
Example replay_keeps_markers :
  match secret_records (Err secret_error) with
  | [(_, r)] => Secrets.restore plain_redaction r = Ok (RCall (secret_call (Err secret_error)))
  | _ => False
  end ∧
  match (secret_replay (Err secret_error) (VStr "send s3cr3t")).2 with
  | Err (FResponse e, _) => e = redact_error plain_redaction secret_error ∧ e ≠ secret_error
  | _ => False
  end.
Proof. split; vm_compute; [reflexivity|]. split; [reflexivity|discriminate]. Qed.
